(* ===== verification/_CoqProject ===== *)
-Q . S2P
Prelude.v
GoTime.v
Errors.v
Strings.v
Files.v
Storage.v
StorageProps.v
Identity.v
Address.v
Domain.v
Raftlog.v
Fsm.v
FsmInv.v
FsmProps.v
FsmSpec.v
Fencing.v
LeaseTracker.v
TrackerProps.v
Failover.v
LockQueue.v
Json.v
RaftFsm.v
RaftFsmProps.v
Node.v
Service.v
Solo.v
Waiting.v
NodeProps.v
Handover.v
ServiceProps.v
Steps.v
Leader.v
Transport.v
Stubs.v
Admin.v
Runtime.v
Cli.v
LocalCluster.v
Resolver.v
ResolverProps.v
Client.v
ClientProps.v
Exclusion.v
Cluster.v
Bench.v
Scenarios.v
Report.v
Harness.v
Demos.v
