(* ===== verification/Prelude.v ===== *)
(** * Clavis: a model of the distributed lock service and its proofs

    Clavis grants named locks to clients through leases. A client creates a lease
    with a TTL and keeps it alive with heartbeats; locks are acquired under a lease
    and carry a fencing token; when a lease dies its locks are released. State is
    replicated with the HashiCorp Raft library; renewals are not replicated, they
    live in the leader's memory.

    ** How the program is put together

    A request enters the gRPC server (internal/transport), which calls the service
    (internal/service), which checks that this node leads, validates the request
    and submits a command through the node (internal/cluster). Raft commits the
    command and applies it on every node to the state machine (internal/state),
    whose reply travels back. The leader also runs a lease tracker (who renewed
    when), queues of callers waiting for a lock, and two background loops (lease
    expiry, endpoint metadata). The SDK (pkg/client) finds the leader, retries and
    follows redirects, renews its lease, and stops trusting its locks when it can
    no longer prove the lease alive.

    ** Files

    - Prelude: Go's machine integers, results, map iteration order, tactics and
      shared lemmas. GoTime: instants with wall and monotonic readings. Errors:
      sentinel and typed errors, wrapping, [errors.Is] and [errors.As]. Strings:
      trimming, splitting, and host and port addresses.
    - Files: a node's data directory and the system calls on it, with faults and
      the contents a crash can leave. Storage: internal/cluster/storage.go.
      StorageProps: a small program logic for such code, the crash safety of the
      migration and the handles that stay open. Identity: internal/app/identity.go.
    - Domain, Raftlog: internal/domain and internal/raftlog (records, commands,
      getters, constructors).
    - Fsm: internal/state/fsm.go, every command handler and query. FsmInv: the
      invariant [fsm_wf], the transitions a command can make and preservation, and
      that a lease's record never changes.
      FsmProps: what locks, leases, tokens and errors obey along any log. FsmSpec:
      a sequential specification of the lock and the simulation that every log's
      lock operations refine it. Fencing: the fenced resources of examples/ and
      what the tokens give them.
    - LeaseTracker: the [leaseTracker] of internal/cluster/lease.go. TrackerProps:
      its guarantees within a term, over any sequence of calls. Failover: the
      guarantee across terms, nodes and differently set clocks.
    - LockQueue: internal/cluster/lockqueue.go. Waiting: the interleavings of
      waiting calls with everything else, as a step relation with its invariant.
      Handover: the expiry loop, the state machine and the queues together, when a
      holder dies.
    - Json, RaftFsm, RaftFsmProps: internal/state/raft_fsm.go, log entries and
      snapshots.
    - Node, NodeProps: internal/cluster/node.go, member.go and the node's part of
      lease.go. Service, ServiceProps: internal/service/service.go. Steps: the same
      operations call by call, as steps of concurrent requests. Leader: what a node
      serves during a term, in any interleaving, against the log and the tracker.
    - Transport: internal/transport (handlers, error translation, leader hints) and
      the messages of api/v1. Stubs: api/v1/lock_grpc.pb.go, from the client's stubs
      to the handlers.
    - Address, Runtime: internal/app/runtime.go. Admin: internal/app/admin.go, run
      against the handlers of Transport. LocalCluster: internal/app/localcluster.go.
      Cli: cmd/clavis/main.go, from parsed flags to the exit of the process.
    - Resolver, ResolverProps: pkg/client/resolver.go. Client, ClientProps:
      pkg/client/client.go, session.go, lock.go and watch.go. Exclusion: the client,
      the leaders' trackers and the log together, and why a lock has one owner.
      Cluster: the same over nodes, from [NewNode] on, and the steps they make.
    - Bench: the statistics, arguments and client helpers of cmd/clavis-bench.
      Scenarios: its configuration, target and six scenarios. Report: the numbers
      and tables it prints, and the lines of the examples. Harness: the replica
      of examples/failover.go and jepsen/holder, programs written against the SDK.
      Demos: the scripts of the two examples.
    - Solo: a one-node Raft library and a follower's, to evaluate the model.

    ** Modelling choices

    Pure code is a function. A method that runs under a mutex is one step from
    state to state. A method that changes state returns the new state. Errors are
    values of [result] or [option error]; a panic is [None]. Integers are [Z], and
    arithmetic is wrapped to its width where the source can leave it. Instants that
    the code reads from the clock are arguments. Ranging over a map visits it in an
    order given by the class [RangeOrder], so no theorem depends on the order.

    [Node_RenewLease], [CheckLeaseAlive] and [leaseExpiryTick] in Node are each one
    function, the operation undisturbed by others, although the code holds no mutex
    over the whole of it. Steps splits them into the calls they make to Raft, the
    state machine and the tracker, each reading the clock when it is reached, and
    lets the steps of different requests interleave; its lemmas
    [renewal_is_RenewLease], [check_is_CheckLeaseAlive] and [tick_is_leaseExpiryTick]
    show that undisturbed steps are the operations. The theorems about one operation
    (C21 to C23) use the functions, those about a term and about the cluster (C10,
    C1) the steps. [AcquireLock] while it waits is split into steps too; the snapshot
    that [Restore] installs is not among the steps of Waiting, see there.

    Code that works on the data directory is written in the monad [M] of Files: a
    state is the directory, the handles that are open, the outcome of each system
    or library call still to come (success or any error), and every content the
    directory has had. A process that is killed leaves one of those contents. Writes
    that reach the disk in another order after a power failure are not modelled.

    Code outside the repository is a parameter with the behaviour relied on as
    class fields: [ProtoCodec] (protobuf: what is marshalled unmarshals to itself),
    [RaftLib] (the Raft library: unconstrained answers, and the entries it applies
    during a call; in Leader, [LogSafety]: they are the next ones of one log, a
    committed entry carries the caller's term, and a barrier waits for the entries of
    earlier terms),
    [RaftStores] (the database and the logs: what is stored can be
    read back), [UuidLib] (ids print and parse back), [GrpcStatus] (the status
    package), [GrpcLib] (encoding and routing of calls). Loops that wait on channels, timers or the network take the events
    they meet as a list or a function of the attempt: [leaseExpiryLoop],
    [WaitForLeader], [Server_Heartbeat], [heartbeatLoop], [waitLoop],
    [failoverLoop], [callLoop], [replica_run], [holder_loop]. A blocking
    [AcquireLock] is a machine stepped by [wait_step]. Three loops have fuel: [tryLoop],
    a pass over cluster addresses, where the theorem [pass_terminates] gives the fuel
    that is always enough (the number of candidates plus four per address the nodes
    can name); [summarizeFrom], whose fuel is the number of writes, of which each
    turn consumes at least one; and [search_loop], the binary search of the failover
    benchmark, whose fuel is the length of the list it halves. [callLoop] is bounded by the ten attempts of
    the source.

    ** What the theorems show

    - The whole system: while a client's session is open, its lock is its own (C1).
      Nodes start with [NewNode] and make only the program's steps, interleaved in
      any way; what they acknowledge and submit is computed by running them. Of Raft
      the theorem uses [LogSafety] and what [cluster_history] of Cluster says: one
      log whose terms never decrease, one leader per term, entries submitted by the
      leader of their term, and later leaders that start after what a quorum has
      confirmed. Clocks run at the same rate. The theorem also names, as hypotheses,
      conditions the code does not ensure, each with an example or a lemma that shows
      what happens without it: calls reach a tracker in the order of their clock
      readings ([ch_in_order]; [renewals_can_regress]), no lease is checked in a term
      before its election is won ([ch_elected]; [check_starts_term]), a claim is
      submitted in its own term ([ch_origin]), no request of an earlier term is under
      way when a term begins ([ch_served]; [stale_term_forgets_claim]), and the
      client's loop starts soon after the lease was requested ([prompt_start];
      [slow_start_outlives_lease]).
    - The state machine: an invariant of every reachable state, fencing tokens that
      are consecutive and ordered along handovers, mutual exclusion, refinement of
      a sequential lock, fencing of stale writers end to end, exact expiry cascades
      (C2 to C8), determinism across replicas and the outcome of each command on
      each branch (C29, C30, C32, C33).
    - Leases: a renewal is kept across leader changes if trackers handle calls in the
      order of their readings, a leading node serves the log and its tracker in any
      interleaving, a claim is final whatever readings later calls carry, a new
      leader gives every lease a TTL of grace (C9 to C12).
    - Waiting: no lost wakeup, first come first served, a free lock is taken, a dead
      holder is replaced by the first who waits (C13 to C16), and non-waiting callers
      do not barge in (C34).
    - Snapshots: restoring and catching up equals replaying (C17); what Restore
      accepts (C40).
    - The data directory: migration survives any interruption, a directory keeps
      its identity (C18, C19), handles do not leak (C37).
    - The node and service: replies that are commits, what an acknowledged renewal
      is worth, expiry ticks (C20 to C23), validation that agrees with the state
      machine (C31), membership (C35), client stubs that reach the handler of their
      own method (C38), leader hints that round-trip (C39).
    - The client: a heartbeat loop that starts promptly and runs on time gives up
      neither early nor late, an invalidated session stays closed until the client is
      started again, failover passes end when the hinted addresses are bounded or the
      context ends (C24 to C26).
    - The process: joins reach the leader, a node that is started is fit to run,
      administrative calls end and follow up to nine redirects (C27, C28, C36).

    Other theorems of the same weight carry no number: [followers_redirect] in
    ServiceProps, [members_view], [new_node_starts_clean] and
    [node_clock_ignores_wall_jumps] in NodeProps, [grpc_code_of_cause] in Transport,
    [renewal_protects], [claim_exact], [deadline_after_latest] and
    [alive_iff_renewable] in TrackerProps, [table_aligned] in Report,
    [host_port_roundtrip] in Address, [stop_acts_once] in Runtime,
    [local_cluster_all_or_nothing] in LocalCluster and
    [scenarios_stop_their_sessions] in Scenarios.

    Examples in TrackerProps, RaftFsmProps, NodeProps, Identity, Cli, ClientProps and
    Bench record behaviours the comments of the code do not promise: a stale term that
    forgets a claim, a renewal that moves a deadline back, a grace period that a
    candidate starts, a null lock accepted from a snapshot, an address conflict not seen, a first start that blocks all later
    ones, a wildcard address not recognised, a session that outlives its lease
    after a slow start, a pass that fresh hints keep going, a percentile below the
    nearest rank.

    ** What is not modelled

    The Raft protocol, and protobuf and gRPC themselves (parameters above), with the
    reflection data that the generated files hand to them; the text of JSON documents
    (documents are trees); where output goes, and log output; data races, since every
    shared structure is accessed under its mutex. *)

From Stdlib Require Export ZArith Lia.
From stdpp Require Export base gmap strings pretty list sorting option.

Global Open Scope Z_scope.

(** ** Go machine integers

    A Go integer is a [Z]; arithmetic that can leave its type's range is wrapped
    explicitly at the place where the source computes it. *)

Declare Scope go_scope.
Delimit Scope go_scope with go.
Abbreviation max_int64 := 9223372036854775807 (only parsing).
Abbreviation min_int64 := (-9223372036854775808) (only parsing).
Abbreviation two_63 := 9223372036854775808 (only parsing).
Abbreviation two_64 := 18446744073709551616 (only parsing).
Abbreviation two_31 := 2147483648 (only parsing).
Abbreviation two_32 := 4294967296 (only parsing).

Definition wrap_u64 (z : Z) : Z := z `mod` two_64.
Definition wrap_i64 (z : Z) : Z := (z + two_63) `mod` two_64 - two_63.
Definition wrap_i32 (z : Z) : Z := (z + two_31) `mod` two_32 - two_31.
Definition is_u64 (z : Z) : Prop := 0 <= z < two_64.
Definition is_i64 (z : Z) : Prop := min_int64 <= z <= max_int64.

Notation "x '+u64' y" := (wrap_u64 (x + y)) (at level 50, left associativity) : go_scope.
Notation "x '-i64' y" := (wrap_i64 (x - y)) (at level 50, left associativity) : go_scope.
Notation "x '+i64' y" := (wrap_i64 (x + y)) (at level 50, left associativity) : go_scope.
Notation "x '*i64' y" := (wrap_i64 (x * y)) (at level 40, left associativity) : go_scope.
(** Go's integer division truncates toward zero. *)
Notation "x '/i64' y" := (Z.quot x y) (at level 40, left associativity) : go_scope.

Global Instance is_u64_dec z : Decision (is_u64 z).
Proof. unfold is_u64. apply _. Defined.
Global Instance is_i64_dec z : Decision (is_i64 z).
Proof. unfold is_i64. apply _. Defined.

(** ** Go values *)

(** A call that returns a value or a non-nil error. *)
Inductive result (E A : Type) : Type :=
| Ok (a : A)
| Err (e : E).
Global Arguments Ok {E A} a.
Global Arguments Err {E A} e.

Global Instance result_eq_dec {E A} `{EqDecision E, EqDecision A} : EqDecision (result E A).
Proof. solve_decision. Defined.

Definition result_bind {E A B} (r : result E A) (k : A -> result E B) : result E B :=
  match r with Ok a => k a | Err e => Err e end.

Notation "'let?' x ':=' r 'in' k" := (result_bind r (fun x => k))
  (at level 10, x binder, r at level 100, k at level 200) : go_scope.

Global Open Scope go_scope.

(** Go's [range] over a map visits every entry exactly once, in an order the
    language does not fix. Code that ranges over a map is modelled against this
    interface, so its theorems hold for every order. *)
Class RangeOrder := {
  range : forall {K} `{Countable K} {V}, gmap K V -> list (K * V);
  range_perm : forall {K} `{Countable K} {V} (m : gmap K V), range m ≡ₚ map_to_list m
}.

(** One concrete order, used to evaluate the model. *)
Definition map_order : RangeOrder :=
  {| range := fun K _ _ V m => map_to_list m;
     range_perm := fun K _ _ V m => reflexivity _ |}.

(** ** Automation *)

Create HintDb clavis.

(** Case analysis on the scrutinee of a [match] or [if], in the goal or in a
    hypothesis. *)
Ltac break_match :=
  match goal with
  | |- context [match ?x with _ => _ end] => let E := fresh "E" in destruct x eqn:E
  | H : context [match ?x with _ => _ end] |- _ => let E := fresh "E" in destruct x eqn:E
  end.

(** Closes or simplifies goals made of equations between constructors. *)
Ltac crush := repeat (simplify_eq/=; try break_match); simplify_eq/=; try done; auto with clavis.

(** Turns boolean comparisons on [Z] and [string] in the context into propositions. *)
Ltac to_prop :=
  repeat match goal with
  | H : (_ && _) = true |- _ => apply andb_true_iff in H as [? ?]
  | H : (_ || _) = false |- _ => apply orb_false_iff in H as [? ?]
  | H : negb _ = true |- _ => apply negb_true_iff in H
  | H : negb _ = false |- _ => apply negb_false_iff in H
  | H : (_ <=? _) = true |- _ => apply Z.leb_le in H
  | H : (_ <=? _) = false |- _ => apply Z.leb_gt in H
  | H : (_ <? _) = true |- _ => apply Z.ltb_lt in H
  | H : (_ <? _) = false |- _ => apply Z.ltb_ge in H
  | H : (_ =? _) = true |- _ => apply Z.eqb_eq in H
  | H : (_ =? _) = false |- _ => apply Z.eqb_neq in H
  | H : String.eqb _ _ = true |- _ => apply String.eqb_eq in H
  | H : String.eqb _ _ = false |- _ => apply String.eqb_neq in H
  | H : bool_decide _ = true |- _ => apply bool_decide_eq_true in H
  | H : bool_decide _ = false |- _ => apply bool_decide_eq_false in H
  end.

(** ** Shared lemmas *)

Lemma wrap_u64_id z : is_u64 z -> wrap_u64 z = z.
Proof. unfold wrap_u64, is_u64. intros. by apply Z.mod_small. Qed.

Lemma wrap_u64_range z : is_u64 (wrap_u64 z).
Proof. unfold wrap_u64, is_u64. by apply Z.mod_pos_bound. Qed.

Lemma wrap_i64_id z : is_i64 z -> wrap_i64 z = z.
Proof.
  unfold wrap_i64, is_i64. intros [??].
  rewrite Z.mod_small; lia.
Qed.

Lemma wrap_i64_range z : is_i64 (wrap_i64 z).
Proof.
  unfold wrap_i64, is_i64.
  pose proof (Z.mod_pos_bound (z + two_63) two_64 ltac:(done)). lia.
Qed.

#[export] Hint Resolve wrap_u64_range wrap_i64_range : clavis.

Section range_facts.
Context {RO : RangeOrder} {K : Type} `{Countable K} {V : Type}.
Implicit Types m : gmap K V.

Lemma elem_of_range m k v : (k, v) ∈ range m <-> m !! k = Some v.
Proof. rewrite range_perm. apply elem_of_map_to_list. Qed.

Lemma range_NoDup_keys m : NoDup (range m).*1.
Proof. rewrite range_perm. apply NoDup_fst_map_to_list. Qed.

Lemma length_range m : length (range m) = size m.
Proof. by rewrite range_perm, length_map_to_list. Qed.
End range_facts.
