(* ===== verification/GoTime.v ===== *)
(** * Go's [time] package, as Clavis uses it

    An instant carries a wall-clock reading and, when it comes from [time.Now], a
    reading of the process's monotonic clock. Comparison and subtraction use the
    monotonic readings when both instants have one, and the wall readings
    otherwise. A [Duration] is an int64 count of nanoseconds. *)

From S2P Require Import Prelude.

Abbreviation Duration := Z (only parsing).
Abbreviation Millisecond := 1000000 (only parsing).
Abbreviation Second := 1000000000 (only parsing).

(** [wall]: nanoseconds since the Unix epoch; [mono]: nanoseconds on the
    process's monotonic clock, absent for instants built from stored numbers. *)
Record Time := mkTime { wall : Z; mono : option Z }.

Global Instance Time_eq_dec : EqDecision Time.
Proof. solve_decision. Defined.

(** The zero [Time] is January 1, year 1, 00:00:00 UTC. *)
Definition zero_Time : Time := mkTime (-62135596800 * Second) None.
Definition IsZero (t : Time) : bool := wall t =? wall zero_Time.

Definition time_Unix (sec nsec : Z) : Time := mkTime (sec * Second + nsec) None.
Definition UnixNano (t : Time) : Z := wrap_i64 (wall t).
(** [UTC] changes the location an instant is displayed in, nothing else. *)
Definition UTC (t : Time) : Time := t.
Definition Add (t : Time) (d : Duration) : Time :=
  mkTime (wall t + d) ((fun m => m + d) <$> mono t).

Definition Before (t u : Time) : bool :=
  match mono t, mono u with
  | Some a, Some b => a <? b
  | _, _ => wall t <? wall u
  end.
Definition After (t u : Time) : bool := Before u t.

(** [u.Sub(t)], and [time.Since(t)] where [now] is what [time.Now] returns. *)
Definition Sub (u t : Time) : Duration :=
  match mono u, mono t with
  | Some a, Some b => a - b
  | _, _ => wall u - wall t
  end.
Definition Since (now t : Time) : Duration := Sub now t.

(** ** Instants of one node

    The instants a node computes with either have no monotonic reading or have
    one at a fixed offset from the wall reading. On such instants every
    comparison is the comparison of wall readings. *)
Definition lockstep (off : Z) (t : Time) : Prop :=
  match mono t with Some m => wall t = m + off | None => True end.

Global Arguments lockstep : simpl never.

Lemma Before_lockstep off t u :
  lockstep off t -> lockstep off u -> Before t u = (wall t <? wall u).
Proof.
  unfold lockstep, Before. destruct (mono t), (mono u); intros; [|done..].
  destruct (Z.ltb_spec z z0), (Z.ltb_spec (wall t) (wall u)); lia.
Qed.

Lemma lockstep_Add off t d : lockstep off t -> lockstep off (Add t d).
Proof. unfold lockstep, Add; simpl. destruct (mono t); simpl; lia. Qed.

Lemma lockstep_Unix off s n : lockstep off (time_Unix s n).
Proof. done. Qed.

Lemma lockstep_zero off : lockstep off zero_Time.
Proof. done. Qed.

#[export] Hint Resolve lockstep_Add lockstep_Unix lockstep_zero : clavis.
