(* ===== verification/Errors.v ===== *)
(** * Errors

    The sentinel errors of internal/domain/errors.go, the typed errors of
    internal/service/errors.go, and the part of Go's [errors] and [fmt.Errorf]
    the program relies on: [errors.Is], [errors.As] and [%w] wrapping. *)

From S2P Require Import Prelude.

(** internal/domain/errors.go *)
Inductive domain_error :=
| ErrLeaseNotFound | ErrLeaseExpired | ErrInvalidLeaseTTL | ErrInvalidTimestamp
| ErrLockNotFound | ErrLockAlreadyHeld | ErrNotLockOwner
| ErrNodeNotFound | ErrInvalidClusterNode | ErrUnknownCommand.

Definition domain_error_text (e : domain_error) : string :=
  match e with
  | ErrLeaseNotFound => "lease not found"
  | ErrLeaseExpired => "lease has expired"
  | ErrInvalidLeaseTTL => "invalid lease TTL"
  | ErrInvalidTimestamp => "invalid command timestamp"
  | ErrLockNotFound => "lock not found"
  | ErrLockAlreadyHeld => "lock is already held by another client"
  | ErrNotLockOwner => "caller is not the lock owner"
  | ErrNodeNotFound => "cluster node not found"
  | ErrInvalidClusterNode => "invalid cluster node metadata"
  | ErrUnknownCommand => "unknown command type"
  end.

(** The errors of the Raft library the program tests for; [raft_other] is any
    other error the library returns, with its text. *)
Inductive raft_error :=
| raft_ErrNotLeader | raft_ErrLeadershipLost
| raft_ErrLeadershipTransferInProgress | raft_ErrRaftShutdown
| raft_other (text : string).

Definition raft_error_text (e : raft_error) : string :=
  match e with
  | raft_ErrNotLeader => "node is not the leader"
  | raft_ErrLeadershipLost => "leadership lost while committing log"
  | raft_ErrLeadershipTransferInProgress => "leadership transfer in progress"
  | raft_ErrRaftShutdown => "raft is already shutdown"
  | raft_other s => s
  end.

(** The gRPC status codes the program uses. *)
Inductive Code :=
| codes_Unknown | codes_InvalidArgument | codes_DeadlineExceeded | codes_NotFound
| codes_AlreadyExists | codes_PermissionDenied | codes_FailedPrecondition
| codes_Internal | codes_Unimplemented | codes_Unavailable | codes_Canceled | codes_OK.

(** A status detail: a decoded [pb.LeaderHint], or any other message. *)
Inductive detail := LeaderHint (GrpcAddress : string) | other_detail.

Record Status := mkStatus { st_code : Code; st_message : string; st_details : list detail }.

(** A non-nil Go [error]. [Errorf] is [errors.New] or [fmt.Errorf] without [%w];
    [Wrapped msg err] is [fmt.Errorf] with one [%w], whose text is [msg]. *)
Inductive error :=
| Domain (e : domain_error)
| RaftErr (e : raft_error)
| InvalidArgumentError (Message : string)
| NotLeaderError (LeaderGRPCAddress : string)
| StatusError (st : Status)
| Canceled
| DeadlineExceeded
| Errorf (msg : string)
| Wrapped (msg : string) (err : error).

Global Instance domain_error_eq_dec : EqDecision domain_error.
Proof. solve_decision. Defined.
Global Instance raft_error_eq_dec : EqDecision raft_error.
Proof. solve_decision. Defined.
Global Instance Code_eq_dec : EqDecision Code.
Proof. solve_decision. Defined.
Global Instance detail_eq_dec : EqDecision detail.
Proof. solve_decision. Defined.
Global Instance Status_eq_dec : EqDecision Status.
Proof. solve_decision. Defined.
Global Instance error_eq_dec : EqDecision error.
Proof. solve_decision. Defined.

(** [err.Error()] *)
Definition error_text (err : error) : string :=
  match err with
  | Domain e => domain_error_text e
  | RaftErr e => raft_error_text e
  | InvalidArgumentError m => m
  | NotLeaderError _ => "not leader"
  | StatusError st => st_message st
  | Canceled => "context canceled"
  | DeadlineExceeded => "context deadline exceeded"
  | Errorf m => m
  | Wrapped m _ => m
  end.

(** [fmt.Errorf(prefix + ": %w", err)] *)
Definition wrapf (prefix : string) (err : error) : error :=
  Wrapped (prefix +:+ ": " +:+ error_text err) err.

(** [errors.Is(err, target)] *)
Fixpoint errors_Is (err target : error) : bool :=
  bool_decide (err = target) ||
  match err with Wrapped _ e => errors_Is e target | _ => false end.

(** [errors.As(err, &target)] for the two typed errors of internal/service. *)
Fixpoint as_InvalidArgumentError (err : error) : option string :=
  match err with
  | InvalidArgumentError m => Some m
  | Wrapped _ e => as_InvalidArgumentError e
  | _ => None
  end.
Fixpoint as_NotLeaderError (err : error) : option string :=
  match err with
  | NotLeaderError a => Some a
  | Wrapped _ e => as_NotLeaderError e
  | _ => None
  end.

(** The error a wrapper chain ends in. *)
Fixpoint root_cause (err : error) : error :=
  match err with Wrapped _ e => root_cause e | e => e end.

Lemma errors_Is_unfold err t :
  errors_Is err t = bool_decide (err = t) ||
    match err with Wrapped _ e => errors_Is e t | _ => false end.
Proof. by destruct err. Qed.

Lemma errors_Is_refl e : errors_Is e e = true.
Proof. rewrite errors_Is_unfold. by rewrite bool_decide_eq_true_2. Qed.

Lemma root_cause_not_wrapped e m x : root_cause e <> Wrapped m x.
Proof. by induction e. Qed.

(** Looking for an unwrapped target finds the chain's last error, or nothing. *)
Lemma errors_Is_root err t :
  root_cause t = t -> errors_Is err t = bool_decide (root_cause err = t).
Proof.
  intros Ht. induction err; rewrite errors_Is_unfold; rewrite ?orb_false_r; try done.
  rewrite IHerr, bool_decide_eq_false_2; [done|].
  intros <-. by apply (root_cause_not_wrapped err msg err).
Qed.

#[export] Hint Resolve errors_Is_refl : clavis.
