(* ===== verification/Strings.v ===== *)
(** * Go strings

    The functions of Go's [strings] and [net] packages the program uses: splitting
    at commas, trimming white space, and taking host:port addresses apart and
    putting them together. A Go string is its bytes. *)

From Stdlib Require Import Ascii.
From S2P Require Import Prelude Errors.

(** ** package strings *)

(** [strings.Split(s, ",")] *)
Fixpoint split_comma (s : string) : list string :=
  match s with
  | EmptyString => [""%string]
  | String c s' =>
    let parts := split_comma s' in
    if Ascii.eqb c ","%char then ""%string :: parts
    else match parts with [] => [String c EmptyString] | p :: ps => String c p :: ps end
  end.

(** [strings.Join(parts, ",")] *)
Fixpoint join_comma (parts : list string) : string :=
  match parts with
  | [] => ""
  | [p] => p
  | p :: ps => p +:+ "," +:+ join_comma ps
  end.

(** White space ([unicode.IsSpace]) by the length of its UTF-8 encoding. *)
Definition is_space (c : ascii) : bool :=
  let n := N_of_ascii c in ((n =? 32) || ((9 <=? n) && (n <=? 13)))%N.
(** U+0085, U+00A0 *)
Definition is_space2 (c d : ascii) : bool :=
  ((N_of_ascii c =? 194) && ((N_of_ascii d =? 133) || (N_of_ascii d =? 160)))%N.
(** U+1680, U+2000 to U+200A, U+2028, U+2029, U+202F, U+205F, U+3000 *)
Definition is_space3 (c d e : ascii) : bool :=
  let c := N_of_ascii c in let d := N_of_ascii d in let e := N_of_ascii e in
  (((c =? 225) && (d =? 154) && (e =? 128)) ||
   ((c =? 226) && (d =? 128) && (((128 <=? e) && (e <=? 138)) || (e =? 168) || (e =? 169) || (e =? 175))) ||
   ((c =? 226) && (d =? 129) && (e =? 159)) ||
   ((c =? 227) && (d =? 128) && (e =? 128)))%N.

(** Drops leading encodings of white space, given the tests on two and three
    successive bytes. *)
Fixpoint trim_with (sp2 : ascii -> ascii -> bool) (sp3 : ascii -> ascii -> ascii -> bool) (s : string) : string :=
  match s with
  | EmptyString => EmptyString
  | String c s1 =>
    if is_space c then trim_with sp2 sp3 s1 else
    match s1 with
    | EmptyString => s
    | String d s2 =>
      if sp2 c d then trim_with sp2 sp3 s2 else
      match s2 with
      | EmptyString => s
      | String e s3 => if sp3 c d e then trim_with sp2 sp3 s3 else s
      end
    end
  end.

Definition trim_left (s : string) : string := trim_with is_space2 is_space3 s.
(** From the right the bytes of an encoding come in the opposite order. *)
Definition trim_right (s : string) : string :=
  String.rev (trim_with (fun c d => is_space2 d c) (fun c d e => is_space3 e d c) (String.rev s)).
Definition TrimSpace (s : string) : string := trim_right (trim_left s).

Fixpoint all_bytes (p : ascii -> bool) (s : string) : bool :=
  match s with EmptyString => true | String c s => p c && all_bytes p s end.

(** A visible ASCII character. *)
Definition visible (c : ascii) : bool := ((33 <=? N_of_ascii c) && (N_of_ascii c <=? 126))%N.

(** [strings.IndexByte(s, c) >= 0] *)
Definition has_byte (c : ascii) (s : string) : bool := negb (all_bytes (fun d => negb (Ascii.eqb c d)) s).

(** What is before and after the first, or the last, occurrence of a byte: the
    slices that [strings.IndexByte] and [strings.LastIndexByte] delimit. *)
Fixpoint cut_first (c : ascii) (s : string) : option (string * string) :=
  match s with
  | EmptyString => None
  | String d s' =>
    if Ascii.eqb c d then Some (""%string, s')
    else match cut_first c s' with Some (a, b) => Some (String d a, b) | None => None end
  end.
Fixpoint cut_last (c : ascii) (s : string) : option (string * string) :=
  match s with
  | EmptyString => None
  | String d s' =>
    match cut_last c s' with
    | Some (a, b) => Some (String d a, b)
    | None => if Ascii.eqb c d then Some (""%string, s') else None
    end
  end.

(** ** package net *)

Definition missingPort : error := Errorf "missing port in address".
Definition tooManyColons : error := Errorf "too many colons in address".

(** The two checks at the end of [SplitHostPort], with the slices of the address
    that must hold no bracket. *)
Definition check_brackets (after_open after_close host port : string) : result error (string * string) :=
  if has_byte "[" after_open then Err (Errorf "unexpected '[' in address") else
  if has_byte "]" after_close then Err (Errorf "unexpected ']' in address") else
  Ok (host, port).

Definition SplitHostPort (hostport : string) : result error (string * string) :=
  match cut_last ":" hostport with
  | None => Err missingPort
  | Some (before, port) =>
    match hostport with
    | String "[" rest =>
      match cut_first "]" hostport with
      | None => Err (Errorf "missing ']' in address")
      | Some (upto, after) =>
        if String.eqb after "" then Err missingPort else
        if String.eqb after (String ":" port) then
          check_brackets rest after (match upto with String _ host => host | EmptyString => "" end) port
        else match after with
             | String ":" _ => Err tooManyColons
             | _ => Err missingPort
             end
      end
    | _ =>
      if has_byte ":" before then Err tooManyColons
      else check_brackets hostport hostport before port
    end
  end.

Definition JoinHostPort (host port : string) : string :=
  if has_byte ":" host then "[" +:+ host +:+ "]:" +:+ port else host +:+ ":" +:+ port.

Example split_plain : SplitHostPort "127.0.0.1:9000" = Ok ("127.0.0.1", "9000")%string.
Proof. reflexivity. Qed.
Example split_wildcard : SplitHostPort ":9000" = Ok ("", "9000")%string /\ SplitHostPort "[::]:9000" = Ok ("::", "9000")%string.
Proof. by split. Qed.
Example split_errors :
  SplitHostPort "localhost" = Err missingPort /\ SplitHostPort "::1:9000" = Err tooManyColons /\
  SplitHostPort "[::1]" = Err missingPort /\ SplitHostPort "[::1]:9:0" = Err tooManyColons /\
  SplitHostPort "[::1:9000" = Err (Errorf "missing ']' in address") /\
  SplitHostPort "a]:9000" = Err (Errorf "unexpected ']' in address").
Proof. done. Qed.

(** ** Lemmas *)

Lemma string_app_cons c (a b : string) : String c a +:+ b = String c (a +:+ b).
Proof. done. Qed.

Lemma string_app_nil (a : string) : a +:+ "" = a.
Proof. induction a as [|c a IH]; [done|]. by rewrite string_app_cons, IH. Qed.

Lemma string_app_assoc (a b c : string) : (a +:+ b) +:+ c = a +:+ b +:+ c.
Proof. induction a as [|d a IH]; [done|]. by rewrite !string_app_cons, IH. Qed.

Lemma string_app_eq_nil (a b : string) : a +:+ b = "" -> a = "" /\ b = "".
Proof. by destruct a. Qed.

Lemma all_bytes_app p (a b : string) : all_bytes p (a +:+ b) = all_bytes p a && all_bytes p b.
Proof. induction a as [|c a IH]; [done|]. rewrite string_app_cons. simpl. by rewrite IH, andb_assoc. Qed.

Lemma all_bytes_impl (p q : ascii -> bool) s :
  (forall c, p c = true -> q c = true) -> all_bytes p s = true -> all_bytes q s = true.
Proof. intros Hpq. induction s as [|c s IH]; simpl; [done|]. intros [? ?]%andb_true_iff. by rewrite Hpq, IH. Qed.

Lemma has_byte_app c (a b : string) : has_byte c (a +:+ b) = has_byte c a || has_byte c b.
Proof. unfold has_byte. by rewrite all_bytes_app, negb_andb. Qed.

Lemma has_byte_cons c d s : has_byte c (String d s) = Ascii.eqb c d || has_byte c s.
Proof. unfold has_byte. simpl. by rewrite negb_andb, negb_involutive. Qed.

Lemma cut_first_app c (a b : string) : has_byte c a = false -> cut_first c (a +:+ String c b) = Some (a, b).
Proof.
  induction a as [|d a IH]; rewrite ?string_app_cons; simpl.
  - by rewrite Ascii.eqb_refl.
  - rewrite has_byte_cons. intros [-> H]%orb_false_iff. by rewrite IH.
Qed.

Lemma cut_first_spec c s a b : cut_first c s = Some (a, b) -> s = a +:+ String c b /\ has_byte c a = false.
Proof.
  revert a b. induction s as [|d s IH]; intros a b; simpl; [done|].
  destruct (Ascii.eqb_spec c d) as [<-|Hne].
  - intros [= <- <-]. done.
  - destruct (cut_first c s) as [[a' b']|]; [|done]. intros [= <- <-].
    destruct (IH a' b' eq_refl) as [-> Hn]. split; [done|].
    rewrite has_byte_cons, Hn. by destruct (Ascii.eqb_spec c d).
Qed.

Lemma cut_last_None c s : cut_last c s = None <-> has_byte c s = false.
Proof.
  induction s as [|d s IH]; simpl; [done|]. rewrite has_byte_cons.
  destruct (cut_last c s) as [[a b]|].
  - split; [done|]. intros [_ H]%orb_false_iff. by apply IH in H.
  - destruct IH as [IH _]. rewrite (IH eq_refl), orb_false_r. by destruct (Ascii.eqb c d).
Qed.

Lemma cut_last_app c (a b : string) : has_byte c b = false -> cut_last c (a +:+ String c b) = Some (a, b).
Proof.
  intros Hb. induction a as [|d a IH]; rewrite ?string_app_cons; simpl.
  - apply cut_last_None in Hb as ->. by rewrite Ascii.eqb_refl.
  - by rewrite IH.
Qed.

Lemma cut_last_spec c s a b : cut_last c s = Some (a, b) -> s = a +:+ String c b /\ has_byte c b = false.
Proof.
  revert a b. induction s as [|d s IH]; intros a b; simpl; [done|].
  destruct (cut_last c s) as [[a' b']|] eqn:E.
  - intros [= <- <-]. destruct (IH a' b' eq_refl) as [-> Hn]. done.
  - destruct (Ascii.eqb_spec c d) as [<-|]; [|done]. intros [= <- <-].
    split; [done|]. by apply cut_last_None.
Qed.

(** *** host:port addresses *)

(** The hosts and ports [SplitHostPort] can return. *)
Definition host_ok (h : string) : bool := negb (has_byte "[" h || has_byte "]" h).
Definition port_ok (p : string) : bool := host_ok p && negb (has_byte ":" p).

Lemma host_ok_iff h : host_ok h = true <-> has_byte "[" h = false /\ has_byte "]" h = false.
Proof. unfold host_ok. by rewrite negb_true_iff, orb_false_iff. Qed.
Lemma port_ok_iff p : port_ok p = true <-> has_byte "[" p = false /\ has_byte "]" p = false /\ has_byte ":" p = false.
Proof. unfold port_ok. rewrite andb_true_iff, host_ok_iff, negb_true_iff. tauto. Qed.

Lemma check_brackets_ok a b h p r : check_brackets a b h p = Ok r ->
  has_byte "[" a = false /\ has_byte "]" b = false /\ r = (h, p).
Proof. unfold check_brackets. repeat case_match; intros; by simplify_eq. Qed.

(** A successful split: the address is one of the two spellings of its parts. *)
Lemma SplitHostPort_inv s h p : SplitHostPort s = Ok (h, p) ->
  host_ok h = true /\ port_ok p = true /\
  (s = "[" +:+ h +:+ "]:" +:+ p \/ (s = h +:+ ":" +:+ p /\ has_byte ":" h = false)).
Proof.
  unfold SplitHostPort. destruct (cut_last ":" s) as [[b q]|] eqn:El; [|done].
  apply cut_last_spec in El as [Hs Hq].
  assert (Hplain : (if has_byte ":" b then Err tooManyColons else check_brackets s s b q) = Ok (h, p) ->
    host_ok h = true /\ port_ok p = true /\
    (s = "[" +:+ h +:+ "]:" +:+ p \/ (s = h +:+ ":" +:+ p /\ has_byte ":" h = false))).
  { destruct (has_byte ":" b) eqn:Hb; [done|]. intros (H1&H2&[= -> ->])%check_brackets_ok.
    rewrite Hs, has_byte_app, has_byte_cons in H1, H2. simpl in H1, H2.
    apply orb_false_iff in H1 as [? ?], H2 as [? ?].
    rewrite host_ok_iff, port_ok_iff. split_and!; try done. right. split; [exact Hs|done]. }
  destruct s as [|c rest]; [by destruct b|].
  destruct (Ascii.eqb_spec c "[") as [->|Hc];
    [|assert (Hm : forall A (x y : A), match c with "["%char => x | _ => y end = y)
        by (by intros; destruct c as [[] [] [] [] [] [] [] []]);
      by rewrite Hm].
  clear Hplain. destruct (cut_first "]" (String "[" rest)) as [[upto after]|] eqn:Ef; [|done].
  apply cut_first_spec in Ef as [Hs' Hu].
  destruct (String.eqb_spec after "") as [|_]; [done|].
  destruct (String.eqb_spec after (String ":" q)) as [->|_];
    [|by destruct after as [|[[] [] [] [] [] [] [] []] after]].
  destruct upto as [|c upto]; [done|]. rewrite string_app_cons in Hs'. simplify_eq.
  intros (H1&H2&[= -> ->])%check_brackets_ok.
  rewrite has_byte_cons in H2, Hu. rewrite has_byte_app, !has_byte_cons in H1. simpl in H1, H2, Hu.
  apply orb_false_iff in H1 as [? ?].
  rewrite host_ok_iff, port_ok_iff. split_and!; try done. by left.
Qed.

Lemma SplitHostPort_Join h p : host_ok h = true -> port_ok p = true ->
  SplitHostPort (JoinHostPort h p) = Ok (h, p).
Proof.
  rewrite host_ok_iff, port_ok_iff. intros [Ho Hc] (Po&Pc&Pcol).
  unfold JoinHostPort. destruct (has_byte ":" h) eqn:Hcol; unfold SplitHostPort.
  - assert (Hl : cut_last ":" ("[" +:+ h +:+ "]:" +:+ p) = Some ("[" +:+ h +:+ "]", p)).
    { rewrite <- (cut_last_app ":" ("[" +:+ h +:+ "]") p Pcol). f_equal. by rewrite !string_app_assoc. }
    rewrite Hl.
    assert (Hf : cut_first "]" (String "[" h +:+ String "]" (String ":" p)) = Some (String "[" h, String ":" p))
      by (apply cut_first_app; by rewrite has_byte_cons, Hc).
    change ("[" +:+ h +:+ "]:" +:+ p) with (String "[" h +:+ String "]" (String ":" p)).
    rewrite Hf. rewrite string_app_cons. simpl. rewrite String.eqb_refl. unfold check_brackets.
    change ("]:" +:+ p) with (String "]" (String ":" p)).
    rewrite has_byte_app, !has_byte_cons, Ho, Po, Pc. done.
  - change (":" +:+ p) with (String ":" p). rewrite cut_last_app by done.
    rewrite Hcol. unfold check_brackets.
    rewrite !has_byte_app, !has_byte_cons, Ho, Hc, Po, Pc. simpl.
    destruct h as [|c h]; [done|]. rewrite string_app_cons.
    rewrite has_byte_cons in Ho. destruct (Ascii.eqb_spec "[" c) as [|Hne]; [done|].
    by destruct c as [[] [] [] [] [] [] [] []].
Qed.

(** *** Trimming *)

Definition newline : string := String "010" "".

Lemma rev_app_rev (a b : string) : String.rev_app a b = String.rev a +:+ b.
Proof.
  unfold String.rev. revert b. induction a as [|c a IH]; intros b; simpl; [done|].
  by rewrite (IH (String c b)), (IH (String c "")), string_app_assoc.
Qed.

Lemma rev_cons c (s : string) : String.rev (String c s) = String.rev s +:+ String c "".
Proof. unfold String.rev at 1. simpl. apply rev_app_rev. Qed.

Lemma rev_app (a b : string) : String.rev (a +:+ b) = String.rev b +:+ String.rev a.
Proof.
  induction a as [|c a IH]; [by rewrite string_app_nil|].
  by rewrite string_app_cons, !rev_cons, IH, string_app_assoc.
Qed.

Lemma rev_rev (s : string) : String.rev (String.rev s) = s.
Proof. induction s as [|c s IH]; [done|]. by rewrite rev_cons, rev_app, IH. Qed.

Lemma all_bytes_rev p (s : string) : all_bytes p (String.rev s) = all_bytes p s.
Proof. induction s as [|c s IH]; [done|]. rewrite rev_cons, all_bytes_app, IH. simpl. by rewrite andb_true_r, andb_comm. Qed.

Lemma visible_not_space c : visible c = true ->
  is_space c = false /\ (forall d, is_space2 c d = false /\ is_space2 d c = false) /\
  (forall d e, is_space3 c d e = false /\ is_space3 e d c = false).
Proof.
  unfold visible, is_space, is_space2, is_space3. cbv zeta. rewrite andb_true_iff, !N.leb_le. intros ?.
  split_and!; intros; try split; apply not_true_iff_false;
    rewrite ?orb_true_iff, ?andb_true_iff, ?orb_true_iff, ?andb_true_iff, ?N.leb_le, ?N.eqb_eq; lia.
Qed.

(** Text that starts with a visible character is not trimmed. *)
Lemma trim_with_visible sp2 sp3 s :
  (forall c d, visible c = true -> sp2 c d = false) ->
  (forall c d e, visible c = true -> sp3 c d e = false) ->
  all_bytes visible s = true -> forall rest, s <> "" -> trim_with sp2 sp3 (s +:+ rest) = s +:+ rest.
Proof.
  intros H2 H3. destruct s as [|c s]; [done|]. simpl. intros [Hc _]%andb_true_iff rest _.
  rewrite string_app_cons. simpl. destruct (visible_not_space c Hc) as [-> _].
  destruct (s +:+ rest) as [|d [|e r]]; [done| |]; rewrite ?H2, ?H3; done.
Qed.

Lemma TrimSpace_line s : all_bytes visible s = true -> TrimSpace (s +:+ newline) = s.
Proof.
  intros Hs. destruct (String.eqb_spec s "") as [->|Hne]; [done|].
  unfold TrimSpace, trim_left, trim_right.
  rewrite (trim_with_visible is_space2 is_space3);
    [|intros c d Hc; by apply (visible_not_space c Hc)|intros c d e Hc; by apply (visible_not_space c Hc)|done..].
  rewrite rev_app. change (String.rev newline +:+ String.rev s) with (String "010" (String.rev s)). simpl.
  rewrite <- (string_app_nil (String.rev s)), trim_with_visible; rewrite ?string_app_nil, ?rev_rev; try done.
  - intros c d Hc. by apply (visible_not_space c Hc).
  - intros c d e Hc. by apply (visible_not_space c Hc).
  - by rewrite all_bytes_rev.
  - intros E. apply Hne. by rewrite <- (rev_rev s), E.
Qed.

Lemma TrimSpace_visible s : all_bytes visible s = true -> TrimSpace s = s.
Proof.
  intros Hs. destruct (String.eqb_spec s "") as [->|Hne]; [done|].
  unfold TrimSpace, trim_left, trim_right. rewrite <- (string_app_nil s) at 1.
  rewrite (trim_with_visible is_space2 is_space3);
    [|intros c d Hc; by apply (visible_not_space c Hc)|intros c d e Hc; by apply (visible_not_space c Hc)|done..].
  rewrite string_app_nil. rewrite <- (string_app_nil (String.rev s)), trim_with_visible;
    rewrite ?string_app_nil, ?rev_rev; try done.
  - intros c d Hc. by apply (visible_not_space c Hc).
  - intros c d e Hc. by apply (visible_not_space c Hc).
  - by rewrite all_bytes_rev.
  - intros E. apply Hne. by rewrite <- (rev_rev s), E.
Qed.

Lemma all_bytes_substring p n (s : string) : all_bytes p s = true -> all_bytes p (String.substring 0 n s) = true.
Proof.
  revert n. induction s as [|c s IH]; intros [|n]; simpl; try done.
  intros [Hc Hs]%andb_true_iff. by rewrite Hc, IH.
Qed.

(** A line cut short is a part of its text, or the whole line. *)
Lemma substring_line n (s : string) :
  String.substring 0 n (s +:+ newline) = String.substring 0 n s \/ String.substring 0 n (s +:+ newline) = s +:+ newline.
Proof.
  revert n. induction s as [|c s IH]; intros n; [destruct n as [|[|n]]; auto|].
  destruct n as [|n]; [by left|]. rewrite string_app_cons. simpl.
  destruct (IH n) as [-> | ->]; [by left|by right].
Qed.

Example trim_unicode :
  TrimSpace (String "194" (String "160" (" a b" +:+ String "226" (String "128" (String "169" newline))))) = "a b"%string.
Proof. reflexivity. Qed.
