(* ===== verification/Files.v ===== *)
(** * The data directory and the operating system

    What the program uses of package [os], on the files of one data directory. A
    directory maps names to entries; the paths of the source are
    [filepath.Join(dataDir, name)], and only [name] is kept.

    Every call meets the environment: it can fail, a call that is not atomic can
    pass through intermediate contents, and a write can stop half way. What the
    environment does is an input, one [call] per system or library call; when the
    inputs run out, calls succeed. The model records every content the directory
    goes through, so that a process that dies at any moment leaves one of them. The
    file system is taken to keep the order of its updates: what a power failure can
    do to updates not yet on disk is not modelled. *)

From S2P Require Import Prelude Errors.

(** ** Stores kept by libraries

    The contents of a BoltDB file and of a directory (an empty one, a write-ahead
    log, snapshots) belong to the libraries that write them; only what those
    libraries document of them is used. *)
Class RaftStores := {
  boltdb : Type;                                   (* a raft-boltdb file *)
  dirdata : Type;                                  (* the files of a directory *)
  bolt_bytes : boltdb -> string;                   (* the file's bytes *)
  bolt_of_bytes : string -> result error boltdb;   (* opening any other file *)
  bolt_empty : boltdb;                             (* what opening a new file creates *)
  empty_dir : dirdata;
  (* raft-boltdb *)
  bolt_logs : boltdb -> gmap Z string;             (* index to entry *)
  bolt_last : boltdb -> Z;                         (* LastIndex *)
  bolt_uint : boltdb -> string -> option Z;        (* GetUint64; None: ErrKeyNotFound *)
  bolt_get : boltdb -> string -> option string;    (* Get; None: ErrKeyNotFound *)
  (* raft-wal: what a directory holds once opened, and its changes *)
  wal_logs : dirdata -> gmap Z string;
  wal_uint : dirdata -> string -> option Z;
  wal_get : dirdata -> string -> option string;
  wal_opened : dirdata -> dirdata;
  wal_set_uint : dirdata -> string -> Z -> dirdata;
  wal_set : dirdata -> string -> string -> dirdata;
  wal_copied : dirdata -> boltdb -> dirdata;       (* migrate.CopyLogs *)
  (* their documented behaviour *)
  last_index_zero : forall db, bolt_last db = 0 <-> bolt_logs db = ∅;
  empty_holds_nothing : wal_logs empty_dir = ∅ /\
    forall k, wal_uint empty_dir k = None /\ wal_get empty_dir k = None;
  opening_keeps : forall w, wal_logs (wal_opened w) = wal_logs w /\
    forall k, wal_uint (wal_opened w) k = wal_uint w k /\ wal_get (wal_opened w) k = wal_get w k;
  copying_logs : forall w db, wal_logs w = ∅ -> wal_logs (wal_copied w db) = bolt_logs db;
  copying_keeps_keys : forall w db k,
    wal_uint (wal_copied w db) k = wal_uint w k /\ wal_get (wal_copied w db) k = wal_get w k;
  set_uint_sets : forall w k v, wal_uint (wal_set_uint w k v) k = Some v;
  set_uint_keeps : forall w k v, wal_logs (wal_set_uint w k v) = wal_logs w /\
    forall k', k' <> k -> wal_uint (wal_set_uint w k v) k' = wal_uint w k' /\
                          wal_get (wal_set_uint w k v) k' = wal_get w k';
  set_sets : forall w k v, wal_get (wal_set w k v) k = Some v;
  set_keeps : forall w k v, wal_logs (wal_set w k v) = wal_logs w /\
    forall k', k' <> k -> wal_uint (wal_set w k v) k' = wal_uint w k' /\
                          wal_get (wal_set w k v) k' = wal_get w k'
}.

Section files.
Context {RS : RaftStores}.

Inductive entry := EText (contents : string) | EBolt (db : boltdb) | EDir (files : dirdata).

Abbreviation disk := (gmap string entry).

(** What one call meets: its failure, the contents a directory it works on passes
    through, and how much of a write reaches the file first. *)
Record call := mkCall { c_err : option error; c_junk : list dirdata; c_written : nat }.
Definition fine : call := mkCall None [] 0.

Record world := mkWorld {
  w_dir : disk;
  w_open : list string;              (* open files and stores *)
  w_past : list disk;                (* every content so far, the current one last *)
  w_calls : list call
}.

(** A process starting on [d]: nothing is open. *)
Definition boot (d : disk) (calls : list call) : world := mkWorld d [] [d] calls.

(** ** Programs *)

Definition M (A : Type) : Type := world -> world * result error A.

#[global] Instance M_ret : MRet M := fun A a w => (w, Ok a).
#[global] Instance M_bind : MBind M := fun A B k m w =>
  match m w with (w, Ok a) => k a w | (w, Err err) => (w, Err err) end.

Definition fail {A} (err : error) : M A := fun w => (w, Err err).

(** [defer cleanup()], whose result is dropped. *)
Definition defer {A} (m : M A) (cleanup : M unit) : M A := fun w =>
  let '(w, r) := m w in ((cleanup w).1, r).

(** [if err := m(); err != nil { cleanup(); return err }] *)
Definition on_error {A} (m : M A) (cleanup : M unit) : M A := fun w =>
  match m w with (w, Ok a) => (w, Ok a) | (w, Err err) => ((cleanup w).1, Err err) end.

(** [if err := m(); err != nil { return fmt.Errorf(prefix + ": %w", err) }] *)
Definition wrap_err {A} (prefix : string) (m : M A) : M A := fun w =>
  match m w with (w, Ok a) => (w, Ok a) | (w, Err err) => (w, Err (wrapf prefix err)) end.

(** Keeps the error as a value. *)
Definition attempt {A} (m : M A) : M (result error A) := fun w => let '(w, r) := m w in (w, Ok r).

(** ** Steps *)

Definition put (d : disk) (w : world) : world := mkWorld d (w_open w) (w_past w ++ [d]) (w_calls w).
Definition set_open (hs : list string) (w : world) : world := mkWorld (w_dir w) hs (w_past w) (w_calls w).

(** Takes the next call's environment. *)
Definition syscall {A} (f : call -> M A) : M A := fun w =>
  match w_calls w with
  | [] => f fine w
  | c :: cs => f c (mkWorld (w_dir w) (w_open w) (w_past w) cs)
  end.

(** A call that fails without effect, or does [m]. *)
Definition atomic {A} (m : M A) : M A :=
  syscall (fun c => match c_err c with Some err => fail err | None => m end).

Definition get_dir : M disk := fun w => (w, Ok (w_dir w)).
Definition set_entry (name : string) (e : entry) : M unit := fun w => (put (<[name := e]> (w_dir w)) w, Ok ()).
Definition unset_entry (name : string) : M unit := fun w => (put (delete name (w_dir w)) w, Ok ()).
Definition move_entry (old new : string) (e : entry) : M unit := fun w =>
  (put (<[new := e]> (delete old (w_dir w))) w, Ok ()).
Definition opened (name : string) : M unit := fun w => (set_open (name :: w_open w) w, Ok ()).

(** The directory [name] passes through [junk]. *)
Definition churn (name : string) (junk : list dirdata) : M unit := fun w =>
  (foldl (fun w j => put (<[name := EDir j]> (w_dir w)) w) w junk, Ok ()).

(** ** package os *)

(** [true]: it exists; [false]: [os.ErrNotExist]; an error: any other failure. *)
Definition os_Stat (name : string) : M bool :=
  atomic (d ← get_dir; mret (bool_decide (is_Some (d !! name)))).

(** Removing a tree takes many steps. *)
Definition os_RemoveAll (name : string) : M unit :=
  syscall (fun c =>
    d ← get_dir;
    match d !! name with Some (EDir _) => churn name (c_junk c) | _ => mret () end;;
    match c_err c with Some err => fail err | None => unset_entry name end).

Definition os_MkdirAll (name : string) : M unit :=
  atomic (d ← get_dir;
    match d !! name with
    | None => set_entry name (EDir empty_dir)
    | Some (EDir _) => mret ()
    | Some _ => fail (Errorf "not a directory")
    end).

(** [os.MkdirAll] of the data directory itself. *)
Definition os_MkdirAll_data : M unit := atomic (mret ()).

(** Go refuses to replace a directory. *)
Definition os_Rename (old new : string) : M unit :=
  atomic (d ← get_dir;
    match d !! old, d !! new with
    | None, _ => fail (Errorf "no such file or directory")
    | Some _, Some (EDir _) => fail (Errorf "file exists")
    | Some (EDir _), Some _ => fail (Errorf "not a directory")
    | Some e, _ => move_entry old new e
    end).

(** [None]: [os.ErrNotExist]. *)
Definition os_ReadFile (name : string) : M (option string) :=
  atomic (d ← get_dir;
    match d !! name with
    | None => mret None
    | Some (EText s) => mret (Some s)
    | Some (EBolt db) => mret (Some (bolt_bytes db))
    | Some (EDir _) => fail (Errorf "is a directory")
    end).

(** [os.OpenFile] with [O_WRONLY|O_CREATE|O_EXCL] *)
Definition os_CreateExcl (name : string) : M unit :=
  atomic (d ← get_dir;
    match d !! name with
    | Some _ => fail (Errorf "file exists")
    | None => set_entry name (EText "");; opened name
    end).

(** Writes to a new, empty file. *)
Definition os_Write (name data : string) : M unit :=
  syscall (fun c =>
    set_entry name (EText (String.substring 0 (c_written c) data));;
    match c_err c with Some err => fail err | None => set_entry name (EText data) end).

Fixpoint remove_one (name : string) (hs : list string) : list string :=
  match hs with [] => [] | h :: hs => if String.eqb h name then hs else h :: remove_one name hs end.

(** [Close] gives the handle up even when it reports an error. *)
Definition os_Close (name : string) : M unit :=
  syscall (fun c => (fun w =>
    (set_open (remove_one name (w_open w)) w, match c_err c with Some err => Err err | None => Ok () end)) : M unit).

(** ** Successful runs *)

Lemma bind_ok {A B} (m : M A) (k : A -> M B) w w' b :
  (m ≫= k) w = (w', Ok b) -> exists w1 a, m w = (w1, Ok a) /\ k a w1 = (w', Ok b).
Proof. unfold mbind, M_bind. destruct (m w) as [w1 [a|e]]; [|done]. eauto. Qed.

Lemma wrap_err_ok {A} s (m : M A) w w' a : wrap_err s m w = (w', Ok a) -> m w = (w', Ok a).
Proof. unfold wrap_err. by destruct (m w) as [? []]. Qed.

(** The world a call leaves behind the environment's input. *)
Definition tick (w : world) : world := mkWorld (w_dir w) (w_open w) (w_past w) (tail (w_calls w)).

Lemma syscall_eq {A} (f : call -> M A) w : syscall f w = f (default fine (head (w_calls w))) (tick w).
Proof. unfold syscall, tick. destruct w as [d o p [|c cs]]; done. Qed.

Lemma atomic_ok {A} (m : M A) w w' a : atomic m w = (w', Ok a) -> m (tick w) = (w', Ok a).
Proof. unfold atomic. rewrite syscall_eq. by destruct (c_err _). Qed.

Lemma atomic_fine {A} (m : M A) w : w_calls w = [] -> atomic m w = m w.
Proof. intros Hc. unfold atomic, syscall. by rewrite Hc. Qed.
End files.

Abbreviation disk := (gmap string entry).
