(* ===== verification/Storage.v ===== *)
(** * Raft storage and its migration (internal/cluster/storage.go)

    The calls into the BoltDB and write-ahead-log libraries, over the data
    directory of Files, and the code that opens the stores and converts a data
    directory of the older format. A store is named by its path. *)

From S2P Require Import Prelude Errors Files.

Definition walDirName : string := "wal".
Definition legacyBoltName : string := "raft.db".
Definition migratedBoltName : string := "raft.db.migrated".
Definition migratingDirName : string := "wal.migrating".
Definition snapshotsDirName : string := "snapshots".

Section storage.
Context {RS : RaftStores}.

(** ** Library calls *)

Definition get_bolt (name : string) : M boltdb :=
  d ← get_dir;
  match d !! name with Some (EBolt db) => mret db | _ => fail (Errorf "database not open") end.

Definition get_wal (name : string) : M dirdata :=
  d ← get_dir;
  match d !! name with Some (EDir w) => mret w | _ => fail (Errorf "no such file or directory") end.

(** [raftboltdb.New] *)
Definition raftboltdb_New (name : string) : M unit :=
  atomic (d ← get_dir;
    match d !! name with
    | Some (EBolt _) => opened name
    | Some (EText s) =>
      match bolt_of_bytes s with
      | Err err => fail err
      | Ok db => set_entry name (EBolt db);; opened name
      end
    | Some (EDir _) => fail (Errorf "is a directory")
    | None => set_entry name (EBolt bolt_empty);; opened name
    end).

(** [wal.Open] *)
Definition wal_Open (name : string) : M unit :=
  atomic (w ← get_wal name; set_entry name (EDir (wal_opened w));; opened name).

Definition bolt_LastIndex (src : string) : M Z := atomic (db ← get_bolt src; mret (bolt_last db)).
Definition bolt_GetUint64 (src key : string) : M (option Z) := atomic (db ← get_bolt src; mret (bolt_uint db key)).
Definition bolt_Get (src key : string) : M (option string) := atomic (db ← get_bolt src; mret (bolt_get db key)).

(** A change of an open log, through any contents to the new one. *)
Definition wal_write (dst : string) (f : dirdata -> dirdata) : M unit :=
  syscall (fun c =>
    w ← get_wal dst;
    churn dst (c_junk c);;
    match c_err c with Some err => fail err | None => set_entry dst (EDir (f w)) end).

Definition wal_SetUint64 (dst key : string) (v : Z) : M unit := wal_write dst (fun w => wal_set_uint w key v).
Definition wal_Set (dst key v : string) : M unit := wal_write dst (fun w => wal_set w key v).
(** [migrate.CopyLogs] *)
Definition migrate_CopyLogs (dst src : string) : M unit :=
  db ← get_bolt src; wal_write dst (fun w => wal_copied w db).

(** [raft.NewFileSnapshotStore] *)
Definition NewFileSnapshotStore (name : string) : M unit := os_MkdirAll name.

(** ** Migration *)

Definition copyLogs (dst src : string) : M unit :=
  last ← bolt_LastIndex src;
  if last =? 0 then mret () else migrate_CopyLogs dst src.

(** The loop over the integer keys. *)
Fixpoint copyUints (dst src : string) (keys : list string) : M unit :=
  match keys with
  | [] => mret ()
  | key :: keys =>
    val ← wrap_err ("read " +:+ key) (bolt_GetUint64 src key);
    match val with
    | None => mret ()
    | Some v => wrap_err ("write " +:+ key) (wal_SetUint64 dst key v)
    end;;
    copyUints dst src keys
  end.

Definition copyStable (dst src : string) : M unit :=
  copyUints dst src ["CurrentTerm"; "LastVoteTerm"]%string;;
  val ← wrap_err "read LastVoteCand" (bolt_Get src "LastVoteCand");
  match val with
  | None => mret ()
  | Some v => wal_Set dst "LastVoteCand" v
  end.

Definition copyBoltToWAL (boltPath scratchDir walDir : string) : M unit :=
  os_RemoveAll scratchDir;;
  os_MkdirAll scratchDir;;
  raftboltdb_New boltPath;;
  defer (
    wal_Open scratchDir;;
    on_error (copyLogs scratchDir boltPath) (os_Close scratchDir);;
    on_error (copyStable scratchDir boltPath) (os_Close scratchDir);;
    os_Close scratchDir;;
    os_Rename scratchDir walDir)
  (os_Close boltPath).

Definition migrateFromBolt : M unit :=
  hasBolt ← os_Stat legacyBoltName;
  if negb hasBolt then mret () else
  hasWal ← os_Stat walDirName;
  (if negb hasWal then copyBoltToWAL legacyBoltName migratingDirName walDirName else mret ());;
  os_Rename legacyBoltName migratedBoltName.

(** ** Opening *)

Record Storage := mkStorage { WAL : string; SnapshotStore : string }.

Definition NewStorage : M Storage :=
  wrap_err "migrate raft.db to wal" migrateFromBolt;;
  os_MkdirAll walDirName;;
  wal_Open walDirName;;
  on_error (NewFileSnapshotStore snapshotsDirName) (os_Close walDirName);;
  mret (mkStorage walDirName snapshotsDirName).

Definition Storage_Close (s : Storage) : M unit := os_Close (WAL s).

(** The loop of [HasRaftData]. *)
Fixpoint hasAny (names : list string) : M bool :=
  match names with
  | [] => mret false
  | name :: names => found ← os_Stat name; if (found : bool) then mret true else hasAny names
  end.
Definition HasRaftData : M bool := hasAny [walDirName; legacyBoltName].
End storage.
