(* ===== verification/StorageProps.v ===== *)
(** * Storage: crash safety of the migration, and open handles

    A small program logic for the programs of Files (what holds of the directory at
    every moment, what a successful call leaves, and that calls succeed when the
    environment does), used to prove that a data directory of the older format can
    be interrupted and retried without losing its contents. *)

From S2P Require Import Prelude Errors Files Storage.

Section logic.
Context {RS : RaftStores}.

(** [I] holds now and held at every moment so far. *)
Definition inv (I : disk -> Prop) (w : world) : Prop := Forall I (w_past w) /\ I (w_dir w).

(** From a directory with [P], [m] keeps [I] at every moment, and when it succeeds
    leaves a directory with [Q]. With [total], it succeeds if the environment does. *)
Definition spec (total : bool) (I P : disk -> Prop) {A} (m : M A) (Q : A -> disk -> Prop) : Prop :=
  forall w, inv I w -> P (w_dir w) ->
    inv I (m w).1 /\ (forall a, (m w).2 = Ok a -> Q a (w_dir (m w).1)) /\
    (total = true -> w_calls w = [] -> w_calls (m w).1 = [] /\ exists a, (m w).2 = Ok a).

(** [m] leaves the directory and the environment's inputs alone. *)
Definition quiet {A} (m : M A) : Prop :=
  forall w, w_dir (m w).1 = w_dir w /\ w_past (m w).1 = w_past w /\ (w_calls w = [] -> w_calls (m w).1 = []).

Section rules.
Context (t : bool) (I : disk -> Prop).
Implicit Types P : disk -> Prop.

Lemma spec_ret {A} P (a : A) (Q : A -> disk -> Prop) : (forall d, P d -> Q a d) -> spec t I P (mret a) Q.
Proof. intros HQ w Hi Hp. split_and!; [done|naive_solver|]. intros _ ?. by eauto. Qed.

Lemma spec_fail {A} P err (Q : A -> disk -> Prop) :
  (t = true -> forall d, I d -> P d -> False) -> spec t I P (fail err) Q.
Proof. intros HF w Hi Hp. split_and!; [done|done|]. intros Ht. by destruct (HF Ht _ (proj2 Hi) Hp). Qed.

Lemma spec_bind {A B} P (m : M A) (k : A -> M B) R Q :
  spec t I P m R -> (forall a, spec t I (R a) (k a) Q) -> spec t I P (m ≫= k) Q.
Proof.
  intros Hm Hk w Hi Hp. destruct (Hm w Hi Hp) as (Hi'&HR&Ht). unfold mbind, M_bind.
  destruct (m w) as [w' [a|err]]; simpl in *.
  - destruct (Hk a w' Hi' (HR a eq_refl)) as (?&?&Ht'). split_and!; [done..|].
    intros H1 H2. apply Ht'; [done|]. by apply Ht.
  - split_and!; [done..|]. intros H1 H2. by destruct (Ht H1 H2) as [_ [? ?]].
Qed.

Lemma spec_weaken {A} P P' (m : M A) (Q Q' : A -> disk -> Prop) :
  spec t I P m Q -> (forall d, P' d -> P d) -> (forall a d, Q a d -> Q' a d) -> spec t I P' m Q'.
Proof. intros Hm HP HQ w Hi Hp. destruct (Hm w Hi (HP _ Hp)) as (?&?&?). by split_and!; auto. Qed.

Lemma spec_pre {A} P (m : M A) (Q : A -> disk -> Prop) :
  spec t I (fun d => I d /\ P d) m Q -> spec t I P m Q.
Proof. intros Hm w Hi Hp. by apply Hm; [|split; [apply Hi|]]. Qed.

Lemma spec_defer {A} P (m : M A) cleanup Q : quiet cleanup -> spec t I P m Q -> spec t I P (defer m cleanup) Q.
Proof.
  intros Hc Hm w Hi Hp. destruct (Hm w Hi Hp) as (Hi'&HQ&Ht). unfold defer.
  destruct (m w) as [w' r]; simpl in *. destruct (Hc w') as (Hd&Hh&Hk).
  unfold inv in *. rewrite Hd, Hh. split_and!; try tauto; naive_solver.
Qed.

Lemma spec_on_error {A} P (m : M A) cleanup Q : quiet cleanup -> spec t I P m Q -> spec t I P (on_error m cleanup) Q.
Proof.
  intros Hc Hm w Hi Hp. destruct (Hm w Hi Hp) as (Hi'&HQ&Ht). unfold on_error.
  destruct (m w) as [w' [a|err]]; simpl in *; [done|]. destruct (Hc w') as (Hd&Hh&Hk).
  unfold inv in *. rewrite Hd, Hh. split_and!; try tauto; naive_solver.
Qed.

Lemma spec_wrap_err {A} P s (m : M A) Q : spec t I P m Q -> spec t I P (wrap_err s m) Q.
Proof.
  intros Hm w Hi Hp. destruct (Hm w Hi Hp) as (Hi'&HQ&Ht). unfold wrap_err.
  destruct (m w) as [w' [a|err]]; simpl in *; [done|]. split_and!; [done|done|]. naive_solver.
Qed.

Lemma spec_attempt {A} P (m : M A) Q :
  spec false I P m Q -> spec false I P (attempt m) (fun _ _ => True).
Proof.
  intros Hm w Hi Hp. destruct (Hm w Hi Hp) as (?&_&_). unfold attempt. by destruct (m w).
Qed.

Lemma spec_quiet {A} P (m : M A) : quiet m ->
  (t = true -> forall w, w_calls w = [] -> exists a, (m w).2 = Ok a) -> spec t I P m (fun _ => P).
Proof.
  intros Hq Ht w Hi Hp. destruct (Hq w) as (Hd&Hh&Hc). unfold inv in *. rewrite Hd, Hh. split_and!; naive_solver.
Qed.
End rules.

Lemma spec_syscall t I {A} P (f : call -> M A) Q :
  (forall c t', (t' = true -> c_err c = None) -> (t' = true -> t = true) -> spec t' I P (f c) Q) ->
  spec t I P (syscall f) Q.
Proof.
  intros Hf w Hi Hp. unfold syscall. destruct (w_calls w) as [|c cs] eqn:E.
  - destruct (Hf fine t (fun _ => eq_refl) (fun H => H) w Hi Hp) as (?&?&Ht). split_and!; [done..|]. auto.
  - destruct (Hf c false) with (w := mkWorld (w_dir w) (w_open w) (w_past w) cs) as (?&?&_); [done..|].
    by split_and!.
Qed.

Lemma spec_atomic t I {A} P (m : M A) Q : (forall t', (t' = true -> t = true) -> spec t' I P m Q) -> spec t I P (atomic m) Q.
Proof.
  intros Hm. apply spec_syscall. intros c t' Hc Ht. destruct (c_err c).
  - apply spec_fail. intros ->. by specialize (Hc eq_refl).
  - auto.
Qed.

Lemma spec_get_dir t I P : spec t I P get_dir (fun d d' => d = d' /\ P d').
Proof. intros w Hi Hp. split_and!; [done|intros a [= <-]; done|]. intros _ ?. simpl. eauto. Qed.

(** A step that writes one new directory. *)
Lemma spec_put t I P (f : disk -> disk) (Q : unit -> disk -> Prop) :
  (forall d, I d -> P d -> I (f d) /\ Q () (f d)) -> spec t I P (fun w => (put (f (w_dir w)) w, Ok ())) Q.
Proof.
  intros Hf w [H1 H2] Hp. destruct (Hf _ H2 Hp). split_and!; [|naive_solver|simpl; eauto].
  split; [|done]. simpl. apply Forall_app. split; [done|repeat constructor; done].
Qed.

Lemma spec_churn t I P name junk :
  (forall d j, I d -> P d -> I (<[name := EDir j]> d) /\ P (<[name := EDir j]> d)) ->
  spec t I P (churn name junk) (fun _ => P).
Proof.
  intros Hf. unfold churn.
  assert (Hgen : forall w, inv I w -> P (w_dir w) ->
    let w' := foldl (fun w j => put (<[name := EDir j]> (w_dir w)) w) w junk in
    inv I w' /\ P (w_dir w') /\ w_calls w' = w_calls w).
  { induction junk as [|j junk IH]; simpl; [done|]. intros w [H1 H2] Hp. destruct (Hf _ j H2 Hp) as [Hi' Hp'].
    destruct (IH (put (<[name := EDir j]> (w_dir w)) w)) as (?&?&?); [|done|done].
    split; [|done]. simpl. apply Forall_app. split; [done|repeat constructor; done]. }
  intros w Hi Hp. destruct (Hgen w Hi Hp) as (?&?&Hc). split_and!; [done|by intros|].
  simpl. rewrite Hc. eauto.
Qed.

Lemma quiet_close name : quiet (os_Close name).
Proof. intros w. unfold os_Close, syscall. destruct (w_calls w) eqn:E; simpl; by rewrite ?E. Qed.

Lemma spec_opened t I P name : spec t I P (opened name) (fun _ => P).
Proof. apply spec_quiet; [done|]. intros _ w _. simpl. eauto. Qed.

Lemma spec_close t I P name : spec t I P (os_Close name) (fun _ => P).
Proof.
  apply spec_quiet; [apply quiet_close|]. intros _ w Hw. unfold os_Close, syscall. rewrite Hw. simpl. eauto.
Qed.

Lemma spec_Stat t I P n : spec t I P (os_Stat n) (fun b d => b = bool_decide (is_Some (d !! n)) /\ P d).
Proof.
  apply spec_atomic. intros t' _. eapply spec_bind; [apply spec_get_dir|]. intros d. apply spec_ret. naive_solver.
Qed.

Lemma spec_HasRaftData t I P : spec t I P HasRaftData (fun _ => P).
Proof.
  unfold HasRaftData. generalize [walDirName; legacyBoltName]. intros names.
  induction names as [|n names IH]; simpl; [by apply spec_ret|].
  eapply spec_bind; [apply spec_Stat|]. intros [].
  - apply spec_ret. naive_solver.
  - eapply spec_weaken; [apply IH|naive_solver|done].
Qed.
End logic.

#[export] Hint Resolve spec_opened spec_close quiet_close : clavis.

(** ** The migration *)

Section migration.
Context {RS : RaftStores}.

(** The log holds what the database holds: its entries and Raft's three keys. *)
Definition carries (db : boltdb) (w : dirdata) : Prop :=
  wal_logs w = bolt_logs db /\
  (forall k, k ∈ ["CurrentTerm"; "LastVoteTerm"]%string -> wal_uint w k = bolt_uint db k) /\
  wal_get w "LastVoteCand" = bolt_get db "LastVoteCand".

Definition no_dir (e : option entry) : Prop := match e with Some (EDir _) => False | _ => True end.

Definition no_file (e : option entry) : Prop := match e with None | Some (EDir _) => True | _ => False end.

(** A data directory of the older format, and how far its migration has come: the
    database is there and the log is not; both are; only the log is. Nothing else
    in the directory has changed since [d0], except that the directory of snapshots
    may have been created. *)
Definition others_kept (d0 d : disk) : Prop :=
  (forall n, n ∉ [walDirName; legacyBoltName; migratedBoltName; migratingDirName; snapshotsDirName] -> d !! n = d0 !! n) /\
  no_file (d !! snapshotsDirName).

Inductive stage (db : boltdb) (d0 d : disk) : Prop :=
| Legacy : d !! legacyBoltName = Some (EBolt db) -> d !! walDirName = None ->
    no_dir (d !! migratedBoltName) -> others_kept d0 d -> stage db d0 d
| Both w : d !! legacyBoltName = Some (EBolt db) -> d !! walDirName = Some (EDir w) -> carries db w ->
    no_dir (d !! migratedBoltName) -> others_kept d0 d -> stage db d0 d
| Migrated w : d !! legacyBoltName = None -> d !! walDirName = Some (EDir w) -> carries db w ->
    d !! migratedBoltName = Some (EBolt db) -> others_kept d0 d -> stage db d0 d.

Context (db : boltdb) (d0 : disk).

(** Entries that count as [others_kept] after a change of the named entry. *)
Lemma kept_insert n e d : n ∈ [walDirName; legacyBoltName; migratedBoltName; migratingDirName] ->
  others_kept d0 d -> others_kept d0 (<[n := e]> d).
Proof.
  intros Hn [Hk Hs]. split; [|by rewrite lookup_insert_ne by set_solver].
  intros m Hm. rewrite lookup_insert_ne by set_solver. auto.
Qed.
Lemma kept_delete n d : n ∈ [walDirName; legacyBoltName; migratedBoltName; migratingDirName] ->
  others_kept d0 d -> others_kept d0 (delete n d).
Proof.
  intros Hn [Hk Hs]. split; [|by rewrite lookup_delete_ne by set_solver].
  intros m Hm. rewrite lookup_delete_ne by set_solver. auto.
Qed.
Hint Resolve kept_insert kept_delete : clavis.
Hint Extern 1 (_ ∈ _ :: _) => set_solver : clavis.

(** Writing the scratch directory keeps the stage. *)
Lemma stage_scratch d e : stage db d0 d -> stage db d0 (<[migratingDirName := e]> d).
Proof.
  intros [| |]; [apply Legacy|eapply Both|eapply Migrated]; rewrite ?lookup_insert_ne by done; eauto with clavis.
Qed.
Lemma stage_no_scratch d : stage db d0 d -> stage db d0 (delete migratingDirName d).
Proof.
  intros [| |]; [apply Legacy|eapply Both|eapply Migrated]; rewrite ?lookup_delete_ne by done; eauto with clavis.
Qed.
Hint Resolve stage_scratch stage_no_scratch : clavis.

(** The scratch directory is being built; the database is untouched and the log is
    not there yet. *)
Definition copying (p : dirdata -> Prop) (d : disk) : Prop :=
  d !! legacyBoltName = Some (EBolt db) /\ d !! walDirName = None /\
  no_dir (d !! migratedBoltName) /\ others_kept d0 d /\
  exists w, d !! migratingDirName = Some (EDir w) /\ p w.
Definition starting (d : disk) : Prop :=
  d !! legacyBoltName = Some (EBolt db) /\ d !! walDirName = None /\
  no_dir (d !! migratedBoltName) /\ others_kept d0 d.

Lemma starting_scratch d e : starting d -> starting (<[migratingDirName := e]> d).
Proof.
  intros (?&?&?&Hk). unfold starting. rewrite !lookup_insert_ne by done. split_and!; eauto with clavis.
Qed.
Lemma starting_no_scratch d : starting d -> starting (delete migratingDirName d).
Proof.
  intros (?&?&?&Hk). unfold starting. rewrite !lookup_delete_ne by done. split_and!; eauto with clavis.
Qed.
Lemma copying_iff p d : copying p d <-> starting d /\ exists w, d !! migratingDirName = Some (EDir w) /\ p w.
Proof. unfold copying, starting. naive_solver. Qed.
Hint Resolve starting_scratch starting_no_scratch : clavis.

Abbreviation step t P m Q := (spec t (stage db d0) P m Q) (only parsing).

Lemma step_RemoveAll t : step t starting (os_RemoveAll migratingDirName)
  (fun _ d => starting d /\ d !! migratingDirName = None).
Proof.
  apply spec_syscall. intros c t' Hc _. eapply spec_bind; [apply spec_get_dir|]. intros d.
  eapply (spec_bind _ _ _ _ _ (fun _ => starting)).
  - destruct (d !! migratingDirName) as [[]|];
      try (apply spec_ret; naive_solver).
    eapply spec_weaken; [apply (spec_churn _ _ starting)| |]; naive_solver eauto with clavis.
  - intros _. destruct (c_err c); [apply spec_fail; naive_solver|].
    apply (spec_put _ _ _ (delete migratingDirName)). intros d' ??.
    split; [eauto with clavis|]. split; [eauto with clavis|]. by simplify_map_eq.
Qed.

Lemma step_MkdirAll t : step t (fun d => starting d /\ d !! migratingDirName = None) (os_MkdirAll migratingDirName)
  (fun _ => copying (eq empty_dir)).
Proof.
  apply spec_atomic. intros t' _. eapply spec_bind; [apply spec_get_dir|]. intros d.
  destruct (d !! migratingDirName) as [e|] eqn:E.
  - intros w ? (<-&?&?). congruence.
  - apply (spec_put _ _ _ (<[migratingDirName := EDir empty_dir]>)). intros d' ? (->&?&?).
    split; [eauto with clavis|]. rewrite copying_iff. split; [by apply starting_scratch|]. exists empty_dir. by simplify_map_eq.
Qed.

Lemma step_bolt_New t p : step t (copying p) (raftboltdb_New legacyBoltName) (fun _ => copying p).
Proof.
  apply spec_atomic. intros t' _. eapply spec_bind; [apply spec_get_dir|]. intros d w Hi [-> Hp].
  destruct (Hp) as (->&_). by apply spec_opened.
Qed.

Lemma step_get_bolt t p : step t (copying p) (get_bolt legacyBoltName) (fun a d => a = db /\ copying p d).
Proof.
  eapply spec_bind; [apply spec_get_dir|]. intros d w Hi [-> Hp]. destruct (Hp) as (->&_).
  by apply (spec_ret t (stage db d0) (copying p) db (fun a d => a = db /\ copying p d)).
Qed.

Lemma step_get_wal t p : step t (copying p) (get_wal migratingDirName) (fun a d => p a /\ starting d).
Proof.
  eapply spec_bind; [apply spec_get_dir|]. intros d w Hi [-> Hp]. apply copying_iff in Hp as (Hs&a&->&Ha).
  by apply (spec_ret t (stage db d0) starting a (fun a d => p a /\ starting d)).
Qed.

Lemma step_set_scratch t (p : dirdata -> Prop) a :
  p a -> step t starting (set_entry migratingDirName (EDir a)) (fun _ => copying p).
Proof.
  intros Ha. apply (spec_put _ _ _ (<[migratingDirName := EDir a]>)). intros d ??. split; [eauto with clavis|].
  rewrite copying_iff. split; [eauto with clavis|]. exists a. by simplify_map_eq.
Qed.

(** Changing the log in the scratch directory. *)
Lemma step_wal_write t (p q : dirdata -> Prop) f : (forall a, p a -> q (f a)) ->
  step t (copying p) (wal_write migratingDirName f) (fun _ => copying q).
Proof.
  intros Hf. apply spec_syscall. intros c t' Hc _. eapply spec_bind; [apply step_get_wal|]. intros a.
  eapply (spec_bind _ _ _ _ _ (fun _ d => p a /\ starting d)).
  - apply spec_churn. intros d j ? [??]. split_and!; eauto with clavis.
  - intros _. destruct (c_err c); [apply spec_fail; intros ->; by specialize (Hc eq_refl)|].
    intros w Hi [Ha Hs]. apply step_set_scratch; auto.
Qed.

Lemma step_wal_Open t (p q : dirdata -> Prop) : (forall a, p a -> q (wal_opened a)) ->
  step t (copying p) (wal_Open migratingDirName) (fun _ => copying q).
Proof.
  intros Hq. apply spec_atomic. intros t' _. eapply spec_bind; [apply step_get_wal|]. intros a.
  eapply (spec_bind _ _ _ _ _ (fun _ => copying q)); [|intros _; apply spec_opened].
  intros w Hi [Ha Hs]. apply step_set_scratch; auto.
Qed.

(** A read of the database. *)
Lemma step_read t p {A} (f : boltdb -> A) :
  step t (copying p) (atomic (x ← get_bolt legacyBoltName; mret (f x))) (fun a d => a = f db /\ copying p d).
Proof.
  apply spec_atomic. intros t' _. eapply spec_bind; [apply step_get_bolt|]. intros x. apply spec_ret. naive_solver.
Qed.

(** What the log in the scratch directory holds along the way: the entries, and
    the keys of [done]; the keys of [todo] are still unset. *)
Definition copied_keys (done todo : list string) (a : dirdata) : Prop :=
  wal_logs a = bolt_logs db /\
  (forall k, k ∈ done -> wal_uint a k = bolt_uint db k) /\
  (forall k, k ∈ todo -> wal_uint a k = None) /\
  wal_get a "LastVoteCand" = None.

Lemma step_copyLogs t ks : step t (copying (fun a => wal_logs a = ∅ /\ forall k, wal_uint a k = None /\ wal_get a k = None))
  (copyLogs migratingDirName legacyBoltName) (fun _ => copying (copied_keys [] ks)).
Proof.
  eapply spec_bind; [apply step_read|]. intros last.
  destruct (last =? 0) eqn:E.
  - apply spec_ret. intros d (->&Hc). to_prop. apply last_index_zero in E.
    apply copying_iff in Hc as (?&a&?&Hl&Hk). apply copying_iff. split; [done|]. exists a. split; [done|].
    split_and!; [congruence|set_solver| |]; intros; by apply Hk.
  - eapply spec_bind; [eapply spec_weaken; [apply step_get_bolt|intros d []; done|done]|]. intros x.
    intros w Hi [-> Hc]. eapply step_wal_write; [|done..]. intros a [Hl Hk].
    split_and!; [by apply copying_logs|set_solver| |]; intros; rewrite ?(proj1 (copying_keeps_keys _ _ _)), ?(proj2 (copying_keeps_keys _ _ _)); by apply Hk.
Qed.

Lemma copied_one done todo k v a : k ∉ done -> k ∉ todo -> k <> "LastVoteCand"%string -> Some v = bolt_uint db k ->
  copied_keys done (k :: todo) a -> copied_keys (done ++ [k]) todo (wal_set_uint a k v).
Proof.
  intros Hd Ht Hc Hv (Hl&Hdone&Htodo&Hg). destruct (set_uint_keeps a k v) as [Hl' Hk'].
  split_and!; [congruence| | |].
  - intros k'. rewrite elem_of_app, list_elem_of_singleton. intros [?| ->]; [|by rewrite set_uint_sets].
    rewrite (proj1 (Hk' k' ltac:(set_solver))). auto.
  - intros k' ?. rewrite (proj1 (Hk' k' ltac:(set_solver))). set_solver.
  - by rewrite (proj2 (Hk' "LastVoteCand"%string ltac:(done))).
Qed.

Lemma step_copyUints t done todo : "LastVoteCand"%string ∉ todo -> NoDup (done ++ todo) ->
  step t (copying (copied_keys done todo)) (copyUints migratingDirName legacyBoltName todo)
    (fun _ => copying (copied_keys (done ++ todo) [])).
Proof.
  revert done. induction todo as [|k todo IH]; intros done Hnc Hnd.
  - apply spec_ret. intros d. by rewrite app_nil_r.
  - assert (Hnd' : NoDup ((done ++ [k]) ++ todo)) by (by rewrite <- app_assoc).
    assert ((k ∉ done) /\ (k ∉ todo) /\ k <> "LastVoteCand"%string) as (?&?&?) by (apply list.NoDup_app in Hnd as (_&Hd&Hn); apply list.NoDup_cons in Hn; set_solver).
    rewrite cons_middle, app_assoc. simpl.
    eapply spec_bind; [apply spec_wrap_err, step_read|]. intros v.
    eapply (spec_bind _ _ _ _ _ (fun _ => copying (copied_keys (done ++ [k]) todo)));
      [|intros _; apply IH; [set_solver|done]].
    destruct v as [v|]; intros w Hi [Hv Hc].
    + assert (Hset : step t (copying (copied_keys done (k :: todo))) (wal_SetUint64 migratingDirName k v)
        (fun _ => copying (copied_keys (done ++ [k]) todo))) by (apply step_wal_write; auto using copied_one).
      apply (spec_wrap_err _ _ _ _ _ _ Hset); done.
    + apply (spec_ret t (stage db d0) (copying (copied_keys done (k :: todo))) () (fun _ => copying (copied_keys (done ++ [k]) todo)));
        [|done..]. intros d (?&?&?&?&a&?&Hl&Hd&Ht&Hg).
      unfold copying. split_and!; [done..|]. exists a. split; [done|]. split_and!; [done| |set_solver|done].
      intros k'. rewrite elem_of_app, list_elem_of_singleton. intros [?| ->]; [auto|]. rewrite Ht by set_solver. done.
Qed.

Lemma step_copyStable t : step t (copying (copied_keys [] ["CurrentTerm"; "LastVoteTerm"]%string))
  (copyStable migratingDirName legacyBoltName) (fun _ => copying (carries db)).
Proof.
  eapply spec_bind; [apply (step_copyUints t []); [set_solver|by apply (bool_decide_unpack _); vm_compute]|]. intros []. simpl.
  eapply spec_bind; [apply spec_wrap_err, step_read|]. intros [v|] w Hi [Hv Hc].
  - assert (Hset : step t (copying (copied_keys ["CurrentTerm"; "LastVoteTerm"]%string []))
      (wal_Set migratingDirName "LastVoteCand" v) (fun _ => copying (carries db))).
    { apply step_wal_write. intros a (Hl&Hd&_&Hg). destruct (set_keeps a "LastVoteCand" v) as [Hl' Hk'].
      split_and!; [congruence| |by rewrite set_sets]. intros k Hk.
      rewrite (proj1 (Hk' k ltac:(set_solver))). auto. }
    by apply Hset.
  - apply (spec_ret t (stage db d0) (copying (copied_keys ["CurrentTerm"; "LastVoteTerm"]%string [])) () (fun _ => copying (carries db))); [|done..].
    intros d (?&?&?&?&a&?&Hl&Hd&_&Hg). unfold copying. split_and!; try done. exists a. split; [done|]. split_and!; [done|done|congruence].
Qed.

Definition at_both (d : disk) : Prop :=
  d !! legacyBoltName = Some (EBolt db) /\ no_dir (d !! migratedBoltName) /\ others_kept d0 d /\
  exists w, d !! walDirName = Some (EDir w) /\ carries db w.
Definition finished (d : disk) : Prop :=
  d !! legacyBoltName = None /\ d !! migratedBoltName = Some (EBolt db) /\ others_kept d0 d /\
  exists w, d !! walDirName = Some (EDir w) /\ carries db w.

Lemma at_both_stage d : at_both d -> stage db d0 d.
Proof. intros (?&?&?&w&?&?). by apply (Both _ _ _ w). Qed.
Lemma finished_stage d : finished d -> stage db d0 d.
Proof. intros (?&?&?&w&?&?). by apply (Migrated _ _ _ w). Qed.

Lemma step_install t : step t (copying (carries db)) (os_Rename migratingDirName walDirName) (fun _ => at_both).
Proof.
  apply spec_atomic. intros t' _. eapply spec_bind; [apply spec_get_dir|]. intros d w Hi [-> Hp].
  pose proof Hp as (Hb&Hw&Hm&Hk&a&Ha&Hc). rewrite Ha, Hw.
  apply (spec_put t' (stage db d0) (eq (w_dir w)) (fun d => <[walDirName := EDir a]> (delete migratingDirName d)) (fun _ => at_both)); [|done..].
  intros d _ <-. assert (Hat : at_both (<[walDirName := EDir a]> (delete migratingDirName (w_dir w)))).
  { unfold at_both. rewrite !lookup_insert_ne, !lookup_delete_ne by done. split_and!; eauto with clavis.
    exists a. by simplify_map_eq. }
  split; [by apply at_both_stage|done].
Qed.

Lemma step_retire t : step t at_both (os_Rename legacyBoltName migratedBoltName) (fun _ => finished).
Proof.
  apply spec_atomic. intros t' _. eapply spec_bind; [apply spec_get_dir|]. intros d w Hi [-> Hp].
  pose proof Hp as (Hb&Hm&Hk&a&Ha&Hc). rewrite Hb.
  assert (Hput : step t' (eq (w_dir w)) (move_entry legacyBoltName migratedBoltName (EBolt db)) (fun _ => finished)).
  { apply (spec_put t' _ _ (fun d => <[migratedBoltName := EBolt db]> (delete legacyBoltName d))). intros d _ <-.
    assert (Hfin : finished (<[migratedBoltName := EBolt db]> (delete legacyBoltName (w_dir w)))).
    { unfold finished. split_and!; [by simplify_map_eq..| |exists a; by simplify_map_eq].
      eauto with clavis. }
    split; [by apply finished_stage|done]. }
  destruct (w_dir w !! migratedBoltName) as [[]|]; [by apply Hput|by apply Hput|done|by apply Hput].
Qed.

Lemma step_copyBoltToWAL t : step t starting (copyBoltToWAL legacyBoltName migratingDirName walDirName) (fun _ => at_both).
Proof.
  eapply spec_bind; [apply step_RemoveAll|]. intros [].
  eapply spec_bind; [apply step_MkdirAll|]. intros [].
  eapply spec_bind; [apply step_bolt_New|]. intros [].
  apply spec_defer; [apply quiet_close|].
  eapply spec_bind.
  { apply step_wal_Open with (q := fun a => wal_logs a = ∅ /\ forall k, wal_uint a k = None /\ wal_get a k = None).
    intros a <-. destruct (opening_keeps empty_dir) as [-> Hk], empty_holds_nothing as [-> He]. split; [done|].
    intros k. destruct (Hk k) as [-> ->]. auto. }
  intros []. eapply spec_bind; [apply spec_on_error; [apply quiet_close|apply step_copyLogs]|].
  intros []. eapply spec_bind; [apply spec_on_error; [apply quiet_close|apply step_copyStable]|].
  intros []. eapply spec_bind; [apply spec_close|]. intros []. apply step_install.
Qed.

(** From any stage the migration keeps the stages, and finishes when it succeeds;
    it succeeds when the environment does. *)
Lemma step_migrate t : step t (fun _ => True) migrateFromBolt (fun _ => finished).
Proof.
  apply spec_pre. eapply spec_bind; [apply spec_Stat|]. intros hasBolt. destruct hasBolt; simpl.
  - eapply spec_bind; [apply spec_Stat|]. intros hasWal.
    eapply (spec_bind _ _ _ _ _ (fun _ => at_both)); [|intros _; apply step_retire].
    destruct hasWal; simpl.
    + apply spec_ret. intros d (Hw&Hb&[Hs _]). symmetry in Hw, Hb. to_prop.
      destruct Hs as [? Hn|a|a Hl]; [rewrite Hn in Hw; by destruct Hw|split_and!; eauto|rewrite Hl in Hb; by destruct Hb].
    + eapply spec_weaken; [apply step_copyBoltToWAL| |done]. intros d (Hw&Hb&[Hs _]). symmetry in Hw, Hb. to_prop.
      destruct Hs as [|a ? Hx|a Hl]; [done|rewrite Hx in Hw; by destruct Hw|rewrite Hl in Hb; by destruct Hb].
  - apply spec_ret. intros d (Hb&[Hs _]). symmetry in Hb. to_prop.
    destruct Hs as [Hx|a Hx|a]; [rewrite Hx in Hb; by destruct Hb..|]. split_and!; eauto.
Qed.

Lemma carries_opened a : carries db a -> carries db (wal_opened a).
Proof.
  intros (Hl&Hu&Hg). destruct (opening_keeps a) as [Hl' Hk]. split_and!; [congruence| |by rewrite (proj2 (Hk _))].
  intros k ?. rewrite (proj1 (Hk k)). auto.
Qed.

Lemma step_open_log t : step t finished (os_MkdirAll walDirName;; wal_Open walDirName) (fun _ => finished).
Proof.
  eapply (spec_bind _ _ _ _ _ (fun _ => finished)).
  - apply spec_atomic. intros t' _. eapply spec_bind; [apply spec_get_dir|]. intros d w Hi [-> Hf].
    pose proof Hf as (_&_&_&a&->&_). by apply (spec_ret t' (stage db d0) finished () (fun _ => finished)).
  - intros _. apply spec_atomic. intros t' _. eapply (spec_bind _ _ _ _ _ (fun a d => finished d /\ carries db a)).
    + eapply spec_bind; [apply spec_get_dir|]. intros d w Hi [-> Hf]. pose proof Hf as (_&_&_&a&->&Ha).
      by apply (spec_ret t' (stage db d0) finished a (fun a d => finished d /\ carries db a)).
    + intros a. eapply (spec_bind _ _ _ _ _ (fun _ => finished)); [|intros _; apply spec_opened].
      apply (spec_put _ _ _ (<[walDirName := EDir (wal_opened a)]>)). intros d _ ((Hb&Hm&Hk&_)&Ha).
      assert (Hfin : finished (<[walDirName := EDir (wal_opened a)]> d)).
      { unfold finished. rewrite !lookup_insert_ne by done. split_and!; eauto with clavis.
        exists (wal_opened a). simplify_map_eq. eauto using carries_opened. }
      split; [by apply finished_stage|done].
Qed.

Lemma step_snapshots t : step t finished (NewFileSnapshotStore snapshotsDirName) (fun _ => finished).
Proof.
  apply spec_atomic. intros t' _. eapply spec_bind; [apply spec_get_dir|]. intros d w Hi [-> Hf].
  pose proof Hf as (Hb&Hm&[Hk Hs]&a&Ha&Hc).
  destruct (w_dir w !! snapshotsDirName) as [[]|] eqn:E; [done|done| |].
  { by apply (spec_ret t' (stage db d0) finished () (fun _ => finished)). }
  assert (Hput : step t' (eq (w_dir w)) (set_entry snapshotsDirName (EDir empty_dir)) (fun _ => finished)); [|by apply Hput].
  apply (spec_put _ _ _ (<[snapshotsDirName := EDir empty_dir]>)). intros d _ <-.
  assert (Hfin : finished (<[snapshotsDirName := EDir empty_dir]> (w_dir w))).
  { unfold finished. rewrite !lookup_insert_ne by done. split_and!; eauto.
    split; [|by simplify_map_eq]. intros n Hn. rewrite lookup_insert_ne by set_solver. auto. }
  split; [by apply finished_stage|done].
Qed.

Lemma step_NewStorage t : step t (fun _ => True) NewStorage (fun s d => s = mkStorage walDirName snapshotsDirName /\ finished d).
Proof.
  eapply spec_bind; [apply spec_wrap_err, step_migrate|]. intros [].
  pose proof (step_open_log t) as Ho.
  intros w Hi Hf. specialize (Ho w Hi Hf). revert Ho. unfold mbind, M_bind.
  destruct (os_MkdirAll walDirName w) as [w1 [[]|]]; [|naive_solver].
  destruct (wal_Open walDirName w1) as [w2 [[]|]]; [|naive_solver]. simpl. intros (Hi2&Hf2&Ht2).
  assert (Hs : step t finished (on_error (NewFileSnapshotStore snapshotsDirName) (os_Close walDirName)) (fun _ => finished))
    by (apply spec_on_error; [apply quiet_close|apply step_snapshots]).
  destruct (Hs w2 Hi2 (Hf2 () eq_refl)) as (Hi3&Hf3&Ht3).
  destruct (on_error _ _ w2) as [w3 [[]|]]; simpl in *; naive_solver.
Qed.

Lemma stage_has_data d : stage db d0 d -> (HasRaftData (boot d [])).2 = Ok true.
Proof.
  unfold HasRaftData, hasAny, os_Stat, atomic, syscall, mbind, M_bind. simpl.
  intros [Hb Hw| a Hb Hw|a Hb Hw]; repeat (rewrite ?Hw, ?Hb; simpl); done.
Qed.

(** Data directories that starting the store over and over can leave, each attempt
    cut short at any moment or run to its end, whatever failed on the way. *)
Inductive interrupted : disk -> Prop :=
| untouched : interrupted d0
| once_more d calls d' : interrupted d -> d' ∈ w_past (NewStorage (boot d calls)).1 -> interrupted d'.

Lemma boot_inv (I : disk -> Prop) d calls : I d -> inv I (boot d calls).
Proof. intros. split; [by repeat constructor|done]. Qed.

Lemma interrupted_stage d : stage db d0 d0 -> interrupted d -> stage db d0 d.
Proof.
  intros H0. induction 1 as [|d calls d' _ IH Hd']; [done|].
  destruct (step_NewStorage false (boot d calls) (boot_inv _ _ _ IH) Logic.I) as ([Hall _]&_&_).
  by eapply list.Forall_forall in Hd'.
Qed.
End migration.

(** ** Open handles *)

Section handles.
Context {RS : RaftStores}.

(** With [h0] open, [m] leaves [ok] open when it succeeds and [bad] when it fails. *)
Definition handles (h0 : list string) {A} (m : M A) (ok bad : list string) : Prop :=
  forall w, w_open w = h0 -> w_open (m w).1 = match (m w).2 with Ok _ => ok | Err _ => bad end.

Lemma handles_ret {A} h (a : A) b : handles h (mret a) h b.
Proof. by intros w. Qed.
Lemma handles_fail {A} h e ok : handles h (@fail _ A e) ok h.
Proof. by intros w. Qed.
Lemma handles_bind {A B} h0 h1 h2 b (m : M A) (k : A -> M B) :
  handles h0 m h1 b -> (forall a, handles h1 (k a) h2 b) -> handles h0 (m ≫= k) h2 b.
Proof.
  intros Hm Hk w Hw. specialize (Hm w Hw). unfold mbind, M_bind.
  destruct (m w) as [w' [a|e]]; simpl in *; [|done]. by apply Hk.
Qed.
Lemma handles_syscall {A} h ok b (f : call -> M A) : (forall c, handles h (f c) ok b) -> handles h (syscall f) ok b.
Proof. intros Hf w Hw. unfold syscall. destruct (w_calls w); by apply Hf. Qed.
Lemma handles_atomic {A} h ok (m : M A) : handles h m ok h -> handles h (atomic m) ok h.
Proof. intros Hm. apply handles_syscall. intros c. destruct (c_err c); [apply handles_fail|done]. Qed.
Lemma handles_wrap {A} h ok b s (m : M A) : handles h m ok b -> handles h (wrap_err s m) ok b.
Proof. intros Hm w Hw. specialize (Hm w Hw). unfold wrap_err. by destruct (m w) as [w' []]. Qed.
Lemma handles_get_dir h b : handles h get_dir h b.
Proof. by intros w. Qed.
Lemma handles_set h b n e : handles h (set_entry n e) h b.
Proof. by intros w. Qed.
Lemma handles_unset h b n : handles h (unset_entry n) h b.
Proof. by intros w. Qed.
Lemma handles_move h b o n e : handles h (move_entry o n e) h b.
Proof. by intros w. Qed.
Lemma handles_churn h b n junk : handles h (churn n junk) h b.
Proof.
  intros w Hw. simpl. revert w Hw. induction junk as [|j junk IH]; simpl; [done|]. intros w Hw. by apply IH.
Qed.
Lemma handles_opened h b n : handles h (opened n) (n :: h) b.
Proof. intros w <-. done. Qed.
Lemma handles_close n h : handles (n :: h) (os_Close n) h h.
Proof.
  intros w Hw. unfold os_Close, syscall.
  destruct (w_calls w) as [|c cs]; simpl; rewrite Hw; simpl; rewrite String.eqb_refl; [done|by destruct (c_err c)].
Qed.
Lemma handles_defer {A} n h (m : M A) : handles (n :: h) m (n :: h) (n :: h) -> handles (n :: h) (defer m (os_Close n)) h h.
Proof.
  intros Hm w Hw. specialize (Hm w Hw). unfold defer. destruct (m w) as [w' r]; simpl in *.
  assert (Hw' : w_open w' = n :: h) by (by destruct r). pose proof (handles_close n h w' Hw') as Hc.
  destruct (os_Close n w') as [w'' []]; by destruct r.
Qed.
Lemma handles_on_error {A} n h (m : M A) : handles (n :: h) m (n :: h) (n :: h) -> handles (n :: h) (on_error m (os_Close n)) (n :: h) h.
Proof.
  intros Hm w Hw. specialize (Hm w Hw). unfold on_error. destruct (m w) as [w' [a|e]]; simpl in *; [done|].
  pose proof (handles_close n h w' Hm) as Hc. by destruct (os_Close n w') as [w'' []].
Qed.
End handles.

Create HintDb handles.
#[export] Hint Resolve handles_ret handles_fail handles_syscall handles_atomic handles_wrap handles_get_dir handles_set
  handles_unset handles_move handles_churn handles_opened handles_close handles_defer handles_on_error : handles.

(** Follows the program, one bind at a time. *)
Ltac handles :=
  repeat first
    [ progress intros
    | case_match
    | apply handles_wrap | apply handles_defer | apply handles_on_error | apply handles_atomic
    | solve [eauto with handles nocore]
    | apply handles_syscall
    | eapply handles_bind ].

Section no_leaks.
Context {RS : RaftStores}.

Lemma handles_Stat h n : handles h (os_Stat n) h h.
Proof. unfold os_Stat. handles. Qed.
Lemma handles_RemoveAll h n : handles h (os_RemoveAll n) h h.
Proof. unfold os_RemoveAll. handles. Qed.
Lemma handles_MkdirAll h n : handles h (os_MkdirAll n) h h.
Proof. unfold os_MkdirAll. handles. Qed.
Lemma handles_Rename h o n : handles h (os_Rename o n) h h.
Proof. unfold os_Rename. handles. Qed.
Lemma handles_get_bolt h n : handles h (get_bolt n) h h.
Proof. unfold get_bolt. handles. Qed.
Lemma handles_get_wal h n : handles h (get_wal n) h h.
Proof. unfold get_wal. handles. Qed.
Hint Resolve handles_Stat handles_RemoveAll handles_MkdirAll handles_Rename handles_get_bolt handles_get_wal : handles.
Lemma handles_bolt_New h n : handles h (raftboltdb_New n) (n :: h) h.
Proof. unfold raftboltdb_New. handles. Qed.
Lemma handles_wal_Open h n : handles h (wal_Open n) (n :: h) h.
Proof. unfold wal_Open. handles. Qed.
Lemma handles_wal_write h n f : handles h (wal_write n f) h h.
Proof. unfold wal_write. handles. Qed.
Lemma handles_read h n {A} (f : boltdb -> A) : handles h (atomic (x ← get_bolt n; mret (f x))) h h.
Proof. handles. Qed.
Hint Resolve handles_bolt_New handles_wal_Open handles_wal_write handles_read : handles.
Lemma handles_copyLogs h dst src : handles h (copyLogs dst src) h h.
Proof. unfold copyLogs, bolt_LastIndex, migrate_CopyLogs. handles. Qed.
Lemma handles_copyUints h dst src ks : handles h (copyUints dst src ks) h h.
Proof. unfold bolt_GetUint64. induction ks as [|k ks IH]; simpl; [apply handles_ret|]. unfold bolt_GetUint64, wal_SetUint64. handles. Qed.
Hint Resolve handles_copyLogs handles_copyUints : handles.
Lemma handles_copyStable h dst src : handles h (copyStable dst src) h h.
Proof. unfold copyStable, bolt_Get, wal_Set. handles. Qed.
Hint Resolve handles_copyStable : handles.
Lemma handles_copyBoltToWAL h b s w : handles h (copyBoltToWAL b s w) h h.
Proof. unfold copyBoltToWAL. handles. Qed.
Hint Resolve handles_copyBoltToWAL : handles.
Lemma handles_migrate h : handles h migrateFromBolt h h.
Proof. unfold migrateFromBolt. handles. Qed.
Hint Resolve handles_migrate : handles.
Lemma handles_NewStorage h : handles h NewStorage (walDirName :: h) h.
Proof. unfold NewStorage, NewFileSnapshotStore. handles. Qed.
End no_leaks.

(** ** What the store promises *)

Section promises.
Context {RS : RaftStores}.

(** A log that is already there is left alone by the migration, at every moment. *)
Lemma existing_log_kept e d calls d' : d !! walDirName = Some e ->
  d' ∈ w_past (migrateFromBolt (boot d calls)).1 -> d' !! walDirName = Some e.
Proof.
  set (I := fun x : disk => x !! walDirName = Some e). intros Hd.
  assert (Hs : spec false I I migrateFromBolt (fun _ _ => True)).
  { eapply spec_bind; [apply (spec_atomic _ _ _ _ (fun b => I)); intros; eapply spec_bind; [apply spec_get_dir|]; intros; apply spec_ret; naive_solver|].
    intros [|]; simpl; [|by apply spec_ret].
    eapply (spec_bind _ _ _ _ _ (fun b x => b = true /\ I x)).
    { apply spec_atomic. intros t' _. eapply spec_bind; [apply spec_get_dir|]. intros x. apply spec_ret.
      intros y (->&Hy). split; [|done]. unfold I in Hy. by rewrite Hy. }
    intros hasWal. eapply (spec_bind _ _ _ _ _ (fun _ => I)).
    { destruct hasWal; simpl; [by apply spec_ret; naive_solver|]. intros w ? [??]. done. }
    intros _. apply spec_atomic. intros t' Ht. eapply spec_bind; [apply spec_get_dir|]. intros x.
    assert (Ht' : t' = true -> False) by (intros H; by specialize (Ht H)).
    assert (Hmove : forall en, spec t' I (fun x' => x = x' /\ I x') (move_entry legacyBoltName migratedBoltName en) (fun _ _ => True)).
    { intros en. apply (spec_put _ _ _ (fun d => <[migratedBoltName := en]> (delete legacyBoltName d))). intros y ? [-> Hy].
      split; [|done]. unfold I. by rewrite lookup_insert_ne, lookup_delete_ne by done. }
    repeat case_match; try apply Hmove; apply spec_fail; naive_solver. }
  destruct (Hs (boot d calls) (boot_inv I d calls Hd) Hd) as ([Hall _]&_). rewrite list.Forall_forall in Hall. by apply Hall.
Qed.

(** C18: a data directory of the older format survives the migration however often
    it is interrupted. Start the store on it any number of times, each attempt
    failing in any of its system and library calls or killed at any moment; what is
    left still counts as existing Raft data, and the next undisturbed start
    succeeds with a write-ahead log that holds every log entry, the term and the
    vote of the old database, which is kept as a backup. A log that is already in
    place is never changed by the migration. *)
Theorem migration_survives_interruption (db : boltdb) (d0 d : disk) :
  d0 !! legacyBoltName = Some (EBolt db) -> d0 !! walDirName = None ->
  no_dir (d0 !! migratedBoltName) -> no_file (d0 !! snapshotsDirName) ->
  interrupted d0 d ->
  (HasRaftData (boot d [])).2 = Ok true /\
  (let '(w, r) := NewStorage (boot d []) in
   r = Ok (mkStorage walDirName snapshotsDirName) /\ finished db d0 (w_dir w)) /\
  (forall e calls d', d !! walDirName = Some e ->
     d' ∈ w_past (migrateFromBolt (boot d calls)).1 -> d' !! walDirName = Some e).
Proof.
  intros Hb Hw Hm Hs Hi.
  assert (H0 : stage db d0 d0) by (by apply Legacy).
  pose proof (interrupted_stage db d0 d H0 Hi) as Hd. split_and!.
  - by eapply stage_has_data.
  - destruct (step_NewStorage db d0 true (boot d []) (boot_inv _ _ _ Hd) Logic.I) as (_&HQ&Ht).
    destruct (Ht eq_refl eq_refl) as [_ [s Hr]]. destruct (NewStorage (boot d [])) as [w r]. simpl in *.
    destruct (HQ s Hr) as [-> ?]. by rewrite Hr.
  - intros. by eapply existing_log_kept.
Qed.

(** C37: opening the storage leaks nothing: whatever fails, a failed [NewStorage]
    leaves open exactly what was open before, and a successful one adds the log
    alone, which [Close] gives up. *)
Theorem storage_leaks_nothing (w : world) :
  let '(w', r) := NewStorage w in
  match r with
  | Err _ => w_open w' = w_open w
  | Ok s => w_open w' = walDirName :: w_open w /\ w_open (Storage_Close s w').1 = w_open w
  end.
Proof.
  pose proof (handles_NewStorage (w_open w) w eq_refl) as Hh.
  destruct (NewStorage w) as [w' [s|]] eqn:E; simpl in *; [|done]. split; [done|].
  assert (Hs : WAL s = walDirName).
  { revert E. unfold NewStorage, mbind, M_bind.
    destruct (wrap_err _ _ _) as [? []]; [|done]. destruct (os_MkdirAll _ _) as [? []]; [|done].
    destruct (wal_Open _ _) as [? []]; [|done]. destruct (on_error _ _ _) as [? []]; [|done]. by intros [= _ <-]. }
  unfold Storage_Close. rewrite Hs. pose proof (handles_close walDirName (w_open w) w' Hh) as Hc.
  by destruct (os_Close walDirName w') as [w'' []].
Qed.
End promises.

(** ** Concrete stores, used to evaluate the model *)

Record toy_store := mkToy { toy_logs : gmap Z string; toy_uint : gmap string Z; toy_get : gmap string string }.

#[export] Program Instance toy_stores : RaftStores := {|
  boltdb := toy_store;
  dirdata := toy_store;
  bolt_bytes _ := "bolt"%string;
  bolt_of_bytes _ := Err (Errorf "invalid database");
  bolt_empty := mkToy ∅ ∅ ∅;
  empty_dir := mkToy ∅ ∅ ∅;
  bolt_logs := toy_logs;
  bolt_last s := Z.of_nat (size (toy_logs s));
  bolt_uint s k := toy_uint s !! k;
  bolt_get s k := toy_get s !! k;
  wal_logs := toy_logs;
  wal_uint s k := toy_uint s !! k;
  wal_get s k := toy_get s !! k;
  wal_opened s := s;
  wal_set_uint s k v := mkToy (toy_logs s) (<[k := v]> (toy_uint s)) (toy_get s);
  wal_set s k v := mkToy (toy_logs s) (toy_uint s) (<[k := v]> (toy_get s));
  wal_copied s src := mkToy (toy_logs src ∪ toy_logs s) (toy_uint s) (toy_get s)
|}.
Next Obligation. intros s. rewrite <- (map_size_empty_iff (toy_logs s)). lia. Qed.
Next Obligation. done. Qed.
Next Obligation. done. Qed.
Next Obligation. intros w s Hw. simpl in *. rewrite Hw. apply (right_id_L ∅ (∪)). Qed.
Next Obligation. done. Qed.
Next Obligation. intros w k v. simpl. apply lookup_insert_eq. Qed.
Next Obligation. intros w k v. split; [done|]. intros k' ?. simpl. by rewrite lookup_insert_ne. Qed.
Next Obligation. intros w k v. simpl. apply lookup_insert_eq. Qed.
Next Obligation. intros w k v. split; [done|]. intros k' ?. simpl. by rewrite lookup_insert_ne. Qed.

(** A node of the older format in term 3, whose migration dies while the log is
    being copied, leaving part of it in the scratch directory. *)
Definition old_db : toy_store :=
  mkToy {[1 := "config"; 2 := "create"]}%string {["CurrentTerm"%string := 3]} ∅.
Definition old_dir : gmap string (@entry toy_stores) :=
  {[legacyBoltName := EBolt old_db; "node-id"%string := EText "n"]}.
Definition dying : list (@call toy_stores) :=
  replicate 7 fine ++ [mkCall (Some (Errorf "killed")) [mkToy {[1 := "config"%string]} ∅ ∅] 0].
Definition left_behind : gmap string (@entry toy_stores) :=
  default old_dir (w_past (NewStorage (boot old_dir dying)).1 !! 4%nat).

Lemma migration_survives_interruption_witness :
  left_behind !! migratingDirName = Some (EDir (mkToy {[1 := "config"%string]} ∅ ∅)) /\
  exists a, w_dir (NewStorage (boot left_behind [])).1 !! walDirName = Some (EDir a) /\ wal_logs a = toy_logs old_db.
Proof.
  split; [by vm_compute|].
  assert (Hi : interrupted old_dir left_behind).
  { apply (once_more old_dir old_dir dying); [constructor|].
    unfold left_behind. destruct (_ !! 4%nat) as [x|] eqn:Ex; [by apply (list_elem_of_lookup_2 _ 4)|].
    apply lookup_ge_None in Ex. exfalso. revert Ex. apply Nat.lt_nge. by vm_compute. }
  destruct (migration_survives_interruption (RS := toy_stores) old_db old_dir left_behind eq_refl eq_refl Logic.I Logic.I Hi) as (_&Hr&_).
  destruct (NewStorage (boot left_behind [])) as [w r]. destruct Hr as (_&_&_&_&a&Ha&Hc&_). by exists a.
Defined.
