(* ===== verification/Identity.v ===== *)
(** * Node identity (internal/app/identity.go)

    A node's id is a UUID kept in the file node-id of its data directory. The UUID
    library is the parameter [UuidLib]. *)

From S2P Require Import Prelude Errors Strings Files Storage StorageProps.

(** github.com/google/uuid: what [String] prints, [Parse] reads back; the text is
    made of hexadecimal digits and dashes, and a part of it is not another id. *)
Class UuidLib := {
  uuid : Type;
  uuid_eq :: EqDecision uuid;
  uuid_Nil : uuid;
  uuid_Parse : string -> result error uuid;
  uuid_String : uuid -> string;
  parse_string : forall id, uuid_Parse (uuid_String id) = Ok id;
  string_visible : forall id, all_bytes visible (uuid_String id) = true;
  parse_part : forall id n x, uuid_Parse (String.substring 0 n (uuid_String id)) = Ok x -> x = id
}.

Section identity.
Context {RS : RaftStores} {UL : UuidLib}.

Definition nodeIDFileName : string := "node-id".

(** [None]: there is no file. *)
Definition readNodeID : M (option uuid) :=
  data ← wrap_err "read persisted node id" (os_ReadFile nodeIDFileName);
  match data with
  | None => mret None
  | Some data =>
    match uuid_Parse (TrimSpace data) with
    | Err _ => fail (Errorf "persisted node id is invalid")
    | Ok id => if bool_decide (id = uuid_Nil) then fail (Errorf "persisted node id is invalid") else mret (Some id)
    end
  end.

Definition persistNodeID (id : uuid) : M unit :=
  wrap_err "persist node id" (os_CreateExcl nodeIDFileName);;
  writeErr ← attempt (os_Write nodeIDFileName (uuid_String id +:+ newline));
  closeErr ← attempt (os_Close nodeIDFileName);
  match writeErr, closeErr with
  | Err err, _ => fail (wrapf "persist node id" err)
  | Ok _, Err err => fail (wrapf "persist node id" err)
  | Ok _, Ok _ => mret ()
  end.

(** [newID] is what [uuid.New] returns if it is called. *)
Definition ResolveNodeID (dataDir requested : string) (newID : uuid) : M (uuid * bool) :=
  if String.eqb dataDir "" then fail (Errorf "data directory is required") else
  wrap_err "create data directory" os_MkdirAll_data;;
  stored ← readNodeID;
  requestedID ← (
    if String.eqb requested "" then mret uuid_Nil else
    match uuid_Parse requested with
    | Err err => fail (wrapf "invalid node id" err)
    | Ok id => if bool_decide (id = uuid_Nil) then fail (Errorf "invalid node id: nil UUID is not allowed") else mret id
    end : M uuid);
  match stored with
  | Some storedID =>
    if negb (String.eqb requested "") && negb (bool_decide (requestedID = storedID))
    then fail (Errorf "node id does not match persisted node id")
    else mret (storedID, false)
  | None =>
    let generated := String.eqb requested "" in
    selectedID ← (
      if generated then
        hasData ← wrap_err "inspect existing Raft data" HasRaftData;
        if (hasData : bool)
        then fail (Errorf "existing Raft data has no persisted node id; restart with --node-id to establish its original identity")
        else mret newID
      else mret requestedID : M uuid);
    persistNodeID selectedID;;
    mret (selectedID, generated)
  end.

(** ** Proofs *)

(** What the file says: no file, an id, or [None]: not an id. *)
Definition identity_of (e : option entry) : option (option uuid) :=
  let parse s := match uuid_Parse (TrimSpace s) with
    | Ok id => if bool_decide (id = uuid_Nil) then None else Some (Some id)
    | Err _ => None end in
  match e with
  | None => Some None
  | Some (EText s) => parse s
  | Some (EBolt db) => parse (bolt_bytes db)
  | Some (EDir _) => None
  end.

Lemma readNodeID_ok w w' r : readNodeID w = (w', Ok r) ->
  w_dir w' = w_dir w /\ w_past w' = w_past w /\ identity_of (w_dir w !! nodeIDFileName) = Some r.
Proof.
  intros (w1&data&H1&H2)%bind_ok. apply wrap_err_ok, atomic_ok, bind_ok in H1 as (w2&d&[= <- <-]&H1).
  simpl in H1. unfold identity_of, mret, M_ret, fail in *.
  destruct (w_dir w !! nodeIDFileName) as [[]|]; simplify_eq/=; repeat case_match; by simplify_eq/=.
Qed.

Lemma readNodeID_fine w r : w_calls w = [] -> identity_of (w_dir w !! nodeIDFileName) = Some r ->
  readNodeID w = (w, Ok r).
Proof.
  intros Hc Hr. unfold readNodeID, mbind, M_bind, wrap_err, os_ReadFile. rewrite atomic_fine by done.
  unfold mbind, M_bind. simpl. unfold identity_of, mret, M_ret, fail in *.
  destruct (w_dir w !! nodeIDFileName) as [[]|]; simplify_eq/=; repeat case_match; by simplify_eq/=.
Qed.

Lemma Stat_ok n w w' b : os_Stat n w = (w', Ok b) ->
  w_dir w' = w_dir w /\ w_past w' = w_past w /\ b = bool_decide (is_Some (w_dir w !! n)).
Proof. intros (w1&d&[= <- <-]&[= <- <-])%atomic_ok%bind_ok. done. Qed.

Lemma HasRaftData_ok w w' b : HasRaftData w = (w', Ok b) ->
  w_dir w' = w_dir w /\ w_past w' = w_past w /\
  (b = false <-> w_dir w !! walDirName = None /\ w_dir w !! legacyBoltName = None).
Proof.
  intros (w1&b1&(Hd1&Hp1&->)%Stat_ok&H)%bind_ok.
  destruct (w_dir w !! walDirName) eqn:E1; simpl in H; [injection H as <- <-; naive_solver|].
  apply bind_ok in H as (w2&b2&(Hd2&Hp2&->)%Stat_ok&H). rewrite Hd1 in *.
  destruct (w_dir w !! legacyBoltName) eqn:E2; simpl in H; injection H as <- <-; split_and!; try congruence; naive_solver.
Qed.

Lemma persist_ok id w w' u : persistNodeID id w = (w', Ok u) ->
  w_dir w !! nodeIDFileName = None /\
  w_dir w' = <[nodeIDFileName := EText (uuid_String id +:+ newline)]> (w_dir w).
Proof.
  intros (w1&[]&H1&H2)%bind_ok. apply wrap_err_ok, atomic_ok, bind_ok in H1 as (w1'&d&[= <- <-]&H1). simpl in H1.
  destruct (w_dir w !! nodeIDFileName) eqn:E; [done|].
  unfold mbind, M_bind in H1. simpl in H1. injection H1 as <-.
  apply bind_ok in H2 as (w2&wr&H2&H3). apply bind_ok in H3 as (w3&cl&H3&H4).
  unfold attempt, os_Write, os_Close in H2, H3. rewrite syscall_eq in H2, H3. simpl in H2, H3.
  unfold mbind, M_bind in H2. simpl in H2.
  unfold fail, mret, M_ret in *. repeat case_match; simplify_eq/=. split; [done|].
  match goal with H : set_entry _ _ _ = _ |- _ => injection H as <- end. simpl. by rewrite !insert_insert_eq.
Qed.

Lemma identity_of_own id : id <> uuid_Nil ->
  identity_of (Some (EText (uuid_String id +:+ newline))) = Some (Some id).
Proof. intros Hid. simpl. rewrite TrimSpace_line, parse_string by apply string_visible. by rewrite bool_decide_eq_false_2. Qed.

(** A successful resolution: the file names the id and nothing else has changed;
    an id that was there is kept, an id that was asked for is the one returned, and
    an id is generated only in a directory without Raft data. *)
Lemma ResolveNodeID_ok dataDir requested newID w w' id g :
  newID <> uuid_Nil ->
  ResolveNodeID dataDir requested newID w = (w', Ok (id, g)) ->
  identity_of (w_dir w' !! nodeIDFileName) = Some (Some id) /\
  (requested <> "" -> uuid_Parse requested = Ok id) /\
  (forall stored, identity_of (w_dir w !! nodeIDFileName) = Some (Some stored) -> id = stored /\ g = false /\ w_dir w' = w_dir w) /\
  (g = true -> requested = "" /\ id = newID /\
    w_dir w !! nodeIDFileName = None /\ w_dir w !! walDirName = None /\ w_dir w !! legacyBoltName = None).
Proof.
  intros Hnew. unfold ResolveNodeID. case_match; [done|].
  intros (w1&[]&H1&(w2&stored&(Hd2&_&Hr2)%readNodeID_ok&(w3&rid&H3&H4)%bind_ok)%bind_ok)%bind_ok.
  apply wrap_err_ok, atomic_ok in H1 as [= <-]. simpl in Hd2, Hr2.
  assert (w3 = w2 /\ (requested <> "" -> uuid_Parse requested = Ok rid /\ rid <> uuid_Nil)) as [-> Hrid].
  { unfold mret, M_ret, fail in *. destruct (String.eqb_spec requested ""); simplify_eq; [done|].
    destruct (uuid_Parse requested) as [x|]; [|done]. destruct (bool_decide (x = uuid_Nil)) eqn:Ex; [done|].
    injection H3 as <- <-. to_prop. done. }
  destruct stored as [storedID|].
  - destruct (_ && _) eqn:Eb; [done|]. injection H4 as <- <- <-. rewrite Hd2. split_and!; [done| |naive_solver|done].
    intros Hne. destruct (Hrid Hne) as [Hp _]. apply andb_false_iff in Eb as [Eb|Eb]; to_prop; congruence.
  - apply bind_ok in H4 as (w4&sel&Hsel&(w5&u&[Hnone Hd5]%persist_ok&[= <- <- <-])%bind_ok).
    assert (Hs : w_dir w4 = w_dir w2 /\ sel <> uuid_Nil /\ (requested <> "" -> uuid_Parse requested = Ok sel) /\
      (String.eqb requested "" = true -> sel = newID /\ w_dir w !! walDirName = None /\ w_dir w !! legacyBoltName = None)).
    { destruct (String.eqb_spec requested "") as [->|Hne].
      - apply bind_ok in Hsel as (w6&b&(Hd6&_&Hb)%wrap_err_ok%HasRaftData_ok&Hsel). rewrite Hd2 in Hb.
        destruct b; [done|]. injection Hsel as <- <-. by destruct Hb as [[? ?] _].
      - injection Hsel as <- <-. destruct (Hrid Hne). done. }
    destruct Hs as (Hd4&Hnil&Hreq&Hgen).
    assert (Hn : w_dir w !! nodeIDFileName = None) by congruence.
    split_and!; [rewrite Hd5; simplify_map_eq; by apply identity_of_own|done| |].
    + intros st Hst. by rewrite Hn in Hst.
    + intros Hg. destruct (Hgen Hg) as (?&?&?). to_prop. done.
Qed.

(** The undisturbed resolution of a directory that names an id. *)
Lemma ResolveNodeID_restart dataDir newID w id : dataDir <> "" -> w_calls w = [] ->
  identity_of (w_dir w !! nodeIDFileName) = Some (Some id) ->
  ResolveNodeID dataDir "" newID w = (w, Ok (id, false)).
Proof.
  intros Hdir Hc Hid. unfold ResolveNodeID. destruct (String.eqb_spec dataDir ""); [done|].
  unfold mbind, M_bind, wrap_err, os_MkdirAll_data. rewrite atomic_fine by done. simpl.
  rewrite (readNodeID_fine w (Some id)) by done. done.
Qed.

(** C19: a data directory keeps its identity. Once [ResolveNodeID] has returned an
    id for it, every later start on the directory, whatever else has changed in it,
    whichever id is asked for or freshly drawn, and whatever fails, either fails or
    returns the same id and leaves the directory as it is; the next undisturbed
    start without a requested id succeeds. A new id is drawn only when the
    directory holds no Raft data, so that existing Raft state is never paired with
    a new server id. *)
Theorem identity_persists (dataDir requested : string) (newID id : uuid) (g : bool) (w w' : world) :
  newID <> uuid_Nil ->
  ResolveNodeID dataDir requested newID w = (w', Ok (id, g)) ->
  (g = true -> (HasRaftData (boot (w_dir w) [])).2 = Ok false /\ requested = "") /\
  (requested <> "" -> uuid_Parse requested = Ok id) /\
  forall d, d !! nodeIDFileName = w_dir w' !! nodeIDFileName ->
    (ResolveNodeID dataDir "" newID (boot d [])).2 = Ok (id, false) /\
    forall calls requested2 newID2 id2 g2 w2, newID2 <> uuid_Nil ->
      ResolveNodeID dataDir requested2 newID2 (boot d calls) = (w2, Ok (id2, g2)) ->
      id2 = id /\ g2 = false /\ w_dir w2 = d.
Proof.
  intros Hnew Hr. assert (Hdir : dataDir <> "").
  { intros ->. done. }
  destruct (ResolveNodeID_ok _ _ _ _ _ _ _ Hnew Hr) as (Hid&Hreq&_&Hgen). split_and!; [|done|].
  - intros Hg. destruct (Hgen Hg) as (->&_&_&Hw&Hb). split; [|done].
    unfold HasRaftData, hasAny, os_Stat, atomic, syscall, mbind, M_bind. simpl. rewrite Hw. simpl. by rewrite Hb.
  - intros d Hd. rewrite <- Hd in Hid. split; [by rewrite (ResolveNodeID_restart _ _ _ id)|].
    intros calls r2 n2 id2 g2 w2 Hn2 H2.
    destruct (ResolveNodeID_ok _ _ _ _ _ _ _ Hn2 H2) as (_&_&Hk&_). destruct (Hk id Hid) as (->&->&->). done.
Qed.

(** What a start that is cut short can leave in the file: part of the line with the
    id it was to write. *)
Definition partial (id : uuid) (d : disk) : Prop :=
  d !! nodeIDFileName = None \/
  exists n, d !! nodeIDFileName = Some (EText (String.substring 0 n (uuid_String id +:+ newline))).

Lemma partial_identity id d x : partial id d -> identity_of (d !! nodeIDFileName) = Some (Some x) -> x = id.
Proof.
  intros [-> | [n ->]]; [done|]. simpl.
  assert (Ht : exists m, TrimSpace (String.substring 0 n (uuid_String id +:+ newline)) = String.substring 0 m (uuid_String id) \/
    TrimSpace (String.substring 0 n (uuid_String id +:+ newline)) = uuid_String id).
  { exists n. destruct (substring_line n (uuid_String id)) as [-> | ->].
    - left. apply TrimSpace_visible, all_bytes_substring, string_visible.
    - right. apply TrimSpace_line, string_visible. }
  destruct Ht as [m [-> | ->]]; [|rewrite parse_string; case_match; by intros [= <-]].
  destruct (uuid_Parse _) as [y|] eqn:E; [|done]. apply parse_part in E as ->. case_match; by intros [= <-].
Qed.

Lemma substring_all (s : string) : String.substring 0 (String.length s) s = s.
Proof. induction s as [|c s IH]; simpl; [done|]. by rewrite IH. Qed.
Lemma substring_none (s : string) : String.substring 0 0 s = "".
Proof. by destruct s. Qed.

Abbreviation keeps I m := (spec false I (fun _ => True) m (fun _ _ => True)) (only parsing).

(** Writing a part of the line. *)
Lemma partial_write id n data : data = String.substring 0 n (uuid_String id +:+ newline) ->
  keeps (partial id) (set_entry nodeIDFileName (EText data)).
Proof.
  intros ->. apply (spec_put _ _ _ (<[nodeIDFileName := EText _]>)). intros d _ _. split; [|done].
  right. exists n. by simplify_map_eq.
Qed.

Lemma persist_partial id : keeps (partial id) (persistNodeID id).
Proof.
  eapply spec_bind; [apply spec_wrap_err, spec_atomic; intros t' Ht|].
  { assert (t' = false) as -> by (destruct t'; [by specialize (Ht eq_refl)|done]).
    eapply spec_bind; [apply spec_get_dir|]. intros d. destruct (d !! nodeIDFileName); [by apply spec_fail|].
    eapply spec_weaken; [eapply spec_bind; [apply (partial_write id 0); by rewrite substring_none|]|done|done].
    intros a. apply spec_opened. }
  intros a. eapply spec_bind; [eapply spec_attempt|].
  { apply spec_syscall. intros c t' _ Ht. assert (t' = false) as -> by (destruct t'; [by specialize (Ht eq_refl)|done]).
    eapply spec_bind; [by eapply partial_write|]. intros b. destruct (c_err c); [by apply spec_fail|].
    eapply partial_write. symmetry. apply substring_all. }
  intros wr. eapply spec_bind; [eapply spec_attempt, spec_close|]. intros cl.
  destruct wr, cl; [by apply spec_ret|by apply spec_fail..].
Qed.

Lemma resolve_partial dataDir requested newID sel :
  (if String.eqb requested "" then sel = newID else forall r, uuid_Parse requested = Ok r -> sel = r) ->
  keeps (fun d => partial sel d) (ResolveNodeID dataDir requested newID).
Proof.
  intros Hsel. unfold ResolveNodeID. destruct (String.eqb dataDir ""); [by apply spec_fail|].
  eapply spec_bind; [apply spec_wrap_err, spec_atomic; intros; by apply (spec_ret _ _ _ () (fun _ _ => True))|]. intros a.
  eapply (spec_bind _ _ _ _ _ (fun _ _ => True)).
  { eapply spec_bind; [apply spec_wrap_err, spec_atomic; intros t' Ht|].
    { assert (t' = false) as -> by (destruct t'; [by specialize (Ht eq_refl)|done]).
      eapply spec_bind; [apply spec_get_dir|]. intros d.
      instantiate (1 := fun _ _ => True). destruct (d !! _) as [[]|]; try (by apply spec_ret); by apply spec_fail. }
    intros data. repeat case_match; try (by apply spec_ret); by apply spec_fail. }
  intros stored. eapply (spec_bind _ _ _ _ _ (fun rid _ => String.eqb requested "" = false -> rid = sel)).
  { destruct (String.eqb requested ""); [by apply spec_ret|]. destruct (uuid_Parse requested) as [r|]; [|by apply spec_fail].
    case_match; [by apply spec_fail|]. apply spec_ret. intros _ _ _. symmetry. by apply Hsel. }
  intros rid. destruct stored as [s|]; [destruct (negb _ && _); [by apply spec_fail|by apply spec_ret]|].
  eapply (spec_bind _ _ _ _ _ (fun x _ => x = sel)).
  { destruct (String.eqb requested ""); [|apply spec_ret; naive_solver].
    eapply spec_bind; [apply spec_wrap_err, spec_HasRaftData|]. intros b. destruct b; [by apply spec_fail|]. subst sel. by apply spec_ret. }
  intros x. eapply (spec_bind _ _ _ _ _ (fun _ _ => True)); [|intros u; by apply spec_ret].
  intros w Hi ->. by apply persist_partial.
Qed.

(** At no moment of a first start does the directory come to name an id other than
    the one being established. *)
Lemma interruption_names_no_other_id dataDir requested newID d calls d' x :
  d !! nodeIDFileName = None -> d' ∈ w_past (ResolveNodeID dataDir requested newID (boot d calls)).1 ->
  identity_of (d' !! nodeIDFileName) = Some (Some x) ->
  if String.eqb requested "" then x = newID else forall r, uuid_Parse requested = Ok r -> x = r.
Proof.
  intros Hd Hin Hx.
  assert (Hfrom : forall sel,
    (if String.eqb requested "" then sel = newID else forall r, uuid_Parse requested = Ok r -> sel = r) -> x = sel).
  { intros sel Hsel.
    destruct (resolve_partial dataDir requested newID sel Hsel (boot d calls)) as ([Hall _]&_); [|done|].
    - apply boot_inv. by left.
    - rewrite list.Forall_forall in Hall. by apply (partial_identity sel d'); [apply Hall|]. }
  destruct (String.eqb requested ""); [by apply Hfrom|]. intros r Hr. apply Hfrom. intros r' Hr'. congruence.
Qed.
End identity.

(** ** A concrete library, used to evaluate the model *)

Inductive toy_uuid := UNil | UA | UB.
Definition toy_text (u : toy_uuid) : string :=
  match u with
  | UNil => "00000000-0000-0000-0000-000000000000"
  | UA => "aaaaaaaa-aaaa-4aaa-8aaa-aaaaaaaaaaaa"
  | UB => "bbbbbbbb-bbbb-4bbb-8bbb-bbbbbbbbbbbb"
  end.
Definition toy_parse (s : string) : result error toy_uuid :=
  if String.eqb s (toy_text UNil) then Ok UNil else if String.eqb s (toy_text UA) then Ok UA
  else if String.eqb s (toy_text UB) then Ok UB else Err (Errorf "invalid UUID").

#[export] Program Instance toy_uuids : UuidLib := {|
  uuid := toy_uuid; uuid_Nil := UNil; uuid_Parse := toy_parse; uuid_String := toy_text
|}.
Next Obligation. solve_decision. Defined.
Next Obligation. by intros []. Qed.
Next Obligation. by intros []. Qed.
Next Obligation. intros id [|n] x; [by destruct id|]. unfold toy_parse. destruct id; simpl; repeat case_match; by intros [=]. Qed.

Definition toy_resolve := @ResolveNodeID toy_stores toy_uuids "/data".
Definition toy_dir : gmap string (@entry toy_stores) := ∅.
Definition toy_first : @world toy_stores := (toy_resolve "" UA (boot toy_dir [])).1.

Lemma identity_persists_witness :
  toy_resolve "" UA (boot toy_dir []) = (toy_first, Ok (UA, true)) /\
  (toy_resolve "" UA (boot (w_dir toy_first) [])).2 = Ok (UA, false).
Proof.
  assert (H : toy_resolve "" UA (boot toy_dir []) = (toy_first, Ok (UA, true)))
    by (apply injective_projections; [done|by vm_compute]).
  split; [exact H|].
  destruct (identity_persists (UL := toy_uuids) "/data" "" UA UA true (boot toy_dir []) toy_first ltac:(done) H) as (_&_&Hd).
  by destruct (Hd _ eq_refl) as [H1 _].
Defined.

(** A first start that dies between creating the file and writing it leaves an
    empty file, and no later start succeeds, with or without a requested id. *)
Example interrupted_first_start :
  let d := {[nodeIDFileName := EText ""]} : gmap string (@entry toy_stores) in
  (fun x : gmap string (@entry toy_stores) => x !! nodeIDFileName) <$> (w_past toy_first !! 1%nat) = Some (Some (EText "")) /\
  (toy_resolve "" UB (boot d [])).2 = Err (Errorf "persisted node id is invalid") /\
  (toy_resolve (toy_text UA) UB (boot d [])).2 = Err (Errorf "persisted node id is invalid").
Proof. split_and!; by vm_compute. Qed.
