(* ===== verification/Address.v ===== *)
(** * Advertised addresses (internal/app/runtime.go)

    The addresses other machines dial, derived from the addresses a node listens on
    and the operator's flags. *)

From S2P Require Import Prelude Errors Strings.

Definition isWildcardHost (host : string) : bool :=
  String.eqb host "" || String.eqb host "0.0.0.0" || String.eqb host "::".

(** The error texts leave out the quoted address. *)
Definition validateAdvertiseAddr (addr kind : string) : result error string :=
  match SplitHostPort addr with
  | Err err => Err (wrapf ("parse " +:+ kind +:+ " address") err)
  | Ok (host, _) =>
    if isWildcardHost host then Err (Errorf (kind +:+ " address must be explicitly routable"))
    else Ok addr
  end.

Definition DeriveAdvertiseAddr (raftAddr listenAddr explicit : string) : result error string :=
  if negb (String.eqb explicit "") then validateAdvertiseAddr explicit "advertise" else
  match SplitHostPort raftAddr with
  | Err err => Err (wrapf "parse raft address" err)
  | Ok (raftHost, _) =>
    match SplitHostPort listenAddr with
    | Err err => Err (wrapf "parse listen address" err)
    | Ok (listenHost, listenPort) =>
      if isWildcardHost listenHost then
        if isWildcardHost raftHost
        then Err (Errorf "cannot derive advertise address from wildcard hosts; set an explicit advertise address")
        else validateAdvertiseAddr (JoinHostPort raftHost listenPort) "advertise"
      else validateAdvertiseAddr (JoinHostPort listenHost listenPort) "advertise"
    end
  end.

Definition DeriveRaftAdvertiseAddr (bindAddr explicit fallbackHostAddr : string) : result error string :=
  if negb (String.eqb explicit "") then validateAdvertiseAddr explicit "raft advertise" else
  match SplitHostPort bindAddr with
  | Err err => Err (wrapf "parse raft bind address" err)
  | Ok (bindHost, bindPort) =>
    if isWildcardHost bindHost then
      if String.eqb fallbackHostAddr ""
      then Err (Errorf "raft bind address is not routable; set --raft-advertise-addr or --grpc-advertise-addr") else
      match SplitHostPort fallbackHostAddr with
      | Err err => Err (wrapf "parse raft advertise fallback address" err)
      | Ok (fallbackHost, _) =>
        if isWildcardHost fallbackHost
        then Err (Errorf "raft advertise fallback address is not routable; set an explicit advertise address")
        else validateAdvertiseAddr (JoinHostPort fallbackHost bindPort) "raft advertise"
      end
    else validateAdvertiseAddr (JoinHostPort bindHost bindPort) "raft advertise"
  end.

(** ** Proofs *)

(** The hosts that listening addresses use for every interface. *)
Definition wildcards : list string := [""; "0.0.0.0"; "::"].

(** The address splits into a host and a port, and the host is none of the three
    wildcard spellings the code knows. Other spellings of the wildcard address
    count as explicit hosts, here as in the code: see [long_wildcard] in Cli. *)
Definition explicit_host (a : string) : Prop :=
  exists h p, SplitHostPort a = Ok (h, p) /\ h ∉ wildcards.

Lemma isWildcardHost_spec h : isWildcardHost h = false <-> h ∉ wildcards.
Proof.
  unfold isWildcardHost, wildcards. rewrite !orb_false_iff, !String.eqb_neq. set_solver.
Qed.

Lemma validate_ok a kind r : validateAdvertiseAddr a kind = Ok r <-> r = a /\ explicit_host a.
Proof.
  unfold validateAdvertiseAddr, explicit_host. destruct (SplitHostPort a) as [[h p]|] eqn:E.
  - destruct (isWildcardHost h) eqn:Eh; split.
    + done.
    + intros (_&h'&p'&[= <- <-]&Hw%isWildcardHost_spec). congruence.
    + intros [= <-]. rewrite isWildcardHost_spec in Eh. eauto.
    + by intros [-> _].
  - split; [done|]. intros (_&h&p&?&?). done.
Qed.

(** Putting a host and a port of split addresses together gives an address that
    splits into them: the last check never refuses what was derived. *)
Lemma joined_ok s h p s' h' p' kind :
  SplitHostPort s = Ok (h, p) -> SplitHostPort s' = Ok (h', p') -> isWildcardHost h = false ->
  explicit_host (JoinHostPort h p') /\
  validateAdvertiseAddr (JoinHostPort h p') kind = Ok (JoinHostPort h p').
Proof.
  intros (Hh&_&_)%SplitHostPort_inv (_&Hp&_)%SplitHostPort_inv Hw.
  assert (Hs : explicit_host (JoinHostPort h p')).
  { exists h, p'. rewrite <- isWildcardHost_spec. by split; [apply SplitHostPort_Join|]. }
  split; [done|]. by apply validate_ok.
Qed.

(** Addresses survive being taken apart: what [JoinHostPort] builds from the
    parts of split addresses, IPv6 hosts included, [SplitHostPort] takes apart into
    the same parts, and every host and port it returns can be joined again. *)
Theorem host_port_roundtrip (h p s : string) :
  (host_ok h = true -> port_ok p = true -> SplitHostPort (JoinHostPort h p) = Ok (h, p)) /\
  (SplitHostPort s = Ok (h, p) ->
   host_ok h = true /\ port_ok p = true /\ SplitHostPort (JoinHostPort h p) = SplitHostPort s).
Proof.
  split; [apply SplitHostPort_Join|]. intros H. pose proof (SplitHostPort_inv _ _ _ H) as (?&?&_).
  split_and!; [done..|]. by rewrite SplitHostPort_Join, H.
Qed.

Lemma host_port_roundtrip_witness :
  JoinHostPort "fe80::1" "9000" = "[fe80::1]:9000"%string /\
  SplitHostPort (JoinHostPort "fe80::1" "9000") = Ok ("fe80::1", "9000")%string.
Proof. split; [done|]. by apply (host_port_roundtrip "fe80::1" "9000" "[fe80::1]:9000"). Defined.

(** The client address: an explicit one as given, otherwise the port listened on
    with the host listened on, or Raft's when that is a wildcard. *)
Lemma DeriveAdvertiseAddr_spec raftAddr listenAddr explicit a :
  DeriveAdvertiseAddr raftAddr listenAddr explicit = Ok a <->
  (explicit <> "" /\ a = explicit /\ explicit_host explicit) \/
  (explicit = "" /\ exists rh rp lh lp, SplitHostPort raftAddr = Ok (rh, rp) /\ SplitHostPort listenAddr = Ok (lh, lp) /\
     let host := if isWildcardHost lh then rh else lh in
     isWildcardHost host = false /\ a = JoinHostPort host lp).
Proof.
  unfold DeriveAdvertiseAddr. destruct (String.eqb_spec explicit "") as [->|He]; simpl.
  2:{ rewrite validate_ok. split; [intros [-> ?]; by left|]. by intros [(_&?&?)|[? _]]. }
  destruct (SplitHostPort raftAddr) as [[rh rp]|] eqn:Er; [|split; [done|]; by intros [[]|(_&?&?&?&?&?&_)]].
  destruct (SplitHostPort listenAddr) as [[lh lp]|] eqn:El; [|split; [done|]; by intros [[]|(_&?&?&?&?&_&?&_)]].
  set (host := if isWildcardHost lh then rh else lh).
  transitivity (isWildcardHost host = false /\ a = JoinHostPort host lp).
  2:{ split; [intros []; right; split; [done|]; by exists rh, rp, lh, lp|]. by intros [[]|(_&?&?&?&?&[= <- <-]&[= <- <-]&?)]. }
  unfold host. destruct (isWildcardHost lh) eqn:Ew; [destruct (isWildcardHost rh) eqn:Ew'; [by split; [|intros []]|]|].
  - destruct (joined_ok _ _ _ _ _ _ "advertise" Er El Ew') as [_ ->]. split; [intros [= <-]; done|by intros [_ ->]].
  - destruct (joined_ok _ _ _ _ _ _ "advertise" El El Ew) as [_ ->]. split; [intros [= <-]; done|by intros [_ ->]].
Qed.

(** The Raft address, with the host of the client address as the fallback. *)
Lemma DeriveRaftAdvertiseAddr_spec bindAddr explicit fallback a :
  DeriveRaftAdvertiseAddr bindAddr explicit fallback = Ok a <->
  (explicit <> "" /\ a = explicit /\ explicit_host explicit) \/
  (explicit = "" /\ exists bh bp, SplitHostPort bindAddr = Ok (bh, bp) /\
     ((isWildcardHost bh = false /\ a = JoinHostPort bh bp) \/
      (isWildcardHost bh = true /\ exists fh fp, SplitHostPort fallback = Ok (fh, fp) /\
         isWildcardHost fh = false /\ a = JoinHostPort fh bp))).
Proof.
  unfold DeriveRaftAdvertiseAddr. destruct (String.eqb_spec explicit "") as [->|He]; simpl.
  2:{ rewrite validate_ok. split; [intros [-> ?]; by left|]. by intros [(_&?&?)|[? _]]. }
  destruct (SplitHostPort bindAddr) as [[bh bp]|] eqn:Eb; [|split; [done|]; by intros [[]|(_&?&?&?&_)]].
  destruct (isWildcardHost bh) eqn:Ew.
  - transitivity (exists fh fp, SplitHostPort fallback = Ok (fh, fp) /\ isWildcardHost fh = false /\ a = JoinHostPort fh bp).
    2:{ split; [intros H; right; split; [done|]; exists bh, bp; split; [done|]; by right|].
        intros [[]|(_&?&?&[= <- <-]&[[]|[_ ?]])]; congruence. }
    destruct (String.eqb_spec fallback "") as [->|Hf]; [split; [done|]; by intros (?&?&?&_)|].
    destruct (SplitHostPort fallback) as [[fh fp]|] eqn:Ef; [|split; [done|]; by intros (?&?&?&_)].
    destruct (isWildcardHost fh) eqn:Ef'; [split; [done|]; intros (?&?&[= <- <-]&?&_); congruence|].
    destruct (joined_ok _ _ _ _ _ _ "raft advertise" Ef Eb Ef') as [_ ->].
    split; [intros [= <-]; by exists fh, fp|]. by intros (?&?&[= <- <-]&_&->).
  - destruct (joined_ok _ _ _ _ _ _ "raft advertise" Eb Eb Ew) as [_ ->].
    split; [intros [= <-]; right; split; [done|]; exists bh, bp; split; [done|]; by left|].
    intros [[]|(_&?&?&[= <- <-]&[[_ ->]|[? _]])]; congruence.
Qed.
