(* ===== verification/Domain.v ===== *)
(** * Domain data: leases, locks and cluster members (internal/domain) *)

From S2P Require Import Prelude GoTime.

(** internal/domain/lease.go *)
Record Lease := mkLease {
  Lease_LeaseID : Z;             (* uint64 *)
  Lease_OwnerID : string;
  ExpiresAtUnixNano : Z;         (* int64: creation time plus TTL *)
  Lease_TTL : Duration
}.

(** [(l *Lease) ExpiresAt()] *)
Definition ExpiresAt (l : Lease) : Time := UTC (time_Unix 0 (ExpiresAtUnixNano l)).

(** internal/domain/lock.go *)
Record Lock := mkLock {
  Lock_Name : string;
  Lock_OwnerID : string;
  Lock_FencingToken : Z;         (* uint64 *)
  Lock_LeaseID : Z               (* uint64 *)
}.

(** internal/domain/node.go *)
Record ClusterMember := mkMember {
  NodeID : string;
  RaftAddress : string;
  GRPCAddress : string
}.

Global Instance Lease_eq_dec : EqDecision Lease.
Proof. solve_decision. Defined.
Global Instance Lock_eq_dec : EqDecision Lock.
Proof. solve_decision. Defined.
Global Instance ClusterMember_eq_dec : EqDecision ClusterMember.
Proof. solve_decision. Defined.
