(* ===== verification/Raftlog.v ===== *)
(** * The commands written to the Raft log (internal/raftlog)

    The protobuf messages of command.pb.go with their nil-safe getters, and the
    constructors of command.go. A nil message pointer is [None]; a getter called
    on it returns the field's zero value, as in the generated code. *)

From S2P Require Import Prelude GoTime.

(** [CommandType] is an open proto3 enum: any int32 can appear on the wire. *)
Definition COMMAND_TYPE_UNSPECIFIED : Z := 0.
Definition COMMAND_TYPE_CREATE_LEASE : Z := 1.
Definition COMMAND_TYPE_RENEW_LEASE : Z := 2.
Definition COMMAND_TYPE_ACQUIRE_LOCK : Z := 3.
Definition COMMAND_TYPE_RELEASE_LOCK : Z := 4.
Definition COMMAND_TYPE_EXPIRE_LEASE : Z := 5.
Definition COMMAND_TYPE_UPSERT_ENDPOINT : Z := 6.
Definition COMMAND_TYPE_REMOVE_ENDPOINT : Z := 7.

Definition CommandType_name : gmap Z string := list_to_map [
  (0, "COMMAND_TYPE_UNSPECIFIED");
  (1, "COMMAND_TYPE_CREATE_LEASE");
  (2, "COMMAND_TYPE_RENEW_LEASE");
  (3, "COMMAND_TYPE_ACQUIRE_LOCK");
  (4, "COMMAND_TYPE_RELEASE_LOCK");
  (5, "COMMAND_TYPE_EXPIRE_LEASE");
  (6, "COMMAND_TYPE_UPSERT_ENDPOINT");
  (7, "COMMAND_TYPE_REMOVE_ENDPOINT")].

(** The value's name, or its number when it has none. *)
Definition CommandType_String (t : Z) : string := default (pretty t) (CommandType_name !! t).

Definition CommandType_value : gmap string Z := list_to_map [
  ("COMMAND_TYPE_UNSPECIFIED", 0);
  ("COMMAND_TYPE_CREATE_LEASE", 1);
  ("COMMAND_TYPE_RENEW_LEASE", 2);
  ("COMMAND_TYPE_ACQUIRE_LOCK", 3);
  ("COMMAND_TYPE_RELEASE_LOCK", 4);
  ("COMMAND_TYPE_EXPIRE_LEASE", 5);
  ("COMMAND_TYPE_UPSERT_ENDPOINT", 6);
  ("COMMAND_TYPE_REMOVE_ENDPOINT", 7)]%string.

(** A pointer to a fresh copy of the value; the value as the library's number. *)
Definition CommandType_Enum (t : Z) : option Z := Some t.
Definition CommandType_Number (t : Z) : Z := t.

Record CreateLeaseCommand := mkCreateLease {
  CL_OwnerId : string; CL_TtlNanos : Z; CL_CreateAtUnixNano : Z }.
Record RenewLeaseCommand := mkRenewLease {
  RN_LeaseId : Z; RN_RenewedAtUnixNano : Z }.
Record AcquireLockCommand := mkAcquireLock {
  AL_LockName : string; AL_OwnerId : string; AL_LeaseId : Z; AL_AcquiredAtUnixNano : Z }.
Record ReleaseLockCommand := mkReleaseLock {
  RL_LockName : string; RL_LeaseId : Z }.
Record ExpireLeaseCommand := mkExpireLease {
  EL_LeaseId : Z; EL_ExpiredAtUnixNano : Z }.
Record UpsertEndpointCommand := mkUpsertEndpoint {
  UE_NodeId : string; UE_GrpcAddress : string }.
Record RemoveEndpointCommand := mkRemoveEndpoint {
  RE_NodeId : string }.

(** The oneof wrappers: each holds a message pointer. *)
Inductive isCommandWrapper_Payload :=
| CommandWrapper_CreateLease (CreateLease : option CreateLeaseCommand)
| CommandWrapper_RenewLease (RenewLease : option RenewLeaseCommand)
| CommandWrapper_AcquireLock (AcquireLock : option AcquireLockCommand)
| CommandWrapper_ReleaseLock (ReleaseLock : option ReleaseLockCommand)
| CommandWrapper_ExpireLease (ExpireLease : option ExpireLeaseCommand)
| CommandWrapper_UpsertEndpoint (UpsertEndpoint : option UpsertEndpointCommand)
| CommandWrapper_RemoveEndpoint (RemoveEndpoint : option RemoveEndpointCommand).

Record CommandWrapper := mkCommand {
  cmd_Type : Z;
  cmd_Payload : option isCommandWrapper_Payload }.

Global Instance CreateLeaseCommand_eq_dec : EqDecision CreateLeaseCommand.
Proof. solve_decision. Defined.
Global Instance RenewLeaseCommand_eq_dec : EqDecision RenewLeaseCommand.
Proof. solve_decision. Defined.
Global Instance AcquireLockCommand_eq_dec : EqDecision AcquireLockCommand.
Proof. solve_decision. Defined.
Global Instance ReleaseLockCommand_eq_dec : EqDecision ReleaseLockCommand.
Proof. solve_decision. Defined.
Global Instance ExpireLeaseCommand_eq_dec : EqDecision ExpireLeaseCommand.
Proof. solve_decision. Defined.
Global Instance UpsertEndpointCommand_eq_dec : EqDecision UpsertEndpointCommand.
Proof. solve_decision. Defined.
Global Instance RemoveEndpointCommand_eq_dec : EqDecision RemoveEndpointCommand.
Proof. solve_decision. Defined.
Global Instance isCommandWrapper_Payload_eq_dec : EqDecision isCommandWrapper_Payload.
Proof. solve_decision. Defined.
Global Instance CommandWrapper_eq_dec : EqDecision CommandWrapper.
Proof. solve_decision. Defined.

(** ** Getters *)

Definition CreateLease_GetOwnerId (x : option CreateLeaseCommand) : string :=
  match x with Some c => CL_OwnerId c | None => "" end.
Definition CreateLease_GetTtlNanos (x : option CreateLeaseCommand) : Z :=
  match x with Some c => CL_TtlNanos c | None => 0 end.
Definition CreateLease_GetCreateAtUnixNano (x : option CreateLeaseCommand) : Z :=
  match x with Some c => CL_CreateAtUnixNano c | None => 0 end.
Definition RenewLease_GetLeaseId (x : option RenewLeaseCommand) : Z :=
  match x with Some c => RN_LeaseId c | None => 0 end.
Definition RenewLease_GetRenewedAtUnixNano (x : option RenewLeaseCommand) : Z :=
  match x with Some c => RN_RenewedAtUnixNano c | None => 0 end.
Definition AcquireLock_GetLockName (x : option AcquireLockCommand) : string :=
  match x with Some c => AL_LockName c | None => "" end.
Definition AcquireLock_GetOwnerId (x : option AcquireLockCommand) : string :=
  match x with Some c => AL_OwnerId c | None => "" end.
Definition AcquireLock_GetLeaseId (x : option AcquireLockCommand) : Z :=
  match x with Some c => AL_LeaseId c | None => 0 end.
Definition AcquireLock_GetAcquiredAtUnixNano (x : option AcquireLockCommand) : Z :=
  match x with Some c => AL_AcquiredAtUnixNano c | None => 0 end.
Definition ReleaseLock_GetLockName (x : option ReleaseLockCommand) : string :=
  match x with Some c => RL_LockName c | None => "" end.
Definition ReleaseLock_GetLeaseId (x : option ReleaseLockCommand) : Z :=
  match x with Some c => RL_LeaseId c | None => 0 end.
Definition ExpireLease_GetLeaseId (x : option ExpireLeaseCommand) : Z :=
  match x with Some c => EL_LeaseId c | None => 0 end.
Definition ExpireLease_GetExpiredAtUnixNano (x : option ExpireLeaseCommand) : Z :=
  match x with Some c => EL_ExpiredAtUnixNano c | None => 0 end.
Definition UpsertEndpoint_GetNodeId (x : option UpsertEndpointCommand) : string :=
  match x with Some c => UE_NodeId c | None => "" end.
Definition UpsertEndpoint_GetGrpcAddress (x : option UpsertEndpointCommand) : string :=
  match x with Some c => UE_GrpcAddress c | None => "" end.
Definition RemoveEndpoint_GetNodeId (x : option RemoveEndpointCommand) : string :=
  match x with Some c => RE_NodeId c | None => "" end.

Definition GetType (x : CommandWrapper) : Z := cmd_Type x.
Definition GetPayload (x : CommandWrapper) : option isCommandWrapper_Payload := cmd_Payload x.
Definition GetCreateLease (x : CommandWrapper) : option CreateLeaseCommand :=
  match cmd_Payload x with Some (CommandWrapper_CreateLease c) => c | _ => None end.
Definition GetRenewLease (x : CommandWrapper) : option RenewLeaseCommand :=
  match cmd_Payload x with Some (CommandWrapper_RenewLease c) => c | _ => None end.
Definition GetAcquireLock (x : CommandWrapper) : option AcquireLockCommand :=
  match cmd_Payload x with Some (CommandWrapper_AcquireLock c) => c | _ => None end.
Definition GetReleaseLock (x : CommandWrapper) : option ReleaseLockCommand :=
  match cmd_Payload x with Some (CommandWrapper_ReleaseLock c) => c | _ => None end.
Definition GetExpireLease (x : CommandWrapper) : option ExpireLeaseCommand :=
  match cmd_Payload x with Some (CommandWrapper_ExpireLease c) => c | _ => None end.
Definition GetUpsertEndpoint (x : CommandWrapper) : option UpsertEndpointCommand :=
  match cmd_Payload x with Some (CommandWrapper_UpsertEndpoint c) => c | _ => None end.
Definition GetRemoveEndpoint (x : CommandWrapper) : option RemoveEndpointCommand :=
  match cmd_Payload x with Some (CommandWrapper_RemoveEndpoint c) => c | _ => None end.

(** ** Reset

    A message becomes its zero value, whatever it held. *)

Definition CreateLease_Reset (_ : CreateLeaseCommand) : CreateLeaseCommand := mkCreateLease "" 0 0.
Definition RenewLease_Reset (_ : RenewLeaseCommand) : RenewLeaseCommand := mkRenewLease 0 0.
Definition AcquireLock_Reset (_ : AcquireLockCommand) : AcquireLockCommand := mkAcquireLock "" "" 0 0.
Definition ReleaseLock_Reset (_ : ReleaseLockCommand) : ReleaseLockCommand := mkReleaseLock "" 0.
Definition ExpireLease_Reset (_ : ExpireLeaseCommand) : ExpireLeaseCommand := mkExpireLease 0 0.
Definition UpsertEndpoint_Reset (_ : UpsertEndpointCommand) : UpsertEndpointCommand := mkUpsertEndpoint "" "".
Definition RemoveEndpoint_Reset (_ : RemoveEndpointCommand) : RemoveEndpointCommand := mkRemoveEndpoint "".
Definition CommandWrapper_Reset (_ : CommandWrapper) : CommandWrapper := mkCommand COMMAND_TYPE_UNSPECIFIED None.

(** ** Constructors (command.go)

    [ttl.Nanoseconds()] is the duration itself as an int64. *)

Definition NewCreateLeaseCmd (ownerID : string) (ttl : Duration) (now : Time) : CommandWrapper :=
  mkCommand COMMAND_TYPE_CREATE_LEASE (Some (CommandWrapper_CreateLease
    (Some (mkCreateLease ownerID ttl (UnixNano (UTC now)))))).
Definition NewAcquireLockCmd (lockName ownerID : string) (leaseID : Z) : CommandWrapper :=
  mkCommand COMMAND_TYPE_ACQUIRE_LOCK (Some (CommandWrapper_AcquireLock
    (Some (mkAcquireLock lockName ownerID leaseID 0)))).
Definition NewReleaseLockCmd (lockName : string) (leaseID : Z) : CommandWrapper :=
  mkCommand COMMAND_TYPE_RELEASE_LOCK (Some (CommandWrapper_ReleaseLock
    (Some (mkReleaseLock lockName leaseID)))).
Definition NewExpireLeaseCmd (leaseID : Z) : CommandWrapper :=
  mkCommand COMMAND_TYPE_EXPIRE_LEASE (Some (CommandWrapper_ExpireLease
    (Some (mkExpireLease leaseID 0)))).
Definition NewUpsertEndpointCmd (nodeID grpcAddress : string) : CommandWrapper :=
  mkCommand COMMAND_TYPE_UPSERT_ENDPOINT (Some (CommandWrapper_UpsertEndpoint
    (Some (mkUpsertEndpoint nodeID grpcAddress)))).
Definition NewRemoveEndpointCmd (nodeID : string) : CommandWrapper :=
  mkCommand COMMAND_TYPE_REMOVE_ENDPOINT (Some (CommandWrapper_RemoveEndpoint
    (Some (mkRemoveEndpoint nodeID)))).

(** The two tables of the enum are inverse to each other. *)
Lemma CommandType_tables t name : CommandType_name !! t = Some name <-> CommandType_value !! name = Some t.
Proof.
  unfold CommandType_name, CommandType_value. rewrite <- !elem_of_list_to_map by (by apply (bool_decide_unpack (NoDup _))).
  split; intros Hin; repeat (apply elem_of_cons in Hin as [[= -> ->]|Hin]; [set_solver|]); by apply elem_of_nil in Hin.
Qed.

(** Of the payload getters at most one finds a message: the one of its type. *)
Lemma payload_getters_exclusive x :
  (length (filter (fun b => b = true) [bool_decide (is_Some (GetCreateLease x)); bool_decide (is_Some (GetRenewLease x));
    bool_decide (is_Some (GetAcquireLock x)); bool_decide (is_Some (GetReleaseLock x)); bool_decide (is_Some (GetExpireLease x));
    bool_decide (is_Some (GetUpsertEndpoint x)); bool_decide (is_Some (GetRemoveEndpoint x))]) <= 1)%nat.
Proof. destruct x as [t [[[]|[]|[]|[]|[]|[]|[]]|]]; vm_compute; lia. Qed.
