(* ===== verification/Fsm.v ===== *)
(** * The replicated state machine (internal/state/fsm.go)

    [FSM_Apply] is the whole of [FSM.Apply]: the dispatch and the seven handlers.
    A handler returns the new state, the lock names it passed to the lock-freed
    hook in call order, and its result. Leases and locks are never modified in
    place after they are stored, so a map of pointers is a map of values here;
    [FSM.mu] makes each call one step. *)

From S2P Require Import Prelude GoTime Errors Domain Raftlog.

Record FSM := mkFSM {
  locks : gmap string Lock;
  leases : gmap Z Lease;
  endpoints : gmap string string;
  fencingCounter : Z;            (* uint64 *)
  nextLeaseID : Z                (* uint64 *)
}.

Definition NewFSM : FSM := mkFSM ∅ ∅ ∅ 0 1.

Record CreateLeaseResponse := mkCreateLeaseResponse {
  CLR_LeaseID : Z; CLR_ExpiresAt : Time; CLR_TTL : Duration }.
Record AcquireLockResponse := mkAcquireLockResponse {
  ALR_FencingToken : Z; ALR_LeaseTTL : Duration }.
Record ExpireLeaseResponse := mkExpireLeaseResponse {
  LocksReleased : Z }.

(** The untyped [any] a handler returns. *)
Inductive Response :=
| RNil
| RCreateLease (r : CreateLeaseResponse)
| RAcquireLock (r : AcquireLockResponse)
| RExpireLease (r : ExpireLeaseResponse).

Record Applied := mkApplied {
  post : FSM;
  freed : list string;
  response : result error Response
}.

Definition fail (f : FSM) (e : domain_error) : Applied := mkApplied f [] (Err (Domain e)).

Definition commandTime (unixNano : Z) : result error Time :=
  if unixNano <=? 0 then Err (Domain ErrInvalidTimestamp)
  else Ok (UTC (time_Unix 0 unixNano)).

Definition leaseExpiryAt (start : Time) (ttl : Duration) : result error Time :=
  let maxExpiryNanos := max_int64 -i64 UnixNano start in
  if (ttl <=? 0) || (maxExpiryNanos <=? 0) || (maxExpiryNanos <? ttl)
  then Err (Domain ErrInvalidLeaseTTL)
  else Ok (Add start ttl).

Definition applyCreateLease (f : FSM) (cmd : option CreateLeaseCommand) : Applied :=
  let ttl := CreateLease_GetTtlNanos cmd in
  if ttl <=? 0 then fail f ErrInvalidLeaseTTL else
  match commandTime (CreateLease_GetCreateAtUnixNano cmd) with
  | Err e => mkApplied f [] (Err e)
  | Ok createdAt =>
    match leaseExpiryAt createdAt ttl with
    | Err e => mkApplied f [] (Err e)
    | Ok expiresAt =>
      let leaseID := nextLeaseID f in
      let lease := mkLease leaseID (CreateLease_GetOwnerId cmd) (UnixNano expiresAt) ttl in
      mkApplied
        (mkFSM (locks f) (<[leaseID := lease]> (leases f)) (endpoints f)
               (fencingCounter f) (nextLeaseID f +u64 1))
        [] (Ok (RCreateLease (mkCreateLeaseResponse leaseID expiresAt ttl)))
    end
  end.

Definition applyAcquireLock (f : FSM) (cmd : option AcquireLockCommand) : Applied :=
  match leases f !! AcquireLock_GetLeaseId cmd with
  | None => fail f ErrLeaseNotFound
  | Some lease =>
    if negb (String.eqb (Lease_OwnerID lease) (AcquireLock_GetOwnerId cmd))
    then fail f ErrNotLockOwner else
    match locks f !! AcquireLock_GetLockName cmd with
    | Some existingLock =>
      if Lock_LeaseID existingLock =? AcquireLock_GetLeaseId cmd
      then mkApplied f [] (Ok (RAcquireLock
             (mkAcquireLockResponse (Lock_FencingToken existingLock) (Lease_TTL lease))))
      else fail f ErrLockAlreadyHeld
    | None =>
      let fencingToken := fencingCounter f +u64 1 in
      let lock := mkLock (AcquireLock_GetLockName cmd) (AcquireLock_GetOwnerId cmd)
                         fencingToken (AcquireLock_GetLeaseId cmd) in
      mkApplied
        (mkFSM (<[AcquireLock_GetLockName cmd := lock]> (locks f)) (leases f) (endpoints f)
               fencingToken (nextLeaseID f))
        [] (Ok (RAcquireLock (mkAcquireLockResponse fencingToken (Lease_TTL lease))))
    end
  end.

Definition applyReleaseLock (f : FSM) (cmd : option ReleaseLockCommand) : Applied :=
  match locks f !! ReleaseLock_GetLockName cmd with
  | None => fail f ErrLockNotFound
  | Some lock =>
    if negb (Lock_LeaseID lock =? ReleaseLock_GetLeaseId cmd)
    then fail f ErrNotLockOwner
    else mkApplied
           (mkFSM (delete (ReleaseLock_GetLockName cmd) (locks f)) (leases f) (endpoints f)
                  (fencingCounter f) (nextLeaseID f))
           [ReleaseLock_GetLockName cmd] (Ok RNil)
  end.

(** The body of the loop over [f.locks]; the state is the lock map, the names
    passed to the hook so far, and [locksReleased]. *)
Definition expireStep (leaseID : Z) (st : gmap string Lock * list string * Z)
    (entry : string * Lock) : gmap string Lock * list string * Z :=
  let '(ls, names, locksReleased) := st in
  let '(lockName, lock) := entry in
  if Lock_LeaseID lock =? leaseID
  then (delete lockName ls, names ++ [lockName], locksReleased + 1)
  else st.

Section fsm.
Context {RO : RangeOrder}.

Definition applyExpireLease (f : FSM) (cmd : option ExpireLeaseCommand) : Applied :=
  match leases f !! ExpireLease_GetLeaseId cmd with
  | None => mkApplied f [] (Ok (RExpireLease (mkExpireLeaseResponse 0)))
  | Some lease =>
    let '(ls, names, locksReleased) :=
      foldl (expireStep (Lease_LeaseID lease)) (locks f, [], 0) (range (locks f)) in
    mkApplied
      (mkFSM ls (delete (Lease_LeaseID lease) (leases f)) (endpoints f)
             (fencingCounter f) (nextLeaseID f))
      names (Ok (RExpireLease (mkExpireLeaseResponse locksReleased)))
  end.

Definition applyUpsertEndpoint (f : FSM) (cmd : option UpsertEndpointCommand) : Applied :=
  if String.eqb (UpsertEndpoint_GetNodeId cmd) "" || String.eqb (UpsertEndpoint_GetGrpcAddress cmd) ""
  then fail f ErrInvalidClusterNode
  else mkApplied
         (mkFSM (locks f) (leases f)
                (<[UpsertEndpoint_GetNodeId cmd := UpsertEndpoint_GetGrpcAddress cmd]> (endpoints f))
                (fencingCounter f) (nextLeaseID f))
         [] (Ok RNil).

Definition applyRemoveEndpoint (f : FSM) (cmd : option RemoveEndpointCommand) : Applied :=
  if String.eqb (RemoveEndpoint_GetNodeId cmd) ""
  then fail f ErrInvalidClusterNode
  else mkApplied
         (mkFSM (locks f) (leases f) (delete (RemoveEndpoint_GetNodeId cmd) (endpoints f))
                (fencingCounter f) (nextLeaseID f))
         [] (Ok RNil).

Definition FSM_Apply (f : FSM) (cmd : CommandWrapper) : Applied :=
  let t := GetType cmd in
  if t =? COMMAND_TYPE_CREATE_LEASE then applyCreateLease f (GetCreateLease cmd)
  else if t =? COMMAND_TYPE_RENEW_LEASE then mkApplied f [] (Ok RNil)
  else if t =? COMMAND_TYPE_ACQUIRE_LOCK then applyAcquireLock f (GetAcquireLock cmd)
  else if t =? COMMAND_TYPE_RELEASE_LOCK then applyReleaseLock f (GetReleaseLock cmd)
  else if t =? COMMAND_TYPE_EXPIRE_LEASE then applyExpireLease f (GetExpireLease cmd)
  else if t =? COMMAND_TYPE_UPSERT_ENDPOINT then applyUpsertEndpoint f (GetUpsertEndpoint cmd)
  else if t =? COMMAND_TYPE_REMOVE_ENDPOINT then applyRemoveEndpoint f (GetRemoveEndpoint cmd)
  else mkApplied f [] (Err (Wrapped
         (domain_error_text ErrUnknownCommand +:+ ": " +:+ CommandType_String t)
         (Domain ErrUnknownCommand))).

(** A replica's state after it has applied a log prefix in order. *)
Definition replay (f : FSM) (log : list CommandWrapper) : FSM :=
  foldl (fun g cmd => post (FSM_Apply g cmd)) f log.

(** ** Queries *)

Definition GetLock (f : FSM) (lockName : string) : option Lock := locks f !! lockName.
Definition GetLease (f : FSM) (leaseID : Z) : option Lease := leases f !! leaseID.
Definition GetEndpoint (f : FSM) (nodeID : string) : option string := endpoints f !! nodeID.

Record Stats := mkStats { Stats_Locks : Z; Stats_Leases : Z; Stats_FencingCounter : Z }.
Definition FSM_Stats (f : FSM) : Stats :=
  mkStats (Z.of_nat (size (locks f))) (Z.of_nat (size (leases f))) (fencingCounter f).

Definition FSM_Leases (f : FSM) : list Lease := (range (leases f)).*2.
End fsm.

(** [SetLockFreedHook] and [lockFreed]: what one call of the hook does to the
    state [W] the hook closes over. *)
Definition lockFreed {W} (onLockFreed : option (string -> W -> W)) (lockName : string) (w : W) : W :=
  match onLockFreed with Some fn => fn lockName w | None => w end.
