(* ===== verification/FsmInv.v ===== *)
(** * Invariants of the replicated state machine

    The well-formedness invariant of [FSM] states and its preservation by every
    command, the exact effect of lease expiry, and the independence of the state
    machine from map iteration order. *)

From S2P Require Import Prelude GoTime Errors Domain Raftlog Fsm.

(** ** The invariant *)

Record lease_wf (f : FSM) (i : Z) (s : Lease) : Prop := {
  lease_id : Lease_LeaseID s = i;
  lease_id_bound : 1 <= i < nextLeaseID f;
  lease_ttl : 0 < Lease_TTL s < ExpiresAtUnixNano s;
  lease_expiry : ExpiresAtUnixNano s <= max_int64
}.

Record lock_wf (f : FSM) (n : string) (l : Lock) : Prop := {
  lock_name : Lock_Name l = n;
  lock_lease : exists s, leases f !! Lock_LeaseID l = Some s /\ Lease_OwnerID s = Lock_OwnerID l;
  lock_token : 1 <= Lock_FencingToken l <= fencingCounter f
}.

Record fsm_wf (f : FSM) : Prop := {
  wf_locks : forall n l, locks f !! n = Some l -> lock_wf f n l;
  wf_tokens : forall n1 n2 l1 l2, locks f !! n1 = Some l1 -> locks f !! n2 = Some l2 ->
    Lock_FencingToken l1 = Lock_FencingToken l2 -> n1 = n2;
  wf_leases : forall i s, leases f !! i = Some s -> lease_wf f i s;
  wf_endpoints : forall n a, endpoints f !! n = Some a -> n <> "" /\ a <> "";
  wf_counter : 0 <= fencingCounter f < two_64;
  wf_next : 1 <= nextLeaseID f < two_64
}.

(** Neither 64-bit counter wraps within the next [k] commands. *)
Definition room (f : FSM) (k : nat) : Prop :=
  fencingCounter f + Z.of_nat k < two_64 /\ nextLeaseID f + Z.of_nat k < two_64.

(** ** Lease expiry *)

Definition held_by_lease (id : Z) (e : string * Lock) : Prop := Lock_LeaseID e.2 = id.
Global Instance held_by_lease_dec id e : Decision (held_by_lease id e).
Proof. unfold held_by_lease. apply _. Defined.

Lemma foldl_expireStep id es ls names c :
  foldl (expireStep id) (ls, names, c) es =
    (foldl (fun m k => delete k m) ls (filter (held_by_lease id) es).*1,
     names ++ (filter (held_by_lease id) es).*1,
     c + Z.of_nat (length (filter (held_by_lease id) es).*1)).
Proof.
  revert ls names c. induction es as [|[n l] es IH]; intros; simpl.
  { by rewrite app_nil_r, Z.add_0_r. }
  rewrite filter_cons. destruct (decide (held_by_lease id (n, l))) as [Hh|Hh];
    unfold held_by_lease in Hh; simpl in Hh.
  - rewrite Hh, Z.eqb_refl, IH, <-app_assoc, fmap_cons, length_cons.
    f_equal. lia.
  - destruct (Z.eqb_spec (Lock_LeaseID l) id); [done|]. by rewrite IH.
Qed.

Lemma lookup_foldl_delete {V} (ks : list string) (m : gmap string V) k :
  foldl (fun m k => delete k m) m ks !! k = if decide (k ∈ ks) then None else m !! k.
Proof.
  revert m. induction ks as [|x ks IH]; intros m; cbn [foldl].
  { case_decide; set_solver. }
  rewrite IH, lookup_delete. destruct (decide (x = k)) as [<-|Hne].
  - rewrite (decide_True (P := x ∈ x :: ks)) by left. by case_decide.
  - apply decide_ext. rewrite elem_of_cons. intuition congruence.
Qed.

Section expiry.
Context {RO : RangeOrder}.

(** The names a lease expiry frees, in the order the map was visited. *)
Definition expired_names (f : FSM) (id : Z) : list string :=
  (filter (held_by_lease id) (range (locks f))).*1.

Lemma elem_of_expired_names f id n :
  n ∈ expired_names f id <-> exists l, locks f !! n = Some l /\ Lock_LeaseID l = id.
Proof.
  unfold expired_names, held_by_lease. rewrite list_elem_of_fmap. split.
  - intros ([n' l]&->&[Hid Hin]%list_elem_of_filter). rewrite elem_of_range in Hin. eauto.
  - intros (l&Hl&Hid). exists (n, l). split; [done|].
    rewrite list_elem_of_filter, elem_of_range. eauto.
Qed.

Lemma expired_names_NoDup f id : NoDup (expired_names f id).
Proof.
  unfold expired_names. eapply sublist_NoDup; [apply (range_NoDup_keys (locks f))|].
  apply fmap_sublist, sublist_filter.
Qed.

(** The loop of [applyExpireLease] leaves exactly the locks of other leases. *)
Lemma applyExpireLease_spec f cmd s :
  leases f !! ExpireLease_GetLeaseId cmd = Some s ->
  applyExpireLease f cmd =
    mkApplied
      (mkFSM (filter (fun e => Lock_LeaseID e.2 <> Lease_LeaseID s) (locks f))
             (delete (Lease_LeaseID s) (leases f)) (endpoints f) (fencingCounter f) (nextLeaseID f))
      (expired_names f (Lease_LeaseID s))
      (Ok (RExpireLease (mkExpireLeaseResponse
            (Z.of_nat (length (expired_names f (Lease_LeaseID s))))))).
Proof.
  intros Hs. unfold applyExpireLease. rewrite Hs, foldl_expireStep. simpl.
  fold (expired_names f (Lease_LeaseID s)). f_equal. f_equal.
  apply map_eq. intros n. rewrite lookup_foldl_delete. case_decide as Hin.
  - apply elem_of_expired_names in Hin as (l&Hl&Hid).
    symmetry. apply map_lookup_filter_None. right. intros l' Hl' Hne. simpl in *. congruence.
  - destruct (locks f !! n) as [l|] eqn:Hl.
    + symmetry. apply map_lookup_filter_Some. split; [done|]. simpl. intros Hid.
      apply Hin, elem_of_expired_names. eauto.
    + symmetry. apply map_lookup_filter_None. by left.
Qed.
End expiry.

(** ** The transitions a command can cause

    Every command either leaves the state alone or makes one of six changes. *)
Inductive fsm_step (f : FSM) : FSM -> Prop :=
| step_same : fsm_step f f
| step_create owner ttl expires :
    0 < ttl < expires -> expires <= max_int64 ->
    fsm_step f (mkFSM (locks f) (<[nextLeaseID f := mkLease (nextLeaseID f) owner expires ttl]> (leases f))
                      (endpoints f) (fencingCounter f) (nextLeaseID f +u64 1))
| step_grant n i s :
    leases f !! i = Some s -> locks f !! n = None ->
    fsm_step f (mkFSM (<[n := mkLock n (Lease_OwnerID s) (fencingCounter f +u64 1) i]> (locks f))
                      (leases f) (endpoints f) (fencingCounter f +u64 1) (nextLeaseID f))
| step_release n l :
    locks f !! n = Some l ->
    fsm_step f (mkFSM (delete n (locks f)) (leases f) (endpoints f) (fencingCounter f) (nextLeaseID f))
| step_expire i s :
    leases f !! i = Some s ->
    fsm_step f (mkFSM (filter (fun e => Lock_LeaseID e.2 <> Lease_LeaseID s) (locks f))
                      (delete (Lease_LeaseID s) (leases f)) (endpoints f) (fencingCounter f) (nextLeaseID f))
| step_upsert n a :
    n <> "" -> a <> "" ->
    fsm_step f (mkFSM (locks f) (leases f) (<[n := a]> (endpoints f)) (fencingCounter f) (nextLeaseID f))
| step_remove n :
    fsm_step f (mkFSM (locks f) (leases f) (delete n (endpoints f)) (fencingCounter f) (nextLeaseID f)).

(** [leaseExpiryAt] accepts exactly the sums that fit in an int64. *)
Lemma leaseExpiryAt_ok start ttl t :
  is_i64 start -> 0 < start ->
  leaseExpiryAt (UTC (time_Unix 0 start)) ttl = Ok t ->
  0 < ttl /\ start + ttl <= max_int64 /\ t = time_Unix 0 (start + ttl).
Proof.
  unfold leaseExpiryAt, UnixNano, UTC, time_Unix, Add, is_i64. intros Hs Hpos. cbn [wall mono].
  change (0 * Second + start) with start. change (0 * Second + (start + ttl)) with (start + ttl).
  rewrite (wrap_i64_id start), (wrap_i64_id (max_int64 - start)) by (unfold is_i64; lia).
  case_match; [done|]. intros [= <-]. to_prop. split_and!; [lia|lia|reflexivity].
Qed.

Lemma leaseExpiryAt_err start ttl e :
  is_i64 start -> 0 < start -> 0 < ttl ->
  leaseExpiryAt (UTC (time_Unix 0 start)) ttl = Err e ->
  e = Domain ErrInvalidLeaseTTL /\ max_int64 < start + ttl.
Proof.
  unfold leaseExpiryAt, UnixNano, UTC, time_Unix, is_i64. intros Hs Hpos Httl. cbn [wall].
  change (0 * Second + start) with start.
  rewrite (wrap_i64_id start), (wrap_i64_id (max_int64 - start)) by (unfold is_i64; lia).
  case_match eqn:Hc; [|done]. intros [= <-]. split; [done|].
  apply orb_true_iff in Hc as [[?|?]%orb_true_iff|?]; to_prop; lia.
Qed.

Section step.
Context {RO : RangeOrder}.

Lemma applyCreateLease_step f cmd :
  is_i64 (CreateLease_GetCreateAtUnixNano cmd) ->
  fsm_step f (post (applyCreateLease f cmd)).
Proof.
  unfold applyCreateLease, commandTime, fail. intros Hi.
  repeat case_match; simplify_eq/=; try constructor; to_prop;
    edestruct leaseExpiryAt_ok as (?&?&->); eauto;
    unfold UnixNano, time_Unix; cbn [wall];
    rewrite wrap_i64_id; unfold is_i64; lia.
Qed.

(** The integer fields of a decoded command are within their protobuf types. *)
Definition typed (cmd : CommandWrapper) : Prop :=
  is_i64 (CreateLease_GetCreateAtUnixNano (GetCreateLease cmd)) /\
  is_i64 (CreateLease_GetTtlNanos (GetCreateLease cmd)) /\
  is_u64 (AcquireLock_GetLeaseId (GetAcquireLock cmd)) /\
  is_u64 (ReleaseLock_GetLeaseId (GetReleaseLock cmd)) /\
  is_u64 (ExpireLease_GetLeaseId (GetExpireLease cmd)).

Lemma FSM_Apply_step f cmd : typed cmd -> fsm_step f (post (FSM_Apply f cmd)).
Proof.
  intros (Hc&_). unfold FSM_Apply. repeat case_match; try apply step_same.
  - by apply applyCreateLease_step.
  - unfold applyAcquireLock, fail. repeat case_match; try apply step_same. to_prop. simpl.
    match goal with H : Lease_OwnerID _ = _ |- _ => rewrite <-H end. by apply step_grant.
  - unfold applyReleaseLock, fail. repeat case_match; try apply step_same. by eapply step_release.
  - destruct (leases f !! ExpireLease_GetLeaseId (GetExpireLease cmd)) eqn:Hs.
    + erewrite applyExpireLease_spec by done. by eapply step_expire.
    + unfold applyExpireLease. rewrite Hs. apply step_same.
  - unfold applyUpsertEndpoint, fail. case_match; try apply step_same. to_prop. by apply step_upsert.
  - unfold applyRemoveEndpoint, fail. case_match; try apply step_same. apply step_remove.
Qed.
End step.

(** ** Preservation *)

Lemma counters_step f g : fsm_wf f -> room f 1 -> fsm_step f g ->
  (fencingCounter f <= fencingCounter g <= fencingCounter f + 1) /\
  (nextLeaseID f <= nextLeaseID g <= nextLeaseID f + 1).
Proof.
  intros Hwf [Hr1 Hr2] Hst. pose proof (wf_counter f Hwf). pose proof (wf_next f Hwf).
  destruct Hst; simpl; rewrite ?wrap_u64_id by (unfold is_u64; lia); lia.
Qed.

Lemma lease_wf_mono f g i s : nextLeaseID f <= nextLeaseID g -> lease_wf f i s -> lease_wf g i s.
Proof. intros ? []. split; try done. lia. Qed.

Lemma lock_wf_mono f g n l :
  fencingCounter f <= fencingCounter g ->
  leases g !! Lock_LeaseID l = leases f !! Lock_LeaseID l ->
  lock_wf f n l -> lock_wf g n l.
Proof. intros ? He [? (s&?&?) ?]. split; [done|exists s; by rewrite He|lia]. Qed.

Ltac fields := cbn [locks leases endpoints fencingCounter nextLeaseID] in *.

Section preservation.
Variables f g : FSM.
Hypothesis Hwf : fsm_wf f.
Hypothesis Hroom : room f 1.
Hypothesis Hst : fsm_step f g.

Lemma step_leases_wf i s : leases g !! i = Some s -> lease_wf g i s.
Proof.
  pose proof (counters_step f g Hwf Hroom Hst) as [_ Hn]. pose proof (wf_next f Hwf).
  intros Hs. destruct (leases f !! i) as [s'|] eqn:Hf.
  - assert (s = s') as ->.
    { destruct Hst; fields; simplify_map_eq; try done.
      - apply lookup_insert_Some in Hs as [[<- _]|[_ ?]]; [|congruence].
        apply wf_leases in Hf as []; [lia|done].
      - apply lookup_delete_Some in Hs as [_ ?]. congruence. }
    eapply lease_wf_mono; [|by apply wf_leases]. lia.
  - destruct Hst; fields; simplify_map_eq; try congruence.
    + apply lookup_insert_Some in Hs as [[<- <-]|[_ ?]]; [|congruence].
      split; cbn; try done; try lia.
      rewrite wrap_u64_id in * by (destruct Hroom; unfold is_u64; lia). lia.
    + apply lookup_delete_Some in Hs as [_ ?]. congruence.
Qed.

(** A lock that survives a step keeps its record and its lease. *)
Lemma step_lock_kept n l : locks f !! n = Some l -> locks g !! n = Some l ->
  leases g !! Lock_LeaseID l = leases f !! Lock_LeaseID l.
Proof.
  intros Hf Hg. destruct (wf_locks f Hwf n l Hf) as [_ (s&Hs&_) _].
  destruct Hst; fields; try done.
  - rewrite lookup_insert_ne; [done|]. apply wf_leases in Hs as []; [lia|done].
  - apply map_lookup_filter_Some in Hg as [_ Hne]. by rewrite lookup_delete_ne.
Qed.

(** A lock of the new state is an old one, or the one granted by this step. *)
Lemma step_lock_cases n l : locks g !! n = Some l ->
  locks f !! n = Some l \/
  (locks f !! n = None /\ fencingCounter g = fencingCounter f + 1 /\
   Lock_FencingToken l = fencingCounter g /\ Lock_Name l = n /\
   exists s, leases f !! Lock_LeaseID l = Some s /\ Lease_OwnerID s = Lock_OwnerID l /\ leases g = leases f).
Proof.
  pose proof (wf_counter f Hwf). destruct Hroom as [Hr _].
  intros Hg. destruct Hst; fields; auto.
  - apply lookup_insert_Some in Hg as [[<- <-]|[_ ?]]; [right|by left].
    rewrite wrap_u64_id by (unfold is_u64; lia). cbn. eauto 10.
  - apply lookup_delete_Some in Hg as [_ ?]. by left.
  - apply map_lookup_filter_Some in Hg as [? _]. by left.
Qed.

Lemma fsm_step_wf : fsm_wf g.
Proof.
  pose proof (counters_step f g Hwf Hroom Hst) as [Hc Hn].
  pose proof (wf_counter f Hwf) as Hfc. pose proof (wf_next f Hwf) as Hnx. pose proof Hroom as [Hr1 Hr2].
  split; [| |apply step_leases_wf| |lia|lia].
  - intros n l Hg. destruct (step_lock_cases n l Hg) as [Hf|(_&Hc'&Ht&Hn'&s&Hs&Ho&HL)].
    + eapply lock_wf_mono; [|by eapply step_lock_kept|by apply wf_locks]. lia.
    + split; [done|exists s; by rewrite HL|lia].
  - intros n1 n2 l1 l2 H1 H2 Heq.
    destruct (step_lock_cases n1 l1 H1) as [Hf1|(Hf1&Hc1&Ht1&_)],
             (step_lock_cases n2 l2 H2) as [Hf2|(Hf2&Hc2&Ht2&_)].
    + by eapply (wf_tokens f).
    + destruct (wf_locks f Hwf n1 l1 Hf1). lia.
    + destruct (wf_locks f Hwf n2 l2 Hf2). lia.
    + destruct Hst; fields; try lia; try congruence.
      apply lookup_insert_Some in H1 as [[<- _]|[_ ?]]; [|congruence].
      apply lookup_insert_Some in H2 as [[<- _]|[_ ?]]; congruence.
  - intros n a Ha. pose proof (wf_endpoints f Hwf n a).
    destruct Hst; fields; eauto.
    + apply lookup_insert_Some in Ha as [[<- <-]|[_ ?]]; eauto.
    + apply lookup_delete_Some in Ha as [_ ?]. eauto.
Qed.
End preservation.

Lemma NewFSM_wf : fsm_wf NewFSM.
Proof. split; cbn; try done. Qed.

(** ** Runs *)

Section runs.
Context {RO : RangeOrder}.

Lemma replay_cons f cmd log : replay f (cmd :: log) = replay (post (FSM_Apply f cmd)) log.
Proof. done. Qed.

Lemma replay_app f log1 log2 : replay f (log1 ++ log2) = replay (replay f log1) log2.
Proof. apply foldl_app. Qed.

Lemma room_step f g k : fsm_wf f -> room f (S k) -> fsm_step f g -> room f 1 /\ room g k.
Proof.
  intros Hwf [Hr1 Hr2] Hst. assert (room f 1) as Hroom by (split; lia).
  pose proof (counters_step f g Hwf Hroom Hst). unfold room. split; [done|lia].
Qed.

(** Rule induction over a replayed log: a predicate kept by every transition of a
    well-formed state is kept by the whole log. *)
Lemma replay_ind (P : FSM -> Prop) f log :
  (forall g h, fsm_wf g -> room g 1 -> fsm_step g h -> P g -> P h) ->
  fsm_wf f -> Forall typed log -> room f (length log) ->
  P f -> P (replay f log) /\ fsm_wf (replay f log).
Proof.
  intros Hpres. revert f. induction log as [|cmd log IH]; intros f Hwf Hty Hroom HP; [done|].
  apply Forall_cons_iff in Hty as [Hcmd Hty]. rewrite replay_cons.
  pose proof (FSM_Apply_step f cmd Hcmd) as Hst.
  destruct (room_step _ _ _ Hwf Hroom Hst) as [Hr1 Hr].
  apply IH; eauto using fsm_step_wf.
Qed.

Lemma replay_keeps_wf f log :
  fsm_wf f -> Forall typed log -> room f (length log) -> fsm_wf (replay f log).
Proof. intros. by eapply (replay_ind (fun _ => True)). Qed.

(** ** Lease records never change

    The record of a lease is written when it is created; its id is not used again.
    So whatever part of a log two replicas have applied, their copies of a lease
    are the same. *)

(** Id [i] is allocated, and its record is [s] or gone. *)
Definition settled (i : Z) (s : Lease) (f : FSM) : Prop :=
  i < nextLeaseID f /\ forall s', leases f !! i = Some s' -> s' = s.

Lemma settled_step i s f g : fsm_wf f -> room f 1 -> fsm_step f g -> settled i s f -> settled i s g.
Proof.
  intros Hwf Hroom Hst [Hi Hs]. pose proof (counters_step f g Hwf Hroom Hst). split; [lia|].
  intros s' Hg. destruct Hst; cbn in *; eauto.
  - rewrite lookup_insert_ne in Hg by lia. eauto.
  - apply lookup_delete_Some in Hg as [_ ?]. eauto.
Qed.

(** A replica that has applied part of the log holds the record [s]. *)
Definition recorded (log : list CommandWrapper) (s : Lease) : Prop :=
  exists k, leases (replay NewFSM (take k log)) !! Lease_LeaseID s = Some s.

Lemma recorded_app log1 log2 s : recorded log1 s -> recorded (log1 ++ log2) s.
Proof.
  intros [k Hk]. exists (Nat.min k (length log1)). rewrite take_app_le by lia.
  destruct (Nat.min_spec k (length log1)) as [[_ ->]|[? ->]]; [done|]. by rewrite firstn_all, take_ge in * by lia.
Qed.

(** The first record of a lease in a log. *)
Fixpoint record_from (f : FSM) (log : list CommandWrapper) (i : Z) : option Lease :=
  match leases f !! i, log with
  | Some s, _ => Some s
  | None, [] => None
  | None, cmd :: log => record_from (post (FSM_Apply f cmd)) log i
  end.

Lemma record_from_unique f log i k s :
  fsm_wf f -> Forall typed log -> room f (length log) ->
  leases (replay f (take k log)) !! i = Some s -> record_from f log i = Some s.
Proof.
  revert f k. induction log as [|cmd log IH]; intros f k Hwf Hty Hroom Hs.
  { rewrite take_nil in Hs. simpl in *. by rewrite Hs. }
  destruct (leases f !! i) as [s0|] eqn:H0.
  - cbn [record_from]. rewrite H0. rewrite <- (take_drop k (cmd :: log)) in Hroom.
    destruct (replay_ind (settled i s0) f (take k (cmd :: log))) as [[_ Hset] _]; [apply settled_step|done|by apply Forall_take| | |].
    + unfold room in *. rewrite length_app in Hroom. lia.
    + split; [apply (wf_leases f Hwf) in H0 as []; lia|]. intros s'. congruence.
    + by rewrite (Hset s Hs).
  - cbn [record_from]. rewrite H0. destruct k as [|k]; [simpl in Hs; congruence|].
    apply Forall_cons_iff in Hty as [Hcmd Hty]. pose proof (FSM_Apply_step f cmd Hcmd) as Hst.
    destruct (room_step _ _ _ Hwf Hroom Hst) as [Hr1 Hr]. apply (IH _ k); eauto using fsm_step_wf.
Qed.

(** The copies of a lease that replicas hold at any point of a log are the same. *)
Lemma recorded_copy log s : Forall typed log -> Z.of_nat (length log) < two_64 - 1 ->
  recorded log s -> record_from NewFSM log (Lease_LeaseID s) = Some s.
Proof.
  intros Hty Hlen [k Hk]. eapply record_from_unique; [apply NewFSM_wf|done|split; cbn; lia|done].
Qed.

(** ** Prefixes of a log *)

Lemma replay_room f log1 log2 :
  fsm_wf f -> Forall typed log1 -> room f (length (log1 ++ log2)) -> room (replay f log1) (length log2).
Proof.
  revert f. induction log1 as [|cmd log1 IH]; intros f Hwf Hty Hroom; [done|].
  apply Forall_cons_iff in Hty as [Hcmd Hty]. rewrite replay_cons.
  pose proof (FSM_Apply_step f cmd Hcmd) as Hst. destruct (room_step _ _ _ Hwf Hroom Hst) as [Hr1 Hr].
  apply IH; eauto using fsm_step_wf.
Qed.

Section prefixes.
Variable log : list CommandWrapper.
Hypothesis Hty : Forall typed log.
Hypothesis Hlen : Z.of_nat (length log) < two_64 - 1.

(** The state after the first [k] commands. *)
Definition state_at (k : nat) : FSM := replay NewFSM (take k log).

Lemma state_at_wf k : fsm_wf (state_at k).
Proof.
  apply replay_keeps_wf; [apply NewFSM_wf|by apply Forall_take|]. split; cbn; rewrite length_take; lia.
Qed.

Lemma state_at_later k k' : (k <= k')%nat ->
  state_at k' = replay (state_at k) (take (k' - k) (drop k log)) /\
  Forall typed (take (k' - k) (drop k log)) /\ room (state_at k) (length (take (k' - k) (drop k log))).
Proof.
  intros Hk. assert (He : take k' log = take k log ++ take (k' - k) (drop k log)).
  { rewrite take_drop_commute. replace (k + (k' - k))%nat with k' by lia.
    rewrite <- (take_drop k (take k' log)) at 1. by rewrite take_take, Nat.min_l by lia. }
  split_and!.
  - unfold state_at. by rewrite He, replay_app.
  - by apply Forall_take, Forall_drop.
  - apply replay_room; [apply NewFSM_wf|by apply Forall_take|]. rewrite <- He. split; cbn; rewrite length_take; lia.
Qed.

Lemma state_at_S k cmd : log !! k = Some cmd -> state_at (S k) = post (FSM_Apply (state_at k) cmd).
Proof. intros Hk. unfold state_at. by rewrite (take_S_r _ _ _ Hk), replay_app. Qed.

(** Id [i] is allocated and its lease is gone. *)
Definition gone (i : Z) (f : FSM) : Prop := i < nextLeaseID f /\ leases f !! i = None.

Lemma gone_step i f g : fsm_wf f -> room f 1 -> fsm_step f g -> gone i f -> gone i g.
Proof.
  intros Hwf Hr Hst [Hi Hn]. pose proof (counters_step f g Hwf Hr Hst). split; [lia|].
  destruct Hst; cbn in *; try done.
  - by rewrite lookup_insert_ne by lia.
  - apply lookup_delete_None. by right.
Qed.

Lemma gone_later i k k' : (k <= k')%nat -> gone i (state_at k) -> gone i (state_at k').
Proof.
  intros Hk Hg. destruct (state_at_later k k' Hk) as (->&Hty'&Hroom).
  by apply (replay_ind (gone i)); [apply gone_step|apply state_at_wf|..].
Qed.

(** Between two points of a log at which a lease exists, it is not expired. *)
Lemma not_expired_between a j k i s s' cmd :
  leases (state_at a) !! i = Some s -> leases (state_at k) !! i = Some s' -> (a <= j < k)%nat ->
  log !! j = Some cmd -> GetType cmd = COMMAND_TYPE_EXPIRE_LEASE -> ExpireLease_GetLeaseId (GetExpireLease cmd) <> i.
Proof.
  intros Ha Hk Hj Hc Hexp Hid. enough (Hg : gone i (state_at k)) by (destruct Hg; congruence).
  apply (gone_later i (S j)); [lia|]. rewrite (state_at_S j cmd Hc). unfold FSM_Apply. rewrite Hexp. cbn.
  destruct (leases (state_at j) !! i) as [s0|] eqn:Hs.
  - pose proof (wf_leases _ (state_at_wf j) i s0 Hs) as [Hsid Hb _ _].
    rewrite (applyExpireLease_spec _ _ s0) by congruence. split; cbn; [lia|]. by rewrite Hsid, lookup_delete_eq.
  - unfold applyExpireLease. rewrite Hid, Hs. split; [|done]. cbn.
    destruct (state_at_later a j) as (->&Hty'&Hroom); [lia|].
    apply (replay_ind (fun f => i < nextLeaseID f)); [|apply state_at_wf|done|done|].
    + intros f g Hwf Hr Hst Hi. pose proof (counters_step f g Hwf Hr Hst). lia.
    + by apply (wf_leases _ (state_at_wf a)) in Ha as [_ [_ ?] _ _].
Qed.
End prefixes.

Lemma typed_acquire n o i : is_u64 i -> typed (NewAcquireLockCmd n o i).
Proof. unfold typed, is_i64, is_u64; cbn. lia. Qed.

(** What a granted or repeated acquisition tells about the state after it. *)
Lemma acquire_ok_held f n o i t d :
  response (FSM_Apply f (NewAcquireLockCmd n o i)) = Ok (RAcquireLock (mkAcquireLockResponse t d)) ->
  exists l, locks (post (FSM_Apply f (NewAcquireLockCmd n o i))) !! n = Some l /\
    Lock_LeaseID l = i /\ Lock_FencingToken l = t.
Proof.
  unfold FSM_Apply, applyAcquireLock, fail; cbn. repeat case_match; cbn; intros; simplify_eq; to_prop.
  - eauto.
  - eexists. rewrite lookup_insert_eq. eauto.
Qed.
End runs.

#[export] Hint Resolve NewFSM_wf fsm_step_wf FSM_Apply_step replay_keeps_wf typed_acquire : clavis.
