(* ===== verification/FsmProps.v ===== *)
(** * Properties of the replicated state machine

    The guarantees the README states for the lock service's state, for every log
    the cluster can commit: tokens, mutual exclusion, the effect of each command
    on each branch, and determinism. *)

From S2P Require Import Prelude GoTime Errors Domain Raftlog Fsm FsmInv.

Section props.
Context {RO : RangeOrder}.

(** ** Invariant *)

(** C2: every state a replica reaches by applying a log of fewer than 2^64 - 1
    commands is well formed: each lock is stored under its own name, is backed by
    a lease that exists and belongs to the lock's owner, and carries a token in
    1..fencingCounter that no other held lock carries; each lease is stored under
    its own id, which was already allocated, and has a positive TTL and an expiry
    that fits in an int64; endpoints have non-empty ids and addresses. *)
Theorem replay_wf (log : list CommandWrapper)
    (Hty : Forall typed log) (Hlen : Z.of_nat (length log) < two_64 - 1) :
  fsm_wf (replay NewFSM log).
Proof. apply replay_keeps_wf; auto with clavis. split; cbn; lia. Qed.

(** ** Fencing tokens *)

(** Once lease [i] holds token [t] for lock [n], a different lease's token for
    [n] is larger, whatever is applied in between. *)
Definition fenced (n : string) (i t : Z) (f : FSM) : Prop :=
  t <= fencingCounter f /\
  forall l, locks f !! n = Some l ->
    t <= Lock_FencingToken l /\ (Lock_LeaseID l <> i -> t < Lock_FencingToken l).

Lemma fenced_step n i t f g :
  fsm_wf f -> room f 1 -> fsm_step f g -> fenced n i t f -> fenced n i t g.
Proof.
  intros Hwf Hroom Hst [Hc Hl]. pose proof (counters_step f g Hwf Hroom Hst). split; [lia|].
  intros l Hg. destruct (step_lock_cases f g Hwf Hroom Hst n l Hg) as [Hf|(_&Hc'&Ht&_)]; [eauto|].
  lia.
Qed.

Lemma fenced_after_acquire f n o i t d :
  fsm_wf f -> room f 1 -> is_u64 i ->
  response (FSM_Apply f (NewAcquireLockCmd n o i)) = Ok (RAcquireLock (mkAcquireLockResponse t d)) ->
  fenced n i t (post (FSM_Apply f (NewAcquireLockCmd n o i))).
Proof.
  intros Hwf Hroom Hi Hok. pose proof (acquire_ok_held _ _ _ _ _ _ Hok) as (l&Hl&Hid&Ht).
  assert (fsm_wf (post (FSM_Apply f (NewAcquireLockCmd n o i)))) as Hwf'
    by eauto using typed_acquire with clavis.
  destruct (wf_locks _ Hwf' n l Hl) as [_ _ Htok].
  split; [lia|]. intros l' Hl'. assert (l' = l) as -> by congruence. split; [lia|congruence].
Qed.

(** C3: fencing tokens order the holders of a lock. If an acquisition of [n] by
    lease [i1] returned [t1] and, after any further log, an acquisition of [n] by
    lease [i2] returned [t2], then t1 <= t2, and t1 < t2 when the leases differ:
    a downstream that remembers the largest token it saw rejects the old holder. *)
Theorem fencing_handover f log n o1 i1 t1 d1 o2 i2 t2 d2
    (Hwf : fsm_wf f) (Hty : Forall typed log) (Hi1 : is_u64 i1) (Hi2 : is_u64 i2)
    (Hroom : room f (S (S (length log))))
    (H1 : response (FSM_Apply f (NewAcquireLockCmd n o1 i1)) =
            Ok (RAcquireLock (mkAcquireLockResponse t1 d1)))
    (H2 : response (FSM_Apply (replay (post (FSM_Apply f (NewAcquireLockCmd n o1 i1))) log)
                              (NewAcquireLockCmd n o2 i2)) =
            Ok (RAcquireLock (mkAcquireLockResponse t2 d2))) :
  t1 <= t2 /\ (i1 <> i2 -> t1 < t2).
Proof.
  pose proof (fun g => FSM_Apply_step g _ (typed_acquire n o1 i1 Hi1)) as Hs1.
  destruct (room_step _ _ _ Hwf Hroom (Hs1 f)) as [Hr1 Hr].
  destruct (replay_ind (fenced n i1 t1) (post (FSM_Apply f (NewAcquireLockCmd n o1 i1)))
              (log ++ [NewAcquireLockCmd n o2 i2])) as [[_ Hf] _].
  - eauto using fenced_step.
  - eauto with clavis.
  - apply Forall_app. auto using typed_acquire.
  - by rewrite length_app, Nat.add_comm.
  - by eapply fenced_after_acquire.
  - rewrite replay_app in Hf. apply acquire_ok_held in H2 as (l&Hl&Hid&Ht).
    destruct (Hf l Hl). split; [lia|]. intros ?. assert (Lock_LeaseID l <> i1) by congruence. lia.
Qed.

(** The token minted by a command: the one returned by an acquisition that found
    the lock free. *)
Definition minted (f : FSM) (cmd : CommandWrapper) : list Z :=
  match response (FSM_Apply f cmd) with
  | Ok (RAcquireLock r) =>
    if decide (locks f !! AcquireLock_GetLockName (GetAcquireLock cmd) = None)
    then [ALR_FencingToken r] else []
  | _ => []
  end.

Fixpoint minted_by (f : FSM) (log : list CommandWrapper) : list Z :=
  match log with
  | [] => []
  | cmd :: log => minted f cmd ++ minted_by (post (FSM_Apply f cmd)) log
  end.

Lemma minted_counter f cmd : fsm_wf f -> room f 1 ->
  minted f cmd = seqZ (fencingCounter f + 1) (fencingCounter (post (FSM_Apply f cmd)) - fencingCounter f).
Proof.
  intros Hwf [Hr _]. pose proof (wf_counter f Hwf) as Hc. unfold minted.
  destruct (response (FSM_Apply f cmd)) as [[| | |]|] eqn:Hresp; revert Hresp;
    unfold FSM_Apply, applyCreateLease, applyAcquireLock, applyReleaseLock, applyExpireLease,
      applyUpsertEndpoint, applyRemoveEndpoint, fail;
    repeat case_match; intros; simplify_eq/=; rewrite ?Z.sub_diag; try done.
  rewrite wrap_u64_id by (unfold is_u64; lia).
  by replace (fencingCounter f + 1 - fencingCounter f) with 1 by lia.
Qed.

(** C4: over any log of fewer than 2^64 - 1 commands, the tokens minted are
    exactly 1, 2, 3, ... in log order, ending at the fencing counter: globally
    monotonic, never reused, never skipped. *)
Theorem minted_tokens_consecutive (log : list CommandWrapper)
    (Hty : Forall typed log) (Hlen : Z.of_nat (length log) < two_64 - 1) :
  minted_by NewFSM log = seqZ 1 (fencingCounter (replay NewFSM log)).
Proof.
  enough (forall f, fsm_wf f -> room f (length log) ->
    fencingCounter f <= fencingCounter (replay f log) /\
    minted_by f log = seqZ (fencingCounter f + 1) (fencingCounter (replay f log) - fencingCounter f)) as H.
  { destruct (H NewFSM) as [_ ->]; auto with clavis; [split; cbn; lia|].
    by rewrite Z.sub_0_r. }
  clear Hlen. induction log as [|cmd log IH]; intros f Hwf Hroom.
  { by rewrite Z.sub_diag. }
  apply Forall_cons_iff in Hty as [Hcmd Hty]. rewrite replay_cons. cbn [minted_by].
  pose proof (FSM_Apply_step f cmd Hcmd) as Hst.
  destruct (room_step _ _ _ Hwf Hroom Hst) as [Hr1 Hr].
  pose proof (counters_step _ _ Hwf Hr1 Hst) as [Hc _].
  destruct (IH Hty (post (FSM_Apply f cmd))) as [Hle ->]; eauto with clavis.
  split; [lia|]. rewrite minted_counter by done.
  set (c := fencingCounter f) in *. set (c' := fencingCounter (post _)) in *.
  set (c'' := fencingCounter (replay _ _)) in *.
  replace (c'' - c) with ((c' - c) + (c'' - c')) by lia.
  rewrite seqZ_app by lia. f_equal. f_equal. lia.
Qed.

(** ** Mutual exclusion *)

(** The commands that can free lock [n] while lease [i] holds it. *)
Definition frees (n : string) (i : Z) (cmd : CommandWrapper) : Prop :=
  (GetType cmd = COMMAND_TYPE_RELEASE_LOCK /\
   ReleaseLock_GetLockName (GetReleaseLock cmd) = n /\ ReleaseLock_GetLeaseId (GetReleaseLock cmd) = i) \/
  (GetType cmd = COMMAND_TYPE_EXPIRE_LEASE /\ ExpireLease_GetLeaseId (GetExpireLease cmd) = i).

Lemma lock_kept f cmd n l :
  fsm_wf f -> locks f !! n = Some l -> ~ frees n (Lock_LeaseID l) cmd ->
  locks (post (FSM_Apply f cmd)) !! n = Some l.
Proof.
  intros Hwf Hl Hnf. unfold FSM_Apply.
  repeat case_match; to_prop; try done.
  - unfold applyCreateLease, fail. by repeat case_match.
  - unfold applyAcquireLock, fail. repeat case_match; cbn; try done.
    rewrite lookup_insert_ne by congruence. done.
  - unfold applyReleaseLock, fail. repeat case_match; cbn; try done.
    to_prop. rewrite lookup_delete_ne; [done|]. intros Hn. apply Hnf. left. split_and!; try done.
    congruence.
  - destruct (leases f !! ExpireLease_GetLeaseId (GetExpireLease cmd)) as [s|] eqn:Hs.
    + rewrite (applyExpireLease_spec f _ s Hs). cbn. apply map_lookup_filter_Some. split; [done|].
      cbn. destruct (wf_leases f Hwf _ _ Hs) as [-> _ _ _]. intros Hid. apply Hnf. by right.
    + unfold applyExpireLease. by rewrite Hs.
  - unfold applyUpsertEndpoint, fail. by repeat case_match.
  - unfold applyRemoveEndpoint, fail. by repeat case_match.
Qed.

Lemma lock_kept_replay f log n l :
  fsm_wf f -> Forall typed log -> room f (length log) ->
  locks f !! n = Some l -> Forall (fun cmd => ~ frees n (Lock_LeaseID l) cmd) log ->
  locks (replay f log) !! n = Some l.
Proof.
  revert f. induction log as [|cmd log IH]; intros f Hwf Hty Hroom Hl Hnf; [done|].
  apply Forall_cons_iff in Hty as [Hcmd Hty]. apply Forall_cons_iff in Hnf as [Hn Hnf].
  rewrite replay_cons. pose proof (FSM_Apply_step f cmd Hcmd) as Hst.
  destruct (room_step _ _ _ Hwf Hroom Hst). apply IH; eauto using lock_kept with clavis.
Qed.

(** C5: mutual exclusion. From the moment lease [i] holds lock [n], and for as
    long as the log holds neither a release of [n] by [i] nor an expiry of [i],
    no other lease can acquire [n] (an attempt with a valid lease of its owner is
    answered [ErrLockAlreadyHeld]), and [i] acquiring again gets the same token
    back without changing the state. *)
Theorem mutual_exclusion f log n l
    (Hwf : fsm_wf f) (Hty : Forall typed log) (Hroom : room f (length log))
    (Hheld : locks f !! n = Some l)
    (Hkept : Forall (fun cmd => ~ frees n (Lock_LeaseID l) cmd) log) :
  (forall j s, j <> Lock_LeaseID l -> leases (replay f log) !! j = Some s ->
     FSM_Apply (replay f log) (NewAcquireLockCmd n (Lease_OwnerID s) j) =
       fail (replay f log) ErrLockAlreadyHeld) /\
  (exists s, leases (replay f log) !! Lock_LeaseID l = Some s /\
     FSM_Apply (replay f log) (NewAcquireLockCmd n (Lock_OwnerID l) (Lock_LeaseID l)) =
       mkApplied (replay f log) []
         (Ok (RAcquireLock (mkAcquireLockResponse (Lock_FencingToken l) (Lease_TTL s))))).
Proof.
  pose proof (lock_kept_replay f log n l Hwf Hty Hroom Hheld Hkept) as Hl.
  pose proof (replay_keeps_wf f log Hwf Hty Hroom) as Hwf'. split.
  - intros j s Hne Hs. unfold FSM_Apply, applyAcquireLock; cbn.
    rewrite Hs, String.eqb_refl, Hl. cbn. by destruct (Z.eqb_spec (Lock_LeaseID l) j).
  - destruct (wf_locks _ Hwf' _ _ Hl) as [_ (s&Hs&Ho) _]. exists s. split; [done|].
    unfold FSM_Apply, applyAcquireLock; cbn.
    by rewrite Hs, Ho, String.eqb_refl, Hl, Z.eqb_refl.
Qed.

(** ** Expiry *)

(** C8: expiring a lease that exists removes that lease and exactly the locks it
    holds, in one step: every other lease and lock is untouched, the counters do
    not move, the number reported is the number of locks removed, and the
    lock-freed hook is called once for each removed lock and for no other. *)
Theorem expiry_cascades f i s (Hwf : fsm_wf f) (Hs : leases f !! i = Some s) :
  let r := FSM_Apply f (NewExpireLeaseCmd i) in
  leases (post r) = delete i (leases f) /\
  (forall n l, locks (post r) !! n = Some l <-> locks f !! n = Some l /\ Lock_LeaseID l <> i) /\
  fencingCounter (post r) = fencingCounter f /\ nextLeaseID (post r) = nextLeaseID f /\
  NoDup (freed r) /\
  (forall n, n ∈ freed r <-> exists l, locks f !! n = Some l /\ Lock_LeaseID l = i) /\
  response r = Ok (RExpireLease (mkExpireLeaseResponse (Z.of_nat (length (freed r))))).
Proof.
  destruct (wf_leases f Hwf i s Hs) as [Hid _ _ _]. cbn zeta.
  assert (FSM_Apply f (NewExpireLeaseCmd i) = applyExpireLease f (Some (mkExpireLease i 0))) as -> by done.
  rewrite (applyExpireLease_spec f (Some (mkExpireLease i 0)) s Hs), Hid. cbn [post freed response locks leases fencingCounter nextLeaseID].
  split_and!; try done; [|apply expired_names_NoDup|apply elem_of_expired_names].
  intros n l. by rewrite map_lookup_filter_Some.
Qed.

(** ** Each command on each branch *)

(** A command that is answered with an error changes nothing and frees nothing, in
    every state. *)
Lemma error_changes_nothing f cmd e (Herr : response (FSM_Apply f cmd) = Err e) :
  post (FSM_Apply f cmd) = f /\ freed (FSM_Apply f cmd) = [].
Proof.
  revert Herr. unfold FSM_Apply, applyCreateLease, applyAcquireLock, applyReleaseLock,
    applyExpireLease, applyUpsertEndpoint, applyRemoveEndpoint, fail.
  repeat case_match; intros; simplify_eq/=; auto.
Qed.

(** What it means for a handler to call the lock-freed hook correctly. *)
Definition frees_exactly (f : FSM) (r : Applied) : Prop :=
  NoDup (freed r) /\
  forall n, n ∈ freed r <-> is_Some (locks f !! n) /\ locks (post r) !! n = None.

Lemma frees_exactly_none f r : locks (post r) = locks f -> freed r = [] -> frees_exactly f r.
Proof.
  intros Hl Hf. unfold frees_exactly. rewrite Hl, Hf. split; [constructor|]. intros n.
  rewrite elem_of_nil. split; [done|]. by intros [[? ->] ?].
Qed.

Lemma frees_exactly_expire f cmd : frees_exactly f (applyExpireLease f cmd).
Proof.
  destruct (leases f !! ExpireLease_GetLeaseId cmd) as [s|] eqn:Hs.
  - rewrite (applyExpireLease_spec f cmd s Hs). split; cbn [freed post locks].
    { apply expired_names_NoDup. }
    intros n. rewrite elem_of_expired_names, map_lookup_filter_None. cbn. split.
    + intros (l&Hl&Hid). split; [by eexists|]. right. intros l' Hl'. congruence.
    + intros [[l Hl] [?|Hf]]; [congruence|]. exists l. split; [done|].
      destruct (decide (Lock_LeaseID l = Lease_LeaseID s)); [done|]. by destruct (Hf l Hl).
  - unfold applyExpireLease. rewrite Hs. by apply frees_exactly_none.
Qed.

Lemma FSM_Apply_frees f cmd : frees_exactly f (FSM_Apply f cmd).
Proof.
  unfold FSM_Apply, applyCreateLease, applyAcquireLock, applyReleaseLock, applyUpsertEndpoint,
    applyRemoveEndpoint, fail.
  repeat case_match; try (by apply frees_exactly_none); [..|apply frees_exactly_expire].
  - split; cbn; [constructor|]. intros n. rewrite elem_of_nil, lookup_insert_None.
    split; [done|]. intros [[? ?] [? ?]]. congruence.
  - split; cbn; [apply NoDup_singleton|]. intros n. rewrite list_elem_of_singleton, lookup_delete_None.
    split; [intros ->; by eauto|]. intros [[? ?] [?|?]]; congruence.
Qed.

(** C33: what a command signals and what an error costs. The lock-freed hook is
    called exactly once for every lock that was held before a command and is not
    held after it, and for no other name: a waiter is woken for every freed lock
    and never spuriously. A command that is answered with an error changes nothing
    and frees nothing, in every state. *)
Theorem freed_exactly f cmd :
  NoDup (freed (FSM_Apply f cmd)) /\
  (forall n, n ∈ freed (FSM_Apply f cmd) <->
    is_Some (locks f !! n) /\ locks (post (FSM_Apply f cmd)) !! n = None) /\
  (forall e, response (FSM_Apply f cmd) = Err e -> post (FSM_Apply f cmd) = f /\ freed (FSM_Apply f cmd) = []).
Proof. destruct (FSM_Apply_frees f cmd) as [H1 H2]. split_and!; eauto using error_changes_nothing. Qed.

(** C30: creating a lease. For int64 inputs, the command succeeds exactly when the
    TTL and the timestamp are positive and their sum fits in an int64; it then
    allocates the next id and stores a lease whose expiry is exactly that sum, with
    no wrap-around. Otherwise it fails with [ErrInvalidTimestamp] when only the
    timestamp is bad and with [ErrInvalidLeaseTTL] in the other cases. *)
Theorem create_lease_outcome f owner ttl at_ (Httl : is_i64 ttl) (Hat : is_i64 at_) :
  let cmd := mkCommand COMMAND_TYPE_CREATE_LEASE
    (Some (CommandWrapper_CreateLease (Some (mkCreateLease owner ttl at_)))) in
  FSM_Apply f cmd =
    if decide (0 < ttl /\ 0 < at_ /\ at_ + ttl <= max_int64)
    then mkApplied
      (mkFSM (locks f) (<[nextLeaseID f := mkLease (nextLeaseID f) owner (at_ + ttl) ttl]> (leases f))
             (endpoints f) (fencingCounter f) (nextLeaseID f +u64 1))
      [] (Ok (RCreateLease (mkCreateLeaseResponse (nextLeaseID f) (time_Unix 0 (at_ + ttl)) ttl)))
    else fail f (if decide (0 < ttl /\ at_ <= 0) then ErrInvalidTimestamp else ErrInvalidLeaseTTL).
Proof.
  cbn zeta. unfold FSM_Apply, applyCreateLease, commandTime. cbn.
  destruct (Z.leb_spec ttl 0).
  { rewrite !decide_False by lia. done. }
  destruct (Z.leb_spec at_ 0).
  { rewrite decide_False, decide_True by lia. done. }
  destruct (leaseExpiryAt (UTC (time_Unix 0 at_)) ttl) as [t|e] eqn:He.
  - apply leaseExpiryAt_ok in He as (_&Hsum&->); [|done..].
    rewrite decide_True by lia. unfold UnixNano, time_Unix. cbn [wall].
    change (0 * Second + (at_ + ttl)) with (at_ + ttl).
    rewrite wrap_i64_id by (unfold is_i64 in *; lia). done.
  - apply leaseExpiryAt_err in He as [-> Hsum]; [|done..].
    rewrite !decide_False by lia. done.
Qed.

(** Acquiring a lock. The command succeeds exactly when its lease exists and
    belongs to the caller and the lock is free or already held by that lease; the
    lease's age plays no part. A success on a free lock returns the counter's next
    value and stores the lock under it; a success on a held lock returns the
    holder's token and stores nothing. *)
Lemma acquire_succeeds_iff f n o i t d :
  response (FSM_Apply f (NewAcquireLockCmd n o i)) = Ok (RAcquireLock (mkAcquireLockResponse t d)) <->
  exists s, leases f !! i = Some s /\ Lease_OwnerID s = o /\ d = Lease_TTL s /\
    match locks f !! n with
    | None => t = fencingCounter f +u64 1 /\
        post (FSM_Apply f (NewAcquireLockCmd n o i)) =
          mkFSM (<[n := mkLock n o t i]> (locks f)) (leases f) (endpoints f) t (nextLeaseID f)
    | Some l => Lock_LeaseID l = i /\ t = Lock_FencingToken l /\
        post (FSM_Apply f (NewAcquireLockCmd n o i)) = f
    end.
Proof.
  unfold FSM_Apply, applyAcquireLock, fail; cbn. split.
  - repeat case_match; cbn; intros; simplify_eq; to_prop; eauto 10.
  - intros (s&->&<-&->&Hm). rewrite String.eqb_refl. cbn.
    destruct (locks f !! n) as [l|].
    + destruct Hm as (<-&->&_). by rewrite Z.eqb_refl.
    + by destruct Hm as (->&_).
Qed.

(** A refused acquisition names the first condition that does not hold and changes
    nothing; a granted one can be repeated, with the same answer and no effect. *)
Lemma acquire_refusals f n o i :
  let a := FSM_Apply f (NewAcquireLockCmd n o i) in
  match leases f !! i with
  | None => a = fail f ErrLeaseNotFound
  | Some s =>
    (Lease_OwnerID s <> o -> a = fail f ErrNotLockOwner) /\
    (Lease_OwnerID s = o -> forall l, locks f !! n = Some l -> Lock_LeaseID l <> i -> a = fail f ErrLockAlreadyHeld)
  end.
Proof.
  cbn zeta. unfold FSM_Apply, applyAcquireLock. cbn. destruct (leases f !! i) as [s|]; [|done]. split.
  - intros Hne. by apply String.eqb_neq in Hne as ->.
  - intros <- l Hl Hne. rewrite String.eqb_refl, Hl. cbn. by apply Z.eqb_neq in Hne as ->.
Qed.

Lemma acquire_again f n o i r :
  let a := FSM_Apply f (NewAcquireLockCmd n o i) in
  response a = Ok r -> freed a = [] /\ FSM_Apply (post a) (NewAcquireLockCmd n o i) = mkApplied (post a) [] (Ok r).
Proof.
  cbn zeta. unfold FSM_Apply, applyAcquireLock, fail. cbn.
  destruct (leases f !! i) as [s|] eqn:Hs; [|done]. destruct (String.eqb (Lease_OwnerID s) o) eqn:Ho; [|done]. cbn.
  destruct (locks f !! n) as [l|] eqn:Hl.
  - destruct (Lock_LeaseID l =? i) eqn:Hi; [|done]. cbn. intros [= <-]. by rewrite Hs, Ho, Hl, Hi.
  - cbn. intros [= <-]. rewrite Hs, Ho, lookup_insert_eq. cbn. by rewrite Z.eqb_refl.
Qed.

(** Releasing a lock. A release by the holding lease frees the lock and
    reports exactly that name as freed; a release by another lease is refused; a
    release of a lock nobody holds is refused, so repeating a release that already
    took effect reports [ErrLockNotFound]. *)
Lemma release_outcome f n i :
  let r := FSM_Apply f (NewReleaseLockCmd n i) in
  match locks f !! n with
  | None => r = fail f ErrLockNotFound
  | Some l =>
    if decide (Lock_LeaseID l = i)
    then response r = Ok RNil /\ freed r = [n] /\
         post r = mkFSM (delete n (locks f)) (leases f) (endpoints f) (fencingCounter f) (nextLeaseID f) /\
         FSM_Apply (post r) (NewReleaseLockCmd n i) = fail (post r) ErrLockNotFound
    else r = fail f ErrNotLockOwner
  end.
Proof.
  cbn zeta. unfold FSM_Apply, applyReleaseLock, fail; cbn.
  destruct (locks f !! n) as [l|]; [|done]. case_decide as Hid.
  - subst i. rewrite Z.eqb_refl. cbn. split_and!; try done. by rewrite lookup_delete_eq.
  - by apply Z.eqb_neq in Hid as ->.
Qed.

(** C32: the outcome of the two lock commands, reply and state, on every branch. An
    acquisition succeeds exactly when its lease exists and belongs to the caller and
    the lock is free or already held by that lease, whatever the lease's age; a
    success on a free lock returns the counter's next value and stores the lock under
    it, a success on a held lock returns the holder's token and stores nothing; in
    either case nothing is freed, and repeating the command has no effect and the
    same answer. Otherwise it changes nothing and is refused: with
    [ErrLeaseNotFound] when the lease does not exist, with [ErrNotLockOwner] when it
    is another owner's, with [ErrLockAlreadyHeld] when another lease holds the lock.
    A release by the holding lease deletes the lock, leaves everything else as it
    was and reports exactly that name as freed; by another lease it is refused with
    [ErrNotLockOwner], and of a lock nobody holds with [ErrLockNotFound], so that
    repeating a release that took effect reports [ErrLockNotFound]. *)
Theorem lock_command_outcomes f n o i :
  (forall t d, response (FSM_Apply f (NewAcquireLockCmd n o i)) = Ok (RAcquireLock (mkAcquireLockResponse t d)) <->
    exists s, leases f !! i = Some s /\ Lease_OwnerID s = o /\ d = Lease_TTL s /\
      match locks f !! n with
      | None => t = fencingCounter f +u64 1 /\
          post (FSM_Apply f (NewAcquireLockCmd n o i)) =
            mkFSM (<[n := mkLock n o t i]> (locks f)) (leases f) (endpoints f) t (nextLeaseID f)
      | Some l => Lock_LeaseID l = i /\ t = Lock_FencingToken l /\ post (FSM_Apply f (NewAcquireLockCmd n o i)) = f
      end) /\
  (let a := FSM_Apply f (NewAcquireLockCmd n o i) in
   match leases f !! i with
   | None => a = fail f ErrLeaseNotFound
   | Some s =>
     (Lease_OwnerID s <> o -> a = fail f ErrNotLockOwner) /\
     (Lease_OwnerID s = o -> forall l, locks f !! n = Some l -> Lock_LeaseID l <> i -> a = fail f ErrLockAlreadyHeld)
   end) /\
  (forall r, let a := FSM_Apply f (NewAcquireLockCmd n o i) in
   response a = Ok r -> freed a = [] /\ FSM_Apply (post a) (NewAcquireLockCmd n o i) = mkApplied (post a) [] (Ok r)) /\
  let r := FSM_Apply f (NewReleaseLockCmd n i) in
  match locks f !! n with
  | None => r = fail f ErrLockNotFound
  | Some l =>
    if decide (Lock_LeaseID l = i)
    then response r = Ok RNil /\ freed r = [n] /\
         post r = mkFSM (delete n (locks f)) (leases f) (endpoints f) (fencingCounter f) (nextLeaseID f) /\
         FSM_Apply (post r) (NewReleaseLockCmd n i) = fail (post r) ErrLockNotFound
    else r = fail f ErrNotLockOwner
  end.
Proof. split_and!; [intros; apply acquire_succeeds_iff|apply acquire_refusals|apply acquire_again|apply release_outcome]. Qed.
End props.

(** ** Determinism *)

Lemma expired_names_order (R1 R2 : RangeOrder) f id :
  @expired_names R1 f id ≡ₚ @expired_names R2 f id.
Proof. unfold expired_names. by rewrite (@range_perm R1), (@range_perm R2). Qed.

Lemma Apply_order (R1 R2 : RangeOrder) f cmd :
  post (@FSM_Apply R1 f cmd) = post (@FSM_Apply R2 f cmd) /\
  response (@FSM_Apply R1 f cmd) = response (@FSM_Apply R2 f cmd) /\
  freed (@FSM_Apply R1 f cmd) ≡ₚ freed (@FSM_Apply R2 f cmd).
Proof.
  unfold FSM_Apply. repeat case_match; try done.
  destruct (leases f !! ExpireLease_GetLeaseId (GetExpireLease cmd)) as [s|] eqn:Hs.
  - rewrite !(fun R => @applyExpireLease_spec R f _ s Hs). cbn.
    pose proof (expired_names_order R1 R2 f (Lease_LeaseID s)) as Hp.
    split_and!; [done| |done]. by rewrite Hp.
  - unfold applyExpireLease. by rewrite Hs.
Qed.

(** C29: replicas agree. Two replicas that apply the same log reach the same state
    and give every command the same answer, even though each visits its maps in an
    order of its own. *)
Theorem replicas_agree (R1 R2 : RangeOrder) f log cmd :
  @replay R1 f log = @replay R2 f log /\
  response (@FSM_Apply R1 (@replay R1 f log) cmd) = response (@FSM_Apply R2 (@replay R2 f log) cmd).
Proof.
  assert (@replay R1 f log = @replay R2 f log) as Heq.
  { revert f. induction log as [|c log IH]; intros f; [done|].
    rewrite !replay_cons. destruct (Apply_order R1 R2 f c) as [-> _]. apply IH. }
  split; [done|]. rewrite Heq. apply Apply_order.
Qed.

(** ** A concrete run: two clients, one lock, a handover by lease expiry *)

Definition demo_now : Time := time_Unix 1700000000 0.
Definition demo_leases : list CommandWrapper :=
  [NewCreateLeaseCmd "client-1" (10 * Second) demo_now;
   NewCreateLeaseCmd "client-2" (10 * Second) demo_now].
Definition demo_fsm : FSM := @replay map_order NewFSM demo_leases.
Definition demo_held : FSM := @replay map_order demo_fsm [NewAcquireLockCmd "my-lock" "client-1" 1].

Ltac typed_log := repeat constructor; vm_compute; split_and?; congruence.

Lemma demo_fsm_wf : fsm_wf demo_fsm.
Proof. apply replay_keeps_wf; [auto with clavis|typed_log|split; vm_compute; done]. Qed.

Lemma demo_held_wf : fsm_wf demo_held.
Proof. apply replay_keeps_wf; [apply demo_fsm_wf|typed_log|split; vm_compute; done]. Qed.

Lemma replay_wf_witness : fsm_wf (@replay map_order NewFSM demo_leases).
Proof. apply replay_wf; [typed_log|vm_compute; done]. Defined.

Lemma minted_tokens_witness :
  @minted_by map_order NewFSM (demo_leases ++ [NewAcquireLockCmd "my-lock" "client-1" 1;
    NewAcquireLockCmd "my-lock" "client-1" 1; NewAcquireLockCmd "other" "client-2" 2]) = [1; 2].
Proof.
  rewrite minted_tokens_consecutive; [vm_compute; reflexivity|typed_log|vm_compute; done].
Defined.

Lemma fencing_handover_witness : 1 <= 2 /\ (1 <> 2 -> 1 < 2).
Proof.
  apply (@fencing_handover map_order demo_fsm [NewExpireLeaseCmd 1] "my-lock"
    "client-1" 1 1 (10 * Second) "client-2" 2 2 (10 * Second)).
  - apply demo_fsm_wf.
  - typed_log.
  - vm_compute; split; congruence.
  - vm_compute; split; congruence.
  - split; vm_compute; done.
  - vm_compute; reflexivity.
  - vm_compute; reflexivity.
Defined.

(** While client 1 holds the lock, client 2 is refused it, takes and releases another
    one, tries to release this one, and an unknown lease expires. *)
Definition demo_rivalry : list CommandWrapper :=
  [NewAcquireLockCmd "my-lock" "client-2" 2; NewAcquireLockCmd "other" "client-2" 2; NewReleaseLockCmd "other" 2;
   NewReleaseLockCmd "my-lock" 2; NewExpireLeaseCmd 9].

Lemma mutual_exclusion_witness :
  @FSM_Apply map_order (@replay map_order demo_held demo_rivalry) (NewAcquireLockCmd "my-lock" "client-2" 2) =
    fail (@replay map_order demo_held demo_rivalry) ErrLockAlreadyHeld.
Proof.
  destruct (@mutual_exclusion map_order demo_held demo_rivalry "my-lock" (mkLock "my-lock" "client-1" 1 1)) as [H _].
  - apply demo_held_wf.
  - typed_log.
  - split; vm_compute; done.
  - vm_compute; reflexivity.
  - repeat constructor; intros [(?&?&?)|(?&?)]; vm_compute in *; congruence.
  - apply (H 2 (mkLease 2 "client-2" (1700000010 * Second) (10 * Second))); [cbn; lia|vm_compute; reflexivity].
Defined.

Lemma expiry_cascades_witness :
  response (@FSM_Apply map_order demo_held (NewExpireLeaseCmd 1)) =
    Ok (RExpireLease (mkExpireLeaseResponse 1)).
Proof.
  destruct (@expiry_cascades map_order demo_held 1 (mkLease 1 "client-1" (1700000010 * Second) (10 * Second)))
    as (_&_&_&_&_&_&->).
  - apply demo_held_wf.
  - vm_compute; reflexivity.
  - vm_compute; reflexivity.
Defined.

Lemma freed_exactly_witness :
  post (@FSM_Apply map_order demo_held (NewReleaseLockCmd "my-lock" 2)) = demo_held.
Proof.
  destruct (@freed_exactly map_order demo_held (NewReleaseLockCmd "my-lock" 2)) as (_&_&H).
  apply (H (Domain ErrNotLockOwner)). vm_compute; reflexivity.
Defined.

Lemma create_lease_outcome_witness :
  response (@FSM_Apply map_order demo_fsm (NewCreateLeaseCmd "c" max_int64 demo_now)) =
    Err (Domain ErrInvalidLeaseTTL).
Proof.
  pose proof (@create_lease_outcome map_order demo_fsm "c" max_int64 (1700000000 * Second)) as H.
  cbn zeta in H. unfold NewCreateLeaseCmd.
  change (UnixNano (UTC demo_now)) with (1700000000 * Second).
  rewrite H; [vm_compute; reflexivity|vm_compute; split; congruence|vm_compute; split; congruence].
Defined.
