(* ===== verification/FsmSpec.v ===== *)
(** * The sequential specification of one lock, and the state machine's refinement of it

    [lock_spec] is what a client may observe of a single named lock: the
    sequential specification the project's linearizability test checks recorded
    histories against, extended with lease expiry, and with tokens that may skip
    values because they are shared by all locks. [simulates] relates it to the
    state machine, and [lock_history_legal] shows that every history the state
    machine produces is one the specification allows. *)

From S2P Require Import Prelude GoTime Errors Domain Raftlog Fsm FsmInv.

(** Who holds the lock, and the last token handed out for it. *)
Record lockState := mkLockState { HeldBy : option Z; Token : Z }.

Inductive observation :=
| Acquired (lease token : Z)
| Busy (lease : Z)
| Released (lease : Z)
| Expired (lease : Z)
| Silent.

Inductive lock_spec (s : lockState) : observation -> lockState -> Prop :=
| spec_grant i t : HeldBy s = None -> Token s < t ->
    lock_spec s (Acquired i t) (mkLockState (Some i) t)
| spec_again i : HeldBy s = Some i -> lock_spec s (Acquired i (Token s)) s
| spec_busy i j : HeldBy s = Some j -> j <> i -> lock_spec s (Busy i) s
| spec_release i : HeldBy s = Some i -> lock_spec s (Released i) (mkLockState None (Token s))
| spec_expire i : HeldBy s = Some i -> lock_spec s (Expired i) (mkLockState None (Token s))
| spec_silent : lock_spec s Silent s.

(** A sequence of observations the specification allows. *)
Inductive legal : lockState -> list observation -> lockState -> Prop :=
| legal_nil s : legal s [] s
| legal_cons s o s' os s'' : lock_spec s o s' -> legal s' os s'' -> legal s (o :: os) s''.

Section spec.
Context {RO : RangeOrder}.

(** What the command [cmd], applied in state [f], shows of lock [n]. *)
Definition observe (n : string) (f : FSM) (cmd : CommandWrapper) : observation :=
  let r := FSM_Apply f cmd in
  if (GetType cmd =? COMMAND_TYPE_ACQUIRE_LOCK) &&
     bool_decide (AcquireLock_GetLockName (GetAcquireLock cmd) = n)
  then match response r with
       | Ok (RAcquireLock a) => Acquired (AcquireLock_GetLeaseId (GetAcquireLock cmd)) (ALR_FencingToken a)
       | Err (Domain ErrLockAlreadyHeld) => Busy (AcquireLock_GetLeaseId (GetAcquireLock cmd))
       | _ => Silent
       end
  else if (GetType cmd =? COMMAND_TYPE_RELEASE_LOCK) &&
          bool_decide (ReleaseLock_GetLockName (GetReleaseLock cmd) = n)
  then match response r with
       | Ok _ => Released (ReleaseLock_GetLeaseId (GetReleaseLock cmd))
       | Err _ => Silent
       end
  else if (GetType cmd =? COMMAND_TYPE_EXPIRE_LEASE) && bool_decide (n ∈ freed r)
  then Expired (ExpireLease_GetLeaseId (GetExpireLease cmd))
  else Silent.

Fixpoint observations (n : string) (f : FSM) (log : list CommandWrapper) : list observation :=
  match log with
  | [] => []
  | cmd :: log => observe n f cmd :: observations n (post (FSM_Apply f cmd)) log
  end.

(** The state machine and the specification agree on lock [n]. *)
Definition simulates (n : string) (f : FSM) (s : lockState) : Prop :=
  Token s <= fencingCounter f /\
  match locks f !! n with
  | Some l => s = mkLockState (Some (Lock_LeaseID l)) (Lock_FencingToken l)
  | None => HeldBy s = None
  end.

Lemma simulates_unchanged n f g s :
  locks g !! n = locks f !! n -> fencingCounter f <= fencingCounter g ->
  simulates n f s -> lock_spec s Silent s /\ simulates n g s.
Proof. unfold simulates. intros -> ? [? ?]. split; [constructor|]. split; [lia|done]. Qed.

Lemma simulates_acquire n f s cmd :
  fsm_wf f -> room f 1 -> GetType cmd = COMMAND_TYPE_ACQUIRE_LOCK -> simulates n f s ->
  exists s', lock_spec s (observe n f cmd) s' /\ simulates n (post (FSM_Apply f cmd)) s'.
Proof.
  intros Hwf [Hroom _] Hty [Htok Hsim]. pose proof (wf_counter f Hwf) as Hc.
  unfold observe, FSM_Apply. rewrite Hty. cbn.
  unfold applyAcquireLock, fail. case_bool_decide as Hn.
  - subst n. set (n := AcquireLock_GetLockName (GetAcquireLock cmd)) in *.
    destruct (leases f !! _) as [ls|]; [|exists s; by repeat constructor].
    destruct (String.eqb _ _); [|exists s; by repeat constructor]. cbn.
    destruct (locks f !! n) as [l|] eqn:Hl; cbn.
    + subst s. exists (mkLockState (Some (Lock_LeaseID l)) (Lock_FencingToken l)).
      assert (simulates n f (mkLockState (Some (Lock_LeaseID l)) (Lock_FencingToken l))) as Hs
        by (split; [done|by rewrite Hl]).
      destruct (Z.eqb_spec (Lock_LeaseID l) (AcquireLock_GetLeaseId (GetAcquireLock cmd))) as [<-|];
        (split; [|done]); [by apply (spec_again (mkLockState _ _))|by eapply spec_busy].
    + rewrite wrap_u64_id by (unfold is_u64; lia).
      eexists. split; [apply spec_grant; [done|lia]|]. split; cbn; [lia|by rewrite lookup_insert_eq].
  - exists s. apply simulates_unchanged with (f := f); [..|done];
      repeat case_match; cbn; rewrite ?lookup_insert_ne by done; try done;
      rewrite ?wrap_u64_id by (unfold is_u64; lia); lia.
Qed.

Lemma simulates_release n f s cmd :
  GetType cmd = COMMAND_TYPE_RELEASE_LOCK -> simulates n f s ->
  exists s', lock_spec s (observe n f cmd) s' /\ simulates n (post (FSM_Apply f cmd)) s'.
Proof.
  intros Hty [Htok Hsim]. unfold observe, FSM_Apply. rewrite Hty. cbn.
  unfold applyReleaseLock, fail. case_bool_decide as Hn.
  - subst n. set (n := ReleaseLock_GetLockName (GetReleaseLock cmd)) in *.
    destruct (locks f !! n) as [l|] eqn:Hl; cbn.
    + subst s. destruct (Z.eqb_spec (Lock_LeaseID l) (ReleaseLock_GetLeaseId (GetReleaseLock cmd))) as [<-|]; cbn.
      * eexists. split; [by apply spec_release|]. split; cbn; [done|by rewrite lookup_delete_eq].
      * eexists. split; [constructor|]. split; [done|by rewrite Hl].
    + exists s. split; [constructor|]. split; [done|by rewrite Hl].
  - exists s. apply simulates_unchanged with (f := f); [..|done];
      repeat case_match; cbn; by rewrite ?lookup_delete_ne by done.
Qed.

Lemma simulates_expire n f s cmd :
  fsm_wf f -> GetType cmd = COMMAND_TYPE_EXPIRE_LEASE -> simulates n f s ->
  exists s', lock_spec s (observe n f cmd) s' /\ simulates n (post (FSM_Apply f cmd)) s'.
Proof.
  intros Hwf Hty [Htok Hsim]. unfold observe, FSM_Apply. rewrite Hty. cbn.
  destruct (leases f !! ExpireLease_GetLeaseId (GetExpireLease cmd)) as [ls|] eqn:Hls.
  - rewrite (applyExpireLease_spec f _ ls Hls). cbn.
    destruct (wf_leases f Hwf _ _ Hls) as [Hid _ _ _].
    case_bool_decide as Hin.
    + apply elem_of_expired_names in Hin as (l&Hl&HlL). rewrite Hl in Hsim. subst s.
      eexists. split; [by apply spec_expire; rewrite <-Hid, <-HlL|]. split; cbn; [done|].
      destruct (filter _ _ !! n) as [l'|] eqn:Hf; [|done].
      apply map_lookup_filter_Some in Hf as [Hl' Hne]. cbn in Hne. congruence.
    + exists s. apply simulates_unchanged with (f := f); cbn; [|lia|by split].
      destruct (locks f !! n) as [l|] eqn:Hl.
      * apply map_lookup_filter_Some. split; [done|]. intros ?. apply Hin, elem_of_expired_names. eauto.
      * apply map_lookup_filter_None. by left.
  - unfold applyExpireLease. rewrite Hls. cbn. exists s. split; [constructor|done].
Qed.

(** One command: the specification makes the matching move. *)
Lemma simulation n f s cmd :
  fsm_wf f -> room f 1 -> simulates n f s ->
  exists s', lock_spec s (observe n f cmd) s' /\ simulates n (post (FSM_Apply f cmd)) s'.
Proof.
  intros Hwf Hroom Hsim.
  destruct (Z.eqb_spec (GetType cmd) COMMAND_TYPE_ACQUIRE_LOCK) as [|Ha]; [by apply simulates_acquire|].
  destruct (Z.eqb_spec (GetType cmd) COMMAND_TYPE_RELEASE_LOCK) as [|Hr]; [by apply simulates_release|].
  destruct (Z.eqb_spec (GetType cmd) COMMAND_TYPE_EXPIRE_LEASE) as [|He]; [by apply simulates_expire|].
  apply Z.eqb_neq in Ha, Hr, He. exists s. unfold observe. rewrite Ha, Hr, He. cbn [andb].
  apply simulates_unchanged with (f := f); [..|done];
    unfold FSM_Apply, applyCreateLease, applyUpsertEndpoint, applyRemoveEndpoint, fail;
    rewrite Ha, Hr, He; by repeat case_match.
Qed.

(** Every log from a state the specification matches. *)
Lemma history_legal n (log : list CommandWrapper) f s0 : Forall typed log ->
  fsm_wf f -> room f (length log) -> simulates n f s0 ->
  exists s, legal s0 (observations n f log) s /\ simulates n (replay f log) s.
Proof.
  revert f s0. induction log as [|cmd log IH]; intros f s0 Hty Hwf Hroom Hsim.
  { exists s0. split; [apply legal_nil|done]. }
  apply Forall_cons_iff in Hty as [Hcmd Hty].
  pose proof (FSM_Apply_step f cmd Hcmd) as Hst.
  destruct (room_step _ _ _ Hwf Hroom Hst) as [Hr1 Hr].
  destruct (simulation n f s0 cmd Hwf Hr1 Hsim) as (s1&Hspec&Hsim1).
  destruct (IH (post (FSM_Apply f cmd)) s1) as (s&Hleg&Hs); eauto with clavis.
  exists s. split; [|done]. by econstructor.
Qed.

Lemma new_history_legal n (log : list CommandWrapper) : Forall typed log -> Z.of_nat (length log) < two_64 - 1 ->
  exists s, legal (mkLockState None 0) (observations n NewFSM log) s /\ simulates n (replay NewFSM log) s.
Proof. intros Hty Hlen. apply history_legal; auto with clavis; [split; cbn; lia|by split]. Qed.

(** C6: for every lock name and every log of fewer than 2^64 - 1 commands, the
    sequence of results clients observe for that lock is a history the sequential
    lock specification allows: at most one holder at a time, a strictly larger
    token at every handover, the same token on re-acquisition, "busy" only while
    another lease holds the lock, releases only by the holder. *)
Theorem lock_history_legal n (log : list CommandWrapper)
    (Hty : Forall typed log) (Hlen : Z.of_nat (length log) < two_64 - 1) :
  exists s, legal (mkLockState None 0) (observations n NewFSM log) s /\
    HeldBy s = Lock_LeaseID <$> locks (replay NewFSM log) !! n.
Proof.
  destruct (new_history_legal n log Hty Hlen) as (s&Hleg&_&Hs). exists s. split; [done|].
  by destruct (locks _ !! n); [subst s|].
Qed.
End spec.

Lemma lock_history_legal_witness :
  exists s, legal (mkLockState None 0)
    [Silent; Silent; Acquired 1 1; Busy 2; Expired 1; Acquired 2 2; Released 2] s /\ HeldBy s = None.
Proof.
  destruct (@lock_history_legal map_order "a"
    [NewCreateLeaseCmd "x" Second (time_Unix 1700000000 0); NewCreateLeaseCmd "y" Second (time_Unix 1700000000 0);
     NewAcquireLockCmd "a" "x" 1; NewAcquireLockCmd "a" "y" 2; NewExpireLeaseCmd 1;
     NewAcquireLockCmd "a" "y" 2; NewReleaseLockCmd "a" 2]) as (s&H&Hh).
  - repeat constructor; vm_compute; congruence.
  - vm_compute; done.
  - exists s. split; [exact H|exact Hh].
Defined.
