(* ===== verification/Fencing.v ===== *)
(** * Fencing at the resource (examples/fencing.go and examples/failover.go)

    The two guarded resources of the examples and the replica's working loop, and
    what fencing tokens guarantee end to end: from the state machine that mints
    them to a database that compares them. *)

From S2P Require Import Prelude GoTime Errors Domain Raftlog Fsm FsmInv FsmSpec.

(** ** A row guarded by a token (fencing.go) *)

Record accountRow := mkRow { row_balance : Z; row_token : Z; row_writer : string }.
Definition zero_row : accountRow := mkRow 0 0 "".

(** The row, and whether the write was accepted. *)
Definition accountRow_write (r : accountRow) (writer : string) (token balance : Z) : accountRow * bool :=
  if token <? row_token r then (r, false) else (mkRow balance token writer, true).

(** ** A table guarded by a token (failover.go) *)

Record write := mkWrite { w_writer : string; w_token : Z }.
Record controllerTable := mkTable {
  tbl_token : Z;
  tbl_writer : string;
  tbl_at : Time;
  tbl_accepted : list write;
  tbl_rejected : Z
}.
Definition zero_table : controllerTable := mkTable 0 "" zero_Time [] 0.

Definition errStaleToken : error := Errorf "database rejected write with a stale fencing token".

Definition table_write (t : controllerTable) (writer : string) (token : Z) (now : Time) : controllerTable * option error :=
  if token <? tbl_token t
  then (mkTable (tbl_token t) (tbl_writer t) (tbl_at t) (tbl_accepted t) (tbl_rejected t + 1), Some errStaleToken)
  else (mkTable token writer now (tbl_accepted t ++ [mkWrite writer token]) (tbl_rejected t), None).

Definition lastWrite (t : controllerTable) : string * Z * Time := (tbl_writer t, tbl_token t, tbl_at t).

(** The inner loop of [summarize]: how many leading writes carry the token. *)
Fixpoint run_length (token : Z) (ws : list write) : nat :=
  match ws with
  | w :: ws => if w_token w =? token then S (run_length token ws) else 0
  | [] => 0
  end.
(** The lines printed: token, number of writes, writer. [n] bounds the number of
    lines; there are no more than writes. *)
Fixpoint summarizeFrom (n : nat) (ws : list write) : list (Z * nat * string) :=
  match n, ws with
  | S n, w :: _ =>
    let j := run_length (w_token w) ws in (w_token w, j, w_writer w) :: summarizeFrom n (drop j ws)
  | _, _ => []
  end.
Definition summarize (t : controllerTable) : list (Z * nat * string) :=
  summarizeFrom (length (tbl_accepted t)) (tbl_accepted t).

(** ** The replica's work (failover.go) *)

Inductive lead_event := LeadCtxDone | LeadSessionDone | LeadTick (now : Time).
Inductive lead_end := EndCtx | EndSession | EndStale (err : error).

(** The table, and why the loop ended, if it did. *)
Fixpoint lead (name : string) (token : Z) (db : controllerTable) (events : list lead_event)
    : controllerTable * option lead_end :=
  match events with
  | [] => (db, None)
  | LeadCtxDone :: _ => (db, Some EndCtx)
  | LeadSessionDone :: _ => (db, Some EndSession)
  | LeadTick now :: events =>
    match table_write db name token now with
    | (db, Some err) => (db, Some (EndStale err))
    | (db, None) => lead name token db events
    end
  end.

(** ** Proofs *)

(** The tokens a history hands out, with the leases they go to. *)
Definition grants (os : list observation) : list (Z * Z) :=
  omap (fun o => match o with Acquired i t => Some (i, t) | _ => None end) os.

(** Of two grants the later one has the larger token, or the same lease again. *)
Definition fenced_pair (g g' : Z * Z) : Prop := g.2 <= g'.2 /\ (g.2 = g'.2 -> g.1 = g'.1).

Lemma legal_grants s os s' : legal s os s' ->
  Forall (fun g => Token s <= g.2 /\ (g.2 = Token s -> HeldBy s = Some g.1)) (grants os) /\
  StronglySorted fenced_pair (grants os).
Proof.
  induction 1 as [s|s o s1 os s2 Hspec Hleg [Hall Hsort]]; [by repeat constructor|].
  rewrite list.Forall_forall in Hall.
  destruct Hspec as [i t Hfree Ht|i Hheld|i j Hheld Hne|i Hheld|i Hheld|]; simpl; rewrite ?Forall_cons_iff, ?list.Forall_forall.
  - split; [split; [simpl; lia|]|constructor; [done|]].
    + intros g Hg. specialize (Hall g Hg). simpl in Hall. lia.
    + apply list.Forall_forall. intros g Hg. specialize (Hall g Hg). simpl in Hall. split; simpl; [lia|].
      intros Heq. destruct Hall as [_ Hall]. specialize (Hall (eq_sym Heq)). congruence.
  - split; [split; [simpl; split; [lia|done]|done]|constructor; [done|]].
    apply list.Forall_forall. intros g Hg. destruct (Hall g Hg) as [? Hg']. split; simpl; [lia|].
    intros Heq. specialize (Hg' (eq_sym Heq)). congruence.
  - done.
  - split; [|done]. intros g Hg. destruct (Hall g Hg) as [? Hg']. simpl in *. split; [lia|]. intros Heq. by specialize (Hg' Heq).
  - split; [|done]. intros g Hg. destruct (Hall g Hg) as [? Hg']. simpl in *. split; [lia|]. intros Heq. by specialize (Hg' Heq).
  - done.
Qed.

(** A token of a lock belongs to one lease. *)
Lemma sorted_same_token gs g g' : StronglySorted fenced_pair gs -> g ∈ gs -> g' ∈ gs -> g.2 = g'.2 -> g.1 = g'.1.
Proof.
  induction 1 as [|h gs Hs IH Hall]; [set_solver|]. rewrite list.Forall_forall in Hall.
  intros [->|Hg]%elem_of_cons [->|Hg']%elem_of_cons Heq; [done| | |auto].
  - by apply (Hall g' Hg').
  - symmetry. by apply (Hall g Hg).
Qed.

(** *** Sequences of writes, whenever they arrive *)

Fixpoint write_all (t : controllerTable) (ws : list (write * Time)) : controllerTable * list (option error) :=
  match ws with
  | [] => (t, [])
  | (w, now) :: ws =>
    let '(t, err) := table_write t (w_writer w) (w_token w) now in
    let '(t, errs) := write_all t ws in (t, err :: errs)
  end.

(** The table holds the newest token it has seen, and its history is in order. *)
Definition table_ok (t : controllerTable) : Prop :=
  StronglySorted (fun a b => w_token a <= w_token b) (tbl_accepted t) /\
  Forall (fun w => w_token w <= tbl_token t) (tbl_accepted t).

Lemma StronglySorted_snoc {A} (R : A -> A -> Prop) l x :
  StronglySorted R l -> Forall (fun y => R y x) l -> StronglySorted R (l ++ [x]).
Proof.
  induction 1 as [|y l Hs IH Hall]; simpl; [by repeat constructor|].
  intros [Hy Hf]%Forall_cons_iff. constructor; [auto|]. apply Forall_app. split; [done|by apply Forall_singleton].
Qed.

Lemma table_write_ok t writer token now : table_ok t -> table_ok (table_write t writer token now).1.
Proof.
  intros [Hs Ha]. unfold table_write. destruct (Z.ltb_spec token (tbl_token t)); [done|].
  rewrite list.Forall_forall in Ha. split; simpl.
  - apply StronglySorted_snoc; [done|]. apply list.Forall_forall. intros y Hy. specialize (Ha y Hy). simpl. lia.
  - apply Forall_app. split; [|by apply Forall_singleton]. apply list.Forall_forall. intros y Hy. specialize (Ha y Hy). lia.
Qed.

Lemma write_all_ok t ws : table_ok t -> table_ok (write_all t ws).1.
Proof.
  revert t. induction ws as [|[w now] ws IH]; intros t Ht; simpl; [done|].
  pose proof (table_write_ok t (w_writer w) (w_token w) now Ht). destruct (table_write _ _ _ _) as [t1 err].
  specialize (IH t1 ltac:(done)). by destruct (write_all t1 ws).
Qed.

(** A write is accepted exactly when no earlier one carried a larger token. *)
Lemma write_all_accepts t ws k w now : ws !! k = Some (w, now) ->
  (write_all t ws).2 !! k = Some None <->
  tbl_token t <= w_token w /\ forall j w' now', (j < k)%nat -> ws !! j = Some (w', now') -> w_token w' <= w_token w.
Proof.
  revert t k. induction ws as [|[w0 now0] ws IH]; intros t k; [done|]. simpl.
  unfold table_write. destruct (Z.ltb_spec (w_token w0) (tbl_token t)) as [Hlt|Hge];
    (match goal with |- context [write_all ?t1 ws] => specialize (IH t1); destruct (write_all t1 ws) as [t2 errs] end);
    destruct k as [|k]; simpl in *.
  - intros [= -> ->]. split; [done|]. lia.
  - intros Hk. rewrite (IH k Hk). split.
    + intros [H1 H2]. split; [done|]. intros [|j] w' now' Hj Hw'; simplify_eq/=; [lia|]. apply (H2 j w' now'); [lia|done].
    + intros [H1 H2]. split; [done|]. intros j w' now' Hj Hw'. apply (H2 (S j) w' now'); [lia|done].
  - intros [= -> ->]. split; [|done]. intros _. split; [done|]. intros j ? ? ?. lia.
  - intros Hk. rewrite (IH k Hk). split.
    + intros [H1 H2]. split; [lia|]. intros [|j] w' now' Hj Hw'; simplify_eq/=; [lia|]. apply (H2 j w' now'); [lia|done].
    + intros [H1 H2]. split; [apply (H2 0%nat w0 now0); [lia|done]|]. intros j w' now' Hj Hw'. apply (H2 (S j) w' now'); [lia|done].
Qed.

(** Only writes that were made are recorded. *)
Lemma write_all_accepted t ws w : w ∈ tbl_accepted (write_all t ws).1 -> w ∈ tbl_accepted t \/ w ∈ ws.*1.
Proof.
  revert t. induction ws as [|[w0 now0] ws IH]; intros t; simpl; [by left|].
  unfold table_write. destruct (_ <? _);
    (match goal with |- context [write_all ?t1 ws] => specialize (IH t1); destruct (write_all t1 ws) as [t2 errs] end);
    simpl in *; intros Hw; destruct (IH Hw) as [Hin|Hin]; try set_solver.
  apply elem_of_app in Hin as [?|Hin]; [by left|]. apply list_elem_of_singleton in Hin as ->. destruct w0. simpl. set_solver.
Qed.

(** *** The summary *)

(** The writes a printed line stands for. *)
Definition expand (line : Z * nat * string) : list write := replicate line.1.2 (mkWrite line.2 line.1.1).

Lemma run_length_spec tok ws : exists rest, ws = take (run_length tok ws) ws ++ rest /\ drop (run_length tok ws) ws = rest /\
  Forall (fun w => w_token w = tok) (take (run_length tok ws) ws) /\
  match rest with w :: _ => w_token w <> tok | [] => True end.
Proof.
  exists (drop (run_length tok ws) ws). split; [by rewrite take_drop|]. split; [done|].
  induction ws as [|w ws [IH1 IH2]]; simpl; [by repeat constructor|].
  destruct (Z.eqb_spec (w_token w) tok) as [Hw|Hw]; simpl; [|by split; [constructor|]].
  split; [by constructor|done].
Qed.

Lemma run_length_le tok ws : (run_length tok ws <= length ws)%nat.
Proof. induction ws as [|w ws IH]; simpl; [done|]. destruct (_ =? _); lia. Qed.

Lemma summarizeFrom_spec n ws : (length ws <= n)%nat ->
  StronglySorted (fun a b => w_token a <= w_token b) ws ->
  (forall a b, a ∈ ws -> b ∈ ws -> w_token a = w_token b -> w_writer a = w_writer b) ->
  mjoin (expand <$> summarizeFrom n ws) = ws /\
  StronglySorted Z.lt ((fun line => line.1.1) <$> summarizeFrom n ws) /\
  Forall (fun line => exists w, w ∈ ws /\ w_token w = line.1.1) (summarizeFrom n ws).
Proof.
  revert ws. induction n as [|n IH]; intros [|w ws] Hn Hs Hone; simpl in Hn |- *;
    try (split_and!; by repeat constructor); [lia|].
  rewrite Z.eqb_refl. cbn [drop].
  destruct (run_length_spec (w_token w) ws) as (rest&Hsplit&Hdrop&Hrun&Hhead). rewrite Hdrop.
  set (j := run_length (w_token w) ws) in *. set (run := take j ws) in *.
  assert (Hlen : (length rest <= n)%nat) by (rewrite <- Hdrop, length_drop; lia).
  apply StronglySorted_inv in Hs as [Hs Hall]. rewrite list.Forall_forall in Hall.
  rewrite Hsplit in Hs. apply StronglySorted_app_1_r in Hs as Hsr.
  destruct (IH rest Hlen Hsr) as (Hj&Hst&Hin).
  { intros a b Ha Hb. apply Hone; rewrite Hsplit; set_solver. }
  assert (Hgt : forall x, x ∈ rest -> w_token w < w_token x).
  { intros x Hx. destruct rest as [|y rest]; [set_solver|].
    assert (w_token w <= w_token y) by (apply Hall; rewrite Hsplit; set_solver).
    apply elem_of_cons in Hx as [->|Hx]; [lia|].
    apply StronglySorted_inv in Hsr as [_ Hy]. rewrite list.Forall_forall in Hy. specialize (Hy x Hx). simpl in Hy. lia. }
  split_and!.
  - change (expand (w_token w, S j, w_writer w) ++ mjoin (expand <$> summarizeFrom n rest) = w :: ws).
    rewrite Hj, Hsplit. unfold expand. simpl. f_equal; [by destruct w|]. f_equal.
    assert (Hjr : length run = j).
    { unfold run. rewrite length_take. pose proof (run_length_le (w_token w) ws). fold j in H. lia. }
    rewrite <- Hjr. apply replicate_as_elem_of. split; [done|]. intros x Hx. rewrite list.Forall_forall in Hrun. specialize (Hrun x Hx).
    destruct x as [xw xt]. simpl in *. f_equal; [|done].
    apply (Hone (mkWrite xw xt) w); simpl; [|set_solver|done]. rewrite Hsplit. set_solver.
  - constructor; [done|]. apply list.Forall_forall. intros t [line [-> Hline]]%list_elem_of_fmap. simpl.
    rewrite list.Forall_forall in Hin. destruct (Hin line Hline) as (x&Hx&<-). auto.
  - constructor; [exists w; split; [set_solver|done]|]. rewrite list.Forall_forall in Hin |- *.
    intros line Hline. destruct (Hin line Hline) as (x&Hx&?). exists x. split; [|done]. rewrite Hsplit. set_solver.
Qed.

(** ** End to end *)

Section end_to_end.
Context {RO : RangeOrder}.

(** C7: stale holders cannot write. Take any log of the state machine, and let the
    clients that acquired a lock in it write to the table with their tokens,
    in any order and arbitrarily late. A write is accepted exactly when no write
    with a larger token came before it; the accepted history has its tokens in
    order and one writer for each, so that once a later holder has written, every
    write of an earlier one is rejected; and the summary lists each term once, in
    strictly increasing token order, with all of its writes. *)
Theorem stale_writers_are_fenced (n : string) (log : list CommandWrapper) (name : Z -> string) (ws : list (Z * Z * Time))
    (Hty : Forall typed log) (Hlen : Z.of_nat (length log) < two_64 - 1)
    (Hgranted : Forall (fun w => w.1 ∈ grants (observations n NewFSM log)) ws) :
  let writes := (fun w => (mkWrite (name w.1.1) w.1.2, w.2)) <$> ws in
  let '(t, errs) := write_all zero_table writes in
  (forall k i tok now, ws !! k = Some (i, tok, now) ->
     errs !! k = Some None <-> forall j i' tok' now', (j < k)%nat -> ws !! j = Some (i', tok', now') -> tok' <= tok) /\
  StronglySorted (fun a b => w_token a <= w_token b) (tbl_accepted t) /\
  (forall a b, a ∈ tbl_accepted t -> b ∈ tbl_accepted t -> w_token a = w_token b -> w_writer a = w_writer b) /\
  mjoin (expand <$> summarize t) = tbl_accepted t /\
  StronglySorted Z.lt ((fun line => line.1.1) <$> summarize t).
Proof.
  destruct (new_history_legal n log Hty Hlen) as (s&Hleg&_).
  apply legal_grants in Hleg as [Hpos Hsort]. rewrite list.Forall_forall in Hpos. rewrite list.Forall_forall in Hgranted.
  set (writes := (fun w : Z * Z * Time => (mkWrite (name w.1.1) w.1.2, w.2)) <$> ws). simpl.
  pose proof (write_all_accepts zero_table writes) as Hacc.
  pose proof (write_all_accepted zero_table writes) as Hrec.
  pose proof (write_all_ok zero_table writes ltac:(by repeat constructor)) as [Hs _].
  destruct (write_all zero_table writes) as [t errs]. simpl in *.
  assert (Hone : forall a b, a ∈ tbl_accepted t -> b ∈ tbl_accepted t -> w_token a = w_token b -> w_writer a = w_writer b).
  { assert (Hfrom : forall a, a ∈ tbl_accepted t -> exists g, g ∈ grants (observations n NewFSM log) /\ a = mkWrite (name g.1) g.2).
    { intros a Ha. destruct (Hrec a Ha) as [Hx|Hx]; [set_solver|]. unfold writes in Hx. rewrite <- list_fmap_compose in Hx.
      apply list_elem_of_fmap in Hx as (w&->&Hw). exists w.1. split; [by apply Hgranted|done]. }
    intros a b Ha Hb. destruct (Hfrom a Ha) as (ga&Hga&->), (Hfrom b Hb) as (gb&Hgb&->). simpl. intros Heq.
    f_equal. by eapply sorted_same_token. }
  destruct (summarizeFrom_spec (length (tbl_accepted t)) (tbl_accepted t) (le_n _) Hs Hone) as (Hj&Hst&_).
  split_and!; [|done..].
  intros k i tok now Hk. assert (Hwk : writes !! k = Some (mkWrite (name i) tok, now)) by (unfold writes; by rewrite list_lookup_fmap, Hk).
  rewrite (Hacc k _ _ Hwk). simpl.
  assert (0 <= tok). { apply (Hpos (i, tok)). apply (Hgranted (i, tok, now)). by apply (list_elem_of_lookup_2 _ k). }
  split.
  - intros [_ Hle] j i' tok' now' Hj' Hw'. apply (Hle j (mkWrite (name i') tok') now'); [done|]. unfold writes. by rewrite list_lookup_fmap, Hw'.
  - intros H'. split; [done|]. intros j w' now' Hj' Hw'. unfold writes in Hw'. rewrite list_lookup_fmap in Hw'.
    destruct (ws !! j) as [[[i' tok'] now'']|] eqn:Ej; [|done]. simplify_eq/=. by apply (H' j i' tok' now').
Qed.
End end_to_end.

(** ** The replica and the row *)

(** A replica stops at its first rejected write: what it leaves in the table is the
    table before with its own accepted writes added, all with its token, and it
    ends as stale exactly when a newer token had been accepted. *)
Lemma lead_writes name token db events :
  let '(db', e) := lead name token db events in
  (exists k, tbl_accepted db' = tbl_accepted db ++ replicate k (mkWrite name token)) /\
  (forall err, e = Some (EndStale err) -> err = errStaleToken /\ token < tbl_token db /\
     tbl_accepted db' = tbl_accepted db /\ tbl_token db' = tbl_token db).
Proof.
  revert db. induction events as [|[| |now] events IH]; intros db; simpl;
    try (split; [exists 0%nat; by rewrite app_nil_r|done]).
  unfold table_write. destruct (Z.ltb_spec token (tbl_token db)).
  - simpl. split; [exists 0%nat; by rewrite app_nil_r|]. intros err [= <-]. done.
  - match goal with |- context [lead name token ?t events] => specialize (IH t); destruct (lead name token t events) as [db' e] end.
    simpl in IH. destruct IH as [[k Hk] Hst]. split.
    + exists (S k). rewrite Hk. by rewrite <- app_assoc.
    + intros err He. destruct (Hst err He) as (_&?&_). lia.
Qed.

Fixpoint row_writes (r : accountRow) (ws : list (string * Z * Z)) : accountRow :=
  match ws with [] => r | (writer, token, balance) :: ws => row_writes (accountRow_write r writer token balance).1 ws end.

(** The row's token never goes down, and a rejected write leaves the row alone. *)
Lemma row_token_monotone r ws : row_token r <= row_token (row_writes r ws).
Proof.
  revert r. induction ws as [|[[w t] b] ws IH]; intros r; simpl; [done|].
  etransitivity; [|apply IH]. unfold accountRow_write. destruct (Z.ltb_spec t (row_token r)); simpl; lia.
Qed.
Lemma row_rejects_stale r ws writer token balance : token < row_token r ->
  accountRow_write (row_writes r ws) writer token balance = (row_writes r ws, false).
Proof.
  intros Ht. pose proof (row_token_monotone r ws). unfold accountRow_write.
  by destruct (Z.ltb_spec token (row_token (row_writes r ws))); [|lia].
Qed.

(** The run of examples/fencing.go: worker A's late write does not go through. *)
Example fencing_demo :
  row_writes zero_row [("worker-a", 1, 100); ("worker-b", 2, 250); ("worker-a", 1, 90)]%string = mkRow 250 2 "worker-b".
Proof. reflexivity. Qed.

Definition demo_log : list CommandWrapper :=
  [NewCreateLeaseCmd "x" Second (time_Unix 1700000000 0); NewCreateLeaseCmd "y" Second (time_Unix 1700000000 0);
   NewAcquireLockCmd "a" "x" 1; NewExpireLeaseCmd 1; NewAcquireLockCmd "a" "y" 2].
Definition demo_name (i : Z) : string := if i =? 1 then "x" else "y".

Lemma stale_writers_are_fenced_witness :
  let '(t, errs) := write_all zero_table
    [(mkWrite "x" 1, zero_Time); (mkWrite "y" 2, zero_Time); (mkWrite "x" 1, zero_Time)] in
  errs !! 2%nat <> Some None /\ StronglySorted Z.lt ((fun line => line.1.1) <$> summarize t).
Proof.
  pose proof (@stale_writers_are_fenced map_order "a" demo_log demo_name
    [(1, 1, zero_Time); (2, 2, zero_Time); (1, 1, zero_Time)]) as H.
  destruct H as (Hacc&_&_&_&Hst).
  - repeat constructor; vm_compute; congruence.
  - by vm_compute.
  - assert (Hg : grants (@observations map_order "a" NewFSM demo_log) = [(1, 1); (2, 2)]) by (by vm_compute).
    rewrite Hg. repeat constructor; simpl; set_solver.
  - split; [|exact Hst]. intros Hx. apply (Hacc 2%nat 1 1 zero_Time eq_refl) with (j := 1%nat) (i' := 2) (tok' := 2) (now' := zero_Time) in Hx;
      [lia|lia|done].
Defined.
