(* ===== verification/LeaseTracker.v ===== *)
(** * The leader's view of lease liveness (internal/cluster/lease.go, leaseTracker)

    Renewals never reach the Raft log: the leader keeps them here and alone decides
    when a lease is dead. Each method runs under [t.mu], so it is one step. The
    tracker's maps are nil until the first term is seen; reading a nil map gives
    the zero value, and writing to one panics, which is [None] here. *)

From S2P Require Import Prelude GoTime Errors Domain.

Record leaseTracker := mkTracker {
  tr_term : Z;                           (* uint64 *)
  leaderSince : Time;
  renewedAt : option (gmap Z Time);
  expiring : option (gmap Z bool)
}.

(** The zero value, which a node starts with. *)
Definition zero_tracker : leaseTracker := mkTracker 0 zero_Time None None.

(** [t.renewedAt[id]] and [t.expiring[id]] *)
Definition renewedAt_of (t : leaseTracker) (id : Z) : Time :=
  default zero_Time (renewedAt t ≫= fun m => m !! id).
Definition expiring_of (t : leaseTracker) (id : Z) : bool :=
  default false (expiring t ≫= fun m => m !! id).

Definition syncTerm (t : leaseTracker) (term : Z) (now : Time) : leaseTracker :=
  if term =? tr_term t then t
  else mkTracker term now (Some ∅) (Some ∅).

(** One pass of the loop over [{t.leaderSince, t.renewedAt[lease.LeaseID]}]. *)
Definition extend (ttl : Duration) (deadline from : Time) : Time :=
  let candidate := Add from ttl in
  if negb (IsZero from) && After candidate deadline then candidate else deadline.

Definition deadline (t : leaseTracker) (lease : Lease) : Time :=
  foldl (extend (Lease_TTL lease)) (ExpiresAt lease)
    [leaderSince t; renewedAt_of t (Lease_LeaseID lease)].

(** [None]: a write to a nil map, which panics. *)
Definition renew (t : leaseTracker) (term : Z) (now : Time) (lease : Lease)
    : option (leaseTracker * option error) :=
  let t := syncTerm t term now in
  if expiring_of t (Lease_LeaseID lease) || negb (Before now (deadline t lease))
  then Some (t, Some (Domain ErrLeaseExpired))
  else m ← renewedAt t;
       Some (mkTracker (tr_term t) (leaderSince t) (Some (<[Lease_LeaseID lease := now]> m)) (expiring t), None).

(** The loop of [claimExpired] over the leases still to visit. *)
Fixpoint claimLoop (t : leaseTracker) (now : Time) (leases : list Lease) (expired : list Z)
    : option (leaseTracker * list Z) :=
  match leases with
  | [] => Some (t, expired)
  | lease :: rest =>
    if negb (expiring_of t (Lease_LeaseID lease)) && negb (Before now (deadline t lease))
    then m ← expiring t;
         claimLoop (mkTracker (tr_term t) (leaderSince t) (renewedAt t)
                              (Some (<[Lease_LeaseID lease := true]> m)))
                   now rest (expired ++ [Lease_LeaseID lease])
    else claimLoop t now rest expired
  end.

Definition claimExpired (t : leaseTracker) (term : Z) (now : Time) (leases : list Lease)
    : option (leaseTracker * list Z) :=
  claimLoop (syncTerm t term now) now leases [].

Definition alive (t : leaseTracker) (term : Z) (now : Time) (lease : Lease) : leaseTracker * bool :=
  let t := syncTerm t term now in
  (t, negb (expiring_of t (Lease_LeaseID lease)) && Before now (deadline t lease)).

Definition finishExpiry (t : leaseTracker) (leaseID : Z) (committed : bool) : leaseTracker :=
  mkTracker (tr_term t) (leaderSince t)
    (if committed then delete leaseID <$> renewedAt t else renewedAt t)
    (delete leaseID <$> expiring t).

Global Arguments deadline : simpl never.
Global Arguments renewedAt_of : simpl never.
Global Arguments expiring_of : simpl never.
Global Arguments syncTerm : simpl never.
