(* ===== verification/TrackerProps.v ===== *)
(** * Properties of the lease tracker

    What the leader promises about renewals: the deadline is the one the design
    states, a claimed lease cannot be renewed, an accepted renewal protects the
    lease for a full TTL, and a new leadership term starts with a full TTL of
    grace for every lease. Runs of the tracker within one term are sequences of
    [tstep]s, in whatever order the goroutines obtained the mutex. *)

From S2P Require Import Prelude GoTime Errors Domain LeaseTracker.

(** ** Well-formed trackers of one node *)

Record tracker_wf (off : Z) (t : leaseTracker) : Prop := {
  tr_maps : tr_term t <> 0 -> is_Some (renewedAt t) /\ is_Some (expiring t);
  tr_since : lockstep off (leaderSince t);
  tr_renewed : forall id, lockstep off (renewedAt_of t id)
}.

Lemma zero_tracker_wf off : tracker_wf off zero_tracker.
Proof. split; cbn; [done|done|intros; done]. Qed.

Lemma syncTerm_same t term now : tr_term t = term -> syncTerm t term now = t.
Proof. intros <-. unfold syncTerm. by rewrite Z.eqb_refl. Qed.

Lemma syncTerm_term t term now : tr_term (syncTerm t term now) = term.
Proof. unfold syncTerm. case_match; to_prop; done. Qed.

Lemma syncTerm_wf off t term now :
  tracker_wf off t -> lockstep off now -> tracker_wf off (syncTerm t term now).
Proof.
  intros Hwf Hnow. unfold syncTerm. case_match; [done|].
  split; cbn; eauto. intros id. unfold renewedAt_of; cbn. by rewrite lookup_empty.
Qed.

(** ** The deadline *)

Lemma extend_wall off ttl d from :
  lockstep off d -> lockstep off from ->
  lockstep off (extend ttl d from) /\
  wall (extend ttl d from) = if IsZero from then wall d else Z.max (wall d) (wall from + ttl).
Proof.
  intros Hd Hf. unfold extend, After.
  rewrite (Before_lockstep off) by auto with clavis.
  destruct (IsZero from); cbn [negb andb]; [done|].
  destruct (Z.ltb_spec (wall d) (wall (Add from ttl))); split; auto with clavis; cbn in *; lia.
Qed.

(** [from + ttl] when [from] is set, and [base] when it is the zero time. *)
Definition from_or (base : Z) (ttl : Duration) (from : Time) : Z :=
  if IsZero from then base else wall from + ttl.

Lemma deadline_wall off t s :
  tracker_wf off t ->
  lockstep off (deadline t s) /\
  wall (deadline t s) =
    Z.max (ExpiresAtUnixNano s)
      (Z.max (from_or (ExpiresAtUnixNano s) (Lease_TTL s) (leaderSince t))
             (from_or (ExpiresAtUnixNano s) (Lease_TTL s) (renewedAt_of t (Lease_LeaseID s)))).
Proof.
  intros [_ Hs Hr]. unfold deadline, from_or. cbn [foldl].
  destruct (extend_wall off (Lease_TTL s) (ExpiresAt s) (leaderSince t)) as [Hl1 Hw1]; [done|done|].
  destruct (extend_wall off (Lease_TTL s) _ (renewedAt_of t (Lease_LeaseID s)) Hl1) as [Hl2 Hw2]; [done|].
  split; [done|]. rewrite Hw2, Hw1.
  change (wall (ExpiresAt s)) with (0 * Second + ExpiresAtUnixNano s).
  destruct (IsZero _), (IsZero _); lia.
Qed.

Lemma Before_deadline off t s now :
  tracker_wf off t -> lockstep off now ->
  Before now (deadline t s) = (wall now <? wall (deadline t s)).
Proof. intros Hwf Hn. apply (Before_lockstep off); [done|]. by apply deadline_wall. Qed.

(** A deadline is never before any of its three sources. *)
Lemma deadline_ge off t s :
  tracker_wf off t ->
  ExpiresAtUnixNano s <= wall (deadline t s) /\
  (IsZero (leaderSince t) = false -> wall (leaderSince t) + Lease_TTL s <= wall (deadline t s)) /\
  (IsZero (renewedAt_of t (Lease_LeaseID s)) = false ->
    wall (renewedAt_of t (Lease_LeaseID s)) + Lease_TTL s <= wall (deadline t s)).
Proof.
  intros Hwf. destruct (deadline_wall off t s Hwf) as [_ ->]. unfold from_or.
  split_and!; intros; repeat case_match; try done; lia.
Qed.

(** ** The operations *)

Lemma renew_cases off t term now s t' res :
  tracker_wf off t -> lockstep off now -> renew t term now s = Some (t', res) ->
  let t0 := syncTerm t term now in
  (res = Some (Domain ErrLeaseExpired) /\ t' = t0 /\
    (expiring_of t0 (Lease_LeaseID s) = true \/ wall (deadline t0 s) <= wall now)) \/
  (res = None /\ expiring_of t0 (Lease_LeaseID s) = false /\ wall now < wall (deadline t0 s) /\
    exists m, renewedAt t0 = Some m /\
      t' = mkTracker (tr_term t0) (leaderSince t0) (Some (<[Lease_LeaseID s := now]> m)) (expiring t0)).
Proof.
  intros Hwf Hn. cbn zeta. unfold renew.
  rewrite (Before_deadline off) by eauto using syncTerm_wf.
  set (t0 := syncTerm t term now). destruct (expiring_of t0 (Lease_LeaseID s)) eqn:He; cbn.
  - intros [= <- <-]. left. eauto.
  - destruct (Z.ltb_spec (wall now) (wall (deadline t0 s))); cbn.
    + destruct (renewedAt t0) as [m|] eqn:Hm; simpl; intros ?; simplify_eq/=. right.
      split_and!; try done. by exists m.
    + intros [= <- <-]. left. eauto.
Qed.

Lemma renewedAt_of_insert t m s now id :
  renewedAt_of (mkTracker (tr_term t) (leaderSince t) (Some (<[s := now]> m)) (expiring t)) id =
  if decide (s = id) then now else default zero_Time (m !! id).
Proof. unfold renewedAt_of; cbn. rewrite lookup_insert. by case_decide. Qed.

Lemma renew_wf off t term now s t' res :
  tracker_wf off t -> lockstep off now -> renew t term now s = Some (t', res) ->
  tracker_wf off t' /\ tr_term t' = term.
Proof.
  intros Hwf Hn Hr. pose proof (syncTerm_wf off t term now Hwf Hn) as Hwf0.
  destruct (renew_cases off t term now s t' res Hwf Hn Hr) as [(_&->&_)|(_&_&_&m&Hm&->)];
    [split; [done|apply syncTerm_term]|].
  split; [|apply syncTerm_term]. destruct Hwf0 as [Hmaps Hs Hrn]. split; cbn; [|done|].
  - intros Ht. destruct (Hmaps Ht). eauto.
  - intros id. rewrite renewedAt_of_insert. case_decide; [done|]. specialize (Hrn id).
    unfold renewedAt_of in Hrn. by rewrite Hm in Hrn.
Qed.

(** Claiming leaves everything but the [expiring] marks alone. *)
Definition mark (t : leaseTracker) (id : Z) (m : gmap Z bool) : leaseTracker :=
  mkTracker (tr_term t) (leaderSince t) (renewedAt t) (Some (<[id := true]> m)).

Lemma deadline_mark t id m s : deadline (mark t id m) s = deadline t s.
Proof. done. Qed.

Lemma expiring_mark t id m i :
  expiring t = Some m -> expiring_of (mark t id m) i = expiring_of t i || bool_decide (i = id).
Proof.
  intros Hm. unfold expiring_of, mark; cbn. rewrite Hm. simpl. rewrite lookup_insert.
  case_decide as Hd; case_bool_decide; subst; try done; simpl; by rewrite ?orb_true_r, ?orb_false_r.
Qed.

Lemma mark_wf off t id m : tracker_wf off t -> tracker_wf off (mark t id m).
Proof. intros [Hm Hs Hr]. split; cbn; [|done|done]. intros Ht. destruct (Hm Ht). eauto. Qed.

Lemma claimLoop_spec off t now ls acc :
  tracker_wf off t -> lockstep off now -> is_Some (expiring t) ->
  exists t' new, claimLoop t now ls acc = Some (t', acc ++ new) /\
    tr_term t' = tr_term t /\ leaderSince t' = leaderSince t /\ renewedAt t' = renewedAt t /\
    tracker_wf off t' /\
    (forall id, expiring_of t' id = expiring_of t id || bool_decide (id ∈ new)) /\
    NoDup new /\
    (forall id, id ∈ new <-> expiring_of t id = false /\
      exists s, s ∈ ls /\ Lease_LeaseID s = id /\ wall (deadline t s) <= wall now).
Proof.
  revert t acc. induction ls as [|s ls IH]; intros t acc Hwf Hn [m Hm]; simpl.
  { exists t, []. rewrite app_nil_r. split_and!; try done; [|constructor|].
    - intros id. rewrite bool_decide_eq_false_2 by set_solver. by rewrite orb_false_r.
    - intros id. split; [set_solver|]. intros (_&?&?&_). set_solver. }
  rewrite (Before_deadline off) by done.
  destruct (negb (expiring_of t (Lease_LeaseID s)) && negb (wall now <? wall (deadline t s))) eqn:Hc.
  - apply andb_true_iff in Hc as [He%negb_true_iff Hd%negb_true_iff%Z.ltb_ge].
    rewrite Hm. simpl. fold (mark t (Lease_LeaseID s) m).
    destruct (IH (mark t (Lease_LeaseID s) m) (acc ++ [Lease_LeaseID s])) as (t'&new&->&?&?&?&?&Hexp&Hnd&Hin);
      [by apply mark_wf|done|by eexists|].
    exists t', (Lease_LeaseID s :: new). rewrite <-app_assoc. split_and!; try done.
    + intros id. rewrite Hexp, expiring_mark by done. rewrite <-orb_assoc. f_equal.
      rewrite <-bool_decide_or. by apply bool_decide_ext; rewrite elem_of_cons.
    + apply NoDup_cons_2; [|done]. rewrite Hin, expiring_mark by done.
      rewrite bool_decide_eq_true_2 by done. rewrite orb_true_r. by intros [? _].
    + intros id. rewrite elem_of_cons, Hin, expiring_mark by done. setoid_rewrite deadline_mark.
      rewrite orb_false_iff, bool_decide_eq_false. split.
      * intros [->|[[? ?] (s'&?&?&?)]]; [split; [done|]; exists s; set_solver|].
        split; [done|]. exists s'. set_solver.
      * intros [Hf (s'&[->|Hs']%elem_of_cons&<-&?)]; [by left|].
        destruct (decide (Lease_LeaseID s' = Lease_LeaseID s)); [by left|right]. eauto 10.
  - destruct (IH t acc) as (t'&new&->&?&?&?&?&Hexp&Hnd&Hin); [done|done|by eexists|].
    exists t', new. split_and!; try done. intros id. rewrite Hin. split.
    + intros [? (s'&?&?&?)]. split; [done|]. exists s'. set_solver.
    + intros [Hf (s'&[->|Hs']%elem_of_cons&<-&Hd)]; [|by eauto].
      rewrite Hf in Hc. simpl in Hc. apply negb_false_iff, Z.ltb_lt in Hc. lia.
Qed.

Lemma finishExpiry_spec off t id c :
  tracker_wf off t ->
  tracker_wf off (finishExpiry t id c) /\ tr_term (finishExpiry t id c) = tr_term t /\
  leaderSince (finishExpiry t id c) = leaderSince t /\
  (forall i, expiring_of (finishExpiry t id c) i = if decide (i = id) then false else expiring_of t i) /\
  (forall i, renewedAt_of (finishExpiry t id c) i =
     if decide (c = true /\ i = id) then zero_Time else renewedAt_of t i).
Proof.
  intros [Hm Hs Hr].
  assert (forall i, renewedAt_of (finishExpiry t id c) i =
    if decide (c = true /\ i = id) then zero_Time else renewedAt_of t i) as Hren.
  { intros i. unfold renewedAt_of, finishExpiry; cbn [renewedAt].
    destruct (decide (c = true /\ i = id)) as [[-> ->]|Hne]; destruct (renewedAt t) as [m|]; simpl; try done.
    - by rewrite lookup_delete_eq.
    - destruct c; simpl; [|done]. rewrite lookup_delete_ne; [done|]. intros ->. by destruct Hne.
    - by destruct c. }
  split_and!; try done.
  - split; cbn; [|done|].
    + intros Ht. destruct (Hm Ht) as [[? ->] [? ->]]. destruct c; simpl; eauto.
    + intros i. rewrite Hren. destruct (decide (c = true /\ i = id)); [apply lockstep_zero|apply Hr].
  - intros i. unfold expiring_of, finishExpiry; cbn [expiring].
    destruct (decide (i = id)) as [->|]; destruct (expiring t) as [m|]; simpl; try done.
    + by rewrite lookup_delete_eq.
    + by rewrite lookup_delete_ne.
Qed.

Lemma deadline_ext t t' s :
  leaderSince t' = leaderSince t ->
  renewedAt_of t' (Lease_LeaseID s) = renewedAt_of t (Lease_LeaseID s) ->
  deadline t' s = deadline t s.
Proof. unfold deadline. by intros -> ->. Qed.

(** ** Runs within one leadership term *)

(** What one critical section did: the arguments it was called with and its
    result. [TFinish] is called by the expiry loop, for a lease it has claimed. *)
Inductive tevent :=
| TRenew (now : Time) (s : Lease) (accepted : bool)
| TClaim (now : Time) (ls : list Lease) (claimed : list Z)
| TAlive (now : Time) (s : Lease) (result : bool)
| TFinish (id : Z) (committed : bool).

Inductive tstep (term : Z) (t : leaseTracker) : tevent -> leaseTracker -> Prop :=
| tstep_renew now s t' res :
    renew t term now s = Some (t', res) ->
    tstep term t (TRenew now s (match res with Some _ => false | None => true end)) t'
| tstep_claim now ls t' ids :
    claimExpired t term now ls = Some (t', ids) -> tstep term t (TClaim now ls ids) t'
| tstep_alive now s t' b :
    alive t term now s = (t', b) -> tstep term t (TAlive now s b) t'
| tstep_finish id c :
    expiring_of t id = true -> tstep term t (TFinish id c) (finishExpiry t id c).

Inductive truns (term : Z) : leaseTracker -> list tevent -> leaseTracker -> Prop :=
| truns_nil t : truns term t [] t
| truns_cons t e t1 es t2 : tstep term t e t1 -> truns term t1 es t2 -> truns term t (e :: es) t2.

Definition ev_time (e : tevent) : option Time :=
  match e with TRenew n _ _ | TClaim n _ _ | TAlive n _ _ => Some n | TFinish _ _ => None end.
Definition ev_leases (e : tevent) : list Lease :=
  match e with TRenew _ s _ | TAlive _ s _ => [s] | TClaim _ ls _ => ls | TFinish _ _ => [] end.

(** The event's clock reading is one of this node's, not before [lo] and before
    [hi] when a bound is given; its leases are copies of the replicated records,
    of which there is one per id. *)
Record ev_ok (off : Z) (lease_of : Z -> Lease) (lo : Z) (hi : option Z) (e : tevent) : Prop := {
  ev_clock : forall n, ev_time e = Some n ->
    lockstep off n /\ lo <= wall n /\ forall h, hi = Some h -> wall n < h;
  ev_copies : forall s, s ∈ ev_leases e -> s = lease_of (Lease_LeaseID s)
}.

(** Rule induction over a run: a predicate kept by every step holds at every
    point, so what it says of each event holds of every event. *)
Lemma truns_ind_inv term (I : leaseTracker -> Prop) (Q ok : tevent -> Prop) t es t' :
  (forall t e t1, I t -> ok e -> tstep term t e t1 -> I t1 /\ Q e) ->
  truns term t es t' -> I t -> Forall ok es -> I t' /\ Forall Q es.
Proof.
  intros Hpres. induction 1 as [|t e t1 es t2 Hst Hrun IH]; intros HI Hok; [by split|].
  apply Forall_cons_iff in Hok as [He Hes]. destruct (Hpres _ _ _ HI He Hst) as [HI1 HQ].
  destruct (IH HI1 Hes). eauto.
Qed.

Section term.
Variables (off term : Z) (lease_of : Z -> Lease) (id : Z).
Hypothesis Hterm : term <> 0.
Hypothesis Hid : Lease_LeaseID (lease_of id) = id.

(** The tracker belongs to this term. *)
Definition in_term (t : leaseTracker) : Prop := tracker_wf off t /\ tr_term t = term.

Lemma in_term_step t e t1 lo hi :
  in_term t -> ev_ok off lease_of lo hi e -> tstep term t e t1 -> in_term t1.
Proof.
  intros [Hwf Ht] [Hclk _] Hst. destruct (tr_maps off t Hwf) as [_ He]; [congruence|].
  destruct Hst as [now s t' res Hr|now ls t' ids Hc|now s t' b Ha|i c Hexp].
  - destruct (Hclk now) as [Hn _]; [done|]. by eapply renew_wf.
  - destruct (Hclk now) as [Hn _]; [done|]. unfold claimExpired in Hc. rewrite syncTerm_same in Hc by done.
    destruct (claimLoop_spec off t now ls [] Hwf Hn He) as (?&?&Heq&?&_&_&?&_). simplify_eq. split; [done|congruence].
  - unfold alive in Ha. rewrite syncTerm_same in Ha by done. by simplify_eq.
  - destruct (finishExpiry_spec off t i c Hwf) as (?&?&_). split; [done|congruence].
Qed.

(** *** A claim is final within its term *)

Definition dead (c : Z) (t : leaseTracker) : Prop :=
  in_term t /\ wall (deadline t (lease_of id)) <= c.

Definition refused (e : tevent) : Prop :=
  match e with
  | TRenew _ s accepted => Lease_LeaseID s = id -> accepted = false
  | TAlive _ s result => Lease_LeaseID s = id -> result = false
  | _ => True
  end.

Lemma dead_step c t e t1 :
  dead c t -> ev_ok off lease_of c None e -> tstep term t e t1 -> dead c t1 /\ refused e.
Proof.
  intros [Hin Hd] Hok Hst. pose proof (in_term_step _ _ _ _ _ Hin Hok Hst) as Hin1.
  destruct Hin as [Hwf Ht], Hok as [Hclk Hcp]. destruct (tr_maps off t Hwf) as [_ He]; [congruence|].
  unfold dead. destruct Hst as [now s t' res Hr|now ls t' ids Hc|now s t' b Ha|i k Hexp].
  - destruct (Hclk now) as (Hn&Hlo&_); [done|]. pose proof (Hcp s) as Hs. cbn in Hs.
    destruct (renew_cases off t term now s t' res Hwf Hn Hr) as [(->&->&_)|(->&_&Hlt&m&Hm&->)];
      rewrite syncTerm_same in * by done; [by split|].
    assert (Lease_LeaseID s <> id) as Hne.
    { intros Heq. rewrite <-Heq, <-Hs in Hd by set_solver. lia. }
    split; [|by intros ?]. split; [done|]. rewrite (deadline_ext t); [done|done|].
    rewrite renewedAt_of_insert, Hid, decide_False by done. unfold renewedAt_of. by rewrite Hm.
  - destruct (Hclk now) as (Hn&_); [done|]. unfold claimExpired in Hc. rewrite syncTerm_same in Hc by done.
    destruct (claimLoop_spec off t now ls [] Hwf Hn He) as (?&?&Heq&?&?&Hrn&_). simplify_eq.
    split; [|done]. split; [done|]. rewrite (deadline_ext t); [done|done|]. unfold renewedAt_of. by rewrite Hrn.
  - destruct (Hclk now) as (Hn&Hlo&_); [done|]. pose proof (Hcp s) as Hs. cbn in Hs.
    unfold alive in Ha. rewrite syncTerm_same in Ha by done. simplify_eq. split; [by split|]. cbn. intros Heq.
    rewrite (Before_deadline off), Hs, Heq by (done || set_solver).
    apply andb_false_iff. right. apply Z.ltb_ge. lia.
  - split; [|done]. split; [done|].
    destruct (finishExpiry_spec off t i k Hwf) as (Hwf'&_&Hls&_&Hrn).
    destruct (deadline_wall off _ (lease_of id) Hwf') as [_ ->].
    destruct (deadline_wall off _ (lease_of id) Hwf) as [_ Hw]. rewrite Hw in Hd.
    rewrite Hls, Hrn. destruct (decide (k = true /\ Lease_LeaseID (lease_of id) = i)); [|done].
    unfold from_or at 2. cbn [IsZero]. unfold IsZero at 1. rewrite Z.eqb_refl. lia.
Qed.

(** *** Deadlines are respected *)

(** The lease is unclaimed and its deadline is no earlier than [d]. *)
Definition shielded (d : Z) (t : leaseTracker) : Prop :=
  in_term t /\ expiring_of t id = false /\ d <= wall (deadline t (lease_of id)).

Definition kept_alive (e : tevent) : Prop :=
  match e with
  | TRenew _ s accepted => Lease_LeaseID s = id -> accepted = true
  | TAlive _ s result => Lease_LeaseID s = id -> result = true
  | TClaim _ _ claimed => id ∉ claimed
  | TFinish i _ => i <> id
  end.

Lemma shielded_step r t e t1 :
  wall zero_Time < r ->
  shielded (r + Lease_TTL (lease_of id)) t ->
  ev_ok off lease_of r (Some (r + Lease_TTL (lease_of id))) e -> tstep term t e t1 ->
  shielded (r + Lease_TTL (lease_of id)) t1 /\ kept_alive e.
Proof.
  intros Hr0 (Hin&Hexp&Hd) Hok Hst. pose proof (in_term_step _ _ _ _ _ Hin Hok Hst) as Hin1.
  destruct Hin as [Hwf Ht], Hok as [Hclk Hcp]. destruct (tr_maps off t Hwf) as [_ He]; [congruence|].
  destruct Hst as [now s t' res Hr|now ls t' ids Hc|now s t' b Ha|i k Hi].
  - destruct (Hclk now) as (Hn&Hlo&Hhi); [done|]. specialize (Hhi _ eq_refl).
    assert (Lease_LeaseID s = id -> s = lease_of id) as Hs by (intros <-; apply Hcp; set_solver).
    destruct (renew_cases off t term now s t' res Hwf Hn Hr) as [(->&->&Hbad)|(->&Hne&Hlt&m&Hm&->)];
      rewrite syncTerm_same in * by done.
    + split; [done|]. cbn. intros Heq. rewrite (Hs Heq), Hid in Hbad. destruct Hbad; [congruence|lia].
    + split; [|done]. split; [done|]. split; [done|].
      destruct (decide (Lease_LeaseID s = id)) as [Heq|Hneq].
      * destruct (deadline_ge off _ (lease_of id) (proj1 Hin1)) as (_&_&Hge). etrans; [|apply Hge];
          rewrite renewedAt_of_insert, Hid, decide_True by done; [lia|].
        unfold IsZero. apply Z.eqb_neq. lia.
      * rewrite (deadline_ext t); [done|done|].
        rewrite renewedAt_of_insert, Hid, decide_False by done. unfold renewedAt_of. by rewrite Hm.
  - destruct (Hclk now) as (Hn&Hlo&Hhi); [done|]. specialize (Hhi _ eq_refl).
    unfold claimExpired in Hc. rewrite syncTerm_same in Hc by done.
    destruct (claimLoop_spec off t now ls [] Hwf Hn He) as (?&new&Heq&_&Hls&Hrn&_&Hex&_&Hnew). simplify_eq/=.
    assert (id ∉ ids) as Hnot.
    { rewrite Hnew. intros (_&s&Hsin&Hsid&Hdl). pose proof (Hcp s Hsin) as Hs. rewrite Hsid in Hs. subst s. lia. }
    split; [|done]. split; [done|]. split.
    + rewrite Hex, Hexp, bool_decide_eq_false_2; done.
    + rewrite (deadline_ext t); [done|done|]. unfold renewedAt_of. by rewrite Hrn.
  - destruct (Hclk now) as (Hn&Hlo&Hhi); [done|]. specialize (Hhi _ eq_refl).
    unfold alive in Ha. rewrite syncTerm_same in Ha by done. simplify_eq. split; [done|]. cbn. intros Heq.
    rewrite (Before_deadline off), (Hcp s), Heq, Hid, Hexp by (done || set_solver).
    apply Z.ltb_lt. lia.
  - assert (i <> id) as Hne by congruence.
    destruct (finishExpiry_spec off t i k Hwf) as (_&_&Hls&Hex&Hrn).
    split; [|done]. split; [done|]. split; [by rewrite Hex, decide_False|].
    rewrite (deadline_ext t); [done|done|]. rewrite Hrn, Hid, decide_False; [done|]. naive_solver.
Qed.
End term.

(** ** The guarantees *)

Section guarantees.
Variables (off term : Z) (lease_of : Z -> Lease) (id : Z).
Hypothesis Hterm : term <> 0.
Hypothesis Hid : Lease_LeaseID (lease_of id) = id.

(** A claimed lease is dead from then on. *)
Lemma claim_kills t now ls t1 ids
    (Hwf : tracker_wf off t) (Hnow : lockstep off now)
    (Hclaim : claimExpired t term now ls = Some (t1, ids)) (Hin : id ∈ ids)
    (Hcopies : forall s, s ∈ ls -> s = lease_of (Lease_LeaseID s)) :
  dead off term lease_of id (wall now) t1 /\ ExpiresAtUnixNano (lease_of id) <= wall now /\
  Lease_LeaseID (lease_of id) = id.
Proof.
  unfold claimExpired in Hclaim. pose proof (syncTerm_wf off t term now Hwf Hnow) as Hwf0.
  pose proof (syncTerm_term t term now) as Ht0. set (t0 := syncTerm t term now) in *.
  destruct (tr_maps off t0 Hwf0) as [_ He]; [congruence|].
  destruct (claimLoop_spec off t0 now ls [] Hwf0 Hnow He) as (t1'&new&Heq&Ht1&Hls&Hrn&Hwf1&_&_&Hnew).
  rewrite Heq in Hclaim. injection Hclaim as -> <-.
  apply Hnew in Hin as (_&s&Hsin&Hsid&Hdl). pose proof (Hcopies s Hsin) as Hs. rewrite Hsid in Hs. subst s.
  split_and!; [split; [split; [done|congruence]|]| |done].
  - rewrite (deadline_ext t0); [done|done|]. unfold renewedAt_of. by rewrite Hrn.
  - destruct (deadline_ge off t0 (lease_of id) Hwf0) as [Hge _]. lia.
Qed.

(** While the expiry of a claimed lease is under way its mark stays set, whatever
    clock readings the other calls carry. *)
Definition claimed (t : leaseTracker) : Prop := tr_term t = term /\ expiring_of t id = true.

Definition not_claimed (e : tevent) : Prop := match e with TClaim _ _ ids => id ∉ ids | _ => True end.

Lemma claimLoop_marks t now ls acc t' ids : claimLoop t now ls acc = Some (t', ids) ->
  tr_term t' = tr_term t /\ (forall i, expiring_of t i = true -> expiring_of t' i = true) /\
  (forall i, i ∈ ids -> i ∈ acc \/ expiring_of t i = false /\ expiring_of t' i = true).
Proof.
  revert t acc. induction ls as [|s ls IH]; intros t acc; simpl; [intros [= <- <-]; by eauto|].
  destruct (negb (expiring_of t (Lease_LeaseID s)) && _) eqn:Hc; [|by apply IH].
  apply andb_true_iff in Hc as [He%negb_true_iff _]. destruct (expiring t) as [m|] eqn:Hm; [|done]. simpl.
  fold (mark t (Lease_LeaseID s) m). intros (Ht&Hk&Hnew)%IH. split; [done|].
  assert (Hmark : forall i, expiring_of t i = true -> expiring_of (mark t (Lease_LeaseID s) m) i = true)
    by (intros i Hi; by rewrite expiring_mark, Hi).
  split; [by auto|]. intros i [[Hi|Hi]%elem_of_app|[Hf Hi]]%Hnew; [by left| |].
  - apply list_elem_of_singleton in Hi as ->. right. split; [done|]. apply Hk. rewrite expiring_mark by done. by rewrite bool_decide_eq_true_2, orb_true_r.
  - right. split; [|done]. rewrite expiring_mark in Hf by done. by apply orb_false_iff in Hf as [? _].
Qed.

Lemma claim_marks t now ls t1 ids : claimExpired t term now ls = Some (t1, ids) -> id ∈ ids -> claimed t1.
Proof.
  intros (Ht&_&Hnew)%claimLoop_marks Hi. split; [by rewrite Ht, syncTerm_term|].
  by destruct (Hnew id Hi) as [?%elem_of_nil|[_ ?]].
Qed.

Lemma claimed_step t e t1 :
  claimed t -> (forall c, e <> TFinish id c) -> tstep term t e t1 -> claimed t1 /\ refused id e /\ not_claimed e.
Proof.
  intros [Ht He] Hopen Hst. destruct Hst as [now s t' res Hr|now ls t' ids Hc|now s t' b Ha|i c Hexp].
  - unfold renew in Hr. rewrite syncTerm_same in Hr by done. destruct (expiring_of t (Lease_LeaseID s)) eqn:Hs; cbn in Hr.
    + injection Hr as <- <-. by split_and!; [split|..].
    + assert (Hne : Lease_LeaseID s <> id) by congruence.
      destruct (negb (Before _ _)); [injection Hr as <- <-; by split_and!; [split|..]|].
      destruct (renewedAt t); [|done]. injection Hr as <- <-. split_and!; [by split|cbn; by intros ?|done].
  - unfold claimExpired in Hc. rewrite syncTerm_same in Hc by done. apply claimLoop_marks in Hc as (Ht'&Hk&Hnew).
    split_and!; [split; [congruence|by apply Hk]|done|]. cbn. intros [?%elem_of_nil|[? _]]%Hnew; congruence.
  - unfold alive in Ha. rewrite syncTerm_same in Ha by done. injection Ha as <- <-. split_and!; try done.
    cbn. intros ->. by rewrite He.
  - assert (Hne : i <> id) by (intros ->; by destruct (Hopen c)). split_and!; try done. split; [done|].
    unfold expiring_of, finishExpiry in *. cbn. destruct (expiring t) as [m|]; [|done]. cbn in *. by rewrite lookup_delete_ne.
Qed.


(** An accepted renewal keeps the lease alive for one TTL. *)
Lemma renewal_shields t r t1 es t2
    (Hwf : tracker_wf off t) (Hr : lockstep off r) (Hpos : wall zero_Time < wall r)
    (Hrenew : renew t term r (lease_of id) = Some (t1, None))
    (Hrun : truns term t1 es t2)
    (Hes : Forall (ev_ok off lease_of (wall r) (Some (wall r + Lease_TTL (lease_of id)))) es) :
  Forall (kept_alive id) es.
Proof.
  pose proof (renew_wf off t term r _ t1 None Hwf Hr Hrenew) as Hin1.
  destruct (renew_cases off t term r _ t1 None Hwf Hr Hrenew) as [(?&_)|(_&Hexp&_&m&Hm&->)]; [done|].
  eapply (truns_ind_inv term (shielded off term lease_of id (wall r + Lease_TTL (lease_of id)))); [|done| |done].
  - intros. by eapply shielded_step.
  - split; [done|]. split; [by rewrite Hid in Hexp|].
    destruct (deadline_ge off _ (lease_of id) (proj1 Hin1)) as (_&_&Hge).
    rewrite renewedAt_of_insert, decide_True in Hge by done. apply Hge.
    unfold IsZero. apply Z.eqb_neq. lia.
Qed.

(** An accepted renewal protects the lease for a full TTL. After a renewal at
    [r] is accepted, no call of the same term whose clock reading is in
    [r, r + TTL) claims the lease, refuses to renew it, or reports it dead. *)
Theorem renewal_protects t r t1 es t2
    (Hwf : tracker_wf off t) (Hr : lockstep off r) (Hpos : wall zero_Time < wall r)
    (Hrenew : renew t term r (lease_of id) = Some (t1, None))
    (Hrun : truns term t1 es t2)
    (Hes : Forall (ev_ok off lease_of (wall r) (Some (wall r + Lease_TTL (lease_of id)))) es) :
  Forall (kept_alive id) es.
Proof. by eapply renewal_shields. Qed.

Lemma tstep_sync t e t1 now :
  ev_time e = Some now -> tstep term t e t1 -> tstep term (syncTerm t term now) e t1.
Proof.
  intros Hn Hst. assert (syncTerm (syncTerm t term now) term now = syncTerm t term now) as Hss
    by apply syncTerm_same, syncTerm_term.
  destruct Hst as [n s t' res Hr|n ls t' ids Hc|n s t' b Ha|i c Hi]; cbn in Hn; simplify_eq; constructor.
  - unfold renew in *. by rewrite Hss.
  - unfold claimExpired in *. by rewrite Hss.
  - unfold alive in *. by rewrite Hss.
Qed.

(** A new term gives every lease one TTL. *)
Lemma new_term_shields t e es t2 t0
    (Hwf : tracker_wf off t) (Hnew : tr_term t <> term)
    (He : ev_time e = Some t0) (Hpos : wall zero_Time < wall t0)
    (Hrun : truns term t (e :: es) t2)
    (Hes : Forall (ev_ok off lease_of (wall t0) (Some (wall t0 + Lease_TTL (lease_of id)))) (e :: es)) :
  Forall (kept_alive id) (e :: es).
Proof.
  inversion Hrun as [|? ? t1 ? ? Hst Hrest]; subst.
  pose proof Hes as [Hok _]%Forall_cons_iff. destruct (ev_clock _ _ _ _ _ Hok t0 He) as (Hn&_).
  pose proof (syncTerm_wf off t term t0 Hwf Hn) as Hwf0.
  eapply (truns_ind_inv term (shielded off term lease_of id (wall t0 + Lease_TTL (lease_of id)))
    _ _ (syncTerm t term t0)); [| | |done].
  - intros. by eapply shielded_step.
  - econstructor; [by apply tstep_sync|done].
  - split; [split; [done|apply syncTerm_term]|].
    destruct (deadline_ge off _ (lease_of id) Hwf0) as (_&Hge&_). unfold syncTerm in *.
    destruct (Z.eqb_spec term (tr_term t)); [by subst|]. cbn in Hge.
    split; [done|]. apply Hge. unfold IsZero. apply Z.eqb_neq. lia.
Qed.

(** C12: the failover rule. When a node starts using its tracker in a new term, at
    clock reading [t0], no call of that term with a reading in [t0, t0 + TTL) claims
    a lease or refuses to renew it, whatever its recorded expiry: every lease counts
    as renewed when the new leader took over. *)
Theorem new_term_grace t e es t2 t0
    (Hwf : tracker_wf off t) (Hnew : tr_term t <> term)
    (He : ev_time e = Some t0) (Hpos : wall zero_Time < wall t0)
    (Hrun : truns term t (e :: es) t2)
    (Hes : Forall (ev_ok off lease_of (wall t0) (Some (wall t0 + Lease_TTL (lease_of id)))) (e :: es)) :
  Forall (kept_alive id) (e :: es).
Proof. by eapply new_term_shields. Qed.
End guarantees.

(** The deadline is one TTL after the latest of the lease's creation, the
    moment this node became leader, and its last renewal on this leader. *)
Theorem deadline_after_latest off t s created
    (Hwf : tracker_wf off t) (Hlead : IsZero (leaderSince t) = false)
    (Hexp : ExpiresAtUnixNano s = created + Lease_TTL s) :
  wall (deadline t s) = Lease_TTL s +
    Z.max created (Z.max (wall (leaderSince t))
      (if IsZero (renewedAt_of t (Lease_LeaseID s)) then created
       else wall (renewedAt_of t (Lease_LeaseID s)))).
Proof.
  destruct (deadline_wall off t s Hwf) as [_ ->]. unfold from_or. rewrite Hlead, Hexp.
  destruct (IsZero (renewedAt_of t (Lease_LeaseID s))); lia.
Qed.

Lemma renew_total off t term now s :
  tracker_wf off t -> term <> 0 -> lockstep off now -> is_Some (renew t term now s).
Proof.
  intros Hwf Hterm Hnow. pose proof (syncTerm_wf off t term now Hwf Hnow) as Hwf0.
  destruct (tr_maps off _ Hwf0) as [[m Hm] _]; [by rewrite syncTerm_term|].
  unfold renew. rewrite Hm. case_match; simpl; by eexists.
Qed.

Lemma claim_total off t term now ls :
  tracker_wf off t -> term <> 0 -> lockstep off now ->
  let t0 := syncTerm t term now in
  exists t' ids, claimExpired t term now ls = Some (t', ids) /\ NoDup ids /\
    (forall id, id ∈ ids <-> expiring_of t0 id = false /\
       exists s, s ∈ ls /\ Lease_LeaseID s = id /\ wall (deadline t0 s) <= wall now) /\
    (forall id, expiring_of t' id = expiring_of t0 id || bool_decide (id ∈ ids)) /\ tracker_wf off t'.
Proof.
  intros Hwf Hterm Hnow. cbn zeta. pose proof (syncTerm_wf off t term now Hwf Hnow) as Hwf0.
  destruct (tr_maps off _ Hwf0) as [_ He]; [by rewrite syncTerm_term|].
  destruct (claimLoop_spec off (syncTerm t term now) now ls []) as (t'&ids&Heq&_&_&_&?&Hex&Hnd&Hin); [done..|].
  exists t', ids. by split_and!.
Qed.

(** In a real term the tracker's methods never write to a nil map, and a scan
    claims exactly the unclaimed leases whose deadline has passed, each once. *)
Theorem claim_exact off t term now ls
    (Hwf : tracker_wf off t) (Hterm : term <> 0) (Hnow : lockstep off now) :
  let t0 := syncTerm t term now in
  (forall s, is_Some (renew t term now s)) /\
  exists t' ids, claimExpired t term now ls = Some (t', ids) /\ NoDup ids /\
    (forall id, id ∈ ids <-> expiring_of t0 id = false /\
       exists s, s ∈ ls /\ Lease_LeaseID s = id /\ wall (deadline t0 s) <= wall now) /\
    (forall id, expiring_of t' id = expiring_of t0 id || bool_decide (id ∈ ids)).
Proof.
  cbn zeta. split; [intros; by eapply renew_total|].
  destruct (claim_total off t term now ls) as (t'&ids&?&?&?&?&_); [done..|]. by exists t', ids.
Qed.

(** The courtesy check agrees with renewal: in a real term, a lease is
    reported alive exactly when renewing it at the same instant would succeed. *)
Theorem alive_iff_renewable off t term now s
    (Hwf : tracker_wf off t) (Hterm : term <> 0) (Hnow : lockstep off now) :
  (alive t term now s).2 = true <-> exists t', renew t term now s = Some (t', None).
Proof.
  pose proof (syncTerm_wf off t term now Hwf Hnow) as Hwf0.
  destruct (tr_maps off _ Hwf0) as [[m Hm] _]; [by rewrite syncTerm_term|].
  unfold alive, renew. rewrite Hm. cbn [snd].
  destruct (expiring_of _ _), (Before _ _); simpl; split; naive_solver.
Qed.

(** ** Limits of the guarantees

    Both guarantees rest on how the callers obtain the term and the clock value,
    outside the mutex. *)

Definition ex_lease : Lease := mkLease 1 "worker" (10 * Second) (10 * Second).
Definition ex_time (sec : Z) : Time := mkTime (sec * Second) (Some (sec * Second)).
Definition ex_tracker : leaseTracker := mkTracker 7 (ex_time 1) (Some ∅) (Some ∅).

(** A call that carries a term read before a leader change resets the tracker: a
    lease already claimed in term 7 is renewed by a caller still holding term 5. *)
Example stale_term_forgets_claim :
  match claimExpired ex_tracker 7 (ex_time 20) [ex_lease] with
  | Some (t1, ids) => ids = [1] /\ (snd <$> renew t1 7 (ex_time 20) ex_lease) = Some (Some (Domain ErrLeaseExpired)) /\
      (snd <$> renew t1 5 (ex_time 20) ex_lease) = Some None
  | None => False
  end.
Proof. vm_compute. split_and!; reflexivity. Qed.

(** Two renewals that take the mutex in the opposite order of their clock readings
    move the deadline backwards: the renewal at second 8 is accepted, yet after it
    the lease dies at second 17, not 18. *)
Example renewals_can_regress :
  match renew ex_tracker 7 (ex_time 8) ex_lease with
  | Some (t1, None) => match renew t1 7 (ex_time 7) ex_lease with
      | Some (t2, None) => wall (deadline t1 ex_lease) = 18 * Second /\ wall (deadline t2 ex_lease) = 17 * Second
      | _ => False end
  | _ => False
  end.
Proof. vm_compute. split; reflexivity. Qed.

(** ** Concrete runs *)

Definition ex_leases (id : Z) : Lease := mkLease id "worker" (10 * Second) (10 * Second).

Lemma ex_tracker_wf : tracker_wf 0 ex_tracker.
Proof.
  split; [intros; split; by eexists|vm_compute; reflexivity|].
  intros id. unfold renewedAt_of, ex_tracker; cbn [renewedAt]. simpl. by rewrite lookup_empty.
Qed.

(** Checks a concrete event. *)
Ltac ev_concrete :=
  split;
  [ intros n Hn; first [discriminate Hn | injection Hn as <-;
      repeat split; try (vm_compute; done); try (vm_compute; congruence);
      intros h Hh; first [discriminate Hh | injection Hh as <-; vm_compute; reflexivity]]
  | intros s Hs; first [by apply elem_of_nil in Hs | by apply list_elem_of_singleton in Hs as ->] ].

(** Claimed at second 20; a renewal that read its clock at second 9, when the lease
    was alive, gets the mutex afterwards and is refused, as is a check. *)
Definition ex_claimed : leaseTracker := mkTracker 7 (ex_time 1) (Some ∅) (Some {[1 := true]}).
Definition ex_late_calls : list tevent :=
  [TRenew (ex_time 9) (ex_leases 1) false; TAlive (ex_time 9) (ex_leases 1) false; TClaim (ex_time 21) [ex_leases 1] []].


Lemma renewal_protects_witness :
  Forall (kept_alive 1) [TClaim (ex_time 14) [ex_leases 1] []].
Proof.
  eapply (renewal_protects 0 7 ex_leases 1 ltac:(done) eq_refl ex_tracker (ex_time 5)).
  - apply ex_tracker_wf.
  - vm_compute; reflexivity.
  - vm_compute; reflexivity.
  - vm_compute; reflexivity.
  - econstructor; [|apply truns_nil]. apply tstep_claim. vm_compute; reflexivity.
  - repeat first [apply Forall_nil_2 | apply Forall_cons_2]; ev_concrete.
Defined.

Lemma new_term_grace_witness :
  Forall (kept_alive 1) [TClaim (ex_time 30) [ex_leases 1] []; TRenew (ex_time 39) (ex_leases 1) true].
Proof.
  eapply (new_term_grace 0 8 ex_leases 1 ltac:(done) eq_refl ex_tracker _ _ _ (ex_time 30)).
  - apply ex_tracker_wf.
  - done.
  - reflexivity.
  - vm_compute; reflexivity.
  - econstructor; [apply tstep_claim; vm_compute; reflexivity|].
    econstructor; [|apply truns_nil]. eapply (tstep_renew _ _ _ _ _ None). vm_compute; reflexivity.
  - repeat first [apply Forall_nil_2 | apply Forall_cons_2]; ev_concrete.
Defined.

Lemma deadline_after_latest_witness : wall (deadline ex_tracker ex_lease) = 11 * Second.
Proof.
  rewrite (deadline_after_latest 0 ex_tracker ex_lease 0); [vm_compute; reflexivity|apply ex_tracker_wf|..];
    vm_compute; reflexivity.
Defined.

Lemma claim_exact_witness : is_Some (renew ex_tracker 7 (ex_time 5) ex_lease).
Proof.
  destruct (claim_exact 0 ex_tracker 7 (ex_time 5) [ex_lease]) as [H _];
    [apply ex_tracker_wf|done|vm_compute; reflexivity|]. apply H.
Defined.

Lemma alive_iff_renewable_witness : (alive ex_tracker 7 (ex_time 5) ex_lease).2 = true.
Proof.
  apply (alive_iff_renewable 0 ex_tracker 7 (ex_time 5) ex_lease);
    [apply ex_tracker_wf|done|vm_compute; reflexivity|]. eexists. vm_compute; reflexivity.
Defined.
