(* ===== verification/Failover.v ===== *)
(** * Leases across leader changes

    The promise behind a renewal: once a leader has acknowledged it, no leader, now
    or later, expires the lease for one TTL. Each term's leader keeps its own
    tracker and reads its own clock; clocks run at the same rate but may be set
    differently. Between terms the argument rests on Raft alone: a leader
    acknowledges a renewal only after a quorum confirmed its leadership, so a later
    term's leader starts after the renewal; and all leaders apply parts of one log,
    so their copies of a lease are the same. *)

From S2P Require Import Prelude GoTime Errors Domain Raftlog Fsm FsmInv LeaseTracker TrackerProps.

(** What one leader did to its tracker during one term. [tm_skew] is how far its
    clock is ahead of real time. *)
Record term_run := mkTermRun {
  tm_term : Z;
  tm_off : Z;
  tm_skew : Z;
  tm_from : leaseTracker;
  tm_events : list tevent;
  tm_to : leaseTracker
}.

Definition real (R : term_run) (now : Time) : Z := wall now - tm_skew R.

(** The clock readings of a list of events, and that they never go back. *)
Definition reads (lo : Z) (e : tevent) : Prop := forall n, ev_time e = Some n -> lo <= wall n.
Fixpoint clock_sorted (es : list tevent) : Prop :=
  match es with
  | [] => True
  | e :: es => (forall n, ev_time e = Some n -> Forall (reads (wall n)) es) /\ clock_sorted es
  end.

(** A leader's run: it starts from a tracker of another term, with a call that
    reads the clock, every reading is this node's and in order, and the leases
    passed in are [known] records. *)
Record run_ok (known : Lease -> Prop) (R : term_run) : Prop := {
  ro_term : tm_term R <> 0;
  ro_new : tr_term (tm_from R) <> tm_term R;
  ro_wf : tracker_wf (tm_off R) (tm_from R);
  ro_run : truns (tm_term R) (tm_from R) (tm_events R) (tm_to R);
  ro_sorted : clock_sorted (tm_events R);
  ro_clock : forall e n, e ∈ tm_events R -> ev_time e = Some n -> lockstep (tm_off R) n /\ wall zero_Time < wall n;
  ro_copies : forall e s, e ∈ tm_events R -> s ∈ ev_leases e -> known s
}.

Lemma run_ok_mono (known known' : Lease -> Prop) R : (forall s, known s -> known' s) -> run_ok known R -> run_ok known' R.
Proof. intros Hk []. split; eauto. Qed.

(** The first clock reading of a run: when the leader starts to use its tracker. *)
Definition started (R : term_run) (t0 : Time) : Prop :=
  exists e es, tm_events R = e :: es /\ ev_time e = Some t0.

Lemma truns_app term t es1 es2 t2 :
  truns term t (es1 ++ es2) t2 -> exists tm, truns term t es1 tm /\ truns term tm es2 t2.
Proof.
  revert t. induction es1 as [|e es1 IH]; intros t Hr; [by exists t; split; [constructor|]|].
  inversion Hr as [|? ? t1 ? ? Hst Hrest]; subst. destruct (IH t1 Hrest) as (tm&H1&H2).
  exists tm. split; [by econstructor|done].
Qed.

Lemma truns_trans term t es1 t1 es2 t2 : truns term t es1 t1 -> truns term t1 es2 t2 -> truns term t (es1 ++ es2) t2.
Proof. induction 1; [done|]. intros. econstructor; eauto. Qed.

Lemma clock_sorted_app es1 es2 : clock_sorted (es1 ++ es2) -> clock_sorted es2.
Proof. induction es1 as [|e es1 IH]; [done|]. intros [_ H]. by apply IH. Qed.

Lemma clock_sorted_prefix es1 es2 : clock_sorted (es1 ++ es2) -> clock_sorted es1.
Proof.
  induction es1 as [|e es1 IH]; [done|]. intros [He H]. split; [|by apply IH].
  intros n Hn. by apply (Forall_app _ es1 es2), He.
Qed.

Lemma sorted_prefix e mid c post : clock_sorted (e :: mid ++ c :: post) -> clock_sorted (e :: mid ++ [c]).
Proof.
  intros H. apply (clock_sorted_prefix _ post). cbn. by rewrite <-app_assoc.
Qed.

(** Events between a reading [lo] and a later event at [hi] read between them. *)
Lemma sorted_between e0 lo es e hi :
  clock_sorted (e0 :: es ++ [e]) -> ev_time e0 = Some lo -> ev_time e = Some hi ->
  forall x n, x ∈ es ++ [e] -> ev_time x = Some n -> wall lo <= wall n <= wall hi.
Proof.
  intros [Hlo Hs] He0 He x n Hx Hn. specialize (Hlo lo He0). rewrite list.Forall_forall in Hlo.
  split; [by apply (Hlo x Hx)|]. clear Hlo He0.
  induction es as [|y es IH]; cbn in Hs, Hx.
  - apply list_elem_of_singleton in Hx as ->. rewrite He in Hn. by simplify_eq.
  - destruct Hs as [Hy Hs]. apply elem_of_cons in Hx as [->|Hx]; [|by apply IH].
    specialize (Hy n Hn). rewrite list.Forall_forall in Hy. apply (Hy e); [set_solver|done].
Qed.

Lemma claimLoop_wf off t now ls acc t' ids : claimLoop t now ls acc = Some (t', ids) -> tracker_wf off t -> tracker_wf off t'.
Proof.
  revert t acc. induction ls as [|s ls IH]; intros t acc; simpl; [by intros [= <- _]|].
  case_match; [|by apply IH]. destruct (expiring t) as [m|]; [|done]. simpl. fold (mark t (Lease_LeaseID s) m).
  intros Hc Hwf. eapply IH; [done|by apply mark_wf].
Qed.

Lemma tstep_wf off term t e t1 :
  tracker_wf off t -> (forall n, ev_time e = Some n -> lockstep off n) -> tstep term t e t1 -> tracker_wf off t1.
Proof.
  intros Hwf Hclk Hst. destruct Hst as [now s t' res Hr|now ls t' ids Hc|now s t' b Ha|i c Hexp].
  - by destruct (renew_wf off t term now s t' res Hwf (Hclk now eq_refl) Hr).
  - eapply claimLoop_wf; [exact Hc|]. by apply syncTerm_wf; [|apply Hclk].
  - unfold alive in Ha. injection Ha as <- _. by apply syncTerm_wf; [|apply Hclk].
  - by apply finishExpiry_spec.
Qed.

Lemma truns_wf off term t es t2 :
  tracker_wf off t -> (forall e n, e ∈ es -> ev_time e = Some n -> lockstep off n) ->
  truns term t es t2 -> tracker_wf off t2.
Proof.
  intros Hwf Hclk Hrun. induction Hrun as [|t e t1 es t2 Hst Hrun IH]; [done|].
  apply IH; [|intros e' n He'; apply Hclk; by right]. eapply tstep_wf; eauto. intros n. apply Hclk. left.
Qed.

Section failover.
Context (known : Lease -> Prop) (lease_of : Z -> Lease) (id : Z).
Hypothesis Hknown : forall s, known s -> s = lease_of (Lease_LeaseID s).
Hypothesis Hid : Lease_LeaseID (lease_of id) = id.

Lemma between_ok R lo es e hi :
  run_ok known R -> (forall x, x ∈ es ++ [e] -> x ∈ tm_events R) ->
  (forall x n, x ∈ es ++ [e] -> ev_time x = Some n -> wall lo <= wall n <= wall hi) ->
  wall hi < wall lo + Lease_TTL (lease_of id) ->
  Forall (ev_ok (tm_off R) lease_of (wall lo) (Some (wall lo + Lease_TTL (lease_of id)))) (es ++ [e]).
Proof.
  intros HR Hsub Hb Hlt. apply list.Forall_forall. intros x Hx. split.
  - intros n Hn. destruct (ro_clock _ _ HR x n (Hsub x Hx) Hn). specialize (Hb x n Hx Hn).
    split; [done|]. split; [lia|]. intros h [= <-]. lia.
  - intros s Hs. by apply Hknown, (ro_copies _ _ HR x s (Hsub x Hx)).
Qed.

(** The leader that accepted a renewal does not claim the lease for one TTL. *)
Lemma same_leader_waits R pre r mid now ls ids post :
  run_ok known R ->
  tm_events R = pre ++ TRenew r (lease_of id) true :: mid ++ TClaim now ls ids :: post ->
  id ∈ ids -> wall r + Lease_TTL (lease_of id) <= wall now.
Proof.
  intros HR Hes Hin. apply Z.nlt_ge. intros Hlt.
  pose proof (ro_run _ _ HR) as Hrun. rewrite Hes in Hrun. apply truns_app in Hrun as (t&Hpre&Hrun).
  inversion Hrun as [|? ? t1 ? ? Hst Hrest]; subst.
  replace (mid ++ TClaim now ls ids :: post) with ((mid ++ [TClaim now ls ids]) ++ post) in Hrest
    by (by rewrite <-app_assoc).
  apply truns_app in Hrest as (t2&Hmid&_).
  assert (Hsub : forall x, x ∈ mid ++ [TClaim now ls ids] -> x ∈ tm_events R) by (intros x; rewrite Hes; set_solver).
  assert (Hr : TRenew r (lease_of id) true ∈ tm_events R) by (rewrite Hes; set_solver).
  destruct (ro_clock _ _ HR _ r Hr eq_refl) as [Hls Hpos].
  assert (Hwf : tracker_wf (tm_off R) t).
  { eapply truns_wf; [apply (ro_wf _ _ HR)| |done].
    intros e n He Hn. apply (ro_clock _ _ HR e n); [rewrite Hes; set_solver|done]. }
  pose proof (ro_sorted _ _ HR) as Hsrt. rewrite Hes in Hsrt. apply clock_sorted_app in Hsrt.
  assert (Hb : forall x n, x ∈ mid ++ [TClaim now ls ids] -> ev_time x = Some n -> wall r <= wall n <= wall now).
  { eapply (sorted_between (TRenew r (lease_of id) true)); [|done|done]. by eapply sorted_prefix. }
  inversion Hst as [? ? ? res Hren Heq| | |]; subst.
  assert (res = None) as -> by (by destruct res).
  pose proof (renewal_shields (tm_off R) (tm_term R) lease_of id (ro_term _ _ HR) Hid t r t1 _ t2 Hwf Hls Hpos Hren Hmid
    (between_ok R r mid _ now HR Hsub Hb Hlt)) as Hk.
  apply Forall_app in Hk as [_ Hk]. apply Forall_cons_iff in Hk as [Hk _]. by apply Hk.
Qed.

(** A leader does not claim any lease for one TTL after it started. *)
Lemma new_leader_waits R t0 pre now ls ids post :
  run_ok known R -> started R t0 ->
  tm_events R = pre ++ TClaim now ls ids :: post ->
  id ∈ ids -> wall t0 + Lease_TTL (lease_of id) <= wall now.
Proof.
  intros HR (e&es&He&Ht0) Hes Hin. apply Z.nlt_ge. intros Hlt.
  set (ev := pre ++ [TClaim now ls ids]).
  assert (Hev : tm_events R = ev ++ post) by (unfold ev; rewrite Hes; by rewrite <-app_assoc).
  pose proof (ro_run _ _ HR) as Hrun. rewrite Hev in Hrun. apply truns_app in Hrun as (t2&Hrun&_).
  assert (Hsub : forall x, x ∈ ev -> x ∈ tm_events R) by (intros x; rewrite Hev; set_solver).
  pose proof (ro_sorted _ _ HR) as Hsrt. rewrite Hev in Hsrt.
  assert (Hb : forall x n, x ∈ ev -> ev_time x = Some n -> wall t0 <= wall n <= wall now).
  { destruct pre as [|e' pre'].
    - unfold ev in *. cbn in *. intros x n ->%list_elem_of_singleton [= <-].
      rewrite Hes in He. injection He as <- _. cbn in Ht0. injection Ht0 as <-. lia.
    - rewrite Hes in He. cbn in He. injection He as -> _.
      pose proof (sorted_between e t0 pre' (TClaim now ls ids) now
        (clock_sorted_prefix _ post Hsrt) Ht0 eq_refl) as Hbt.
      intros x n [->|Hx]%elem_of_cons Hn; [|by apply (Hbt x)].
      rewrite Ht0 in Hn. injection Hn as <-. split; [lia|].
      apply (Hbt (TClaim now ls ids) now); [set_solver|done]. }
  assert (Hfirst : exists rest, ev = e :: rest).
  { rewrite Hev in He. unfold ev in *. destruct pre; cbn in *; injection He as -> _; eauto. }
  destruct Hfirst as [rest Hfirst]. rewrite Hfirst in Hrun.
  assert (Hpos : wall zero_Time < wall t0) by (apply (ro_clock _ _ HR e t0); [rewrite He; left|done]).
  pose proof (between_ok R t0 pre (TClaim now ls ids) now HR Hsub Hb Hlt) as Hok. fold ev in Hok. rewrite Hfirst in Hok.
  pose proof (new_term_shields (tm_off R) (tm_term R) lease_of id (ro_term _ _ HR) Hid (tm_from R) e rest t2 t0
    (ro_wf _ _ HR) (ro_new _ _ HR) Ht0 Hpos Hrun Hok) as Hk.
  rewrite <-Hfirst in Hk. apply Forall_app in Hk as [_ Hk]. apply Forall_cons_iff in Hk as [Hk _]. by apply Hk.
Qed.

(** What a claim in a run tells: the lease's recorded expiry has passed, and no
    later renewal of it is accepted. *)
Lemma claimed_is_dead R pre now ls ids post :
  run_ok known R -> tm_events R = pre ++ TClaim now ls ids :: post -> id ∈ ids ->
  ExpiresAtUnixNano (lease_of id) <= wall now /\ Forall (refused id) post.
Proof.
  intros HR Hes Hin. pose proof (ro_run _ _ HR) as Hrun. rewrite Hes in Hrun. apply truns_app in Hrun as (t&Hpre&Hrun).
  inversion Hrun as [|? ? t1 ? ? Hst Hrest]; subst. inversion Hst as [|? ? ? ? Hclaim| |]; subst.
  assert (Hc : TClaim now ls ids ∈ tm_events R) by (rewrite Hes; set_solver).
  destruct (ro_clock _ _ HR _ now Hc eq_refl) as [Hls _].
  assert (Hwf : tracker_wf (tm_off R) t).
  { eapply truns_wf; [apply (ro_wf _ _ HR)| |done].
    intros e n He Hn. apply (ro_clock _ _ HR e n); [rewrite Hes; set_solver|done]. }
  destruct (claim_kills (tm_off R) (tm_term R) lease_of id (ro_term _ _ HR) t now ls t1 ids Hwf Hls Hclaim Hin) as (Hdead&Hx&_).
  { intros s Hs. by apply Hknown, (ro_copies _ _ HR _ s Hc). }
  split; [done|].
  eapply (truns_ind_inv (tm_term R) (dead (tm_off R) (tm_term R) lease_of id (wall now)) (refused id)
    (ev_ok (tm_off R) lease_of (wall now) None)); [|done|done|].
  - intros. eapply dead_step; eauto using ro_term.
  - pose proof (ro_sorted _ _ HR) as Hsrt. rewrite Hes in Hsrt. apply clock_sorted_app in Hsrt as [Hlo _].
    specialize (Hlo now eq_refl). rewrite list.Forall_forall in Hlo. apply list.Forall_forall. intros x Hx'.
    assert (Hin' : x ∈ tm_events R) by (rewrite Hes; set_solver). split.
    + intros n Hn. destruct (ro_clock _ _ HR x n Hin' Hn). split_and!; [done|by apply (Hlo x)|done].
    + intros s Hs. by apply Hknown, (ro_copies _ _ HR x s Hin').
Qed.
End failover.

(** C9: an accepted renewal is kept across leader changes, provided each leader's
    tracker handles its calls in the order of their clock readings. All leaders apply
    parts of one log and pass the lease records they find to their trackers; each
    leader's readings are its own clock's and reach its tracker in order ([run_ok]);
    the clocks run at the same rate. Let run [A] accept a renewal of lease [s] at
    reading [r], and let run [B] be [A] itself later, or the run of a later term,
    which by Raft's leadership check starts no earlier in real time than the renewal.
    Then whenever [B] claims the lease for expiry, at least one TTL of real time has
    passed since the renewal, however the two leaders' clocks are set. The condition
    on the order is needed: the clock is read before the tracker's mutex is taken,
    and [renewals_can_regress] shows a later reading overtaken by an earlier one. *)
Theorem renewal_survives_failover {RO : RangeOrder} (log : list CommandWrapper) (A B : term_run) s pre r mid now ls ids post
    (Hty : Forall typed log) (Hlen : Z.of_nat (length log) < two_64 - 1)
    (HA : run_ok (recorded log) A) (HB : run_ok (recorded log) B)
    (Hren : tm_events A = pre ++ TRenew r s true :: mid)
    (Hraft : tm_term A < tm_term B -> forall t0, started B t0 -> real A r <= real B t0)
    (Hclaim : (B = A /\ exists before, mid = before ++ TClaim now ls ids :: post) \/
              (tm_term A < tm_term B /\ (exists t0, started B t0) /\
               exists before, tm_events B = before ++ TClaim now ls ids :: post))
    (Hin : Lease_LeaseID s ∈ ids) :
  real A r + Lease_TTL s <= real B now.
Proof.
  set (lease_of i := default s (record_from NewFSM log i)).
  assert (Hknown : forall x, recorded log x -> x = lease_of (Lease_LeaseID x))
    by (intros x Hx; unfold lease_of; by rewrite (recorded_copy log x Hty Hlen Hx)).
  assert (Hs : s = lease_of (Lease_LeaseID s)).
  { apply Hknown, (ro_copies _ _ HA (TRenew r s true)); [rewrite Hren; set_solver|set_solver]. }
  assert (Hid : Lease_LeaseID (lease_of (Lease_LeaseID s)) = Lease_LeaseID s) by (by rewrite <- Hs).
  rewrite Hs. rewrite Hs in Hren.
  destruct Hclaim as [[-> [before ->]]|(Hlt&[t0 Ht0]&before&Hes)].
  - pose proof (same_leader_waits _ lease_of _ Hknown Hid A pre r before now ls ids post HA Hren Hin). unfold real. lia.
  - pose proof (new_leader_waits _ lease_of _ Hknown Hid B t0 before now ls ids post HB Ht0 Hes Hin).
    specialize (Hraft Hlt t0 Ht0). unfold real in *. lia.
Qed.

(** ** A concrete failover

    Lease 1 is created at second 1. The leader of term 7 renews it at second 5; the leader of term 8, whose
    clock is 100 s ahead, starts at second 6 and claims the lease at second 16. *)

#[local] Instance fo_order : RangeOrder := map_order.

Definition fo_log : list CommandWrapper := [NewCreateLeaseCmd "worker" (10 * Second) (ex_time 1)].
Definition fo_lease : Lease := mkLease 1 "worker" (11 * Second) (10 * Second).

Lemma fo_log_typed : Forall typed fo_log.
Proof. repeat constructor; by vm_compute. Qed.

Lemma fo_recorded : recorded fo_log fo_lease.
Proof. exists 1%nat. reflexivity. Qed.

Definition fo_A : term_run :=
  mkTermRun 7 0 0 zero_tracker [TRenew (ex_time 5) fo_lease true]
    (mkTracker 7 (ex_time 5) (Some {[1 := ex_time 5]}) (Some ∅)).
Definition fo_B : term_run :=
  mkTermRun 8 0 (100 * Second) zero_tracker
    [TAlive (ex_time 106) fo_lease true; TClaim (ex_time 116) [fo_lease] [1]]
    (mkTracker 8 (ex_time 106) (Some ∅) (Some {[1 := true]})).

Lemma fo_A_ok : run_ok (recorded fo_log) fo_A.
Proof.
  split; [done|done|apply zero_tracker_wf| | | |].
  - econstructor; [|apply truns_nil]. eapply (tstep_renew _ _ _ _ _ None). vm_compute. reflexivity.
  - split; [|done]. intros n _. apply Forall_nil_2.
  - intros e n ->%list_elem_of_singleton [= <-]. split; vm_compute; reflexivity.
  - intros e s ->%list_elem_of_singleton ->%list_elem_of_singleton. apply fo_recorded.
Qed.

Lemma fo_B_ok : run_ok (recorded fo_log) fo_B.
Proof.
  split; [done|done|apply zero_tracker_wf| | | |].
  - econstructor; [apply tstep_alive; vm_compute; reflexivity|].
    econstructor; [apply tstep_claim; vm_compute; reflexivity|apply truns_nil].
  - split; [|split; [intros; apply Forall_nil_2|done]]. intros n [= <-]. apply Forall_cons_2; [|apply Forall_nil_2].
    intros n [= <-]. vm_compute. congruence.
  - intros e n [->|[->|[]%elem_of_nil]%elem_of_cons]%elem_of_cons [= <-]; split; vm_compute; reflexivity.
  - intros e s [->|[->|[]%elem_of_nil]%elem_of_cons]%elem_of_cons ->%list_elem_of_singleton; apply fo_recorded.
Qed.

Lemma renewal_survives_failover_witness : real fo_A (ex_time 5) + 10 * Second <= real fo_B (ex_time 116).
Proof.
  apply (renewal_survives_failover fo_log fo_A fo_B fo_lease [] (ex_time 5) [] (ex_time 116) [fo_lease] [1] []
    fo_log_typed eq_refl fo_A_ok fo_B_ok eq_refl).
  - intros _ t0 (e&es&[= <- _]&[= <-]). vm_compute. congruence.
  - right. split; [reflexivity|]. split; [exists (ex_time 106); eexists _, _; by split|]. by exists [TAlive (ex_time 106) fo_lease true].
  - left.
Defined.
