(* ===== verification/LockQueue.v ===== *)
(** * The leader's waiting queues (internal/cluster/lockqueue.go)

    A [*LockWaiter] is compared by pointer identity, so a waiter is an address
    into the store [lq_waiters], handed out by [JoinLockQueue]. The [ready]
    channel has a buffer of one: it is the flag [ready], set by [wake] and taken
    by a receive. Each method holds [q.mu], so it is one step. *)

From S2P Require Import Prelude.

Record LockWaiter := mkWaiter {
  lockName : string;
  ready : bool
}.

Record lockQueues := mkQueues {
  queues : gmap string (list Z);
  lq_waiters : gmap Z LockWaiter;        (* the allocated waiters, by address *)
  lq_next : Z                            (* the next fresh address *)
}.

Definition newLockQueues : lockQueues := mkQueues ∅ ∅ 0.

(** [q.queues[name]]; a missing key reads as the nil slice. *)
Definition queue_of (q : lockQueues) (name : string) : list Z := default [] (queues q !! name).

Definition JoinLockQueue (q : lockQueues) (name : string) : lockQueues * Z :=
  let w := lq_next q in
  (mkQueues (<[name := queue_of q name ++ [w]]> (queues q))
            (<[w := mkWaiter name false]> (lq_waiters q)) (lq_next q + 1), w).

Definition LockHasWaiters (q : lockQueues) (name : string) : bool :=
  bool_decide (0 < length (queue_of q name))%nat.

(** A non-blocking send on [w.ready]: a signal already there is enough. *)
Definition wake (q : lockQueues) (w : Z) : lockQueues :=
  mkQueues (queues q) (alter (fun x => mkWaiter (lockName x) true) w (lq_waiters q)) (lq_next q).

(** [<-w.Ready()]: [None] when the receive blocks. *)
Definition Ready (q : lockQueues) (w : Z) : option lockQueues :=
  x ← lq_waiters q !! w;
  if ready x then Some (mkQueues (queues q) (<[w := mkWaiter (lockName x) false]> (lq_waiters q)) (lq_next q))
  else None.

(** [w.lockName]; the field never changes after allocation. *)
Definition lockName_of (q : lockQueues) (w : Z) : string :=
  default ""%string (lockName <$> lq_waiters q !! w).

Definition IsHead (q : lockQueues) (w : Z) : bool :=
  match queue_of q (lockName_of q w) with
  | h :: _ => h =? w
  | [] => false
  end.

(** [slices.Index]: the first index holding [w], or -1. *)
Fixpoint slices_Index (s : list Z) (w : Z) : Z :=
  match s with
  | [] => -1
  | x :: s' => if x =? w then 0
               else let i := slices_Index s' w in if i <? 0 then -1 else i + 1
  end.

(** [slices.Delete(s, i, j)] for [0 <= i <= j <= len(s)]. *)
Definition slices_Delete (s : list Z) (i j : Z) : list Z :=
  take (Z.to_nat i) s ++ drop (Z.to_nat j) s.

Definition Leave (q : lockQueues) (w : Z) : lockQueues :=
  let name := lockName_of q w in
  let queue := queue_of q name in
  let i := slices_Index queue w in
  if i <? 0 then q else
  let queue := slices_Delete queue i (i + 1) in
  match queue with
  | [] => mkQueues (delete name (queues q)) (lq_waiters q) (lq_next q)
  | h :: _ =>
    let q := mkQueues (<[name := queue]> (queues q)) (lq_waiters q) (lq_next q) in
    if i =? 0 then wake q h else q
  end.

Definition wakeHead (q : lockQueues) (name : string) : lockQueues :=
  match queue_of q name with
  | h :: _ => wake q h
  | [] => q
  end.

Global Arguments queue_of : simpl never.
Global Arguments lockName_of : simpl never.

(** ** Well-formed queues *)

Record queues_wf (q : lockQueues) : Prop := {
  q_nonempty : forall n ws, queues q !! n = Some ws -> ws <> [];
  q_nodup : forall n, NoDup (queue_of q n);
  q_named : forall n w, w ∈ queue_of q n -> lockName <$> lq_waiters q !! w = Some n;
  q_fresh : forall w, is_Some (lq_waiters q !! w) -> w < lq_next q
}.

(** ** What the operations do to the queues, as lists *)

Lemma slices_Index_spec s w :
  ((w ∉ s) /\ slices_Index s w = -1) \/
  (exists l r, s = l ++ w :: r /\ (w ∉ l) /\ slices_Index s w = Z.of_nat (length l)).
Proof.
  induction s as [|x s IH]; cbn [slices_Index]; [left; set_solver|].
  destruct (Z.eqb_spec x w) as [->|Hx].
  { right. exists [], s. split_and!; [done|set_solver|done]. }
  destruct IH as [[Hn ->]|(l&r&->&Hl&->)].
  - left. set_solver.
  - right. exists (x :: l), r. split_and!; [done|set_solver|].
    rewrite length_cons. destruct (Z.ltb_spec (Z.of_nat (length l)) 0); lia.
Qed.

Lemma slices_Delete_mid l w r :
  slices_Delete (l ++ w :: r) (Z.of_nat (length l)) (Z.of_nat (length l) + 1) = l ++ r.
Proof.
  unfold slices_Delete. rewrite Z2Nat.inj_add, Nat2Z.id by lia.
  rewrite take_app_length, drop_app_ge by lia. by replace (length l + Z.to_nat 1 - length l)%nat with 1%nat by lia.
Qed.

Lemma lockName_of_queued q n w : queues_wf q -> w ∈ queue_of q n -> lockName_of q w = n.
Proof. intros Hwf Hw. unfold lockName_of. by rewrite (q_named _ Hwf n w Hw). Qed.

Lemma queue_of_wake q w n : queue_of (wake q w) n = queue_of q n.
Proof. done. Qed.

Lemma lockName_wake q h w : lockName <$> lq_waiters (wake q h) !! w = lockName <$> lq_waiters q !! w.
Proof.
  unfold wake; simpl. rewrite lookup_alter.
  destruct (decide (h = w)) as [->|]; [|done]. by destruct (lq_waiters q !! w).
Qed.

Lemma wake_wf q w : queues_wf q -> queues_wf (wake q w).
Proof.
  intros [H1 H2 H3 H4]. split; [exact H1|exact H2|..].
  - intros n v Hv. rewrite lockName_wake. by apply H3.
  - intros v [x Hx]. apply H4. pose proof (lockName_wake q w v) as E.
    rewrite Hx in E. by destruct (lq_waiters q !! v).
Qed.

Lemma wakeHead_wf q n : queues_wf q -> queues_wf (wakeHead q n).
Proof. unfold wakeHead. destruct (queue_of q n); auto using wake_wf. Qed.

Lemma queue_of_wakeHead q m n : queue_of (wakeHead q m) n = queue_of q n.
Proof. unfold wakeHead. by destruct (queue_of q m). Qed.

Lemma lockName_wakeHead q m w : lockName_of (wakeHead q m) w = lockName_of q w.
Proof.
  unfold wakeHead, lockName_of. destruct (queue_of q m); [done|]. by rewrite lockName_wake.
Qed.

Lemma queue_of_Join q name n :
  queue_of (JoinLockQueue q name).1 n =
    if decide (n = name) then queue_of q name ++ [lq_next q] else queue_of q n.
Proof.
  unfold queue_of at 1; simpl. case_decide as E.
  - subst. by rewrite lookup_insert_eq.
  - by rewrite lookup_insert_ne.
Qed.

Lemma join_fresh q n : queues_wf q -> lq_next q ∉ queue_of q n.
Proof.
  intros Hwf Hw. pose proof (q_named _ Hwf _ _ Hw) as Hn.
  destruct (lq_waiters q !! lq_next q) eqn:E; [|done].
  pose proof (q_fresh _ Hwf (lq_next q)). rewrite E in H. specialize (H (mk_is_Some _ _ eq_refl)). lia.
Qed.

Lemma Join_wf q name : queues_wf q -> queues_wf (JoinLockQueue q name).1.
Proof.
  intros Hwf. pose proof Hwf as [H1 H2 H3 H4]. split.
  - intros n ws. simpl. rewrite lookup_insert_Some. intros [[<- <-]|[_ Hws]]; [|eauto].
    by destruct (queue_of q name).
  - intros n. rewrite queue_of_Join. case_decide; [|done]. apply list.NoDup_app. split_and!; [done| |apply NoDup_singleton].
    intros w Hw ->%list_elem_of_singleton. by apply (join_fresh q name).
  - intros n w. rewrite queue_of_Join. simpl. intros Hw.
    destruct (decide (w = lq_next q)) as [->|Hne].
    + rewrite lookup_insert_eq; simpl. case_decide; [by subst|]. by apply (join_fresh q n) in Hw.
    + rewrite lookup_insert_ne by done. apply H3. case_decide; [|done]. subst.
      apply elem_of_app in Hw as [Hw|Hw%list_elem_of_singleton]; done.
  - intros w. simpl. destruct (decide (w = lq_next q)) as [->|Hne]; [lia|].
    rewrite lookup_insert_ne by done. intros Hw. specialize (H4 w Hw). lia.
Qed.

(** [Leave] takes exactly [w] out of its queue, keeps everyone else's order, and
    when [w] was at the head signals the waiter that takes its place. *)
Lemma Leave_cases q w :
  queues_wf q -> let name := lockName_of q w in
  ((w ∉ queue_of q name) /\ Leave q w = q) \/
  (exists l r q', queue_of q name = l ++ w :: r /\ (w ∉ l) /\
     (forall n, queue_of q' n = if decide (n = name) then l ++ r else queue_of q n) /\
     lq_waiters q' = lq_waiters q /\ lq_next q' = lq_next q /\
     (forall ws, queues q' !! name = Some ws -> ws <> []) /\
     (forall n, n <> name -> queues q' !! n = queues q !! n) /\
     Leave q w = match l, r with [], h :: _ => wake q' h | _, _ => q' end).
Proof.
  intros Hwf name. unfold Leave. fold name.
  destruct (slices_Index_spec (queue_of q name) w) as [[Hn ->]|(l&r&Hq&Hl&->)]; [by left|right].
  destruct (Z.ltb_spec (Z.of_nat (length l)) 0) as [|_]; [lia|].
  rewrite Hq, slices_Delete_mid. destruct (l ++ r) as [|h t] eqn:E.
  - apply app_eq_nil in E as [-> ->].
    exists [], [], (mkQueues (delete name (queues q)) (lq_waiters q) (lq_next q)). split_and!; try done.
    + intros n. unfold queue_of; simpl. rewrite lookup_delete.
      destruct (decide (name = n)), (decide (n = name)); simpl; congruence.
    + simpl. intros ws. by rewrite lookup_delete_eq.
    + intros n Hne. simpl. by rewrite lookup_delete_ne.
  - exists l, r, (mkQueues (<[name := h :: t]> (queues q)) (lq_waiters q) (lq_next q)). split_and!; try done.
    + intros n. unfold queue_of; simpl. rewrite lookup_insert.
      destruct (decide (name = n)), (decide (n = name)); simpl; congruence.
    + simpl. intros ws. rewrite lookup_insert_eq. congruence.
    + intros n Hne. simpl. by rewrite lookup_insert_ne.
    + destruct l as [|x l]; simpl in E |- *; [by subst|].
      destruct (Z.eqb_spec (Z.of_nat (S (length l))) 0); [lia|done].
Qed.

Lemma queue_of_Leave q w n :
  queues_wf q -> queue_of (Leave q w) n = filter (fun x => x <> w) (queue_of q n).
Proof.
  intros Hwf. assert (Hid : forall l : list Z, w ∉ l -> filter (fun x => x <> w) l = l).
  { induction l as [|x l IH]; intros Hl; [done|]. rewrite filter_cons, decide_True, IH; set_solver. }
  destruct (Leave_cases q w Hwf) as [[Hn ->]|(l&r&q'&Hq&Hl&Hq'&_&_&_&_&->)].
  - rewrite Hid; [done|]. intros Hw. by rewrite (lockName_of_queued q n w Hwf Hw) in Hn.
  - replace (queue_of _ n) with (queue_of q' n) by (destruct l, r; by rewrite ?queue_of_wake).
    rewrite Hq'. case_decide as E.
    + subst n. pose proof (q_nodup _ Hwf (lockName_of q w)) as Hnd. rewrite Hq in Hnd |- *.
      apply list.NoDup_app in Hnd as (_&_&Hnd%NoDup_cons_1_1).
      rewrite list.filter_app, filter_cons, decide_False by tauto. by rewrite !Hid.
    + rewrite Hid; [done|]. intros Hw. by rewrite (lockName_of_queued q n w Hwf Hw) in E.
Qed.

Lemma lockName_Leave q w v :
  lockName <$> lq_waiters (Leave q w) !! v = lockName <$> lq_waiters q !! v.
Proof.
  unfold Leave. repeat break_match; try done; by rewrite lockName_wake.
Qed.

Lemma Leave_wf q w : queues_wf q -> queues_wf (Leave q w).
Proof.
  intros Hwf. pose proof Hwf as [H1 H2 H3 H4]. split.
  - intros n ws Hn. destruct (Leave_cases q w Hwf) as [[_ E]|(l&r&q'&_&_&_&_&_&Hne&Ho&E)]; rewrite E in Hn; [eauto|].
    assert (queues q' !! n = Some ws) as Hn' by (by destruct l, r).
    destruct (decide (n = lockName_of q w)) as [->|]; [eauto|]. rewrite Ho in Hn' by done. eauto.
  - intros n. rewrite queue_of_Leave by done. apply list.NoDup_filter, H2.
  - intros n v. rewrite queue_of_Leave, lockName_Leave by done. intros [_ ?]%list_elem_of_filter. auto.
  - intros v [x Hx]. pose proof (lockName_Leave q w v) as E. rewrite Hx in E.
    assert (lq_next (Leave q w) = lq_next q) as ->.
    { destruct (Leave_cases q w Hwf) as [[_ ->]|(l&r&q'&_&_&_&_&Hnx&_&_&->)]; [done|]. by destruct l, r. }
    apply H4. by destruct (lq_waiters q !! v).
Qed.

Lemma Ready_wf q w q' : Ready q w = Some q' -> queues_wf q -> queues_wf q'.
Proof.
  unfold Ready. intros Hr [H1 H2 H3 H4]. destruct (lq_waiters q !! w) as [x|] eqn:Hx; [|done]; simpl in Hr.
  destruct (ready x); [|done]. injection Hr as <-. split; [exact H1|exact H2|..].
  - intros n v Hv. simpl. destruct (decide (v = w)) as [->|].
    + rewrite lookup_insert_eq. simpl. specialize (H3 n w Hv). by rewrite Hx in H3.
    + rewrite lookup_insert_ne by done. by apply H3.
  - intros v. simpl. destruct (decide (v = w)) as [->|].
    + intros _. apply H4. by rewrite Hx.
    + rewrite lookup_insert_ne by done. apply H4.
Qed.

Lemma newLockQueues_wf : queues_wf newLockQueues.
Proof. split; unfold queue_of; simpl; intros *; rewrite ?lookup_empty; simpl; [done|apply NoDup_nil_2|by intros ?%elem_of_nil|by intros [? ?]]. Qed.

#[export] Hint Resolve Join_wf Leave_wf wake_wf wakeHead_wf newLockQueues_wf : clavis.
