(* ===== verification/Json.v ===== *)
(** * JSON values as Go's [encoding/json] maps them to Go types

    A document is a tree; the text layer (scanning, escaping) is not modelled. The
    decoders follow the package's rules: [null] leaves a scalar unchanged and makes
    a pointer or map nil, a missing field keeps its value, an unknown field is
    ignored, a field name is matched exactly or else ignoring ASCII case, a
    repeated field is decoded again into the same place, and a value of the wrong
    type is an error. *)

From Stdlib Require Import Ascii.
From S2P Require Import Prelude Errors.

#[warnings="-register-all"]
Inductive json :=
| JNull
| JBool (b : bool)
| JInt (z : Z)                  (* a number written as an integer *)
| JFrac (literal : string)      (* any other number *)
| JString (s : string)
| JArray (l : list json)
| JObject (fields : list (string * json)).

Definition type_error : error := Errorf "json: cannot unmarshal value".

Fixpoint foldM {E A B} (f : A -> B -> result E A) (a : A) (l : list B) : result E A :=
  match l with
  | [] => Ok a
  | b :: l' => let? a' := f a b in foldM f a' l'
  end.

(** ** Scalars *)

Definition decode_string (cur : string) (j : json) : result error string :=
  match j with JString s => Ok s | JNull => Ok cur | _ => Err type_error end.

Definition decode_uint64 (cur : Z) (j : json) : result error Z :=
  match j with
  | JInt z => if decide (is_u64 z) then Ok z else Err type_error
  | JNull => Ok cur
  | _ => Err type_error
  end.

Definition decode_int64 (cur : Z) (j : json) : result error Z :=
  match j with
  | JInt z => if decide (is_i64 z) then Ok z else Err type_error
  | JNull => Ok cur
  | _ => Err type_error
  end.

(** ** Structs, pointers and maps *)

(** Field names match exactly, or else when they fold to the same name. *)
Definition upper (c : ascii) : ascii :=
  let n := N_of_ascii c in
  if (andb (97 <=? n) (n <=? 122))%N then ascii_of_N (n - 32) else c.

(** Beside the ASCII letters, two runes fold to one: the long s (bytes C5 BF) to [S]
    and the Kelvin sign (bytes E2 84 AA) to [K]. Every other rune folds to one
    outside ASCII, as it stands here, and the names of the fields are ASCII. *)
Fixpoint fold_name (s : string) : string :=
  match s with
  | "" => ""
  | String "197" (String "191" s') => String "S" (fold_name s')
  | String "226" (String "132" (String "170" s')) => String "K" (fold_name s')
  | String c s' => String (upper c) (fold_name s')
  end%string.

Example fold_kelvin : fold_name (String "226" (String "132" (String "170" "ey"))) = "KEY"%string.
Proof. reflexivity. Qed.

(** The struct's field that [key] names, if any. *)
Definition field_for (names : list string) (key : string) : option string :=
  if existsb (String.eqb key) names then Some key
  else List.find (fun n => String.eqb (fold_name n) (fold_name key)) names.

Definition decode_struct {A} (names : list string) (set : A -> string -> json -> result error A)
    (cur : A) (fields : list (string * json)) : result error A :=
  foldM (fun a '(key, j) =>
    match field_for names key with Some n => set a n j | None => Ok a end) cur fields.

(** Decoding into a nil [*A]; [zero] is a fresh struct. *)
Definition decode_ptr {A} (names : list string) (set : A -> string -> json -> result error A)
    (zero : A) (j : json) : result error (option A) :=
  match j with
  | JNull => Ok None
  | JObject fields => let? a := decode_struct names set zero fields in Ok (Some a)
  | _ => Err type_error
  end.

(** Decoding into a map: a nil map is allocated, an existing one is extended. *)
Definition decode_map {K V} `{Countable K} (key_of : string -> option K) (value_of : json -> result error V)
    (cur : option (gmap K V)) (j : json) : result error (option (gmap K V)) :=
  match j with
  | JNull => Ok None
  | JObject fields =>
    let? m := foldM (fun m '(key, j) =>
      let? v := value_of j in
      match key_of key with Some k => Ok (<[k := v]> m) | None => Err type_error end)
      (default ∅ cur) fields in
    Ok (Some m)
  | _ => Err type_error
  end.

(** Maps are written with their keys in increasing string order. *)
Definition key_le (x y : string * json) : Prop := String.leb x.1 y.1 = true.
Global Instance key_le_dec x y : Decision (key_le x y).
Proof. unfold key_le. apply _. Defined.

Definition encode_map {K V} `{Countable K} (name_of : K -> string) (value : V -> json)
    (m : option (gmap K V)) : json :=
  match m with
  | None => JNull
  | Some m => JObject (merge_sort key_le ((fun e => (name_of e.1, value e.2)) <$> map_to_list m))
  end.

Definition encode_ptr {A} (value : A -> json) (p : option A) : json :=
  match p with None => JNull | Some a => value a end.

(** ** [map[uint64]] keys: decimal strings *)

Definition FormatUint (z : Z) : string := pretty (Z.to_N z).

Definition digit (c : ascii) : option Z :=
  let n := Z.of_N (N_of_ascii c) - 48 in if (0 <=? n) && (n <=? 9) then Some n else None.

Fixpoint parse_digits (s : string) (acc : Z) : option Z :=
  match s with
  | EmptyString => Some acc
  | String c s' => match digit c with Some d => parse_digits s' (acc * 10 + d) | None => None end
  end.

(** [strconv.ParseUint(s, 10, 64)] *)
Definition ParseUint (s : string) : option Z :=
  if String.eqb s "" then None else
  n ← parse_digits s 0; if decide (is_u64 n) then Some n else None.

Lemma digit_pretty n : (n < 10)%N -> digit (pretty_N_char n) = Some (Z.of_N n).
Proof.
  intros Hn. destruct n as [|p]; [done|].
  do 4 (destruct p as [p|p|]; [| |done]); lia.
Qed.

Lemma parse_pretty_go n s : parse_digits (pretty_N_go n s) 0 = parse_digits s (Z.of_N n).
Proof.
  revert s. induction (N.lt_wf_0 n) as [n _ IH]; intros s.
  destruct (decide (n = 0)%N) as [->|Hn]; [done|].
  rewrite pretty_N_go_step, IH by (try apply N.div_lt; lia).
  cbn [parse_digits]. rewrite digit_pretty by (apply N.mod_lt; lia). f_equal.
  pose proof (N.div_mod n 10). lia.
Qed.

Lemma ParseUint_Format z : is_u64 z -> ParseUint (FormatUint z) = Some z.
Proof.
  intros Hz. unfold ParseUint, FormatUint, pretty, pretty_N. unfold is_u64 in Hz.
  destruct (decide (Z.to_N z = 0)%N) as [E|E].
  - by assert (z = 0) as -> by lia.
  - assert (Hne : pretty_N_go (Z.to_N z) "" <> ""%string).
    { intros H. pose proof (parse_pretty_go (Z.to_N z) "") as P. rewrite H in P. simpl in P. simplify_eq. lia. }
    destruct (String.eqb_spec (pretty_N_go (Z.to_N z) "") ""); [done|].
    rewrite parse_pretty_go. simpl. rewrite Z2N.id, decide_True by (unfold is_u64; lia). done.
Qed.

(** ** Decoding what was encoded *)

Lemma decode_uint64_ok cur z : is_u64 z -> decode_uint64 cur (JInt z) = Ok z.
Proof. intros Hz. unfold decode_uint64. by rewrite decide_True. Qed.

Lemma decode_int64_ok cur z : is_i64 z -> decode_int64 cur (JInt z) = Ok z.
Proof. intros Hz. unfold decode_int64. by rewrite decide_True. Qed.

Section entries.
Context {K V : Type} `{Countable K}.

Lemma lookup_foldl_insert (m acc : gmap K V) l k :
  Forall (fun e => m !! e.1 = Some e.2) l ->
  foldl (fun m e => <[e.1 := e.2]> m) acc l !! k = if decide (k ∈ l.*1) then m !! k else acc !! k.
Proof.
  revert acc. induction l as [|[k' v] l IH]; intros acc Hall; cbn [foldl].
  { rewrite decide_False; [done|]. apply not_elem_of_nil. }
  apply Forall_cons_iff in Hall as [Hkv Hall]. rewrite IH by done. rewrite fmap_cons.
  cbn [fst snd] in *. destruct (decide (k = k')) as [->|Hne].
  - rewrite (decide_True (P := k' ∈ k' :: _)) by left. case_decide; [done|].
    by rewrite lookup_insert_eq.
  - rewrite lookup_insert_ne by done. apply decide_ext. rewrite elem_of_cons. intuition congruence.
Qed.

Context (name_of : K -> string) (key_of : string -> option K).
Context (value : V -> json) (value_of : json -> result error V).

Lemma fold_entries (m acc : gmap K V) l :
  (forall k v, m !! k = Some v -> key_of (name_of k) = Some k /\ value_of (value v) = Ok v) ->
  Forall (fun e => m !! e.1 = Some e.2) l ->
  foldM (fun m '(key, j) => let? v := value_of j in
    match key_of key with Some k => Ok (<[k := v]> m) | None => Err type_error end)
    acc (map (fun e => (name_of e.1, value e.2)) l) =
  Ok (foldl (fun m e => <[e.1 := e.2]> m) acc l).
Proof.
  intros Hm. revert acc. induction l as [|[k v] l IH]; intros acc Hall; [done|].
  apply Forall_cons_iff in Hall as [Hkv Hall]. simpl in Hkv |- *.
  destruct (Hm k v Hkv) as [-> ->]. simpl. by apply IH.
Qed.
End entries.

Lemma decode_map_encode {K V} `{Countable K} (name_of : K -> string) (key_of : string -> option K)
    (value : V -> json) (value_of : json -> result error V) (m : gmap K V) :
  (forall k v, m !! k = Some v -> key_of (name_of k) = Some k /\ value_of (value v) = Ok v) ->
  decode_map key_of value_of None (encode_map name_of value (Some m)) = Ok (Some m).
Proof.
  intros Hm. unfold decode_map, encode_map. cbn [default].
  set (es := merge_sort _ _).
  assert (Hp : es ≡ₚ (fun e => (name_of e.1, value e.2)) <$> map_to_list m)
    by apply merge_sort_Permutation.
  apply Permutation_map_inv in Hp as (l&->&Hl).
  assert (Hall : Forall (fun e => m !! e.1 = Some e.2) l).
  { apply list.Forall_forall. intros [k v] Hin. simpl. apply elem_of_map_to_list. by rewrite Hl. }
  rewrite (fold_entries _ _ _ _ m) by done. simpl. do 2 f_equal.
  apply map_eq. intros k. rewrite (lookup_foldl_insert m) by done.
  case_decide as Hin; [done|]. rewrite lookup_empty. symmetry.
  destruct (m !! k) as [v|] eqn:E; [|done]. destruct Hin. rewrite <-Hl.
  apply list_elem_of_fmap. exists (k, v). split; [done|]. by apply elem_of_map_to_list.
Qed.
