(* ===== verification/RaftFsm.v ===== *)
(** * The adapter between the Raft library and the state machine
    (internal/state/raft_fsm.go)

    Log entries carry protobuf bytes, snapshots a JSON document. The protobuf
    library is a parameter ([ProtoCodec]); JSON documents are the trees of Json. *)

From S2P Require Import Prelude GoTime Errors Domain Raftlog Fsm FsmInv Json.

(** ** Log entries *)

(** A command as the program builds it: its payload holds a message, and its
    numbers are in the range of their Go types. *)
Definition wire_ok (cmd : CommandWrapper) : Prop :=
  0 <= cmd_Type cmd < two_31 /\
  match cmd_Payload cmd with
  | Some (CommandWrapper_CreateLease (Some c)) => is_i64 (CL_TtlNanos c) /\ is_i64 (CL_CreateAtUnixNano c)
  | Some (CommandWrapper_AcquireLock (Some c)) => is_u64 (AL_LeaseId c) /\ is_i64 (AL_AcquiredAtUnixNano c)
  | Some (CommandWrapper_ReleaseLock (Some c)) => is_u64 (RL_LeaseId c)
  | Some (CommandWrapper_ExpireLease (Some c)) => is_u64 (EL_LeaseId c) /\ is_i64 (EL_ExpiredAtUnixNano c)
  | Some (CommandWrapper_UpsertEndpoint (Some _)) | Some (CommandWrapper_RemoveEndpoint (Some _)) => True
  | _ => False
  end.

(** [proto.Marshal] and [proto.Unmarshal] on [CommandWrapper]; [bytes] is
    [[]byte]. Marshalling can fail, for instance on a string that is not UTF-8.
    Unmarshalling gives back what was marshalled, and only numbers that fit. The
    library's errors are its own: only their text matters to the program. *)
Class ProtoCodec := {
  bytes : Type;
  Marshal : CommandWrapper -> result string bytes;
  Unmarshal : bytes -> result string CommandWrapper;
  unmarshal_marshal : forall cmd b, wire_ok cmd -> Marshal cmd = Ok b -> Unmarshal b = Ok cmd;
  unmarshal_typed : forall b cmd, Unmarshal b = Ok cmd -> typed cmd
}.

(** What [RaftFSM.Apply] hands back to the Raft library as [any]. *)
Inductive any := AnyErr (err : error) | AnyResp (r : Response).

Section apply.
Context {RO : RangeOrder} {PC : ProtoCodec}.

(** The new state, the freed lock names and the value returned. *)
Definition RaftFSM_Apply (f : FSM) (data : bytes) : FSM * list string * any :=
  match Unmarshal data with
  | Err err => (f, [], AnyErr (Errorf err))
  | Ok wrapper =>
    let a := FSM_Apply f wrapper in
    match response a with
    | Err err => (post a, freed a, AnyErr err)
    | Ok result => (post a, freed a, AnyResp result)
    end
  end.
End apply.

(** ** Snapshots *)

(** Maps and pointers can be nil in a decoded snapshot. *)
Record fsmSnapshot := mkSnapshot {
  Locks : option (gmap string (option Lock));
  Leases : option (gmap Z (option Lease));
  Endpoints : option (gmap string string);
  FencingCounter : Z;
  NextLeaseID : Z
}.

Definition copy_entries {RO : RangeOrder} {K V W} `{Countable K} (copy : V -> W) (m : gmap K V) : gmap K W :=
  foldl (fun acc e => <[e.1 := copy e.2]> acc) ∅ (range m).

Definition Snapshot {RO : RangeOrder} (f : FSM) : fsmSnapshot :=
  mkSnapshot (Some (copy_entries Some (locks f))) (Some (copy_entries Some (leases f)))
             (Some (copy_entries id (endpoints f))) (fencingCounter f) (nextLeaseID f).

(** *** The JSON form of a snapshot *)

Definition encode_Lock (l : Lock) : json := JObject [
  ("Name", JString (Lock_Name l)); ("OwnerID", JString (Lock_OwnerID l));
  ("FencingToken", JInt (Lock_FencingToken l)); ("LeaseID", JInt (Lock_LeaseID l))].
Definition encode_Lease (l : Lease) : json := JObject [
  ("LeaseID", JInt (Lease_LeaseID l)); ("OwnerID", JString (Lease_OwnerID l));
  ("ExpiresAtUnixNano", JInt (ExpiresAtUnixNano l)); ("TTL", JInt (Lease_TTL l))].
Definition encode_fsmSnapshot (s : fsmSnapshot) : json := JObject [
  ("locks", encode_map id (encode_ptr encode_Lock) (Locks s));
  ("leases", encode_map FormatUint (encode_ptr encode_Lease) (Leases s));
  ("endpoints", encode_map id JString (Endpoints s));
  ("fencing_counter", JInt (FencingCounter s));
  ("next_lease_id", JInt (NextLeaseID s))].

Definition Lock_fields : list string := ["Name"; "OwnerID"; "FencingToken"; "LeaseID"].
Definition set_Lock (l : Lock) (field : string) (j : json) : result error Lock :=
  match field with
  | "Name" => let? v := decode_string (Lock_Name l) j in
      Ok (mkLock v (Lock_OwnerID l) (Lock_FencingToken l) (Lock_LeaseID l))
  | "OwnerID" => let? v := decode_string (Lock_OwnerID l) j in
      Ok (mkLock (Lock_Name l) v (Lock_FencingToken l) (Lock_LeaseID l))
  | "FencingToken" => let? v := decode_uint64 (Lock_FencingToken l) j in
      Ok (mkLock (Lock_Name l) (Lock_OwnerID l) v (Lock_LeaseID l))
  | "LeaseID" => let? v := decode_uint64 (Lock_LeaseID l) j in
      Ok (mkLock (Lock_Name l) (Lock_OwnerID l) (Lock_FencingToken l) v)
  | _ => Ok l
  end%string.

Definition Lease_fields : list string := ["LeaseID"; "OwnerID"; "ExpiresAtUnixNano"; "TTL"].
Definition set_Lease (l : Lease) (field : string) (j : json) : result error Lease :=
  match field with
  | "LeaseID" => let? v := decode_uint64 (Lease_LeaseID l) j in
      Ok (mkLease v (Lease_OwnerID l) (ExpiresAtUnixNano l) (Lease_TTL l))
  | "OwnerID" => let? v := decode_string (Lease_OwnerID l) j in
      Ok (mkLease (Lease_LeaseID l) v (ExpiresAtUnixNano l) (Lease_TTL l))
  | "ExpiresAtUnixNano" => let? v := decode_int64 (ExpiresAtUnixNano l) j in
      Ok (mkLease (Lease_LeaseID l) (Lease_OwnerID l) v (Lease_TTL l))
  | "TTL" => let? v := decode_int64 (Lease_TTL l) j in
      Ok (mkLease (Lease_LeaseID l) (Lease_OwnerID l) (ExpiresAtUnixNano l) v)
  | _ => Ok l
  end%string.

Definition decode_Lock : json -> result error (option Lock) :=
  decode_ptr Lock_fields set_Lock (mkLock "" "" 0 0).
Definition decode_Lease : json -> result error (option Lease) :=
  decode_ptr Lease_fields set_Lease (mkLease 0 "" 0 0).

Definition snapshot_fields : list string :=
  ["locks"; "leases"; "endpoints"; "fencing_counter"; "next_lease_id"].
Definition set_snapshot (s : fsmSnapshot) (field : string) (j : json) : result error fsmSnapshot :=
  match field with
  | "locks" => let? v := decode_map Some decode_Lock (Locks s) j in
      Ok (mkSnapshot v (Leases s) (Endpoints s) (FencingCounter s) (NextLeaseID s))
  | "leases" => let? v := decode_map ParseUint decode_Lease (Leases s) j in
      Ok (mkSnapshot (Locks s) v (Endpoints s) (FencingCounter s) (NextLeaseID s))
  | "endpoints" => let? v := decode_map Some (decode_string "") (Endpoints s) j in
      Ok (mkSnapshot (Locks s) (Leases s) v (FencingCounter s) (NextLeaseID s))
  | "fencing_counter" => let? v := decode_uint64 (FencingCounter s) j in
      Ok (mkSnapshot (Locks s) (Leases s) (Endpoints s) v (NextLeaseID s))
  | "next_lease_id" => let? v := decode_uint64 (NextLeaseID s) j in
      Ok (mkSnapshot (Locks s) (Leases s) (Endpoints s) (FencingCounter s) v)
  | _ => Ok s
  end%string.

(** [json.NewDecoder(r).Decode(&snap)] with a zero [snap]. *)
Definition decode_fsmSnapshot (j : json) : result error fsmSnapshot :=
  match j with
  | JObject fields => decode_struct snapshot_fields set_snapshot (mkSnapshot None None None 0 0) fields
  | JNull => Ok (mkSnapshot None None None 0 0)
  | _ => Err type_error
  end.

(** *** Validation and restore *)

Section restore.
Context {RO : RangeOrder}.

Definition check_lease (e : Z * option Lease) : option error :=
  match e.2 with
  | None => Some (Errorf ("snapshot lease " +:+ pretty e.1 +:+ " is nil"))
  | Some lease =>
    if ExpiresAtUnixNano lease <=? 0 then Some (Errorf ("snapshot lease " +:+ pretty e.1 +:+ " has invalid expiry"))
    else if Lease_TTL lease <=? 0 then Some (Errorf ("snapshot lease " +:+ pretty e.1 +:+ " has invalid ttl"))
    else None
  end.

Definition check_endpoint (e : string * string) : option error :=
  if String.eqb e.1 "" then Some (Errorf "snapshot endpoint has empty node id")
  else if String.eqb e.2 "" then Some (Errorf ("snapshot endpoint " +:+ e.1 +:+ " has empty grpc address"))
  else None.

(** The first error of a loop that returns on an error. *)
Fixpoint first_error {A} (check : A -> option error) (l : list A) : option error :=
  match l with
  | [] => None
  | x :: l' => match check x with Some e => Some e | None => first_error check l' end
  end.

Definition validateSnapshot (snap : fsmSnapshot) : option error :=
  match Locks snap with
  | None => Some (Errorf "snapshot locks missing")
  | Some _ =>
    match Leases snap with
    | None => Some (Errorf "snapshot leases missing")
    | Some ls =>
      match first_error check_lease (range ls) with
      | Some e => Some e
      | None => first_error check_endpoint (range (default ∅ (Endpoints snap)))
      end
    end
  end.

(** What [Restore] leaves behind: an error and the old state, the new state, or
    a state whose lock table holds a nil pointer, which the code accepts and the
    first [GetLock] or [Snapshot] dereferences. *)
Inductive Restored :=
| RestoreErr (err : error) (unchanged : FSM)
| RestoreOk (f : FSM)
| RestoreNilLock.

(** [doc] is what the JSON scanner reads from the snapshot. *)
Definition Restore (f : FSM) (doc : result error json) : Restored :=
  match (let? j := doc in decode_fsmSnapshot j) with
  | Err err => RestoreErr err f
  | Ok snap =>
    let snap := mkSnapshot (Locks snap) (Leases snap) (Some (default ∅ (Endpoints snap)))
                           (FencingCounter snap) (NextLeaseID snap) in
    match validateSnapshot snap with
    | Some err => RestoreErr err f
    | None =>
      let ls := default ∅ (Locks snap) in
      if decide (map_Forall (fun _ l => is_Some l) ls)
      then RestoreOk (mkFSM (omap id ls) (omap id (default ∅ (Leases snap)))
                            (default ∅ (Endpoints snap)) (FencingCounter snap) (NextLeaseID snap))
      else RestoreNilLock
    end
  end.
End restore.

(** ** Persist *)

(** Calls on the library's snapshot sink. *)
Inductive sink_call := SinkWrite (doc : json) | SinkCancel | SinkClose.

(** [write] and [close] are what the sink's [Write] and [Close] return. *)
Definition Persist (snap : fsmSnapshot) (write close : option error) : list sink_call * option error :=
  let doc := encode_fsmSnapshot snap in
  match write with
  | Some err => ([SinkWrite doc; SinkCancel], Some err)
  | None => ([SinkWrite doc; SinkClose], close)
  end.

Global Arguments Restore : simpl never.
Global Arguments decode_fsmSnapshot : simpl never.

(** A concrete codec, used to evaluate the model: an entry is its command. *)
Lemma wire_typed cmd : wire_ok cmd -> typed cmd.
Proof.
  destruct cmd as [t p]. unfold wire_ok, typed. cbn. intros [_ H].
  repeat case_match; simplify_eq/=; try done; split_and!; first [tauto | done].
Qed.

Definition id_codec : ProtoCodec.
Proof.
  refine {| bytes := CommandWrapper; Marshal := Ok;
    Unmarshal cmd := if decide (typed cmd) then Ok cmd else Err "proto: invalid wire format"%string |}.
  - intros cmd b Hw [= <-]. by rewrite decide_True by (by apply wire_typed).
  - intros b cmd Hd. case_decide; by simplify_eq.
Defined.
