(* ===== verification/RaftFsmProps.v ===== *)
(** * Snapshots: what Persist writes, Restore gives back *)

From S2P Require Import Prelude GoTime Errors Domain Raftlog Fsm FsmInv Json RaftFsm.

(** ** Snapshots are copies *)

Section snapshots.
Context {RO : RangeOrder}.

Lemma copy_entries_fmap {K V W} `{Countable K} (copy : V -> W) (m : gmap K V) :
  copy_entries copy m = copy <$> m.
Proof.
  unfold copy_entries. apply map_eq. intros k.
  pose proof (lookup_foldl_insert (copy <$> m) ∅ (prod_map id copy <$> range m) k) as Hl.
  rewrite foldl_fmap in Hl. rewrite <-list_fmap_compose in Hl.
  etrans; [apply Hl|]; clear Hl; rewrite ?lookup_empty.
  2:{ case_decide as Hin; [done|]. symmetry. rewrite lookup_fmap.
    destruct (m !! k) as [v|] eqn:E; [|done]. destruct Hin.
    apply list_elem_of_fmap. exists (k, v). split; [done|]. by apply elem_of_range. }
  apply list.Forall_forall. intros e ([k' v]&->&Hin%elem_of_range)%list_elem_of_fmap. simpl.
    by rewrite lookup_fmap, Hin.
Qed.

Lemma Snapshot_eq f :
  Snapshot f = mkSnapshot (Some (Some <$> locks f)) (Some (Some <$> leases f)) (Some (endpoints f))
                          (fencingCounter f) (nextLeaseID f).
Proof. unfold Snapshot. by rewrite !copy_entries_fmap, map_fmap_id. Qed.

(** ** Decoding an encoded snapshot *)

Lemma decode_encode_Lock l : is_u64 (Lock_FencingToken l) -> is_u64 (Lock_LeaseID l) ->
  decode_Lock (encode_ptr encode_Lock (Some l)) = Ok (Some l).
Proof.
  intros H1 H2. unfold decode_Lock, decode_ptr, encode_ptr, encode_Lock, decode_struct.
  cbn -[decode_uint64]. rewrite decode_uint64_ok by done. cbn -[decode_uint64].
  rewrite decode_uint64_ok by done. by destruct l.
Qed.

Lemma decode_encode_Lease s :
  is_u64 (Lease_LeaseID s) -> is_i64 (ExpiresAtUnixNano s) -> is_i64 (Lease_TTL s) ->
  decode_Lease (encode_ptr encode_Lease (Some s)) = Ok (Some s).
Proof.
  intros H1 H2 H3. unfold decode_Lease, decode_ptr, encode_ptr, encode_Lease, decode_struct.
  cbn -[decode_uint64 decode_int64]. rewrite decode_uint64_ok by done.
  cbn -[decode_int64]. rewrite decode_int64_ok by done.
  cbn -[decode_int64]. rewrite decode_int64_ok by done. by destruct s.
Qed.

(** Every pointer of a snapshot is set, and every number fits its type. *)
Record snapshot_ok (s : fsmSnapshot) : Prop := {
  so_locks : exists m, Locks s = Some m /\ forall n p, m !! n = Some p ->
    exists l, p = Some l /\ is_u64 (Lock_FencingToken l) /\ is_u64 (Lock_LeaseID l);
  so_leases : exists m, Leases s = Some m /\ forall i p, m !! i = Some p -> is_u64 i /\
    exists l, p = Some l /\ is_u64 (Lease_LeaseID l) /\ is_i64 (ExpiresAtUnixNano l) /\ is_i64 (Lease_TTL l);
  so_endpoints : is_Some (Endpoints s);
  so_counters : is_u64 (FencingCounter s) /\ is_u64 (NextLeaseID s)
}.

Lemma decode_encode_snapshot s : snapshot_ok s -> decode_fsmSnapshot (encode_fsmSnapshot s) = Ok s.
Proof.
  intros [(lm&El&Hl) (sm&Es&Hs) [em Ee] [Hc Hn]]. destruct s as [? ? ? c n]; cbn in *; subst.
  unfold decode_fsmSnapshot, encode_fsmSnapshot, decode_struct. cbn [Locks Leases Endpoints FencingCounter NextLeaseID].
  cbn -[decode_map encode_map decode_uint64].
  rewrite decode_map_encode by (intros k v Hk; destruct (Hl k v Hk) as (l&->&?&?); auto using decode_encode_Lock).
  cbn -[decode_map encode_map decode_uint64].
  rewrite decode_map_encode by (intros k v Hk; destruct (Hs k v Hk) as (?&l&->&?&?&?);
    auto using decode_encode_Lease, ParseUint_Format).
  cbn -[decode_map encode_map decode_uint64].
  rewrite decode_map_encode by done.
  cbn -[decode_uint64]. rewrite decode_uint64_ok by done.
  cbn -[decode_uint64]. by rewrite decode_uint64_ok.
Qed.

Lemma Snapshot_ok f : fsm_wf f -> snapshot_ok (Snapshot f).
Proof.
  intros Hwf. pose proof (wf_counter f Hwf). pose proof (wf_next f Hwf). rewrite Snapshot_eq. split; cbn.
  - eexists. split; [done|]. intros n p. rewrite lookup_fmap. intros (l&Hl&->)%fmap_Some.
    exists l. destruct (wf_locks f Hwf n l Hl) as [_ (s&Hs&_) Ht].
    destruct (wf_leases f Hwf _ s Hs) as [_ Hb _ _]. unfold is_u64. split_and!; try done; lia.
  - eexists. split; [done|]. intros i p. rewrite lookup_fmap. intros (s&Hs&->)%fmap_Some.
    destruct (wf_leases f Hwf i s Hs) as [Hi Hb Ht He]. unfold is_u64, is_i64. split; [lia|].
    exists s. split_and!; try done; lia.
  - eauto.
  - unfold is_u64. lia.
Qed.

(** ** Validation *)

Lemma first_error_None {A} (check : A -> option error) l :
  first_error check l = None <-> forall x, x ∈ l -> check x = None.
Proof.
  induction l as [|x l IH]; simpl; [split; [intros _ ? []%not_elem_of_nil|done]|].
  destruct (check x) eqn:E; split; try done.
  - intros H. specialize (H x ltac:(left)). congruence.
  - intros H y [->|Hy]%elem_of_cons; [done|]. by apply IH.
  - intros H. apply IH. intros y Hy. apply H. by right.
Qed.

Lemma check_lease_None i p :
  check_lease (i, p) = None <-> exists s, p = Some s /\ 0 < ExpiresAtUnixNano s /\ 0 < Lease_TTL s.
Proof.
  unfold check_lease; simpl. destruct p as [s|]; [|split; [done|by intros (?&?&_)]].
  repeat case_match; to_prop; split; try done; first [intros (?&?&?); simplify_eq; lia|eauto].
Qed.

Lemma check_endpoint_None n a : check_endpoint (n, a) = None <-> n <> ""%string /\ a <> ""%string.
Proof.
  unfold check_endpoint; simpl. repeat case_match; to_prop; split; try done; intros [??]; congruence.
Qed.

(** Both tables are present, every lease is set and has a positive deadline and
    TTL, and every endpoint has a node id and an address. Nothing is required of
    the locks. *)
Definition snapshot_valid (snap : fsmSnapshot) : Prop :=
  is_Some (Locks snap) /\
  (exists ls, Leases snap = Some ls /\ forall i p, ls !! i = Some p ->
     exists s, p = Some s /\ 0 < ExpiresAtUnixNano s /\ 0 < Lease_TTL s) /\
  (forall es n a, Endpoints snap = Some es -> es !! n = Some a -> n <> ""%string /\ a <> ""%string).

Lemma validateSnapshot_None snap : validateSnapshot snap = None <-> snapshot_valid snap.
Proof.
  unfold validateSnapshot, snapshot_valid. destruct (Locks snap) as [lm|]; [|split; [done|by intros [[? ?] _]]].
  destruct (Leases snap) as [sm|]; [|split; [done|by intros (_&(?&?&_)&_)]].
  destruct (first_error check_lease (range sm)) as [e|] eqn:E.
  - split; [done|]. intros (_&(ls&[= <-]&Hls)&_). exfalso.
    assert (first_error check_lease (range sm) = None) as E'; [|congruence].
    apply first_error_None. intros [i p] Hin%elem_of_range. apply check_lease_None. eauto.
  - pose proof (proj1 (first_error_None _ _) E) as E'. split.
    + intros He. split_and!; [done| |].
      * eexists. split; [done|]. intros i p Hp. apply (check_lease_None i), E'. by apply elem_of_range.
      * intros es n a Hes Ha. apply check_endpoint_None. apply (proj1 (first_error_None _ _) He).
        rewrite Hes. by apply elem_of_range.
    + intros (_&_&He). apply first_error_None. intros [n a] Hin%elem_of_range. apply check_endpoint_None.
      destruct (Endpoints snap) as [es|]; [eauto|]. cbn in Hin. by rewrite lookup_empty in Hin.
Qed.

Lemma validate_Snapshot f : fsm_wf f -> validateSnapshot (Snapshot f) = None.
Proof.
  intros Hwf. rewrite Snapshot_eq. unfold validateSnapshot; cbn.
  rewrite (proj2 (first_error_None check_lease _)).
  - apply first_error_None. intros [n a] Hin%elem_of_range. apply check_endpoint_None.
    by apply (wf_endpoints f Hwf).
  - intros [i p] Hin%elem_of_range. rewrite lookup_fmap in Hin.
    apply fmap_Some in Hin as (s&Hs&->). apply check_lease_None. exists s.
    pose proof (lease_ttl _ _ _ (wf_leases f Hwf i s Hs)). split_and!; [done|lia|lia].
Qed.

Lemma restore_snapshot f g :
  fsm_wf f -> Restore g (Ok (encode_fsmSnapshot (Snapshot f))) = RestoreOk f.
Proof.
  intros Hwf. unfold Restore. cbn -[encode_fsmSnapshot].
  rewrite decode_encode_snapshot by (by apply Snapshot_ok).
  assert (Hv := validate_Snapshot f Hwf). rewrite Snapshot_eq in Hv |- *. cbn -[validateSnapshot].
  rewrite Hv. rewrite decide_True.
  - destruct f; cbn. f_equal. f_equal; apply map_eq; intros k; rewrite lookup_omap, lookup_fmap;
      by destruct (_ !! k).
  - intros k v. rewrite lookup_fmap. intros (?&_&->)%fmap_Some. done.
Qed.

(** C17: a replica that restores the snapshot taken after a log prefix and then
    applies the rest of the log ends in the state of a replica that applied the
    whole log, whatever state it had before. *)
Theorem snapshot_catch_up (stale : FSM) (log1 log2 : list CommandWrapper)
    (Hty : Forall typed log1) (Hlen : Z.of_nat (length log1) < two_64 - 1) :
  exists f, Restore stale (Ok (encode_fsmSnapshot (Snapshot (replay NewFSM log1)))) = RestoreOk f /\
            replay f log2 = replay NewFSM (log1 ++ log2).
Proof.
  exists (replay NewFSM log1). split; [|by rewrite replay_app].
  apply restore_snapshot, replay_keeps_wf; auto with clavis. split; cbn; lia.
Qed.

(** The snapshot's lock table holds a null. *)
Definition has_nil_lock (snap : fsmSnapshot) : Prop :=
  exists ls n, Locks snap = Some ls /\ ls !! n = Some None.

(** C40: what [Restore] does with any document. An undecodable or invalid one is
    refused and the old state is kept. A valid one is installed as it stands, with
    an absent endpoint table read as empty; its lock table is not validated, so a
    null lock is installed as a nil pointer. *)
Theorem restore_outcome (f : FSM) (j : json) :
  match decode_fsmSnapshot j with
  | Err e => Restore f (Ok j) = RestoreErr e f
  | Ok snap =>
    (~ snapshot_valid snap -> exists e, Restore f (Ok j) = RestoreErr e f) /\
    (snapshot_valid snap -> has_nil_lock snap -> Restore f (Ok j) = RestoreNilLock) /\
    (snapshot_valid snap -> ~ has_nil_lock snap ->
     exists g, Restore f (Ok j) = RestoreOk g /\
       (forall n l, locks g !! n = Some l <-> exists ls, Locks snap = Some ls /\ ls !! n = Some (Some l)) /\
       (forall i s, leases g !! i = Some s <-> exists ls, Leases snap = Some ls /\ ls !! i = Some (Some s)) /\
       endpoints g = default ∅ (Endpoints snap) /\
       fencingCounter g = FencingCounter snap /\ nextLeaseID g = NextLeaseID snap)
  end.
Proof.
  unfold Restore. cbn [result_bind]. destruct (decode_fsmSnapshot j) as [snap|e]; [|done].
  cbn [Locks Leases Endpoints FencingCounter NextLeaseID].
  set (snap' := mkSnapshot _ _ _ _ _).
  assert (Hval : snapshot_valid snap <-> snapshot_valid snap').
  { unfold snapshot_valid, snap'; cbn. destruct (Endpoints snap); cbn; [done|].
    intuition; simplify_eq. }
  destruct (validateSnapshot snap') as [e|] eqn:Hv.
  { assert (~ snapshot_valid snap) by (rewrite Hval, <-validateSnapshot_None; congruence).
    split; [by eauto|]. tauto. }
  apply validateSnapshot_None in Hv. split; [tauto|].
  destruct Hv as ([ls HL]&(ss&HS&Hss)&_); cbn in HL, HS. rewrite HL, HS; cbn [default].
  case_decide as Hnil; split; intros _.
  - intros (ls'&n&E&Hn). rewrite HL in E. injection E as <-. by destruct (Hnil n None Hn).
  - intros _. eexists. split; [done|]. cbn. split_and!; try done.
    + intros n l. rewrite lookup_omap_id_Some. naive_solver.
    + intros i s. rewrite lookup_omap_id_Some. naive_solver.
  - done.
  - intros Hno. destruct Hnil. intros n p Hp. destruct p; [done|]. destruct Hno. by exists ls, n.
Qed.
End snapshots.

(** A committed entry reaches the state machine as the command that was proposed. *)
Lemma RaftFSM_Apply_marshalled {RO : RangeOrder} {PC : ProtoCodec} f cmd b :
  wire_ok cmd -> Marshal cmd = Ok b ->
  RaftFSM_Apply f b =
    (post (FSM_Apply f cmd), freed (FSM_Apply f cmd),
     match response (FSM_Apply f cmd) with Ok r => AnyResp r | Err e => AnyErr e end).
Proof.
  intros Hw Hm. unfold RaftFSM_Apply. rewrite (unmarshal_marshal _ _ Hw Hm). by case_match.
Qed.

(** ** Concrete documents *)

(** A document of the first snapshot format, which had no endpoints, restores. *)
Example legacy_snapshot :
  @Restore map_order NewFSM (Ok (JObject [("locks", JObject []);
    ("leases", JObject [("3", JObject [("LeaseID", JInt 3); ("OwnerID", JString "w");
                                       ("ExpiresAtUnixNano", JInt 5000000000); ("TTL", JInt 1000000000)])]);
    ("fencing_counter", JInt 9); ("next_lease_id", JInt 4)])) =
  RestoreOk (mkFSM ∅ {[3 := mkLease 3 "w" 5000000000 1000000000]} ∅ 9 4).
Proof. vm_compute. reflexivity. Qed.

(** A null lock passes validation. *)
Example nil_lock_accepted :
  @Restore map_order NewFSM (Ok (JObject [("locks", JObject [("a", JNull)]); ("leases", JObject [])])) =
  RestoreNilLock.
Proof. vm_compute. reflexivity. Qed.

Definition snap_log : list CommandWrapper :=
  [NewCreateLeaseCmd "client-1" (10 * Second) (time_Unix 1700000000 0); NewAcquireLockCmd "alpha" "client-1" 1;
   NewUpsertEndpointCmd "node-1" "127.0.0.1:9000"].

Lemma snapshot_catch_up_witness :
  exists f, @Restore map_order NewFSM (Ok (encode_fsmSnapshot (@Snapshot map_order (@replay map_order NewFSM snap_log))))
              = RestoreOk f /\
            @replay map_order f [NewReleaseLockCmd "alpha" 1] =
              @replay map_order NewFSM (snap_log ++ [NewReleaseLockCmd "alpha" 1]).
Proof.
  apply (@snapshot_catch_up map_order NewFSM snap_log [NewReleaseLockCmd "alpha" 1]).
  - repeat first [apply Forall_nil_2 | apply Forall_cons_2]; vm_compute; repeat split; congruence.
  - vm_compute. reflexivity.
Defined.
