(* ===== verification/Node.v ===== *)
(** * A cluster node (internal/cluster/node.go, member.go and the Node methods of
    lease.go)

    The Raft library is the parameter [RaftLib]. A call into it can change its
    state and, while it runs, make it apply committed entries to this node's state
    machine; every such call therefore returns the entries applied meanwhile. What
    the library decides (who leads, what commits, what fails) is unconstrained. *)

From S2P Require Import Prelude GoTime Errors Domain Raftlog Fsm RaftFsm LeaseTracker LockQueue.

Inductive RaftState := Follower | Candidate | Leader | RaftShutdown.
Global Instance RaftState_eq_dec : EqDecision RaftState.
Proof. solve_decision. Defined.
Definition RaftState_String (s : RaftState) : string :=
  match s with
  | Follower => "Follower" | Candidate => "Candidate" | Leader => "Leader" | RaftShutdown => "Shutdown"
  end.

Inductive ServerSuffrage := Voter | Nonvoter | Staging.
Global Instance ServerSuffrage_eq_dec : EqDecision ServerSuffrage.
Proof. solve_decision. Defined.

Record Server := mkServer { Suffrage : ServerSuffrage; ServerID : string; Address : string }.

(** The end of [raft.Apply]: the entry failed, after [applied] other entries
    reached the state machine, or it was applied between [before] and [after]. *)
Inductive apply_outcome {bytes : Type} :=
| Failed (err : raft_error) (applied : list bytes)
| Committed (before after : list bytes).
Arguments apply_outcome : clear implicits.

Class RaftLib {PC : ProtoCodec} := {
  Raft : Type;
  State : Raft -> RaftState;
  CurrentTerm : Raft -> Z;
  LeaderWithID : Raft -> string * string;                   (* address, id *)
  GetConfiguration : Raft -> result raft_error (list Server);
  raft_Apply : Raft -> bytes -> Raft * apply_outcome bytes;
  Barrier : Raft -> Raft * list bytes * option raft_error;
  VerifyLeader : Raft -> Raft * list bytes * option raft_error;
  AddVoter : Raft -> string -> string -> Raft * list bytes * option raft_error;
  RemoveServer : Raft -> string -> Raft * list bytes * option raft_error
}.

Record Config := mkConfig {
  cfg_NodeID : string;                 (* the UUID's text *)
  BindAddr : string;
  RaftAdvertiseAddr : string;
  DataDir : string;
  Bootstrap : bool;
  GRPCAdvertiseAddr : string
}.

Section node.
Context {RO : RangeOrder} {PC : ProtoCodec} {RL : RaftLib}.

Record Node := mkNode {
  raft : Raft;
  fsm : FSM;
  cfg : Config;
  clockStarted : Time;
  node_leases : leaseTracker;
  node_queues : lockQueues;
  barrierTerm : Z;
  stopped : bool;                      (* stopCh is closed *)
  shutdownOnce : bool                  (* the Once has run *)
}.

Definition set_raft (n : Node) (r : Raft) : Node :=
  mkNode r (fsm n) (cfg n) (clockStarted n) (node_leases n) (node_queues n) (barrierTerm n) (stopped n) (shutdownOnce n).
Definition set_fsm (n : Node) (f : FSM) (q : lockQueues) : Node :=
  mkNode (raft n) f (cfg n) (clockStarted n) (node_leases n) q (barrierTerm n) (stopped n) (shutdownOnce n).
Definition set_leases (n : Node) (t : leaseTracker) : Node :=
  mkNode (raft n) (fsm n) (cfg n) (clockStarted n) t (node_queues n) (barrierTerm n) (stopped n) (shutdownOnce n).
Definition set_queues (n : Node) (q : lockQueues) : Node :=
  mkNode (raft n) (fsm n) (cfg n) (clockStarted n) (node_leases n) q (barrierTerm n) (stopped n) (shutdownOnce n).
Definition set_barrierTerm (n : Node) (t : Z) : Node :=
  mkNode (raft n) (fsm n) (cfg n) (clockStarted n) (node_leases n) (node_queues n) t (stopped n) (shutdownOnce n).

(** ** The apply path *)

(** The library applies one committed entry. The state machine's lock-freed hook
    is [lockQueues.wakeHead]. *)
Definition applyEntry (n : Node) (b : bytes) : Node * any :=
  let '(f, names, r) := RaftFSM_Apply (fsm n) b in
  (set_fsm n f (foldl (fun q name => lockFreed (Some (fun nm q => wakeHead q nm)) name q) (node_queues n) names), r).

Definition applyEntries (n : Node) (bs : list bytes) : Node :=
  foldl (fun n b => (applyEntry n b).1) n bs.

Definition Node_Apply (n : Node) (cmd : CommandWrapper) : Node * result error Response :=
  match Marshal cmd with
  | Err err => (n, Err (wrapf "failed to marshal proto" (Errorf err)))
  | Ok data =>
    match raft_Apply (raft n) data with
    | (r, Failed err applied) =>
        (applyEntries (set_raft n r) applied, Err (wrapf "failed to apply command" (RaftErr err)))
    | (r, Committed before after) =>
        let n := applyEntries (set_raft n r) before in
        let '(n, response) := applyEntry n data in
        let n := applyEntries n after in
        match response with
        | AnyErr err => (n, Err err)
        | AnyResp r => (n, Ok r)
        end
    end
  end.

(** ** Local reads *)

Definition IsLeader (n : Node) : bool := bool_decide (State (raft n) = Leader).

(** [now] is what [time.Now] returns at the call. *)
Definition Node_Now (n : Node) (now : Time) : Time :=
  if IsZero (clockStarted n) then UTC now
  else UTC (Add (clockStarted n) (Since now (clockStarted n))).

Definition GetLeaderID (n : Node) : string := (LeaderWithID (raft n)).2.
Definition GetNodeID (n : Node) : string := cfg_NodeID (cfg n).
Definition GetState (n : Node) : RaftState := State (raft n).
Definition GetLeader (n : Node) : string := (LeaderWithID (raft n)).1.
Definition Node_Stats (n : Node) : Stats := FSM_Stats (fsm n).

(** What the loop of [WaitForLeader] is woken by; a tick sees the node as it is then. *)
Inductive wait_event := WaitTimeout | WaitTick (n : Node).

(** [None]: still blocked after these events. *)
Fixpoint WaitForLeader (events : list wait_event) : option (option error) :=
  match events with
  | [] => None
  | WaitTimeout :: _ => Some (Some (Errorf "no leader elected within timeout"))
  | WaitTick n :: rest => if negb (String.eqb (GetLeader n) "") then Some None else WaitForLeader rest
  end.

(** ** Leases *)

Definition awaitTermApplied (n : Node) (term : Z) : Node * option error :=
  if barrierTerm n =? term then (n, None)
  else let '(r, applied, err) := Barrier (raft n) in
       let n := applyEntries (set_raft n r) applied in
       match err with
       | Some err => (n, Some (wrapf "apply earlier entries" (RaftErr err)))
       | None => (set_barrierTerm n term, None)
       end.

(** [None]: the tracker panics, see [renew]. *)
Definition Node_RenewLease (n : Node) (leaseID : Z) (now : Time) : option (Node * result error Duration) :=
  let term := CurrentTerm (raft n) in
  match awaitTermApplied n term with
  | (n, Some err) => Some (n, Err err)
  | (n, None) =>
    match GetLease (fsm n) leaseID with
    | None => Some (n, Err (Domain ErrLeaseNotFound))
    | Some lease =>
      '(t, err) ← renew (node_leases n) term (Node_Now n now) lease;
      let n := set_leases n t in
      match err with
      | Some err => Some (n, Err err)
      | None =>
        let '(r, applied, err) := VerifyLeader (raft n) in
        let n := applyEntries (set_raft n r) applied in
        match err with
        | Some err => Some (n, Err (wrapf "verify leadership" (RaftErr err)))
        | None => Some (n, Ok (Lease_TTL lease))
        end
      end
    end
  end.

Definition CheckLeaseAlive (n : Node) (leaseID : Z) (now : Time) : Node * option error :=
  match GetLease (fsm n) leaseID with
  | None => (n, Some (Domain ErrLeaseNotFound))
  | Some lease =>
    let '(t, ok) := alive (node_leases n) (CurrentTerm (raft n)) (Node_Now n now) lease in
    (set_leases n t, if ok then None else Some (Domain ErrLeaseExpired))
  end.

(** The loop over the claimed leases. *)
Fixpoint expireClaimed (n : Node) (ids : list Z) : Node :=
  match ids with
  | [] => n
  | leaseID :: rest =>
    let '(n, r) := Node_Apply n (NewExpireLeaseCmd leaseID) in
    let committed := match r with Ok _ => true | Err _ => false end in
    expireClaimed (set_leases n (finishExpiry (node_leases n) leaseID committed)) rest
  end.

(** One tick of [leaseExpiryLoop]. *)
Definition leaseExpiryTick (n : Node) (now : Time) : option Node :=
  if negb (IsLeader n) then Some n else
  let term := CurrentTerm (raft n) in
  '(t, ids) ← claimExpired (node_leases n) term (Node_Now n now) (FSM_Leases (fsm n));
  Some (expireClaimed (set_leases n t) ids).

(** What wakes a background loop: its ticker, or the closing of [stopCh]. Between
    two ticks the library moves to state [r] and applies [applied]. *)
Inductive loop_event := Stop | Tick (r : Raft) (applied : list bytes) (now : Time).

(** The node after the loop has handled [events], and whether it returned. *)
Fixpoint leaseExpiryLoop (n : Node) (events : list loop_event) : option (Node * bool) :=
  match events with
  | [] => Some (n, false)
  | Stop :: _ => Some (n, true)
  | Tick r applied now :: rest =>
      n ← leaseExpiryTick (applyEntries (set_raft n r) applied) now; leaseExpiryLoop n rest
  end.

(** ** Membership *)

Definition SelfMember (n : Node) : ClusterMember :=
  mkMember (cfg_NodeID (cfg n)) (RaftAdvertiseAddr (cfg n)) (GRPCAdvertiseAddr (cfg n)).

(** One tick of [endpointMetadataLoop]. *)
Definition endpointMetadataTick (n : Node) : Node :=
  if negb (IsLeader n) then n else
  let self := SelfMember n in
  match GetEndpoint (fsm n) (NodeID self) with
  | Some current =>
      if String.eqb current (GRPCAddress self) then n
      else (Node_Apply n (NewUpsertEndpointCmd (NodeID self) (GRPCAddress self))).1
  | None => (Node_Apply n (NewUpsertEndpointCmd (NodeID self) (GRPCAddress self))).1
  end.

Fixpoint endpointMetadataLoop (n : Node) (events : list loop_event) : Node * bool :=
  match events with
  | [] => (n, false)
  | Stop :: _ => (n, true)
  | Tick r applied _ :: rest => endpointMetadataLoop (endpointMetadataTick (applyEntries (set_raft n r) applied)) rest
  end.

Definition upsertEndpointMetadata (n : Node) (member : ClusterMember) : Node * option error :=
  match Node_Apply n (NewUpsertEndpointCmd (NodeID member) (GRPCAddress member)) with
  | (n, Err err) => (n, Some (wrapf "replicate endpoint metadata" err))
  | (n, Ok _) => (n, None)
  end.

Definition removeEndpointMetadata (n : Node) (nodeID : string) : Node * option error :=
  match Node_Apply n (NewRemoveEndpointCmd nodeID) with
  | (n, Err err) => (n, Some (wrapf "remove endpoint metadata" err))
  | (n, Ok _) => (n, None)
  end.

Definition GetLeaderGRPCAddress (n : Node) : string :=
  let leaderID := GetLeaderID n in
  if String.eqb leaderID "" then ""
  else if String.eqb leaderID (cfg_NodeID (cfg n)) then GRPCAdvertiseAddr (cfg n)
  else default ""%string (GetEndpoint (fsm n) leaderID).

(** The member record built for one server of the configuration. *)
Definition memberOf (n : Node) (server : Server) : ClusterMember :=
  mkMember (ServerID server) (Address server)
    (if String.eqb (ServerID server) (cfg_NodeID (cfg n)) then GRPCAdvertiseAddr (cfg n)
     else default ""%string (GetEndpoint (fsm n) (ServerID server))).

Definition member_le (a b : ClusterMember) : Prop := String.leb (NodeID a) (NodeID b) = true.
Global Instance member_le_dec a b : Decision (member_le a b).
Proof. unfold member_le. apply _. Defined.

(** [sort.Slice] leaves the order of equal ids open; a configuration has none. *)
Definition Members (n : Node) : list ClusterMember :=
  match GetConfiguration (raft n) with
  | Err _ => [SelfMember n]
  | Ok servers => merge_sort member_le (memberOf n <$> servers)
  end.

(** The scan of the configuration before adding a member. *)
Inductive add_scan := ScanUpsert | ScanConflict (err : error) | ScanAdd.
Fixpoint addScan (member : ClusterMember) (servers : list Server) : add_scan :=
  match servers with
  | [] => ScanAdd
  | server :: rest =>
    if String.eqb (ServerID server) (NodeID member) then
      if String.eqb (Address server) (RaftAddress member) && bool_decide (Suffrage server = Voter)
      then ScanUpsert else ScanAdd
    else if String.eqb (Address server) (RaftAddress member) then
      ScanConflict (Errorf ("raft address " +:+ RaftAddress member +:+ " is already in use by node " +:+
        ServerID server +:+ "; remove it before adding node " +:+ NodeID member))
    else addScan member rest
  end.

Definition AddClusterMember (n : Node) (member : ClusterMember) : Node * option error :=
  if negb (IsLeader n) then (n, Some (wrapf "cannot add cluster member" (RaftErr raft_ErrNotLeader))) else
  if String.eqb (NodeID member) "" || String.eqb (RaftAddress member) "" || String.eqb (GRPCAddress member) ""
  then (n, Some (Errorf "cluster member metadata is incomplete")) else
  match GetConfiguration (raft n) with
  | Err err => (n, Some (wrapf "failed to read cluster config" (RaftErr err)))
  | Ok servers =>
    match addScan member servers with
    | ScanUpsert => upsertEndpointMetadata n member
    | ScanConflict err => (n, Some err)
    | ScanAdd =>
      let '(r, applied, err) := AddVoter (raft n) (NodeID member) (RaftAddress member) in
      let n := applyEntries (set_raft n r) applied in
      match err with
      | Some err => (n, Some (wrapf "failed to add voter" (RaftErr err)))
      | None => upsertEndpointMetadata n member
      end
    end
  end.

Definition RemoveClusterMember (n : Node) (nodeID : string) : Node * option error :=
  if negb (IsLeader n) then (n, Some (wrapf "cannot remove cluster member" (RaftErr raft_ErrNotLeader))) else
  match GetConfiguration (raft n) with
  | Err err => (n, Some (wrapf "failed to read cluster config" (RaftErr err)))
  | Ok servers =>
    if negb (existsb (fun server => String.eqb (ServerID server) nodeID) servers)
    then (n, Some (Domain ErrNodeNotFound)) else
    let '(r, applied, err) := RemoveServer (raft n) nodeID in
    let n := applyEntries (set_raft n r) applied in
    match err with
    | Some err => (n, Some (wrapf "failed to remove server" (RaftErr err)))
    | None => removeEndpointMetadata n nodeID
    end
  end.

(** ** Start and stop *)

(** What the calls that assemble the Raft stack return. *)
Record Assembly := mkAssembly {
  os_MkdirAll : option error;
  as_NewStorage : option error;
  net_ResolveTCPAddr : string -> option error;
  raft_NewTCPTransport : option error;
  raft_NewRaft : string -> FSM -> result error (Raft * FSM);  (* LocalID; may restore a snapshot *)
  raft_HasExistingState : result error bool;
  BootstrapCluster : Raft -> list Server -> Raft;
  as_Now : Time
}.

(** The node, and the configuration passed to [BootstrapCluster] if it was called.
    [cfg] is passed by pointer: its defaults are filled in for the caller too. *)
Definition NewNode (a : Assembly) (cfg : Config) : Config * result error (Node * option (list Server)) :=
  let cfg := if String.eqb (RaftAdvertiseAddr cfg) ""
    then mkConfig (cfg_NodeID cfg) (BindAddr cfg) (BindAddr cfg) (DataDir cfg) (Bootstrap cfg) (GRPCAdvertiseAddr cfg)
    else cfg in
  let cfg := if String.eqb (GRPCAdvertiseAddr cfg) ""
    then mkConfig (cfg_NodeID cfg) (BindAddr cfg) (RaftAdvertiseAddr cfg) (DataDir cfg) (Bootstrap cfg) (BindAddr cfg)
    else cfg in
  (cfg,
   match os_MkdirAll a with Some err => Err (wrapf "failed to create data dir" err) | None =>
   match as_NewStorage a with Some err => Err (wrapf "failed to create stores" err) | None =>
   match net_ResolveTCPAddr a (RaftAdvertiseAddr cfg) with
   | Some err => Err (wrapf "failed to resolve raft advertise addr" err) | None =>
   match raft_NewTCPTransport a with Some err => Err (wrapf "failed to create transport" err) | None =>
   match raft_NewRaft a (cfg_NodeID cfg) NewFSM with
   | Err err => Err (wrapf "failed to create raft" err)
   | Ok (r, f) =>
     let node r := mkNode r f cfg (as_Now a) zero_tracker newLockQueues 0 false false in
     if Bootstrap cfg then
       match raft_HasExistingState a with
       | Err err => Err (wrapf "failed to check existing state" err)
       | Ok true => Ok (node r, None)
       | Ok false =>
         let servers := [mkServer Voter (cfg_NodeID cfg) (RaftAdvertiseAddr cfg)] in
         Ok (node (BootstrapCluster a r servers), Some servers)
       end
     else Ok (node r, None)
   end end end end end).

Inductive shutdown_call := ShutdownRaft | CloseTransport | CloseStorage.

(** [raftErr] is what the library's own [Shutdown] returns. *)
Definition Node_Shutdown (n : Node) (raftErr : option error) : Node * list shutdown_call * option error :=
  if shutdownOnce n then (n, [], None) else
  let n := mkNode (raft n) (fsm n) (cfg n) (clockStarted n) (node_leases n) (node_queues n) (barrierTerm n) true true in
  match raftErr with
  | Some err => (n, [ShutdownRaft], Some (wrapf "failed to shutdown raft" err))
  | None => (n, [ShutdownRaft; CloseTransport; CloseStorage], None)
  end.
End node.
