(* ===== verification/Service.v ===== *)
(** * The service layer (internal/service/service.go)

    Every operation takes the node it runs on and returns the node it leaves
    behind. [now] is what [time.Now] returns inside the call. A waiting
    [AcquireLock] is a state machine: its steps interleave with the steps of other
    calls and with the entries Raft applies. *)

From S2P Require Import Prelude GoTime Errors Domain Raftlog Fsm RaftFsm LeaseTracker LockQueue Node.

(** [as[T]]: the type switch on the FSM's untyped response. *)
Definition response_type (r : Response) : string :=
  match r with
  | RNil => "<nil>"
  | RCreateLease _ => "state.CreateLeaseResponse"
  | RAcquireLock _ => "state.AcquireLockResponse"
  | RExpireLease _ => "state.ExpireLeaseResponse"
  end.

Definition as_ {T} (cast : Response -> option T) (r : result error Response) : result error T :=
  match r with
  | Err err => Err err
  | Ok result =>
    match cast result with
    | Some typed => Ok typed
    | None => Err (Errorf ("unexpected FSM response type " +:+ response_type result))
    end
  end.

Definition to_CreateLeaseResponse (r : Response) : option CreateLeaseResponse :=
  match r with RCreateLease x => Some x | _ => None end.
Definition to_AcquireLockResponse (r : Response) : option AcquireLockResponse :=
  match r with RAcquireLock x => Some x | _ => None end.

Definition maxLeaseTTLSeconds : Z := max_int64 /i64 Second.

Definition leaseTTLDuration (ttlSeconds : Z) (now : Time) : result error Duration :=
  if ttlSeconds <=? 0 then Err (InvalidArgumentError "ttl_seconds must be greater than 0")
  else if maxLeaseTTLSeconds <? ttlSeconds
  then Err (InvalidArgumentError "ttl_seconds exceeds the maximum supported duration")
  else
    let ttl := ttlSeconds *i64 Second in
    let maxExpiryNanos := max_int64 -i64 UnixNano now in
    if (maxExpiryNanos <=? 0) || (maxExpiryNanos <? ttl)
    then Err (InvalidArgumentError "ttl_seconds exceeds the maximum supported expiry")
    else Ok ttl.

Record StatusResult := mkStatusResult {
  sr_NodeID : string;
  sr_IsLeader : bool;
  sr_LeaderGRPCAddress : string;
  sr_State : string;
  sr_GRPCAddress : string;
  sr_Members : list ClusterMember;
  sr_Stats : Stats
}.

Definition maxLockWait : Duration := 4 * Second.
Definition leaderRecheck : Duration := 250 * Millisecond.

Section service.
Context {RO : RangeOrder} {PC : ProtoCodec} {RL : RaftLib}.

Definition ensureLeader (n : Node) : option error :=
  if IsLeader n then None else Some (NotLeaderError (GetLeaderGRPCAddress n)).

Definition CreateLease (n : Node) (ownerID : string) (ttlSeconds : Z) (now : Time)
    : Node * result error CreateLeaseResponse :=
  match ensureLeader n with
  | Some err => (n, Err err)
  | None =>
    if String.eqb ownerID "" then (n, Err (InvalidArgumentError "owner_id required")) else
    let now := Node_Now n now in
    match leaseTTLDuration ttlSeconds now with
    | Err err => (n, Err err)
    | Ok ttl =>
      let '(n, r) := Node_Apply n (NewCreateLeaseCmd ownerID ttl now) in
      (n, as_ to_CreateLeaseResponse r)
    end
  end.

(** [None]: see [Node_RenewLease]. *)
Definition RenewLease (n : Node) (leaseID : Z) (now : Time) : option (Node * result error Duration) :=
  match ensureLeader n with
  | Some err => Some (n, Err err)
  | None => Node_RenewLease n leaseID now
  end.

Definition acquire (n : Node) (lockName ownerID : string) (leaseID : Z) (now : Time)
    : Node * result error AcquireLockResponse :=
  match CheckLeaseAlive n leaseID now with
  | (n, Some err) => (n, Err err)
  | (n, None) =>
    let '(n, r) := Node_Apply n (NewAcquireLockCmd lockName ownerID leaseID) in
    (n, as_ to_AcquireLockResponse r)
  end.

Definition heldBy (n : Node) (lockName : string) (leaseID : Z) : bool :=
  match GetLock (fsm n) lockName with Some lock => Lock_LeaseID lock =? leaseID | None => false end.
Definition heldByOther (n : Node) (lockName : string) (leaseID : Z) : bool :=
  match GetLock (fsm n) lockName with Some lock => negb (Lock_LeaseID lock =? leaseID) | None => false end.

(** ** AcquireLock *)

(** Where a waiting call is: before [waiter.IsHead()], before [heldByOther], before
    [acquire], blocked in the select, or returned with the deferred [Leave] run. *)
Inductive wait_pc :=
| AtHead | AtHeld | AtTry | InSelect
| Returned (r : result error AcquireLockResponse).

Record wait_call := mkCall {
  wc_lock : string;
  wc_owner : string;
  wc_lease : Z;
  wc_waiter : Z;
  wc_pc : wait_pc
}.

(** What lets a call take its next step: its own execution outside the select,
    and one of the four channels inside it. *)
Inductive call_event := Run (now : Time) | OnReady | OnRecheck | OnTimeout | OnDone.

(** Up to the point where a call has its answer or has joined the queue. *)
Definition AcquireLock (n : Node) (lockName ownerID : string) (leaseID : Z) (wait : bool) (now : Time)
    : Node * (result error AcquireLockResponse + wait_call) :=
  match ensureLeader n with
  | Some err => (n, inl (Err err))
  | None =>
    if String.eqb ownerID "" || String.eqb lockName ""
    then (n, inl (Err (InvalidArgumentError "owner_id, lock_name and lease_id are required"))) else
    if negb wait then
      if LockHasWaiters (node_queues n) lockName && negb (heldBy n lockName leaseID)
      then (n, inl (Err (Domain ErrLockAlreadyHeld)))
      else let '(n, r) := acquire n lockName ownerID leaseID now in (n, inl r)
    else
      let '(q, waiter) := JoinLockQueue (node_queues n) lockName in
      (set_queues n q, inr (mkCall lockName ownerID leaseID waiter AtHead))
  end.

Definition set_pc (c : wait_call) (pc : wait_pc) : wait_call :=
  mkCall (wc_lock c) (wc_owner c) (wc_lease c) (wc_waiter c) pc.

(** A return statement: the deferred [waiter.Leave()] runs. *)
Definition return_ (n : Node) (c : wait_call) (r : result error AcquireLockResponse) : Node * wait_call :=
  (set_queues n (Leave (node_queues n) (wc_waiter c)), set_pc c (Returned r)).

(** One step of the waiting loop; [None] when the event cannot happen there. *)
Definition wait_step (n : Node) (c : wait_call) (e : call_event) : option (Node * wait_call) :=
  match wc_pc c, e with
  | AtHead, Run _ =>
      Some (n, set_pc c (if IsHead (node_queues n) (wc_waiter c) then AtHeld else InSelect))
  | AtHeld, Run _ =>
      Some (n, set_pc c (if heldByOther n (wc_lock c) (wc_lease c) then InSelect else AtTry))
  | AtTry, Run now =>
      let '(n, r) := acquire n (wc_lock c) (wc_owner c) (wc_lease c) now in
      Some (match r with
            | Err err => if errors_Is err (Domain ErrLockAlreadyHeld) then (n, set_pc c InSelect)
                         else return_ n c r
            | Ok _ => return_ n c r
            end)
  | InSelect, OnReady =>
      q ← Ready (node_queues n) (wc_waiter c); Some (set_queues n q, set_pc c AtHead)
  | InSelect, OnRecheck =>
      Some (match ensureLeader n with
            | Some err => return_ n c (Err err)
            | None => (n, set_pc c AtHead)
            end)
  | InSelect, (OnTimeout | OnDone) => Some (return_ n c (Err (Domain ErrLockAlreadyHeld)))
  | _, _ => None
  end.

(** ** The remaining operations *)

Definition ReleaseLock (n : Node) (lockName : string) (leaseID : Z) : Node * option error :=
  match ensureLeader n with
  | Some err => (n, Some err)
  | None =>
    if String.eqb lockName "" then (n, Some (InvalidArgumentError "lock_name required")) else
    match Node_Apply n (NewReleaseLockCmd lockName leaseID) with
    | (n, Err err) => (n, Some err)
    | (n, Ok _) => (n, None)
    end
  end.

Definition Service_Status (n : Node) : StatusResult :=
  mkStatusResult (GetNodeID n) (IsLeader n) (GetLeaderGRPCAddress n) (RaftState_String (GetState n))
    (GRPCAddress (SelfMember n)) (Members n) (Node_Stats n).

Definition JoinNode (n : Node) (member : ClusterMember) : Node * result error string :=
  match ensureLeader n with
  | Some err => (n, Err err)
  | None =>
    match AddClusterMember n member with
    | (n, Some err) => (n, Err err)
    | (n, None) => (n, Ok (GetLeaderGRPCAddress n))
    end
  end.

Definition RemoveNode (n : Node) (nodeID : string) : Node * option error :=
  match ensureLeader n with
  | Some err => (n, Some err)
  | None =>
    if String.eqb nodeID "" then (n, Some (InvalidArgumentError "node_id required"))
    else RemoveClusterMember n nodeID
  end.
End service.
