(* ===== verification/Solo.v ===== *)
(** * A one-node cluster

    A concrete Raft library in which this node always leads and every entry
    commits at once, used to evaluate the model on concrete inputs. *)

From S2P Require Import Prelude GoTime Errors Domain Raftlog Fsm RaftFsm LeaseTracker LockQueue Node.

#[export] Existing Instance map_order.
#[export] Existing Instance id_codec.

Definition solo_server : Server := mkServer Voter "node-1" "127.0.0.1:7000".

#[export] Instance solo_raft : @RaftLib id_codec := {|
  Raft := unit;
  State _ := Leader;
  CurrentTerm _ := 1;
  LeaderWithID _ := ("127.0.0.1:7000", "node-1")%string;
  GetConfiguration _ := Ok [solo_server];
  raft_Apply r _ := (r, Committed [] []);
  Barrier r := (r, [], None);
  VerifyLeader r := (r, [], None);
  AddVoter r _ _ := (r, [], None);
  RemoveServer r _ := (r, [], None)
|}.

Definition solo_config : Config :=
  mkConfig "node-1" "127.0.0.1:7000" "127.0.0.1:7000" "/var/lib/clavis" true "127.0.0.1:9000".

(** The node's clock started at second 1700000000, 50 s after the process's
    monotonic clock; [solo_time s] is [s] seconds later. *)
Definition solo_start : Time := mkTime (1700000000 * Second) (Some (50 * Second)).
Definition solo_time (s : Z) : Time := Add solo_start (s * Second).

Definition solo_node (f : FSM) : Node :=
  mkNode (RL := solo_raft) tt f solo_config solo_start zero_tracker newLockQueues 0 false false.

(** The same cluster seen from a follower: node [node-2] leads. *)
Definition follower_raft : @RaftLib id_codec := {|
  Raft := unit;
  State _ := Follower;
  CurrentTerm _ := 1;
  LeaderWithID _ := ("127.0.0.1:7001", "node-2")%string;
  GetConfiguration _ := Ok [solo_server; mkServer Voter "node-2" "127.0.0.1:7001"];
  raft_Apply r _ := (r, Failed raft_ErrNotLeader []);
  Barrier r := (r, [], Some raft_ErrNotLeader);
  VerifyLeader r := (r, [], Some raft_ErrNotLeader);
  AddVoter r _ _ := (r, [], Some raft_ErrNotLeader);
  RemoveServer r _ := (r, [], Some raft_ErrNotLeader)
|}.

Definition follower_node (f : FSM) : @Node id_codec follower_raft :=
  mkNode (RL := follower_raft) tt f solo_config solo_start zero_tracker newLockQueues 0 false false.

(** A two-node cluster in which node-2 leads; a node's library state tells whether
    it is the leader. *)
Definition duo_raft : @RaftLib id_codec := {|
  Raft := bool;
  State r := if r then Leader else Follower;
  CurrentTerm _ := 1;
  LeaderWithID _ := ("127.0.0.1:7001", "node-2")%string;
  GetConfiguration _ := Ok [solo_server; mkServer Voter "node-2" "127.0.0.1:7001"];
  raft_Apply r _ := (r, if r then Committed [] [] else Failed raft_ErrNotLeader []);
  Barrier r := (r, [], if r then None else Some raft_ErrNotLeader);
  VerifyLeader r := (r, [], if r then None else Some raft_ErrNotLeader);
  AddVoter r _ _ := (r, [], if r then None else Some raft_ErrNotLeader);
  RemoveServer r _ := (r, [], if r then None else Some raft_ErrNotLeader)
|}.

Definition duo_fsm : FSM := post (FSM_Apply NewFSM (NewUpsertEndpointCmd "node-2" "127.0.0.1:9001")).
Definition duo_config (i : bool) : Config :=
  if i then mkConfig "node-2" "127.0.0.1:7001" "127.0.0.1:7001" "/var/lib/clavis" false "127.0.0.1:9001" else solo_config.
Definition duo_node (leads : bool) : @Node id_codec duo_raft :=
  mkNode (RL := duo_raft) leads duo_fsm (duo_config leads) solo_start zero_tracker newLockQueues 0 false false.
