(* ===== verification/Waiting.v ===== *)
(** * Waiting for a lock

    A leader with any number of waiting [AcquireLock] calls, whose steps interleave
    freely with each other, with the entries Raft applies and with everything else
    the node does. A call's [acquire] is one step, placed at the moment its entry
    is applied: nothing the call does between submitting it and seeing the answer
    touches shared state. The theorems: no wakeup is ever lost, a free lock is
    taken by the head of its queue, and calls are served in arrival order.

    [Restore], which replaces the state machine without calling the lock-freed hook
    (internal/state/raft_fsm.go), is not a step of this system: the library restores
    a snapshot when it starts and on a follower that is behind, and calls are
    answered and woken on a leader. Calls left waiting on a node that lost its leadership return
    with an error at their next leadership recheck. *)

From S2P Require Import Prelude GoTime Errors Domain Raftlog Fsm FsmInv FsmProps RaftFsm RaftFsmProps LeaseTracker.
From S2P Require Import LockQueue Node Service Solo.

(** The signal in the waiter's channel. *)
Definition signalled (q : lockQueues) (w : Z) : bool := default false (ready <$> lq_waiters q !! w).

Lemma signalled_wake q h w :
  is_Some (lq_waiters q !! h) -> signalled (wake q h) w = if decide (w = h) then true else signalled q w.
Proof.
  intros [x Hx]. unfold signalled, wake; simpl. case_decide as E.
  - subst. by rewrite lookup_alter_eq, Hx.
  - by rewrite lookup_alter_ne.
Qed.

Section waiting.
Context {RO : RangeOrder} {PC : ProtoCodec} {RL : RaftLib}.

Record system := mkSys { s_node : Node; s_calls : gmap Z wait_call }.

(** [sys_node] is any other activity of the node: renewals, leadership changes,
    barriers. Commands of other callers reach the state machine as entries. *)
Inductive sys_step : system -> system -> Prop :=
| sys_join n cs name owner lease now n' c :
    is_u64 lease -> AcquireLock n name owner lease true now = (n', inr c) ->
    sys_step (mkSys n cs) (mkSys n' (<[wc_waiter c := c]> cs))
| sys_call n cs w c e n' c' :
    cs !! w = Some c -> wait_step n c e = Some (n', c') ->
    sys_step (mkSys n cs) (mkSys n' (<[w := c']> cs))
| sys_entries n cs bs : sys_step (mkSys n cs) (mkSys (applyEntries n bs) cs)
| sys_node n n' cs : fsm n' = fsm n -> node_queues n' = node_queues n ->
    sys_step (mkSys n cs) (mkSys n' cs).

Inductive reachable : system -> Prop :=
| reach_start n : node_queues n = newLockQueues -> reachable (mkSys n ∅)
| reach_step s s' : reachable s -> sys_step s s' -> reachable s'.

Definition waits (c : wait_call) : Prop := match wc_pc c with Returned _ => False | _ => True end.
Definition tries (c : wait_call) : Prop := wc_pc c = AtHeld \/ wc_pc c = AtTry.

Record sys_inv (s : system) : Prop := {
  inv_queues : queues_wf (node_queues (s_node s));
  inv_call : forall w c, s_calls s !! w = Some c ->
    wc_waiter c = w /\ is_u64 (wc_lease c) /\
    lockName <$> lq_waiters (node_queues (s_node s)) !! w = Some (wc_lock c) /\
    (w ∈ queue_of (node_queues (s_node s)) (wc_lock c) <-> waits c);
  inv_queued : forall name w, w ∈ queue_of (node_queues (s_node s)) name ->
    exists c, s_calls s !! w = Some c /\ wc_lock c = name;
  inv_head : forall w c, s_calls s !! w = Some c -> tries c ->
    head (queue_of (node_queues (s_node s)) (wc_lock c)) = Some w;
  inv_awake : forall w c, s_calls s !! w = Some c ->
    head (queue_of (node_queues (s_node s)) (wc_lock c)) = Some w -> wc_pc c = InSelect ->
    signalled (node_queues (s_node s)) w = false -> is_Some (locks (fsm (s_node s)) !! wc_lock c)
}.

(** ** Entries *)

Definition wake_all (q : lockQueues) (names : list string) : lockQueues :=
  foldl (fun q name => lockFreed (Some (fun nm q => wakeHead q nm)) name q) q names.

(** What [wake_all] does: queues and names stay, and exactly the heads of the
    named queues gain a signal. *)
Lemma wake_all_spec q names :
  queues_wf q ->
  queues_wf (wake_all q names) /\
  (forall n, queue_of (wake_all q names) n = queue_of q n) /\
  (forall w, lockName <$> lq_waiters (wake_all q names) !! w = lockName <$> lq_waiters q !! w) /\
  (forall w, signalled q w = true -> signalled (wake_all q names) w = true) /\
  (forall n w, n ∈ names -> head (queue_of q n) = Some w -> signalled (wake_all q names) w = true).
Proof.
  revert q. induction names as [|m names IH]; intros q Hwf.
  { split_and!; try done. intros n w []%not_elem_of_nil. }
  cbn [wake_all foldl lockFreed]. fold (wake_all (wakeHead q m) names).
  destruct (IH (wakeHead q m)) as (H1&H2&H3&H4&H5); [by apply wakeHead_wf|].
  assert (Hsig : forall w, signalled q w = true \/ head (queue_of q m) = Some w ->
    signalled (wakeHead q m) w = true).
  { intros w Hw. unfold wakeHead. destruct (queue_of q m) as [|h t] eqn:Eq; [naive_solver|].
    rewrite signalled_wake; [case_decide; naive_solver|].
    assert (Hh : h ∈ queue_of q m) by (rewrite Eq; left).
    pose proof (q_named _ Hwf m h Hh) as Hn. by destruct (lq_waiters q !! h). }
  split_and!; [done|..].
  - intros n. by rewrite H2, queue_of_wakeHead.
  - intros w. rewrite H3. unfold wakeHead. destruct (queue_of q m); [done|]. apply lockName_wake.
  - intros w Hw. apply H4, Hsig. by left.
  - intros n w [->|Hn]%elem_of_cons Hw; [apply H4, Hsig; by right|].
    apply (H5 n); [done|]. by rewrite queue_of_wakeHead.
Qed.

Lemma entry_effect n b :
  exists f names, (applyEntry n b).1 = set_fsm n f (wake_all (node_queues n) names) /\
    forall name, is_Some (locks (fsm n) !! name) -> locks f !! name = None -> name ∈ names.
Proof.
  unfold applyEntry, RaftFSM_Apply. destruct (Unmarshal b) as [cmd|e].
  - exists (post (FSM_Apply (fsm n) cmd)), (freed (FSM_Apply (fsm n) cmd)). split.
    + by destruct (response (FSM_Apply (fsm n) cmd)).
    + intros name Hb Ha. by apply (FSM_Apply_frees (fsm n) cmd).
  - exists (fsm n), []. split; [done|]. intros name [? ?] ?. congruence.
Qed.

Lemma inv_entry n cs b : sys_inv (mkSys n cs) -> sys_inv (mkSys (applyEntry n b).1 cs).
Proof.
  intros [Hq Hc Hd Hh Ha]; cbn in *. destruct (entry_effect n b) as (f&names&->&Hfreed).
  destruct (wake_all_spec (node_queues n) names Hq) as (H1&H2&H3&H4&H5). split; cbn.
  - done.
  - intros w c Hw. rewrite H3, H2. by apply Hc.
  - intros name w. rewrite H2. apply Hd.
  - intros w c. rewrite H2. apply Hh.
  - intros w c Hw. rewrite H2. intros Hhd Hpc Hs.
    destruct (locks f !! wc_lock c) eqn:E; [done|]. exfalso.
    assert (Hb : is_Some (locks (fsm n) !! wc_lock c)).
    { apply (Ha w); try done. destruct (signalled (node_queues n) w) eqn:Es; [|done].
      rewrite (H4 w Es) in Hs. done. }
    by rewrite (H5 _ w (Hfreed _ Hb E) Hhd) in Hs.
Qed.

Lemma inv_entries n cs bs : sys_inv (mkSys n cs) -> sys_inv (mkSys (applyEntries n bs) cs).
Proof.
  revert n. induction bs as [|b bs IH]; intros n Hi; [done|]. apply IH. by apply inv_entry.
Qed.

Lemma inv_same n n' cs : fsm n' = fsm n -> node_queues n' = node_queues n ->
  sys_inv (mkSys n cs) -> sys_inv (mkSys n' cs).
Proof. intros Hf Hq [H1 H2 H3 H4 H5]. split; cbn in *; rewrite ?Hq, ?Hf; done. Qed.

(** ** Steps of a call *)

Lemma inv_pc n cs w c pc :
  sys_inv (mkSys n cs) -> cs !! w = Some c -> waits c -> waits (set_pc c pc) ->
  (tries (set_pc c pc) -> head (queue_of (node_queues n) (wc_lock c)) = Some w) ->
  (pc = InSelect -> head (queue_of (node_queues n) (wc_lock c)) = Some w -> is_Some (locks (fsm n) !! wc_lock c)) ->
  sys_inv (mkSys n (<[w := set_pc c pc]> cs)).
Proof.
  intros [Hq Hc Hd Hh Ha] Hw Hwt Hwt' Ht Hs; cbn in *.
  destruct (Hc w c Hw) as (Hid&Hu&Hn&Hin). split; cbn; [done|..].
  - intros v d [[<- <-]|[Hv Hd']]%lookup_insert_Some; [|by apply Hc]. cbn. tauto.
  - intros name v Hv. destruct (decide (v = w)) as [->|Hne].
    + rewrite lookup_insert_eq. eexists. split; [done|]. destruct (Hd name w Hv) as (c'&Hc'&<-). cbn. congruence.
    + rewrite lookup_insert_ne by done. by apply Hd.
  - intros v d [[<- <-]|[Hv Hd']]%lookup_insert_Some; [done|by apply Hh].
  - intros v d [[<- <-]|[Hv Hd']]%lookup_insert_Some; [|by apply Ha]. cbn. intros Hhd Hpc _. by apply Hs.
Qed.

Lemma inv_ready n cs w c q :
  sys_inv (mkSys n cs) -> cs !! w = Some c -> waits c -> Ready (node_queues n) w = Some q ->
  sys_inv (mkSys (set_queues n q) (<[w := set_pc c AtHead]> cs)).
Proof.
  intros Hi Hw Hwt Hr. pose proof (Ready_wf _ _ _ Hr) as Hwf. destruct Hi as [Hq Hc Hd Hh Ha]; cbn in *.
  unfold Ready in Hr. destruct (lq_waiters (node_queues n) !! w) as [x|] eqn:Hx; [|done]. cbn in Hr.
  destruct (ready x) eqn:Hrx; [|done]. injection Hr as <-.
  assert (Hnm : forall v, lockName <$> <[w := mkWaiter (lockName x) false]> (lq_waiters (node_queues n)) !! v =
    lockName <$> lq_waiters (node_queues n) !! v).
  { intros v. rewrite lookup_insert. case_decide; [subst; by rewrite Hx|done]. }
  destruct (Hc w c Hw) as (Hid&Hu&Hn&Hin). split; cbn -[queue_of]; [by apply Hwf|..].
  - intros v d [[<- <-]|[Hv Hd']]%lookup_insert_Some; rewrite Hnm; [|by apply Hc]. cbn. tauto.
  - intros name v Hv. destruct (decide (v = w)) as [->|Hne].
    + rewrite lookup_insert_eq. eexists. split; [done|]. destruct (Hd name w Hv) as (c'&Hc'&<-). cbn. congruence.
    + rewrite lookup_insert_ne by done. by apply Hd.
  - intros v d [[<- <-]|[Hv Hd']]%lookup_insert_Some; [by intros [?|?]|by apply Hh].
  - intros v d [[<- <-]|[Hv Hd']]%lookup_insert_Some; [done|]. intros Hhd Hpc Hs. apply (Ha v d); try done.
    unfold signalled in *; cbn in Hs. by rewrite lookup_insert_ne in Hs.
Qed.

(** [Leave] signals whoever becomes the head, and nobody loses a signal. *)
Lemma signalled_Leave q w name h :
  queues_wf q -> head (queue_of (Leave q w) name) = Some h ->
  (head (queue_of q name) = Some h /\ signalled (Leave q w) h = signalled q h) \/
  signalled (Leave q w) h = true.
Proof.
  intros Hwf Hh. destruct (Leave_cases q w Hwf) as [[_ E]|(l&r&q'&Hq&Hl&Hq'&Hws&Hnx&_&_&E)].
  { left. by rewrite E in Hh |- *. }
  assert (Hsame : forall v, signalled q' v = signalled q v) by (intros v; unfold signalled; by rewrite Hws).
  rewrite E in Hh |- *. assert (Hh' : head (queue_of q' name) = Some h) by (destruct l, r; done). clear Hh.
  assert (Hother : forall m v, v ∈ queue_of q m -> is_Some (lq_waiters q' !! v)).
  { intros m v Hv. rewrite Hws. pose proof (q_named _ Hwf _ _ Hv). by destruct (lq_waiters q !! v). }
  rewrite Hq' in Hh'. destruct (decide (name = lockName_of q w)) as [->|Hne].
  - destruct l as [|x l]; cbn in Hh'; [|left; rewrite Hq; by destruct r; cbn; split; simplify_eq; auto].
    destruct r as [|y r]; [done|]. injection Hh' as ->. right.
    rewrite signalled_wake; [by rewrite decide_True|]. apply (Hother (lockName_of q w)). rewrite Hq. set_solver.
  - destruct l as [|x l]; [|left; by destruct r]. destruct r as [|y r]; [by left|].
    rewrite signalled_wake by (apply (Hother (lockName_of q w)); rewrite Hq; set_solver).
    case_decide; [by right|by left].
Qed.

Lemma inv_return n cs w c r :
  sys_inv (mkSys n cs) -> cs !! w = Some c -> waits c ->
  sys_inv (mkSys (return_ n c r).1 (<[w := (return_ n c r).2]> cs)).
Proof.
  intros [Hq Hc Hd Hh Ha] Hw Hwt; cbn in *. destruct (Hc w c Hw) as (Hid&Hu&Hn&Hin). rewrite Hid.
  assert (HQ : forall m, queue_of (Leave (node_queues n) w) m = filter (fun x => x <> w) (queue_of (node_queues n) m))
    by (intros; by apply queue_of_Leave).
  split; cbn; [by apply Leave_wf|..].
  - intros v d [[<- <-]|[Hv Hd']]%lookup_insert_Some; rewrite lockName_Leave, HQ, list_elem_of_filter; cbn.
    + unfold waits; cbn. tauto.
    + destruct (Hc v d Hd') as (?&?&?&<-). split_and!; try done. naive_solver.
  - intros name v. rewrite HQ. intros [Hv Hin']%list_elem_of_filter. rewrite lookup_insert_ne by done. by apply Hd.
  - intros v d [[<- <-]|[Hv Hd']]%lookup_insert_Some; [by intros [?|?]|]. intros Ht. rewrite HQ.
    pose proof (Hh v d Hd' Ht) as Hhd. destruct (queue_of _ (wc_lock d)) as [|x t]; [done|]. cbn in Hhd. simplify_eq.
    by rewrite filter_cons, decide_True.
  - intros v d [[<- <-]|[Hv Hd']]%lookup_insert_Some; [done|]. intros Hhd Hpc Hs.
    destruct (signalled_Leave _ w (wc_lock d) v Hq Hhd) as [[Hhd' Hs']|Hs']; [|congruence].
    apply (Ha v d); congruence.
Qed.

(** ** The acquire step *)

Lemma applyEntries_mid n b1 b b2 :
  applyEntries n (b1 ++ b :: b2) = applyEntries (applyEntry (applyEntries n b1) b).1 b2.
Proof. unfold applyEntries. by rewrite foldl_app. Qed.

(** Submitting a command changes the node only through the entries applied. *)
Lemma Node_Apply_entries n cmd : exists r bs, (Node_Apply n cmd).1 = applyEntries (set_raft n r) bs.
Proof.
  unfold Node_Apply. destruct (Marshal cmd) as [data|e]; [|by exists (raft n), []; destruct n].
  destruct (raft_Apply (raft n) data) as [r [err bs|b1 b2]]; [by exists r, bs|].
  exists r, (b1 ++ data :: b2). rewrite applyEntries_mid. destruct (applyEntry _ data) as [n2 resp]. by destruct resp.
Qed.

Lemma CheckLeaseAlive_same n i now :
  fsm (CheckLeaseAlive n i now).1 = fsm n /\ node_queues (CheckLeaseAlive n i now).1 = node_queues n.
Proof. unfold CheckLeaseAlive. destruct (GetLease _ _); [|done]. by destruct (alive _ _ _ _). Qed.

Lemma acquire_entries n name owner i now :
  exists n0 bs, fsm n0 = fsm n /\ node_queues n0 = node_queues n /\
    (acquire n name owner i now).1 = applyEntries n0 bs.
Proof.
  unfold acquire. pose proof (CheckLeaseAlive_same n i now) as [Hf Hq].
  destruct (CheckLeaseAlive n i now) as [n0 [e|]]; [by exists n0, []|].
  destruct (Node_Apply_entries n0 (NewAcquireLockCmd name owner i)) as (r&bs&E).
  exists (set_raft n0 r), bs. by destruct (Node_Apply n0 _).
Qed.

Lemma acquire_inv n cs name owner i now :
  sys_inv (mkSys n cs) -> sys_inv (mkSys (acquire n name owner i now).1 cs).
Proof.
  intros Hi. destruct (acquire_entries n name owner i now) as (n0&bs&Hf&Hq&->).
  by apply inv_entries, (inv_same n).
Qed.

Lemma Wire_acquire name owner i : is_u64 i -> wire_ok (NewAcquireLockCmd name owner i).
Proof. intros Hi. split; [done|]. split; [exact Hi|done]. Qed.

Lemma acquire_refused f name owner i e :
  response (FSM_Apply f (NewAcquireLockCmd name owner i)) = Err e ->
  errors_Is e (Domain ErrLockAlreadyHeld) = true ->
  is_Some (locks f !! name) /\ post (FSM_Apply f (NewAcquireLockCmd name owner i)) = f.
Proof.
  change (FSM_Apply f (NewAcquireLockCmd name owner i)) with
    (applyAcquireLock f (Some (mkAcquireLock name owner i 0))).
  unfold applyAcquireLock, fail; cbn [AcquireLock_GetLockName AL_LockName].
  repeat case_match; cbn; intros; simplify_eq; try done; by split; [eexists|].
Qed.

(** When [acquire] reports that the lock is held, it was held at the moment the
    entry was applied, and only [after] has been applied since. *)
Lemma acquire_already_held n name owner i now n' e :
  is_u64 i ->
  acquire n name owner i now = (n', Err e) -> errors_Is e (Domain ErrLockAlreadyHeld) = true ->
  exists n1 after, n' = applyEntries n1 after /\ is_Some (locks (fsm n1) !! name) /\
    (forall cs, sys_inv (mkSys n cs) -> sys_inv (mkSys n1 cs)).
Proof.
  intros Hu. unfold acquire. pose proof (CheckLeaseAlive_same n i now) as [Hcf Hcq].
  assert (Hchk : forall e, (CheckLeaseAlive n i now).2 = Some e -> errors_Is e (Domain ErrLockAlreadyHeld) = false).
  { unfold CheckLeaseAlive. intros e0. repeat case_match; intros [= <-]; done. }
  destruct (CheckLeaseAlive n i now) as [n0 [e0|]]; cbn in *.
  { intros [= <- <-]. by rewrite (Hchk e0 eq_refl). }
  clear Hchk. destruct (Node_Apply n0 (NewAcquireLockCmd name owner i)) as [n2 r] eqn:Ha. intros [= -> Has] His.
  destruct r as [resp|e1]; [cbn in Has; case_match; by simplify_eq|]. injection Has as ->.
  revert Ha. unfold Node_Apply. destruct (Marshal _) as [data|me] eqn:Hm.
  2:{ intros [= _ <-]. by rewrite errors_Is_root in His. }
  destruct (raft_Apply (raft n0) data) as [r [err bs|b1 b2]].
  { intros [= _ <-]. by rewrite errors_Is_root in His. }
  set (n1 := applyEntries (set_raft n0 r) b1).
  assert (Hi1 : forall cs, sys_inv (mkSys n cs) -> sys_inv (mkSys n1 cs)).
  { intros cs Hcs. apply inv_entries. by apply (inv_same n). }
  destruct (applyEntry n1 data) as [n3 resp] eqn:E.
  assert (E3 : n3 = (applyEntry n1 data).1) by (by rewrite E).
  intros Hr. assert (resp = AnyErr e /\ n' = applyEntries n3 b2) as [-> ->] by (by destruct resp; simplify_eq).
  exists n3, b2. split; [done|]. split; [|intros cs Hcs; rewrite E3; by apply inv_entry, Hi1].
  revert E. unfold applyEntry. rewrite (RaftFSM_Apply_marshalled _ _ _ (Wire_acquire _ _ _ Hu) Hm).
  destruct (response (FSM_Apply (fsm n1) (NewAcquireLockCmd name owner i))) eqn:Hresp; intros [= <- Hany].
  subst. cbn [fsm set_fsm]. by destruct (acquire_refused _ _ _ _ _ Hresp His) as [? ->].
Qed.

(** ** The invariant holds in every reachable state *)

Lemma inv_wait_step n cs w c e n' c' :
  sys_inv (mkSys n cs) -> cs !! w = Some c -> wait_step n c e = Some (n', c') ->
  sys_inv (mkSys n' (<[w := c']> cs)).
Proof.
  intros Hi Hw Hs. destruct (inv_call _ Hi w c Hw) as (Hid&Hu&Hn&Hin); cbn in *.
  unfold wait_step in Hs. destruct (wc_pc c) eqn:Hpc; destruct e as [now| | | |]; try done.
  all: assert (Hwt : waits c) by (unfold waits; by rewrite Hpc).
  - injection Hs as <- <-. unfold IsHead, lockName_of. rewrite Hid, Hn. cbn.
    destruct (queue_of (node_queues n) (wc_lock c)) as [|h t] eqn:Eq; [|destruct (Z.eqb_spec h w) as [->|Hne]];
      (apply inv_pc; try done; rewrite Eq; try done).
    + by intros [?|?].
    + by intros [?|?].
    + cbn. congruence.
  - injection Hs as <- <-. assert (Hhd := inv_head _ Hi w c Hw (or_introl Hpc)). cbn in Hhd.
    unfold heldByOther, GetLock. destruct (locks (fsm n) !! wc_lock c) as [l|] eqn:El.
    + destruct (Lock_LeaseID l =? wc_lease c); cbn; apply inv_pc; done || (by rewrite El).
    + apply inv_pc; done.
  - destruct (acquire n (wc_lock c) (wc_owner c) (wc_lease c) now) as [n1 r] eqn:Ea.
    pose proof (acquire_inv n cs (wc_lock c) (wc_owner c) (wc_lease c) now Hi) as Hi1. rewrite Ea in Hi1.
    destruct r as [a|err]; [injection Hs as <- <-; by apply inv_return|].
    destruct (errors_Is err (Domain ErrLockAlreadyHeld)) eqn:His.
    + injection Hs as <- <-.
      destruct (acquire_already_held _ _ _ _ _ _ _ Hu Ea His) as (n2&after&->&Hl&Hk).
      apply inv_entries, inv_pc; [by apply Hk|done..|by intros [?|?]|done].
    + injection Hs as <- <-. by apply inv_return.
  - rewrite Hid in Hs. destruct (Ready (node_queues n) w) as [q|] eqn:Hr; [|done]. injection Hs as <- <-.
    by apply inv_ready.
  - destruct (ensureLeader n); injection Hs as <- <-; [by apply inv_return|].
    apply inv_pc; try done. by intros [?|?].
  - injection Hs as <- <-. by apply inv_return.
  - injection Hs as <- <-. by apply inv_return.
Qed.

Lemma inv_join n cs name owner lease now n' c :
  is_u64 lease -> sys_inv (mkSys n cs) -> AcquireLock n name owner lease true now = (n', inr c) ->
  sys_inv (mkSys n' (<[wc_waiter c := c]> cs)).
Proof.
  intros Hu [Hq Hc Hd Hh Ha] HA; cbn in *. unfold AcquireLock in HA.
  destruct (ensureLeader n); [done|]. destruct (_ || _); [done|]. cbn in HA.
  injection HA as <- <-. cbn.
  set (w := lq_next (node_queues n)). set (q := JoinLockQueue (node_queues n) name).
  assert (Hfresh : lq_waiters (node_queues n) !! w = None).
  { destruct (lq_waiters (node_queues n) !! w) eqn:E; [|done].
    pose proof (q_fresh _ Hq w (mk_is_Some _ _ E)). unfold w in *. lia. }
  assert (Hnot : forall v d, cs !! v = Some d -> v <> w).
  { intros v d Hv ->. destruct (Hc w d Hv) as (_&_&Hn&_). by rewrite Hfresh in Hn. }
  assert (Hws : forall v, v <> w -> lq_waiters q.1 !! v = lq_waiters (node_queues n) !! v)
    by (intros v Hv; cbn; by rewrite lookup_insert_ne).
  assert (HQ : forall m, queue_of q.1 m = if decide (m = name) then queue_of (node_queues n) name ++ [w]
    else queue_of (node_queues n) m) by (intros; apply queue_of_Join).
  assert (Hhd : forall v m, v <> w -> head (queue_of q.1 m) = Some v <-> head (queue_of (node_queues n) m) = Some v).
  { intros v m Hv. rewrite HQ. case_decide; [subst m|done].
    destruct (queue_of (node_queues n) name) as [|h t]; cbn; [|done]. naive_solver. }
  change (mkQueues _ _ _) with q.1. split; cbn -[queue_of q].
  - by apply Join_wf.
  - intros v d [[<- <-]|[Hv Hd']]%lookup_insert_Some; cbn -[queue_of q].
    + split_and!; [done|done|by cbn; rewrite lookup_insert_eq|]. rewrite HQ, decide_True by done.
      split; [done|]. intros _. set_solver.
    + pose proof (Hnot v d Hd') as Hne. rewrite Hws, HQ by done. destruct (Hc v d Hd') as (?&?&?&<-).
      split_and!; try done. case_decide as E; [rewrite E; set_solver|done].
  - intros m v. rewrite HQ. destruct (decide (v = w)) as [->|Hne].
    + intros Hin. rewrite lookup_insert_eq. eexists. split; [done|]. cbn. case_decide; [done|].
      by destruct (join_fresh (node_queues n) m Hq).
    + rewrite lookup_insert_ne by done. case_decide; intros Hin; apply Hd; set_solver.
  - intros v d [[<- <-]|[Hv Hd']]%lookup_insert_Some; [by intros [?|?]|]. intros Ht.
    apply Hhd; [by eapply Hnot|]. by apply Hh.
  - intros v d [[<- <-]|[Hv Hd']]%lookup_insert_Some; [done|]. intros Hh' Hpc Hs. apply (Ha v d); try done.
    + apply Hhd in Hh'; [done|by eapply Hnot].
    + unfold signalled in *. rewrite Hws in Hs; [done|by eapply Hnot].
Qed.

Lemma reachable_inv s : reachable s -> sys_inv s.
Proof.
  induction 1 as [n Hn|s s' _ IH Hs].
  - split; cbn; rewrite ?Hn; auto with clavis; intros *; rewrite ?lookup_empty; try done.
    unfold queue_of; cbn. rewrite lookup_empty. by intros []%not_elem_of_nil.
  - inversion Hs; subst; [by eapply inv_join|by eapply inv_wait_step|by apply inv_entries|by eapply inv_same].
Qed.

(** ** No lost wakeup *)

(** C13: in every reachable state, when a lock is free and calls are queued for
    it, the first of them is not asleep: it is running, or a signal is waiting in
    its channel. This holds for every interleaving of calls joining, checking,
    trying, timing out and leaving with entries that free or take the lock. *)
Theorem no_lost_wakeup (s : system) (name : string) (w : Z) (Hr : reachable s)
    (Hfree : locks (fsm (s_node s)) !! name = None)
    (Hhead : head (queue_of (node_queues (s_node s)) name) = Some w) :
  exists c, s_calls s !! w = Some c /\ wc_lock c = name /\ waits c /\
    (wc_pc c = InSelect -> signalled (node_queues (s_node s)) w = true).
Proof.
  pose proof (reachable_inv s Hr) as Hi.
  assert (Hin : w ∈ queue_of (node_queues (s_node s)) name) by (destruct (queue_of _ name); simplify_eq/=; left).
  destruct (inv_queued s Hi name w Hin) as (c&Hc&Hl). exists c.
  destruct (inv_call s Hi w c Hc) as (_&_&_&Hwt). subst name. split_and!; [done|done|by apply Hwt|].
  intros Hpc. destruct (signalled _ w) eqn:Hs; [done|].
  destruct (inv_awake s Hi w c Hc Hhead Hpc Hs). congruence.
Qed.

(** ** First come, first served *)

Lemma queue_of_entries n bs m : queues_wf (node_queues n) ->
  queue_of (node_queues (applyEntries n bs)) m = queue_of (node_queues n) m.
Proof.
  revert n. induction bs as [|b bs IH]; intros n Hwf; [done|].
  change (applyEntries n (b :: bs)) with (applyEntries (applyEntry n b).1 bs).
  destruct (entry_effect n b) as (f&names&->&_).
  destruct (wake_all_spec (node_queues n) names Hwf) as (H1&H2&_). rewrite IH; cbn; auto.
Qed.

Lemma queue_of_acquire n name owner i now m : queues_wf (node_queues n) ->
  queue_of (node_queues (acquire n name owner i now).1) m = queue_of (node_queues n) m.
Proof.
  intros Hwf. destruct (acquire_entries n name owner i now) as (n0&bs&_&Hq&->).
  rewrite queue_of_entries; by rewrite Hq.
Qed.

Lemma queue_of_return n c r m : queues_wf (node_queues n) ->
  queue_of (node_queues (return_ n c r).1) m `sublist_of` queue_of (node_queues n) m.
Proof. intros Hwf. cbn. rewrite queue_of_Leave by done. apply sublist_filter. Qed.

(** A call's own step only ever takes it out of its queue, and it is answered
    with the lock only at the head. *)
Lemma wait_step_order n cs w c e n' c' m :
  sys_inv (mkSys n cs) -> cs !! w = Some c -> wait_step n c e = Some (n', c') ->
  queue_of (node_queues n') m `sublist_of` queue_of (node_queues n) m /\
  (forall resp, wc_pc c' = Returned (Ok resp) -> head (queue_of (node_queues n) (wc_lock c)) = Some w).
Proof.
  intros Hi Hw Hs. pose proof (inv_queues _ Hi) as Hwf; cbn in Hwf. unfold wait_step in Hs.
  destruct (wc_pc c) eqn:Hpc; destruct e as [now| | | |]; try done.
  1,2: injection Hs as <- <-; split; [done|]; cbn; intros resp; by case_match.
  - pose proof (queue_of_acquire n (wc_lock c) (wc_owner c) (wc_lease c) now) as HQ.
    pose proof (acquire_inv n cs (wc_lock c) (wc_owner c) (wc_lease c) now Hi) as Hi1.
    destruct (acquire _ _ _ _ _) as [n1 r]; cbn in HQ, Hi1.
    split; [|intros _ _; by apply (inv_head _ Hi w c Hw (or_intror Hpc))].
    rewrite <-(HQ m) by done. apply inv_queues in Hi1; cbn in Hi1. injection Hs as Hs.
    assert (Hret : return_ n1 c r = (n', c') -> queue_of (node_queues n') m `sublist_of` queue_of (node_queues n1) m)
      by (intros Hret; replace n' with (return_ n1 c r).1 by (by rewrite Hret); by apply queue_of_return).
    destruct r as [a|err]; [by apply Hret|]. destruct (errors_Is err _); [by simplify_eq|by apply Hret].
  - destruct (Ready _ _) as [q|] eqn:Hr; [|done]. injection Hs as <- <-. split; [|done]. cbn.
    unfold Ready in Hr. destruct (lq_waiters _ !! _) as [x|]; [|done]. cbn in Hr.
    destruct (ready x); [|done]. by injection Hr as <-.
  - destruct (ensureLeader n); injection Hs as <- <-; (split; [|done]); [by apply (queue_of_return n c (Err e))|done].
  - injection Hs as <- <-. split; [by apply (queue_of_return n c (Err (Domain ErrLockAlreadyHeld)))|done].
  - injection Hs as <- <-. split; [by apply (queue_of_return n c (Err (Domain ErrLockAlreadyHeld)))|done].
Qed.

(** C14: calls are served in arrival order. Whatever step the system takes, every
    queue keeps the order of those who stay and new arrivals go to the back, and
    a waiting call is answered with the lock only while it is at the head. *)
Theorem served_in_arrival_order (s s' : system) (Hr : reachable s) (Hs : sys_step s s') :
  (forall name, exists arrived,
     queue_of (node_queues (s_node s')) name `sublist_of` queue_of (node_queues (s_node s)) name ++ arrived /\
     forall w, w ∈ arrived -> s_calls s !! w = None) /\
  (forall w c c' resp, s_calls s !! w = Some c -> waits c ->
     s_calls s' !! w = Some c' -> wc_pc c' = Returned (Ok resp) ->
     head (queue_of (node_queues (s_node s)) (wc_lock c)) = Some w).
Proof.
  pose proof (reachable_inv s Hr) as Hi.
  assert (Hstay : forall c c', waits c -> Some c = Some c' -> forall resp, wc_pc c' <> Returned (Ok resp)).
  { intros c c' Hwt [= <-] resp E. unfold waits in Hwt. by rewrite E in Hwt. }
  inversion Hs as [n cs name owner lease now n' c Hu Hj|n cs w c e n' c' Hw Hst|n cs bs|n n' cs Hf Hq]; subst; cbn.
  - unfold AcquireLock in Hj. destruct (ensureLeader n); [done|]. destruct (_ || _); [done|].
    cbn in Hj. injection Hj as <- <-. cbn -[queue_of].
    assert (Hnew : cs !! lq_next (node_queues n) = None).
    { destruct (cs !! lq_next (node_queues n)) as [d|] eqn:E; [|done].
      destruct (inv_call _ Hi _ _ E) as (_&_&Hn&_); cbn in Hn.
      destruct (lq_waiters (node_queues n) !! lq_next (node_queues n)) eqn:E'; [|done].
      pose proof (q_fresh _ (inv_queues _ Hi) _ (mk_is_Some _ _ E')). cbn in *. lia. }
    split.
    + intros m. exists (if decide (m = name) then [lq_next (node_queues n)] else []).
      change (mkQueues _ _ _) with (JoinLockQueue (node_queues n) name).1. rewrite queue_of_Join.
      case_decide; [subst; split; [done|]|rewrite app_nil_r; split; [done|by intros ? ?%elem_of_nil]].
      by intros v ->%list_elem_of_singleton.
    + intros w c c' resp Hc Hwt Hc' Hpc. rewrite lookup_insert_ne in Hc' by congruence.
      rewrite Hc in Hc'. by destruct (Hstay c c' Hwt Hc' resp).
  - split.
    + intros m. exists []. rewrite app_nil_r. split; [by eapply wait_step_order|by intros ? ?%elem_of_nil].
    + intros v d d' resp Hd Hwt. destruct (decide (v = w)) as [->|Hne].
      * rewrite lookup_insert_eq. intros [= <-] Hpc. rewrite Hw in Hd. injection Hd as <-.
        eapply (wait_step_order n cs w c e n' c' (wc_lock c)); eauto.
      * rewrite lookup_insert_ne, Hd by done. intros Heq Hpc. by destruct (Hstay d d' Hwt Heq resp).
  - split.
    + intros m. exists []. rewrite app_nil_r, queue_of_entries by apply (inv_queues _ Hi).
      split; [done|by intros ? ?%elem_of_nil].
    + intros w c c' resp Hc Hwt Hc' Hpc. rewrite Hc in Hc'. by destruct (Hstay c c' Hwt Hc' resp).
  - split.
    + intros m. exists []. rewrite app_nil_r, Hq. split; [done|by intros ? ?%elem_of_nil].
    + intros w c c' resp Hc Hwt Hc' Hpc. rewrite Hc in Hc'. by destruct (Hstay c c' Hwt Hc' resp).
Qed.

(** ** A free lock is taken by the head of its queue *)

Fixpoint wait_run (n : Node) (c : wait_call) (es : list call_event) : option (Node * wait_call) :=
  match es with
  | [] => Some (n, c)
  | e :: es => '(n, c) ← wait_step n c e; wait_run n c es
  end.

(** The caller's lease exists, belongs to it and is alive at reading [now]. *)
Definition lease_alive (n : Node) (c : wait_call) (now : Time) : Prop :=
  exists l, leases (fsm n) !! wc_lease c = Some l /\ Lease_OwnerID l = wc_owner c /\
    (alive (node_leases n) (CurrentTerm (raft n)) (Node_Now n now) l).2 = true.

(** The call [c] can get its lock now: the lock is free, the lease exists, belongs
    to the owner and is alive, and the library commits the entry at once. *)
Record can_take (n : Node) (c : wait_call) (now : Time) : Prop := {
  ct_u64 : is_u64 (wc_lease c);
  ct_free : locks (fsm n) !! wc_lock c = None;
  ct_lease : lease_alive n c now;
  ct_commit : exists data r, Marshal (NewAcquireLockCmd (wc_lock c) (wc_owner c) (wc_lease c)) = Ok data /\
    raft_Apply (raft n) data = (r, Committed [] [])
}.

Lemma acquire_free n c now : can_take n c now ->
  exists n' resp lk, acquire n (wc_lock c) (wc_owner c) (wc_lease c) now = (n', Ok resp) /\
    locks (fsm n') !! wc_lock c = Some lk /\ Lock_LeaseID lk = wc_lease c /\
    ALR_FencingToken resp = Lock_FencingToken lk.
Proof.
  intros [Hu Hf (l&Hl&Ho&Ha) (data&r&Hm&Hc)]. unfold acquire, CheckLeaseAlive, GetLease. rewrite Hl.
  destruct (alive _ _ _ _) as [t ok]; cbn in Ha; subst ok.
  unfold Node_Apply. rewrite Hm. cbn [raft set_leases]. rewrite Hc. cbn [applyEntries foldl].
  unfold applyEntry. rewrite (RaftFSM_Apply_marshalled _ _ _ (Wire_acquire _ _ _ Hu) Hm).
  cbn [fsm set_raft set_leases node_queues].
  change (FSM_Apply (fsm n) (NewAcquireLockCmd (wc_lock c) (wc_owner c) (wc_lease c))) with
    (applyAcquireLock (fsm n) (Some (mkAcquireLock (wc_lock c) (wc_owner c) (wc_lease c) 0))).
  unfold applyAcquireLock. cbn [AcquireLock_GetLeaseId AcquireLock_GetOwnerId AcquireLock_GetLockName AL_LeaseId AL_OwnerId AL_LockName].
  rewrite Hl, Ho, String.eqb_refl, Hf. cbn. do 3 eexists. split; [done|]. cbn. rewrite lookup_insert_eq. by split_and!.
Qed.

(** The call has returned with the lock, and the answer carries the token of the
    lock the state machine holds for it. *)
Definition has_lock (n : Node) (c : wait_call) : Prop :=
  exists resp lk, wc_pc c = Returned (Ok resp) /\ locks (fsm n) !! wc_lock c = Some lk /\
    Lock_LeaseID lk = wc_lease c /\ ALR_FencingToken resp = Lock_FencingToken lk.

(** Some run of the call's own steps leads to the lock within [k] steps. *)
Definition gets_lock (n : Node) (c : wait_call) (k : nat) : Prop :=
  exists es n' c' resp lk, (length es <= k)%nat /\ wait_run n c es = Some (n', c') /\
    wc_pc c' = Returned (Ok resp) /\ locks (fsm n') !! wc_lock c = Some lk /\
    Lock_LeaseID lk = wc_lease c /\ ALR_FencingToken resp = Lock_FencingToken lk.

(** Neither the wait limit nor the caller's context ends the wait, the node still
    leads when the call rechecks it, and the lease is alive when the call tries. *)
Definition goes_on (n : Node) (c : wait_call) (e : call_event) : Prop :=
  match e with
  | Run now => lease_alive n c now
  | OnReady => True
  | OnRecheck => IsLeader n = true
  | OnTimeout | OnDone => False
  end.

(** Whatever the call does next, as long as it goes on, it has the lock within [k]
    of its steps, and there is always such a step. *)
Fixpoint must_get (n : Node) (c : wait_call) (k : nat) : Prop :=
  has_lock n c \/
  match k with
  | O => False
  | S k =>
    (exists e next, goes_on n c e /\ wait_step n c e = Some next) /\
    forall e n1 c1, goes_on n c e -> wait_step n c e = Some (n1, c1) -> must_get n1 c1 k
  end.

Lemma wait_step_same n c e n1 c1 : wait_step n c e = Some (n1, c1) -> wc_lock c1 = wc_lock c /\ wc_lease c1 = wc_lease c.
Proof.
  unfold wait_step. destruct (wc_pc c), e; try done; try by intros [= <- <-].
  - destruct (acquire _ _ _ _ _) as [n2 [a|err]]; [by intros [= <- <-]|]. by destruct (errors_Is err _); intros [= <- <-].
  - destruct (Ready _ _); [|done]. by intros [= <- <-].
  - by destruct (ensureLeader n); intros [= <- <-].
Qed.

Lemma must_get_gets n c k : must_get n c k -> gets_lock n c k.
Proof.
  assert (Hhas : forall n c k, has_lock n c -> gets_lock n c k).
  { intros m d k' (resp&lk&H). exists [], m, d, resp, lk. split; [cbn; lia|done]. }
  revert n c. induction k as [|k IH]; intros n c [Hn|Hn]; [by apply Hhas|done|by apply Hhas|].
  destruct Hn as [(e&[n1 c1]&Hgo&Hst) Hall]. destruct (IH n1 c1 (Hall e n1 c1 Hgo Hst)) as (es&n'&c'&resp&lk&Hlen&Hrun&Hend).
  destruct (wait_step_same _ _ _ _ _ Hst) as [Hl Hle]. rewrite Hl, Hle in Hend.
  exists (e :: es), n', c', resp, lk. split; [cbn; lia|]. split; [|done]. cbn. by rewrite Hst.
Qed.

Lemma must_get_more n c k k' : (k <= k')%nat -> must_get n c k -> must_get n c k'.
Proof.
  revert n c k'. induction k as [|k IH]; intros n c [|k'] Hle [H|H]; try done; try (by left); [lia|].
  right. destruct H as [Hex Hall]. split; [done|]. intros e n1 c1 Hgo Hst. apply IH; [lia|by eapply Hall].
Qed.

Lemma can_take_at n c now now' pc : can_take n c now -> lease_alive n c now' -> can_take n (set_pc c pc) now'.
Proof. by intros [] ?. Qed.

Lemma must_get_try n c now : wc_pc c = AtTry -> can_take n c now -> must_get n c 1.
Proof.
  intros Hpc Hct. right. split.
  - exists (Run now). unfold wait_step. rewrite Hpc. destruct (acquire _ _ _ _ _) as [n1 r].
    eexists. split; [apply Hct|done].
  - intros e n1 c1 Hgo Hst. left. unfold wait_step in *. rewrite Hpc in *. destruct e as [now'| | | |]; try done. cbn in Hgo.
    assert (Hct' : can_take n c now') by (by destruct Hct).
    destruct (acquire_free n c now' Hct') as (n'&resp&lk&Ha&Hlk). rewrite Ha in *. injection Hst as <- <-. exists resp, lk. by split.
Qed.

Lemma must_get_held n c now : wc_pc c = AtHeld -> can_take n c now -> must_get n c 2.
Proof.
  intros Hpc Hct. right. split.
  - exists (Run now). unfold wait_step. rewrite Hpc. eexists. split; [apply Hct|done].
  - intros e n1 c1 Hgo. unfold wait_step, heldByOther, GetLock in *. rewrite Hpc in *. rewrite (ct_free _ _ _ Hct).
    destruct e as [now'| | | |]; try done. intros [= <- <-]. apply (must_get_try _ _ now'); [done|]. by apply (can_take_at n c now).
Qed.

Lemma must_get_head n c now : wc_pc c = AtHead -> IsHead (node_queues n) (wc_waiter c) = true ->
  can_take n c now -> must_get n c 3.
Proof.
  intros Hpc Hh Hct. right. split.
  - exists (Run now). unfold wait_step. rewrite Hpc. eexists. split; [apply Hct|done].
  - intros e n1 c1 Hgo. unfold wait_step in *. rewrite Hpc in *. rewrite Hh.
    destruct e as [now'| | | |]; try done. intros [= <- <-]. apply (must_get_held _ _ now'); [done|]. by apply (can_take_at n c now).
Qed.

Lemma must_get_select n c now :
  wc_pc c = InSelect -> IsHead (node_queues n) (wc_waiter c) = true -> signalled (node_queues n) (wc_waiter c) = true ->
  can_take n c now -> must_get n c 4.
Proof.
  intros Hpc Hh Hs Hct. unfold signalled in Hs. destruct (lq_waiters (node_queues n) !! wc_waiter c) as [x|] eqn:Hx; [|done].
  cbn in Hs. right. split.
  - exists OnReady. unfold wait_step, Ready. rewrite Hpc, Hx. cbn. rewrite Hs. cbn. by eexists.
  - intros e n1 c1 Hgo. unfold wait_step in *. rewrite Hpc in *. destruct e as [now'| | | |]; try done.
    + unfold Ready. rewrite Hx. cbn. rewrite Hs. cbn. intros [= <- <-].
      apply (must_get_head _ _ now); [done| |by destruct Hct]. cbn.
      unfold IsHead, lockName_of, queue_of in Hh |- *. cbn. rewrite Hx in Hh. by rewrite lookup_insert_eq.
    + unfold ensureLeader. cbn in Hgo. rewrite Hgo. intros [= <- <-].
      apply (must_get_head _ _ now); [done..|]. by apply (can_take_at n c now); [|apply Hct].
Qed.

(** The head of the queue of a free lock gets it. *)
Lemma head_takes_free_lock (s : system) (w : Z) (c : wait_call) (now : Time)
    (Hr : reachable s) (Hc : s_calls s !! w = Some c)
    (Hhead : head (queue_of (node_queues (s_node s)) (wc_lock c)) = Some w)
    (Htake : can_take (s_node s) c now) :
  must_get (s_node s) c 4.
Proof.
  pose proof (reachable_inv s Hr) as Hi. destruct (inv_call s Hi w c Hc) as (Hid&_&Hn&Hwt).
  assert (Hw : waits c) by (apply Hwt; destruct (queue_of _ (wc_lock c)); simplify_eq/=; left).
  assert (Hh : IsHead (node_queues (s_node s)) (wc_waiter c) = true).
  { unfold IsHead, lockName_of. rewrite Hid, Hn. cbn. destruct (queue_of _ (wc_lock c)); simplify_eq/=. apply Z.eqb_refl. }
  unfold waits in Hw. destruct (wc_pc c) eqn:Hpc; [..|done].
  - apply (must_get_more _ _ 3%nat); [lia|]. by eapply must_get_head.
  - apply (must_get_more _ _ 2%nat); [lia|]. by eapply must_get_held.
  - apply (must_get_more _ _ 1%nat); [lia|]. by eapply must_get_try.
  - eapply must_get_select; try done. rewrite Hid. destruct (signalled (node_queues (s_node s)) w) eqn:Hs; [done|].
    destruct (inv_awake s Hi w c Hc Hhead Hpc Hs) as [? E]. by rewrite (ct_free _ _ _ Htake) in E.
Qed.

(** C15: the call at the head of the queue of a free lock gets it, if it can. In a
    reachable system let a lock be free, let a call wait at the head of its queue,
    let the caller's lease exist, belong to the caller and be alive, and let the
    library commit the caller's entry at once. Then whatever the call does next it
    has the lock within four of its own steps, none of which is blocked, and the
    answer carries the token of the lock the state machine then holds for it: as
    long as nothing else changes the node meanwhile, neither the wait limit nor the
    caller's context ends the wait, the node still leads if the call rechecks it,
    and the lease is alive at the clock readings of those steps. *)
Theorem free_lock_is_taken (s : system) (w : Z) (c : wait_call) (now : Time)
    (Hr : reachable s) (Hc : s_calls s !! w = Some c)
    (Hhead : head (queue_of (node_queues (s_node s)) (wc_lock c)) = Some w)
    (Htake : can_take (s_node s) c now) :
  must_get (s_node s) c 4 /\ gets_lock (s_node s) c 4.
Proof. assert (must_get (s_node s) c 4) by (by eapply head_takes_free_lock). eauto using must_get_gets. Qed.
End waiting.

(** ** Concrete runs *)

Definition w_node : Node := solo_node demo_fsm.
Definition w_call : wait_call := mkCall "my-lock" "client-1" 1 0 AtHead.
Definition w_sys : system :=
  mkSys (AcquireLock w_node "my-lock" "client-1" 1 true (solo_time 1)).1 (<[0 := w_call]> ∅).

Lemma w_join : sys_step (mkSys w_node ∅) w_sys.
Proof.
  apply (sys_join w_node ∅ "my-lock" "client-1" 1 (solo_time 1) _ w_call); [done|].
  rewrite (surjective_pairing (AcquireLock _ _ _ _ _ _)). f_equal.
Qed.

Lemma w_reachable : reachable w_sys.
Proof. eapply reach_step; [by apply (reach_start w_node)|apply w_join]. Qed.

Lemma no_lost_wakeup_witness :
  exists c, s_calls w_sys !! 0 = Some c /\ wc_lock c = "my-lock"%string /\ waits c /\
    (wc_pc c = InSelect -> signalled (node_queues (s_node w_sys)) 0 = true).
Proof. apply (no_lost_wakeup w_sys "my-lock" 0); [apply w_reachable|vm_compute; reflexivity..]. Defined.

(** A second caller joins the queue: it goes to the back. *)
Definition w_call2 : wait_call := mkCall "my-lock" "client-2" 2 1 AtHead.
Definition w_sys2 : system :=
  mkSys (AcquireLock (s_node w_sys) "my-lock" "client-2" 2 true (solo_time 1)).1 (<[1 := w_call2]> (s_calls w_sys)).

Lemma w_join2 : sys_step w_sys w_sys2.
Proof.
  apply (sys_join (s_node w_sys) (s_calls w_sys) "my-lock" "client-2" 2 (solo_time 1) _ w_call2); [done|].
  rewrite (surjective_pairing (AcquireLock _ _ _ _ _ _)). f_equal.
Qed.

Lemma served_in_arrival_order_witness :
  queue_of (node_queues (s_node w_sys2)) "my-lock" = [0; 1] /\
  exists arrived, [0; 1] `sublist_of` [0] ++ arrived /\ forall w, w ∈ arrived -> s_calls w_sys !! w = None.
Proof.
  split; [vm_compute; reflexivity|].
  destruct (served_in_arrival_order w_sys w_sys2 w_reachable w_join2) as [H _].
  destruct (H "my-lock"%string) as (a&Ha&Hnew). exists a. split; [exact Ha|exact Hnew].
Defined.

Lemma free_lock_is_taken_witness : must_get (s_node w_sys) w_call 4 /\ gets_lock (s_node w_sys) w_call 4.
Proof.
  apply (free_lock_is_taken w_sys 0 w_call (solo_time 2)); [apply w_reachable|vm_compute; reflexivity..|].
  split; [done|vm_compute; reflexivity| |].
  - exists (mkLease 1 "client-1" (1700000010 * Second) (10 * Second)).
    split; [vm_compute; reflexivity|]. split; [reflexivity|]. vm_compute. reflexivity.
  - eexists _, tt. split; reflexivity.
Defined.
