(* ===== verification/NodeProps.v ===== *)
(** * Properties of a node

    Its clock, what an acknowledged renewal is worth, the expiry loop, start-up and
    shutdown, and membership. *)

From S2P Require Import Prelude GoTime Errors Domain Raftlog Fsm FsmInv FsmProps RaftFsm RaftFsmProps LeaseTracker.
From S2P Require Import TrackerProps LockQueue Node Waiting Solo.

Section node_props.
Context {RO : RangeOrder} {PC : ProtoCodec} {RL : RaftLib}.

(** ** The clock *)

(** [NewNode] sets [clockStarted] to what [time.Now] returns: a wall and a
    monotonic reading. *)
Definition clock_ok (n : Node) : Prop :=
  IsZero (clockStarted n) = false /\ is_Some (mono (clockStarted n)).
Definition node_off (n : Node) : Z :=
  wall (clockStarted n) - default 0 (mono (clockStarted n)).

Lemma Node_Now_mono n w m : clock_ok n -> Node_Now n (mkTime w (Some m)) = mkTime (m + node_off n) (Some m).
Proof.
  intros [Hz [m0 Hm0]]. unfold Node_Now, node_off, Since, Sub, Add, UTC. rewrite Hz. cbn. rewrite Hm0. cbn.
  f_equal; [lia|f_equal; lia].
Qed.

Lemma Node_Now_lockstep n now : clock_ok n -> is_Some (mono now) -> lockstep (node_off n) (Node_Now n now).
Proof.
  intros Hc [m Hm]. destruct now as [w ?]; cbn in Hm; subst. rewrite Node_Now_mono by done. unfold lockstep; cbn. lia.
Qed.

(** The node's clock follows the monotonic clock alone: whatever the wall
    clock reads at the call, the instant returned is the same, it advances exactly
    as the monotonic clock does, and its two readings keep a fixed distance. *)
Theorem node_clock_ignores_wall_jumps (n : Node) (w1 w2 m1 m2 : Z) (Hc : clock_ok n) :
  Node_Now n (mkTime w1 (Some m1)) = Node_Now n (mkTime w2 (Some m1)) /\
  Sub (Node_Now n (mkTime w2 (Some m2))) (Node_Now n (mkTime w1 (Some m1))) = m2 - m1 /\
  wall (Node_Now n (mkTime w2 (Some m2))) - wall (Node_Now n (mkTime w1 (Some m1))) = m2 - m1 /\
  lockstep (node_off n) (Node_Now n (mkTime w1 (Some m1))).
Proof.
  split_and!; try (apply Node_Now_lockstep; eauto); rewrite !Node_Now_mono by done; unfold Sub; cbn; [done|lia|lia].
Qed.

(** ** Renewal *)

Lemma applyEntries_keeps n bs :
  node_leases (applyEntries n bs) = node_leases n /\ clockStarted (applyEntries n bs) = clockStarted n /\
  raft (applyEntries n bs) = raft n /\ cfg (applyEntries n bs) = cfg n.
Proof.
  revert n. induction bs as [|b bs IH]; intros n; [done|].
  change (applyEntries n (b :: bs)) with (applyEntries (applyEntry n b).1 bs).
  destruct (IH (applyEntry n b).1) as (->&->&->&->). unfold applyEntry. by destruct (RaftFSM_Apply _ _) as [[? ?] ?].
Qed.

Lemma awaitTermApplied_keeps n term :
  node_leases (awaitTermApplied n term).1 = node_leases n /\
  clockStarted (awaitTermApplied n term).1 = clockStarted n.
Proof.
  unfold awaitTermApplied. destruct (barrierTerm n =? term); [done|].
  destruct (Barrier (raft n)) as [[r bs] [err|]]; cbn;
    by destruct (applyEntries_keeps (set_raft n r) bs) as (->&->&_).
Qed.

(** What a successful wait did: either this term's barrier had succeeded before, or
    it succeeded now and the node applied what the library delivered until then. *)
Definition barrier_passed (n : Node) (term : Z) (n1 : Node) : Prop :=
  (barrierTerm n = term /\ n1 = n) \/
  (barrierTerm n <> term /\ exists r bs, Barrier (raft n) = (r, bs, None) /\
     n1 = set_barrierTerm (applyEntries (set_raft n r) bs) term).

Lemma awaitTermApplied_ok n term n1 : awaitTermApplied n term = (n1, None) <-> barrier_passed n term n1.
Proof.
  unfold awaitTermApplied, barrier_passed. destruct (Z.eqb_spec (barrierTerm n) term) as [Hb|Hb].
  - split; [intros [= <-]; by left|]. by intros [[_ ->]|[? _]].
  - destruct (Barrier (raft n)) as [[r bs] [err|]]; split; try done.
    + by intros [[? _]|(_&r'&bs'&?&_)].
    + intros [= <-]. right. split; [done|]. by exists r, bs.
    + intros [[? _]|(_&r'&bs'&[= -> ->]&->)]; [done|done].
Qed.


(** Checking a lease starts the tracker's term whatever the node's Raft state is: on
    a candidate the grace of a term it may win begins before the election is won. *)
Lemma check_starts_term n id now lease :
  GetLease (fsm n) id = Some lease -> tr_term (node_leases n) <> CurrentTerm (raft n) ->
  tr_term (node_leases (CheckLeaseAlive n id now).1) = CurrentTerm (raft n) /\
  leaderSince (node_leases (CheckLeaseAlive n id now).1) = Node_Now n now.
Proof.
  intros Hl Hne. unfold CheckLeaseAlive. rewrite Hl. unfold alive, syncTerm. cbn.
  destruct (Z.eqb_spec (CurrentTerm (raft n)) (tr_term (node_leases n))); [congruence|done].
Qed.

(** ** The expiry loop *)

Lemma Node_Apply_keeps n cmd :
  node_leases (Node_Apply n cmd).1 = node_leases n /\ clockStarted (Node_Apply n cmd).1 = clockStarted n.
Proof.
  destruct (Node_Apply_entries n cmd) as (r&bs&->). by destruct (applyEntries_keeps (set_raft n r) bs) as (->&->&_).
Qed.

Lemma expireClaimed_clock n ids : clockStarted (expireClaimed n ids) = clockStarted n.
Proof.
  revert n. induction ids as [|i ids IH]; intros n; [done|]. cbn [expireClaimed].
  pose proof (Node_Apply_keeps n (NewExpireLeaseCmd i)) as [_ Hck]. destruct (Node_Apply _ _) as [n1 r]. by rewrite IH.
Qed.

Lemma expireClaimed_tracker off n ids :
  tracker_wf off (node_leases n) ->
  tracker_wf off (node_leases (expireClaimed n ids)) /\
  tr_term (node_leases (expireClaimed n ids)) = tr_term (node_leases n) /\
  forall i, expiring_of (node_leases (expireClaimed n ids)) i =
    if decide (i ∈ ids) then false else expiring_of (node_leases n) i.
Proof.
  revert n. induction ids as [|id ids IH]; intros n Hwf; cbn [expireClaimed].
  { done. }
  pose proof (Node_Apply_keeps n (NewExpireLeaseCmd id)) as [Hl _].
  destruct (Node_Apply n (NewExpireLeaseCmd id)) as [n1 r]; cbn in Hl |- *. rewrite Hl.
  set (c := match r with Ok _ => true | Err _ => false end).
  destruct (finishExpiry_spec off (node_leases n) id c Hwf) as (Hwf1&Ht&_&He&_).
  destruct (IH (set_leases n1 (finishExpiry (node_leases n) id c)) Hwf1) as (H1&H2&H3).
  split_and!; [done|by rewrite H2|]. intros i. rewrite H3. cbn. rewrite He.
  destruct (decide (i ∈ ids)), (decide (i = id)), (decide (i ∈ id :: ids)); set_solver.
Qed.

(** C23: a tick of the expiry loop leaves no claim behind, whatever Raft answers:
    afterwards exactly the leases that were already claimed are claimed, so a
    lease whose expiry failed can be renewed or claimed again. *)
Theorem expiry_tick_leaves_no_claim n now
    (Hc : clock_ok n) (Hmono : is_Some (mono now)) (Hterm : CurrentTerm (raft n) <> 0)
    (Hlead : IsLeader n = true) (Hwf : tracker_wf (node_off n) (node_leases n)) :
  exists n', leaseExpiryTick n now = Some n' /\ tracker_wf (node_off n) (node_leases n') /\
    tr_term (node_leases n') = CurrentTerm (raft n) /\
    forall i, expiring_of (node_leases n') i =
      expiring_of (syncTerm (node_leases n) (CurrentTerm (raft n)) (Node_Now n now)) i.
Proof.
  unfold leaseExpiryTick. rewrite Hlead. cbn [negb].
  pose proof (Node_Now_lockstep n now Hc Hmono) as Hls.
  pose proof (syncTerm_wf _ _ (CurrentTerm (raft n)) _ Hwf Hls) as Hwf0.
  destruct (tr_maps _ _ Hwf0) as [_ Hexp]; [by rewrite syncTerm_term|].
  unfold claimExpired.
  destruct (claimLoop_spec _ _ _ (FSM_Leases (fsm n)) [] Hwf0 Hls Hexp) as (t&ids&->&Ht&_&_&Hwft&He&_&Hin).
  cbn. eexists. split; [done|]. destruct (expireClaimed_tracker _ (set_leases n t) ids Hwft) as (H1&H2&H3).
  split_and!; [done|by rewrite H2; cbn; rewrite Ht, syncTerm_term|]. intros i. rewrite H3. cbn. rewrite He.
  case_decide as Hi.
  - destruct (proj1 (Hin i) Hi) as [-> _]. done.
  - rewrite bool_decide_eq_false_2 by done. by rewrite orb_false_r.
Qed.

(** The library commits every entry at once, with no other entry around it. *)
Definition commits_at_once : Prop :=
  (forall r data, exists r', raft_Apply r data = (r', Committed [] [])) /\
  (forall i, is_u64 i -> exists data, Marshal (NewExpireLeaseCmd i) = Ok data).

Lemma wire_expire i : is_u64 i -> wire_ok (NewExpireLeaseCmd i).
Proof. intros Hi. split; [done|]. split; [exact Hi|done]. Qed.

Lemma Node_Apply_expire n i : commits_at_once -> is_u64 i ->
  fsm (Node_Apply n (NewExpireLeaseCmd i)).1 = post (FSM_Apply (fsm n) (NewExpireLeaseCmd i)).
Proof.
  intros [Hcom Hmar] Hi. destruct (Hmar i Hi) as [data Hm]. unfold Node_Apply. rewrite Hm.
  destruct (Hcom (raft n) data) as [r' ->]. cbn [applyEntries foldl]. unfold applyEntry.
  rewrite (RaftFSM_Apply_marshalled _ _ _ (wire_expire i Hi) Hm). by repeat case_match.
Qed.

(** One committed expiry, whether or not the lease still exists. *)
Lemma expire_post f i : fsm_wf f -> room f 1 -> is_u64 i ->
  let g := post (FSM_Apply f (NewExpireLeaseCmd i)) in
  fsm_wf g /\ room g 1 /\
  (forall j, leases g !! j = if decide (j = i) then None else leases f !! j) /\
  (forall nm l, locks g !! nm = Some l <-> locks f !! nm = Some l /\ Lock_LeaseID l <> i).
Proof.
  intros Hwf Hroom Hi. cbn zeta.
  change (FSM_Apply f (NewExpireLeaseCmd i)) with (applyExpireLease f (Some (mkExpireLease i 0))).
  destruct (leases f !! i) as [s|] eqn:Hs.
  - rewrite (applyExpireLease_spec f (Some (mkExpireLease i 0)) s Hs). cbn [post leases locks].
    destruct (wf_leases f Hwf i s Hs) as [Hid _ _ _].
    split; [by apply (fsm_step_wf f), (step_expire f i s)|]. split; [exact Hroom|]. rewrite Hid. split.
    + intros j. rewrite lookup_delete. by destruct (decide (i = j)), (decide (j = i)).
    + intros nm l. by rewrite map_lookup_filter_Some.
  - unfold applyExpireLease. cbn [ExpireLease_GetLeaseId EL_LeaseId]. rewrite Hs. cbn [post].
    split_and!; [done|done|..].
    + intros j. case_decide; by subst.
    + intros nm l. split; [|by intros [? _]]. intros Hl. split; [done|]. intros <-.
      destruct (wf_locks f Hwf nm l Hl) as [_ (s&Hs'&_) _]. congruence.
Qed.

Lemma expireClaimed_fsm n ids : commits_at_once -> Forall is_u64 ids -> fsm_wf (fsm n) -> room (fsm n) 1 ->
  (forall j, leases (fsm (expireClaimed n ids)) !! j = if decide (j ∈ ids) then None else leases (fsm n) !! j) /\
  (forall nm l, locks (fsm (expireClaimed n ids)) !! nm = Some l <->
     locks (fsm n) !! nm = Some l /\ Lock_LeaseID l ∉ ids).
Proof.
  intros Hcom. revert n. induction ids as [|i ids IH]; intros n Hids Hwf Hroom; cbn [expireClaimed].
  { split; intros *; [done|]. split; [|by intros [? _]]. intros ?. split; [done|apply not_elem_of_nil]. }
  apply Forall_cons_iff in Hids as [Hi Hids].
  pose proof (Node_Apply_expire n i Hcom Hi) as Hf.
  destruct (expire_post (fsm n) i Hwf Hroom Hi) as (Hwf1&Hr1&Hl1&Hk1). rewrite <-Hf in Hwf1, Hr1, Hl1, Hk1.
  destruct (Node_Apply n (NewExpireLeaseCmd i)) as [n1 r]; cbn in Hwf1, Hr1, Hl1, Hk1 |- *.
  destruct (IH (set_leases n1 (finishExpiry (node_leases n1) i (match r with Ok _ => true | Err _ => false end)))
    Hids Hwf1 Hr1) as [H1 H2]. split.
  - intros j. rewrite H1. cbn. rewrite Hl1.
    destruct (decide (j ∈ ids)), (decide (j = i)), (decide (j ∈ i :: ids)); set_solver.
  - intros nm l. rewrite H2. cbn. rewrite Hk1. set_solver.
Qed.

(** The tick step by step: the leases it claims are the dead ones, and the
    surviving leases and locks are those of live leases. *)
Lemma tick_exact n now
    (Hcom : commits_at_once) (Hc : clock_ok n) (Hmono : is_Some (mono now))
    (Hlead : IsLeader n = true) (Hterm : CurrentTerm (raft n) <> 0)
    (Hwf : tracker_wf (node_off n) (node_leases n)) (Hf : fsm_wf (fsm n)) (Hroom : room (fsm n) 1)
    (Hnone : forall i, expiring_of (syncTerm (node_leases n) (CurrentTerm (raft n)) (Node_Now n now)) i = false) :
  exists n' t ids, leaseExpiryTick n now = Some n' /\
    claimExpired (node_leases n) (CurrentTerm (raft n)) (Node_Now n now) (FSM_Leases (fsm n)) = Some (t, ids) /\
    n' = expireClaimed (set_leases n t) ids /\
    (forall i s, leases (fsm n) !! i = Some s ->
       (alive (node_leases n) (CurrentTerm (raft n)) (Node_Now n now) s).2 = true <-> i ∉ ids) /\
    (forall i s, leases (fsm n') !! i = Some s <->
       leases (fsm n) !! i = Some s /\
       (alive (node_leases n) (CurrentTerm (raft n)) (Node_Now n now) s).2 = true) /\
    (forall nm l, locks (fsm n') !! nm = Some l <->
       locks (fsm n) !! nm = Some l /\ is_Some (leases (fsm n') !! Lock_LeaseID l)).
Proof.
  unfold leaseExpiryTick. rewrite Hlead. cbn [negb].
  pose proof (Node_Now_lockstep n now Hc Hmono) as Hls.
  pose proof (syncTerm_wf _ _ (CurrentTerm (raft n)) _ Hwf Hls) as Hwf0.
  destruct (tr_maps _ _ Hwf0) as [_ Hexp]; [by rewrite syncTerm_term|]. unfold claimExpired.
  destruct (claimLoop_spec _ _ _ (FSM_Leases (fsm n)) [] Hwf0 Hls Hexp) as (t&ids&->&_&_&_&_&_&_&Hin).
  cbn. eexists _, t, ids. split; [done|]. split; [done|]. split; [done|].
  assert (Hdead : forall i s, leases (fsm n) !! i = Some s ->
    (alive (node_leases n) (CurrentTerm (raft n)) (Node_Now n now) s).2 = true <-> i ∉ ids).
  { intros i s Hs. destruct (wf_leases _ Hf i s Hs) as [Hid _ _ _]. unfold alive; cbn.
    rewrite Hnone, (Before_deadline (node_off n)) by done. cbn [negb andb]. rewrite Z.ltb_lt, Hin, Hnone. split.
    - intros Hlt [_ (s'&Hs'&Hid'&Hle)]. apply list_elem_of_fmap in Hs' as ([j s2]&->&Hj%elem_of_range). cbn in *.
      destruct (wf_leases _ Hf j s2 Hj) as [Hj2 _ _ _]. assert (s2 = s) by congruence. subst. lia.
    - intros Hno. apply Z.nle_gt. intros Hle. apply Hno. split; [done|]. exists s. split_and!; [|done|done].
      apply list_elem_of_fmap. exists (i, s). split; [done|]. by apply elem_of_range. }
  assert (Hu : Forall is_u64 ids).
  { apply list.Forall_forall. intros i [_ (s&Hs&<-&_)]%Hin.
    apply list_elem_of_fmap in Hs as ([j s2]&->&Hj%elem_of_range).
    cbn [snd]. destruct (wf_leases _ Hf j s2 Hj) as [-> Hb _ _]. pose proof (wf_next _ Hf). unfold is_u64. lia. }
  destruct (expireClaimed_fsm (set_leases n t) ids Hcom Hu Hf Hroom) as [HL HK]. cbn in HL, HK. split_and!; [done|..].
  - intros i s. rewrite HL. case_decide as Hi.
    + split; [done|]. intros [Hs Ha]. by apply (Hdead i s Hs) in Ha.
    + split; [intros Hs; split; [done|]; by apply (Hdead i s Hs)|by intros [? _]].
  - intros nm l. rewrite HK, HL. split; intros [Hl Hx]; (split; [done|]).
    + rewrite decide_False by done. destruct (wf_locks _ Hf nm l Hl) as [_ (s&->&_) _]. by eexists.
    + case_decide; [|done]. by destruct Hx.
Qed.

(** C22: with a library that commits at once, a tick on the leader with no claim
    outstanding expires exactly the dead leases: those that survive are those the
    leader reports alive at that instant, unchanged, and the locks that survive
    are those whose lease survives. *)
Theorem expiry_tick_exact n now
    (Hcom : commits_at_once) (Hc : clock_ok n) (Hmono : is_Some (mono now))
    (Hlead : IsLeader n = true) (Hterm : CurrentTerm (raft n) <> 0)
    (Hwf : tracker_wf (node_off n) (node_leases n)) (Hf : fsm_wf (fsm n)) (Hroom : room (fsm n) 1)
    (Hnone : forall i, expiring_of (syncTerm (node_leases n) (CurrentTerm (raft n)) (Node_Now n now)) i = false) :
  exists n', leaseExpiryTick n now = Some n' /\
    (forall i s, leases (fsm n') !! i = Some s <->
       leases (fsm n) !! i = Some s /\
       (alive (node_leases n) (CurrentTerm (raft n)) (Node_Now n now) s).2 = true) /\
    (forall nm l, locks (fsm n') !! nm = Some l <->
       locks (fsm n) !! nm = Some l /\ is_Some (leases (fsm n') !! Lock_LeaseID l)).
Proof.
  destruct (tick_exact n now Hcom Hc Hmono Hlead Hterm Hwf Hf Hroom Hnone) as (n'&t&ids&Ht&_&_&_&H). by exists n'.
Qed.

(** ** Commit points *)

(** An answered command was applied at one point of the log: the state machine
    held [fsm n0] just before, and the answer is the state machine's. *)
Lemma Node_Apply_committed n cmd n' res :
  wire_ok cmd -> Node_Apply n cmd = (n', res) ->
  (exists n0 n1 after, fsm n1 = post (FSM_Apply (fsm n0) cmd) /\ n' = applyEntries n1 after /\
     response (FSM_Apply (fsm n0) cmd) = res) \/
  (exists e, res = Err e /\ forall d, root_cause e <> Domain d).
Proof.
  intros Hw. unfold Node_Apply. destruct (Marshal cmd) as [data|me] eqn:Hm.
  2:{ intros [= _ <-]. right. eexists. split; [done|]. by intros d. }
  destruct (raft_Apply (raft n) data) as [r [err bs|b1 b2]].
  { intros [= _ <-]. right. eexists. split; [done|]. by intros d. }
  set (n0 := applyEntries (set_raft n r) b1). left. exists n0, (applyEntry n0 data).1, b2. revert H.
  unfold applyEntry. rewrite (RaftFSM_Apply_marshalled _ _ _ Hw Hm).
  destruct (response (FSM_Apply (fsm n0) cmd)); intros [= <- <-]; done.
Qed.

(** ** Start and stop *)

(** Starting a node bootstraps a cluster exactly when asked to on storage
    without Raft state, and then with this node as the only voter; a restart never
    forms a new cluster. The advertised addresses default to the bind address, and
    the node starts with an empty tracker, empty queues and a running clock. *)
Theorem new_node_starts_clean a c c' n boot
    (Hok : NewNode a c = (c', Ok (n, boot))) :
  match boot with
  | Some servers => Bootstrap c = true /\ raft_HasExistingState a = Ok false /\
      servers = [mkServer Voter (cfg_NodeID c) (RaftAdvertiseAddr c')]
  | None => Bootstrap c = false \/ raft_HasExistingState a = Ok true
  end /\
  cfg n = c' /\ cfg_NodeID c' = cfg_NodeID c /\
  RaftAdvertiseAddr c' = (if String.eqb (RaftAdvertiseAddr c) "" then BindAddr c else RaftAdvertiseAddr c) /\
  GRPCAdvertiseAddr c' = (if String.eqb (GRPCAdvertiseAddr c) "" then BindAddr c else GRPCAdvertiseAddr c) /\
  node_queues n = newLockQueues /\ clockStarted n = as_Now a /\ stopped n = false /\
  (forall off, tracker_wf off (node_leases n)).
Proof.
  revert Hok. unfold NewNode. set (c1 := if String.eqb (RaftAdvertiseAddr c) "" then _ else _).
  set (c2 := if String.eqb (GRPCAdvertiseAddr c1) "" then _ else _).
  assert (Hc2 : cfg_NodeID c2 = cfg_NodeID c /\ Bootstrap c2 = Bootstrap c /\
    RaftAdvertiseAddr c2 = (if String.eqb (RaftAdvertiseAddr c) "" then BindAddr c else RaftAdvertiseAddr c) /\
    GRPCAdvertiseAddr c2 = (if String.eqb (GRPCAdvertiseAddr c) "" then BindAddr c else GRPCAdvertiseAddr c)).
  { unfold c2, c1. destruct (String.eqb (RaftAdvertiseAddr c) ""); cbn [GRPCAdvertiseAddr];
      by destruct (String.eqb (GRPCAdvertiseAddr c) ""). }
  clearbody c2. clear c1. destruct Hc2 as (<-&<-&<-&<-). intros Hok. injection Hok as <- Hres.
  destruct (os_MkdirAll a); [done|]. destruct (as_NewStorage a); [done|].
  destruct (net_ResolveTCPAddr _ _); [done|]. destruct (raft_NewTCPTransport a); [done|].
  destruct (raft_NewRaft _ _ _) as [[r f]|]; [|done]. destruct (Bootstrap c2).
  - destruct (raft_HasExistingState a) as [[]|]; [..|done]; injection Hres as <- <-; cbn;
      split_and!; auto using zero_tracker_wf.
  - injection Hres as <- <-; cbn; split_and!; auto using zero_tracker_wf.
Qed.

(** Shutting down twice is the same as shutting down once: the first call
    closes the stop channel and shuts Raft down, later calls do nothing and
    report success, even after a first call that failed. *)
Lemma shutdown_idempotent n e1 e2 n1 calls1 err1
    (Hfresh : shutdownOnce n = false) (H1 : Node_Shutdown n e1 = (n1, calls1, err1)) :
  stopped n1 = true /\ head calls1 = Some ShutdownRaft /\ (err1 = None <-> e1 = None) /\
  (e1 = None -> calls1 = [ShutdownRaft; CloseTransport; CloseStorage]) /\
  Node_Shutdown n1 e2 = (n1, [], None).
Proof.
  revert H1. unfold Node_Shutdown. rewrite Hfresh.
  destruct e1; intros [= <- <- <-]; cbn; split_and!; try done; naive_solver.
Qed.

(** ** Membership *)

Lemma addScan_add m servers :
  (addScan m servers = ScanAdd -> (forall s, s ∈ servers -> ServerID s <> NodeID m) ->
   forall s, s ∈ servers -> Address s <> RaftAddress m) /\
  (addScan m servers = ScanUpsert ->
   exists s, s ∈ servers /\ ServerID s = NodeID m /\ Address s = RaftAddress m /\ Suffrage s = Voter).
Proof.
  induction servers as [|x servers [IH1 IH2]]; cbn [addScan].
  { split; [intros _ _ s []%not_elem_of_nil|done]. }
  destruct (String.eqb_spec (ServerID x) (NodeID m)) as [E|E].
  { split; [intros _ Hno; by destruct (Hno x ltac:(left))|].
    destruct (String.eqb (Address x) (RaftAddress m) && bool_decide (Suffrage x = Voter)) eqn:Hb; [|done].
    intros _. exists x. to_prop. split; [left|done]. }
  destruct (String.eqb_spec (Address x) (RaftAddress m)) as [Ea|Ea]; [done|]. split.
  - intros Hs Hno s [->|Hin]%elem_of_cons; [done|]. apply IH1; [done| |done]. intros y Hy. apply Hno. by right.
  - intros (s&Hin&H)%IH2. exists s. split; [by right|done].
Qed.

Lemma wire_upsert id addr : wire_ok (NewUpsertEndpointCmd id addr).
Proof. split; [done|exact I]. Qed.

Lemma upsert_ok n m n' : upsertEndpointMetadata n m = (n', None) ->
  exists n1 after, n' = applyEntries n1 after /\ endpoints (fsm n1) !! NodeID m = Some (GRPCAddress m).
Proof.
  unfold upsertEndpointMetadata. destruct (Node_Apply n _) as [n2 [resp|e]] eqn:Ha; [|done]. intros [= <-].
  destruct (Node_Apply_committed _ _ _ _ (wire_upsert _ _) Ha) as [(n0&n1&after&Hf&->&Hr)|(e&?&_)]; [|done].
  exists n1, after. split; [done|]. rewrite Hf. revert Hr.
  change (FSM_Apply (fsm n0) (NewUpsertEndpointCmd (NodeID m) (GRPCAddress m))) with
    (applyUpsertEndpoint (fsm n0) (Some (mkUpsertEndpoint (NodeID m) (GRPCAddress m)))).
  unfold applyUpsertEndpoint, fail. case_match; cbn; [done|]. intros _. by rewrite lookup_insert_eq.
Qed.


(** The member list is the Raft configuration, one entry per server and
    nothing else, ordered by node id, each with the address under which clients
    reach it: this node's own, or what the replicated endpoints say. *)
Theorem members_view n servers (Hconf : GetConfiguration (raft n) = Ok servers) :
  Sorted member_le (Members n) /\
  NodeID <$> Members n ≡ₚ ServerID <$> servers /\
  forall m, m ∈ Members n <-> exists s, s ∈ servers /\ NodeID m = ServerID s /\ RaftAddress m = Address s /\
    GRPCAddress m = (if decide (ServerID s = cfg_NodeID (cfg n)) then GRPCAdvertiseAddr (cfg n)
                     else default ""%string (endpoints (fsm n) !! ServerID s)).
Proof.
  unfold Members. rewrite Hconf.
  assert (Hp := merge_sort_Permutation member_le (memberOf n <$> servers)). split_and!.
  - apply Sorted_merge_sort. intros x y. unfold member_le. apply String.leb_total.
  - rewrite Hp. rewrite <-list_fmap_compose. by apply reflexive_eq, list_fmap_ext.
  - intros m. rewrite Hp, list_elem_of_fmap. unfold memberOf, GetEndpoint. split.
    + intros (s&->&Hs). exists s. cbn. split_and!; try done. by destruct (String.eqb_spec (ServerID s) (cfg_NodeID (cfg n))), (decide (ServerID s = cfg_NodeID (cfg n))).
    + intros (s&Hs&H1&H2&H3). exists s. split; [|done]. destruct m; cbn in *. subst. f_equal.
      by destruct (String.eqb_spec (ServerID s) (cfg_NodeID (cfg n))), (decide (ServerID s = cfg_NodeID (cfg n))).
Qed.
End node_props.

(** ** A conflict the scan does not see

    The scan stops at the member's own entry: when node [a] moves to an address
    that a server listed after it already has, no conflict is reported. *)
Example conflict_after_own_entry :
  addScan (mkMember "a" "host-2:7000" "host-2:9000")
    [mkServer Voter "a" "host-1:7000"; mkServer Voter "b" "host-2:7000"] = ScanAdd.
Proof. reflexivity. Qed.

(** ** Concrete runs *)

Definition np_node : Node := solo_node demo_fsm.

Lemma np_clock f : clock_ok (solo_node f).
Proof. split; [reflexivity|by eexists]. Qed.

Lemma np_tracker f off : tracker_wf off (node_leases (solo_node f)).
Proof. apply zero_tracker_wf. Qed.

Lemma np_commits : commits_at_once.
Proof. split; [intros [] data; by exists tt|intros i _; by eexists]. Qed.

Lemma np_none f now i :
  expiring_of (syncTerm (node_leases (solo_node f)) (CurrentTerm (raft (solo_node f))) (Node_Now (solo_node f) now)) i = false.
Proof. reflexivity. Qed.

Lemma node_clock_witness :
  Node_Now np_node (mkTime 5 (Some (60 * Second))) = Node_Now np_node (mkTime 7 (Some (60 * Second))).
Proof. apply (node_clock_ignores_wall_jumps np_node 5 7 (60 * Second) 0). apply np_clock. Defined.


(** A node that leads its term since second 0: at second 60 the lease, which lasted
    until second 10, is dead, and so is the lock it holds. *)
Definition np_led : Node :=
  mkNode (RL := solo_raft) tt demo_held solo_config solo_start (mkTracker 1 (solo_time 0) (Some ∅) (Some ∅)) newLockQueues 0 false false.

Lemma np_led_tracker : tracker_wf (node_off np_led) (node_leases np_led).
Proof. split; [by intros _; split; eexists|by vm_compute|by intros i]. Qed.

Lemma np_led_none now i :
  expiring_of (syncTerm (node_leases np_led) (CurrentTerm (raft np_led)) (Node_Now np_led now)) i = false.
Proof. reflexivity. Qed.

Lemma expiry_tick_leaves_no_claim_witness :
  (claimExpired (node_leases np_led) 1 (Node_Now np_led (solo_time 60)) (FSM_Leases (fsm np_led)) = Some
     (mkTracker 1 (solo_time 0) (Some ∅) (Some {[1 := true; 2 := true]}), [2; 1])) /\
  exists n', leaseExpiryTick np_led (solo_time 60) = Some n' /\ expiring_of (node_leases n') 1 = false.
Proof.
  split; [vm_compute; reflexivity|].
  destruct (expiry_tick_leaves_no_claim np_led (solo_time 60) ltac:(by split; [|eexists]) ltac:(by eexists)
    ltac:(done) ltac:(reflexivity) np_led_tracker) as (n'&H1&_&_&H2).
  exists n'. split; [exact H1|]. rewrite H2. apply np_led_none.
Defined.

Lemma expiry_tick_exact_witness :
  locks (fsm np_led) !! "my-lock"%string = Some (mkLock "my-lock" "client-1" 1 1) /\
  exists n', leaseExpiryTick np_led (solo_time 60) = Some n' /\ leases (fsm n') !! 1 = None /\ locks (fsm n') !! "my-lock"%string = None.
Proof.
  split; [vm_compute; reflexivity|].
  destruct (expiry_tick_exact np_led (solo_time 60) np_commits ltac:(by split; [|eexists]) ltac:(by eexists)
    ltac:(reflexivity) ltac:(done) np_led_tracker demo_held_wf ltac:(split; vm_compute; done) (np_led_none (solo_time 60))) as (n'&H&HL&HK).
  assert (H1 : leases (fsm n') !! 1 = None).
  { destruct (leases (fsm n') !! 1) as [l|] eqn:El; [|done]. apply HL in El as [El Ha]. vm_compute in El. injection El as <-. by vm_compute in Ha. }
  exists n'. split; [exact H|]. split; [exact H1|].
  destruct (locks (fsm n') !! "my-lock"%string) as [l|] eqn:El; [|done]. apply HK in El as [El [x Hx]]. vm_compute in El. injection El as <-.
  cbn in Hx. by rewrite H1 in Hx.
Defined.

Definition np_assembly : Assembly :=
  mkAssembly None None (fun _ => None) None (fun _ f => Ok (tt, f)) (Ok false) (fun r _ => r) solo_start.

Lemma new_node_witness : Bootstrap solo_config = true /\ raft_HasExistingState np_assembly = Ok false.
Proof.
  destruct (new_node_starts_clean np_assembly solo_config solo_config
    (mkNode (RL := solo_raft) tt NewFSM solo_config solo_start zero_tracker newLockQueues 0 false false)
    (Some [solo_server]) ltac:(reflexivity)) as [(H1&H2&_) _]. done.
Defined.

Example shutdown_twice : exists n1 : Node, Node_Shutdown n1 None = (n1, [], None) /\ stopped n1 = true.
Proof.
  destruct (shutdown_idempotent np_node None None _ _ _ ltac:(reflexivity) ltac:(reflexivity)) as (H1&_&_&_&H2).
  eexists. split; [exact H2|exact H1].
Qed.


Lemma members_view_witness : Sorted member_le (Members np_node).
Proof. apply (members_view np_node [solo_server]). reflexivity. Defined.
