(* ===== verification/Handover.v ===== *)
(** * When a holder dies

    What happens to a lock whose holder stops renewing, on a leader with callers
    waiting for it: the expiry loop (internal/cluster/lease.go) claims the dead
    lease, its expiry releases the lock (internal/state/fsm.go), the lock-freed hook
    wakes the head of the queue (lockqueue.go), and that caller acquires
    (internal/service/service.go). *)

From S2P Require Import Prelude GoTime Errors Domain Raftlog Fsm FsmInv FsmProps RaftFsm RaftFsmProps LeaseTracker TrackerProps.
From S2P Require Import LockQueue Node Service Solo Waiting NodeProps.

Section handover.
Context {RO : RangeOrder} {PC : ProtoCodec} {RL : RaftLib}.

(** ** A tick among the waiting calls *)

Lemma reachable_Apply n cs cmd : reachable (mkSys n cs) -> reachable (mkSys (Node_Apply n cmd).1 cs).
Proof.
  intros Hr. destruct (Node_Apply_entries n cmd) as (r&bs&->).
  eapply reach_step; [|apply sys_entries]. eapply reach_step; [exact Hr|]. by apply sys_node.
Qed.

Lemma reachable_leases n cs t : reachable (mkSys n cs) -> reachable (mkSys (set_leases n t) cs).
Proof. intros Hr. eapply reach_step; [exact Hr|]. by apply sys_node. Qed.

Lemma reachable_expire n cs ids : reachable (mkSys n cs) -> reachable (mkSys (expireClaimed n ids) cs).
Proof.
  revert n. induction ids as [|i ids IH]; intros n Hr; [done|]. cbn [expireClaimed].
  pose proof (reachable_Apply n cs (NewExpireLeaseCmd i) Hr) as Hr1. destruct (Node_Apply n _) as [n1 r].
  by apply IH, reachable_leases.
Qed.

(** Applying entries moves nobody in a queue. *)
Lemma entries_queue n cs bs name : reachable (mkSys n cs) -> queue_of (node_queues (applyEntries n bs)) name = queue_of (node_queues n) name.
Proof.
  intros Hr%reachable_inv. revert n Hr. induction bs as [|b bs IH]; intros n Hi; [done|].
  change (applyEntries n (b :: bs)) with (applyEntries (applyEntry n b).1 bs). rewrite IH by (by apply inv_entry).
  destruct (entry_effect n b) as (f&names&->&_). cbn.
  by destruct (wake_all_spec (node_queues n) names (inv_queues _ Hi)) as (_&->&_).
Qed.

Lemma expireClaimed_queue n cs ids name :
  reachable (mkSys n cs) -> queue_of (node_queues (expireClaimed n ids)) name = queue_of (node_queues n) name.
Proof.
  revert n. induction ids as [|i ids IH]; intros n Hr; [done|]. cbn [expireClaimed].
  pose proof (reachable_Apply n cs (NewExpireLeaseCmd i) Hr) as Hr1.
  destruct (Node_Apply_entries n (NewExpireLeaseCmd i)) as (r&bs&E).
  destruct (Node_Apply n _) as [n1 r1]. cbn in Hr1, E. rewrite IH by (by apply reachable_leases). cbn. rewrite E.
  rewrite (entries_queue _ cs); [done|]. eapply reach_step; [exact Hr|]. by apply sys_node.
Qed.

(** Expiring other leases leaves a lease as alive as it was. *)
Lemma expireClaimed_deadline off n ids s :
  tracker_wf off (node_leases n) -> Lease_LeaseID s ∉ ids ->
  deadline (node_leases (expireClaimed n ids)) s = deadline (node_leases n) s.
Proof.
  revert n. induction ids as [|i ids IH]; intros n Hwf Hs; [done|]. cbn [expireClaimed].
  pose proof (Node_Apply_keeps n (NewExpireLeaseCmd i)) as [Hl _].
  destruct (Node_Apply n _) as [n1 r]. cbn in Hl. rewrite Hl.
  set (c := match r with Ok _ => true | Err _ => false end).
  destruct (finishExpiry_spec off _ i c Hwf) as (Hwf1&_&Hls&_&Hra).
  rewrite IH by (try done; set_solver). cbn. unfold deadline. rewrite Hls, Hra, decide_False; [done|]. set_solver.
Qed.

(** The term stays while the library commits. *)
Definition term_stays : Prop := forall r data, CurrentTerm (raft_Apply r data).1 = CurrentTerm r.

Lemma expireClaimed_term n ids : term_stays -> CurrentTerm (raft (expireClaimed n ids)) = CurrentTerm (raft n).
Proof.
  intros Ht. revert n. induction ids as [|i ids IH]; intros n; [done|]. cbn [expireClaimed].
  assert (Ha : CurrentTerm (raft (Node_Apply n (NewExpireLeaseCmd i)).1) = CurrentTerm (raft n)).
  { unfold Node_Apply. destruct (Marshal _) as [data|]; [|done]. specialize (Ht (raft n) data).
    destruct (raft_Apply (raft n) data) as [r [err bs|b1 b2]]; cbn in Ht |- *.
    - by destruct (applyEntries_keeps (set_raft n r) bs) as (_&_&->&_).
    - destruct (applyEntries_keeps (set_raft n r) (b1 ++ data :: b2)) as (_&_&Hr&_). rewrite applyEntries_mid in Hr.
      destruct (applyEntry _ data) as [n2 resp]. cbn in Hr. destruct resp; cbn; by rewrite Hr. }
  destruct (Node_Apply n _) as [n1 r]. cbn in Ha. by rewrite IH.
Qed.

(** ** The handover *)

Section tick.
Variables (n : Node) (now : Time).
Hypothesis Hcom : commits_at_once.
Hypothesis Hc : clock_ok n.
Hypothesis Hmono : is_Some (mono now).
Hypothesis Hlead : IsLeader n = true.
Hypothesis Hterm : CurrentTerm (raft n) <> 0.
Hypothesis Hwf : tracker_wf (node_off n) (node_leases n).

(** The tracker the tick works on. *)
Definition ticking : leaseTracker := syncTerm (node_leases n) (CurrentTerm (raft n)) (Node_Now n now).

Lemma ticking_wf : tracker_wf (node_off n) ticking.
Proof. apply syncTerm_wf; [done|]. by apply Node_Now_lockstep. Qed.

Lemma alive_ticking s : expiring_of ticking (Lease_LeaseID s) = false ->
  (alive (node_leases n) (CurrentTerm (raft n)) (Node_Now n now) s).2 = (wall (Node_Now n now) <? wall (deadline ticking s)).
Proof.
  intros He. unfold alive; cbn. fold ticking. rewrite He, (Before_deadline (node_off n)); [done|apply ticking_wf|].
  by apply Node_Now_lockstep.
Qed.

Lemma claim_keeps ls t ids : claimExpired (node_leases n) (CurrentTerm (raft n)) (Node_Now n now) ls = Some (t, ids) ->
  tracker_wf (node_off n) t /\ tr_term t = CurrentTerm (raft n) /\ (forall s, deadline t s = deadline ticking s) /\
  (forall i, i ∉ ids -> expiring_of t i = expiring_of ticking i).
Proof.
  unfold claimExpired. fold ticking. destruct (tr_maps _ _ ticking_wf) as [_ Hexp]; [by unfold ticking; rewrite syncTerm_term|].
  destruct (claimLoop_spec _ _ _ ls [] ticking_wf (Node_Now_lockstep n now Hc Hmono) Hexp) as (t'&new&->&Ht&Hls&Hra&Hw&He&_).
  intros [= <- <-]. split_and!; [done|by rewrite Ht; unfold ticking; rewrite syncTerm_term|..].
  - intros s. unfold deadline, renewedAt_of. by rewrite Hls, Hra.
  - intros i Hi. by rewrite He, bool_decide_eq_false_2, orb_false_r.
Qed.

(** A lease that the tick spared and that is not due at a later instant is alive
    then. *)
Lemma spared_alive t ids s later :
  claimExpired (node_leases n) (CurrentTerm (raft n)) (Node_Now n now) (FSM_Leases (fsm n)) = Some (t, ids) ->
  term_stays -> Lease_LeaseID s ∉ ids -> expiring_of ticking (Lease_LeaseID s) = false -> is_Some (mono later) ->
  wall (Node_Now n later) < wall (deadline ticking s) ->
  let n' := expireClaimed (set_leases n t) ids in
  (alive (node_leases n') (CurrentTerm (raft n')) (Node_Now n' later) s).2 = true.
Proof.
  intros Hcl Hstay Hs He Hm Hlt. cbn zeta. destruct (claim_keeps _ _ _ Hcl) as (Hwt&Htt&Hd&Hex).
  destruct (expireClaimed_tracker (node_off n) (set_leases n t) ids Hwt) as (Hw'&Ht'&He').
  assert (Hnow : Node_Now (expireClaimed (set_leases n t) ids) later = Node_Now n later) 
    by (unfold Node_Now; by rewrite expireClaimed_clock).
  rewrite (expireClaimed_term (set_leases n t)) by done. cbn [raft set_leases]. unfold alive. cbn [snd]. cbn in Ht', He'.
  rewrite syncTerm_same by (by rewrite Ht', Htt). rewrite He', decide_False, Hex, He by done.
  rewrite Hnow, (Before_deadline (node_off n)); [|done|by apply Node_Now_lockstep].
  rewrite (expireClaimed_deadline (node_off n) (set_leases n t)) by done. cbn. rewrite Hd. by apply Z.ltb_lt.
Qed.
End tick.

(** C16: a dead holder is replaced. On a leader over a library that commits, let a
    caller wait at the head of the queue of a lock whose holder's lease is past its
    deadline when the expiry loop ticks, and let the caller's own lease not be due
    yet at a later instant. Then the tick frees the lock, nobody in the queue moves,
    and the caller has the lock within four of its own steps, whichever they are as
    long as it goes on waiting and trying while its lease is alive. *)
Theorem dead_holder_is_replaced (s : system) (w : Z) (c : wait_call) (l : Lock) (holder mine : Lease) (now later : Time) data
    (Hr : reachable s) (Hcall : s_calls s !! w = Some c)
    (Hhead : head (queue_of (node_queues (s_node s)) (wc_lock c)) = Some w)
    (Hcom : commits_at_once) (Hstay : term_stays)
    (Hm : Marshal (NewAcquireLockCmd (wc_lock c) (wc_owner c) (wc_lease c)) = Ok data)
    (Hc : clock_ok (s_node s)) (Hmono : is_Some (mono now)) (Hmono' : is_Some (mono later))
    (Hlead : IsLeader (s_node s) = true) (Hterm : CurrentTerm (raft (s_node s)) <> 0)
    (Hwf : tracker_wf (node_off (s_node s)) (node_leases (s_node s)))
    (Hf : fsm_wf (fsm (s_node s))) (Hroom : room (fsm (s_node s)) 1)
    (Hnone : forall i, expiring_of (ticking (s_node s) now) i = false)
    (Hheld : locks (fsm (s_node s)) !! wc_lock c = Some l)
    (Hholder : leases (fsm (s_node s)) !! Lock_LeaseID l = Some holder)
    (Hdead : wall (deadline (ticking (s_node s) now) holder) <= wall (Node_Now (s_node s) now))
    (Hmine : leases (fsm (s_node s)) !! wc_lease c = Some mine) (Howner : Lease_OwnerID mine = wc_owner c)
    (Halive : wall (Node_Now (s_node s) now) <= wall (Node_Now (s_node s) later) < wall (deadline (ticking (s_node s) now) mine)) :
  exists n', leaseExpiryTick (s_node s) now = Some n' /\ reachable (mkSys n' (s_calls s)) /\
    locks (fsm n') !! wc_lock c = None /\
    (forall name, queue_of (node_queues n') name = queue_of (node_queues (s_node s)) name) /\
    gets_lock n' c 4 /\ must_get n' c 4.
Proof.
  destruct s as [n cs]; cbn [s_node s_calls] in *.
  destruct (tick_exact n now Hcom Hc Hmono Hlead Hterm Hwf Hf Hroom Hnone) as (n'&t&ids&Htick&Hcl&Hn'&Hids&HL&HK).
  pose proof (alive_ticking n now Hc Hmono Hwf) as Hal.
  destruct (wf_leases _ Hf _ _ Hmine) as [Hmid _ _ _]. destruct (wf_leases _ Hf _ _ Hholder) as [Hhid _ _ _].
  assert (Hspared : wc_lease c ∉ ids) by (apply (Hids _ _ Hmine); rewrite Hal by (by apply Hnone); apply Z.ltb_lt; lia).
  assert (Hfree : locks (fsm n') !! wc_lock c = None).
  { destruct (locks (fsm n') !! wc_lock c) as [l'|] eqn:Hl'; [|done]. apply HK in Hl' as [Hl' [s' Hs']].
    rewrite Hheld in Hl'. injection Hl' as <-. apply HL in Hs' as [Hs' Ha]. rewrite Hholder in Hs'. injection Hs' as <-.
    rewrite Hal in Ha by (by apply Hnone). apply Z.ltb_lt in Ha. lia. }
  assert (Hr' : reachable (mkSys n' cs)) by (rewrite Hn'; by apply reachable_expire, reachable_leases).
  assert (Hq : forall name, queue_of (node_queues n') name = queue_of (node_queues n) name).
  { intros name. rewrite Hn', (expireClaimed_queue _ cs); [done|]. by apply reachable_leases. }
  assert (Hget : must_get n' c 4); [|exists n'; split_and!; try done; by apply must_get_gets].
  eapply (head_takes_free_lock (mkSys n' cs) w c later); cbn; try done; [by rewrite Hq|].
  split; [by destruct (inv_call _ (reachable_inv _ Hr) w c Hcall) as (_&?&_)|done| |].
  - exists mine. split_and!; [|done|].
    + apply HL. split; [done|]. by apply (Hids _ _ Hmine).
    + rewrite Hn'. apply (spared_alive n now Hc Hmono Hterm Hwf t ids mine later); try done; [by rewrite Hmid|lia].
  - destruct (proj1 Hcom (raft n') data) as [r Hr2]. by exists data, r.
Qed.
End handover.

(** ** A concrete handover

    The holder's lease lasts until second 10; the caller's, created at second 8,
    until second 18. The node has led since second 0. The caller starts to wait at
    second 9; the loop ticks at second 15, and the caller runs at second 16. *)

Definition ho_log : list CommandWrapper :=
  [NewCreateLeaseCmd "holder" (10 * Second) (solo_time 0); NewCreateLeaseCmd "caller" (10 * Second) (solo_time 8);
   NewAcquireLockCmd "db" "holder" 1].
Definition ho_fsm : FSM := replay NewFSM ho_log.
Definition ho_node : Node :=
  mkNode (RL := solo_raft) tt ho_fsm solo_config solo_start
    (mkTracker 1 (solo_time 0) (Some ∅) (Some ∅)) newLockQueues 0 false false.
Definition ho_call : wait_call := mkCall "db" "caller" 2 0 AtHead.
Definition ho_sys : system := mkSys (AcquireLock ho_node "db" "caller" 2 true (solo_time 9)).1 (<[0 := ho_call]> ∅).

Lemma ho_reachable : reachable ho_sys.
Proof.
  eapply reach_step; [by apply (reach_start ho_node)|].
  apply (sys_join ho_node ∅ "db" "caller" 2 (solo_time 9) _ ho_call); [done|].
  rewrite (surjective_pairing (AcquireLock _ _ _ _ _ _)). f_equal.
Qed.

Lemma ho_wf : fsm_wf ho_fsm.
Proof. apply replay_keeps_wf; [apply NewFSM_wf|typed_log|split; vm_compute; done]. Qed.

Lemma ho_tracker : tracker_wf (node_off (s_node ho_sys)) (node_leases (s_node ho_sys)).
Proof.
  split; [by intros _; split; eexists|by vm_compute|by intros i].
Qed.

Lemma dead_holder_is_replaced_witness :
  exists n', leaseExpiryTick (s_node ho_sys) (solo_time 15) = Some n' /\ gets_lock n' ho_call 4 /\ must_get n' ho_call 4.
Proof.
  destruct (dead_holder_is_replaced ho_sys 0 ho_call (mkLock "db" "holder" 1 1)
    (mkLease 1 "holder" (1700000010 * Second) (10 * Second)) (mkLease 2 "caller" (1700000018 * Second) (10 * Second))
    (solo_time 15) (solo_time 16) (NewAcquireLockCmd "db" "caller" 2) ho_reachable) as (n'&H1&_&_&_&H2);
    [reflexivity|vm_compute; reflexivity|apply np_commits|by intros [] ?|reflexivity|by split; [|eexists]|by eexists|by eexists
    |reflexivity|done|apply ho_tracker|apply ho_wf|by split; vm_compute|reflexivity|vm_compute; reflexivity|vm_compute; reflexivity
    |by vm_compute|vm_compute; reflexivity|reflexivity|by vm_compute|].
  exists n'. by split.
Defined.
