(* ===== verification/ServiceProps.v ===== *)
(** * Properties of the service layer *)

From S2P Require Import Prelude GoTime Errors Domain Raftlog Fsm FsmInv FsmProps RaftFsm RaftFsmProps LeaseTracker.
From S2P Require Import TrackerProps LockQueue Node Service Solo Waiting NodeProps.

(** ** Validation *)

Lemma maxLeaseTTLSeconds_eq : maxLeaseTTLSeconds = 9223372036.
Proof. reflexivity. Qed.

(** The TTLs the service accepts at an instant within the int64 range. *)
Lemma leaseTTLDuration_ok s now ttl :
  is_i64 (wall now) -> 0 <= wall now ->
  leaseTTLDuration s now = Ok ttl <-> 0 < s /\ ttl = s * Second /\ wall now + ttl <= max_int64.
Proof.
  intros Hw Hpos. unfold leaseTTLDuration, UnixNano. rewrite maxLeaseTTLSeconds_eq, (wrap_i64_id _ Hw).
  unfold is_i64 in Hw. rewrite (wrap_i64_id (max_int64 - wall now)) by (unfold is_i64; lia).
  destruct (Z.leb_spec s 0); [split; [done|lia]|].
  destruct (Z.ltb_spec 9223372036 s); [split; [done|lia]|].
  rewrite (wrap_i64_id (s * Second)) by (unfold is_i64; lia).
  destruct (Z.leb_spec (max_int64 - wall now) 0); cbn [orb]; [split; [done|lia]|].
  destruct (Z.ltb_spec (max_int64 - wall now) (s * Second)); split; try done; [lia| |].
  - intros [= <-]. lia.
  - by intros (_&->&_).
Qed.

(** C31: the service's checks and the state machine's agree. On a node whose clock
    reads a positive int64 instant, the service accepts a TTL exactly when it is
    positive and the deadline fits in an int64; the state machine, in whatever
    state it is when the command commits, then creates the lease with that TTL,
    and that deadline, so a request the service accepted is never refused later. *)
Theorem accepted_ttl_always_commits (s : Z) (now : Time) (owner : string) (f : FSM)
    {RO : RangeOrder} (Hw : is_i64 (wall now)) (Hpos : 0 < wall now) :
  (forall ttl, leaseTTLDuration s now = Ok ttl <-> 0 < s /\ ttl = s * Second /\ wall now + ttl <= max_int64) /\
  (forall ttl, leaseTTLDuration s now = Ok ttl ->
     response (FSM_Apply f (NewCreateLeaseCmd owner ttl now)) =
       Ok (RCreateLease (mkCreateLeaseResponse (nextLeaseID f) (time_Unix 0 (wall now + ttl)) ttl)) /\
     leases (post (FSM_Apply f (NewCreateLeaseCmd owner ttl now))) !! nextLeaseID f =
       Some (mkLease (nextLeaseID f) owner (wall now + ttl) ttl)).
Proof.
  split; [intros ttl; apply leaseTTLDuration_ok; [done|lia]|].
  intros ttl (Hs&Httl&Hle)%leaseTTLDuration_ok; [|done|lia]. unfold is_i64 in Hw.
  change (FSM_Apply f (NewCreateLeaseCmd owner ttl now)) with
    (applyCreateLease f (Some (mkCreateLease owner ttl (UnixNano (UTC now))))).
  unfold applyCreateLease, UTC. cbn [CreateLease_GetTtlNanos CL_TtlNanos CreateLease_GetCreateAtUnixNano CL_CreateAtUnixNano CreateLease_GetOwnerId CL_OwnerId].
  assert (Hun : UnixNano now = wall now) by (unfold UnixNano; apply wrap_i64_id; unfold is_i64; lia). rewrite Hun.
  destruct (Z.leb_spec ttl 0); [lia|]. unfold commandTime. destruct (Z.leb_spec (wall now) 0); [lia|].
  assert (Hex : leaseExpiryAt (UTC (time_Unix 0 (wall now))) ttl = Ok (time_Unix 0 (wall now + ttl))).
  { destruct (leaseExpiryAt (UTC (time_Unix 0 (wall now))) ttl) as [t|e] eqn:E.
    - apply leaseExpiryAt_ok in E as (?&?&->); [done|unfold is_i64; lia|lia].
    - apply leaseExpiryAt_err in E as [_ ?]; [lia|unfold is_i64; lia|lia|lia]. }
  unfold UTC in Hex |- *. rewrite Hex. cbn [response post leases]. split; [done|].
  rewrite lookup_insert_eq. do 2 f_equal. unfold UnixNano, time_Unix; cbn [wall].
  change (0 * Second + (wall now + ttl)) with (wall now + ttl). apply wrap_i64_id. unfold is_i64. lia.
Qed.

Section service_props.
Context {RO : RangeOrder} {PC : ProtoCodec} {RL : RaftLib}.

(** ** Leader-only execution *)

(** On a node that does not lead, every mutating operation is refused with
    the leader's client address, before anything is read, written or sent to Raft:
    the node is left exactly as it was. *)
Theorem followers_redirect (n : Node) (Hf : IsLeader n = false) :
  let err := NotLeaderError (GetLeaderGRPCAddress n) in
  (forall owner s now, CreateLease n owner s now = (n, Err err)) /\
  (forall id now, RenewLease n id now = Some (n, Err err)) /\
  (forall name owner id wait now, AcquireLock n name owner id wait now = (n, inl (Err err))) /\
  (forall name id, ReleaseLock n name id = (n, Some err)) /\
  (forall m, JoinNode n m = (n, Err err)) /\
  (forall id, RemoveNode n id = (n, Some err)).
Proof.
  cbn zeta. unfold CreateLease, RenewLease, AcquireLock, ReleaseLock, JoinNode, RemoveNode, ensureLeader.
  by rewrite Hf.
Qed.

(** ** Queued callers come first *)

(** C34: a caller that does not wait cannot overtake those who do. On the leader,
    when anyone is queued for the lock, such a call goes through only for the
    lease that holds the lock already; any other caller is told the lock is held,
    without touching the node or Raft. With nobody queued it always goes through. *)
Theorem no_barging (n : Node) (name owner : string) (id : Z) (now : Time)
    (Hlead : IsLeader n = true) (Howner : owner <> ""%string) (Hname : name <> ""%string) :
  (queue_of (node_queues n) name <> [] ->
   (forall l, locks (fsm n) !! name = Some l -> Lock_LeaseID l <> id) ->
   AcquireLock n name owner id false now = (n, inl (Err (Domain ErrLockAlreadyHeld)))) /\
  (queue_of (node_queues n) name = [] \/
   (exists l, locks (fsm n) !! name = Some l /\ Lock_LeaseID l = id) ->
   AcquireLock n name owner id false now =
     ((acquire n name owner id now).1, inl (acquire n name owner id now).2)).
Proof.
  unfold AcquireLock, ensureLeader. rewrite Hlead.
  destruct (String.eqb_spec owner ""); [done|]. destruct (String.eqb_spec name ""); [done|]. cbn [orb negb].
  unfold LockHasWaiters, heldBy, GetLock. split.
  - intros Hq Hno. rewrite bool_decide_eq_true_2 by (destruct (queue_of _ _); cbn; [done|lia]). cbn [andb].
    destruct (locks (fsm n) !! name) as [l|] eqn:El; [|done].
    destruct (Z.eqb_spec (Lock_LeaseID l) id); [|done]. by destruct (Hno l).
  - intros Hor. replace (_ && _) with false; [by destruct (acquire _ _ _ _ _)|]. symmetry.
    destruct Hor as [->|(l&->&<-)]; [done|]. rewrite Z.eqb_refl. apply andb_false_r.
Qed.

(** ** Replies are the state machine's *)

(** The state machine after the entries [bs] of the log. *)
Definition apply_log (f : FSM) (bs : list bytes) : FSM := foldl (fun f b => (RaftFSM_Apply f b).1.1) f bs.

Lemma applyEntries_log n bs : fsm (applyEntries n bs) = apply_log (fsm n) bs.
Proof.
  revert n. induction bs as [|b bs IH]; intros n; [done|].
  change (applyEntries n (b :: bs)) with (applyEntries (applyEntry n b).1 bs). rewrite IH. cbn. f_equal.
  unfold applyEntry. by destruct (RaftFSM_Apply (fsm n) b) as [[? ?] ?].
Qed.

Lemma applyEntries_raft n bs : raft (applyEntries n bs) = raft n.
Proof. by destruct (applyEntries_keeps n bs) as (_&_&->&_). Qed.

(** Node [n] submitted [cmd] to its Raft library, which committed it: the log goes on
    with the entries [before], the command, and the entries [after]; [r] is the reply
    of the state machine in the state after [before], and the node has applied them
    all when it is at [n']. *)
Definition committed_at (n : Node) (cmd : CommandWrapper) (r : Response) (n' : Node) : Prop :=
  exists data rf before after, Marshal cmd = Ok data /\ raft_Apply (raft n) data = (rf, Committed before after) /\
    response (FSM_Apply (apply_log (fsm n) before) cmd) = Ok r /\
    raft n' = rf /\ fsm n' = apply_log (fsm n) (before ++ data :: after).

Lemma Node_Apply_ok n cmd n' r : wire_ok cmd -> Node_Apply n cmd = (n', Ok r) -> committed_at n cmd r n'.
Proof.
  intros Hw. unfold Node_Apply. destruct (Marshal cmd) as [data|] eqn:Hm; [|done].
  destruct (raft_Apply (raft n) data) as [rf [err bs|before after]] eqn:Hc; [done|].
  pose proof (applyEntries_log (set_raft n rf) before) as Hf0. cbn in Hf0.
  unfold applyEntry. rewrite Hf0, (RaftFSM_Apply_marshalled _ _ _ Hw Hm). cbn [fst snd].
  destruct (response (FSM_Apply (apply_log (fsm n) before) cmd)) as [r0|] eqn:Hr; [|done]. intros [= <- <-].
  exists data, rf, before, after. split_and!; try done.
  - rewrite applyEntries_raft. cbn. apply applyEntries_raft.
  - rewrite applyEntries_log. unfold apply_log. rewrite foldl_app. cbn. fold (apply_log (fsm n) before).
    by rewrite (RaftFSM_Apply_marshalled _ _ _ Hw Hm).
Qed.

Lemma as_ok {T} (cast : Response -> option T) r x : as_ cast r = Ok x -> exists y, r = Ok y /\ cast y = Some x.
Proof. unfold as_. repeat case_match; intros; simplify_eq; eauto. Qed.

Lemma acquire_committed n name owner id now n' resp :
  is_u64 id -> acquire n name owner id now = (n', Ok resp) ->
  committed_at n (NewAcquireLockCmd name owner id) (RAcquireLock resp) n'.
Proof.
  intros Hu. unfold acquire.
  assert (Hsame : fsm (CheckLeaseAlive n id now).1 = fsm n /\ raft (CheckLeaseAlive n id now).1 = raft n)
    by (unfold CheckLeaseAlive; destruct (GetLease _ _); [by destruct (alive _ _ _ _)|done]).
  destruct (CheckLeaseAlive n id now) as [n0 [e|]]; [done|]. cbn in Hsame. destruct Hsame as [Hf Hr].
  destruct (Node_Apply n0 _) as [n2 r] eqn:Ha. intros [= <- (y&->&Hy)%as_ok].
  destruct y; simplify_eq/=. apply Node_Apply_ok in Ha; [|by apply Wire_acquire].
  unfold committed_at in *. by rewrite Hf, Hr in Ha.
Qed.

(** C20: a success the service reports is the state machine's own reply to a command
    the node committed through Raft: for a lease created, a lock acquired with or
    without waiting, and a lock released. The node marshalled exactly this command
    and handed it to its library, which committed it after some entries of the log;
    the reply is what the state machine, brought to that point of the log, answers;
    and the node goes on from the state after it. In particular no success is
    reported from local state alone. (Lease ids and clock readings are of the widths
    the API gives them.) *)
Theorem replies_are_commits (n n' : Node) :
  (forall owner s now resp, 0 <= wall (Node_Now n now) -> is_i64 (wall (Node_Now n now)) ->
     CreateLease n owner s now = (n', Ok resp) ->
     committed_at n (NewCreateLeaseCmd owner (s * Second) (Node_Now n now)) (RCreateLease resp) n') /\
  (forall name owner id now resp, is_u64 id ->
     AcquireLock n name owner id false now = (n', inl (Ok resp)) ->
     committed_at n (NewAcquireLockCmd name owner id) (RAcquireLock resp) n') /\
  (forall c c' now resp, is_u64 (wc_lease c) -> wait_step n c (Run now) = Some (n', c') -> waits c ->
     wc_pc c' = Returned (Ok resp) ->
     exists n0, n' = set_queues n0 (Leave (node_queues n0) (wc_waiter c)) /\
       committed_at n (NewAcquireLockCmd (wc_lock c) (wc_owner c) (wc_lease c)) (RAcquireLock resp) n0) /\
  (forall name id, is_u64 id -> ReleaseLock n name id = (n', None) ->
     committed_at n (NewReleaseLockCmd name id) RNil n').
Proof.
  split_and!.
  - intros owner s now resp Hpos Hi. unfold CreateLease. destruct (ensureLeader n); [done|].
    destruct (String.eqb owner ""); [done|].
    destruct (leaseTTLDuration s _) as [ttl|] eqn:Ht; [|done].
    apply leaseTTLDuration_ok in Ht as (Hs&->&Hle); [|done..].
    destruct (Node_Apply n _) as [n1 r] eqn:Ha. intros [= <- (y&->&Hy)%as_ok]. destruct y; simplify_eq/=.
    apply (Node_Apply_ok n); [|done]. split; [done|]. split; [unfold is_i64 in *; cbn; lia|apply wrap_i64_range].
  - intros name owner id now resp Hu. unfold AcquireLock. destruct (ensureLeader n); [done|].
    destruct (_ || _); [done|]. cbn [negb]. destruct (_ && _); [done|].
    destruct (acquire n name owner id now) as [n1 r] eqn:Ha. intros [= <- ->]. by eapply acquire_committed.
  - intros c c' now resp Hu Hst Hw Hpc. unfold wait_step in Hst. unfold waits in Hw.
    destruct (wc_pc c) eqn:Hp; [| | |done|done].
    1,2: injection Hst as _ <-; cbn in Hpc; by destruct (_ : bool).
    destruct (acquire _ _ _ _ _) as [n1 r] eqn:Ha. injection Hst as Hst.
    destruct r as [a|err]; [|destruct (errors_Is _ _)]; injection Hst as <- <-; cbn in Hpc; simplify_eq.
    exists n1. split; [done|]. by eapply acquire_committed.
  - intros name id Hu. unfold ReleaseLock. destruct (ensureLeader n); [done|].
    destruct (String.eqb name ""); [done|].
    destruct (Node_Apply n _) as [n1 [r|]] eqn:Ha; [|done]. intros [= <-].
    assert (Hc : committed_at n (NewReleaseLockCmd name id) r n1) by (by apply (Node_Apply_ok n)).
    assert (r = RNil) as ->; [|done]. destruct Hc as (data&rf&before&after&_&_&Hr&_). revert Hr. unfold FSM_Apply, applyReleaseLock, fail; cbn. repeat case_match; cbn; congruence.
Qed.
End service_props.

(** ** Concrete runs *)

Lemma accepted_ttl_witness : leaseTTLDuration 15 (solo_time 0) = Ok (15 * Second).
Proof.
  destruct (accepted_ttl_always_commits 15 (solo_time 0) "worker" NewFSM (RO := map_order)
    ltac:(vm_compute; split; congruence) ltac:(reflexivity)) as [H _].
  apply H. split_and!; vm_compute; congruence.
Defined.

Lemma followers_redirect_witness :
  CreateLease (RL := follower_raft)
    (follower_node (post (FSM_Apply NewFSM (NewUpsertEndpointCmd "node-2" "127.0.0.1:9001")))) "worker" 15 (solo_time 0) =
  (follower_node (post (FSM_Apply NewFSM (NewUpsertEndpointCmd "node-2" "127.0.0.1:9001"))),
   Err (NotLeaderError "127.0.0.1:9001")).
Proof.
  apply (followers_redirect (RL := follower_raft)
    (follower_node (post (FSM_Apply NewFSM (NewUpsertEndpointCmd "node-2" "127.0.0.1:9001"))))). reflexivity.
Defined.

Lemma no_barging_witness :
  AcquireLock (s_node w_sys) "my-lock" "client-2" 2 false (solo_time 1) =
  (s_node w_sys, inl (Err (Domain ErrLockAlreadyHeld))).
Proof.
  destruct (no_barging (s_node w_sys) "my-lock" "client-2" 2 (solo_time 1)) as [H _]; [reflexivity|done|done|].
  apply H; [vm_compute; congruence|]. intros l Hl. by vm_compute in Hl.
Defined.

Lemma replies_are_commits_witness :
  committed_at (solo_node demo_held) (NewReleaseLockCmd "my-lock" 1) RNil (ReleaseLock (solo_node demo_held) "my-lock" 1).1.
Proof.
  destruct (replies_are_commits (solo_node demo_held) (ReleaseLock (solo_node demo_held) "my-lock" 1).1) as (_&_&_&H).
  apply H; [vm_compute; split; congruence|].
  rewrite (surjective_pairing (ReleaseLock _ _ _)) at 1. f_equal.
Defined.
