(* ===== verification/Steps.v ===== *)
(** * Concurrent requests on a node

    The service answers requests in goroutines of their own, beside the expiry loop
    and the library's own. No mutex is held over a whole request: [RenewLease] and
    [CheckLeaseAlive] (internal/cluster/lease.go) call Raft, the state machine and
    the tracker one after the other, and so does a tick of [leaseExpiryLoop], which
    submits the leases it claimed one by one. Here each of these calls is one step
    (the checks of leadership and the readings of the term and of the clock, which
    are answered from memory, belong to the step of the call they prepare), and the
    steps of different requests interleave in any order; what a request has found
    out so far is kept between its steps. Undisturbed, the steps of a request
    are the operations of Node and Service. *)

From S2P Require Import Prelude GoTime Errors Domain Raftlog Fsm RaftFsm LeaseTracker LockQueue Node Service.

(** A request under way, by what it does next. *)
Inductive pending :=
| PAwait (term id : Z)                (* RenewLease has read the term: the barrier *)
| PLookup (term id : Z)               (* earlier entries are applied: the lookup *)
| PRenew (term : Z) (s : Lease)       (* the lease was found: the tracker *)
| PVerify (s : Lease) (x : Time)      (* accepted at reading [x]: VerifyLeader *)
| PCheck (s : Lease).                 (* CheckLeaseAlive found the lease: the tracker *)

(** The expiry loop: waiting for its ticker, about to claim among the leases it
    copied, about to submit the leases claimed at reading [x], or about to tell the
    tracker how the submission of [id] ended. *)
Inductive expiry :=
| XIdle
| XScanned (term : Z) (ls : list Lease)
| XSubmit (x : Time) (ids : list Z)
| XFinish (x : Time) (id : Z) (committed : bool) (ids : list Z).

Section steps.
Context {RO : RangeOrder} {PC : ProtoCodec} {RL : RaftLib}.

Record busy := mkBusy { at_node : Node; requests : gmap nat pending; expiry_loop : expiry }.

Definition idle (n : Node) : busy := mkBusy n ∅ XIdle.
Definition on_node (b : busy) (n : Node) : busy := mkBusy n (requests b) (expiry_loop b).
Definition next (b : busy) (g : nat) (n : Node) (p : pending) : busy := mkBusy n (<[g := p]> (requests b)) (expiry_loop b).
(** The request of goroutine [g] returns. *)
Definition returns (b : busy) (g : nat) (n : Node) : busy := mkBusy n (delete g (requests b)) (expiry_loop b).
Definition loop_next (b : busy) (n : Node) (x : expiry) : busy := mkBusy n (requests b) x.

(** A step carries the clock reading it makes. [StCreate] is [CreateLease], which
    does not use the tracker, [StApply] any other call that submits a command, and
    in [StDeliver] the library changes its state and applies entries by itself. *)
Inductive step :=
| StCreate (owner : string) (ttlSeconds : Z) (now : Time)
| StBegin (g : nat) (id : Z) | StAwait (g : nat) | StLookup (g : nat) | StRenew (g : nat) (now : Time) | StVerify (g : nat)
| StFind (g : nat) (id : Z) | StCheck (g : nat) (now : Time)
| StScan | StClaim (now : Time) | StSubmit | StFinish
| StApply (cmd : CommandWrapper)
| StDeliver (r : Raft) (bs : list bytes).

(** One step of the request of goroutine [g], which is at [p]. *)
Definition request_step (b : busy) (st : step) (g : nat) (p : pending) : option busy :=
  let n := at_node b in
  match p, st with
  | PAwait term id, StAwait _ =>
    match awaitTermApplied n term with
    | (n, Some _) => Some (returns b g n)
    | (n, None) => Some (next b g n (PLookup term id))
    end
  | PLookup term id, StLookup _ =>
    match GetLease (fsm n) id with
    | None => Some (returns b g n)
    | Some s => Some (next b g n (PRenew term s))
    end
  | PRenew term s, StRenew _ now =>
    '(t, err) ← renew (node_leases n) term (Node_Now n now) s;
    Some (match err with
          | Some _ => returns b g (set_leases n t)
          | None => next b g (set_leases n t) (PVerify s (Node_Now n now))
          end)
  | PVerify s x, StVerify _ =>
    let '(r, bs, _) := VerifyLeader (raft n) in Some (returns b g (applyEntries (set_raft n r) bs))
  | PCheck s, StCheck _ now =>
    Some (returns b g (set_leases n (alive (node_leases n) (CurrentTerm (raft n)) (Node_Now n now) s).1))
  | _, _ => Some b
  end.

(** A goroutine that has no request under way starts one. *)
Definition begin_step (b : busy) (st : step) : busy :=
  let n := at_node b in
  match st with
  | StBegin g id =>
    match ensureLeader n with None => next b g n (PAwait (CurrentTerm (raft n)) id) | Some _ => b end
  | StFind g id =>
    match GetLease (fsm n) id with Some s => next b g n (PCheck s) | None => b end
  | _ => b
  end.

Definition loop_step (b : busy) (st : step) : option busy :=
  let n := at_node b in
  match expiry_loop b, st with
  | XIdle, StScan => Some (if IsLeader n then loop_next b n (XScanned (CurrentTerm (raft n)) (FSM_Leases (fsm n))) else b)
  | XScanned term ls, StClaim now =>
    '(t, ids) ← claimExpired (node_leases n) term (Node_Now n now) ls;
    Some (loop_next b (set_leases n t) (XSubmit (Node_Now n now) ids))
  | XSubmit _ [], StSubmit => Some (loop_next b n XIdle)
  | XSubmit x (id :: ids), StSubmit =>
    let '(n, r) := Node_Apply n (NewExpireLeaseCmd id) in
    Some (loop_next b n (XFinish x id (match r with Ok _ => true | Err _ => false end) ids))
  | XFinish x id committed ids, StFinish =>
    Some (loop_next b (set_leases n (finishExpiry (node_leases n) id committed)) (XSubmit x ids))
  | _, _ => Some b
  end.

(** [None]: the tracker panics. A step that is nobody's turn does nothing. *)
Definition run_step (b : busy) (st : step) : option busy :=
  let n := at_node b in
  match st with
  | StCreate owner ttlSeconds now => Some (on_node b (CreateLease n owner ttlSeconds now).1)
  | StBegin g _ | StFind g _ => Some (match requests b !! g with None => begin_step b st | Some _ => b end)
  | StAwait g | StLookup g | StRenew g _ | StVerify g | StCheck g _ =>
    match requests b !! g with Some p => request_step b st g p | None => Some b end
  | StScan | StClaim _ | StSubmit | StFinish => loop_step b st
  | StApply cmd => Some (on_node b (Node_Apply n cmd).1)
  | StDeliver r bs => Some (on_node b (applyEntries (set_raft n r) bs))
  end.

Fixpoint run_steps (b : busy) (steps : list step) : option busy :=
  match steps with
  | [] => Some b
  | st :: steps => b ← run_step b st; run_steps b steps
  end.

Lemma run_steps_app b s1 s2 : run_steps b (s1 ++ s2) = b1 ← run_steps b s1; run_steps b1 s2.
Proof. revert b. induction s1 as [|st s1 IH]; intros b; [done|]. cbn. destruct (run_step b st); [apply IH|done]. Qed.

(** ** Undisturbed steps are the operations *)

Definition renewal (g : nat) (id : Z) (now : Time) : list step :=
  [StBegin g id; StAwait g; StLookup g; StRenew g now; StVerify g].
Definition liveness_check (g : nat) (id : Z) (now : Time) : list step := [StFind g id; StCheck g now].
Definition submissions (k : nat) : list step := concat (replicate k [StSubmit; StFinish]) ++ [StSubmit].
Definition expiry_tick (now : Time) (k : nat) : list step := StScan :: StClaim now :: submissions k.

Section undisturbed.
Context (m : gmap nat pending) (g : nat) (Hg : m !! g = None).

(** The goroutine's request: where it stands, and that nothing is left of it. *)
Lemma at_request n p x : requests (mkBusy n (<[g := p]> m) x) !! g = Some p.
Proof. apply lookup_insert_eq. Qed.
Lemma request_over n p x n' : returns (mkBusy n (<[g := p]> m) x) g n' = mkBusy n' m x.
Proof. unfold returns. cbn. by rewrite delete_insert_id. Qed.
Lemma request_next n p x n' p' : next (mkBusy n (<[g := p]> m) x) g n' p' = mkBusy n' (<[g := p']> m) x.
Proof. unfold next. cbn. by rewrite insert_insert_eq. Qed.

Lemma request_begins n x p : next (mkBusy n m x) g n p = mkBusy n (<[g := p]> m) x.
Proof. done. Qed.

(** Once the request is over, its remaining steps do nothing. *)
Ltac nothing_left := repeat (cbn [mbind option_bind requests]; rewrite Hg); done.

Lemma renewal_is_RenewLease n id now x :
  run_steps (mkBusy n m x) (renewal g id now) = (fun '(n', _) => mkBusy n' m x) <$> RenewLease n id now.
Proof.
  unfold renewal, RenewLease. cbn [run_steps run_step requests]. rewrite Hg. cbn [mbind option_bind begin_step at_node].
  destruct (ensureLeader n) as [err|]; [nothing_left|]. unfold Node_RenewLease. rewrite request_begins, at_request. cbn [request_step at_node].
  destruct (awaitTermApplied n _) as [n1 [err|]]; [rewrite request_over; nothing_left|].
  rewrite request_next. cbn [mbind option_bind]. rewrite at_request. cbn [request_step at_node].
  destruct (GetLease (fsm n1) id) as [s|]; [|rewrite request_over; nothing_left].
  rewrite request_next. cbn [mbind option_bind]. rewrite at_request. cbn [request_step at_node].
  destruct (renew _ _ _ _) as [[t [err|]]|]; cbn [mbind option_bind]; [rewrite request_over; nothing_left| |done].
  rewrite request_next, at_request. cbn [request_step at_node].
  destruct (VerifyLeader _) as [[r bs] verr]. rewrite request_over. by destruct verr.
Qed.

Lemma check_is_CheckLeaseAlive n id now x :
  run_steps (mkBusy n m x) (liveness_check g id now) = Some (mkBusy (CheckLeaseAlive n id now).1 m x).
Proof.
  unfold liveness_check, CheckLeaseAlive. cbn [run_steps run_step requests]. rewrite Hg. cbn [mbind option_bind begin_step at_node].
  destruct (GetLease (fsm n) id) as [s|]; [|nothing_left]. rewrite request_begins, at_request. cbn [request_step at_node mbind option_bind]. rewrite request_over.
  by destruct (alive _ _ _ _).
Qed.

Lemma submissions_expire n x ids :
  run_steps (mkBusy n m (XSubmit x ids)) (submissions (length ids)) = Some (mkBusy (expireClaimed n ids) m XIdle).
Proof.
  revert n. induction ids as [|id ids IH]; intros n; [done|]. unfold submissions. cbn [length replicate concat app expireClaimed].
  cbn [run_steps run_step loop_step expiry_loop at_node mbind option_bind].
  destruct (Node_Apply n (NewExpireLeaseCmd id)) as [n1 r]. cbn [loop_next loop_step expiry_loop at_node requests]. apply IH.
Qed.

(** A tick claims some leases and submits them all. *)
Lemma tick_is_leaseExpiryTick n now : IsLeader n = true ->
  match claimExpired (node_leases n) (CurrentTerm (raft n)) (Node_Now n now) (FSM_Leases (fsm n)) with
  | Some (_, ids) => run_steps (mkBusy n m XIdle) (expiry_tick now (length ids)) = (fun n' => mkBusy n' m XIdle) <$> leaseExpiryTick n now
  | None => leaseExpiryTick n now = None
  end.
Proof.
  intros Hl. unfold leaseExpiryTick, expiry_tick. rewrite Hl. cbn [negb].
  destruct (claimExpired _ _ _ _) as [[t ids]|] eqn:Hc; [|done].
  cbn [run_steps run_step loop_step expiry_loop at_node mbind option_bind]. rewrite Hl.
  cbn [loop_next loop_step expiry_loop at_node requests]. rewrite Hc. cbn [mbind option_bind]. apply submissions_expire.
Qed.
End undisturbed.
End steps.
