(* ===== verification/Leader.v ===== *)
(** * A term of leadership

    How the steps a node makes while it leads (Steps) appear to the replicated log
    and to its lease tracker (internal/cluster/lease.go, node.go). The Raft library
    applies one log, the same on every node: that is the interface [LogSafety].
    Against it, the node's state machine is always the state after a prefix of the
    log, and whatever it serves during a term is a run of the tracker; if the calls
    reach the tracker in the order of their clock readings, it is a run as the
    guarantees of Failover and Exclusion assume it. *)

From S2P Require Import Prelude GoTime Errors Domain Raftlog Fsm FsmInv RaftFsm LeaseTracker TrackerProps Failover.
From S2P Require Import LockQueue Node Service Waiting NodeProps ServiceProps Solo Steps.

(** The library has applied the first [applied r] commands of [log]; every call
    into it applies the next ones, and its term never decreases. An entry committed by [Apply] carries the
    caller's term, and once [Barrier] has succeeded every entry of an earlier term
    is applied. *)
Class LogSafety {PC : ProtoCodec} {RL : RaftLib} (log : list CommandWrapper) := {
  applied : Raft -> nat;
  entry_term : nat -> Z;
  entries (r r' : Raft) (bs : list bytes) : Prop :=
    (applied r <= applied r')%nat /\ CurrentTerm r <= CurrentTerm r' /\
    Unmarshal <$> bs = Ok <$> take (applied r' - applied r) (drop (applied r) log);
  older_than (T : Z) (k : nat) : Prop := forall j, (j < length log)%nat -> entry_term j < T -> (j < k)%nat;
  safe_Apply : forall r data, match raft_Apply r data with
    | (r', Failed _ bs) => entries r r' bs
    | (r', Committed before after) =>
        entries r r' (before ++ data :: after) /\ entry_term (applied r + length before) = CurrentTerm r
    end;
  safe_Barrier : forall r, let '(r', bs, err) := Barrier r in
    entries r r' bs /\ (err = None -> older_than (CurrentTerm r) (applied r'));
  safe_VerifyLeader : forall r, let '(r', bs, _) := VerifyLeader r in entries r r' bs
}.

Section leader.
Context {RO : RangeOrder} {PC : ProtoCodec} {RL : RaftLib} (log : list CommandWrapper) {LS : LogSafety log}.
Hypothesis Hty : Forall typed log.
Hypothesis Hlen : Z.of_nat (length log) < two_64 - 1.

(** ** The state machine follows the log *)

(** The state machine is the state after the entries applied, and those include
    every entry older than the term of the last barrier. *)
Record synced (n : Node) : Prop := {
  sy_state : fsm n = state_at log (applied (raft n));
  sy_barrier : older_than (barrierTerm n) (applied (raft n))
}.

Lemma older_later T k k' : (k <= k')%nat -> older_than T k -> older_than T k'.
Proof. intros Hle Ho j Hj Ht. specialize (Ho j Hj Ht). lia. Qed.

Lemma applyEntries_replay n bs cs : Unmarshal <$> bs = Ok <$> cs -> fsm (applyEntries n bs) = replay (fsm n) cs.
Proof.
  revert n cs. induction bs as [|b bs IH]; intros n [|cmd cs] Heq; simplify_eq/=; [done|].
  change (applyEntries n (b :: bs)) with (applyEntries (applyEntry n b).1 bs). rewrite (IH _ cs) by done. f_equal.
  unfold applyEntry, RaftFSM_Apply. rewrite H. by destruct (response (FSM_Apply (fsm n) cmd)).
Qed.

Lemma applyEntries_barrier n bs : barrierTerm (applyEntries n bs) = barrierTerm n.
Proof.
  revert n. induction bs as [|b bs IH]; intros n; [done|].
  change (applyEntries n (b :: bs)) with (applyEntries (applyEntry n b).1 bs). rewrite IH.
  unfold applyEntry. by destruct (RaftFSM_Apply _ _) as [[? ?] ?].
Qed.

Lemma applyEntries_synced n r bs : synced n -> entries (raft n) r bs -> synced (applyEntries (set_raft n r) bs).
Proof.
  intros [Hn Hb] (Hle&_&Heq). destruct (applyEntries_keeps (set_raft n r) bs) as (_&_&Hr&_). split; rewrite Hr; cbn.
  - rewrite (applyEntries_replay _ _ _ Heq). cbn. rewrite Hn.
    by destruct (state_at_later log Hty Hlen _ _ Hle) as [-> _].
  - rewrite applyEntries_barrier. by eapply older_later.
Qed.

(** A command that was answered is in the log, in the node's term, and the answer
    is the state machine's at that point. *)
Lemma Node_Apply_logged n cmd n' r :
  synced n -> wire_ok cmd -> Node_Apply n cmd = (n', Ok r) ->
  exists k, log !! k = Some cmd /\ entry_term k = CurrentTerm (raft n) /\ response (FSM_Apply (state_at log k) cmd) = Ok r.
Proof.
  intros [Hn _] Hw. unfold Node_Apply. destruct (Marshal cmd) as [data|] eqn:Hm; [|done].
  pose proof (unmarshal_marshal _ _ Hw Hm) as Hu. pose proof (safe_Apply (raft n) data) as Hs.
  destruct (raft_Apply (raft n) data) as [r' [err bs|b1 b2]]; [done|]. destruct Hs as [(Hle&_&Heq) Hterm].
  set (a := applied (raft n)) in *. rewrite fmap_app, fmap_cons, Hu in Heq.
  pose proof (f_equal (take (length b1)) Heq) as Hpre. pose proof (f_equal (.!! length b1) Heq) as Hat. cbn beta in Hat.
  rewrite <- fmap_take, take_take, take_app_le, take_ge in Hpre by (rewrite length_fmap; lia).
  rewrite lookup_app_r, length_fmap, Nat.sub_diag in Hat by (rewrite length_fmap; lia). cbn in Hat. symmetry in Hat.
  rewrite list_lookup_fmap in Hat. apply fmap_Some in Hat as (c'&[Hk Hlt]%lookup_take_Some&[= <-]). rewrite lookup_drop in Hk.
  replace (length b1 `min` _)%nat with (a + length b1 - a)%nat in Hpre by lia.
  unfold applyEntry, RaftFSM_Apply. rewrite Hu, (applyEntries_replay _ _ _ Hpre). cbn. rewrite Hn.
  destruct (state_at_later log Hty Hlen a (a + length b1)) as [<- _]; [lia|].
  destruct (response (FSM_Apply (state_at log (a + length b1)) cmd)) as [r0|] eqn:Hr; [|done]. intros [= _ <-].
  by exists (a + length b1)%nat.
Qed.

Lemma synced_leases n t : synced n -> synced (set_leases n t).
Proof. by intros []. Qed.

Lemma synced_recorded n i s : synced n -> leases (fsm n) !! i = Some s -> Lease_LeaseID s = i /\ recorded log s.
Proof.
  intros Hn Hs. rewrite (sy_state n Hn) in Hs. pose proof (wf_leases _ (state_at_wf log Hty Hlen _) i s Hs) as [Hid _ _ _].
  split; [done|]. exists (applied (raft n)). by rewrite Hid.
Qed.

(** ** The steps of a term *)

(** Entries that the library applies on its own are the next ones of the log; the
    clock runs, and reads a time after 1970 that fits an int64 where a request is
    stamped with it. *)
Definition step_ok (b : busy) (st : step) : Prop :=
  let n := at_node b in
  match st with
  | StDeliver r bs => entries (raft n) r bs
  | StCreate _ _ now => 0 <= wall (Node_Now n now) <= max_int64
  | StRenew _ now | StCheck _ now | StClaim now => is_Some (mono now) /\ wall zero_Time < wall (Node_Now n now)
  | _ => True
  end.

(** The creations and renewals a step acknowledges (lease, clock reading, TTL), the
    expiries it submits (the reading of the claim, lease), and the readings it
    passes to the tracker. *)
Definition acknowledges (b : busy) (st : step) : list (Z * Time * Duration) :=
  let n := at_node b in
  match st with
  | StCreate owner ttlSeconds now =>
    match CreateLease n owner ttlSeconds now with
    | (_, Ok resp) => [(CLR_LeaseID resp, Node_Now n now, CLR_TTL resp)]
    | _ => []
    end
  | StVerify g =>
    match requests b !! g with
    | Some (PVerify s x) => match VerifyLeader (raft n) with (_, _, None) => [(Lease_LeaseID s, x, Lease_TTL s)] | _ => [] end
    | _ => []
    end
  | _ => []
  end.
Definition submits (b : busy) (st : step) : list (Time * Z) :=
  match st, expiry_loop b with StSubmit, XSubmit x (id :: _) => [(x, id)] | _, _ => [] end.
Definition step_readings (b : busy) (st : step) : list Time :=
  let n := at_node b in
  match st with
  | StRenew g now => match requests b !! g with Some (PRenew _ _) => [Node_Now n now] | _ => [] end
  | StCheck g now => match requests b !! g with Some (PCheck _) => [Node_Now n now] | _ => [] end
  | StClaim now => match expiry_loop b with XScanned _ _ => [Node_Now n now] | _ => [] end
  | _ => []
  end.

Section collect.
Context {A : Type} (f : busy -> step -> list A).
(** What [f] collects along a run. *)
Fixpoint along (b : busy) (steps : list step) : list A :=
  match steps with
  | [] => []
  | st :: steps => f b st ++ match run_step b st with Some b' => along b' steps | None => [] end
  end.
End collect.

Definition acknowledged : busy -> list step -> list (Z * Time * Duration) := along acknowledges.
Definition submitted : busy -> list step -> list (Time * Z) := along submits.
Definition readings : busy -> list step -> list Time := along step_readings.

(** What an acknowledgement in term [T], at reading [x], stands for: a creation in
    the log, stamped [x]; or a renewal the tracker accepted at [x], of a lease found
    in a state that includes all entries of earlier terms. *)
Inductive vouches (T : Z) (es : list tevent) (i : Z) (x : Time) (ttl : Duration) : Prop :=
| vouch_create k owner e :
    log !! k = Some (NewCreateLeaseCmd owner ttl x) -> entry_term k = T -> 0 <= wall x <= max_int64 -> is_i64 ttl ->
    response (FSM_Apply (state_at log k) (NewCreateLeaseCmd owner ttl x)) = Ok (RCreateLease (mkCreateLeaseResponse i e ttl)) ->
    vouches T es i x ttl
| vouch_renew k s :
    TRenew x s true ∈ es -> Lease_LeaseID s = i -> Lease_TTL s = ttl ->
    leases (state_at log k) !! i = Some s -> older_than T k -> vouches T es i x ttl.

Lemma vouches_more T es es' i x ttl : (forall e, e ∈ es -> e ∈ es') -> vouches T es i x ttl -> vouches T es' i x ttl.
Proof. intros Hsub []; [by eapply vouch_create|eapply vouch_renew; eauto]. Qed.

(** The TTL in the reply to a creation is the one in the command. *)
Lemma create_reply f owner ttl x resp :
  response (FSM_Apply f (NewCreateLeaseCmd owner ttl x)) = Ok (RCreateLease resp) -> CLR_TTL resp = ttl.
Proof.
  unfold FSM_Apply, applyCreateLease, fail. cbn. repeat case_match; cbn; intros [= <-]; done.
Qed.

(** ** What a busy node knows *)

(** A lease found after the entries of earlier terms were applied. *)
Definition found (T : Z) (s : Lease) : Prop :=
  recorded log s /\ exists k, leases (state_at log k) !! Lease_LeaseID s = Some s /\ older_than T k.

(** What a request has found out, in term [T], when the tracker has done [es]. *)
Definition request_ok (T : Z) (es : list tevent) (n : Node) (p : pending) : Prop :=
  match p with
  | PAwait term _ => term = T
  | PLookup term _ => term = T /\ older_than T (applied (raft n))
  | PRenew term s => term = T /\ found T s
  | PVerify s x => TRenew x s true ∈ es /\ found T s
  | PCheck s => recorded log s
  end.

(** The leases still to be submitted were claimed at [x] and are marked. *)
Definition pursued (T : Z) (es : list tevent) (n : Node) (x : Time) (ids : list Z) : Prop :=
  NoDup ids /\ (forall i, i ∈ ids -> claimed T i (node_leases n)) /\
  exists ls ids', TClaim x ls ids' ∈ es /\ forall i, i ∈ ids -> i ∈ ids'.
Definition loop_ok (T : Z) (es : list tevent) (n : Node) (x : expiry) : Prop :=
  match x with
  | XIdle => True
  | XScanned term ls => term = T /\ forall s, s ∈ ls -> recorded log s
  | XSubmit x ids => pursued T es n x ids
  | XFinish x id _ ids => pursued T es n x (id :: ids)
  end.

Record busy_ok (T : Z) (es : list tevent) (b : busy) : Prop := {
  bo_clock : clock_ok (at_node b);
  bo_wf : tracker_wf (node_off (at_node b)) (node_leases (at_node b));
  bo_synced : synced (at_node b);
  bo_requests : forall g p, requests b !! g = Some p -> request_ok T es (at_node b) p;
  bo_loop : loop_ok T es (at_node b) (expiry_loop b)
}.

Lemma request_ok_later T es es' n n' p :
  (forall e, e ∈ es -> e ∈ es') -> (applied (raft n) <= applied (raft n'))%nat -> request_ok T es n p -> request_ok T es' n' p.
Proof.
  intros He Ha. destruct p; cbn; try done; [|naive_solver]. intros [? Ho]. split; [done|]. by eapply older_later.
Qed.

(** Everything known stays known when the tracker makes the steps [new] and the
    library moves on, as long as no expiry is finished. *)
Lemma busy_ok_on T es new b n' :
  busy_ok T es b -> clockStarted n' = clockStarted (at_node b) -> tracker_wf (node_off n') (node_leases n') -> synced n' ->
  (applied (raft (at_node b)) <= applied (raft n'))%nat ->
  (forall i, claimed T i (node_leases (at_node b)) -> claimed T i (node_leases n')) ->
  busy_ok T (es ++ new) (on_node b n').
Proof.
  intros [Hc Hwf Hs Hr Hl] Hck Hwf' Hs' Ha Hk. split; cbn; try done.
  - unfold clock_ok. by rewrite Hck.
  - intros g p Hp. eapply request_ok_later; [|exact Ha|by eapply Hr]. set_solver.
  - destruct (expiry_loop b); cbn in *; try done; destruct Hl as (?&?&ls&ids'&?&?);
      (split; [done|]; split; [by eauto|]; exists ls, ids'; split; [set_solver|done]).
Qed.

Lemma busy_ok_next T es b g p : busy_ok T es b -> request_ok T es (at_node b) p -> busy_ok T es (next b g (at_node b) p).
Proof.
  intros [] Hp. split; cbn; try done. intros g' p'. rewrite lookup_insert. case_decide; [by intros [= <-]|by eauto].
Qed.
Lemma busy_ok_returns T es b g : busy_ok T es b -> busy_ok T es (returns b g (at_node b)).
Proof. intros []. split; cbn; try done. intros g' p'. rewrite lookup_delete. case_decide; [done|by eauto]. Qed.
Lemma busy_ok_loop T es b x : busy_ok T es b -> loop_ok T es (at_node b) x -> busy_ok T es (loop_next b (at_node b) x).
Proof. by intros [] Hx. Qed.

(** The library moved on and the node applied the entries: the tracker is the same. *)
Record quiet (n n' : Node) : Prop := {
  qu_leases : node_leases n' = node_leases n;
  qu_clock : clockStarted n' = clockStarted n;
  qu_synced : synced n';
  qu_applied : (applied (raft n) <= applied (raft n'))%nat;
  qu_term : CurrentTerm (raft n) <= CurrentTerm (raft n')
}.

Lemma quiet_refl n : synced n -> quiet n n.
Proof. intros Hn. by split. Qed.

Lemma quiet_entries n r bs : synced n -> entries (raft n) r bs -> quiet n (applyEntries (set_raft n r) bs).
Proof.
  intros Hn He. destruct (applyEntries_keeps (set_raft n r) bs) as (Hl&Hc&Hr&_).
  split; [done|done|by apply applyEntries_synced| |]; rewrite Hr; apply He.
Qed.

Lemma quiet_Apply n cmd : synced n -> quiet n (Node_Apply n cmd).1.
Proof.
  intros Hn. unfold Node_Apply. destruct (Marshal cmd) as [data|]; [|by apply quiet_refl].
  pose proof (safe_Apply (raft n) data) as Hs. destruct (raft_Apply (raft n) data) as [r [err bs|b1 b2]].
  - by apply quiet_entries.
  - destruct Hs as [Hs _]. pose proof (quiet_entries n r _ Hn Hs) as Ha. rewrite applyEntries_mid in Ha.
    destruct (applyEntry _ data) as [n2 resp]. by destruct resp.
Qed.

Lemma quiet_await n term : synced n -> term <= CurrentTerm (raft n) -> quiet n (awaitTermApplied n term).1.
Proof.
  intros Hn Hle. unfold awaitTermApplied. destruct (barrierTerm n =? term); [by apply quiet_refl|].
  pose proof (safe_Barrier (raft n)) as Hs. destruct (Barrier (raft n)) as [[r bs] err]. destruct Hs as [Hs Hold].
  pose proof (quiet_entries n r bs Hn Hs) as [Q1 Q2 [Q3 Q4] Q5 Q6]. destruct err; [done|].
  split; cbn; try done. split; cbn; [done|]. intros j Hj Ht.
  destruct (applyEntries_keeps (set_raft n r) bs) as (_&_&->&_). apply Hold; [done|done|lia].
Qed.

(** After a successful wait the entries of earlier terms are applied. *)
Lemma awaited n n' term : synced n -> term <= CurrentTerm (raft n) -> awaitTermApplied n term = (n', None) ->
  older_than term (applied (raft n')).
Proof.
  intros Hn Hle. unfold awaitTermApplied. destruct (Z.eqb_spec (barrierTerm n) term) as [<-|_]; [intros [= <-]; apply Hn|].
  pose proof (safe_Barrier (raft n)) as Hs. destruct (Barrier (raft n)) as [[r bs] [err|]]; [done|]. destruct Hs as [_ Hold].
  intros [= <-]. cbn. destruct (applyEntries_keeps (set_raft n r) bs) as (_&_&->&_). intros j Hj Ht. apply Hold; [done|done|]. cbn in *. lia.
Qed.

Lemma quiet_CreateLease n owner secs now : synced n -> quiet n (CreateLease n owner secs now).1.
Proof.
  intros Hn. unfold CreateLease. destruct (ensureLeader n); [by apply quiet_refl|].
  destruct (String.eqb owner ""); [by apply quiet_refl|]. destruct (leaseTTLDuration _ _) as [ttl|]; [|by apply quiet_refl].
  pose proof (quiet_Apply n (NewCreateLeaseCmd owner ttl (Node_Now n now)) Hn). by destruct (Node_Apply n _).
Qed.

Lemma quiet_ok T es b n' : busy_ok T es b -> quiet (at_node b) n' -> busy_ok T es (on_node b n').
Proof.
  intros Hb [Hl Hc Hs Ha _]. rewrite <- (app_nil_r es). eapply busy_ok_on; try done; [|by rewrite Hl].
  rewrite Hl. unfold node_off. rewrite Hc. apply Hb.
Qed.

(** ** One step *)

(** Step [st], when the tracker has done [past], is the tracker run [new]. *)
Record step_served (T : Z) (past : list tevent) (b : busy) (st : step) (new : list tevent) (b' : busy) : Prop := {
  ss_ok : busy_ok T (past ++ new) b';
  ss_run : truns T (node_leases (at_node b)) new (node_leases (at_node b'));
  ss_clock : clockStarted (at_node b') = clockStarted (at_node b);
  ss_timed : forall e, e ∈ new -> match ev_time e with Some x => step_readings b st = [x] | None => past <> [] end;
  ss_copies : forall e s, e ∈ new -> s ∈ ev_leases e -> recorded log s;
  ss_acks : forall i x ttl, (i, x, ttl) ∈ acknowledges b st -> vouches T (past ++ new) i x ttl;
  ss_claims : forall x i, (x, i) ∈ submits b st -> exists ls ids, TClaim x ls ids ∈ past ++ new /\ i ∈ ids
}.

Section one_step.
Variables (T : Z) (past : list tevent) (b : busy).
Hypothesis HT : T <> 0.
Hypothesis Hterm : CurrentTerm (raft (at_node b)) = T.
Hypothesis Hb : busy_ok T past b.

Let n : Node := at_node b.

(** A step that leaves the tracker alone. *)
Lemma quiet_served st b' :
  busy_ok T past b' -> node_leases (at_node b') = node_leases n -> clockStarted (at_node b') = clockStarted n ->
  (forall i x ttl, (i, x, ttl) ∈ acknowledges b st -> vouches T past i x ttl) ->
  (forall x i, (x, i) ∈ submits b st -> exists ls ids, TClaim x ls ids ∈ past /\ i ∈ ids) ->
  step_served T past b st [] b'.
Proof. intros Hok Hl Hc Ha Hs. split; rewrite ?app_nil_r; try done; try set_solver. rewrite Hl. constructor. Qed.

Lemma idle_served st : acknowledges b st = [] -> submits b st = [] -> step_served T past b st [] b.
Proof. intros Ha Hs. apply quiet_served; try done; [rewrite Ha|rewrite Hs]; set_solver. Qed.

(** A step that makes the tracker do [e], which is not the end of an expiry. *)
Lemma event_served st e t now :
  tstep T (node_leases n) e t -> ev_time e = Some (Node_Now n now) -> is_Some (mono now) ->
  step_readings b st = [Node_Now n now] -> (forall s, s ∈ ev_leases e -> recorded log s) ->
  acknowledges b st = [] -> submits b st = [] ->
  busy_ok T (past ++ [e]) (on_node b (set_leases n t)) /\
  forall b', busy_ok T (past ++ [e]) b' -> at_node b' = set_leases n t -> step_served T past b st [e] b'.
Proof.
  intros Hst Ht Hm Hr Hcp Ha Hs.
  assert (Hlock : lockstep (node_off n) (Node_Now n now)) by (apply Node_Now_lockstep; [apply Hb|done]).
  split.
  - apply busy_ok_on; try done; [|by apply synced_leases, Hb|].
    + eapply tstep_wf; [apply Hb| |exact Hst]. intros x Hx. rewrite Ht in Hx. by injection Hx as <-.
    + intros i Hi. eapply claimed_step; [done| |exact Hst]. by intros c ->.
  - intros b' Hok Hn'. split; try done; rewrite ?Hn', ?Ha, ?Hs; cbn; try set_solver.
    + econstructor; [exact Hst|constructor].
    + intros e' ->%list_elem_of_singleton. by rewrite Ht.
Qed.

Lemma create_served owner secs now : 0 <= wall (Node_Now n now) <= max_int64 ->
  step_served T past b (StCreate owner secs now) [] (on_node b (CreateLease n owner secs now).1).
Proof.
  intros Hx. pose proof (quiet_CreateLease n owner secs now (bo_synced _ _ _ Hb)) as Hq.
  apply quiet_served; [by apply quiet_ok|apply Hq|apply Hq| |by intros x i ?%elem_of_nil].
  cbn. intros i x ttl. fold n. destruct (CreateLease n owner secs now) as [n' [resp|]] eqn:He; [|set_solver].
  intros [= -> -> ->]%list_elem_of_singleton. clear Hq. revert He. unfold CreateLease.
  destruct (ensureLeader n); [done|]. destruct (String.eqb owner ""); [done|].
  destruct (leaseTTLDuration secs _) as [ttl|] eqn:Ht; [|done].
  apply leaseTTLDuration_ok in Ht as (Hs&Httl&Hle); [|unfold is_i64; lia|lia].
  destruct (Node_Apply n _) as [n1 r1] eqn:Ha. intros [= <- (y&->&Hy)%as_ok]. destruct y; try done. injection Hy as ->.
  assert (Htt : is_i64 ttl) by (unfold is_i64 in *; lia).
  destruct (Node_Apply_logged n (NewCreateLeaseCmd owner ttl (Node_Now n now)) n1 (RCreateLease resp) (bo_synced _ _ _ Hb))
    as (k&Hk&Hkt&Hresp); [split; [done|]; split; [done|apply wrap_i64_range]|exact Ha|].
  pose proof (create_reply _ _ _ _ _ Hresp) as Hd. destruct resp as [i e d]. cbn in Hd |- *. subst d.
  eapply vouch_create; eauto. unfold n in *. congruence.
Qed.

Lemma lookup_found id s : older_than T (applied (raft n)) -> GetLease (fsm n) id = Some s -> found T s.
Proof.
  intros Ho Hs. unfold GetLease in Hs. destruct (synced_recorded n id s (bo_synced _ _ _ Hb) Hs) as [Hid Hrec]. split; [done|].
  exists (applied (raft n)). split; [|done]. by rewrite <- (sy_state n (bo_synced _ _ _ Hb)), Hid.
Qed.

(** *** Steps of a renewal and of a check *)

Lemma await_served g term id : requests b !! g = Some (PAwait term id) ->
  exists b', request_step b (StAwait g) g (PAwait term id) = Some b' /\ step_served T past b (StAwait g) [] b'.
Proof.
  intros Hp. assert (term = T) as -> by (by apply (bo_requests _ _ _ Hb g (PAwait term id))). cbn. fold n.
  pose proof (quiet_await n T (bo_synced _ _ _ Hb) ltac:(unfold n; lia)) as Hq. pose proof (awaited n) as Haw.
  destruct (awaitTermApplied n T) as [n1 [err|]] eqn:Hw; (eexists; split; [done|]); pose proof (quiet_ok _ _ _ _ Hb Hq) as Hok;
    (apply quiet_served; [|apply Hq|apply Hq|set_solver|by intros x i ?%elem_of_nil]).
  - by apply (busy_ok_returns T past (on_node b n1)).
  - apply (busy_ok_next T past (on_node b n1)); [done|]. split; [done|]. eapply Haw; [apply Hb| |done]. unfold n. lia.
Qed.

Lemma lookup_served g term id : requests b !! g = Some (PLookup term id) ->
  exists b', request_step b (StLookup g) g (PLookup term id) = Some b' /\ step_served T past b (StLookup g) [] b'.
Proof.
  intros Hp. destruct (bo_requests _ _ _ Hb g _ Hp) as [-> Ho]. cbn. fold n.
  destruct (GetLease (fsm n) id) as [s|] eqn:Hs; (eexists; split; [done|]);
    (apply quiet_served; [|done|done|set_solver|by intros x i ?%elem_of_nil]).
  - apply busy_ok_next; [done|]. split; [done|]. by eapply lookup_found.
  - by apply busy_ok_returns.
Qed.

Lemma renew_served g term s now :
  requests b !! g = Some (PRenew term s) -> is_Some (mono now) ->
  exists b' new, request_step b (StRenew g now) g (PRenew term s) = Some b' /\ step_served T past b (StRenew g now) new b'.
Proof.
  intros Hp Hm. destruct (bo_requests _ _ _ Hb g _ Hp) as [-> Hf]. cbn. fold n.
  destruct (renew_total (node_off n) (node_leases n) T (Node_Now n now) s) as [[t res] Hr];
    [apply Hb|done|apply Node_Now_lockstep; [apply Hb|done]|]. rewrite Hr. cbn [mbind option_bind].
  destruct (event_served (StRenew g now) (TRenew (Node_Now n now) s (match res with Some _ => false | None => true end)) t now)
    as [Hok Hsv]; [by apply tstep_renew|done|done|by cbn; rewrite Hp|by intros s' ->%list_elem_of_singleton; apply Hf|done|done|].
  eexists _, _. split; [done|]. apply Hsv; [|by destruct res].
  destruct res; [by apply (busy_ok_returns _ _ (on_node b _))|]. apply (busy_ok_next _ _ (on_node b _)); [done|]. split; [set_solver|done].
Qed.

Lemma verify_served g s x : requests b !! g = Some (PVerify s x) ->
  exists b', request_step b (StVerify g) g (PVerify s x) = Some b' /\ step_served T past b (StVerify g) [] b'.
Proof.
  intros Hp. destruct (bo_requests _ _ _ Hb g _ Hp) as [Hin (Hrec&k&Hk&Hold)]. cbn. fold n.
  pose proof (safe_VerifyLeader (raft n)) as Hv. destruct (VerifyLeader (raft n)) as [[r bs] verr] eqn:Hvl.
  pose proof (quiet_entries n r bs (bo_synced _ _ _ Hb) Hv) as Hq. eexists. split; [done|].
  apply quiet_served; [|apply Hq|apply Hq| |by intros y i ?%elem_of_nil].
  - by apply (busy_ok_returns T past (on_node b _)), quiet_ok.
  - intros i y ttl. cbn. rewrite Hp. fold n. rewrite Hvl. destruct verr; [set_solver|].
    intros [= -> -> ->]%list_elem_of_singleton. by eapply vouch_renew.
Qed.

Lemma check_served g s now :
  requests b !! g = Some (PCheck s) -> is_Some (mono now) ->
  exists b' new, request_step b (StCheck g now) g (PCheck s) = Some b' /\ step_served T past b (StCheck g now) new b'.
Proof.
  intros Hp Hm. pose proof (bo_requests _ _ _ Hb g _ Hp) as Hrec. cbn. fold n.
  assert (CurrentTerm (raft n) = T) as -> by exact Hterm.
  destruct (event_served (StCheck g now) (TAlive (Node_Now n now) s (alive (node_leases n) T (Node_Now n now) s).2)
    (alive (node_leases n) T (Node_Now n now) s).1 now) as [Hok Hsv]; [by apply tstep_alive|done|done|by cbn; rewrite Hp|by intros s' ->%list_elem_of_singleton|done|done|].
  eexists _, _. split; [done|]. apply Hsv; [|done]. by apply (busy_ok_returns _ _ (on_node b _)).
Qed.

Lemma request_served st g p :
  requests b !! g = Some p -> match st with StAwait h | StLookup h | StRenew h _ | StVerify h | StCheck h _ => h = g | _ => False end ->
  step_ok b st -> exists b' new, request_step b st g p = Some b' /\ step_served T past b st new b'.
Proof.
  intros Hp Hst Hok. destruct st as [| |h|h|h now|h| |h now| | | | | |]; try done; subst h; cbn [step_ok] in Hok.
  all: destruct p; try (eexists b, []; split; [done|apply idle_served; cbn; rewrite ?Hp; done]).
  - destruct (await_served g term id Hp) as (b'&?&?). eauto.
  - destruct (lookup_served g term id Hp) as (b'&?&?). eauto.
  - destruct Hok. by apply renew_served.
  - destruct (verify_served g s x Hp) as (b'&?&?). eauto.
  - destruct Hok. by apply check_served.
Qed.

Lemma begin_served st : acknowledges b st = [] -> submits b st = [] -> step_served T past b st [] (begin_step b st).
Proof.
  intros Ha Hs. destruct st as [|g id| | | | |g id| | | | | | |]; try by apply idle_served.
  all: cbn; fold n; case_match; try by apply idle_served.
  all: apply quiet_served; try done; try set_solver; apply busy_ok_next; try done.
  eapply synced_recorded; [apply Hb|done].
Qed.

(** *** Steps of the expiry loop *)

Lemma scan_served : expiry_loop b = XIdle ->
  exists b', loop_step b StScan = Some b' /\ step_served T past b StScan [] b'.
Proof.
  intros Hx. unfold loop_step. rewrite Hx. fold n. eexists. split; [done|]. destruct (IsLeader n); [|by apply idle_served].
  apply quiet_served; try done; try set_solver. apply busy_ok_loop; [done|]. split; [done|].
  intros s. unfold FSM_Leases. intros ([i s']&->&Hin)%list_elem_of_fmap. apply elem_of_range in Hin.
  by apply (synced_recorded n i s' (bo_synced _ _ _ Hb)).
Qed.

Lemma claim_served term ls now : expiry_loop b = XScanned term ls -> is_Some (mono now) ->
  exists b' new, loop_step b (StClaim now) = Some b' /\ step_served T past b (StClaim now) new b'.
Proof.
  intros Hx Hm. pose proof (bo_loop _ _ _ Hb) as Hl. rewrite Hx in Hl. destruct Hl as [-> Hls].
  unfold loop_step. rewrite Hx. fold n.
  destruct (claim_total (node_off n) (node_leases n) T (Node_Now n now) ls) as (t&ids&Hc&Hnd&_);
    [apply Hb|done|apply Node_Now_lockstep; [apply Hb|done]|]. rewrite Hc. cbn [mbind option_bind].
  destruct (event_served (StClaim now) (TClaim (Node_Now n now) ls ids) t now)
    as [Hok Hsv]; [by apply tstep_claim|done|done|by cbn; rewrite Hx|done|done|done|].
  eexists _, _. split; [done|]. apply Hsv; [|done]. apply (busy_ok_loop _ _ (on_node b _)); [done|].
  split; [done|]. split; [intros i Hi; by eapply claim_marks|]. exists ls, ids. split; [set_solver|done].
Qed.

Lemma submit_served x ids : expiry_loop b = XSubmit x ids ->
  exists b', loop_step b StSubmit = Some b' /\ step_served T past b StSubmit [] b'.
Proof.
  intros Hx. pose proof (bo_loop _ _ _ Hb) as Hl. rewrite Hx in Hl. destruct Hl as (Hnd&Hk&ls&ids'&Hin&Hsub).
  unfold loop_step. rewrite Hx. fold n. destruct ids as [|id ids].
  { eexists. split; [done|]. apply quiet_served; try done; [by apply busy_ok_loop|set_solver|]. cbn. rewrite Hx. set_solver. }
  pose proof (quiet_Apply n (NewExpireLeaseCmd id) (bo_synced _ _ _ Hb)) as Hq.
  pose proof (quiet_ok _ _ _ _ Hb Hq) as Hok. destruct (Node_Apply n _) as [n1 r]. cbn in Hq, Hok. eexists. split; [done|].
  apply quiet_served; [|apply Hq|apply Hq|set_solver|].
  - apply (busy_ok_loop _ _ (on_node b n1)); [done|]. split; [done|]. split; [cbn; by rewrite (qu_leases _ _ Hq)|eauto].
  - cbn. rewrite Hx. intros y i [= -> ->]%list_elem_of_singleton. exists ls, ids'. split; [done|]. apply Hsub. by left.
Qed.

Lemma finish_served x id c ids : expiry_loop b = XFinish x id c ids ->
  exists b' new, loop_step b StFinish = Some b' /\ step_served T past b StFinish new b'.
Proof.
  intros Hx. pose proof (bo_loop _ _ _ Hb) as Hl. rewrite Hx in Hl. destruct Hl as (Hnd&Hk&ls&ids'&Hin&Hsub).
  apply list.NoDup_cons in Hnd as [Hni Hnd].
  unfold loop_step. rewrite Hx. fold n. set (t := finishExpiry (node_leases n) id c).
  eexists _, [TFinish id c]. split; [done|].
  assert (Hst : tstep T (node_leases n) (TFinish id c) t) by (apply tstep_finish, Hk; by left).
  assert (Hkept : forall i, i ∈ ids -> claimed T i t).
  { intros i Hi. eapply claimed_step; [apply Hk; by right| |exact Hst]. intros c' [= <- _]. done. }
  destruct Hb as [Hc Hwf Hs Hr _]. split; cbn; try done.
  - split; cbn; try done; [by apply finishExpiry_spec|by apply synced_leases| |].
    + intros g p Hp. eapply request_ok_later; [|reflexivity|by eapply Hr]. set_solver.
    + split; [done|]. split; [done|]. exists ls, ids'. split; [set_solver|]. intros i Hi. apply Hsub. by right.
  - econstructor; [exact Hst|constructor].
  - intros e ->%list_elem_of_singleton. cbn. intros ->. by apply elem_of_nil in Hin.
  - by intros e s ->%list_elem_of_singleton ?%elem_of_nil.
  - set_solver.
  - set_solver.
Qed.

Lemma loop_served st :
  match st with StScan | StClaim _ | StSubmit | StFinish => True | _ => False end ->
  step_ok b st -> exists b' new, loop_step b st = Some b' /\ step_served T past b st new b'.
Proof.
  intros Hst Hok. destruct (expiry_loop b) as [|term ls|x ids|x id c ids] eqn:Hx; destruct st; try done; cbn [step_ok] in Hok.
  all: try (eexists b, []; unfold loop_step; rewrite Hx; split; [try done; by destruct ids|apply idle_served; cbn; rewrite ?Hx; done]).
  - destruct (scan_served Hx) as (b'&?&?). eauto.
  - destruct Hok. by eapply claim_served.
  - destruct (submit_served _ _ Hx) as (b'&?&?). eauto.
  - by eapply finish_served.
Qed.

Lemma step_is_served st : step_ok b st -> exists b' new, run_step b st = Some b' /\ step_served T past b st new b'.
Proof.
  intros Hok. assert (Hidle : forall g, requests b !! g = None -> forall st, acknowledges b st = [] -> submits b st = [] ->
    exists b' new, Some b = Some b' /\ step_served T past b st new b') by (intros; eexists b, []; split; [done|by apply idle_served]).
  destruct st as [owner secs now|g id|g|g|g now|g|g id|g now| |now| | |cmd|r bs]; cbn [run_step].
  3-6,8: destruct (requests b !! g) as [p|] eqn:Hp; [by apply request_served|]; apply (Hidle g); cbn; by rewrite ?Hp.
  all: try by apply loop_served.
  - eexists _, []. split; [done|]. by apply create_served.
  - eexists _, []. split; [done|]. destruct (requests b !! g); [by apply idle_served|by apply begin_served].
  - eexists _, []. split; [done|]. destruct (requests b !! g); [by apply idle_served|by apply begin_served].
  - eexists _, []. split; [done|]. pose proof (quiet_Apply n cmd (bo_synced _ _ _ Hb)) as Hq.
    apply quiet_served; [by apply quiet_ok|apply Hq|apply Hq|set_solver|by intros x i ?%elem_of_nil].
  - eexists _, []. split; [done|]. pose proof (quiet_entries n r bs (bo_synced _ _ _ Hb) Hok) as Hq.
    apply quiet_served; [by apply quiet_ok|apply Hq|apply Hq|set_solver|by intros x i ?%elem_of_nil].
Qed.
End one_step.

(** ** The term *)

(** The steps are made in term [T]. *)
Fixpoint in_term_steps (T : Z) (b : busy) (steps : list step) : Prop :=
  match steps with
  | [] => True
  | st :: steps =>
    CurrentTerm (raft (at_node b)) = T /\ step_ok b st /\ forall b', run_step b st = Some b' -> in_term_steps T b' steps
  end.

(** The same for steps that can be checked by running them. *)
Definition step_okb (b : busy) (st : step) : bool :=
  let n := at_node b in
  match st with
  | StDeliver _ _ => false
  | StCreate _ _ now => (0 <=? wall (Node_Now n now)) && (wall (Node_Now n now) <=? max_int64)
  | StRenew _ now | StCheck _ now | StClaim now =>
    match mono now with Some _ => wall zero_Time <? wall (Node_Now n now) | None => false end
  | _ => true
  end.
Fixpoint in_term_stepsb (T : Z) (b : busy) (steps : list step) : bool :=
  match steps with
  | [] => true
  | st :: steps =>
    (CurrentTerm (raft (at_node b)) =? T) && step_okb b st &&
    match run_step b st with Some b' => in_term_stepsb T b' steps | None => true end
  end.

Lemma step_okb_ok b st : step_okb b st = true -> step_ok b st.
Proof.
  destruct st; cbn; try done; try (destruct (mono now); [intros ?%Z.ltb_lt; split; [by eexists|done]|done]).
  intros Hb. to_prop. lia.
Qed.

Lemma in_term_stepsb_ok T b steps : in_term_stepsb T b steps = true -> in_term_steps T b steps.
Proof.
  revert b. induction steps as [|st steps IH]; intros b; [done|]. cbn [in_term_stepsb in_term_steps].
  rewrite !andb_true_iff, Z.eqb_eq. intros ((HT&Hok)&Hnext). split_and!; [done|by apply step_okb_ok|].
  intros b' Hrun. rewrite Hrun in Hnext. by apply IH.
Qed.

(** A list of clock readings that never go back. *)
Definition in_order (xs : list Time) : Prop := StronglySorted (fun x y => wall x <= wall y) xs.

(** What the steps of a term do to the tracker, when it has done [past] before. *)
Record steps_served (T : Z) (past : list tevent) (b : busy) (steps : list step) (es : list tevent) (b' : busy) : Prop := {
  st_ok : busy_ok T (past ++ es) b';
  st_run : truns T (node_leases (at_node b)) es (node_leases (at_node b'));
  st_clock : forall e x, e ∈ es -> ev_time e = Some x ->
    lockstep (node_off (at_node b)) x /\ wall zero_Time < wall x /\ x ∈ readings b steps;
  st_sorted : in_order (readings b steps) -> clock_sorted es;
  st_head : past = [] -> forall e es', es = e :: es' -> is_Some (ev_time e);
  st_copies : forall e s, e ∈ es -> s ∈ ev_leases e -> recorded log s;
  st_acks : forall i x ttl, (i, x, ttl) ∈ acknowledged b steps -> vouches T (past ++ es) i x ttl;
  st_claims : forall x i, (x, i) ∈ submitted b steps -> exists ls ids, TClaim x ls ids ∈ past ++ es /\ i ∈ ids
}.

(** The reading a step passes to the tracker is one of the node's clock. *)
Lemma step_reading b st x : step_ok b st -> step_readings b st = [x] ->
  exists now, x = Node_Now (at_node b) now /\ is_Some (mono now) /\ wall zero_Time < wall x.
Proof.
  destruct st; cbn; try done; intros [Hm Hz]; repeat case_match; try done; intros [= <-]; eauto.
Qed.

(** The readings of one step, and then those of the others. *)
Lemma sorted_after (rs rest : list Time) es1 es2 :
  (forall e x, e ∈ es1 -> ev_time e = Some x -> rs = [x]) -> (forall e x, e ∈ es2 -> ev_time e = Some x -> x ∈ rest) ->
  in_order (rs ++ rest) -> clock_sorted es2 -> clock_sorted (es1 ++ es2).
Proof.
  intros H1 H2 Ho Hs. induction es1 as [|e es1 IH]; [done|]. cbn.
  split; [|apply IH; intros; eapply H1; [by right|done]]. intros x Hx.
  pose proof (H1 e x ltac:(by left) Hx) as ->. apply StronglySorted_inv in Ho as [_ Ho]. apply Forall_app. split.
  - apply list.Forall_forall. intros e' He' y Hy. specialize (H1 e' y ltac:(by right) Hy). simplify_eq. lia.
  - apply list.Forall_forall. intros e' He' y Hy. rewrite list.Forall_forall in Ho. by apply Ho, (H2 e' y).
Qed.

Lemma in_order_after rs rest : in_order (rs ++ rest) -> in_order rest.
Proof. induction rs as [|x rs IH]; [done|]. cbn. intros [? _]%StronglySorted_inv. by apply IH. Qed.

Lemma term_served T past b steps : T <> 0 -> busy_ok T past b -> in_term_steps T b steps ->
  exists b' es, run_steps b steps = Some b' /\ steps_served T past b steps es b'.
Proof.
  intros HT. revert past b. induction steps as [|st steps IH]; intros past b Hb Hsteps.
  { exists b, []. split; [done|]. split; rewrite ?app_nil_r; try done; try set_solver; constructor. }
  destruct Hsteps as (Hterm&Hok&Hnext).
  destruct (step_is_served T past b HT Hterm Hb st Hok) as (b1&new&Hrun1&[O1 R1 C1 T1 P1 A1 S1]).
  destruct (IH _ b1 O1 (Hnext b1 Hrun1)) as (b2&es&Hrun2&[O2 R2 C2 Q2 H2 P2 A2 S2]).
  assert (Hoff : node_off (at_node b1) = node_off (at_node b)) by (unfold node_off; by rewrite C1).
  assert (Hnew : forall e x, e ∈ new -> ev_time e = Some x -> step_readings b st = [x])
    by (intros e x He Hx; specialize (T1 e He); by rewrite Hx in T1).
  exists b2, (new ++ es). cbn [run_steps]. rewrite Hrun1. split; [done|].
  split; unfold readings, acknowledged, submitted in *; cbn [along]; rewrite ?Hrun1, ?app_assoc; try done.
  - by eapply truns_trans.
  - intros e x [He|He]%elem_of_app Hx.
    + destruct (step_reading b st x Hok (Hnew e x He Hx)) as (now&->&Hm&Hz). rewrite (Hnew e _ He Hx).
      split_and!; [apply Node_Now_lockstep; [apply Hb|done]|done|set_solver].
    + destruct (C2 e x He Hx) as (?&?&?). rewrite <- Hoff. set_solver.
  - intros Ho. eapply sorted_after; [exact Hnew| |exact Ho|by eapply Q2, in_order_after]. intros e x He Hx. by eapply C2.
  - intros -> e es'. destruct new as [|e1 new]; [by apply H2|]. intros [= -> _]. specialize (T1 e ltac:(by left)).
    destruct (ev_time e); [by eexists|done].
  - intros e s [He|He]%elem_of_app; eauto.
  - intros i x ttl [Ha|Ha]%elem_of_app; [|by apply A2]. eapply vouches_more; [|by apply A1]. set_solver.
  - intros x i [Ha|Ha]%elem_of_app; [|by apply S2]. destruct (S1 _ _ Ha) as (ls&ids&?&?). exists ls, ids. set_solver.
Qed.

(** A node with no request under way. *)
Lemma idle_ok T n : clock_ok n -> tracker_wf (node_off n) (node_leases n) -> synced n -> busy_ok T [] (idle n).
Proof. by split. Qed.

(** As a run of the tracker, if the calls reach it in the order of their readings. *)
Lemma served_run_ok T skew n steps es b' :
  T <> 0 -> tr_term (node_leases n) <> T -> tracker_wf (node_off n) (node_leases n) ->
  steps_served T [] (idle n) steps es b' -> in_order (readings (idle n) steps) ->
  run_ok (recorded log) (mkTermRun T (node_off n) skew (node_leases n) es (node_leases (at_node b'))).
Proof.
  intros HT Hnew Hwf [O R C Q H P A S] Ho. split; try done; [by apply Q|]. cbn. intros e x He Hx. by destruct (C e x He Hx) as (?&?&_).
Qed.

(** C10: a node that leads serves the log and its tracker. Take a node with a running
    clock, which reads times after 1970, and no request under way, whose tracker is
    not yet of term [T], over a Raft library that applies one log, and any interleaving [steps] of the steps of concurrent
    requests, of the expiry loop and of the library that happens while the library
    reports term [T]. Then nothing panics; the state machine is the state after a
    prefix of the log; the tracker makes a run [es] of term [T], with readings of
    the node's clock and copies of replicated records. Every creation the node
    acknowledged is in the log, in this term and with the time of the request; every
    renewal it acknowledged is an accepted renewal of a lease found after all
    entries of earlier terms were applied; and every expiry it submitted is a claim.
    If, besides, the calls reach the tracker in the order of their clock readings,
    which the code does not ensure, since it reads the clock before it takes the
    tracker's mutex, then the run is one as the theorems on leases assume it. *)
Theorem leader_serves_its_term (T skew : Z) (n : Node) (steps : list step)
    (HT : T <> 0) (Hnew : tr_term (node_leases n) <> T) (Hc : clock_ok n)
    (Hwf : tracker_wf (node_off n) (node_leases n)) (Hn : synced n) (Hsteps : in_term_steps T (idle n) steps) :
  exists b' es, run_steps (idle n) steps = Some b' /\ synced (at_node b') /\
    truns T (node_leases n) es (node_leases (at_node b')) /\
    (forall e x, e ∈ es -> ev_time e = Some x -> lockstep (node_off n) x /\ x ∈ readings (idle n) steps) /\
    (forall e s, e ∈ es -> s ∈ ev_leases e -> recorded log s) /\
    (forall i x ttl, (i, x, ttl) ∈ acknowledged (idle n) steps -> vouches T es i x ttl) /\
    (forall x i, (x, i) ∈ submitted (idle n) steps -> exists ls ids, TClaim x ls ids ∈ es /\ i ∈ ids) /\
    (in_order (readings (idle n) steps) ->
     run_ok (recorded log) (mkTermRun T (node_off n) skew (node_leases n) es (node_leases (at_node b')))).
Proof.
  destruct (term_served T [] (idle n) steps HT (idle_ok T n Hc Hwf Hn) Hsteps) as (b'&es&Hrun&Hs).
  exists b', es. split; [done|]. split_and!; [apply Hs|apply Hs| |apply Hs|apply Hs|apply Hs|by eapply served_run_ok].
  intros e x He Hx. by destruct (st_clock _ _ _ _ _ _ Hs e x He Hx) as (?&_&?).
Qed.
End leader.

(** ** A concrete term

    A library that hands out the entries of a given log, with their terms: an entry
    commits if it is the next one of the log and of the caller's term, and a barrier
    applies all entries of earlier terms. *)

Fixpoint older (T : Z) (log : list (Z * CommandWrapper)) : nat :=
  match log with
  | [] => 0
  | (t, _) :: log => match older T log with O => if t <? T then 1 else 0 | S m => S (S m) end
  end.

Lemma older_spec T log j t cmd : log !! j = Some (t, cmd) -> t < T -> (j < older T log)%nat.
Proof.
  revert j. induction log as [|[t' c'] log IH]; intros [|j] Hj Ht; simplify_eq/=.
  - destruct (older T log); [|lia]. destruct (Z.ltb_spec t T); lia.
  - specialize (IH j Hj Ht). destruct (older T log); lia.
Qed.

Definition catch_up (log : list (Z * CommandWrapper)) (k k' : nat) : list CommandWrapper := take (k' - k) (drop k log.*2).

Definition scripted_raft (log : list (Z * CommandWrapper)) : @RaftLib id_codec :=
  @Build_RaftLib id_codec (nat * Z) (fun _ => Leader) snd (fun _ => ("127.0.0.1:7000", "node-1")%string)
    (fun _ => Ok [solo_server])
    (fun r data => if bool_decide (log !! r.1 = Some (r.2, data)) then ((S r.1, r.2), Committed [] [])
                   else (r, Failed raft_ErrNotLeader []))
    (fun r => let k := Nat.max r.1 (older r.2 log) in ((k, r.2), catch_up log r.1 k, None))
    (fun r => (r, [], None)) (fun r _ _ => (r, [], None)) (fun r _ => (r, [], None)).

Lemma entries_none (log : list CommandWrapper) k (t : Z) :
  (k <= k)%nat /\ t <= t /\ @Unmarshal id_codec <$> [] = Ok <$> take (k - k) (drop k log).
Proof. rewrite Nat.sub_diag. split_and!; [done|lia|done]. Qed.

Lemma typed_unmarshal cs : Forall typed cs -> @Unmarshal id_codec <$> cs = Ok <$> cs.
Proof. induction 1 as [|c cs Hc _ IH]; [done|]. rewrite !fmap_cons, IH. cbn. by rewrite decide_True. Qed.

Definition scripted_safe (log : list (Z * CommandWrapper)) (Hty : Forall typed log.*2) :
  @LogSafety id_codec (scripted_raft log) log.*2.
Proof.
  refine (@Build_LogSafety id_codec (scripted_raft log) log.*2 fst (fun k => default 0 (log.*1 !! k)) _ _
    (fun r => entries_none log.*2 r.1 r.2)).
  - intros [k t] data. change CommandWrapper in data. cbn. case_bool_decide as Hk; [|apply entries_none]. cbn.
    assert (Hd : log.*2 !! k = Some data) by (by rewrite list_lookup_fmap, Hk).
    rewrite Nat.add_0_r, list_lookup_fmap, Hk. split; [|done]. split; [lia|]. split; [lia|].
    replace (S k - k)%nat with 1%nat by lia.
    rewrite (drop_S _ _ _ Hd). cbn [take].
    apply (typed_unmarshal [data]). rewrite list.Forall_forall in Hty. constructor; [|done].
    apply Hty. by eapply list_elem_of_lookup_2.
  - intros [k t]. cbn. split; [split; [lia|split; [lia|]]|].
    + apply typed_unmarshal. by apply Forall_take, Forall_drop.
    + intros _ j Hj Ht. rewrite length_fmap in Hj. destruct (lookup_lt_is_Some_2 _ _ Hj) as [[t' c] Hc].
      rewrite list_lookup_fmap, Hc in Ht. pose proof (older_spec t log j t' c Hc Ht). lia.
Defined.

Definition term_script : list (Z * CommandWrapper) :=
  [(1, NewCreateLeaseCmd "worker" (10 * Second) solo_start); (1, NewAcquireLockCmd "db" "worker" 1); (1, NewExpireLeaseCmd 1)].
Definition term_raft : @RaftLib id_codec := scripted_raft term_script.
Lemma term_typed : Forall typed term_script.*2.
Proof. repeat constructor; by vm_compute. Qed.

Definition term_node : @Node id_codec term_raft :=
  mkNode (RL := term_raft) (0%nat, 1) NewFSM solo_config solo_start zero_tracker newLockQueues 0 false false.
(** Creation, acquisition, two renewals at seconds 4 and 5 whose steps interleave,
    and a tick at second 20; a third renewal begins after the claim, looks the lease
    up while its expiry commits, and finds it gone. *)
Definition term_steps : list (@step id_codec term_raft) :=
  [StCreate (RL := term_raft) "worker" 10 solo_start;
   StApply (RL := term_raft) (NewAcquireLockCmd "db" "worker" 1);
   StBegin (RL := term_raft) 0 1; StBegin (RL := term_raft) 1 1; StAwait (RL := term_raft) 0; StLookup (RL := term_raft) 0;
   StAwait (RL := term_raft) 1; StRenew (RL := term_raft) 0 (solo_time 4); StLookup (RL := term_raft) 1;
   StVerify (RL := term_raft) 0; StRenew (RL := term_raft) 1 (solo_time 5); StScan (RL := term_raft); StVerify (RL := term_raft) 1;
   StClaim (RL := term_raft) (solo_time 20); StBegin (RL := term_raft) 2 1; StAwait (RL := term_raft) 2; StSubmit (RL := term_raft);
   StLookup (RL := term_raft) 2; StFinish (RL := term_raft); StSubmit (RL := term_raft)].

Lemma term_steps_ok : in_term_steps (LS := scripted_safe term_script term_typed) term_script.*2 1 (idle term_node) term_steps.
Proof. apply in_term_stepsb_ok. by vm_compute. Qed.

Example term_readings : readings (idle term_node) term_steps = [solo_time 4; solo_time 5; solo_time 20].
Proof. by vm_compute. Qed.

Lemma leader_serves_its_term_witness :
  acknowledged (idle term_node) term_steps =
    [(1, solo_time 0, 10 * Second); (1, solo_time 4, 10 * Second); (1, solo_time 5, 10 * Second)] /\
  submitted (idle term_node) term_steps = [(solo_time 20, 1)] /\
  in_order (readings (idle term_node) term_steps) /\
  exists b', run_steps (idle term_node) term_steps = Some b' /\
    fsm (at_node b') = state_at term_script.*2 (raft (at_node b')).1.
Proof.
  split; [by vm_compute|]. split; [by vm_compute|]. split; [rewrite term_readings; repeat constructor; by vm_compute|].
  destruct (leader_serves_its_term (LS := scripted_safe term_script term_typed) term_script.*2 term_typed eq_refl
    1 0 term_node term_steps ltac:(lia) ltac:(discriminate) ltac:(split; [reflexivity|by eexists])
    (zero_tracker_wf _) ltac:(split; [reflexivity|intros j Hj Ht; exfalso; do 3 (destruct j as [|j]; [by vm_compute in Ht|]); cbn in Hj; lia])
    term_steps_ok) as (b'&es&H1&H2&_).
  exists b'. split; [exact H1|exact (sy_state _ _ H2)].
Defined.
