(* ===== verification/Transport.v ===== *)
(** * The gRPC layer (internal/transport and the messages of api/v1)

    The server's handlers, the translation of errors to gRPC statuses, and the
    leader hint that redirects clients. The gRPC status package is the parameter
    [GrpcStatus]. A request reaches a handler decoded and non-nil. *)

From S2P Require Import Prelude GoTime Errors Domain Raftlog Fsm RaftFsm LeaseTracker LockQueue Node Service.

(** ** Messages (api/v1/lock.pb_go) *)

(** Each generated struct is the record [pb_] and its name. *)
Record pb_CreateLeaseRequest := pb_mkCreateLeaseRequest { pb_OwnerId : string; pb_TtlSeconds : Z }.
Record pb_CreateLeaseResponse := pb_mkCreateLeaseResponse { pb_CL_LeaseId : Z; pb_CL_TtlSeconds : Z }.
Record pb_HeartbeatRequest := pb_mkHeartbeatRequest { pb_HB_LeaseId : Z }.
Record pb_HeartbeatResponse := pb_mkHeartbeatResponse { pb_HR_LeaseId : Z; pb_HR_TtlSeconds : Z }.
Record pb_AcquireLockRequest := pb_mkAcquireLockRequest {
  pb_AL_LockName : string; pb_AL_OwnerId : string; pb_AL_LeaseId : Z; pb_AL_Wait : bool }.
Record pb_AcquireLockResponse := pb_mkAcquireLockResponse { pb_AR_FencingToken : Z; pb_AR_LeaseTtlSeconds : Z }.
Record pb_ReleaseLockRequest := pb_mkReleaseLockRequest { pb_RL_LockName : string; pb_RL_LeaseId : Z }.
Record pb_ReleaseLockResponse := pb_mkReleaseLockResponse { pb_Released : bool }.
Record pb_ClusterMember := pb_mkClusterMember { pb_CM_NodeId : string; pb_CM_RaftAddress : string; pb_CM_GrpcAddress : string }.
Record pb_Stats := pb_mkStats { pb_PS_Leases : Z; pb_PS_Locks : Z; pb_PS_FencingCounter : Z }.
Record pb_GetStatusResponse := pb_mkGetStatusResponse {
  pb_SR_NodeId : string;
  pb_SR_IsLeader : bool;
  pb_SR_LeaderGrpcAddress : string;
  pb_SR_State : string;
  pb_SR_GrpcAddress : string;
  pb_SR_Members : list pb_ClusterMember;
  pb_SR_Stats : pb_Stats
}.
Record pb_JoinNodeRequest := pb_mkJoinNodeRequest { pb_JN_NodeId : string; pb_JN_RaftAddress : string; pb_JN_GrpcAddress : string }.
Record pb_JoinNodeResponse := pb_mkJoinNodeResponse { pb_Joined : bool; pb_JR_LeaderGrpcAddress : string }.
Record pb_RemoveNodeRequest := pb_mkRemoveNodeRequest { pb_RN_NodeId : string }.
Record pb_RemoveNodeResponse := pb_mkRemoveNodeResponse { pb_Removed : bool }.

(** ** google.golang.org/grpc/status *)

(** [WithDetails] can fail to encode a detail; [FromError] gives the status an
    error carries; [Code] is its code, [OK] for no error. *)
Class GrpcStatus := {
  WithDetails : Status -> detail -> option Status;
  FromError : error -> option Status;
  status_Code : option error -> Code;
  with_details_adds : forall st d st', WithDetails st d = Some st' ->
    st' = mkStatus (st_code st) (st_message st) (st_details st ++ [d]);
  from_status : forall st, FromError (StatusError st) = Some st;
  code_of_status : forall st, status_Code (Some (StatusError st)) = st_code st;
  code_of_nil : status_Code None = codes_OK
}.

Definition status_Error (c : Code) (msg : string) : error := StatusError (mkStatus c msg []).

(** ** Leader hints (internal/transport/leaderhint) *)

Section transport.
Context {GS : GrpcStatus}.

Definition leaderhint_Error (grpcAddress : string) : error :=
  let st := mkStatus codes_Unavailable "not leader" [] in
  if String.eqb grpcAddress "" then StatusError st else
  match WithDetails st (LeaderHint grpcAddress) with
  | None => StatusError st
  | Some stWithDetails => StatusError stWithDetails
  end.

(** The loop over [st.Details()]. *)
Fixpoint hint_in (details : list detail) : string :=
  match details with
  | [] => ""
  | LeaderHint a :: rest => if String.eqb a "" then hint_in rest else a
  | other_detail :: rest => hint_in rest
  end.

Definition leaderhint_FromError (err : option error) : string :=
  match err with
  | None => ""
  | Some err => match FromError err with None => "" | Some st => hint_in (st_details st) end
  end.

(** ** Error translation (server.go) *)

Definition toGRPCError (err : option error) : option error :=
  match err with
  | None => None
  | Some err => Some (
    match as_InvalidArgumentError err with
    | Some m => status_Error codes_InvalidArgument m
    | None =>
    match as_NotLeaderError err with
    | Some addr => leaderhint_Error addr
    | None =>
      let Is t := errors_Is err t in
      if Is (RaftErr raft_ErrNotLeader) || Is (RaftErr raft_ErrLeadershipLost) ||
         Is (RaftErr raft_ErrLeadershipTransferInProgress) || Is (RaftErr raft_ErrRaftShutdown)
      then status_Error codes_Unavailable (error_text err)
      else if Is (Domain ErrLockAlreadyHeld) then status_Error codes_AlreadyExists (error_text err)
      else if Is (Domain ErrLeaseNotFound) || Is (Domain ErrLockNotFound) || Is (Domain ErrNodeNotFound)
      then status_Error codes_NotFound (error_text err)
      else if Is (Domain ErrLeaseExpired) then status_Error codes_FailedPrecondition (error_text err)
      else if Is (Domain ErrInvalidLeaseTTL) || Is (Domain ErrInvalidTimestamp) || Is (Domain ErrInvalidClusterNode)
      then status_Error codes_InvalidArgument (error_text err)
      else if Is (Domain ErrNotLockOwner) then status_Error codes_PermissionDenied (error_text err)
      else status_Error codes_Internal (error_text err)
    end
    end)
  end.

(** A handler's [return nil, toGRPCError(err)] for a non-nil [err]. *)
Definition failed {A} (err : error) : result error A :=
  match toGRPCError (Some err) with Some e => Err e | None => Err err end.

(** ** Handlers *)

Section handlers.
Context {RO : RangeOrder} {PC : ProtoCodec} {RL : RaftLib}.

Definition toProtoMembers (members : list ClusterMember) : list pb_ClusterMember :=
  (fun m => pb_mkClusterMember (NodeID m) (RaftAddress m) (GRPCAddress m)) <$> members.

Definition Server_CreateLease (n : Node) (req : pb_CreateLeaseRequest) (now : Time)
    : Node * result error pb_CreateLeaseResponse :=
  match CreateLease n (pb_OwnerId req) (pb_TtlSeconds req) now with
  | (n, Err err) => (n, failed err)
  | (n, Ok resp) => (n, Ok (pb_mkCreateLeaseResponse (CLR_LeaseID resp) (CLR_TTL resp /i64 Second)))
  end.

Definition acquire_reply (r : result error AcquireLockResponse) : result error pb_AcquireLockResponse :=
  match r with
  | Err err => failed err
  | Ok resp => Ok (pb_mkAcquireLockResponse (ALR_FencingToken resp) (ALR_LeaseTTL resp /i64 Second))
  end.

(** The reply, or the waiting call that will give it. *)
Definition Server_AcquireLock (n : Node) (req : pb_AcquireLockRequest) (now : Time)
    : Node * (result error pb_AcquireLockResponse + wait_call) :=
  match AcquireLock n (pb_AL_LockName req) (pb_AL_OwnerId req) (pb_AL_LeaseId req) (pb_AL_Wait req) now with
  | (n, inl r) => (n, inl (acquire_reply r))
  | (n, inr c) => (n, inr c)
  end.

Definition Server_ReleaseLock (n : Node) (req : pb_ReleaseLockRequest) : Node * result error pb_ReleaseLockResponse :=
  match ReleaseLock n (pb_RL_LockName req) (pb_RL_LeaseId req) with
  | (n, Some err) => (n, failed err)
  | (n, None) => (n, Ok (pb_mkReleaseLockResponse true))
  end.

(** What one pass of the [Heartbeat] loop gets from the stream: the end of the
    client's side, a receive error, or a request, with the result of sending the
    response back. *)
Inductive stream_event :=
| RecvEOF
| RecvErr (err : error)
| RecvReq (req : pb_HeartbeatRequest) (now : Time) (send : option error).

(** The node, the responses sent, and what the handler returned: [None] while it
    still waits for input. [None] overall: see [RenewLease]. *)
Fixpoint Server_Heartbeat (n : Node) (events : list stream_event)
    : option (Node * list pb_HeartbeatResponse * option (option error)) :=
  match events with
  | [] => Some (n, [], None)
  | RecvEOF :: _ => Some (n, [], Some None)
  | RecvErr err :: _ => Some (n, [], Some (Some err))
  | RecvReq req now send :: rest =>
    '(n, r) ← RenewLease n (pb_HB_LeaseId req) now;
    match r with
    | Err err => Some (n, [], Some (toGRPCError (Some err)))
    | Ok ttl =>
      let resp := pb_mkHeartbeatResponse (pb_HB_LeaseId req) (ttl /i64 Second) in
      match send with
      | Some err => Some (n, [], Some (Some err))
      | None => '(n, resps, ret) ← Server_Heartbeat n rest; Some (n, resp :: resps, ret)
      end
    end
  end.

Definition Server_GetStatus (n : Node) : pb_GetStatusResponse :=
  let resp := Service_Status n in
  pb_mkGetStatusResponse (sr_NodeID resp) (sr_IsLeader resp) (sr_LeaderGRPCAddress resp) (sr_State resp)
    (sr_GRPCAddress resp) (toProtoMembers (sr_Members resp))
    (pb_mkStats (wrap_i32 (Stats_Leases (sr_Stats resp))) (wrap_i32 (Stats_Locks (sr_Stats resp)))
                (Stats_FencingCounter (sr_Stats resp))).

Definition Server_JoinNode (n : Node) (req : pb_JoinNodeRequest) : Node * result error pb_JoinNodeResponse :=
  match JoinNode n (mkMember (pb_JN_NodeId req) (pb_JN_RaftAddress req) (pb_JN_GrpcAddress req)) with
  | (n, Err err) => (n, failed err)
  | (n, Ok leaderAddr) => (n, Ok (pb_mkJoinNodeResponse true leaderAddr))
  end.

Definition Server_RemoveNode (n : Node) (req : pb_RemoveNodeRequest) : Node * result error pb_RemoveNodeResponse :=
  match RemoveNode n (pb_RN_NodeId req) with
  | (n, Some err) => (n, failed err)
  | (n, None) => (n, Ok (pb_mkRemoveNodeResponse true))
  end.
End handlers.

(** ** Which status an error becomes *)

(** The code the outermost cause of an error maps to. *)
Definition code_for (root : error) : Code :=
  match root with
  | InvalidArgumentError _ => codes_InvalidArgument
  | NotLeaderError _ => codes_Unavailable
  | RaftErr (raft_other _) => codes_Internal
  | RaftErr _ => codes_Unavailable
  | Domain ErrLockAlreadyHeld => codes_AlreadyExists
  | Domain (ErrLeaseNotFound | ErrLockNotFound | ErrNodeNotFound) => codes_NotFound
  | Domain ErrLeaseExpired => codes_FailedPrecondition
  | Domain (ErrInvalidLeaseTTL | ErrInvalidTimestamp | ErrInvalidClusterNode) => codes_InvalidArgument
  | Domain ErrNotLockOwner => codes_PermissionDenied
  | _ => codes_Internal
  end.

Lemma as_InvalidArgument_root e :
  as_InvalidArgumentError e = match root_cause e with InvalidArgumentError m => Some m | _ => None end.
Proof. induction e; simpl; by rewrite ?IHe. Qed.

Lemma as_NotLeader_root e :
  as_NotLeaderError e = match root_cause e with NotLeaderError a => Some a | _ => None end.
Proof. induction e; simpl; by rewrite ?IHe. Qed.

Lemma leaderhint_Error_code a : exists st, leaderhint_Error a = StatusError st /\ st_code st = codes_Unavailable.
Proof.
  unfold leaderhint_Error. case_match; [by eexists|]. case_match eqn:E; [|by eexists].
  apply with_details_adds in E as ->. by eexists.
Qed.

(** Every error the service can return becomes a gRPC status whose code
    depends only on what the chain of wrapped errors ends in; a held lock is the
    only cause of [AlreadyExists], so a client can tell it from any other failure,
    and a lost leadership is always retryable. *)
Theorem grpc_code_of_cause (err : error) :
  exists st, toGRPCError (Some err) = Some (StatusError st) /\
    st_code st = code_for (root_cause err) /\
    (st_code st = codes_AlreadyExists <-> root_cause err = Domain ErrLockAlreadyHeld).
Proof.
  unfold toGRPCError. rewrite as_InvalidArgument_root, as_NotLeader_root.
  rewrite !errors_Is_root by done.
  destruct (root_cause err) as [[]|[]|m|a|st| | |m|m x]; cbn -[leaderhint_Error];
    try (eexists; split; [reflexivity|]; split; [reflexivity|]; split; intros; simplify_eq; done).
  destruct (leaderhint_Error_code a) as (st&->&Hc). exists st. rewrite Hc. done.
Qed.

(** C39: a client that gets the redirect of a follower finds in it the leader
    address the follower sent, whenever the details could be encoded, and nothing
    when the leader is unknown. The redirect is always retryable. *)
Theorem leader_hint_roundtrip (addr : string) :
  (WithDetails (mkStatus codes_Unavailable "not leader" []) (LeaderHint addr) <> None \/ addr = ""%string ->
   leaderhint_FromError (toGRPCError (Some (NotLeaderError addr))) = addr) /\
  leaderhint_FromError (toGRPCError (Some (NotLeaderError ""))) = ""%string /\
  status_Code (toGRPCError (Some (NotLeaderError addr))) = codes_Unavailable.
Proof.
  assert (Hempty : leaderhint_FromError (toGRPCError (Some (NotLeaderError ""))) = ""%string).
  { cbn. unfold leaderhint_Error. cbn. by rewrite from_status. }
  split_and!; [|done|].
  - intros Hor. destruct (String.eqb_spec addr "") as [->|Hne]; [done|].
    destruct Hor as [Hw|?]; [|done]. cbn. unfold leaderhint_Error.
    destruct (String.eqb_spec addr ""); [done|].
    destruct (WithDetails _ _) as [st|] eqn:E; [|done]. apply with_details_adds in E as ->.
    rewrite from_status. cbn. by destruct (String.eqb_spec addr "").
  - cbn. destruct (leaderhint_Error_code addr) as (st&->&Hc). by rewrite code_of_status.
Qed.
End transport.

(** ** A concrete status package, used to evaluate the model *)

#[export] Instance plain_status : GrpcStatus := {|
  WithDetails st d := Some (mkStatus (st_code st) (st_message st) (st_details st ++ [d]));
  FromError e := match e with StatusError st => Some st | _ => None end;
  status_Code e := match e with None => codes_OK | Some (StatusError st) => st_code st | Some _ => codes_Unknown end;
  with_details_adds _ _ _ H := eq_sym (Some_inj _ _ H);
  from_status _ := eq_refl;
  code_of_status _ := eq_refl;
  code_of_nil := eq_refl
|}.

Lemma grpc_code_of_cause_witness :
  exists st, toGRPCError (Some (wrapf "acquire" (Domain ErrLockAlreadyHeld))) = Some (StatusError st) /\
    st_code st = codes_AlreadyExists.
Proof.
  destruct (grpc_code_of_cause (wrapf "acquire" (Domain ErrLockAlreadyHeld))) as (st&H1&H2&_).
  exists st. done.
Defined.

Lemma leader_hint_roundtrip_witness :
  leaderhint_FromError (toGRPCError (Some (NotLeaderError "127.0.0.1:9001"))) = "127.0.0.1:9001"%string.
Proof. apply (leader_hint_roundtrip "127.0.0.1:9001"). by left. Defined.
