(* ===== verification/Stubs.v ===== *)
(** * The generated gRPC bindings (api/v1/lock_grpc.pb.go)

    The client stubs name a method and hand the request to a connection; the service
    descriptions name a handler per method; the handlers decode the request and call
    the server. The gRPC library between them, which encodes messages and routes a
    method's full name to a registered handler, is the parameter [GrpcLib]. The
    other files let a client's call reach the server's method directly; here this is
    shown to be what the bindings do. *)

From S2P Require Import Prelude GoTime Errors Domain Raftlog Fsm RaftFsm LeaseTracker LockQueue Node Service Solo Transport.

(** ** Messages as the library sees them *)

Inductive message :=
| MCreateLeaseRequest (m : pb_CreateLeaseRequest)
| MCreateLeaseResponse (m : pb_CreateLeaseResponse)
| MAcquireLockRequest (m : pb_AcquireLockRequest)
| MAcquireLockResponse (m : pb_AcquireLockResponse)
| MReleaseLockRequest (m : pb_ReleaseLockRequest)
| MReleaseLockResponse (m : pb_ReleaseLockResponse)
| MGetStatusRequest
| MGetStatusResponse (m : pb_GetStatusResponse)
| MJoinNodeRequest (m : pb_JoinNodeRequest)
| MJoinNodeResponse (m : pb_JoinNodeResponse)
| MRemoveNodeRequest (m : pb_RemoveNodeRequest)
| MRemoveNodeResponse (m : pb_RemoveNodeResponse).

(** The type of an [interface{}] value, and the assertion that it is of that type. *)
Class Proto (A : Type) := {
  pack : A -> message;
  unpack : message -> option A;
  unpack_pack : forall a, unpack (pack a) = Some a
}.

#[export] Instance proto_CreateLeaseRequest : Proto pb_CreateLeaseRequest.
Proof. by refine {| pack := MCreateLeaseRequest; unpack m := match m with MCreateLeaseRequest m => Some m | _ => None end |}. Defined.
#[export] Instance proto_CreateLeaseResponse : Proto pb_CreateLeaseResponse.
Proof. by refine {| pack := MCreateLeaseResponse; unpack m := match m with MCreateLeaseResponse m => Some m | _ => None end |}. Defined.
#[export] Instance proto_AcquireLockRequest : Proto pb_AcquireLockRequest.
Proof. by refine {| pack := MAcquireLockRequest; unpack m := match m with MAcquireLockRequest m => Some m | _ => None end |}. Defined.
#[export] Instance proto_AcquireLockResponse : Proto pb_AcquireLockResponse.
Proof. by refine {| pack := MAcquireLockResponse; unpack m := match m with MAcquireLockResponse m => Some m | _ => None end |}. Defined.
#[export] Instance proto_ReleaseLockRequest : Proto pb_ReleaseLockRequest.
Proof. by refine {| pack := MReleaseLockRequest; unpack m := match m with MReleaseLockRequest m => Some m | _ => None end |}. Defined.
#[export] Instance proto_ReleaseLockResponse : Proto pb_ReleaseLockResponse.
Proof. by refine {| pack := MReleaseLockResponse; unpack m := match m with MReleaseLockResponse m => Some m | _ => None end |}. Defined.
#[export] Instance proto_GetStatusRequest : Proto unit.
Proof. refine {| pack _ := MGetStatusRequest; unpack m := match m with MGetStatusRequest => Some tt | _ => None end |}. by intros []. Defined.
#[export] Instance proto_GetStatusResponse : Proto pb_GetStatusResponse.
Proof. by refine {| pack := MGetStatusResponse; unpack m := match m with MGetStatusResponse m => Some m | _ => None end |}. Defined.
#[export] Instance proto_JoinNodeRequest : Proto pb_JoinNodeRequest.
Proof. by refine {| pack := MJoinNodeRequest; unpack m := match m with MJoinNodeRequest m => Some m | _ => None end |}. Defined.
#[export] Instance proto_JoinNodeResponse : Proto pb_JoinNodeResponse.
Proof. by refine {| pack := MJoinNodeResponse; unpack m := match m with MJoinNodeResponse m => Some m | _ => None end |}. Defined.
#[export] Instance proto_RemoveNodeRequest : Proto pb_RemoveNodeRequest.
Proof. by refine {| pack := MRemoveNodeRequest; unpack m := match m with MRemoveNodeRequest m => Some m | _ => None end |}. Defined.
#[export] Instance proto_RemoveNodeResponse : Proto pb_RemoveNodeResponse.
Proof. by refine {| pack := MRemoveNodeResponse; unpack m := match m with MRemoveNodeResponse m => Some m | _ => None end |}. Defined.

(** ** Names *)

Definition LockService_CreateLease_FullMethodName : string := "/clavis.v1.LockService/CreateLease".
Definition LockService_Heartbeat_FullMethodName : string := "/clavis.v1.LockService/Heartbeat".
Definition LockService_AcquireLock_FullMethodName : string := "/clavis.v1.LockService/AcquireLock".
Definition LockService_ReleaseLock_FullMethodName : string := "/clavis.v1.LockService/ReleaseLock".
Definition LockService_GetStatus_FullMethodName : string := "/clavis.v1.LockService/GetStatus".
Definition AdminService_GetStatus_FullMethodName : string := "/clavis.v1.AdminService/GetStatus".
Definition AdminService_JoinNode_FullMethodName : string := "/clavis.v1.AdminService/JoinNode".
Definition AdminService_RemoveNode_FullMethodName : string := "/clavis.v1.AdminService/RemoveNode".

Definition full_name (service method : string) : string := "/" +:+ service +:+ "/" +:+ method.

Section stubs.
Context {RO : RangeOrder} {PC : ProtoCodec} {RL : RaftLib}.

(** ** Servers *)

(** A method of the server: it runs on the node at the time of the call, and gives
    a result, or a call that waits for a lock. *)
Definition action (A : Type) : Type := Node -> Time -> Node * (result error A + wait_call).
Definition amap {A B} (f : result error A -> result error B) (x : action A) : action B :=
  fun n now => match x n now with (n, inl r) => (n, inl (f r)) | (n, inr c) => (n, inr c) end.

(** What the stream handler does with the events of its stream. *)
Definition stream_handler : Type :=
  Node -> list stream_event -> option (Node * list pb_HeartbeatResponse * option (option error)).

Record LockServiceServer := {
  ls_CreateLease : pb_CreateLeaseRequest -> action pb_CreateLeaseResponse;
  ls_Heartbeat : stream_handler;
  ls_AcquireLock : pb_AcquireLockRequest -> action pb_AcquireLockResponse;
  ls_ReleaseLock : pb_ReleaseLockRequest -> action pb_ReleaseLockResponse;
  ls_GetStatus : unit -> action pb_GetStatusResponse
}.
Record AdminServiceServer := {
  as_GetStatus : unit -> action pb_GetStatusResponse;
  as_JoinNode : pb_JoinNodeRequest -> action pb_JoinNodeResponse;
  as_RemoveNode : pb_RemoveNodeRequest -> action pb_RemoveNodeResponse
}.

Definition unimplemented (method : string) : error :=
  status_Error codes_Unimplemented ("method " +:+ method +:+ " not implemented").
Definition refuse {A B} (method : string) (_ : A) : action B := fun n _ => (n, inl (Err (unimplemented method))).

Definition UnimplementedLockServiceServer : LockServiceServer := {|
  ls_CreateLease := refuse "CreateLease";
  ls_Heartbeat n _ := Some (n, [], Some (Some (unimplemented "Heartbeat")));
  ls_AcquireLock := refuse "AcquireLock";
  ls_ReleaseLock := refuse "ReleaseLock";
  ls_GetStatus := refuse "GetStatus"
|}.
Definition UnimplementedAdminServiceServer : AdminServiceServer := {|
  as_GetStatus := refuse "GetStatus";
  as_JoinNode := refuse "JoinNode";
  as_RemoveNode := refuse "RemoveNode"
|}.

(** ** Handlers *)

(** What [dec] decodes, at the type the handler asks for. *)
Definition decoder : Type := forall A, Proto A -> result error A.

(** An interceptor gets the request, the full name, and the continuation, which
    panics ([None]) when it is passed a request of another type. *)
Definition UnaryServerInterceptor : Type :=
  message -> string -> (message -> option (action message)) -> action message.
Definition unary_handler : Type := decoder -> option UnaryServerInterceptor -> action message.

Definition reply {A} `{Proto A} : result error A -> result error message :=
  fun r => match r with Ok a => Ok (pack a) | Err err => Err err end.

(** The body that all unary handlers share. *)
Definition unary {A B} `{Proto A, Proto B} (fullMethod : string) (call : A -> action B) : unary_handler :=
  fun dec interceptor =>
    match dec A _ with
    | Err err => fun n _ => (n, inl (Err err))
    | Ok in_ =>
      match interceptor with
      | None => amap reply (call in_)
      | Some intercept => intercept (pack in_) fullMethod (fun req => (fun r => amap reply (call r)) <$> unpack req)
      end
    end.

Definition LockService_CreateLease_Handler (srv : LockServiceServer) : unary_handler :=
  unary LockService_CreateLease_FullMethodName (ls_CreateLease srv).
Definition LockService_Heartbeat_Handler (srv : LockServiceServer) : stream_handler := ls_Heartbeat srv.
Definition LockService_AcquireLock_Handler (srv : LockServiceServer) : unary_handler :=
  unary LockService_AcquireLock_FullMethodName (ls_AcquireLock srv).
Definition LockService_ReleaseLock_Handler (srv : LockServiceServer) : unary_handler :=
  unary LockService_ReleaseLock_FullMethodName (ls_ReleaseLock srv).
Definition LockService_GetStatus_Handler (srv : LockServiceServer) : unary_handler :=
  unary LockService_GetStatus_FullMethodName (ls_GetStatus srv).
Definition AdminService_GetStatus_Handler (srv : AdminServiceServer) : unary_handler :=
  unary AdminService_GetStatus_FullMethodName (as_GetStatus srv).
Definition AdminService_JoinNode_Handler (srv : AdminServiceServer) : unary_handler :=
  unary AdminService_JoinNode_FullMethodName (as_JoinNode srv).
Definition AdminService_RemoveNode_Handler (srv : AdminServiceServer) : unary_handler :=
  unary AdminService_RemoveNode_FullMethodName (as_RemoveNode srv).

(** ** Service descriptions *)

Record StreamDesc (H : Type) := mkStreamDesc {
  StreamName : string; StreamHandler : H; ServerStreams : bool; ClientStreams : bool }.
Arguments mkStreamDesc {H}. Arguments StreamName {H}. Arguments StreamHandler {H}.
Record ServiceDesc (Srv : Type) := mkServiceDesc {
  ServiceName : string;
  Methods : list (string * (Srv -> unary_handler));
  Streams : list (StreamDesc (Srv -> stream_handler));
  Metadata : string
}.
Arguments mkServiceDesc {Srv}. Arguments ServiceName {Srv}. Arguments Methods {Srv}. Arguments Streams {Srv}.

Definition LockService_ServiceDesc : ServiceDesc LockServiceServer :=
  mkServiceDesc "clavis.v1.LockService"
    [("CreateLease", LockService_CreateLease_Handler); ("AcquireLock", LockService_AcquireLock_Handler);
     ("ReleaseLock", LockService_ReleaseLock_Handler); ("GetStatus", LockService_GetStatus_Handler)]%string
    [mkStreamDesc "Heartbeat" LockService_Heartbeat_Handler true true]
    "lock.proto".
Definition AdminService_ServiceDesc : ServiceDesc AdminServiceServer :=
  mkServiceDesc "clavis.v1.AdminService"
    [("GetStatus", AdminService_GetStatus_Handler); ("JoinNode", AdminService_JoinNode_Handler);
     ("RemoveNode", AdminService_RemoveNode_Handler)]%string
    [] "lock.proto".

(** A description together with the server it was registered for. *)
Record service := mkService {
  svc_name : string;
  svc_methods : list (string * unary_handler);
  svc_streams : list (string * stream_handler)
}.
Definition bind_service {Srv} (desc : ServiceDesc Srv) (srv : Srv) : service :=
  mkService (ServiceName desc) (prod_map id (fun h => h srv) <$> Methods desc)
    ((fun d => (StreamName d, StreamHandler d srv)) <$> Streams desc).

(** ** google.golang.org/grpc *)

(** Every method and stream of the registered services, under its full name. *)
Definition routes (services : list service) : list (string * (unary_handler + stream_handler)) :=
  services ≫= (fun v => (prod_map (full_name (svc_name v)) inl <$> svc_methods v) ++
                        (prod_map (full_name (svc_name v)) inr <$> svc_streams v)).

(** What the messages look like on the wire; the server's table of services; how an
    error of a handler arrives at the client: a status arrives as it is. A full name
    that names one registered method or stream is routed to it. *)
Class GrpcLib := {
  wire : Type;
  encode : message -> result error wire;
  decode : forall A, Proto A -> wire -> result error A;
  decode_encode : forall A (P : Proto A) (a : A) b, encode (pack a) = Ok b -> decode A P b = Ok a;
  transmit : error -> error;
  transmit_status : forall st, transmit (StatusError st) = StatusError st;
  CallOption : Type;
  StaticMethod : CallOption;
  GServer : Type;
  NewServer : GServer;
  RegisterService : GServer -> service -> GServer;
  registered : GServer -> list service;
  route : GServer -> string -> option (unary_handler + stream_handler);
  registered_new : registered NewServer = [];
  registered_more : forall s v, svc_name v ∉ svc_name <$> registered s -> registered (RegisterService s v) = registered s ++ [v];
  route_registered : forall s name h, NoDup (routes (registered s)).*1 -> (name, h) ∈ routes (registered s) -> route s name = Some h
}.

(** A connection: unary calls and streams, by full name. *)
Record ClientConn {GL : GrpcLib} := {
  Invoke : string -> message -> list CallOption -> forall B, Proto B -> action B;
  NewStream : string -> string -> list CallOption -> result error stream_handler
}.

Section library.
Context {GL : GrpcLib}.

(** ** Registration *)

Definition RegisterLockServiceServer (s : GServer) (srv : LockServiceServer) : GServer :=
  RegisterService s (bind_service LockService_ServiceDesc srv).
Definition RegisterAdminServiceServer (s : GServer) (srv : AdminServiceServer) : GServer :=
  RegisterService s (bind_service AdminService_ServiceDesc srv).

(** ** Client stubs *)

Definition stub_call {A B} `{Proto A, Proto B} (cc : ClientConn) (fullMethod : string) (in_ : A) (opts : list CallOption) : action B :=
  Invoke cc fullMethod (pack in_) ([StaticMethod] ++ opts) B _.

Definition LockClient_CreateLease (cc : ClientConn) (in_ : pb_CreateLeaseRequest) opts : action pb_CreateLeaseResponse :=
  stub_call cc LockService_CreateLease_FullMethodName in_ opts.
Definition LockClient_Heartbeat (cc : ClientConn) opts : result error stream_handler :=
  NewStream cc (default ""%string (StreamName <$> head (Streams LockService_ServiceDesc)))
    LockService_Heartbeat_FullMethodName ([StaticMethod] ++ opts).
Definition LockClient_AcquireLock (cc : ClientConn) (in_ : pb_AcquireLockRequest) opts : action pb_AcquireLockResponse :=
  stub_call cc LockService_AcquireLock_FullMethodName in_ opts.
Definition LockClient_ReleaseLock (cc : ClientConn) (in_ : pb_ReleaseLockRequest) opts : action pb_ReleaseLockResponse :=
  stub_call cc LockService_ReleaseLock_FullMethodName in_ opts.
Definition LockClient_GetStatus (cc : ClientConn) (in_ : unit) opts : action pb_GetStatusResponse :=
  stub_call cc LockService_GetStatus_FullMethodName in_ opts.
Definition AdminClient_GetStatus (cc : ClientConn) (in_ : unit) opts : action pb_GetStatusResponse :=
  stub_call cc AdminService_GetStatus_FullMethodName in_ opts.
Definition AdminClient_JoinNode (cc : ClientConn) (in_ : pb_JoinNodeRequest) opts : action pb_JoinNodeResponse :=
  stub_call cc AdminService_JoinNode_FullMethodName in_ opts.
Definition AdminClient_RemoveNode (cc : ClientConn) (in_ : pb_RemoveNodeRequest) opts : action pb_RemoveNodeResponse :=
  stub_call cc AdminService_RemoveNode_FullMethodName in_ opts.

(** ** From a stub to the server *)

(** A reply or an error on its way back. *)
Definition receive (B : Type) (P : Proto B) (r : result error message) : result error B :=
  match r with
  | Err err => Err (transmit err)
  | Ok m => match encode m with Ok b => decode B P b | Err err => Err (transmit err) end
  end.
Definition sent {B} `{Proto B} (r : result error B) : result error B :=
  match r with
  | Err err => Err (transmit err)
  | Ok a => match encode (pack a) with Ok _ => Ok a | Err err => Err (transmit err) end
  end.

(** [cc] is connected to [s], which has no interceptors, and no message is lost. *)
Record connected (s : GServer) (cc : ClientConn) : Prop := {
  con_unary : forall A (PA : Proto A) (a : A) b name h opts B PB n now,
    encode (pack a) = Ok b -> route s name = Some (inl h) ->
    Invoke cc name (pack a) opts B PB n now = amap (receive B PB) (h (fun A' P' => decode A' P' b) None) n now;
  con_stream : forall stream name h opts, route s name = Some (inr h) -> NewStream cc stream name opts = Ok h
}.

Section call.
Context (lsrv : LockServiceServer) (asrv : AdminServiceServer).
Definition both_services : GServer := RegisterAdminServiceServer (RegisterLockServiceServer NewServer lsrv) asrv.

Lemma both_registered :
  registered both_services = [bind_service LockService_ServiceDesc lsrv; bind_service AdminService_ServiceDesc asrv].
Proof.
  unfold both_services, RegisterAdminServiceServer, RegisterLockServiceServer.
  assert (H1 : registered (RegisterService NewServer (bind_service LockService_ServiceDesc lsrv)) = [bind_service LockService_ServiceDesc lsrv]).
  { rewrite registered_more; rewrite registered_new; [done|]. by intros ?%elem_of_nil. }
  rewrite registered_more; rewrite H1; [done|]. by intros [=]%list_elem_of_singleton.
Qed.

Lemma both_route name h :
  (name, h) ∈ routes [bind_service LockService_ServiceDesc lsrv; bind_service AdminService_ServiceDesc asrv] ->
  route both_services name = Some h.
Proof.
  intros Hin. apply route_registered; rewrite both_registered; [|done].
  change (NoDup [LockService_CreateLease_FullMethodName; LockService_AcquireLock_FullMethodName;
    LockService_ReleaseLock_FullMethodName; LockService_GetStatus_FullMethodName; LockService_Heartbeat_FullMethodName;
    AdminService_GetStatus_FullMethodName; AdminService_JoinNode_FullMethodName; AdminService_RemoveNode_FullMethodName]).
  by apply (bool_decide_unpack (NoDup _)).
Qed.

Lemma stub_reaches {A B} `{PA : Proto A, PB : Proto B} cc name (call : A -> action B) (a : A) b opts n now :
  connected both_services cc -> encode (pack a) = Ok b -> route both_services name = Some (inl (unary name call)) ->
  stub_call cc name a opts n now = amap sent (call a) n now.
Proof.
  intros Hcc Hb Hr. unfold stub_call. rewrite (con_unary _ _ Hcc _ PA a b name _ _ _ _ _ _ Hb Hr).
  unfold unary, amap. rewrite (decode_encode _ _ _ _ Hb). destruct (call a n now) as [n' [[r|err]|c]]; try done.
  cbn. destruct (encode (pack r)) as [b'|] eqn:Hb'; [|done]. by rewrite (decode_encode _ _ _ _ Hb').
Qed.
End call.

(** ** The program's server *)

Context {GS : GrpcStatus}.

(** [grpcserver.Server] embeds the unimplemented servers and redefines all methods. *)
Definition grpc_LockServer : LockServiceServer := {|
  ls_CreateLease req n now := let '(n, r) := Server_CreateLease n req now in (n, inl r);
  ls_Heartbeat := Server_Heartbeat;
  ls_AcquireLock req n now := Server_AcquireLock n req now;
  ls_ReleaseLock req n _ := let '(n, r) := Server_ReleaseLock n req in (n, inl r);
  ls_GetStatus _ n _ := (n, inl (Ok (Server_GetStatus n)))
|}.
Definition grpc_AdminServer : AdminServiceServer := {|
  as_GetStatus _ n _ := (n, inl (Ok (Server_GetStatus n)));
  as_JoinNode req n _ := let '(n, r) := Server_JoinNode n req in (n, inl r);
  as_RemoveNode req n _ := let '(n, r) := Server_RemoveNode n req in (n, inl r)
|}.

(** What [NewRuntime] serves. *)
Definition grpcServer : GServer := both_services grpc_LockServer grpc_AdminServer.

(** The errors of the handlers are statuses: the client gets them unchanged. *)
Lemma failed_arrives {A} `{Proto A} (err : error) : sent (failed (A := A) err) = failed err.
Proof.
  destruct (grpc_code_of_cause err) as (st&Hst&_). unfold failed. rewrite Hst. cbn. by rewrite transmit_status.
Qed.

(** C38: calling a method of a client stub is calling that method of the server.
    Over a connection to the server of [NewRuntime], for requests that can be
    encoded, each stub's full name leads to the handler of its own method on its own
    service: the node, the reply and the error are those of the server's method,
    errors arriving unchanged; and the heartbeat stub opens a stream that the
    server's heartbeat loop serves. *)
Theorem stubs_reach_handlers (cc : ClientConn) (Hcc : connected grpcServer cc) (n : Node) (now : Time) (opts : list CallOption)
    (req1 : pb_CreateLeaseRequest) (req2 : pb_AcquireLockRequest) (req3 : pb_ReleaseLockRequest)
    (req4 : pb_JoinNodeRequest) (req5 : pb_RemoveNodeRequest)
    (Henc : Forall (fun m => exists b, encode m = Ok b) [pack req1; pack req2; pack req3; pack req4; pack req5; pack tt]) :
  LockClient_CreateLease cc req1 opts n now = (let '(n, r) := Server_CreateLease n req1 now in (n, inl (sent r))) /\
  LockClient_AcquireLock cc req2 opts n now =
    (match Server_AcquireLock n req2 now with (n, inl r) => (n, inl (sent r)) | (n, inr c) => (n, inr c) end) /\
  LockClient_ReleaseLock cc req3 opts n now = (let '(n, r) := Server_ReleaseLock n req3 in (n, inl (sent r))) /\
  AdminClient_JoinNode cc req4 opts n now = (let '(n, r) := Server_JoinNode n req4 in (n, inl (sent r))) /\
  AdminClient_RemoveNode cc req5 opts n now = (let '(n, r) := Server_RemoveNode n req5 in (n, inl (sent r))) /\
  LockClient_GetStatus cc tt opts n now = (n, inl (sent (Ok (Server_GetStatus n)))) /\
  AdminClient_GetStatus cc tt opts n now = (n, inl (sent (Ok (Server_GetStatus n)))) /\
  LockClient_Heartbeat cc opts = Ok Server_Heartbeat /\
  (forall A (P : Proto A) err, sent (failed (A := A) err) = failed err).
Proof.
  rewrite !Forall_cons_iff in Henc. destruct Henc as ([b1 E1]&[b2 E2]&[b3 E3]&[b4 E4]&[b5 E5]&[b6 E6]&_).
  assert (Hr : forall k name h, routes [bind_service LockService_ServiceDesc grpc_LockServer;
    bind_service AdminService_ServiceDesc grpc_AdminServer] !! k = Some (name, h) -> route grpcServer name = Some h)
    by (intros k name h Hk; by eapply both_route, list_elem_of_lookup_2).
  split_and!; [..|by intros; apply failed_arrives].
  - etransitivity; [by eapply (stub_reaches _ _ _ _ (ls_CreateLease grpc_LockServer)), (Hr 0%nat)|].
    unfold amap; cbn. by destruct (Server_CreateLease n req1 now).
  - by eapply (stub_reaches _ _ _ _ (ls_AcquireLock grpc_LockServer)), (Hr 1%nat).
  - etransitivity; [by eapply (stub_reaches _ _ _ _ (ls_ReleaseLock grpc_LockServer)), (Hr 2%nat)|].
    unfold amap; cbn. by destruct (Server_ReleaseLock n req3).
  - etransitivity; [by eapply (stub_reaches _ _ _ _ (as_JoinNode grpc_AdminServer)), (Hr 6%nat)|].
    unfold amap; cbn. by destruct (Server_JoinNode n req4).
  - etransitivity; [by eapply (stub_reaches _ _ _ _ (as_RemoveNode grpc_AdminServer)), (Hr 7%nat)|].
    unfold amap; cbn. by destruct (Server_RemoveNode n req5).
  - by eapply (stub_reaches _ _ _ _ (ls_GetStatus grpc_LockServer)), (Hr 3%nat).
  - by eapply (stub_reaches _ _ _ _ (as_GetStatus grpc_AdminServer)), (Hr 5%nat).
  - by apply (con_stream _ _ Hcc), (Hr 4%nat).
Qed.
End library.
End stubs.

(** ** A concrete library

    Messages travel as they are, a status or any other error too; a full name is
    looked up in the table of routes. *)

Fixpoint find_route {H : Type} (table : list (string * H)) (name : string) : option H :=
  match table with
  | [] => None
  | (name', h) :: table => if String.eqb name' name then Some h else find_route table name
  end.

Lemma find_route_ok {H : Type} (table : list (string * H)) name h : NoDup table.*1 -> (name, h) ∈ table -> find_route table name = Some h.
Proof.
  induction table as [|[name' h'] table IH]; intros Hnd Hin; [by apply elem_of_nil in Hin|]. cbn in *.
  apply list.NoDup_cons in Hnd as [Hni Hnd]. apply elem_of_cons in Hin as [[= -> ->]|Hin]; [by rewrite String.eqb_refl|].
  destruct (String.eqb_spec name' name) as [->|_]; [|by apply IH]. destruct Hni. by apply (list_elem_of_fmap_2 fst _ (name, h)).
Qed.

#[local] Instance direct_lib : @GrpcLib id_codec solo_raft := {|
  wire := message;
  encode := Ok;
  decode A P m := match unpack m with Some a => Ok a | None => Err (status_Error codes_Internal "wrong type") end;
  decode_encode A P a b H := ltac:(by injection H as <-; rewrite unpack_pack);
  transmit err := err;
  transmit_status st := eq_refl;
  CallOption := unit;
  StaticMethod := tt;
  GServer := list service;
  NewServer := [];
  RegisterService s v := s ++ [v];
  registered s := s;
  route s name := find_route (routes s) name;
  registered_new := eq_refl;
  registered_more s v H := eq_refl;
  route_registered s name h := find_route_ok (routes s) name h
|}.

Definition direct_conn : @ClientConn id_codec solo_raft direct_lib := {|
  Invoke name m opts B PB n now :=
    match route grpcServer name with
    | Some (inl h) => amap (receive B PB) (h (fun A P => decode A P m) None) n now
    | _ => (n, inl (Err (unimplemented name)))
    end;
  NewStream stream name opts :=
    match route grpcServer name with Some (inr h) => Ok h | _ => Err (unimplemented name) end
|}.

Lemma direct_connected : connected grpcServer direct_conn.
Proof.
  split.
  - intros A PA a b name h opts B PB n now [= <-] Hr. cbn. cbn in Hr. by rewrite Hr.
  - intros stream name h opts Hr. cbn. cbn in Hr. by rewrite Hr.
Qed.

Lemma stubs_reach_handlers_witness :
  LockClient_GetStatus direct_conn tt [] (solo_node NewFSM) (solo_time 0) =
    (solo_node NewFSM, inl (Ok (Server_GetStatus (solo_node NewFSM)))) /\
  LockClient_Heartbeat direct_conn [] = Ok Server_Heartbeat.
Proof.
  destruct (stubs_reach_handlers direct_conn direct_connected (solo_node NewFSM) (solo_time 0) []
    (pb_mkCreateLeaseRequest "worker" 10) (pb_mkAcquireLockRequest "db" "worker" 1 false) (pb_mkReleaseLockRequest "db" 1)
    (pb_mkJoinNodeRequest "node-2" "127.0.0.1:7001" "127.0.0.1:9001") (pb_mkRemoveNodeRequest "node-2"))
    as (_&_&_&_&_&H1&_&H2&_); [repeat constructor; by eexists|]. by split.
Defined.
