(* ===== verification/Admin.v ===== *)
(** * Administrative calls (internal/app/admin.go)

    The command line's join and remove requests, sent to the leader. What an
    attempt meets (the context, the connection, the server) is an input of the
    loop; the servers' state is threaded through it. *)

From S2P Require Import Prelude GoTime Errors Domain Raftlog Fsm RaftFsm LeaseTracker LockQueue Node Service.
From S2P Require Import Transport Solo.

Section admin.
Context {GS : GrpcStatus} {S T : Type}.

(** One pass of the loop: the context's error at its top, what connecting to an
    address returns, the call, and the context's error if it ends the wait. *)
Record admin_attempt := mkAdminAttempt {
  aa_ctx : option error;
  aa_dial : string -> option error;
  aa_op : S -> string -> S * result error T;
  aa_wait : option error
}.

(** [None]: the timer fired. *)
Definition waitForRetry (ctxDone : option error) : option error := ctxDone.

(** What the loop did: the addresses called, in order, and how often it slept. *)
Record admin_trace := mkTrace { tr_calls : list string; tr_sleeps : nat }.
Definition called (a : string) (t : admin_trace) : admin_trace := mkTrace (a :: tr_calls t) (tr_sleeps t).
Definition slept (t : admin_trace) : admin_trace := mkTrace (tr_calls t) (Datatypes.S (tr_sleeps t)).
Definition idle : admin_trace := mkTrace [] 0.

(** [n] more passes; [env i] is what pass [i] meets. *)
Fixpoint callLoop (n : nat) (env : nat -> admin_attempt) (i : nat) (st : S) (target : string) (lastErr : option error)
    : S * admin_trace * result error T :=
  match n with
  | O => (st, idle, Err (default (Errorf "no reachable leader") lastErr))
  | Datatypes.S n =>
    let e := env i in
    match aa_ctx e with
    | Some err => (st, idle, Err err)
    | None =>
      match aa_dial e target with
      | Some err =>
        match waitForRetry (aa_wait e) with
        | Some err => (st, slept idle, Err err)
        | None =>
          let '(st, t, r) := callLoop n env (i + 1) st target (Some (wrapf "connect to cluster" err)) in (st, slept t, r)
        end
      | None =>
        let '(st, r) := aa_op e st target in
        match r with
        | Ok resp => (st, called target idle, Ok resp)
        | Err err =>
          let leaderAddr := leaderhint_FromError (Some err) in
          if negb (String.eqb leaderAddr "") then
            let '(st, t, r) := callLoop n env (i + 1) st leaderAddr (Some err) in (st, called target t, r)
          else
            match waitForRetry (aa_wait e) with
            | Some err => (st, called target (slept idle), Err err)
            | None =>
              let '(st, t, r) := callLoop n env (i + 1) st target (Some err) in (st, called target (slept t), r)
            end
        end
      end
    end
  end.

Definition callLeader (env : nat -> admin_attempt) (st : S) (addr : string) : S * admin_trace * result error T :=
  callLoop 10 env 0 st addr None.
End admin.

Arguments admin_attempt : clear implicits.

Section admin_calls.
Context {GS : GrpcStatus} {RO : RangeOrder} {PC : ProtoCodec} {RL : RaftLib}.

(** The servers, by client address; an address without a server does not answer. *)
Abbreviation servers := (gmap string Node).

Definition at_server {T} (f : Node -> Node * result error T) (st : servers) (addr : string)
    : servers * result error T :=
  match st !! addr with
  | None => (st, Err (status_Error codes_Unavailable "connection refused"))
  | Some n => let '(n, r) := f n in (<[addr := n]> st, r)
  end.

(** What the environment adds to a call of a server: the context and the network. *)
Record admin_net := mkAdminNet {
  an_ctx : option error;
  an_dial : string -> option error;
  an_lost : string -> option error;        (* the call fails without an answer *)
  an_wait : option error
}.

Definition admin_env {T} (net : nat -> admin_net) (f : Node -> Node * result error T) (i : nat)
    : admin_attempt servers T :=
  mkAdminAttempt (an_ctx (net i)) (an_dial (net i))
    (fun st addr => match an_lost (net i) addr with
       | Some err => (st, Err err)
       | None => at_server f st addr
       end) (an_wait (net i)).

Definition RemoveClusterNode (net : nat -> admin_net) (st : servers) (clusterAddr nodeID : string)
    : servers * admin_trace * option error :=
  let '(st, t, r) := callLeader (admin_env net (fun n => Server_RemoveNode n (pb_mkRemoveNodeRequest nodeID))) st clusterAddr in
  (st, t, match r with Ok _ => None | Err err => Some (wrapf "remove node" err) end).

Definition JoinCluster (net : nat -> admin_net) (st : servers) (clusterAddr : string) (member : pb_JoinNodeRequest)
    : servers * admin_trace * option error :=
  let '(st, t, r) := callLeader (admin_env net (fun n => Server_JoinNode n member)) st clusterAddr in
  (st, t, match r with Ok _ => None | Err err => Some (wrapf "join cluster" err) end).
End admin_calls.

(** ** Proofs *)

Section admin_props.
Context {GS : GrpcStatus} {S T : Type}.

(** From [st], calling the addresses of [hops] in passes [i], [i+1], ... is
    redirected from each to the next, and [r] is the answer of the last one. *)
Inductive chases (env : nat -> admin_attempt S T) : nat -> S -> list string -> S -> T -> Prop :=
| chase_leader i st a st' r :
    aa_ctx (env i) = None -> aa_dial (env i) a = None -> aa_op (env i) st a = (st', Ok r) ->
    chases env i st [a] st' r
| chase_redirect i st a st1 err b hops st' r :
    aa_ctx (env i) = None -> aa_dial (env i) a = None -> aa_op (env i) st a = (st1, Err err) ->
    leaderhint_FromError (Some err) = b -> b <> ""%string ->
    chases env (i + 1) st1 (b :: hops) st' r ->
    chases env i st (a :: b :: hops) st' r.

Lemma callLoop_chase env hops : forall n i st st' r last, (length hops <= n)%nat ->
  chases env i st hops st' r ->
  callLoop n env i st (default ""%string (head hops)) last = (st', mkTrace hops 0, Ok r).
Proof.
  induction hops as [|a hops IH]; intros n i st st' r last Hn Hc; inversion Hc; subst;
    (destruct n as [|n]; [simpl in Hn; lia|]); cbn -[leaderhint_FromError] in *.
  - by repeat (match goal with H : _ = _ |- _ => rewrite H; clear H end).
  - match goal with H : aa_ctx _ = _ |- _ => rewrite H end.
    match goal with H : aa_dial _ _ = _ |- _ => rewrite H end.
    match goal with H : aa_op _ _ _ = _ |- _ => rewrite H end.
    destruct (String.eqb_spec (leaderhint_FromError (Some err)) ""); [done|]. cbn -[leaderhint_FromError].
    rewrite (IH n (i + 1)%nat st1 st' r (Some err)); [done|simpl; lia|done].
Qed.

(** The errors an attempt can end the loop with. *)
Definition ctx_error (env : nat -> admin_attempt S T) (i : nat) (err : error) : Prop :=
  aa_ctx (env i) = Some err \/ aa_wait (env i) = Some err.
(** The error of a failed attempt: connecting, or the call. *)
Definition attempt_error (env : nat -> admin_attempt S T) (i : nat) (err : error) : Prop :=
  (exists a e, aa_dial (env i) a = Some e /\ err = wrapf "connect to cluster" e) \/
  (exists st a st', aa_op (env i) st a = (st', Err err)).

(** The end of a loop of [n] passes from pass [i]. *)
Definition loop_end (env : nat -> admin_attempt S T) (n i : nat) (last : option error) (st' : S) (t : admin_trace)
    (r : result error T) : Prop :=
  (length (tr_calls t) <= n)%nat /\ (tr_sleeps t <= n)%nat /\
  match r with
  | Ok resp => exists j a st1, (i <= j < i + n)%nat /\ list.last (tr_calls t) = Some a /\ aa_op (env j) st1 a = (st', Ok resp)
  | Err err => (exists j, (i <= j < i + n)%nat /\ ctx_error env j err) \/
      (exists m, n = Datatypes.S m /\ attempt_error env (i + m) err) \/
      (n = 0%nat /\ err = default (Errorf "no reachable leader") last)
  end.

Lemma last_cons_some {A} (x y : A) l : list.last l = Some y -> list.last (x :: l) = Some y.
Proof. by destruct l. Qed.

(** A pass that failed with [err], then the rest. *)
Lemma loop_end_next env n i last err st' (t t' : admin_trace) r :
  attempt_error env i err ->
  loop_end env n (i + 1) (Some err) st' t r ->
  (length (tr_calls t') <= 1 + length (tr_calls t))%nat -> (tr_sleeps t' <= 1 + tr_sleeps t)%nat ->
  (exists pre, tr_calls t' = pre ++ tr_calls t) ->
  loop_end env (Datatypes.S n) i last st' t' r.
Proof.
  intros Ha (Hc&Hs&Hr) Hc' Hs' [pre Hpre]. split_and!; [lia|lia|]. destruct r as [resp|e].
  - destruct Hr as (j&a&st1&?&Hl&?). exists j, a, st1. split_and!; [lia|lia| |done].
    rewrite Hpre. clear -Hl. induction pre as [|x pre IH]; [done|]. by apply last_cons_some.
  - destruct Hr as [(j&?&?)|[(m&->&?)|[-> ->]]].
    + left. exists j. split; [lia|done].
    + right. left. eexists. split; [done|]. by replace (i + Datatypes.S m)%nat with (i + 1 + m)%nat by lia.
    + right. left. exists 0%nat. split; [done|]. by replace (i + 0)%nat with i by lia.
Qed.

Lemma callLoop_outcome env : forall n i st target last st' t r,
  callLoop n env i st target last = (st', t, r) -> loop_end env n i last st' t r.
Proof.
  induction n as [|n IH]; intros i st target last st' t r; cbn -[leaderhint_FromError].
  { intros [= <- <- <-]. split_and!; simpl; [lia..|]. right. right. done. }
  destruct (aa_ctx (env i)) as [err|] eqn:Ectx.
  { intros [= <- <- <-]. split_and!; simpl; [lia..|]. left. exists i. split; [lia|by left]. }
  destruct (aa_dial (env i) target) as [err|] eqn:Edial.
  - assert (Ha : attempt_error env i (wrapf "connect to cluster" err)) by (left; eauto).
    unfold waitForRetry. destruct (aa_wait (env i)) as [werr|] eqn:Ew.
    { intros [= <- <- <-]. split_and!; simpl; [lia..|]. left. exists i. split; [lia|by right]. }
    destruct (callLoop n env (i + 1) st target _) as [[st1 t1] r1] eqn:E. intros [= <- <- <-].
    apply IH in E. eapply loop_end_next; [done|done|simpl; lia..|by exists []].
  - destruct (aa_op (env i) st target) as [st0 [resp|err]] eqn:Eop.
    { intros [= <- <- <-]. split_and!; simpl; [lia..|]. exists i, target, st. split; [lia|done]. }
    assert (Ha : attempt_error env i err) by (right; eauto).
    destruct (negb _).
    + destruct (callLoop n env (i + 1) st0 _ _) as [[st1 t1] r1] eqn:E. intros [= <- <- <-].
      apply IH in E. eapply loop_end_next; [done|done|simpl; lia..|by exists [target]].
    + unfold waitForRetry. destruct (aa_wait (env i)) as [werr|] eqn:Ew.
      { intros [= <- <- <-]. split_and!; simpl; [lia..|]. left. exists i. split; [lia|by right]. }
      destruct (callLoop n env (i + 1) st0 _ _) as [[st1 t1] r1] eqn:E. intros [= <- <- <-].
      apply IH in E. eapply loop_end_next; [done|done|simpl; lia..|by exists [target]].
Qed.

(** C36: an administrative call ends and chases the leader. It makes at most ten
    calls and ten pauses; on success its answer is the one the last address called
    gave, and nothing is called afterwards; on failure it reports the end of the
    caller's context or the error of the tenth attempt, never the generic message.
    When following at most nine redirects, ten calls in all, leads to a server that
    answers, it succeeds, calling exactly those servers in order without pausing. *)
Theorem admin_call_follows_leader (env : nat -> admin_attempt S T) (st : S) (addr : string) :
  (let '(st', t, r) := callLeader env st addr in
   (length (tr_calls t) <= 10)%nat /\ (tr_sleeps t <= 10)%nat /\
   match r with
   | Ok resp => exists j a st1, (j < 10)%nat /\ list.last (tr_calls t) = Some a /\ aa_op (env j) st1 a = (st', Ok resp)
   | Err err => (exists j, (j < 10)%nat /\ ctx_error env j err) \/ attempt_error env 9 err
   end) /\
  (forall hops st' r, (length hops < 10)%nat -> chases env 0 st (addr :: hops) st' r ->
     callLeader env st addr = (st', mkTrace (addr :: hops) 0, Ok r)).
Proof.
  split.
  - unfold callLeader. destruct (callLoop _ _ _ _ _ _) as [[st' t] r] eqn:E. apply callLoop_outcome in E as (?&?&Hr).
    split_and!; [done..|]. destruct r as [resp|err].
    + destruct Hr as (j&a&st1&?&?&?). exists j, a, st1. split_and!; [lia|done..].
    + destruct Hr as [(j&?&?)|[(m&[= <-]&?)|[? _]]]; [left; exists j; split; [lia|done]|by right|done].
  - intros hops st' r Hn Hc. apply (callLoop_chase env (addr :: hops)); [simpl; lia|done].
Qed.
End admin_props.

Section join_props.
Context {GS : GrpcStatus} {RO : RangeOrder} {PC : ProtoCodec} {RL : RaftLib}.

(** A server admits a member exactly when it leads and adds it. *)
Lemma Server_JoinNode_ok (n n' : Node) req resp : Server_JoinNode n req = (n', Ok resp) ->
  IsLeader n = true /\
  AddClusterMember n (mkMember (pb_JN_NodeId req) (pb_JN_RaftAddress req) (pb_JN_GrpcAddress req)) = (n', None).
Proof.
  unfold Server_JoinNode, JoinNode, ensureLeader. destruct (IsLeader n); simpl.
  - destruct (AddClusterMember n _) as [n1 [err|]] eqn:E; [unfold failed; by case_match|]. by intros [= -> _].
  - unfold failed. by case_match.
Qed.

(** A follower refuses with a redirect that names the leader. *)
Lemma Server_JoinNode_redirect (n : Node) req : IsLeader n = false -> GetLeaderGRPCAddress n <> ""%string ->
  WithDetails (mkStatus codes_Unavailable "not leader" []) (LeaderHint (GetLeaderGRPCAddress n)) <> None ->
  exists err, Server_JoinNode n req = (n, Err err) /\ leaderhint_FromError (Some err) = GetLeaderGRPCAddress n.
Proof.
  intros Hl Ha Hw. unfold Server_JoinNode, JoinNode, ensureLeader. rewrite Hl. simpl.
  exists (leaderhint_Error (GetLeaderGRPCAddress n)). split; [done|]. unfold leaderhint_Error. destruct (String.eqb_spec (GetLeaderGRPCAddress n) ""); [done|].
  destruct (WithDetails _ _) as [st|] eqn:E; [|done]. apply with_details_adds in E as ->.
  unfold leaderhint_FromError. rewrite from_status. cbn. by destruct (String.eqb_spec (GetLeaderGRPCAddress n) "").
Qed.

Definition quiet_net : admin_net := mkAdminNet None (fun _ => None) (fun _ => None) None.

(** C27: joining reaches the leader. A join that succeeds was admitted by a node that
    led and added the member; sent to any follower that knows the leader, whose
    redirect can be encoded, on a working network, it is forwarded and succeeds as
    soon as the leader admits it: the follower is left as it was, the leader is
    changed by the admission alone, with one redirect and no pause. *)
Theorem join_reaches_leader (net : nat -> admin_net) (st : gmap string Node) (addr : string) (member : pb_JoinNodeRequest) :
  (forall st' t, JoinCluster net st addr member = (st', t, None) ->
     exists a n n', list.last (tr_calls t) = Some a /\ st' !! a = Some n' /\ IsLeader n = true /\
       AddClusterMember n (mkMember (pb_JN_NodeId member) (pb_JN_RaftAddress member) (pb_JN_GrpcAddress member)) = (n', None)) /\
  (forall nf nl nl' resp, (forall i, (i < 2)%nat -> net i = quiet_net) ->
     st !! addr = Some nf -> IsLeader nf = false -> GetLeaderGRPCAddress nf <> ""%string ->
     WithDetails (mkStatus codes_Unavailable "not leader" []) (LeaderHint (GetLeaderGRPCAddress nf)) <> None ->
     st !! GetLeaderGRPCAddress nf = Some nl -> Server_JoinNode nl member = (nl', Ok resp) ->
     JoinCluster net st addr member =
       (<[GetLeaderGRPCAddress nf := nl']> st, mkTrace [addr; GetLeaderGRPCAddress nf] 0, None)).
Proof.
  split.
  - intros st' t. unfold JoinCluster, callLeader.
    destruct (callLoop _ _ _ _ _ _) as [[st1 t1] r1] eqn:E. apply callLoop_outcome in E as (_&_&Hr).
    destruct r1 as [resp|]; [|done]. intros [= -> ->]. destruct Hr as (j&a&s0&_&Hlast&Hop). simpl in Hop.
    destruct (an_lost (net j) a); [done|]. unfold at_server in Hop. destruct (s0 !! a) as [n|]; [|done].
    destruct (Server_JoinNode n member) as [n' r] eqn:En. injection Hop as <- ->.
    apply Server_JoinNode_ok in En as [? ?]. exists a, n, n'. by simplify_map_eq.
  - intros nf nl nl' resp Hnet Hf Hlf Hne Hw Hl Hjoin.
    destruct (Server_JoinNode_redirect nf member Hlf Hne Hw) as (err&Herr&Hhint).
    unfold JoinCluster, callLeader.
    rewrite (callLoop_chase _ [addr; GetLeaderGRPCAddress nf] 10 0 st (<[GetLeaderGRPCAddress nf := nl']> st) resp None);
      [done|simpl; lia|].
    assert (Hlne : GetLeaderGRPCAddress nf <> addr).
    { intros Heq. rewrite Heq in Hl. simplify_eq. apply Server_JoinNode_ok in Hjoin as [? _]. congruence. }
    apply (chase_redirect _ 0 st addr st err); [by unfold admin_env; simpl; rewrite Hnet by lia..| |done|done|].
    + unfold admin_env; simpl. rewrite Hnet by lia. simpl. unfold at_server. rewrite Hf, Herr. by rewrite insert_id.
    + apply chase_leader; unfold admin_env; simpl; rewrite Hnet by lia; [done..|]. simpl.
      unfold at_server. by rewrite Hl, Hjoin.
Qed.
End join_props.

(** ** Concrete runs *)

Definition duo_servers : gmap string (@Node id_codec duo_raft) :=
  {["127.0.0.1:9000" := duo_node false; "127.0.0.1:9001" := duo_node true]}%string.
Definition third_member : pb_JoinNodeRequest := pb_mkJoinNodeRequest "node-3" "127.0.0.1:7002" "127.0.0.1:9002".
Definition duo_joined : @Node id_codec duo_raft := (Server_JoinNode (RL := duo_raft) (duo_node true) third_member).1.

Lemma join_reaches_leader_witness :
  JoinCluster (RL := duo_raft) (fun _ => quiet_net) duo_servers "127.0.0.1:9000" third_member =
    (<["127.0.0.1:9001"%string := duo_joined]> duo_servers, mkTrace ["127.0.0.1:9000"; "127.0.0.1:9001"]%string 0, None) /\
  endpoints (fsm duo_joined) !! "node-3"%string = Some "127.0.0.1:9002"%string.
Proof.
  split; [|by vm_compute].
  destruct (join_reaches_leader (RL := duo_raft) (fun _ => quiet_net) duo_servers "127.0.0.1:9000" third_member) as [_ H].
  apply (H (duo_node false) (duo_node true) duo_joined (pb_mkJoinNodeResponse true "127.0.0.1:9001")); try done.
Defined.

Definition two_hops (i : nat) : admin_attempt unit nat :=
  mkAdminAttempt None (fun _ => None)
    (fun st a => (st, if String.eqb a "leader" then Ok 7%nat else Err (leaderhint_Error "leader"))) None.

Lemma admin_call_follows_leader_witness :
  callLeader two_hops tt "follower" = (tt, mkTrace ["follower"; "leader"]%string 0, Ok 7%nat).
Proof.
  destruct (admin_call_follows_leader two_hops tt "follower") as [_ H].
  apply (H ["leader"%string]); [simpl; lia|].
  eapply chase_redirect; [done|done|done|done|done|]. by apply chase_leader.
Defined.
