(* ===== verification/Runtime.v ===== *)
(** * The process runtime (internal/app/runtime.go)

    The runtime owns a node and a gRPC server. [sync.Once] runs its function to the
    end before a second caller gets past it, so a stop request is one step. *)

From S2P Require Import Prelude GoTime Errors Domain Raftlog Fsm RaftFsm LeaseTracker LockQueue Node Solo.

Section runtime.
Context {RO : RangeOrder} {PC : ProtoCodec} {RL : RaftLib}.

Record RuntimeConfig := mkRuntimeConfig {
  rc_NodeID : string;
  rc_RaftAddr : string;
  rc_RaftAdvertiseAddr : string;
  rc_GRPCAddr : string;
  rc_GRPCAdvertiseAddr : string;
  rc_DataDir : string;
  rc_Bootstrap : bool
}.

Record Runtime := mkRuntime {
  rt_node : Node;
  grpcServing : bool;                (* the server accepts calls *)
  stopOnce : bool;                   (* the Once has run *)
  stopErr : option error;
  isStopped : bool
}.

(** What a stop does, in order. *)
Inductive rt_call := GracefulStop | ForceStop | NodeShutdown (c : shutdown_call).

(** [listen] is what [net.Listen] returns for an address; [raftErr] what the Raft
    library's shutdown returns, should the node have to be given up again. *)
Definition NewRuntime (a : Assembly) (listen : string -> option error) (raftErr : option error) (cfg : RuntimeConfig)
    : list rt_call * result error Runtime :=
  match (NewNode a (mkConfig (rc_NodeID cfg) (rc_RaftAddr cfg) (rc_RaftAdvertiseAddr cfg) (rc_DataDir cfg)
                             (rc_Bootstrap cfg) (rc_GRPCAdvertiseAddr cfg))).2 with
  | Err err => ([], Err (wrapf "create raft node" err))
  | Ok (node, _) =>
    match listen (rc_GRPCAddr cfg) with
    | Some err =>
      let '(_, calls, _) := Node_Shutdown node raftErr in
      (NodeShutdown <$> calls, Err (wrapf ("listen on " +:+ rc_GRPCAddr cfg) err))
    | None => ([], Ok (mkRuntime node true false None false))
    end
  end.

(** What arrives on the channel, given what [Serve] returns. *)
Definition Runtime_Start (serve : option error) : option error :=
  match serve with Some err => Some (wrapf "gRPC server failed" err) | None => None end.

(** Which case of the select fires. *)
Inductive drain := Drained | CtxDone (err : error).

Definition Runtime_Stop (r : Runtime) (d : drain) (raftErr : option error) : Runtime * list rt_call * option error :=
  if stopOnce r then (r, [], stopErr r) else
  let '(grpcCalls, stopErr) := match d with
    | Drained => ([GracefulStop], None)
    | CtxDone err => ([GracefulStop; ForceStop], Some err)
    end in
  let '(node, calls, err) := Node_Shutdown (rt_node r) raftErr in
  let stopErr := match err, stopErr with Some e, None => Some e | _, s => s end in
  (mkRuntime node false true stopErr true, grpcCalls ++ (NodeShutdown <$> calls), stopErr).

Definition StopNow (r : Runtime) (raftErr : option error) : Runtime * list rt_call * option error :=
  if stopOnce r then (r, [], stopErr r) else
  let '(node, calls, err) := Node_Shutdown (rt_node r) raftErr in
  (mkRuntime node false true err true, ForceStop :: (NodeShutdown <$> calls), err).

Definition Runtime_stopped (r : Runtime) : bool := isStopped r.
Definition Runtime_Member (r : Runtime) : ClusterMember := SelfMember (rt_node r).

(** ** Proofs *)

(** A request to stop, graceful or not. *)
Inductive stop_request := ReqStop (d : drain) (raftErr : option error) | ReqStopNow (raftErr : option error).
Definition stop (r : Runtime) (req : stop_request) : Runtime * list rt_call * option error :=
  match req with ReqStop d e => Runtime_Stop r d e | ReqStopNow e => StopNow r e end.
Fixpoint stop_all (r : Runtime) (reqs : list stop_request) : Runtime * list rt_call * list (option error) :=
  match reqs with
  | [] => (r, [], [])
  | req :: reqs =>
    let '(r, calls, err) := stop r req in
    let '(r, calls', errs) := stop_all r reqs in (r, calls ++ calls', err :: errs)
  end.

Lemma stop_done r req : stopOnce r = true -> stop r req = (r, [], stopErr r).
Proof. intros H. destruct req; simpl; unfold Runtime_Stop, StopNow; by rewrite H. Qed.

Lemma stop_all_done r reqs : stopOnce r = true -> stop_all r reqs = (r, [], replicate (length reqs) (stopErr r)).
Proof. intros H. induction reqs as [|req reqs IH]; simpl; [done|]. by rewrite stop_done, IH. Qed.

(** The first stop: the server is stopped before the node's shutdown begins. *)
Lemma stop_first r req r' calls err : stopOnce r = false -> stop r req = (r', calls, err) ->
  stopOnce r' = true /\ isStopped r' = true /\ grpcServing r' = false /\ stopErr r' = err /\
  exists grpcCalls nodeCalls e, calls = grpcCalls ++ (NodeShutdown <$> nodeCalls) /\
    grpcCalls ∈ [[GracefulStop]; [GracefulStop; ForceStop]; [ForceStop]] /\
    (rt_node r', nodeCalls, e) = Node_Shutdown (rt_node r) (match req with ReqStop _ x | ReqStopNow x => x end) /\
    (e <> None -> err <> None).
Proof.
  intros H. destruct req as [d x|x]; simpl; unfold Runtime_Stop, StopNow; rewrite H.
  - destruct (Node_Shutdown (rt_node r) x) as [[n cs] e] eqn:E. destruct d as [|cerr]; intros [= <- <- <-]; simpl.
    + split_and!; try done. exists [GracefulStop], cs, e. split_and!; try done; [set_solver|]. by destruct e.
    + split_and!; try done. exists [GracefulStop; ForceStop], cs, e. split_and!; try done; [set_solver|]. by destruct e.
  - destruct (Node_Shutdown (rt_node r) x) as [[n cs] e] eqn:E. intros [= <- <- <-]. simpl. split_and!; try done.
    exists [ForceStop], cs, e. split_and!; try done. set_solver.
Qed.

(** Stopping a runtime is idempotent and orderly. However often and in whatever
    way a running runtime is asked to stop, only the first request acts, and all
    requests return its error: the gRPC server is stopped, by force when the
    caller's context ends first, and only then the node is shut down; the runtime
    no longer serves, and a failed shutdown is never reported as success. *)
Theorem stop_acts_once (r : Runtime) (req : stop_request) (reqs : list stop_request) :
  stopOnce r = false ->
  let '(r', calls, errs) := stop_all r (req :: reqs) in
  errs = replicate (Datatypes.S (length reqs)) (stopErr r') /\
  Runtime_stopped r' = true /\ grpcServing r' = false /\
  exists grpcCalls nodeCalls e, calls = grpcCalls ++ (NodeShutdown <$> nodeCalls) /\
    grpcCalls ∈ [[GracefulStop]; [GracefulStop; ForceStop]; [ForceStop]] /\
    (rt_node r', nodeCalls, e) = Node_Shutdown (rt_node r) (match req with ReqStop _ x | ReqStopNow x => x end) /\
    (e <> None -> stopErr r' <> None).
Proof.
  intros H. simpl. destruct (stop r req) as [[r1 calls] err] eqn:E.
  destruct (stop_first _ _ _ _ _ H E) as (Hd&Hs&Hg&He&Hc). rewrite stop_all_done by done.
  subst err. rewrite app_nil_r. done.
Qed.

(** A runtime that could not be created leaves no node running. *)
Lemma NewRuntime_failed a listen raftErr cfg calls err : NewRuntime a listen raftErr cfg = (calls, Err err) ->
  (exists e, err = wrapf "create raft node" e /\ calls = []) \/
  (exists n b e, (NewNode a (mkConfig (rc_NodeID cfg) (rc_RaftAddr cfg) (rc_RaftAdvertiseAddr cfg) (rc_DataDir cfg)
     (rc_Bootstrap cfg) (rc_GRPCAdvertiseAddr cfg))).2 = Ok (n, b) /\ listen (rc_GRPCAddr cfg) = Some e /\
     calls = NodeShutdown <$> (Node_Shutdown n raftErr).1.2).
Proof.
  unfold NewRuntime. destruct (NewNode _ _).2 as [[n b]|e]; [|intros [= <- <-]; left; eauto].
  destruct (listen _) as [e|] eqn:El; [|done]. destruct (Node_Shutdown n raftErr) as [[n' cs] e'] eqn:Es. intros [= <- <-].
  right. exists n, b, e. by rewrite Es.
Qed.
End runtime.

(** ** A concrete run *)

Definition solo_runtime : @Runtime id_codec solo_raft := mkRuntime (solo_node NewFSM) true false None false.

(** A graceful stop cut short by its deadline, then a second request. *)
Lemma stop_acts_once_witness :
  let '(r, calls, errs) := stop_all solo_runtime [ReqStop (CtxDone DeadlineExceeded) None; ReqStopNow None] in
  errs = [Some DeadlineExceeded; Some DeadlineExceeded] /\ Runtime_stopped r = true.
Proof.
  pose proof (stop_acts_once solo_runtime (ReqStop (CtxDone DeadlineExceeded) None) [ReqStopNow None] eq_refl) as H.
  simpl in H. by destruct H as (?&?&_).
Defined.
