(* ===== verification/Cli.v ===== *)
(** * The command line (cmd/clavis/main.go)

    The whole life of the process: flags, identity, addresses, the runtime, joining
    a cluster, and shutdown. Log output is not modelled. *)

From S2P Require Import Prelude GoTime Errors Domain Raftlog Fsm RaftFsm LeaseTracker LockQueue Node Service.
From S2P Require Import Strings Files Storage StorageProps Identity Address Transport Solo Admin Runtime.

Record flags := mkFlags {
  fl_nodeID : string;
  fl_raftAddr : string;
  fl_raftAdvertiseAddr : string;
  fl_grpcAddr : string;
  fl_grpcAdvertiseAddr : string;
  fl_dataDir : string;
  fl_bootstrap : bool;
  fl_joinAddr : string;
  fl_removeNodeID : string;
  fl_clusterAddr : string
}.

Definition default_flags : flags := mkFlags "" "127.0.0.1:7000" "" ":9000" "" "./data" false "" "" "".

Section cli.
Context {RS : RaftStores} {UL : UuidLib} {GS : GrpcStatus} {RO : RangeOrder} {PC : ProtoCodec} {RL : RaftLib}.

(** What ends the wait at the end of [main]: a signal, with what the stop meets, or
    the server's failure. *)
Inductive run_end := Signalled (d : drain) (raftErr : option error) | ServeFailed (err : error).

(** What the process meets, apart from its data directory. *)
Record cli_env := mkCliEnv {
  ce_newID : uuid;                       (* uuid.New() *)
  ce_assembly : Assembly;
  ce_listen : string -> option error;
  ce_raftErr : option error;             (* shutting down a node that cannot listen *)
  ce_servers : gmap string Node;         (* the cluster *)
  ce_net : nat -> admin_net;
  ce_end : run_end
}.

Inductive outcome :=
| Fatal (err : error)                                  (* log.Fatal: exit status 1 *)
| NodeRemoved (st : gmap string Node)
| JoinFailed (r : Runtime) (st : gmap string Node) (err : error)   (* log.Fatal with the node running *)
| ServerFailed (r : Runtime) (err : error)                         (* the same *)
| Finished (r : Runtime) (st : gmap string Node) (calls : list rt_call) (err : option error).

(** The configuration a node starts with. *)
Definition resolve_config (f : flags) (newID : uuid) : M RuntimeConfig :=
  '(nid, _) ← wrap_err "resolve node id" (ResolveNodeID (fl_dataDir f) (fl_nodeID f) newID);
  match DeriveRaftAdvertiseAddr (fl_raftAddr f) (fl_raftAdvertiseAddr f) (fl_grpcAdvertiseAddr f) with
  | Err err => fail (wrapf "invalid raft advertise address" err)
  | Ok raftAdv =>
    match DeriveAdvertiseAddr raftAdv (fl_grpcAddr f) (fl_grpcAdvertiseAddr f) with
    | Err err => fail (wrapf "invalid gRPC advertise address" err)
    | Ok grpcAdv =>
      mret (mkRuntimeConfig (uuid_String nid) (fl_raftAddr f) raftAdv (fl_grpcAddr f) grpcAdv (fl_dataDir f) (fl_bootstrap f))
    end
  end.

(** From the running node to the end of [main]. *)
Definition run_node (f : flags) (e : cli_env) (runtime : Runtime) : outcome :=
  let finish st :=
    match ce_end e with
    | ServeFailed err => ServerFailed runtime (default err (Runtime_Start (Some err)))
    | Signalled d raftErr => let '(r, calls, err) := Runtime_Stop runtime d raftErr in Finished r st calls err
    end in
  if negb (String.eqb (fl_joinAddr f) "") then
    let member := Runtime_Member runtime in
    match JoinCluster (ce_net e) (ce_servers e) (fl_joinAddr f)
            (pb_mkJoinNodeRequest (cfg_NodeID (cfg (rt_node runtime))) (RaftAddress member) (GRPCAddress member)) with
    | (st, _, Some err) => JoinFailed runtime st err
    | (st, _, None) => finish st
    end
  else finish (ce_servers e).

Definition clavis_main (f : flags) (e : cli_env) (w : world) : world * outcome :=
  if fl_bootstrap f && negb (String.eqb (fl_joinAddr f) "")
  then (w, Fatal (Errorf "cannot use --bootstrap and --join together")) else
  if negb (String.eqb (fl_removeNodeID f) "") then
    if String.eqb (fl_clusterAddr f) "" then (w, Fatal (Errorf "--cluster-addr is required with --remove-node")) else
    match RemoveClusterNode (ce_net e) (ce_servers e) (fl_clusterAddr f) (fl_removeNodeID f) with
    | (_, _, Some err) => (w, Fatal (wrapf "failed to remove node" err))
    | (st, _, None) => (w, NodeRemoved st)
    end
  else
  match resolve_config f (ce_newID e) w with
  | (w, Err err) => (w, Fatal err)
  | (w, Ok cfg) =>
    match (NewRuntime (ce_assembly e) (ce_listen e) (ce_raftErr e) cfg).2 with
    | Err err => (w, Fatal (wrapf "failed to create runtime" err))
    | Ok runtime => (w, run_node f e runtime)
    end
  end.

(** ** Proofs *)

(** The runtime of an outcome, if a node was started. *)
Definition started (o : outcome) : option Runtime :=
  match o with
  | Fatal _ | NodeRemoved _ => None
  | JoinFailed r _ _ | ServerFailed r _ | Finished r _ _ _ => Some r
  end.

Lemma resolve_config_ok f newID w w' c : newID <> uuid_Nil -> resolve_config f newID w = (w', Ok c) ->
  explicit_host (rc_RaftAdvertiseAddr c) /\ explicit_host (rc_GRPCAdvertiseAddr c) /\
  rc_RaftAddr c = fl_raftAddr f /\ rc_Bootstrap c = fl_bootstrap f /\ rc_DataDir c = fl_dataDir f /\
  (exists id, rc_NodeID c = uuid_String id /\ identity_of (w_dir w' !! nodeIDFileName) = Some (Some id) /\
     (fl_nodeID f <> "" -> uuid_Parse (fl_nodeID f) = Ok id)) /\
  (fl_grpcAdvertiseAddr f <> "" -> rc_GRPCAdvertiseAddr c = fl_grpcAdvertiseAddr f) /\
  (fl_raftAdvertiseAddr f <> "" -> rc_RaftAdvertiseAddr c = fl_raftAdvertiseAddr f).
Proof.
  intros Hnew (w1&[nid g]&H1%wrap_err_ok&H2)%bind_ok.
  apply ResolveNodeID_ok in H1 as (Hid&Hreq&_); [|done].
  destruct (DeriveRaftAdvertiseAddr _ _ _) as [ra|] eqn:Er; [|done].
  destruct (DeriveAdvertiseAddr _ _ _) as [ga|] eqn:Eg; [|done]. injection H2 as <- <-. simpl.
  apply DeriveRaftAdvertiseAddr_spec in Er. apply DeriveAdvertiseAddr_spec in Eg.
  assert (explicit_host ra).
  { destruct Er as [(_&->&?)|(_&bh&bp&Hb&[[Hw ->]|(_&fh&fp&Hf&Hw&->)])]; [done| |].
    - by destruct (joined_ok _ _ _ _ _ _ "" Hb Hb Hw).
    - by destruct (joined_ok _ _ _ _ _ _ "" Hf Hb Hw). }
  assert (explicit_host ga).
  { destruct Eg as [(_&->&?)|(_&rh&rp&lh&lp&Hr&Hl&Hw&->)]; [done|].
    destruct (isWildcardHost lh); [by destruct (joined_ok _ _ _ _ _ _ "" Hr Hl Hw)|by destruct (joined_ok _ _ _ _ _ _ "" Hl Hl Hw)]. }
  split_and!; try done.
  - by exists nid.
  - intros Hne. by destruct Eg as [(_&->&_)|(?&_)].
  - intros Hne. by destruct Er as [(_&->&_)|(?&_)].
Qed.

Lemma explicit_host_nonempty a : explicit_host a -> a <> ""%string.
Proof. by intros (h&p&H&_) ->. Qed.

(** The node of a new runtime is configured as asked when the addresses are set. *)
Lemma NewRuntime_cfg a listen raftErr c r : (NewRuntime a listen raftErr c).2 = Ok r ->
  rc_RaftAdvertiseAddr c <> "" -> rc_GRPCAdvertiseAddr c <> "" ->
  cfg (rt_node r) = mkConfig (rc_NodeID c) (rc_RaftAddr c) (rc_RaftAdvertiseAddr c) (rc_DataDir c) (rc_Bootstrap c) (rc_GRPCAdvertiseAddr c).
Proof.
  intros H Hra Hga. revert H. unfold NewRuntime, NewNode. simpl.
  destruct (String.eqb_spec (rc_RaftAdvertiseAddr c) ""); [done|]. simpl.
  destruct (String.eqb_spec (rc_GRPCAdvertiseAddr c) ""); [done|]. simpl.
  repeat case_match; simplify_eq/=; try done; intros; by simplify_eq.
Qed.

Lemma run_node_started f e r r' : started (run_node f e r) = Some r' -> cfg (rt_node r') = cfg (rt_node r).
Proof.
  assert (Hstop : forall d x, cfg (rt_node (Runtime_Stop r d x).1.1) = cfg (rt_node r)).
  { intros d x. unfold Runtime_Stop, Node_Shutdown. repeat case_match; by simplify_eq/=. }
  unfold run_node. intros H. repeat (case_match; simplify_eq/=; try done);
    match goal with E : Runtime_Stop _ ?d ?x = _ |- _ => pose proof (Hstop d x) as Hc; by rewrite E in Hc end.
Qed.

(** C28: a node that gets started is fit to run. Whatever the flags, whatever fails,
    when [main] starts a node it advertises, to its peers and to its clients,
    addresses of the form host:port whose host is none of the empty host, 0.0.0.0
    and :: (only these spellings of a wildcard are recognised: [long_wildcard] shows another
    one pass), the explicit ones as they were given; its id is the one its data directory names, and the one asked for
    if one was; and it was not asked both to bootstrap a cluster and to join one.
    Removing a node starts none and leaves the data directory alone. *)
Theorem started_node_is_fit (f : flags) (e : cli_env) (w w' : world) (o : outcome) :
  ce_newID e <> uuid_Nil -> clavis_main f e w = (w', o) ->
  (forall r, started o = Some r ->
     let c := cfg (rt_node r) in
     explicit_host (RaftAdvertiseAddr c) /\ explicit_host (GRPCAdvertiseAddr c) /\
     (fl_raftAdvertiseAddr f <> "" -> RaftAdvertiseAddr c = fl_raftAdvertiseAddr f) /\
     (fl_grpcAdvertiseAddr f <> "" -> GRPCAdvertiseAddr c = fl_grpcAdvertiseAddr f) /\
     (exists id, cfg_NodeID c = uuid_String id /\ identity_of (w_dir w' !! nodeIDFileName) = Some (Some id) /\
        (fl_nodeID f <> "" -> uuid_Parse (fl_nodeID f) = Ok id)) /\
     (Bootstrap c = true -> fl_joinAddr f = "")) /\
  (fl_removeNodeID f <> "" -> started o = None /\ w' = w).
Proof.
  intros Hnew. unfold clavis_main. destruct (fl_bootstrap f && _) eqn:Eb; [by intros [= <- <-]|].
  destruct (String.eqb_spec (fl_removeNodeID f) "") as [Hrm|Hrm]; simpl.
  2:{ destruct (String.eqb (fl_clusterAddr f) ""); [by intros [= <- <-]|].
      destruct (RemoveClusterNode _ _ _ _) as [[st t] [err|]]; by intros [= <- <-]. }
  destruct (resolve_config f (ce_newID e) w) as [w1 [c|err]] eqn:Ec; [|by intros [= <- <-]].
  apply resolve_config_ok in Ec as (Hra&Hga&_&Hboot&_&Hid&Hge&Hre); [|done].
  destruct (NewRuntime _ _ _ c).2 as [rt|err] eqn:Er; [|by intros [= <- <-]].
  apply NewRuntime_cfg in Er; [|by apply explicit_host_nonempty..]. intros [= <- <-]. split; [|done].
  intros r Hr. apply run_node_started in Hr. rewrite Hr, Er. simpl. split_and!; try done.
  rewrite Hboot. intros Hb. rewrite Hb in Eb. simpl in Eb. by to_prop.
Qed.
End cli.

(** ** A concrete run *)

(** The default flags advertise the host Raft listens on, with the gRPC port. *)
Example default_addresses :
  DeriveRaftAdvertiseAddr "127.0.0.1:7000" "" "" = Ok "127.0.0.1:7000"%string /\
  DeriveAdvertiseAddr "127.0.0.1:7000" ":9000" "" = Ok "127.0.0.1:9000"%string.
Proof. by split. Qed.

(** A wildcard spelled in another way is taken for a routable host. *)
Example long_wildcard : validateAdvertiseAddr "[0:0:0:0:0:0:0:0]:9000" "advertise" = Ok "[0:0:0:0:0:0:0:0]:9000"%string.
Proof. reflexivity. Qed.

Definition solo_assembly : @Assembly id_codec solo_raft :=
  mkAssembly (RL := solo_raft) None None (fun _ => None) None (fun _ f => Ok (tt, f)) (Ok false) (fun r _ => r) solo_start.
Definition solo_cli : @cli_env toy_uuids id_codec solo_raft :=
  mkCliEnv (RL := solo_raft) UA solo_assembly (fun _ => None) None ∅ (fun _ => quiet_net) (Signalled Drained None).

Definition solo_run := clavis_main (RL := solo_raft) default_flags solo_cli (boot toy_dir []).

Lemma started_node_is_fit_witness :
  exists r, started solo_run.2 = Some r /\ explicit_host (GRPCAdvertiseAddr (cfg (rt_node r))).
Proof.
  assert (Hs : match started solo_run.2 with Some _ => true | None => false end = true) by (vm_compute; reflexivity).
  pose proof (started_node_is_fit (RL := solo_raft) default_flags solo_cli (boot toy_dir []) solo_run.1 solo_run.2
    ltac:(discriminate) (surjective_pairing solo_run)) as [H _].
  destruct (started solo_run.2) as [r|]; [|discriminate Hs].
  exists r. split; [reflexivity|]. exact (proj1 (proj2 (H r eq_refl))).
Defined.
