(* ===== verification/LocalCluster.v ===== *)
(** * A cluster in one process (internal/app/localcluster.go)

    Used by the examples and the benchmarks. Between two looks at the cluster its
    nodes move on by themselves: an input of the waiting loops. *)

From S2P Require Import Prelude GoTime Errors Domain Raftlog Fsm RaftFsm LeaseTracker LockQueue Node Service.
From S2P Require Import Transport Solo Admin Runtime.

Section localcluster.
Context {GS : GrpcStatus} {RO : RangeOrder} {PC : ProtoCodec} {RL : RaftLib}.

Record LocalCluster := mkLocal { runtimes : list Runtime; addrs : list string }.

Definition Addrs (c : LocalCluster) : list string := addrs c.

Definition set_node (r : Runtime) (n : Node) : Runtime :=
  mkRuntime n (grpcServing r) (stopOnce r) (stopErr r) (isStopped r).

(** The nodes' Raft libraries move to new states and apply entries. *)
Definition moved (r : Runtime) (ev : Raft * list bytes) : Runtime :=
  set_node r (applyEntries (set_raft (rt_node r) ev.1) ev.2).
Fixpoint move_all (rs : list Runtime) (evs : list (Raft * list bytes)) : list Runtime :=
  match rs, evs with
  | r :: rs, ev :: evs => moved r ev :: move_all rs evs
  | rs, _ => rs
  end.
Definition advance (c : LocalCluster) (evs : list (Raft * list bytes)) : LocalCluster :=
  mkLocal (move_all (runtimes c) evs) (addrs c).

(** The first loop of [agreedLeader]: the last running node that leads. *)
Fixpoint lastLeader (i : nat) (leader : option nat) (rs : list Runtime) : option nat :=
  match rs with
  | [] => leader
  | r :: rs =>
    lastLeader (i + 1) (if Runtime_stopped r then leader else if IsLeader (rt_node r) then Some i else leader) rs
  end.

Definition agreedLeader (c : LocalCluster) : option nat :=
  match lastLeader 0 None (runtimes c) with
  | None => None
  | Some leader =>
    let want := default ""%string (addrs c !! leader) in
    if existsb (fun r => negb (Runtime_stopped r) && negb (String.eqb (GetLeaderGRPCAddress (rt_node r)) want)) (runtimes c)
    then None else Some leader
  end.

(** One pass of a waiting loop: the deadline has passed, or the nodes have moved. *)
Inductive poll := Expired | Moved (evs : list (Raft * list bytes)).

(** [None]: still waiting. *)
Fixpoint LocalCluster_WaitForLeader (c : LocalCluster) (polls : list poll) : LocalCluster * option (result error nat) :=
  match polls with
  | [] => (c, None)
  | Expired :: _ => (c, Some (Err (Errorf "no leader elected within timeout")))
  | Moved evs :: polls =>
    let c := advance c evs in
    match agreedLeader c with
    | Some leader => (c, Some (Ok leader))
    | None => LocalCluster_WaitForLeader c polls
    end
  end.

Definition members_agreed (c : LocalCluster) (size : nat) : bool :=
  match agreedLeader c with
  | Some leader =>
    match runtimes c !! leader with
    | Some r => bool_decide (length (Members (rt_node r)) = size)
    | None => false
    end
  | None => false
  end.

Fixpoint waitForMembers (c : LocalCluster) (size : nat) (polls : list poll) : LocalCluster * option (option error) :=
  match polls with
  | [] => (c, None)
  | Expired :: _ => (c, Some (Some (Errorf "cluster did not reach its members within timeout")))
  | Moved evs :: polls =>
    let c := advance c evs in
    if members_agreed c size then (c, Some None) else waitForMembers c size polls
  end.

(** [None]: the index is out of range, a panic. [raftErr] is what the Raft
    library's shutdown returns. *)
Definition StopNode (c : LocalCluster) (i : nat) (raftErr : option error) : option (LocalCluster * option error) :=
  r ← runtimes c !! i;
  let '(r, _, err) := StopNow r raftErr in
  Some (mkLocal (<[i := r]> (runtimes c)) (addrs c), err).

(** Stops the nodes, the last one first. *)
Definition LocalCluster_Close (c : LocalCluster) (raftErr : nat -> option error) : LocalCluster :=
  mkLocal (imap (fun i r => (StopNow r (raftErr i)).1.1) (runtimes c)) (addrs c).

(** What starting one node meets. *)
Record node_env := mkNodeEnv {
  ne_raftAddr : result error string;      (* freeLoopbackAddr *)
  ne_grpcAddr : result error string;
  ne_id : string;                         (* uuid.New() *)
  ne_assembly : Assembly;
  ne_listen : string -> option error;
  ne_polls : list poll;                   (* waiting for the first node to lead *)
  ne_net : nat -> admin_net               (* joining *)
}.

(** The nodes as servers, and the cluster after calls have changed them. *)
Definition servers_of (c : LocalCluster) : gmap string Node :=
  list_to_map (zip (addrs c) (rt_node <$> runtimes c)).
Definition with_servers (c : LocalCluster) (st : gmap string Node) : LocalCluster :=
  mkLocal (zip_with (fun r a => set_node r (default (rt_node r) (st !! a))) (runtimes c) (addrs c)) (addrs c).

(** Starting the nodes [i], [i+1], ... of the loop. [close] is what shutting nodes
    down returns, should the cluster have to be given up. *)
Fixpoint startNodes (dataDir : string) (close : nat -> option error) (i : nat) (envs : list node_env) (c : LocalCluster)
    : LocalCluster * option (option error) :=
  let giveUp c err := (LocalCluster_Close c close, Some (Some err)) in
  match envs with
  | [] => (c, Some None)
  | e :: envs =>
    match ne_raftAddr e with Err err => giveUp c err | Ok raftAddr =>
    match ne_grpcAddr e with Err err => giveUp c err | Ok grpcAddr =>
    match (NewRuntime (ne_assembly e) (ne_listen e) (close i)
             (mkRuntimeConfig (ne_id e) raftAddr raftAddr grpcAddr grpcAddr
                (dataDir +:+ "/node-" +:+ pretty i) (bool_decide (i = 0%nat)))).2 with
    | Err err => giveUp c (wrapf ("start node " +:+ pretty i) err)
    | Ok runtime =>
      let c := mkLocal (runtimes c ++ [runtime]) (addrs c ++ [grpcAddr]) in
      if bool_decide (i = 0%nat) then
        match LocalCluster_WaitForLeader c (ne_polls e) with
        | (c, None) => (c, None)
        | (c, Some (Err err)) => giveUp c err
        | (c, Some (Ok _)) => startNodes dataDir close (i + 1) envs c
        end
      else
        let member := Runtime_Member runtime in
        match JoinCluster (ne_net e) (servers_of c) (default ""%string (head (addrs c)))
                (pb_mkJoinNodeRequest (NodeID member) (RaftAddress member) (GRPCAddress member)) with
        | (st, _, Some err) => giveUp (with_servers c st) (wrapf ("join node " +:+ pretty i) err)
        | (st, _, None) => startNodes dataDir close (i + 1) envs (with_servers c st)
        end
    end end end
  end.

(** The cluster, and the error returned, [None] while it still waits. *)
Definition StartLocalCluster (dataDir : string) (close : nat -> option error) (envs : list node_env) (polls : list poll)
    : LocalCluster * option (option error) :=
  match startNodes dataDir close 0 envs (mkLocal [] []) with
  | (c, Some None) =>
    match waitForMembers c (length envs) polls with
    | (c, Some (Some err)) => (LocalCluster_Close c close, Some (Some err))
    | (c, r) => (c, r)
    end
  | (c, r) => (c, r)
  end.

(** ** Proofs *)

(** The leader everyone agrees on: a running node that leads, whose address every
    running node names. *)
Lemma lastLeader_spec rs : forall i acc,
  (lastLeader i acc rs = acc /\ forall r, r ∈ rs -> isStopped r = true \/ IsLeader (rt_node r) = false) \/
  exists k r, lastLeader i acc rs = Some (i + k)%nat /\ rs !! k = Some r /\ isStopped r = false /\ IsLeader (rt_node r) = true /\
    forall j r', (k < j)%nat -> rs !! j = Some r' -> isStopped r' = true \/ IsLeader (rt_node r') = false.
Proof.
  induction rs as [|r rs IH]; intros i acc; simpl.
  { left. split; [done|]. set_solver. }
  unfold Runtime_stopped.
  destruct (IH (i + 1)%nat (if isStopped r then acc else if IsLeader (rt_node r) then Some i else acc)) as [[-> Hno]|(k&r'&->&Hk&Hs&Hl&Hafter)].
  - destruct (isStopped r) eqn:Es; [left; split; [done|]; intros x [->|?]%elem_of_cons; auto|].
    destruct (IsLeader (rt_node r)) eqn:El; [|left; split; [done|]; intros x [->|?]%elem_of_cons; auto].
    right. exists 0%nat, r. split_and!; [f_equal; lia|done..|].
    intros [|j] r' Hj Hr'; [lia|]. apply Hno. by apply (list_elem_of_lookup_2 _ j).
  - right. exists (Datatypes.S k), r'. split_and!; [f_equal; lia|done..|].
    intros [|j] r'' Hj Hr''; [lia|]. apply (Hafter j r''); [lia|done].
Qed.

Lemma agreedLeader_spec c leader : agreedLeader c = Some leader ->
  exists r, runtimes c !! leader = Some r /\ isStopped r = false /\ IsLeader (rt_node r) = true /\
    forall r', r' ∈ runtimes c -> isStopped r' = false ->
      GetLeaderGRPCAddress (rt_node r') = default ""%string (addrs c !! leader).
Proof.
  unfold agreedLeader. destruct (lastLeader_spec (runtimes c) 0 None) as [[-> _]|(k&r&->&Hk&Hs&Hl&_)]; [done|].
  simpl. case_match eqn:Ex; [done|]. intros [= <-]. exists r. split_and!; [done..|].
  intros r' Hr' Hs'. destruct (String.eqb_spec (GetLeaderGRPCAddress (rt_node r')) (default ""%string (addrs c !! k))) as [|Hne]; [done|].
  assert (Ht : existsb (fun r => negb (Runtime_stopped r) &&
      negb (String.eqb (GetLeaderGRPCAddress (rt_node r)) (default ""%string (addrs c !! k)))) (runtimes c) = true); [|congruence].
  apply existsb_exists. exists r'. split; [by apply list_elem_of_In|].
  unfold Runtime_stopped. rewrite Hs'. simpl. by destruct (String.eqb_spec (GetLeaderGRPCAddress (rt_node r')) (default ""%string (addrs c !! k))).
Qed.

(** Running clusters, and clusters of which every node has been stopped. *)
Definition running (c : LocalCluster) : Prop :=
  length (addrs c) = length (runtimes c) /\ Forall (fun r => isStopped r = false /\ stopOnce r = false) (runtimes c).
Definition all_stopped (c : LocalCluster) : Prop := Forall (fun r => isStopped r = true /\ stopOnce r = true) (runtimes c).

Lemma advance_running c evs : running c -> running (advance c evs) /\ length (runtimes (advance c evs)) = length (runtimes c).
Proof.
  intros [Hl Hr]. unfold running. simpl. rewrite Hl. clear Hl. revert evs.
  induction (runtimes c) as [|r rs IH]; intros [|ev evs]; simpl; try done.
  apply Forall_cons_iff in Hr as [[??] Hr]. destruct (IH Hr evs) as [[Hlen Hrs] Heq]. rewrite Forall_cons_iff. split_and!; try done; lia.
Qed.

Lemma with_servers_running c st : running c -> running (with_servers c st) /\ length (runtimes (with_servers c st)) = length (runtimes c).
Proof.
  intros [Hl Hr]. unfold running, with_servers. simpl. revert Hl. generalize (addrs c).
  induction (runtimes c) as [|r rs IH]; intros [|a l]; simpl; try done. intros [= H].
  apply Forall_cons_iff in Hr as [[??] Hr]. destruct (IH Hr l H) as [[Hlen Hrs] Heq]. rewrite Forall_cons_iff. split_and!; try done; lia.
Qed.

Lemma waitLeader_running c polls : running c ->
  running (LocalCluster_WaitForLeader c polls).1 /\
  length (runtimes (LocalCluster_WaitForLeader c polls).1) = length (runtimes c).
Proof.
  revert c. induction polls as [|[|evs] polls IH]; intros c Hc; simpl; [done..|].
  destruct (advance_running c evs Hc) as [Ha Hl]. destruct (agreedLeader _); [done|].
  destruct (IH _ Ha). split; [done|congruence].
Qed.

Lemma waitMembers_spec c size polls : running c ->
  let '(c', r) := waitForMembers c size polls in
  running c' /\ length (runtimes c') = length (runtimes c) /\ (r = Some None -> members_agreed c' size = true).
Proof.
  revert c. induction polls as [|[|evs] polls IH]; intros c Hc; simpl; [done..|].
  destruct (advance_running c evs Hc) as [Ha Hl]. destruct (members_agreed _ _) eqn:E; [done|].
  specialize (IH _ Ha). destruct (waitForMembers _ _ _). rewrite <- Hl. done.
Qed.

(** Closing a running cluster stops every node. *)
Lemma Close_stops c close : running c -> all_stopped (LocalCluster_Close c close).
Proof.
  intros [_ Hr]. apply list.Forall_forall. intros r [i Hi]%list_elem_of_lookup. simpl in Hi.
  rewrite list_lookup_imap in Hi. destruct (runtimes c !! i) as [r0|] eqn:E; [|done]. injection Hi as <-.
  rewrite list.Forall_forall in Hr. destruct (Hr r0) as [_ Ho]; [by apply (list_elem_of_lookup_2 _ i)|].
  unfold StopNow. rewrite Ho. by destruct (Node_Shutdown _ _) as [[] ].
Qed.

Lemma NewRuntime_running a listen raftErr cfg r : (NewRuntime a listen raftErr cfg).2 = Ok r ->
  isStopped r = false /\ stopOnce r = false.
Proof.
  unfold NewRuntime. destruct (NewNode _ _).2 as [[n b]|]; [|done].
  destruct (listen _); [by destruct (Node_Shutdown _ _) as [[] ]|]. by intros [= <-].
Qed.

Lemma startNodes_end dataDir close envs : forall i c, running c ->
  let '(c', r) := startNodes dataDir close i envs c in
  match r with
  | Some (Some _) => all_stopped c'
  | Some None => running c' /\ length (runtimes c') = (length (runtimes c) + length envs)%nat
  | None => running c'
  end.
Proof.
  induction envs as [|e envs IH]; intros i c Hc; simpl; [split; [done|lia]|].
  destruct (ne_raftAddr e) as [ra|]; [|by apply Close_stops]. destruct (ne_grpcAddr e) as [ga|]; [|by apply Close_stops].
  destruct (NewRuntime _ _ _ _).2 as [r|err] eqn:Er; [|by apply Close_stops]. apply NewRuntime_running in Er.
  set (c1 := mkLocal (runtimes c ++ [r]) (addrs c ++ [ga])).
  assert (H1 : running c1 /\ length (runtimes c1) = (length (runtimes c) + 1)%nat).
  { destruct Hc as [Hl Hf]. unfold running. simpl. rewrite !length_app, Hl, Forall_app, Forall_singleton. done. }
  destruct H1 as [H1 Hl1]. case_bool_decide.
  - destruct (waitLeader_running c1 (ne_polls e) H1) as [H2 Hl2].
    destruct (LocalCluster_WaitForLeader c1 (ne_polls e)) as [c2 [[l|err]|]]; simpl in *; [|by apply Close_stops|done].
    specialize (IH (i + 1)%nat c2 H2). destruct (startNodes _ _ _ _ c2) as [c3 [[|]|]]; [done| |done].
    destruct IH. split; [done|lia].
  - destruct (JoinCluster _ _ _ _) as [[st t] [err|]]; destruct (with_servers_running c1 st H1) as [H2 Hl2]; [by apply Close_stops|].
    specialize (IH (i + 1)%nat _ H2). destruct (startNodes _ _ _ _ _) as [c3 [[|]|]]; [done| |done].
    destruct IH. split; [done|lia].
Qed.

(** A local cluster comes up whole or not at all. When [StartLocalCluster]
    returns an error, whatever the cause, every node it had started has been
    stopped. When it succeeds, all the nodes asked for are running, one of them
    leads and reports as many members as nodes were asked for, and every node names
    that leader's client address. *)
Theorem local_cluster_all_or_nothing (dataDir : string) (close : nat -> option error) (envs : list node_env) (polls : list poll) :
  let '(c, r) := StartLocalCluster dataDir close envs polls in
  match r with
  | Some (Some _) => all_stopped c
  | None => running c
  | Some None =>
    running c /\ length (runtimes c) = length envs /\
    exists leader rt, runtimes c !! leader = Some rt /\ IsLeader (rt_node rt) = true /\
      length (Members (rt_node rt)) = length envs /\
      forall r', r' ∈ runtimes c -> GetLeaderGRPCAddress (rt_node r') = default ""%string (addrs c !! leader)
  end.
Proof.
  unfold StartLocalCluster.
  pose proof (startNodes_end dataDir close envs 0 (mkLocal [] []) (conj eq_refl (Forall_nil_2 _))) as Hs.
  destruct (startNodes _ _ _ _ _) as [c [[err|]|]]; [done| |done]. destruct Hs as [Hc Hl]. simpl in Hl.
  pose proof (waitMembers_spec c (length envs) polls Hc) as Hw.
  destruct (waitForMembers c (length envs) polls) as [c1 [[err|]|]]; [apply Close_stops; by apply Hw| |by apply Hw].
  destruct Hw as (Hc1&Hl1&Hm). split_and!; [done|congruence|]. specialize (Hm eq_refl). unfold members_agreed in Hm.
  destruct (agreedLeader c1) as [leader|] eqn:Ea; [|done]. apply agreedLeader_spec in Ea as (r&Hr&Hs&Hlead&Hall).
  rewrite Hr in Hm. to_prop. exists leader, r. split_and!; [done..|]. intros r' Hr'. apply Hall; [done|].
  destruct Hc1 as [_ Hf]. rewrite list.Forall_forall in Hf. by apply Hf.
Qed.
End localcluster.
