(* ===== verification/Resolver.v ===== *)
(** * The client's address book and failover (pkg/client/resolver.go)

    Connections are opened by the gRPC library: [dial] is a parameter, a
    connection is an abstract [Conn]. Each locked region of the resolver is one
    step. What a call to a node returns is a parameter of the loops. *)

From S2P Require Import Prelude GoTime Errors Strings Transport.

Section resolver.
Context {GS : GrpcStatus} {Conn : Type}.

Record resolver := mkResolver {
  seedAddrs : list string;
  currentAddr : string;
  conns : gmap string Conn
}.

Definition newResolver (seeds : list string) : resolver :=
  mkResolver seeds (default ""%string (head seeds)) ∅.

(** Appends [a] unless it is already there: the [seen] map holds exactly the
    addresses already in the result. *)
Definition add_new (acc : list string) (a : string) : list string :=
  if existsb (String.eqb a) acc then acc else acc ++ [a].

Definition normalizeSeedAddrs (addrs : list string) : list string :=
  foldl (fun acc part =>
    let trimmed := TrimSpace part in
    if String.eqb trimmed "" then acc else add_new acc trimmed)
    [] (addrs ≫= split_comma).

(** ** Connections *)

(** The first locked region of [connFor]. *)
Definition connFor_lookup (r : resolver) (addr : string) : option Conn := conns r !! addr.

(** The second one: the connection to use, and whether the new one was closed
    because another caller got there first. *)
Definition connFor_store (r : resolver) (addr : string) (conn : Conn) : resolver * Conn * bool :=
  match conns r !! addr with
  | Some existing => (r, existing, true)
  | None => (mkResolver (seedAddrs r) (currentAddr r) (<[addr := conn]> (conns r)), conn, false)
  end.

Definition connFor (r : resolver) (addr : string) (dial : result error Conn) : resolver * result error Conn :=
  match connFor_lookup r addr with
  | Some conn => (r, Ok conn)
  | None =>
    match dial with
    | Err err => (r, Err (wrapf ("failed to connect to " +:+ addr) err))
    | Ok conn => let '(r, conn, _) := connFor_store r addr conn in (r, Ok conn)
    end
  end.

(** [close_err] is what closing a connection returns. *)
Definition resolver_close {RO : RangeOrder} (r : resolver) (close_err : Conn -> option error)
    : resolver * list Conn * option error :=
  let cs := (range (conns r)).*2 in
  (mkResolver (seedAddrs r) (currentAddr r) ∅, cs,
   foldl (fun firstErr conn => match firstErr with Some e => Some e | None => close_err conn end) None cs).

(** ** The address book *)

Definition current (r : resolver) : string := currentAddr r.

Definition candidateAddrs (r : resolver) : list string :=
  foldl add_new (if String.eqb (currentAddr r) "" then [] else [currentAddr r]) (seedAddrs r).

Definition rememberSeedLocked (r : resolver) (addr : string) : resolver :=
  if existsb (String.eqb addr) (seedAddrs r) then r
  else mkResolver (seedAddrs r ++ [addr]) (currentAddr r) (conns r).

Definition rememberSeed (r : resolver) (addr : string) : resolver :=
  if String.eqb addr "" then r else rememberSeedLocked r addr.

Definition rememberAddr (r : resolver) (addr : string) : resolver :=
  if String.eqb addr "" then r
  else rememberSeedLocked (mkResolver (seedAddrs r) addr (conns r)) addr.

Definition rememberStatus (r : resolver) (resp : option pb_GetStatusResponse) : resolver :=
  match resp with
  | None => r
  | Some resp =>
    let r := rememberSeed r (pb_SR_GrpcAddress resp) in
    let r := foldl (fun r m => rememberSeed r (pb_CM_GrpcAddress m)) r (pb_SR_Members resp) in
    if negb (String.eqb (pb_SR_LeaderGrpcAddress resp) "") then rememberAddr r (pb_SR_LeaderGrpcAddress resp)
    else if pb_SR_IsLeader resp && negb (String.eqb (pb_SR_GrpcAddress resp) "")
    then rememberAddr r (pb_SR_GrpcAddress resp) else r
  end.

(** The loop of [discoverLeader]: [dial] and [probe] are what dialling a node and
    asking it for its status return. *)
Fixpoint discoverLoop (dial : string -> result error Conn) (probe : string -> result error pb_GetStatusResponse)
    (r : resolver) (addrs : list string) (lastErr : option error) : resolver * result error string :=
  match addrs with
  | [] => (r, Err (wrapf "discover leader" (default (Errorf "no reachable cluster nodes") lastErr)))
  | addr :: rest =>
    match connFor r addr (dial addr) with
    | (r, Err err) => discoverLoop dial probe r rest (Some err)
    | (r, Ok _) =>
      match probe addr with
      | Err err =>
        let leaderAddr := leaderhint_FromError (Some err) in
        if negb (String.eqb leaderAddr "") then (rememberAddr r leaderAddr, Ok leaderAddr)
        else discoverLoop dial probe r rest (Some err)
      | Ok resp =>
        let r := rememberStatus r (Some resp) in
        if negb (String.eqb (pb_SR_LeaderGrpcAddress resp) "") then (r, Ok (pb_SR_LeaderGrpcAddress resp))
        else if pb_SR_IsLeader resp && negb (String.eqb (pb_SR_GrpcAddress resp) "")
        then (r, Ok (pb_SR_GrpcAddress resp))
        else discoverLoop dial probe r rest lastErr
      end
    end
  end.

Definition discoverLeader (dial : string -> result error Conn) (probe : string -> result error pb_GetStatusResponse)
    (r : resolver) : resolver * result error string :=
  discoverLoop dial probe r (candidateAddrs r) None.

(** ** Failover *)

Definition attemptTimeout : Duration := 6 * Second.
Definition failoverBudget : Duration := 10 * Second.

(** What one pass of the loop of [tryCandidates] meets: the caller's context, the
    dial, the call, and whether the attempt's own timeout ended it. *)
Record attempt {T : Type} := mkAttempt {
  at_ctx : option error;
  at_dial : result error Conn;
  at_op : result error T;
  at_unresponsive : bool
}.
Arguments attempt : clear implicits.

(** What [tryCandidates] returns, with the addresses it called, in order. *)
Record tried {T : Type} := mkTried {
  td_resolver : resolver;
  td_result : result error T;
  td_retry : bool;
  td_calls : list string
}.
Arguments tried : clear implicits.

(** [env i] is what iteration [i] meets; [None]: out of fuel. *)
Fixpoint tryLoop {T} (fuel : nat) (env : nat -> attempt T) (i : nat) (r : resolver) (queue : list string)
    (attempts : gmap string Z) (lastErr : option error) (calls : list string) : option (tried T) :=
  match fuel with
  | O => None
  | S fuel =>
    match queue with
    | [] => Some (mkTried T r (Err (default (Errorf "all cluster addresses failed") lastErr)) true calls)
    | addr :: queue =>
      let e := env i in
      match at_ctx e with
      | Some err => Some (mkTried T r (Err (default err lastErr)) false calls)
      | None =>
        if String.eqb addr "" || (2 <=? default 0 (attempts !! addr))
        then tryLoop fuel env (S i) r queue attempts lastErr calls
        else
          let attempts := <[addr := default 0 (attempts !! addr) + 1]> attempts in
          match connFor r addr (at_dial e) with
          | (r, Err err) => tryLoop fuel env (S i) r queue attempts (Some err) calls
          | (r, Ok _) =>
            let calls := calls ++ [addr] in
            match at_op e with
            | Ok resp => Some (mkTried T (rememberAddr r addr) (Ok resp) false calls)
            | Err err =>
              let leaderAddr := leaderhint_FromError (Some err) in
              if negb (String.eqb leaderAddr "")
              then tryLoop fuel env (S i) (rememberAddr r leaderAddr) (leaderAddr :: queue) attempts (Some err) calls
              else if negb (bool_decide (status_Code (Some err) = codes_Unavailable)) && negb (at_unresponsive e)
              then Some (mkTried T r (Err err) false calls)
              else tryLoop fuel env (S i) r queue attempts (Some err) calls
            end
          end
      end
    end
  end.

Definition tryCandidates {T} (fuel : nat) (env : nat -> attempt T) (r : resolver) : option (tried T) :=
  tryLoop fuel env 0 r (candidateAddrs r) ∅ None [].

(** One round of [callWithFailover]: a pass over the candidates, then the select
    between the caller's context and the backoff timer. *)
Record round {T : Type} := mkRound { rd_fuel : nat; rd_env : nat -> attempt T; rd_ctxDone : bool }.
Arguments round : clear implicits.

(** The result, or [None] while the loop is still going after these rounds, with
    the backoffs it slept. *)
Fixpoint failoverLoop {T} (r : resolver) (backoff : Duration) (rounds : list (round T))
    : resolver * list Duration * option (result error T) :=
  match rounds with
  | [] => (r, [], None)
  | rd :: rest =>
    match tryCandidates (rd_fuel rd) (rd_env rd) r with
    | None => (r, [], None)
    | Some t =>
      if negb (td_retry t) || rd_ctxDone rd then (td_resolver t, [], Some (td_result t))
      else let '(r, slept, res) := failoverLoop (td_resolver t) (Z.min (2 * backoff) (500 * Millisecond)) rest in
           (r, backoff :: slept, res)
    end
  end.

Definition callWithFailover {T} (r : resolver) (rounds : list (round T))
    : resolver * list Duration * option (result error T) :=
  failoverLoop r (50 * Millisecond) rounds.
End resolver.
