(* ===== verification/ResolverProps.v ===== *)
(** * Properties of the client's failover *)

From S2P Require Import Prelude GoTime Errors Transport Resolver.

(** ** The address book *)

Lemma existsb_eqb a l : existsb (String.eqb a) l = true <-> a ∈ l.
Proof.
  rewrite existsb_exists. setoid_rewrite String.eqb_eq. rewrite list_elem_of_In. naive_solver.
Qed.

Lemma add_new_spec acc a : NoDup acc -> NoDup (add_new acc a) /\ forall x, x ∈ add_new acc a <-> x ∈ acc \/ x = a.
Proof.
  intros Hnd. unfold add_new. destruct (existsb (String.eqb a) acc) eqn:E.
  - apply existsb_eqb in E. split; [done|]. intros x. set_solver.
  - assert (Hn : a ∉ acc) by (intros H%existsb_eqb; congruence). split; [|intros; set_solver].
    apply list.NoDup_app. split_and!; [done|set_solver|apply NoDup_singleton].
Qed.

Lemma foldl_add_new l acc : NoDup acc ->
  NoDup (foldl add_new acc l) /\ (forall x, x ∈ foldl add_new acc l <-> x ∈ acc \/ x ∈ l) /\
  acc `prefix_of` foldl add_new acc l.
Proof.
  revert acc. induction l as [|a l IH]; intros acc Hnd; cbn [foldl].
  { split_and!; [done|set_solver|done]. }
  destruct (add_new_spec acc a Hnd) as [Hnd' Hin]. destruct (IH _ Hnd') as (H1&H2&H3). split_and!; [done|..].
  - intros x. rewrite H2, Hin. set_solver.
  - etrans; [|exact H3]. unfold add_new. case_match; [done|]. by apply prefix_app_r.
Qed.

Section props.
Context {GS : GrpcStatus} {Conn : Type}.
Implicit Types r : @resolver Conn.

(** The candidates are the current address first, then the seeds, each once. *)
Lemma candidateAddrs_spec r :
  NoDup (candidateAddrs r) /\
  (forall a, a ∈ candidateAddrs r <-> (a = currentAddr r /\ a <> ""%string) \/ a ∈ seedAddrs r) /\
  (currentAddr r <> ""%string -> head (candidateAddrs r) = Some (currentAddr r)).
Proof.
  unfold candidateAddrs. destruct (String.eqb_spec (currentAddr r) "") as [E|E].
  - destruct (foldl_add_new (seedAddrs r) [] ltac:(constructor)) as (H1&H2&_). split_and!; [done| |done].
    intros a. rewrite H2, E. set_solver.
  - destruct (foldl_add_new (seedAddrs r) [currentAddr r] ltac:(apply NoDup_singleton)) as (H1&H2&[k H3]).
    split_and!; [done| |by rewrite H3]. intros a. rewrite H2. set_solver.
Qed.

Lemma rememberSeedLocked_spec r a :
  currentAddr (rememberSeedLocked r a) = currentAddr r /\
  (forall x, x ∈ seedAddrs (rememberSeedLocked r a) <-> x ∈ seedAddrs r \/ x = a).
Proof.
  unfold rememberSeedLocked. destruct (existsb _ _) eqn:E; cbn; [apply existsb_eqb in E|]; split; set_solver.
Qed.

Lemma rememberAddr_current r a : a <> ""%string ->
  currentAddr (rememberAddr r a) = a /\ a ∈ seedAddrs (rememberAddr r a).
Proof.
  intros Ha. unfold rememberAddr. destruct (String.eqb_spec a ""); [done|].
  destruct (rememberSeedLocked_spec (mkResolver (seedAddrs r) a (conns r)) a) as [-> H]. split; [done|]. apply H. by right.
Qed.

(** ** Termination of a pass *)

(** How many more calls the addresses of [A] allow. *)
Fixpoint budget (attempts : gmap string Z) (A : list string) : nat :=
  match A with
  | [] => 0
  | a :: A => Z.to_nat (2 - default 0 (attempts !! a)) + budget attempts A
  end.

Lemma budget_mono attempts addr A : (budget (<[addr := (default 0 (attempts !! addr) + 1)%Z]> attempts) A <= budget attempts A)%nat.
Proof.
  induction A as [|a A IH]; cbn [budget]; [done|]. rewrite lookup_insert. case_decide; [subst|]; cbn [from_option id]; lia.
Qed.

Lemma budget_used attempts addr A :
  addr ∈ A -> default 0 (attempts !! addr) < 2 ->
  (budget (<[addr := (default 0 (attempts !! addr) + 1)%Z]> attempts) A < budget attempts A)%nat.
Proof.
  intros Hin Hlt. induction A as [|a A IH]; [by apply elem_of_nil in Hin|]. cbn [budget].
  pose proof (budget_mono attempts addr A). rewrite lookup_insert. destruct (decide (addr = a)) as [->|Hne]; cbn [from_option id]; [lia|].
  assert (addr ∈ A) by set_solver. specialize (IH H0). lia.
Qed.

Lemma budget_empty A : budget ∅ A = (2 * length A)%nat.
Proof. induction A; cbn [budget length]; [done|]. rewrite lookup_empty. cbn [from_option id]. lia. Qed.

(** The calls made to [a] so far. *)
Definition calls_to (a : string) (calls : list string) : Z := Z.of_nat (length (filter (fun x => x = a) calls)).

Lemma calls_to_snoc a calls x : calls_to a (calls ++ [x]) = calls_to a calls + (if decide (x = a) then 1 else 0).
Proof.
  unfold calls_to. rewrite list.filter_app, length_app, filter_cons. case_decide; cbn; lia.
Qed.

(** What a pass guarantees when it ends. *)
Record pass_ok {T} (A : list string) (t : @tried Conn T) : Prop := {
  po_calls : forall a, calls_to a (td_calls t) <= 2;
  po_known : forall a, a ∈ td_calls t -> a ∈ A /\ a <> ""%string;
  po_success : forall x, td_result t = Ok x ->
    exists before, td_calls t = before ++ [currentAddr (td_resolver t)] /\ td_retry t = false
}.

Lemma tryLoop_total {T} (A : list string) (env : nat -> @attempt Conn T) fuel i r queue attempts lastErr calls :
  (forall j err, at_op (env j) = Err err -> leaderhint_FromError (Some err) = ""%string \/ leaderhint_FromError (Some err) ∈ A) ->
  (forall a, a ∈ queue -> a ∈ A) ->
  (forall a, calls_to a calls <= default 0 (attempts !! a) <= 2) ->
  (forall a, a ∈ calls -> a ∈ A /\ a <> ""%string) ->
  (length queue + 2 * budget attempts A < fuel)%nat ->
  exists t, tryLoop fuel env i r queue attempts lastErr calls = Some t /\ pass_ok A t.
Proof.
  intros Henv. revert i r queue attempts lastErr calls.
  induction fuel as [|fuel IH]; intros i r queue attempts lastErr calls Hq Hcnt Hcalls Hfuel; [lia|].
  assert (Hend : forall res r' retry, (forall x, res <> Ok x) -> pass_ok A (mkTried T r' res retry calls)).
  { intros res r' retry Hres. split; cbn; [intros a; specialize (Hcnt a); lia|done|]. intros x Hx. by destruct (Hres x). }
  cbn [tryLoop]. destruct queue as [|addr queue]; [eexists; split; [done|]; by apply Hend|].
  destruct (at_ctx (env i)) as [cerr|]; [eexists; split; [done|]; by apply Hend|].
  cbn [length] in Hfuel.
  destruct (String.eqb addr "" || (2 <=? default 0 (attempts !! addr))) eqn:Hskip.
  { apply IH; [set_solver|done|done|lia]. }
  apply orb_false_iff in Hskip as [Hne%String.eqb_neq Hlt%Z.leb_gt].
  assert (HA : addr ∈ A) by set_solver.
  pose proof (budget_used attempts addr A HA Hlt) as Hb.
  set (attempts' := <[addr := default 0 (attempts !! addr) + 1]> attempts) in *.
  assert (Hcnt' : forall a k, k = (if decide (addr = a) then 1 else 0) ->
    calls_to a calls + k <= default 0 (attempts' !! a) <= 2 /\ calls_to a calls <= default 0 (attempts' !! a)).
  { intros a k ->. unfold attempts'. rewrite lookup_insert. specialize (Hcnt a).
    destruct (decide (addr = a)) as [->|]; cbn [from_option id]; lia. }
  destruct (connFor r addr (at_dial (env i))) as [r1 [conn|derr]].
  2:{ apply IH; [set_solver| |done|lia]. intros a. destruct (Hcnt' a _ eq_refl). lia. }
  assert (Hcalls' : forall a, a ∈ calls ++ [addr] -> a ∈ A /\ a <> ""%string).
  { intros a [Ha|Ha%list_elem_of_singleton]%elem_of_app; [by apply Hcalls|by subst]. }
  assert (Hcnt2 : forall a, calls_to a (calls ++ [addr]) <= default 0 (attempts' !! a) <= 2).
  { intros a. rewrite calls_to_snoc. destruct (Hcnt' a _ eq_refl). lia. }
  destruct (at_op (env i)) as [resp|err] eqn:Hop.
  { eexists. split; [done|]. split; cbn; [intros a; specialize (Hcnt2 a); lia|done|].
    intros x _. exists calls. by destruct (rememberAddr_current r1 addr Hne) as [-> _]. }
  destruct (String.eqb_spec (leaderhint_FromError (Some err)) "") as [Hh|Hh]; cbn [negb].
  - destruct (negb _ && negb _); [|apply IH; [set_solver|done|done|lia]].
    eexists. split; [done|]. split; cbn; [intros a; specialize (Hcnt2 a); lia|done|done].
  - apply IH; [|done|done|cbn [length]; lia].
    intros a [->|Ha]%elem_of_cons; [|set_solver]. by destruct (Henv i err Hop).
Qed.

(** The end of the caller's context ends a pass, whatever else happens. *)
Lemma tryLoop_ctx {T} (env : nat -> @attempt Conn T) k : is_Some (at_ctx (env k)) ->
  forall d i fuel r queue attempts lastErr calls, (i + d)%nat = k -> (d < fuel)%nat ->
    is_Some (tryLoop fuel env i r queue attempts lastErr calls).
Proof.
  intros [err Hk] d. induction d as [|d IH]; intros i fuel r queue attempts lastErr calls Hi Hfuel;
    (destruct fuel as [|fuel]; [lia|]); cbn [tryLoop]; (destruct queue as [|addr queue]; [by eexists|]).
  - assert (i = k) as -> by lia. rewrite Hk. by eexists.
  - destruct (at_ctx (env i)); [by eexists|]. assert ((S i + d)%nat = k) by lia. assert (d < fuel)%nat by lia.
    destruct (_ || _); [by apply IH|]. destruct (connFor _ _ _) as [r' [?|?]]; [|by apply IH].
    destruct (at_op (env i)); [by eexists|]. destruct (negb _); [by apply IH|]. destruct (_ && _); [by eexists|by apply IH].
Qed.

(** C26: a pass over the candidates ends, provided the addresses the nodes hint at
    are bounded, or else when the caller's context ends. When every candidate and
    every address the nodes hint at is among a fixed list [A], the pass ends within
    as many iterations as there are candidates plus four per address of [A]; it
    calls no address more than twice, redirect loops included, and on success the
    address that answered is the one remembered as the leader. Without a bound on
    the hints, nodes that name a new address every time keep it going
    ([fresh_hints_go_on]), and it ends with the iteration at which the context has
    ended. *)
Theorem pass_terminates {T} (env : nat -> @attempt Conn T) (r : resolver) (fuel : nat) :
  (forall A : list string,
     (forall a, a ∈ candidateAddrs r -> a ∈ A) ->
     (forall i err, at_op (env i) = Err err ->
        leaderhint_FromError (Some err) = ""%string \/ leaderhint_FromError (Some err) ∈ A) ->
     (length (candidateAddrs r) + 4 * length A < fuel)%nat ->
     exists t, tryCandidates fuel env r = Some t /\ pass_ok A t) /\
  (forall k, is_Some (at_ctx (env k)) -> (k < fuel)%nat -> is_Some (tryCandidates fuel env r)).
Proof.
  split.
  - intros A Hcand Hhints Hfuel. apply tryLoop_total; [done|done| | |rewrite budget_empty; lia].
    + intros a. rewrite lookup_empty. done.
    + by intros a ?%elem_of_nil.
  - intros k Hk Hfuel. by apply (tryLoop_ctx env k Hk k 0 fuel).
Qed.
End props.

(** ** Concrete runs *)

(** Two nodes that redirect to each other: the pass calls each twice and stops. *)
Definition ping_pong (i : nat) : @attempt unit unit :=
  mkAttempt unit None (Ok tt)
    (Err (leaderhint_Error (if Nat.even i then "node-2:9000" else "node-1:9000"))) false.

Example redirect_loop_ends :
  td_calls <$> tryCandidates 20 ping_pong (newResolver ["node-1:9000"; "node-2:9000"]) =
  Some ["node-1:9000"; "node-2:9000"; "node-1:9000"; "node-2:9000"]%string.
Proof. vm_compute. reflexivity. Qed.

(** Nodes that hint at a new address every time. *)
Definition fresh_hints (i : nat) : @attempt unit unit :=
  mkAttempt unit None (Ok tt) (Err (leaderhint_Error ("node-" +:+ pretty (N.of_nat i) +:+ ":9000"))) false.

Example fresh_hints_go_on : tryCandidates 60 fresh_hints (newResolver ["node-1:9000"]) = None.
Proof. vm_compute. reflexivity. Qed.

Lemma pass_terminates_witness :
  exists t, tryCandidates 11 ping_pong (newResolver ["node-1:9000"; "node-2:9000"]%string) = Some t /\
    pass_ok ["node-1:9000"; "node-2:9000"]%string t.
Proof.
  destruct (pass_terminates ping_pong (newResolver ["node-1:9000"; "node-2:9000"]%string) 11) as [H _].
  apply (H ["node-1:9000"; "node-2:9000"]%string); [by vm_compute| |vm_compute; lia].
  intros i err. unfold ping_pong. cbn [at_op]. intros [= <-]. right.
  destruct (Nat.even i); vm_compute; [right; left|left].
Defined.
