(* ===== verification/Client.v ===== *)
(** * The client SDK (pkg/client: client.go, session.go, lock.go, watch.go)

    The session, the heartbeat stream and the loop that renews the lease. Streams
    and their cancel functions are identified by numbers; cancelling one is
    recorded in the list an operation returns. Instants of the client are readings
    of its monotonic clock, in nanoseconds. *)

From Stdlib Require Import Ascii.
From S2P Require Import Prelude GoTime Errors Transport Resolver.

Definition ErrLeaseUnavailable : error := Errorf "lease health is unknown. reconnect required".
Definition ErrLockHeld : error := Errorf "lock is held by another lease".

(** [fmt.Errorf("%w: %v", ErrLeaseUnavailable, err)] *)
Definition unavailable (err : error) : error :=
  Wrapped (error_text ErrLeaseUnavailable +:+ ": " +:+ error_text err) ErrLeaseUnavailable.

(** [%q], for a string without characters that need escaping. *)
Definition quote (s : string) : string :=
  String (ascii_of_nat 34) s +:+ String (ascii_of_nat 34) EmptyString.

(** ** The session *)

Record leaseSession := mkSession {
  leaseID : Z;
  leaseTTL : Duration;
  leaseErr : option error;
  heartbeat : option Z;
  heartbeatCancel : option Z;
  runCancelled : bool                 (* runCancel was called: Done is closed *)
}.

Definition newLeaseSession : leaseSession := mkSession 0 0 None None None false.

Definition startLease (s : leaseSession) (id : Z) (ttl : Duration) : leaseSession :=
  mkSession id ttl None (heartbeat s) (heartbeatCancel s) (runCancelled s).

Definition session_ttl (s : leaseSession) : Duration := leaseTTL s.

Definition activeLeaseID (s : leaseSession) : result error Z :=
  match leaseErr s with
  | Some err => Err err
  | None => if leaseID s =? 0 then Err (Errorf "client has no active lease; call Start first") else Ok (leaseID s)
  end.

Definition heartbeatState (s : leaseSession) : Z * option Z := (leaseID s, heartbeat s).

(** The old cancel function is returned for the caller to run. *)
Definition swapHeartbeat (s : leaseSession) (stream cancel : Z) : leaseSession * option Z :=
  (mkSession (leaseID s) (leaseTTL s) (leaseErr s) (Some stream) (Some cancel) (runCancelled s), heartbeatCancel s).

Definition clear_heartbeat (s : leaseSession) : leaseSession :=
  mkSession (leaseID s) (leaseTTL s) (leaseErr s) None None (runCancelled s).

Definition run_cancel (c : option Z) : list Z := match c with Some c => [c] | None => [] end.

Definition closeHeartbeat (s : leaseSession) (stream : Z) : leaseSession * list Z :=
  if bool_decide (heartbeat s = Some stream) then (clear_heartbeat s, run_cancel (heartbeatCancel s)) else (s, []).

Definition invalidate (s : leaseSession) (err : error) : leaseSession * list Z :=
  (mkSession (leaseID s) (leaseTTL s) (match leaseErr s with None => Some err | Some e => Some e end) None None true,
   run_cancel (heartbeatCancel s)).

Definition session_stop (s : leaseSession) : leaseSession * list Z :=
  (mkSession (leaseID s) (leaseTTL s) (leaseErr s) None None true, run_cancel (heartbeatCancel s)).

(** ** The client *)

Section client.
Context {GS : GrpcStatus} {Conn : Type}.

Record Client := mkClient {
  ownerID : string;
  c_resolver : @resolver Conn;
  session : leaseSession
}.

Definition set_session (c : Client) (s : leaseSession) : Client := mkClient (ownerID c) (c_resolver c) s.
Definition set_resolver (c : Client) (r : resolver) : Client := mkClient (ownerID c) r (session c).

Definition NewClientWithSeeds (addrs : list string) (owner : string) : result error Client :=
  let seeds := normalizeSeedAddrs addrs in
  if bool_decide (length seeds = 0%nat) then Err (Errorf "at least one server address is required")
  else if String.eqb owner "" then Err (Errorf "ownerID is required")
  else Ok (mkClient owner (newResolver seeds) newLeaseSession).

(** [open] is what the library returns for the stream: its number and its cancel
    function's. A stream that fails to open has its context cancelled. *)
Definition openHeartbeatStream (c : Client) (addr : string) (dial : result error Conn) (open : result error (Z * Z))
    : Client * list Z * option error :=
  match connFor (c_resolver c) addr dial with
  | (r, Err err) => (set_resolver c r, [], Some err)
  | (r, Ok _) =>
    match open with
    | Err err => (set_resolver c r, [], Some (wrapf "heartbeat stream" err))
    | Ok (stream, cancel) =>
      let '(s, oldCancel) := swapHeartbeat (session c) stream cancel in
      (mkClient (ownerID c) (rememberAddr r addr) s, run_cancel oldCancel, None)
    end
  end.

(** What a heartbeat attempt meets: the network, and in the exchange the answers
    of [Send] and [Recv] and the select case that fires. *)
Inductive exchange_case := CaseResult | CaseTimer | CaseCtx (err : error).
Record attempt_env := mkAttemptEnv {
  ae_dial : string -> result error Conn;
  ae_probe : string -> result error pb_GetStatusResponse;
  ae_open : result error (Z * Z);
  ae_send : option error;
  ae_recv : result error pb_HeartbeatResponse;
  ae_case : exchange_case
}.

Definition reconnectHeartbeat (c : Client) (e : attempt_env) : Client * list Z * option error :=
  match discoverLeader (ae_dial e) (ae_probe e) (c_resolver c) with
  | (r, Err err) => (set_resolver c r, [], Some err)
  | (r, Ok leaderAddr) => openHeartbeatStream (set_resolver c r) leaderAddr (ae_dial e leaderAddr) (ae_open e)
  end.

(** The error the exchange's goroutine reports. *)
Definition exchange_result (e : attempt_env) (id : Z) : option error :=
  match ae_send e with
  | Some err => Some err
  | None =>
    match ae_recv e with
    | Err err => Some err
    | Ok resp => if pb_HR_LeaseId resp =? id then None
                 else Some (Errorf ("heartbeat response lease mismatch: got " +:+ pretty (pb_HR_LeaseId resp) +:+
                                    ", want " +:+ pretty id))
    end
  end.

(** The select. The text of the timeout error omits the duration. *)
Definition heartbeatExchange (c : Client) (id stream : Z) (e : attempt_env) : Client * list Z * option error :=
  let '(s, cancels) := closeHeartbeat (session c) stream in
  match ae_case e with
  | CaseResult =>
    match exchange_result e id with
    | Some err => (set_session c s, cancels, Some err)
    | None => (c, [], None)
    end
  | CaseTimer => (set_session c s, cancels, Some (Errorf "heartbeat acknowledgement timed out"))
  | CaseCtx err => (set_session c s, cancels, Some err)
  end.

Definition heartbeatAttempt (c : Client) (e : attempt_env) : Client * list Z * option error :=
  match heartbeatState (session c) with
  | (id, Some stream) => heartbeatExchange c id stream e
  | (_, None) =>
    match reconnectHeartbeat c e with
    | (c, cancels, Some err) => (c, cancels, Some err)
    | (c, cancels, None) =>
      match heartbeatState (session c) with
      | (id, Some stream) => let '(c, cs, r) := heartbeatExchange c id stream e in (c, cancels ++ cs, r)
      | (_, None) => (c, cancels, Some (Errorf "heartbeat stream unavailable"))
      end
    end
  end.

(** ** The heartbeat loop *)

(** Where the loop is: waiting for the ticker, at the top of the retry loop,
    sleeping there until its timer, or returned. [confirmedAt] is the send time of
    the last renewal that succeeded. *)
Inductive hb_phase :=
| HbWaiting (confirmedAt : Z)
| HbRetrying (confirmedAt : Z) (err : error) (backoff : Duration)
| HbSleeping (confirmedAt : Z) (backoff : Duration)
| HbInvalidated (confirmedAt at_ : Z)
| HbExited.

(** [sentAt] and [doneAt] delimit an attempt; [ctxDone] is the context after it.
    [EvCheck now] is the reading of [time.Until] at the top of the retry loop. *)
Inductive hb_event :=
| EvTick (sentAt doneAt : Z) (e : attempt_env) (ctxDone : bool)
| EvCheck (now : Z)
| EvTimer (sentAt doneAt : Z) (e : attempt_env) (ctxDone : bool)
| EvCtx.

Definition hb_interval (ttl : Duration) : Duration := ttl /i64 3.
Definition giveUpAt (ttl : Duration) (confirmedAt : Z) : Z := confirmedAt + (ttl - ttl /i64 4).
(** How long the retry loop sleeps, and how long it then lets an attempt take. *)
Definition retry_sleep (ttl : Duration) (confirmedAt now : Z) (backoff : Duration) : Duration :=
  Z.min backoff (giveUpAt ttl confirmedAt - now).
Definition retry_timeout (ttl : Duration) (confirmedAt now : Z) : Duration :=
  Z.min (hb_interval ttl) (Z.max (giveUpAt ttl confirmedAt - now) Millisecond).

Definition hb_step (ttl : Duration) (c : Client) (p : hb_phase) (ev : hb_event) : option (Client * hb_phase) :=
  match p, ev with
  | HbWaiting _, EvCtx => Some (c, HbExited)
  | HbWaiting confirmedAt, EvTick sentAt _ e ctxDone =>
    match heartbeatAttempt c e with
    | (c, _, None) => Some (c, HbWaiting sentAt)
    | (c, _, Some err) =>
      Some (c, if ctxDone then HbExited else HbRetrying confirmedAt err (50 * Millisecond))
    end
  | HbRetrying confirmedAt err backoff, EvCheck now =>
    if giveUpAt ttl confirmedAt - now <=? 0
    then Some (set_session c (invalidate (session c) (unavailable err)).1, HbInvalidated confirmedAt now)
    else Some (c, HbSleeping confirmedAt backoff)
  | HbSleeping _ _, EvCtx => Some (c, HbExited)
  | HbSleeping confirmedAt backoff, EvTimer sentAt _ e ctxDone =>
    let '(c, _, err) := heartbeatAttempt c e in
    if ctxDone then Some (c, HbExited) else
    match err with
    | None => Some (c, HbWaiting sentAt)
    | Some err => Some (c, HbRetrying confirmedAt err (Z.min (2 * backoff) (500 * Millisecond)))
    end
  | _, _ => None
  end.

(** [heartbeatLoop(ctx, confirmedAt)] run over [events]. *)
Fixpoint hb_run (ttl : Duration) (c : Client) (p : hb_phase) (events : list hb_event) : option (Client * hb_phase) :=
  match events with
  | [] => Some (c, p)
  | ev :: events => '(c, p) ← hb_step ttl c p ev; hb_run ttl c p events
  end.

Definition heartbeatLoop (c : Client) (confirmedAt : Z) (events : list hb_event) : option (Client * hb_phase) :=
  hb_run (session_ttl (session c)) c (HbWaiting confirmedAt) events.

(** ** Operations *)

(** [rounds] answers [CreateLease] and [e] is what the network returns afterwards.
    The error returned, or [None] while the call is still retrying, and whether
    the heartbeat loop was started. *)
Definition Start (c : Client) (ttl : Duration) (rounds : list (@round Conn pb_CreateLeaseResponse))
    (e : attempt_env) : Client * list Z * option (option error) * bool :=
  if ttl <? Second then (c, [], Some (Some (Errorf "ttl must be at least 1 second")), false) else
  match callWithFailover (c_resolver c) rounds with
  | (r, _, None) => (set_resolver c r, [], None, false)
  | (r, _, Some (Err err)) => (set_resolver c r, [], Some (Some (wrapf "create lease" err)), false)
  | (r, _, Some (Ok resp)) =>
    let c := set_resolver c r in
    if pb_CL_TtlSeconds resp <=? 0
    then (c, [], Some (Some (Errorf ("create lease: server returned invalid TTL " +:+ pretty (pb_CL_TtlSeconds resp)))), false)
    else
      let c := set_session c (startLease (session c) (pb_CL_LeaseId resp) (pb_CL_TtlSeconds resp *i64 Second)) in
      let '(c, addr) :=
        if String.eqb (current (c_resolver c)) "" then
          let '(r, d) := discoverLeader (ae_dial e) (ae_probe e) (c_resolver c) in (set_resolver c r, d)
        else (c, Ok (current (c_resolver c))) in
      match addr with
      | Err err => (c, [], Some (Some err), false)
      | Ok addr =>
        match openHeartbeatStream c addr (ae_dial e addr) (ae_open e) with
        | (c, cancels, Some err) =>
          let '(s, cs) := invalidate (session c) (unavailable err) in
          (set_session c s, cancels ++ cs, Some (Some err), false)
        | (c, cancels, None) => (c, cancels, Some None, true)
        end
      end
  end.

Record Lock := mkLock { lock_name : string; fencingToken : Z }.
Definition Token (l : Lock) : Z := fencingToken l.

(** The request a call sends, once the session allows it. *)
Definition acquire_request (c : Client) (lockName : string) (wait : bool) : result error pb_AcquireLockRequest :=
  let? id := activeLeaseID (session c) in Ok (pb_mkAcquireLockRequest lockName (ownerID c) id wait).

(** [rounds] answers the request; [None]: still retrying. *)
Definition client_acquire (c : Client) (lockName : string) (wait : bool)
    (rounds : pb_AcquireLockRequest -> list (@round Conn pb_AcquireLockResponse)) : Client * option (result error Lock) :=
  match acquire_request c lockName wait with
  | Err err => (c, Some (Err err))
  | Ok req =>
    let '(r, _, res) := callWithFailover (c_resolver c) (rounds req) in
    (set_resolver c r,
     match res with
     | None => None
     | Some (Ok resp) => Some (Ok (mkLock lockName (pb_AR_FencingToken resp)))
     | Some (Err err) =>
       if bool_decide (status_Code (Some err) = codes_AlreadyExists)
       then Some (Err (wrapf ("acquire lock " +:+ quote lockName) ErrLockHeld))
       else Some (Err (wrapf "acquire lock" err))
     end)
  end.

Definition Acquire (c : Client) (lockName : string) := client_acquire c lockName false.

Definition Release (c : Client) (lockName : string)
    (rounds : pb_ReleaseLockRequest -> list (@round Conn pb_ReleaseLockResponse)) : Client * option (option error) :=
  match activeLeaseID (session c) with
  | Err err => (c, Some (Some err))
  | Ok id =>
    let '(r, _, res) := callWithFailover (c_resolver c) (rounds (pb_mkReleaseLockRequest lockName id)) in
    (set_resolver c r,
     match res with
     | None => None
     | Some (Ok _) => Some None
     | Some (Err err) => Some (Some (wrapf "release lock" err))
     end)
  end.

(** [(l *Lock) Release] *)
Definition Lock_Release (c : Client) (l : Lock) := Release c (lock_name l).

Definition client_Status (c : Client) (rounds : list (@round Conn pb_GetStatusResponse))
    : Client * option (result error pb_GetStatusResponse) :=
  match callWithFailover (c_resolver c) rounds with
  | (r, _, Some (Ok resp)) => (set_resolver c (rememberStatus r (Some resp)), Some (Ok resp))
  | (r, _, res) => (set_resolver c r, res)
  end.

(** The channel [Done] returns is closed. *)
Definition Done (c : Client) : bool := runCancelled (session c).

Definition client_Stop {RO : RangeOrder} (c : Client) (close_err : Conn -> option error)
    : Client * list Z * list Conn * option error :=
  let '(s, cancels) := session_stop (session c) in
  let '(r, closed, err) := resolver_close (c_resolver c) close_err in
  (mkClient (ownerID c) r s, cancels, closed, err).

(** *** Waiting for a lock (watch.go) *)

(** One pass of [WaitAcquire]: the answers to the request, the error of the
    caller's context after it, how long it took, and whether the context ended
    during the backoff. *)
Record wait_round := mkWaitRound {
  wr_rounds : pb_AcquireLockRequest -> list (@round Conn pb_AcquireLockResponse);
  wr_ctx : option error;
  wr_took : Duration;
  wr_ctxDuring : option error
}.

(** The result, and the backoffs slept. *)
Fixpoint waitLoop (c : Client) (lockName : string) (backoff : Duration) (rounds : list wait_round)
    : Client * list Duration * option (result error Lock) :=
  match rounds with
  | [] => (c, [], None)
  | w :: rest =>
    let '(c, res) := client_acquire c lockName true (wr_rounds w) in
    match res with
    | None => (c, [], None)
    | Some (Ok lock) => (c, [], Some (Ok lock))
    | Some (Err err) =>
      match wr_ctx w with
      | Some cerr => (c, [], Some (Err cerr))
      | None =>
        if negb (errors_Is err ErrLockHeld) then (c, [], Some (Err err)) else
        if wr_took w <? 100 * Millisecond then
          match wr_ctxDuring w with
          | Some cerr => (c, [], Some (Err cerr))
          | None => let '(c, slept, r) := waitLoop c lockName (Z.min (2 * backoff) Second) rest in (c, backoff :: slept, r)
          end
        else waitLoop c lockName (50 * Millisecond) rest
      end
    end
  end.

Definition WaitAcquire (c : Client) (lockName : string) (rounds : list wait_round)
    : Client * list Duration * option (result error Lock) :=
  if String.eqb lockName "" then (c, [], Some (Err (Errorf "lockName is required")))
  else waitLoop c lockName (50 * Millisecond) rounds.
End client.
