(* ===== verification/ClientProps.v ===== *)
(** * Properties of the client SDK *)

From S2P Require Import Prelude GoTime Errors Transport Resolver Client.

Section client_props.
Context {GS : GrpcStatus} {Conn : Type}.
Implicit Types c : @Client Conn.

(** ** The heartbeat loop gives up in time *)

(** By when the loop receives its next tick, waiting since [t]: the ticker sends one
    an interval after [base], when the loop started it or took its last tick, and
    keeps it while the loop is busy. *)
Definition tick_due (ttl base t : Z) : Z := Z.max t (base + hb_interval ttl).

(** [ev] happens on time after instant [t], and is over at [t']: ticks and timers
    are received and attempts end at most [slack] after they should. *)
Definition on_time (ttl slack base : Z) (p : hb_phase) (t : Z) (ev : @hb_event Conn) (t' : Z) : Prop :=
  match p, ev with
  | HbWaiting _, EvTick sentAt doneAt _ _ =>
      t <= sentAt <= tick_due ttl base t + slack /\
      sentAt <= doneAt <= sentAt + hb_interval ttl + slack /\ t' = doneAt
  | HbWaiting _, EvCtx => t <= t' <= tick_due ttl base t + slack
  | HbRetrying _ _ _, EvCheck now => t <= now <= t + slack /\ t' = now
  | HbSleeping confirmedAt backoff, EvTimer sentAt doneAt _ _ =>
      t <= sentAt <= t + retry_sleep ttl confirmedAt t backoff + slack /\
      sentAt <= doneAt <= sentAt + retry_timeout ttl confirmedAt sentAt + slack /\ t' = doneAt
  | HbSleeping confirmedAt backoff, EvCtx => t <= t' <= t + retry_sleep ttl confirmedAt t backoff + slack
  | _, _ => False
  end.

(** When the loop took its last tick, after [ev]. *)
Definition next_base (base : Z) (ev : @hb_event Conn) : Z :=
  match ev with EvTick sentAt _ _ _ => sentAt | _ => base end.

(** A run of the loop in which every event is on time. *)
Inductive timed_run (ttl slack : Z) : Z -> @Client Conn -> hb_phase -> Z -> list (@hb_event Conn) ->
    Z -> @Client Conn -> hb_phase -> Z -> Prop :=
| run_nil base c p t : timed_run ttl slack base c p t [] base c p t
| run_cons base c p t ev t1 c1 p1 evs base2 c2 p2 t2 :
    hb_step ttl c p ev = Some (c1, p1) -> on_time ttl slack base p t ev t1 ->
    timed_run ttl slack (next_base base ev) c1 p1 t1 evs base2 c2 p2 t2 ->
    timed_run ttl slack base c p t (ev :: evs) base2 c2 p2 t2.

(** What the instant and the phase say of each other: the loop never gets so late
    that the last renewal it counts on could be more than a TTL old when it next
    looks at its deadline. *)
Definition hb_inv (ttl slack base : Z) (c : @Client Conn) (p : hb_phase) (t : Z) : Prop :=
  base <= t /\
  match p with
  | HbWaiting x => tick_due ttl base t + hb_interval ttl + 3 * slack < x + ttl
  | HbRetrying x _ _ => t + slack < x + ttl
  | HbSleeping x _ => t < giveUpAt ttl x
  | HbInvalidated x at_ =>
      t = at_ /\ giveUpAt ttl x <= at_ < x + ttl /\
      runCancelled (session c) = true /\ is_Some (leaseErr (session c)) /\ heartbeat (session c) = None
  | HbExited => True
  end.

Lemma interval_bounds ttl : 0 <= ttl -> 0 <= hb_interval ttl /\ 3 * hb_interval ttl <= ttl /\
  0 <= 4 * (ttl /i64 4) <= ttl /\ ttl < 4 * (ttl /i64 4) + 4.
Proof.
  intros Ht. unfold hb_interval. rewrite !Z.quot_div_nonneg by lia.
  pose proof (Z.div_mod ttl 3). pose proof (Z.mod_pos_bound ttl 3).
  pose proof (Z.div_mod ttl 4). pose proof (Z.mod_pos_bound ttl 4). pose proof (Z.div_pos ttl 3). pose proof (Z.div_pos ttl 4). lia.
Qed.

(** The room the theorems ask for: what is left of the TTL after the deadline covers
    a last attempt and the lateness of three events. *)
Definition roomy (ttl slack : Z) : Prop := 0 <= slack /\ Millisecond + 3 * slack < ttl /i64 4.

Lemma roomy_bounds ttl slack : 0 <= ttl -> roomy ttl slack ->
  0 <= slack /\ 0 <= hb_interval ttl /\ 2 * hb_interval ttl + 4 * slack < ttl /\
  0 <= ttl /i64 4 /\ Millisecond + 3 * slack < ttl /i64 4.
Proof. intros Ht [Hs Hr]. pose proof (interval_bounds ttl Ht). lia. Qed.

Lemma hb_inv_step ttl slack base c p t ev t1 c1 p1 :
  0 <= ttl -> roomy ttl slack -> hb_step ttl c p ev = Some (c1, p1) -> on_time ttl slack base p t ev t1 ->
  hb_inv ttl slack base c p t -> hb_inv ttl slack (next_base base ev) c1 p1 t1.
Proof.
  intros Ht Hr Hst Hon [Hb Hi]. pose proof (roomy_bounds ttl slack Ht Hr) as (Hs&Hi0&Hi2&Hq0&Hq).
  unfold hb_inv, tick_due, giveUpAt, retry_sleep, retry_timeout, giveUpAt in *.
  destruct p, ev; cbn [hb_step on_time next_base] in *; try done; unfold tick_due, giveUpAt, retry_sleep, retry_timeout, giveUpAt in *.
  - destruct (heartbeatAttempt c e) as [[c2 cs] [err|]]; [|injection Hst as <- <-; lia].
    destruct ctxDone; injection Hst as <- <-; lia.
  - injection Hst as <- <-. lia.
  - destruct (Z.leb_spec (confirmedAt + (ttl - ttl /i64 4) - now) 0); injection Hst as <- <-; [|lia].
    split_and!; try done; try lia. cbn. destruct (leaseErr (session c)); by eexists.
  - destruct (heartbeatAttempt c e) as [[c2 cs] err].
    destruct ctxDone; [injection Hst as <- <-; lia|]. destruct err as [err|]; injection Hst as <- <-; lia.
  - injection Hst as <- <-. lia.
Qed.

Lemma timed_run_inv ttl slack base c p t evs base2 c2 p2 t2 :
  0 <= ttl -> roomy ttl slack -> timed_run ttl slack base c p t evs base2 c2 p2 t2 ->
  hb_inv ttl slack base c p t -> hb_inv ttl slack base2 c2 p2 t2.
Proof. intros Ht Hs. induction 1; eauto using hb_inv_step. Qed.

(** The loop starts soon enough after the lease it counts on was requested. *)
Definition prompt_start (ttl slack confirmedAt t0 : Z) : Prop :=
  t0 + 2 * hb_interval ttl + 3 * slack < confirmedAt + ttl.

Lemma prompt_inv ttl slack c confirmedAt t0 :
  0 <= ttl -> prompt_start ttl slack confirmedAt t0 -> hb_inv ttl slack t0 c (HbWaiting confirmedAt) t0.
Proof.
  intros Ht Hp. pose proof (interval_bounds ttl Ht). unfold prompt_start, hb_inv, tick_due in *. lia.
Qed.

(** The send time of the last renewal the loop counts on, while it runs. *)
Definition confirmed (p : hb_phase) : option Z :=
  match p with
  | HbWaiting x | HbRetrying x _ _ | HbSleeping x _ | HbInvalidated x _ => Some x
  | HbExited => None
  end.

(** The send time of an attempt that is acknowledged. *)
Definition acked (c : @Client Conn) (ev : @hb_event Conn) : option Z :=
  match ev with
  | EvTick sentAt _ e _ | EvTimer sentAt _ e _ => match (heartbeatAttempt c e).2 with None => Some sentAt | Some _ => None end
  | _ => None
  end.

(** [good] holds of the send time of every acknowledged attempt of a run. *)
Fixpoint served (good : Z -> Prop) (ttl : Z) (c : @Client Conn) (p : hb_phase) (evs : list (@hb_event Conn)) : Prop :=
  match evs with
  | [] => True
  | ev :: evs =>
    (forall x, acked c ev = Some x -> good x) /\
    match hb_step ttl c p ev with Some (c1, p1) => served good ttl c1 p1 evs | None => True end
  end.

Lemma confirmed_step (good : Z -> Prop) ttl c p ev c1 p1 :
  hb_step ttl c p ev = Some (c1, p1) -> (forall x, acked c ev = Some x -> good x) ->
  (forall x, confirmed p = Some x -> good x) -> forall x, confirmed p1 = Some x -> good x.
Proof.
  intros Hst Hack Hp x. destruct p, ev; cbn [hb_step acked] in *; try done;
    repeat (match goal with H : context [heartbeatAttempt ?a ?b] |- _ => destruct (heartbeatAttempt a b) as [[? ?] [?|]] end
      || case_match || simplify_eq/=); try done; auto.
Qed.

(** The loop only counts on renewals that were acknowledged, or on the creation. *)
Lemma confirmed_good (good : Z -> Prop) ttl slack base c p t evs base2 c2 p2 t2 :
  timed_run ttl slack base c p t evs base2 c2 p2 t2 -> served good ttl c p evs ->
  (forall x, confirmed p = Some x -> good x) -> forall x, confirmed p2 = Some x -> good x.
Proof.
  induction 1 as [|base c p t ev t1 c1 p1 evs base2 c2 p2 t2 Hst _ _ IH]; [done|]. intros [Hack Hs] Hp.
  rewrite Hst in Hs. apply IH; [done|]. by eapply confirmed_step.
Qed.

Lemma confirmed_mono ttl slack base c p t evs base2 c2 p2 t2 y x :
  timed_run ttl slack base c p t evs base2 c2 p2 t2 -> confirmed p = Some y -> y <= t ->
  confirmed p2 = Some x -> y <= x.
Proof.
  intros Hrun. revert y. induction Hrun as [|base c p t ev t1 c1 p1 evs base2 c2 p2 t2 Hst Hon Hrun IH]; intros y Hy Hle Hx; [simplify_eq; lia|].
  assert (Hnext : p1 = HbExited \/ exists y', confirmed p1 = Some y' /\ y <= y' <= t1).
  { destruct p, ev; cbn [hb_step on_time confirmed] in *; try done;
      repeat (match goal with H : context [heartbeatAttempt ?a ?b] |- _ => destruct (heartbeatAttempt a b) as [[? ?] [?|]] end
        || case_match || simplify_eq/=); auto; right; eexists; (split; [done|]); lia. }
  destruct Hnext as [->|(y'&Hy'&Hb)]; [|specialize (IH y' Hy' ltac:(lia) Hx); lia].
  inversion Hrun; subst; [done|]. by match goal with H : hb_step _ _ HbExited _ = _ |- _ => cbn in H end.
Qed.

(** No acknowledged attempt was sent after the renewal the loop counts on. *)
Lemma confirmed_last ttl slack base c p t evs base2 c2 p2 t2 x :
  timed_run ttl slack base c p t evs base2 c2 p2 t2 -> confirmed p2 = Some x ->
  served (fun y => y <= x) ttl c p evs.
Proof.
  induction 1 as [|base c p t ev t1 c1 p1 evs base2 c2 p2 t2 Hst Hon Hrun IH]; intros Hx; [done|].
  split; [|rewrite Hst; by apply IH]. intros y Hack.
  assert (Hp : confirmed p1 = Some y /\ y <= t1 \/ p1 = HbExited).
  { destruct p, ev; cbn [hb_step on_time acked] in *; try done;
      repeat (match goal with H : context [heartbeatAttempt ?a ?b] |- _ => destruct (heartbeatAttempt a b) as [[? ?] [?|]] end
        || case_match || simplify_eq/=); auto; left; (split; [done|]); lia. }
  destruct Hp as [[Hy Hle]| ->]; [by eapply confirmed_mono|].
  inversion Hrun; subst; [done|]. by match goal with H : hb_step _ _ HbExited _ = _ |- _ => cbn in H end.
Qed.

(** Whatever the loop does next is over before one TTL has passed since the last
    renewal it counts on. *)
Lemma next_is_fresh ttl slack base c p t ev t1 c1 p1 :
  0 <= ttl -> roomy ttl slack -> hb_inv ttl slack base c p t ->
  hb_step ttl c p ev = Some (c1, p1) -> on_time ttl slack base p t ev t1 ->
  exists x, confirmed p = Some x /\ t1 < x + ttl.
Proof.
  intros Ht Hr [Hb Hi] Hst Hon. pose proof (roomy_bounds ttl slack Ht Hr) as (Hs&Hi0&Hi2&Hq0&Hq).
  destruct p, ev; cbn [hb_step on_time confirmed] in *; try done; (eexists; split; [done|]);
    unfold tick_due, giveUpAt, retry_sleep, retry_timeout, giveUpAt in *; lia.
Qed.

(** C24: a client gives up neither too early nor too late, provided its loop starts
    soon enough and runs on time. The loop starts at [t0], when [Start] returns,
    counting on the request sent at [confirmedAt]. Assume that two heartbeat
    intervals after [t0], and three times [slack], are over before [confirmedAt]
    plus one TTL; that every tick, timer and attempt is at most [slack] late; and
    that a quarter of a TTL is more than 1 ms plus three times [slack]. When such a
    loop invalidates the session at instant [x], no renewal sent after [confirmed2]
    was acknowledged; [x] is not before three quarters of a TTL after [confirmed2],
    and it is before [confirmed2] plus one TTL, until when the server keeps the
    lease alive. The session is then closed: [Done] is signalled and
    [activeLeaseID] fails. The condition on the start is needed:
    [slow_start_outlives_lease] shows a loop that starts too late for it. *)
Theorem gives_up_in_time (ttl slack : Z) c confirmedAt t0 evs base2 c2 confirmed2 x t2
    (Httl : 0 <= ttl) (Hroom : roomy ttl slack) (Hstart : prompt_start ttl slack confirmedAt t0)
    (Hrun : timed_run ttl slack t0 c (HbWaiting confirmedAt) t0 evs base2 c2 (HbInvalidated confirmed2 x) t2) :
  confirmed2 + (ttl - ttl /i64 4) <= x < confirmed2 + ttl /\
  (forall good, good confirmedAt -> served good ttl c (HbWaiting confirmedAt) evs -> good confirmed2) /\
  served (fun y => y <= confirmed2) ttl c (HbWaiting confirmedAt) evs /\
  Done c2 = true /\ exists e, activeLeaseID (session c2) = Err e.
Proof.
  pose proof (timed_run_inv _ _ _ _ _ _ _ _ _ _ _ Httl Hroom Hrun (prompt_inv _ _ _ _ _ Httl Hstart)) as (_&_&Hx&Hd&[e He]&_).
  split_and!; try apply Hx; [|by eapply confirmed_last|done|exists e; unfold activeLeaseID; by rewrite He].
  intros good Hg Hs. eapply confirmed_good; try done. by intros y [= <-].
Qed.

(** ** The session fails closed *)

(** What can happen to a session: everything that writes it. *)
Inductive session_op :=
| OpStart (id : Z) (ttl : Duration) | OpSwap (stream cancel : Z) | OpClose (stream : Z) | OpInvalidate (err : error) | OpStop.

Definition run_op (s : leaseSession) (o : session_op) : leaseSession :=
  match o with
  | OpStart id ttl => startLease s id ttl
  | OpSwap st ca => (swapHeartbeat s st ca).1
  | OpClose st => (closeHeartbeat s st).1
  | OpInvalidate e => (invalidate s e).1
  | OpStop => (session_stop s).1
  end.

(** [Client.Start] is called again. *)
Definition starts (o : session_op) : bool := match o with OpStart _ _ => true | _ => false end.

(** The error after [ops]: a start clears it, and the first invalidation since then
    sets it. *)
Definition err_after (err : option error) (ops : list session_op) : option error :=
  foldl (fun err o =>
    match o with
    | OpStart _ _ => None
    | OpInvalidate e => match err with Some e' => Some e' | None => Some e end
    | _ => err
    end) err ops.

Lemma run_ops_err s ops : leaseErr (foldl run_op s ops) = err_after (leaseErr s) ops.
Proof.
  revert s. induction ops as [|o ops IH]; intros s; [done|]. unfold err_after in *. cbn [foldl]. rewrite IH. f_equal.
  destruct o; cbn; try done. unfold closeHeartbeat. by case_match.
Qed.

Lemma run_ops_done s ops : runCancelled s = true -> runCancelled (foldl run_op s ops) = true.
Proof.
  revert s. induction ops as [|o ops IH]; intros s Hr; [done|]. apply IH. destruct o; cbn; try done.
  unfold closeHeartbeat. by case_match.
Qed.

Lemma err_after_kept e ops : Forall (fun o => starts o = false) ops -> err_after (Some e) ops = Some e.
Proof. unfold err_after. induction 1 as [|o ops Ho _ IH]; [done|]. by destruct o. Qed.

Lemma closed_refuses c e :
  leaseErr (session c) = Some e ->
  activeLeaseID (session c) = Err e /\
  (forall name wait rounds, client_acquire c name wait rounds = (c, Some (Err e))) /\
  (forall name rounds, Release c name rounds = (c, Some (Some e))).
Proof.
  intros He. assert (Ha : activeLeaseID (session c) = Err e) by (unfold activeLeaseID; by rewrite He).
  split_and!; [done| |]; intros; [unfold client_acquire, acquire_request|unfold Release]; by rewrite Ha.
Qed.

End client_props.

(** ** Concrete runs *)

(** A client with a 3 s lease whose cluster has become unreachable. *)
Definition lost_client : @Client unit :=
  mkClient "worker" (newResolver ["127.0.0.1:9000"%string]) (mkSession 7 (3 * Second) None None None false).
Definition lost_env : @attempt_env unit :=
  mkAttemptEnv (fun _ => Ok tt) (fun _ => Err (status_Error codes_Unavailable "connection refused"))
    (Err (Errorf "unused")) None (Err (Errorf "unused")) CaseResult.

Definition lost_events : list (@hb_event unit) :=
  [EvTick (1000 * Millisecond) (2000 * Millisecond) lost_env false; EvCheck (2000 * Millisecond);
   EvTimer (2050 * Millisecond) (2250 * Millisecond) lost_env false; EvCheck (2250 * Millisecond)].

Definition lost_end : @Client unit :=
  match heartbeatLoop lost_client 0 lost_events with Some (c, _) => c | None => lost_client end.

Lemma lost_run :
  timed_run (3 * Second) 0 0 lost_client (HbWaiting 0) 0 lost_events (1000 * Millisecond) lost_end
    (HbInvalidated 0 (2250 * Millisecond)) (2250 * Millisecond).
Proof.
  repeat (eapply run_cons; [vm_compute; reflexivity|vm_compute; repeat split; congruence|]).
  apply run_nil.
Qed.

Lemma gives_up_in_time_witness : 0 + 2250 * Millisecond <= 2250 * Millisecond < 0 + 3 * Second /\ Done lost_end = true.
Proof.
  destruct (gives_up_in_time (3 * Second) 0 lost_client 0 0 lost_events (1000 * Millisecond) lost_end 0
    (2250 * Millisecond) (2250 * Millisecond)) as (Hx&_&_&Hd&_); [done|by vm_compute|by vm_compute|apply lost_run|].
  by split.
Defined.

(** The loop first looks at its deadline after its first tick, which is a third of a
    TTL after [Start] returned, however long the creation took. Here the lease was
    requested at 0 with a TTL of 3 s and the answer came after 2.5 s: more than half
    a second after the lease may have been expired, the session is still open. *)
Example slow_start_outlives_lease :
  exists c err, Done c = false /\ 0 + 3 * Second < 3600 * Millisecond /\
    timed_run (3 * Second) 0 (2500 * Millisecond) lost_client (HbWaiting 0) (2500 * Millisecond)
      [EvTick (3500 * Millisecond) (3600 * Millisecond) lost_env false] (3500 * Millisecond) c
      (HbRetrying 0 err (50 * Millisecond)) (3600 * Millisecond).
Proof.
  eexists _, _. split_and!; [| |eapply run_cons; [vm_compute; reflexivity|vm_compute; repeat split; congruence|apply run_nil]];
    by vm_compute.
Qed.

