(* ===== verification/Exclusion.v ===== *)
(** * Exclusive ownership, end to end

    What the parts of the system give a client together. The client trusts its lock
    for as long as its heartbeat loop has not given up; the loop gives up before
    one TTL has passed since it sent the last renewal that was acknowledged
    (pkg/client/session.go); no leader claims the lease before one TTL has passed
    since it handled that renewal (internal/cluster/lease.go); and the lock stays
    with the lease until the log releases it or expires the lease
    (internal/state/fsm.go). This file puts the clocks of the client and of the
    leaders, the leaders' trackers and the replicated log side by side. *)

From S2P Require Import Prelude GoTime Errors Domain Raftlog Fsm FsmInv FsmProps LeaseTracker TrackerProps Failover.
From S2P Require Import Transport Resolver Client ClientProps.

(** An entry of the replicated log: the term of the leader that appended it, and
    the instant of real time at which it was first applied. *)
Record log_entry := mkEntry { en_term : Z; en_at : Z; en_cmd : CommandWrapper }.

Definition expires (i : Z) (cmd : CommandWrapper) : Prop :=
  GetType cmd = COMMAND_TYPE_EXPIRE_LEASE /\ ExpireLease_GetLeaseId (GetExpireLease cmd) = i.

Definition releases (n : string) (i : Z) (cmd : CommandWrapper) : Prop :=
  GetType cmd = COMMAND_TYPE_RELEASE_LOCK /\
  ReleaseLock_GetLockName (GetReleaseLock cmd) = n /\ ReleaseLock_GetLeaseId (GetReleaseLock cmd) = i.

Section history.
Context {RO : RangeOrder}.
Variables (log : list log_entry) (runs : list term_run).

Definition cmds : list CommandWrapper := en_cmd <$> log.

(** A history of the cluster. The terms of a log never decrease; a term has one
    leader, whose tracker ran as [run_ok] says over records of this log; an expiry
    is in the log because that term's leader claimed the lease before. *)
Record history : Prop := {
  h_typed : Forall typed cmds;
  h_len : Z.of_nat (length cmds) < two_64 - 1;
  h_terms : forall j k e f, log !! j = Some e -> log !! k = Some f -> (j <= k)%nat -> en_term e <= en_term f;
  h_runs : forall R, R ∈ runs -> run_ok (recorded cmds) R /\ (tm_events R <> [] -> exists t0, started R t0);
  h_leader : forall R R', R ∈ runs -> R' ∈ runs -> tm_term R = tm_term R' -> R = R';
  h_expiry : forall e i, e ∈ log -> expires i (en_cmd e) ->
    exists R now ls ids, R ∈ runs /\ tm_term R = en_term e /\ TClaim now ls ids ∈ tm_events R /\ i ∈ ids /\
      real R now <= en_at e
}.

(** Leaders of later terms than [A]'s started after [A] read [x]: a quorum followed
    [A] after that. *)
Definition precedes (A : term_run) (x : Time) : Prop :=
  forall B t0, B ∈ runs -> tm_term A < tm_term B -> started B t0 -> real A x <= real B t0.

(** Why the client may believe at [T] that its lease lives until [T + ttl]. Its
    request to create the lease was sent at [T] and is in the log, stamped by the
    leader's clock; or a renewal was sent at [T] and acknowledged by a leader that
    had applied the entries of earlier terms and had found the lease. *)
Inductive proof_of_life (i ttl T : Z) : Prop :=
| created A c k e owner d x :
    A ∈ runs -> log !! k = Some e -> en_term e = tm_term A ->
    en_cmd e = NewCreateLeaseCmd owner d c -> is_i64 (wall c) -> is_i64 d ->
    response (FSM_Apply (state_at cmds k) (en_cmd e)) = Ok (RCreateLease (mkCreateLeaseResponse i x d)) ->
    ttl <= d -> T <= real A c -> precedes A c -> proof_of_life i ttl T
| renewed A r s k :
    A ∈ runs -> TRenew r s true ∈ tm_events A -> Lease_LeaseID s = i -> leases (state_at cmds k) !! i = Some s ->
    (forall j e, log !! j = Some e -> en_term e < tm_term A -> (j < k)%nat) ->
    ttl <= Lease_TTL s -> T <= real A r -> precedes A r -> proof_of_life i ttl T.

(** ** The server side: a lease that was proven alive is not expired for a TTL *)

Section server.
Hypothesis H : history.

Lemma create_ok f owner d c i x d' :
  is_i64 (wall c) -> is_i64 d ->
  response (FSM_Apply f (NewCreateLeaseCmd owner d c)) = Ok (RCreateLease (mkCreateLeaseResponse i x d')) ->
  leases (post (FSM_Apply f (NewCreateLeaseCmd owner d c))) !! i = Some (mkLease i owner (wall c + d) d).
Proof.
  intros Hc Hd. unfold NewCreateLeaseCmd. assert (UnixNano (UTC c) = wall c) as -> by (by apply wrap_i64_id).
  unfold FSM_Apply, applyCreateLease, commandTime. cbn.
  destruct (Z.leb_spec d 0); [done|]. destruct (Z.leb_spec (wall c) 0); [done|].
  destruct (leaseExpiryAt _ _) as [t|] eqn:He; [|done]. cbn. intros [= <- _ _].
  apply leaseExpiryAt_ok in He as (_&Hsum&->); [|done..]. rewrite lookup_insert_eq. unfold UnixNano, time_Unix. cbn [wall].
  rewrite wrap_i64_id; [done|unfold is_i64 in *; lia].
Qed.

(** A lease found in the log, the leader that vouched for it, and when. *)
Record vouched (i ttl T : Z) (A : term_run) (x : Time) (s : Lease) : Prop := {
  v_run : A ∈ runs;
  v_found : exists k, leases (state_at cmds k) !! i = Some s /\
    forall j e, log !! j = Some e -> en_term e < tm_term A -> (j < k)%nat;
  v_ttl : ttl <= Lease_TTL s;
  v_sent : T <= real A x;
  v_precedes : precedes A x;
  v_how : TRenew x s true ∈ tm_events A \/ ExpiresAtUnixNano s = wall x + Lease_TTL s
}.

Lemma proof_vouched i ttl T : proof_of_life i ttl T -> exists A x s, vouched i ttl T A x s.
Proof.
  intros [A c k e owner d x HA He Hterm Hcmd Hc Hd Hresp Httl HT Hp|A r s k HA Hr Hi Hs Hk Httl HT Hp].
  - rewrite Hcmd in Hresp. pose proof (create_ok _ _ _ _ _ _ _ Hc Hd Hresp) as Hs.
    exists A, c, (mkLease i owner (wall c + d) d). split; try done; [|by right].
    exists (S k). split.
    + rewrite (state_at_S _ k (en_cmd e)); [by rewrite Hcmd|]. unfold cmds. by rewrite list_lookup_fmap, He.
    + intros j e' Hj Hlt. destruct (decide (j <= k)%nat); [lia|].
      pose proof (h_terms H k j e e' He Hj ltac:(lia)). lia.
  - exists A, r, s. split; try done; [by exists k|by left].
Qed.

(** No leader of the same or a later term claims the lease before [T + ttl]. *)
Lemma vouched_claims i ttl T A x s R now ls ids :
  vouched i ttl T A x s -> R ∈ runs -> tm_term A <= tm_term R ->
  TClaim now ls ids ∈ tm_events R -> i ∈ ids -> T + ttl <= real R now.
Proof.
  intros [HA (k&Hs&_) Httl HT Hp Hhow] HR Hterm Hclaim Hin.
  set (lease_of j := default s (record_from NewFSM cmds j)).
  assert (Hknown : forall y, recorded cmds y -> y = lease_of (Lease_LeaseID y))
    by (intros y Hy; unfold lease_of; by rewrite (recorded_copy cmds y (h_typed H) (h_len H) Hy)).
  pose proof (wf_leases _ (state_at_wf cmds (h_typed H) (h_len H) k) i s Hs) as [Hid _ _ _].
  assert (Hof : s = lease_of i) by (rewrite <- Hid; apply Hknown; exists k; by rewrite Hid).
  assert (Hid' : Lease_LeaseID (lease_of i) = i) by (by rewrite <- Hof).
  destruct (h_runs H R HR) as [HRok Hst]. destruct Hst as [t0 Ht0]; [intros E; rewrite E in Hclaim; by apply elem_of_nil in Hclaim|].
  apply list_elem_of_split in Hclaim as (pre&post&Hes).
  destruct (Z.eq_dec (tm_term A) (tm_term R)) as [Heq|Hne].
  - assert (R = A) as -> by (symmetry; by apply (h_leader H)).
    destruct (claimed_is_dead _ lease_of i Hknown Hid' A pre now ls ids post HRok Hes Hin) as [Hx Hdead].
    destruct Hhow as [Hr|Hexp]; [|rewrite <- Hof in Hx; unfold real in *; lia].
    rewrite Hes in Hr. apply elem_of_app in Hr as [Hr|[?|Hr]%elem_of_cons]; [|done|].
    + apply list_elem_of_split in Hr as (pre1&pre2&->). rewrite Hof in Hes.
      pose proof (same_leader_waits _ lease_of i Hknown Hid' A pre1 x pre2 now ls ids post HRok) as Hw.
      rewrite <- app_assoc in Hes. specialize (Hw Hes Hin). rewrite <- Hof in Hw. unfold real in *. lia.
    + rewrite list.Forall_forall in Hdead. by specialize (Hdead _ Hr Hid).
  - pose proof (new_leader_waits _ lease_of i Hknown Hid' R t0 pre now ls ids post HRok Ht0 Hes Hin) as Hw.
    rewrite <- Hof in Hw. specialize (Hp R t0 HR ltac:(lia) Ht0). unfold real in *. lia.
Qed.

(** Once a lease exists, an expiry of it in the log is applied no earlier than one
    TTL after any proof of its life was sent. *)
Lemma life_protects i ttl T a s j e :
  proof_of_life i ttl T -> leases (state_at cmds a) !! i = Some s -> (a <= j)%nat ->
  log !! j = Some e -> expires i (en_cmd e) -> T + ttl <= en_at e.
Proof.
  intros (A&x&s'&Hv)%proof_vouched Ha Haj Hj [Hexp Hid].
  destruct (h_expiry H e i) as (R&now&ls&ids&HR&Hterm&Hclaim&Hin&Hat); [by eapply list_elem_of_lookup_2|done|].
  enough (T + ttl <= real R now) by lia. eapply vouched_claims; try done. rewrite Hterm.
  destruct (v_found _ _ _ _ _ _ Hv) as (k&Hk&Hbefore). apply Z.nlt_ge. intros Hlt. specialize (Hbefore j e Hj Hlt).
  eapply (not_expired_between cmds (h_typed H) (h_len H) a j k i s s' (en_cmd e)); try done.
  unfold cmds. by rewrite list_lookup_fmap, Hj.
Qed.
End server.

(** ** The client side *)

Context {GS : GrpcStatus} {Conn : Type}.

(** At [y] the heartbeat loop, which the client started at [t0] counting on the
    creation sent at [T0], has not returned: it ran on time so far, [good] holds of
    the send time of every renewal that was acknowledged, and what it does next, on
    time too, is not over before [y]. *)
Inductive open_at (good : Z -> Prop) (ttl slack : Z) (c0 : @Client Conn) (T0 t0 y : Z) : Prop :=
| loop_running evs base c p t ev t' next :
    timed_run ttl slack t0 c0 (HbWaiting T0) t0 evs base c p t -> served good ttl c0 (HbWaiting T0) evs ->
    hb_step ttl c p ev = Some next -> on_time ttl slack base p t ev t' -> y <= t' ->
    open_at good ttl slack c0 T0 t0 y.

Lemma open_proof good ttl slack c0 T0 t0 y :
  0 <= ttl -> roomy ttl slack -> prompt_start ttl slack T0 t0 ->
  good T0 -> open_at good ttl slack c0 T0 t0 y -> exists T, good T /\ y < T + ttl.
Proof.
  intros Httl Hroom Hstart Hborn [evs base c p t ev t' [c1 p1] Hrun Hserved Hst Hon Hy].
  pose proof (timed_run_inv _ _ _ _ _ _ _ _ _ _ _ Httl Hroom Hrun (prompt_inv _ _ _ _ _ Httl Hstart)) as Hi.
  destruct (next_is_fresh ttl slack base c p t ev t' c1 p1) as (T&HT&Hlt); try done.
  exists T. split; [|lia]. eapply confirmed_good; try done. by intros x [= <-].
Qed.

(** ** Exclusion *)

Lemma held_refuses f n l o i r :
  locks f !! n = Some l -> i <> Lock_LeaseID l -> response (FSM_Apply f (NewAcquireLockCmd n o i)) <> Ok r.
Proof.
  intros Hl Hne. unfold FSM_Apply, applyAcquireLock, fail. cbn. rewrite Hl.
  repeat case_match; try done. to_prop. congruence.
Qed.

(** While lease [id] has a proof of life younger than one TTL, the lock it acquired
    is its own: in every state of the log up to [y] since the acquisition, unless the
    client released the lock, the lock is held by that lease with the token of the
    acquisition, and no acquisition by another lease succeeds. *)
Lemma proof_of_life_excludes (ttl T y id : Z) n o tok d a b e
    (H : history) (HT : proof_of_life id ttl T) (Hy : y < T + ttl)
    (Ha : log !! a = Some e) (Hcmd : en_cmd e = NewAcquireLockCmd n o id)
    (Hacq : response (FSM_Apply (state_at cmds a) (en_cmd e)) = Ok (RAcquireLock (mkAcquireLockResponse tok d)))
    (Hab : (a < b)%nat)
    (Hsince : forall j f, (a < j < b)%nat -> log !! j = Some f -> en_at f <= y /\ ~ releases n id (en_cmd f)) :
  (exists l, locks (state_at cmds b) !! n = Some l /\ Lock_LeaseID l = id /\ Lock_FencingToken l = tok) /\
  (forall o' i r, i <> id -> response (FSM_Apply (state_at cmds b) (NewAcquireLockCmd n o' i)) <> Ok r).
Proof.
  assert (Hca : cmds !! a = Some (en_cmd e)) by (unfold cmds; by rewrite list_lookup_fmap, Ha).
  rewrite Hcmd in Hacq, Hca. destruct (acquire_ok_held _ _ _ _ _ _ Hacq) as (l&Hl&Hlid&Hltok).
  rewrite <- (state_at_S cmds a _ Hca) in Hl.
  destruct (wf_locks _ (state_at_wf cmds (h_typed H) (h_len H) (S a)) n l Hl) as [_ (s&Hs&_) _]. rewrite Hlid in Hs.
  destruct (state_at_later cmds (h_typed H) (h_len H) (S a) b) as (Hb&Hty&Hr); [lia|].
  assert (Hkept : locks (state_at cmds b) !! n = Some l).
  { rewrite Hb. apply lock_kept_replay; [apply state_at_wf; apply H|done..|].
    apply list.Forall_forall. intros cmd Hin Hfree. apply list_elem_of_lookup in Hin as [m Hm].
    apply lookup_take_Some in Hm as [Hm Hlt]. rewrite lookup_drop in Hm. unfold cmds in Hm.
    rewrite list_lookup_fmap in Hm. destruct (log !! (S a + m)%nat) as [f|] eqn:Hf; [|done]. injection Hm as <-.
    destruct (Hsince (S a + m)%nat f) as [Hat Hrel]; [lia|done|]. rewrite Hlid in Hfree.
    destruct Hfree as [Hf1|Hexp]; [by apply Hrel|].
    pose proof (life_protects H id ttl T (S a) s (S a + m) f HT Hs ltac:(lia) Hf Hexp). lia. }
  split; [by exists l|]. intros o' i r Hne. eapply held_refuses; [done|congruence].
Qed.
End history.
