(* ===== verification/Cluster.v ===== *)
(** * The cluster and its clients

    Several nodes over one replicated log. Each node starts with
    [internal/cluster.NewNode] and then only makes the calls of the program; in the
    terms in which it leads, it answers clients and runs its expiry loop. This file
    shows that such a cluster is a history as Exclusion assumes it: what the leaders
    acknowledge and submit, over all their terms, is all the client's guarantee
    rests on. *)

From S2P Require Import Prelude GoTime Errors Domain Raftlog Fsm FsmInv FsmProps RaftFsm LeaseTracker TrackerProps Failover.
From S2P Require Import LockQueue Node Service NodeProps ServiceProps Solo Steps Leader Transport Resolver Client ClientProps Exclusion.

Lemma Forall_choose {A B} (R : A -> B -> Prop) l : Forall (fun x => exists y, R x y) l -> exists k, Forall2 R l k.
Proof. induction 1 as [|x l [y Hy] _ [k IH]]; [by exists []|]. exists (y :: k). by constructor. Qed.

Section cluster.
Context {RO : RangeOrder} {PC : ProtoCodec} {RL : RaftLib} (log : list log_entry) {LS : LogSafety (cmds log)}.

(** ** The life of a node *)

(** A node starts from the state the library restored, with a running clock; then
    requests, its expiry loop and the library make their steps, in any order. *)
Inductive lived : busy -> Prop :=
| lived_start a cfg n servers :
    (NewNode a cfg).2 = Ok (n, servers) -> fsm n = state_at (cmds log) (applied (raft n)) ->
    IsZero (as_Now a) = false -> is_Some (mono (as_Now a)) -> lived (idle n)
| lived_step b st b' : lived b -> step_ok (cmds log) b st -> run_step b st = Some b' -> lived b'.

(** One term of one node: how far its clock is ahead of real time, the node as the
    term begins, and the steps it makes in it. *)
Record leadership := mkLeadership { ld_term : Z; ld_skew : Z; ld_node : Node; ld_steps : list step }.

Definition ld_real (L : leadership) (x : Time) : Z := wall x - ld_skew L.
Definition ld_acked (L : leadership) : list (Z * Time * Duration) := acknowledged (idle (ld_node L)) (ld_steps L).
Definition ld_readings (L : leadership) : list Time := readings (idle (ld_node L)) (ld_steps L).

(** The readings made while the node leads. *)
Definition leading_readings (b : busy) (st : step) : list Time := if IsLeader (at_node b) then step_readings b st else [].
Definition ld_leading (L : leadership) : list Time := along leading_readings (idle (ld_node L)) (ld_steps L).

(** The commands a step submits, those of the expiry loop with the reading they
    rest on. *)
Definition proposes (b : busy) (st : step) : list (option Time * CommandWrapper) :=
  match st with
  | StCreate owner ttlSeconds now =>
    match leaseTTLDuration ttlSeconds (Node_Now (at_node b) now) with
    | Ok ttl => [(None, NewCreateLeaseCmd owner ttl (Node_Now (at_node b) now))]
    | Err _ => []
    end
  | StApply cmd => [(None, cmd)]
  | _ => (fun '(x, i) => (Some x, NewExpireLeaseCmd i)) <$> submits b st
  end.
Definition ld_proposed (L : leadership) : list (option Time * CommandWrapper) := along proposes (idle (ld_node L)) (ld_steps L).

(** Requests never submit an expiry. *)
Definition client_step (st : step) : Prop :=
  match st with StApply cmd => GetType cmd <> COMMAND_TYPE_EXPIRE_LEASE | _ => True end.

(** A history of the cluster: one replicated log, and the terms of its leaders.

    Of the Raft library: the terms of the log never decrease, a term has one leader,
    an entry was submitted by the leader of its term (an expiry is applied after the
    reading it rests on), and a request that was acknowledged, which takes a quorum
    that still followed that leader, precedes whatever a leader of a later term
    reads.

    Of the schedule, four conditions that the code leaves open. As a term begins, no
    request of an earlier term is still under way on the node ([ch_served]);
    [RenewLease] and the expiry loop would hand its old term to the tracker. A lease
    is claimed and its expiry submitted in one term ([ch_origin]); the loop does not
    read the term again before it submits. Requests reach the tracker in the order
    of their clock readings ([ch_in_order]); the clock is read before the mutex is
    taken. No lease is checked in a term before its election is won ([ch_elected]);
    [CheckLeaseAlive] does not check leadership. *)
Record cluster_history (leaders : list leadership) : Prop := {
  ch_typed : Forall typed (cmds log);
  ch_len : Z.of_nat (length log) < two_64 - 1;
  ch_entry : forall k e, log !! k = Some e -> entry_term k = en_term e /\ 0 <= en_term e;
  ch_terms : forall j k e f, log !! j = Some e -> log !! k = Some f -> (j <= k)%nat -> en_term e <= en_term f;
  ch_leaders : NoDup (ld_term <$> leaders);
  ch_served : forall L, L ∈ leaders -> lived (idle (ld_node L)) /\ ld_term L <> 0 /\ tr_term (node_leases (ld_node L)) <> ld_term L /\
    in_term_steps (cmds log) (ld_term L) (idle (ld_node L)) (ld_steps L) /\ Forall client_step (ld_steps L);
  ch_origin : forall e, e ∈ log -> exists L ox, L ∈ leaders /\ ld_term L = en_term e /\
    (ox, en_cmd e) ∈ ld_proposed L /\ forall x, ox = Some x -> ld_real L x <= en_at e;
  ch_quorum : forall A B i x ttl t, A ∈ leaders -> B ∈ leaders -> ld_term A < ld_term B ->
    (i, x, ttl) ∈ ld_acked A -> t ∈ ld_leading B -> ld_real A x <= ld_real B t;
  ch_in_order : forall L, L ∈ leaders -> in_order (ld_readings L);
  ch_elected : forall L t, L ∈ leaders -> t ∈ ld_readings L -> exists t0, t0 ∈ ld_leading L /\ ld_real L t0 <= ld_real L t
}.

(** The leaders granted lease [i] at least [ttl] more, for a request sent no later
    than [T]: they acknowledged its creation or its renewal. *)
Definition granted (leaders : list leadership) (i ttl T : Z) : Prop :=
  exists L x d, L ∈ leaders /\ (i, x, d) ∈ ld_acked L /\ ttl <= d /\ T <= ld_real L x.

(** ** Soundness of a node *)

Section proofs.
Context (leaders : list leadership) (H : cluster_history leaders).

Lemma cmds_len : Z.of_nat (length (cmds log)) < two_64 - 1.
Proof. unfold cmds. rewrite length_fmap. apply H. Qed.

Lemma cmds_lookup k e : log !! k = Some e -> cmds log !! k = Some (en_cmd e).
Proof. intros Hk. unfold cmds. by rewrite list_lookup_fmap, Hk. Qed.

Lemma older_entries T k : older_than T k -> forall j e, log !! j = Some e -> en_term e < T -> (j < k)%nat.
Proof.
  intros Ho j e Hj Ht. destruct (ch_entry _ H j e Hj) as [He _]. apply Ho; [|lia].
  unfold cmds. rewrite length_fmap. by eapply lookup_lt_Some.
Qed.

(** The term a request or the loop will pass on. *)
Definition request_term (p : pending) : option Z :=
  match p with PAwait term _ | PLookup term _ | PRenew term _ => Some term | _ => None end.

Record sound (b : busy) : Prop := {
  so_clock : clock_ok (at_node b);
  so_tracker : tracker_wf (node_off (at_node b)) (node_leases (at_node b));
  so_synced : synced (cmds log) (at_node b);
  so_terms : forall g p term, requests b !! g = Some p -> request_term p = Some term -> term <= CurrentTerm (raft (at_node b))
}.

Lemma sound_requests n m m' x x' :
  sound (mkBusy n m x) ->
  (forall g p term, m' !! g = Some p -> request_term p = Some term ->
     term <= CurrentTerm (raft n) \/ exists p', m !! g = Some p' /\ request_term p' = Some term) ->
  sound (mkBusy n m' x').
Proof.
  intros [Hc Hwf Hs Ht] Hm. split; cbn in *; try done. intros g p term Hp Hpt.
  destruct (Hm g p term Hp Hpt) as [?|(p'&?&?)]; [done|by eauto].
Qed.

Lemma sound_quiet b n' : sound b -> quiet (cmds log) (at_node b) n' -> sound (on_node b n').
Proof.
  intros [Hc Hwf Hs Ht] [Ql Qc Qs Qa Qt]. split; cbn; try done.
  - unfold clock_ok. by rewrite Qc.
  - unfold node_off. by rewrite Ql, Qc.
  - intros g p term Hp Hpt. specialize (Ht g p term Hp Hpt). lia.
Qed.

Lemma sound_leases b t : sound b -> tracker_wf (node_off (at_node b)) t -> sound (on_node b (set_leases (at_node b) t)).
Proof. intros [Hc Hwf Hs Ht] Hwf'. split; try done. by apply synced_leases. Qed.

Lemma sound_next b g p :
  sound b -> (forall term, request_term p = Some term -> term <= CurrentTerm (raft (at_node b))) -> sound (next b g (at_node b) p).
Proof.
  intros Hb Hp. destruct b as [n m x]. eapply sound_requests; [done|]. cbn. intros g' p' term. rewrite lookup_insert.
  case_decide; [intros [= <-]; by eauto|by eauto].
Qed.
Lemma sound_returns b g : sound b -> sound (returns b g (at_node b)).
Proof.
  intros Hb. destruct b as [n m x]. eapply sound_requests; [done|]. cbn. intros g' p' term. rewrite lookup_delete.
  case_decide; [done|by eauto].
Qed.
Lemma sound_loop b x : sound b -> sound (loop_next b (at_node b) x).
Proof. by intros []. Qed.

Lemma request_step_sound b st g p b' :
  requests b !! g = Some p -> sound b -> step_ok (cmds log) b st -> request_step b st g p = Some b' -> sound b'.
Proof.
  intros Hp Hb Hok. pose proof Hb as [Hc Hwf Hs Ht]. specialize (Ht g p).
  destruct p as [term id|term id|term s|s x|s], st; cbn [request_step step_ok request_term] in *; try by intros [= <-].
  - pose proof (quiet_await (cmds log) (ch_typed _ H) cmds_len (at_node b) term Hs (Ht _ Hp eq_refl)) as Hq.
    pose proof (sound_quiet b _ Hb Hq). destruct (awaitTermApplied _ _) as [n1 [err|]]; intros [= <-].
    + by apply (sound_returns (on_node b n1)).
    + apply (sound_next (on_node b n1)); [done|]. intros t [= <-]. cbn in *. specialize (Ht _ Hp eq_refl). destruct Hq. cbn in *. lia.
  - destruct (GetLease _ _) as [s|]; intros [= <-]; [|by apply sound_returns].
    apply sound_next; [done|]. intros t [= <-]. by apply (Ht term).
  - destruct Hok as [Hm _]. pose proof (Node_Now_lockstep _ now Hc Hm) as Hn.
    destruct (renew _ _ _ _) as [[t res]|] eqn:Hr; [|done]. intros [= <-].
    pose proof (sound_leases b t Hb (proj1 (renew_wf _ _ _ _ _ _ _ Hwf Hn Hr))) as Hb'.
    destruct res; [by apply (sound_returns (on_node b _))|by apply (sound_next (on_node b _))].
  - pose proof (safe_VerifyLeader (raft (at_node b))) as Hv. destruct (VerifyLeader _) as [[r bs] verr]. intros [= <-].
    by apply (sound_returns (on_node b _)), sound_quiet, quiet_entries; [|apply H|apply cmds_len|..].
  - destruct Hok as [Hm _]. intros [= <-]. apply (sound_returns (on_node b _)), sound_leases; [done|].
    apply syncTerm_wf; [done|]. by apply Node_Now_lockstep.
Qed.

Lemma loop_step_sound b st b' : sound b -> step_ok (cmds log) b st -> loop_step b st = Some b' -> sound b'.
Proof.
  intros Hb Hok. pose proof Hb as [Hc Hwf Hs Ht]. unfold loop_step.
  destruct (expiry_loop b) as [|term ls|x ids|x id c ids], st; try (by intros [= <-]); cbn [step_ok] in Hok; try (by destruct ids; intros [= <-]).
  - intros [= <-]. destruct (IsLeader _); [by apply sound_loop|done].
  - destruct Hok as [Hm _]. destruct (claimExpired _ _ _ _) as [[t ids]|] eqn:Hcl; [|done]. intros [= <-].
    apply (sound_loop (on_node b _)), sound_leases; [done|].
    eapply claimLoop_wf; [exact Hcl|]. apply syncTerm_wf; [done|]. by apply Node_Now_lockstep.
  - destruct ids as [|id ids]; [intros [= <-]; by apply sound_loop|].
    pose proof (quiet_Apply (cmds log) (ch_typed _ H) cmds_len (at_node b) (NewExpireLeaseCmd id) Hs) as Hq.
    pose proof (sound_quiet b _ Hb Hq) as Hb'. destruct (Node_Apply _ _) as [n1 r]. intros [= <-]. by apply (sound_loop (on_node b n1)).
  - intros [= <-]. apply (sound_loop (on_node b _)), sound_leases; [done|]. by apply finishExpiry_spec.
Qed.

Lemma run_step_sound b st b' : sound b -> step_ok (cmds log) b st -> run_step b st = Some b' -> sound b'.
Proof.
  intros Hb Hok. pose proof (so_synced _ Hb) as Hs.
  destruct st as [owner secs now|g id|g|g|g now|g|g id|g now| |now| | |cmd|r bs]; cbn [run_step].
  3-6,8: destruct (requests b !! g) as [p|] eqn:Hp; [by apply request_step_sound|by intros [= <-]].
  all: try by apply loop_step_sound.
  - intros [= <-]. by apply sound_quiet, quiet_CreateLease; [|apply H|apply cmds_len|].
  - intros [= <-]. destruct (requests b !! g); [done|]. cbn. destruct (ensureLeader _); [done|].
    apply sound_next; [done|]. intros t [= <-]. lia.
  - intros [= <-]. destruct (requests b !! g); [done|]. cbn. destruct (GetLease _ _); [by apply sound_next|done].
  - intros [= <-]. by apply sound_quiet, quiet_Apply; [|apply H|apply cmds_len|].
  - intros [= <-]. by apply sound_quiet, quiet_entries; [|apply H|apply cmds_len|..].
Qed.

(** Every state a node can be in is sound: its tracker is well-formed, its state
    machine is the state after a prefix of the log, and that prefix contains all
    entries older than the last barrier. *)
Lemma lived_sound b : lived b -> sound b.
Proof.
  induction 1 as [a c n servers Hnew Hf Hz Hm|b st b' _ Hb Hok Hrun]; [|by eapply run_step_sound].
  assert (Hn : clockStarted n = as_Now a /\ node_leases n = zero_tracker /\ barrierTerm n = 0).
  { revert Hnew. unfold NewNode. cbn. repeat case_match; intros [= <- _]; done. }
  destruct Hn as (Hck&Hl&Hb). split; cbn; [unfold clock_ok; by rewrite Hck|rewrite Hl; apply zero_tracker_wf| |by intros g p t ?%lookup_empty_Some].
  split; [done|]. rewrite Hb. intros j Hj Ht. unfold cmds in Hj. rewrite length_fmap in Hj.
  destruct (lookup_lt_is_Some_2 log j Hj) as [e He]. destruct (ch_entry _ H j e He). lia.
Qed.

(** ** The leaders' runs *)

Record run_of (L : leadership) (R : term_run) : Prop := {
  rf_term : tm_term R = ld_term L;
  rf_skew : tm_skew R = ld_skew L;
  rf_ok : run_ok (recorded (cmds log)) R;
  rf_start : tm_events R <> [] -> exists t0, started R t0;
  rf_reads : forall e x, e ∈ tm_events R -> ev_time e = Some x -> x ∈ ld_readings L;
  rf_acks : forall i x ttl, (i, x, ttl) ∈ ld_acked L -> vouches (cmds log) (ld_term L) (tm_events R) i x ttl;
  rf_claims : forall x i, (x, i) ∈ submitted (idle (ld_node L)) (ld_steps L) -> exists ls ids, TClaim x ls ids ∈ tm_events R /\ i ∈ ids
}.

Lemma run_exists L : L ∈ leaders -> exists R, run_of L R.
Proof.
  intros HL. destruct (ch_served _ H L HL) as (Hlife&HT&Hnew&Hsteps&_). destruct (lived_sound _ Hlife) as [Hc Hwf Hs _].
  destruct (term_served (cmds log) (ch_typed _ H) cmds_len (ld_term L) [] (idle (ld_node L)) (ld_steps L) HT
    (idle_ok _ _ _ Hc Hwf Hs) Hsteps) as (b'&es&_&Hst).
  pose proof (served_run_ok _ _ (ld_skew L) _ _ _ _ HT Hnew Hwf Hst (ch_in_order _ H L HL)) as Hok.
  destruct Hst as [O R C Q B P A S].
  exists (mkTermRun (ld_term L) (node_off (ld_node L)) (ld_skew L) (node_leases (ld_node L)) es (node_leases (at_node b'))).
  split; [done|done|exact Hok| |by intros; eapply C|done|done].
  cbn. intros Hne. destruct es as [|e es]; [done|]. destruct (B eq_refl e es eq_refl) as [t0 Ht0]. by exists t0, e, es.
Qed.

Lemma runs_exist : exists runs, Forall2 run_of leaders runs.
Proof. apply Forall_choose, list.Forall_forall, run_exists. Qed.

Context (runs : list term_run) (Hruns : Forall2 run_of leaders runs).

Lemma run_leader R : R ∈ runs -> exists L, L ∈ leaders /\ run_of L R.
Proof.
  intros [k Hk]%list_elem_of_lookup. destruct (Forall2_lookup_r _ _ _ _ _ Hruns Hk) as (L&HL&HR).
  exists L. split; [by eapply list_elem_of_lookup_2|done].
Qed.

Lemma leader_has_run L : L ∈ leaders -> exists R, R ∈ runs /\ run_of L R.
Proof.
  intros [k Hk]%list_elem_of_lookup. destruct (Forall2_lookup_l _ _ _ _ _ Hruns Hk) as (R&HR&HL).
  exists R. split; [by eapply list_elem_of_lookup_2|done].
Qed.

(** Raft gives a term to one leader. *)
Lemma one_run_per_term R R' : R ∈ runs -> R' ∈ runs -> tm_term R = tm_term R' -> R = R'.
Proof.
  intros [k Hk]%list_elem_of_lookup [k' Hk']%list_elem_of_lookup Heq.
  destruct (Forall2_lookup_r _ _ _ _ _ Hruns Hk) as (L&HL&HR). destruct (Forall2_lookup_r _ _ _ _ _ Hruns Hk') as (L'&HL'&HR').
  enough (k = k') by congruence. eapply NoDup_lookup; [apply (ch_leaders _ H)|rewrite list_lookup_fmap, HL; done|].
  rewrite list_lookup_fmap, HL'. cbn. by rewrite <- (rf_term _ _ HR), <- (rf_term _ _ HR'), Heq.
Qed.

(** An expiry among the submissions of a leader is one of its expiry loop's. *)
Lemma proposed_expiry b steps ox cmd :
  Forall client_step steps -> (ox, cmd) ∈ along proposes b steps -> GetType cmd = COMMAND_TYPE_EXPIRE_LEASE ->
  exists x, ox = Some x /\ (x, ExpireLease_GetLeaseId (GetExpireLease cmd)) ∈ submitted b steps.
Proof.
  intros Hcl. revert b. induction Hcl as [|st steps Hst _ IH]; intros b; [by intros ?%elem_of_nil|].
  unfold submitted in *. cbn [along]. intros [Hp|Hp]%elem_of_app Ht.
  - assert (Hex : exists x, ox = Some x /\ (x, ExpireLease_GetLeaseId (GetExpireLease cmd)) ∈ submits b st).
    { destruct st; cbn [proposes] in Hp; try (by apply elem_of_nil in Hp);
        try (apply list_elem_of_fmap in Hp as ([x i]&[= -> ->]&Hi); by exists x).
      - destruct (leaseTTLDuration _ _); [|by apply elem_of_nil in Hp]. by apply list_elem_of_singleton in Hp as [= -> ->].
      - by apply list_elem_of_singleton in Hp as [= -> ->]. }
    destruct Hex as (x&->&Hx). exists x. split; [done|]. apply elem_of_app. by left.
  - destruct (run_step b st) as [b'|]; [|by apply elem_of_nil in Hp].
    destruct (IH b' Hp Ht) as (x&->&Hx). exists x. split; [done|]. apply elem_of_app. by right.
Qed.

(** The cluster's leaders make a history. *)
Lemma cluster_is_history : history log runs.
Proof.
  split; [apply H|apply cmds_len|apply H| |apply one_run_per_term|].
  - intros R (L&HL&HR)%run_leader. split; apply HR.
  - intros e i He [Hexp Hi]. destruct (ch_origin _ H e He) as (L&ox&HL&HT&Hp&Hat).
    destruct (ch_served _ H L HL) as (_&_&_&_&Hcl). destruct (proposed_expiry _ _ _ _ Hcl Hp Hexp) as (x&Hox&Hx).
    destruct (leader_has_run L HL) as (R&HR&HLR). rewrite Hi in Hx. destruct (rf_claims _ _ HLR x i Hx) as (ls&ids&Hc&Hin).
    exists R, x, ls, ids. split_and!; try done; [by rewrite (rf_term _ _ HLR)|].
    unfold real. rewrite (rf_skew _ _ HLR). by apply Hat.
Qed.

Lemma acked_precedes L R i x ttl : L ∈ leaders -> run_of L R -> (i, x, ttl) ∈ ld_acked L -> precedes runs R x.
Proof.
  intros HL HR Hx B t0 (LB&HLB&HB)%run_leader Hlt (e&es&He&Ht).
  unfold real. rewrite (rf_skew _ _ HR), (rf_skew _ _ HB). rewrite (rf_term _ _ HR), (rf_term _ _ HB) in Hlt.
  destruct (ch_elected _ H LB t0 HLB) as (t1&Ht1&Hle); [eapply (rf_reads _ _ HB e); [rewrite He; by left|done]|].
  pose proof (ch_quorum _ H L LB i x ttl t1 HL HLB Hlt Hx Ht1). unfold ld_real in *. lia.
Qed.

(** What the leaders granted is a proof of life. *)
Lemma granted_life i ttl T : granted leaders i ttl T -> proof_of_life log runs i ttl T.
Proof.
  intros (L&x&d&HL&Hack&Hd&HT). destruct (leader_has_run L HL) as (R&HR&HLR).
  pose proof (acked_precedes L R i x d HL HLR Hack) as Hp.
  assert (Hreal : T <= real R x) by (unfold real; by rewrite (rf_skew _ _ HLR)).
  destruct (rf_acks _ _ HLR i x d Hack) as [k owner ex Hk Hterm Hx Hdi Hresp|k s Hr Hid Httl Hs Hold].
  - unfold cmds in Hk. rewrite list_lookup_fmap in Hk. destruct (log !! k) as [e|] eqn:He; [|done]. injection Hk as Hcmd.
    destruct (ch_entry _ H k e He) as [Het _]. eapply (created _ _ _ _ _ R x k e); try done.
    + by rewrite (rf_term _ _ HLR), <- Hterm, Het.
    + unfold is_i64. lia.
    + by rewrite Hcmd.
  - eapply (renewed _ _ _ _ _ R x s k); try done; [|by rewrite Httl].
    rewrite (rf_term _ _ HLR). by apply older_entries.
Qed.
End proofs.

(** ** Exclusion *)

Context {GS : GrpcStatus} {Conn : Type}.

(** C1: a client owns its lock alone for as long as it believes so, under the
    conditions below. Let a client have acquired lock [n] with token [tok], and let
    [y] be any instant at which its heartbeat loop has not returned. Then in every
    state of the log up to [y] since the acquisition, unless the client released the
    lock itself, the lock is held by its lease with that token, and no acquisition by
    another lease succeeds: across leader changes, with the clocks of the nodes set
    differently, with the steps of concurrent requests interleaved, and whatever
    messages are lost.

    The conditions. On the cluster ([cluster_history]): its nodes start with
    [NewNode] and make only the program's steps over one replicated log; Raft gives a
    term one leader, never lets terms of the log decrease, and lets no later leader
    act before a request an earlier one acknowledged; all clocks run at the same
    rate; no request of an earlier term is still under way on a node as its term
    begins; a lease is claimed and its expiry submitted in one term; requests reach
    a leader's tracker in the order of their clock readings; no lease is checked in a
    term before its election is won. On the client: every acknowledgement it got is
    a leader's; ticks, timers and attempts are at most [slack] late; a quarter of the
    TTL is more than 1 ms plus three times [slack]; and its loop started so soon
    after the request to create the lease was sent that two heartbeat intervals and
    three times [slack] later a TTL has not passed. *)
Theorem exclusive_while_session_open (leaders : list leadership) (ttl slack : Z) (c0 : @Client Conn) (T0 t0 y : Z) n o tok d a b e
    (H : cluster_history leaders) (Httl : 0 <= ttl) (Hroom : roomy ttl slack) (Hstart : prompt_start ttl slack T0 t0)
    (Hborn : granted leaders (leaseID (session c0)) ttl T0)
    (Hopen : open_at (granted leaders (leaseID (session c0)) ttl) ttl slack c0 T0 t0 y)
    (Ha : log !! a = Some e) (Hcmd : en_cmd e = NewAcquireLockCmd n o (leaseID (session c0)))
    (Hacq : response (FSM_Apply (state_at (cmds log) a) (en_cmd e)) = Ok (RAcquireLock (mkAcquireLockResponse tok d)))
    (Hab : (a < b)%nat)
    (Hsince : forall j f, (a < j < b)%nat -> log !! j = Some f ->
      en_at f <= y /\ ~ releases n (leaseID (session c0)) (en_cmd f)) :
  (exists l, locks (state_at (cmds log) b) !! n = Some l /\ Lock_LeaseID l = leaseID (session c0) /\ Lock_FencingToken l = tok) /\
  (forall o' i r, i <> leaseID (session c0) ->
     response (FSM_Apply (state_at (cmds log) b) (NewAcquireLockCmd n o' i)) <> Ok r).
Proof.
  destruct (open_proof (granted leaders (leaseID (session c0)) ttl) ttl slack c0 T0 t0 y) as (T&HT&Hy); try done.
  destruct (runs_exist leaders H) as [runs Hruns].
  eapply (proof_of_life_excludes log runs ttl T y); try done; [by eapply cluster_is_history|by eapply granted_life].
Qed.
End cluster.

(** ** A concrete cluster

    Two nodes. The first leads term 7: it creates the holder's lease at second 1,
    grants it the lock, creates another lease at second 3 and renews the holder's at
    second 5, while a check of the other lease is under way. The second node's clock
    is 100 s ahead; it leads term 8 from second 6, refuses the lock to the other lease
    at second 11.5 and expires the holder's lease at second 16. The holder's renewals
    fail from second 7.5 on; its loop is still running at second 11.8. *)

#[local] Instance ex_order : RangeOrder := map_order.

Definition ex_log : list log_entry :=
  [mkEntry 7 (1 * Second) (NewCreateLeaseCmd "worker" (10 * Second) (ex_time 1));
   mkEntry 7 (2 * Second) (NewAcquireLockCmd "db" "worker" 1);
   mkEntry 7 (3 * Second) (NewCreateLeaseCmd "other" (10 * Second) (ex_time 3));
   mkEntry 8 (11500 * Millisecond) (NewAcquireLockCmd "db" "other" 2);
   mkEntry 8 (16 * Second) (NewExpireLeaseCmd 1)].
Definition ex_script : list (Z * CommandWrapper) := (fun e => (en_term e, en_cmd e)) <$> ex_log.
Definition ex_raft : @RaftLib id_codec := scripted_raft ex_script.
Lemma ex_typed : Forall typed ex_script.*2.
Proof. repeat constructor; by vm_compute. Qed.
Definition ex_safe : @LogSafety id_codec ex_raft (cmds ex_log) := scripted_safe ex_script ex_typed.

(** A node that starts at second [s] of its clock and leads term [T]. *)
Definition ex_assembly (s T : Z) : @Assembly id_codec ex_raft :=
  mkAssembly (RL := ex_raft) None None (fun _ => None) None (fun _ f => Ok ((0%nat, T), f)) (Ok true) (fun r _ => r) (ex_time s).
Definition ex_node (s T : Z) : @Node id_codec ex_raft :=
  mkNode (RL := ex_raft) (0%nat, T) NewFSM solo_config (ex_time s) zero_tracker newLockQueues 0 false false.

Definition ex_A : @leadership id_codec ex_raft :=
  mkLeadership (RL := ex_raft) 7 0 (ex_node 0 7)
    [StCreate (RL := ex_raft) "worker" 10 (ex_time 1);
     StApply (RL := ex_raft) (NewAcquireLockCmd "db" "worker" 1);
     StCreate (RL := ex_raft) "other" 10 (ex_time 3);
     StFind (RL := ex_raft) 1 2; StBegin (RL := ex_raft) 0 1; StAwait (RL := ex_raft) 0; StLookup (RL := ex_raft) 0;
     StCheck (RL := ex_raft) 1 (ex_time 4); StRenew (RL := ex_raft) 0 (ex_time 5); StVerify (RL := ex_raft) 0].
Definition ex_B : @leadership id_codec ex_raft :=
  mkLeadership (RL := ex_raft) 8 (100 * Second) (ex_node 100 8)
    (renewal (RL := ex_raft) 0 2 (ex_time 106) ++ [StApply (RL := ex_raft) (NewAcquireLockCmd "db" "other" 2)] ++
     renewal (RL := ex_raft) 0 2 (ex_time 110) ++ expiry_tick (RL := ex_raft) (ex_time 116) 1).

Lemma ex_lived s T : IsZero (ex_time s) = false -> lived (LS := ex_safe) ex_log (idle (ex_node s T)).
Proof.
  intros Hs. by apply (lived_start (LS := ex_safe) ex_log (ex_assembly s T) solo_config _ None); [reflexivity|reflexivity|exact Hs|eexists].
Qed.

Example ex_A_acks : ld_acked ex_A = [(1, ex_time 1, 10 * Second); (2, ex_time 3, 10 * Second); (1, ex_time 5, 10 * Second)].
Proof. by vm_compute. Qed.
Example ex_A_readings : ld_readings ex_A = [ex_time 4; ex_time 5] /\ ld_leading ex_A = [ex_time 4; ex_time 5].
Proof. by vm_compute. Qed.
Example ex_B_readings :
  ld_readings ex_B = [ex_time 106; ex_time 110; ex_time 116] /\ ld_leading ex_B = [ex_time 106; ex_time 110; ex_time 116].
Proof. by vm_compute. Qed.
Example ex_A_proposed : ld_proposed ex_A = (fun e => (None, en_cmd e)) <$> take 3 ex_log.
Proof. by vm_compute. Qed.
Example ex_B_proposed : ld_proposed ex_B =
  [(None, NewAcquireLockCmd "db" "other" 2); (Some (ex_time 116), NewExpireLeaseCmd 1)].
Proof. by vm_compute. Qed.

Lemma ex_leaders L : L ∈ [ex_A; ex_B] -> L = ex_A \/ L = ex_B.
Proof. intros [->|[->|[]%elem_of_nil]%elem_of_cons]%elem_of_cons; auto. Qed.

Lemma ex_quorum A B i x ttl t :
  A ∈ [ex_A; ex_B] -> B ∈ [ex_A; ex_B] -> ld_term A < ld_term B -> (i, x, ttl) ∈ ld_acked A -> t ∈ ld_leading B ->
  ld_real A x <= ld_real B t.
Proof.
  intros [->| ->]%ex_leaders [->| ->]%ex_leaders Hlt; try by vm_compute in Hlt. rewrite ex_A_acks, (proj2 ex_B_readings).
  intros Hx Ht. assert (Hr : wall x <= 5 * Second /\ 106 * Second <= wall t).
  { split; [|repeat (apply elem_of_cons in Ht as [->|Ht]; [by vm_compute|]); by apply elem_of_nil in Ht].
    repeat (apply elem_of_cons in Hx as [[= -> -> ->]|Hx]; [by vm_compute|]). by apply elem_of_nil in Hx. }
  unfold ld_real. cbn [ld_skew ex_A ex_B]. lia.
Qed.

Lemma ex_origin e : e ∈ ex_log -> exists L ox, L ∈ [ex_A; ex_B] /\ ld_term L = en_term e /\
  (ox, en_cmd e) ∈ ld_proposed L /\ forall x, ox = Some x -> ld_real L x <= en_at e.
Proof.
  intros He. apply list_elem_of_lookup in He as [k Hk]. destruct (decide (k < 3)%nat) as [Hlt|Hge].
  - exists ex_A, None. rewrite ex_A_proposed. split_and!; [by left| |apply list_elem_of_fmap|done].
    + destruct k as [|[|[|]]]; [by injection Hk as <-..|lia].
    + exists e. split; [done|]. eapply list_elem_of_lookup_2, lookup_take_Some. by split.
  - exists ex_B. rewrite ex_B_proposed. destruct k as [|[|[|[|[|k]]]]]; try lia; [| |done]; injection Hk as <-.
    + exists None. split_and!; [by right; left|done|by left|done].
    + exists (Some (ex_time 116)). split_and!; [by right; left|done|by right; left|]. intros x [= <-]. by vm_compute.
Qed.

Lemma ex_history : cluster_history (LS := ex_safe) ex_log [ex_A; ex_B].
Proof.
  split.
  - apply ex_typed.
  - by vm_compute.
  - intros [|[|[|[|[|]]]]] e He; simplify_eq/=; done.
  - intros [|[|[|[|[|]]]]] [|[|[|[|[|]]]]] e f He Hf Hle; simplify_eq/=; try lia; try done.
  - cbn. repeat constructor; set_solver.
  - intros L [->| ->]%ex_leaders; (split_and!; [by apply ex_lived|done|done|apply in_term_stepsb_ok; by vm_compute|by repeat constructor]).
  - apply ex_origin.
  - apply ex_quorum.
  - intros L [->| ->]%ex_leaders; [rewrite (proj1 ex_A_readings)|rewrite (proj1 ex_B_readings)]; repeat constructor; by vm_compute.
  - intros L t [->| ->]%ex_leaders;
      [rewrite (proj1 ex_A_readings), (proj2 ex_A_readings)|rewrite (proj1 ex_B_readings), (proj2 ex_B_readings)]; by exists t.
Qed.

Definition ex_client : @Client unit :=
  mkClient "worker" (newResolver ["127.0.0.1:9000"%string]) (mkSession 1 (10 * Second) None (Some 1) (Some 1) false).
Definition ex_env : @attempt_env unit :=
  mkAttemptEnv (fun _ => Ok tt) (fun _ => Err (Errorf "unused")) (Err (Errorf "unused")) None
    (Ok (pb_mkHeartbeatResponse 1 10)) CaseResult.
Definition ex_events : list (@hb_event unit) :=
  [EvTick (4300 * Millisecond) (5100 * Millisecond) ex_env false;
   EvTick (7500 * Millisecond) (10800 * Millisecond) lost_env false; EvCheck (10800 * Millisecond)].
Definition ex_end : @Client unit * hb_phase :=
  default (ex_client, HbExited) (heartbeatLoop ex_client (1 * Second) ex_events).

Lemma ex_run :
  timed_run (10 * Second) 0 (1 * Second) ex_client (HbWaiting (1 * Second)) (1 * Second) ex_events
    (7500 * Millisecond) ex_end.1 ex_end.2 (10800 * Millisecond).
Proof.
  repeat (eapply run_cons; [vm_compute; reflexivity|vm_compute; repeat split; congruence|]).
  apply run_nil.
Qed.

Lemma ex_created : granted [ex_A; ex_B] 1 (10 * Second) (1 * Second).
Proof. exists ex_A, (ex_time 1), (10 * Second). rewrite ex_A_acks. split_and!; [by left|by left|done|by vm_compute]. Qed.

Lemma ex_renewed : granted [ex_A; ex_B] 1 (10 * Second) (4300 * Millisecond).
Proof. exists ex_A, (ex_time 5), (10 * Second). rewrite ex_A_acks. split_and!; [by left|by right; right; left|done|by vm_compute]. Qed.

Lemma ex_open :
  open_at (granted [ex_A; ex_B] 1 (10 * Second)) (10 * Second) 0 ex_client (1 * Second) (1 * Second) (11800 * Millisecond).
Proof.
  eapply (loop_running _ _ _ _ _ _ _ _ _ _ _ _ (EvTimer (10850 * Millisecond) (11800 * Millisecond) lost_env false)
    (11800 * Millisecond)); [apply ex_run| |vm_compute; reflexivity|vm_compute; repeat split; congruence|done].
  split; [intros x [= <-]; apply ex_renewed|]. by repeat split.
Qed.

Lemma exclusive_while_session_open_witness :
  (exists l, locks (state_at (cmds ex_log) 4) !! "db"%string = Some l /\ Lock_LeaseID l = 1 /\ Lock_FencingToken l = 1) /\
  response (FSM_Apply (state_at (cmds ex_log) 3) (NewAcquireLockCmd "db" "other" 2)) = Err (Domain ErrLockAlreadyHeld).
Proof.
  split; [|by vm_compute].
  apply (exclusive_while_session_open (LS := ex_safe) ex_log [ex_A; ex_B] (10 * Second) 0 ex_client (1 * Second) (1 * Second)
    (11800 * Millisecond) "db" "worker" 1 (10 * Second) 1 4 (mkEntry 7 (2 * Second) (NewAcquireLockCmd "db" "worker" 1)) ex_history);
    [done|by vm_compute|by vm_compute|apply ex_created|apply ex_open|done|done|by vm_compute|lia|].
  intros [|[|[|[|]]]] f Hj Hf; simplify_eq/=; try lia; (split; [lia|by intros [? _]]).
Defined.
