(* ===== verification/Bench.v ===== *)
(** * The benchmark driver (cmd/clavis-bench: stats.go, main.go)

    Latency statistics, the command line, and the operations the scenarios are made
    of. Floating-point arithmetic is IEEE double precision (the Standard Library's
    [SpecFloat]); each operation is rounded, as on machines where the compiler does
    not fuse a multiplication with an addition. What is printed is in Report. *)

From Stdlib Require Import Ascii Floats.SpecFloat.
From S2P Require Import Prelude GoTime Errors Strings Transport Resolver Client.

(** ** float64 *)

Definition float64 (n : Z) : spec_float := binary_normalize 53 1024 n 0 false.
Definition fadd : spec_float -> spec_float -> spec_float := SFadd 53 1024.
Definition fmul : spec_float -> spec_float -> spec_float := SFmul 53 1024.
Definition fdiv : spec_float -> spec_float -> spec_float := SFdiv 53 1024.
Definition half : spec_float := binary_normalize 53 1024 1 (-1) false.

(** [int(x)]: toward zero. Go leaves NaN and values out of range open. *)
Definition int_of (x : spec_float) : Z :=
  match x with
  | S754_zero _ => 0
  | S754_finite s m e =>
    let v := if 0 <=? e then Z.pos m * 2 ^ e else Z.pos m / 2 ^ (- e) in if s then - v else v
  | _ => min_int64
  end.

(** ** Samples (stats.go) *)

Abbreviation samples := (list Duration).

Definition pct (s : samples) (p : spec_float) : Duration :=
  match s with
  | [] => 0
  | _ =>
    let sorted := merge_sort Z.le s in
    let rank := int_of (fadd (fmul (fdiv p (float64 100)) (float64 (Z.of_nat (length sorted)))) half) - 1 in
    default 0 (sorted !! Z.to_nat (Z.max 0 (Z.min rank (Z.of_nat (length sorted) - 1))))
  end.

Definition samples_max (s : samples) : Duration := match s with [] => 0 | x :: s => foldl Z.max x s end.
Definition samples_min (s : samples) : Duration := match s with [] => 0 | x :: s => foldl Z.min x s end.

(** ** The command line (main.go) *)

(** [strconv.Atoi] *)
Definition digit (c : ascii) : option Z :=
  let n := Z.of_N (N_of_ascii c) in if (48 <=? n) && (n <=? 57) then Some (n - 48) else None.
Fixpoint digits (acc : Z) (s : string) : option Z :=
  match s with
  | EmptyString => Some acc
  | String c s => match digit c with Some d => digits (10 * acc + d) s | None => None end
  end.
Definition Atoi (s : string) : option Z :=
  let '(sign, body) := match s with
    | String "-" body => (-1, body) | String "+" body => (1, body) | _ => (1, s) end in
  if String.eqb body "" then None else
  match digits 0 body with
  | Some n => if bool_decide (is_i64 (sign * n)) then Some (sign * n) else None
  | None => None
  end.

(** [None]: the process exits with status 2. *)
Fixpoint parseParts (parts : list string) : option (list Z) :=
  match parts with
  | [] => Some []
  | part :: parts =>
    match Atoi (TrimSpace part) with
    | None => None
    | Some n => if n <? 0 then None else match parseParts parts with Some ns => Some (n :: ns) | None => None end
    end
  end.
Definition parseInts (s : string) : option (list Z) := parseParts (split_comma s).

Record scenario := mkScenario { sc_name : string; sc_inProcessOnly : bool }.
Definition scenarios : list scenario :=
  [mkScenario "latency" false; mkScenario "throughput" false; mkScenario "handoff" false;
   mkScenario "sessions" false; mkScenario "failover" true; mkScenario "handover" false].

Fixpoint findIn (name : string) (ss : list scenario) : option scenario :=
  match ss with [] => None | s :: ss => if String.eqb (sc_name s) name then Some s else findIn name ss end.
Definition findScenario (name : string) : option scenario := findIn name scenarios.

(** The scenarios selected; [None]: an unknown name, exit status 2. *)
Fixpoint selectNames (names : list string) : option (list scenario) :=
  match names with
  | [] => Some []
  | name :: names =>
    match findScenario name with
    | None => None
    | Some s => match selectNames names with Some ss => Some (s :: ss) | None => None end
    end
  end.
Definition selected (args : list string) : option (list scenario) :=
  if bool_decide (args = []) then Some scenarios else selectNames args.

(** What the loop of [main] does with each: skipped against an external cluster, or
    run; it ends at the first error. *)
Inductive scenario_end := Skipped (name : string) | Ran (name : string) | Broke (name : string) (err : error).
Fixpoint runSelected (external : bool) (run : scenario -> option error) (ss : list scenario) : list scenario_end :=
  match ss with
  | [] => []
  | s :: ss =>
    if sc_inProcessOnly s && external then Skipped (sc_name s) :: runSelected external run ss else
    match run s with
    | Some err => [Broke (sc_name s) err]
    | None => Ran (sc_name s) :: runSelected external run ss
    end
  end.

(** ** Operations *)

Section operations.
Context {GS : GrpcStatus} {Conn : Type} {RO : RangeOrder}.

(** [rounds] and [e] are what the network answers; [None]: still retrying. *)
Definition startClient (seeds : list string) (owner : string) (ttl : Duration)
    (rounds : list (@round Conn pb_CreateLeaseResponse)) (e : @attempt_env Conn) (close_err : Conn -> option error)
    : option (result error Client) :=
  match NewClientWithSeeds seeds owner with
  | Err err => Some (Err err)
  | Ok c =>
    match Start c ttl rounds e with
    | (_, _, None, _) => None
    | (c, _, Some (Some err), _) =>
      let '(_, _, _, _) := client_Stop c close_err in Some (Err (wrapf ("start session " +:+ owner) err))
    | (c, _, Some None, _) => Some (Ok c)
    end
  end.

(** [start], [acquired] and [stop] are the clock's readings. *)
Definition cycle (c : @Client Conn) (lockName : string)
    (acq : pb_AcquireLockRequest -> list (@round Conn pb_AcquireLockResponse))
    (rel : pb_ReleaseLockRequest -> list (@round Conn pb_ReleaseLockResponse)) (start acquired stop : Z)
    : Client * option (result error (Duration * Duration)) :=
  match Acquire c lockName acq with
  | (c, None) => (c, None)
  | (c, Some (Err err)) => (c, Some (Err err))
  | (c, Some (Ok lock)) =>
    match Lock_Release c lock rel with
    | (c, None) => (c, None)
    | (c, Some (Some err)) => (c, Some (Err err))
    | (c, Some None) => (c, Some (Ok (acquired - start, stop - acquired)))
    end
  end.

(** How many sessions have failed closed. *)
Definition countLost (clients : list (@Client Conn)) : nat := length (filter (fun c => Done c = true) clients).

(** Clients that were not started are nil. *)
Definition stopAll (clients : list (option (@Client Conn))) (close_err : Conn -> option error) : list (option Client) :=
  (fun c => match c with Some c => Some (client_Stop c close_err).1.1.1 | None => None end) <$> clients.

(** What the [n] goroutines of [startClients] got: the clients, all of them, or
    nothing and those that had started are stopped. *)
Definition startClients (results : list (result error (@Client Conn))) (close_err : Conn -> option error)
    : result error (list Client) * list (option Client) :=
  let clients := (fun r => match r with Ok c => Some c | Err _ => None end) <$> results in
  match omap (fun r => match r with Ok _ => None | Err err => Some err end) results with
  | [] => (Ok (omap (fun c => c) clients), clients)
  | err :: _ => (Err err, stopAll clients close_err)
  end.
End operations.

(** ** Proofs *)

Lemma foldl_max_spec x (s : samples) : x <= foldl Z.max x s /\ (forall y, y ∈ s -> y <= foldl Z.max x s) /\ foldl Z.max x s ∈ x :: s.
Proof.
  revert x. induction s as [|z s IH]; intros x; simpl; [split_and!; [lia|set_solver|set_solver]|].
  destruct (IH (Z.max x z)) as (H1&H2&H3). split_and!; [lia| |].
  - intros y [->|Hy]%elem_of_cons; [lia|auto].
  - apply elem_of_cons in H3 as [->|H3]; [|set_solver]. destruct (Z.max_spec x z) as [[_ ->]|[_ ->]]; set_solver.
Qed.
Lemma foldl_min_spec x (s : samples) : foldl Z.min x s <= x /\ (forall y, y ∈ s -> foldl Z.min x s <= y) /\ foldl Z.min x s ∈ x :: s.
Proof.
  revert x. induction s as [|z s IH]; intros x; simpl; [split_and!; [lia|set_solver|set_solver]|].
  destruct (IH (Z.min x z)) as (H1&H2&H3). split_and!; [lia| |].
  - intros y [->|Hy]%elem_of_cons; [lia|auto].
  - apply elem_of_cons in H3 as [->|H3]; [|set_solver]. destruct (Z.min_spec x z) as [[_ ->]|[_ ->]]; set_solver.
Qed.

(** Percentiles are measurements: whatever the percentage, and however its
    arithmetic is rounded, [pct] of a non-empty set is one of its samples, between
    its [min] and its [max], which are samples too; an empty set gives zero, and
    the index never leaves the slice. *)
Lemma percentile_is_a_sample (s : samples) (p : spec_float) :
  (s = [] -> pct s p = 0) /\
  (s <> [] -> pct s p ∈ s /\ samples_min s ∈ s /\ samples_max s ∈ s /\ samples_min s <= pct s p <= samples_max s).
Proof.
  split; [by intros ->|]. intros Hne.
  assert (Hin : pct s p ∈ s).
  { destruct s as [|x s]; [done|]. unfold pct.
    pose proof (merge_sort_Permutation Z.le (x :: s)) as Hp.
    set (sorted := merge_sort Z.le (x :: s)) in *. set (rank := int_of _ - 1).
    assert (Hlen : length sorted = S (length s)) by (by rewrite Hp).
    destruct (lookup_lt_is_Some_2 sorted (Z.to_nat (Z.max 0 (Z.min rank (Z.of_nat (length sorted) - 1))))) as [y Hy]; [lia|].
    rewrite Hy. simpl. rewrite <- Hp. by apply list_elem_of_lookup_2 in Hy. }
  destruct s as [|x s]; [done|]. simpl in *.
  destruct (foldl_max_spec x s) as (H1&H2&H3), (foldl_min_spec x s) as (H4&H5&H6).
  split_and!; try done; apply elem_of_cons in Hin as [->|Hin]; auto.
Qed.

(** The comment promises the nearest rank, which for the 99th percentile of 151
    samples is the 150th smallest; rounding picks the 149th. *)
Example percentile_rounds_down :
  pct (seqZ 1 151) (float64 99) = 149 /\ (99 * 151 + 99) / 100 = 150 /\ pct (seqZ 1 100) (float64 50) = 50.
Proof. split_and!; by vm_compute. Qed.

Lemma parseParts_spec parts ns : parseParts parts = Some ns ->
  length ns = length parts /\ Forall (fun n => 0 <= n <= max_int64) ns.
Proof.
  revert ns. induction parts as [|part parts IH]; intros ns; simpl; [by intros [= <-]|].
  destruct (Atoi _) as [n|] eqn:Ea; [|done]. destruct (Z.ltb_spec n 0); [done|].
  destruct (parseParts parts) as [ms|]; [|done]. intros [= <-]. destruct (IH ms eq_refl) as [Hl Hf].
  split; [simpl; lia|]. constructor; [|done]. split; [done|]. revert Ea. unfold Atoi.
  repeat case_match; intros; simplify_eq; to_prop; match goal with H : is_i64 _ |- _ => destruct H end; lia.
Qed.

Example parse_counts : parseInts "0, 250,1000" = Some [0; 250; 1000] /\ parseInts "" = None /\ parseInts "1,-2" = None.
Proof. split_and!; by vm_compute. Qed.

(** Sessions are opened all together or not at all. *)
Lemma startClients_spec {Conn} {RO : RangeOrder} (results : list (result error (@Client Conn))) close_err :
  match startClients results close_err with
  | (Ok cs, _) => results = Ok <$> cs
  | (Err _, rest) => Forall (fun c => match c with Some c => Done c = true | None => True end) rest
  end.
Proof.
  unfold startClients. destruct (omap _ results) as [|err errs] eqn:E.
  - induction results as [|[c|e] rs IH]; simpl in *; [done| |done]. f_equal. by apply IH.
  - unfold stopAll. apply list.Forall_forall. intros x [c [-> Hc]]%list_elem_of_fmap. destruct c as [c|]; [|done].
    done.
Qed.
