(* ===== verification/Scenarios.v ===== *)
(** * The benchmark's scenarios (cmd/clavis-bench: main.go, scenarios.go)

    The configuration, the cluster a scenario runs against, and the six scenarios:
    what they start, measure and stop, and the numbers they report. What the
    cluster answers and what the clock reads are inputs. Goroutines that share
    nothing are functions of their own; where they share data under a mutex, the
    order in which they got it is an input. The tables are lists of numbers: how
    they are formatted is not modelled. *)

From Stdlib Require Import Floats.SpecFloat.
From S2P Require Import Prelude GoTime Errors Strings Domain Raftlog Fsm RaftFsm LeaseTracker LockQueue Node Service.
From S2P Require Import Transport Runtime LocalCluster Resolver Client Bench.

(** ** Configuration (main.go) *)

Record config := mkBenchConfig {
  bc_seeds : option (list string);
  bc_nodes : Z;
  bc_duration : Duration;
  bc_ttl : Duration;
  bc_rounds : Z;
  bc_clients : list Z;
  bc_sessions : list Z
}.

Record bench_flags := mkBenchFlags {
  bf_seeds : string; bf_nodes : Z; bf_duration : Duration; bf_ttl : Duration; bf_rounds : Z;
  bf_clients : string; bf_sessions : string
}.
Definition default_bench_flags : bench_flags :=
  mkBenchFlags "" 3 (5 * Second) (10 * Second) 3 "1,8,64" "0,250,1000,2500".

(** [None]: a count is not valid and the process exits with status 2. *)
Definition bench_config (f : bench_flags) : option config :=
  clients ← parseInts (bf_clients f);
  sessions ← parseInts (bf_sessions f);
  Some (mkBenchConfig (if String.eqb (bf_seeds f) "" then None else Some (split_comma (bf_seeds f)))
          (bf_nodes f) (bf_duration f) (bf_ttl f) (bf_rounds f) clients sessions).

(** The exit status, and what happened to each scenario. *)
Definition bench_main (f : bench_flags) (args : list string) (run : config -> scenario -> option error) : Z * list scenario_end :=
  match bench_config f with
  | None => (2, [])
  | Some cfg =>
    match selected args with
    | None => (2, [])
    | Some ss =>
      let ends := runSelected (bool_decide (is_Some (bc_seeds cfg))) (run cfg) ss in
      (if existsb (fun e => match e with Broke _ _ => true | _ => false end) ends then 1 else 0, ends)
    end
  end.

(** [Duration.Seconds] *)
Definition seconds (d : Duration) : spec_float :=
  fadd (float64 (d /i64 Second)) (fdiv (float64 (Z.rem d Second)) (float64 Second)).

(** ** Outcomes

    A scenario has not ended ([None]), failed, or reported [A]. *)
Abbreviation outcome A := (option (result error A)).

Definition and_then {A B} (m : outcome A) (k : A -> outcome B) : outcome B :=
  match m with None => None | Some (Err err) => Some (Err err) | Some (Ok a) => k a end.
Notation "'let!' x ':=' m 'in' k" := (and_then m (fun x => k)) (at level 10, x binder, m at level 100, k at level 200) : go_scope.

Section scenarios.
Context {GS : GrpcStatus} {RO : RangeOrder} {PC : ProtoCodec} {RL : RaftLib} {Conn : Type}.
Variable close_err : Conn -> option error.

(** ** The target (main.go) *)

Record target := mkTarget { tg_seeds : list string; tg_cluster : option LocalCluster; tg_dataDir : string }.

(** The target, and the directories removed again. [start] is [StartLocalCluster]. *)
Definition newTarget (cfg : config) (mkdirTemp : result error string)
    (start : Z -> string -> LocalCluster * option (option error)) : outcome target * list string :=
  match bc_seeds cfg with
  | Some seeds => (Some (Ok (mkTarget seeds None "")), [])
  | None =>
    match mkdirTemp with
    | Err err => (Some (Err err), [])
    | Ok dataDir =>
      match start (bc_nodes cfg) dataDir with
      | (_, None) => (None, [])
      | (_, Some (Some err)) => (Some (Err err), [dataDir])
      | (c, Some None) => (Some (Ok (mkTarget (Addrs c) (Some c) dataDir)), [])
      end
    end
  end.

Definition target_close (t : target) (raftErr : nat -> option error) : target * list string :=
  match tg_cluster t with
  | None => (t, [])
  | Some c => (mkTarget (tg_seeds t) (Some (LocalCluster_Close c raftErr)) (tg_dataDir t), [tg_dataDir t])
  end.

(** ** Measuring *)

(** What one acquire and release meets, and the clock's readings: when the loop
    checks its deadline, and the three of [cycle]. *)
Record cycle_io := mkCycle {
  cy_now : Z;
  cy_acq : pb_AcquireLockRequest -> list (@round Conn pb_AcquireLockResponse);
  cy_rel : pb_ReleaseLockRequest -> list (@round Conn pb_ReleaseLockResponse);
  cy_start : Z; cy_acquired : Z; cy_stop : Z
}.
Definition do_cycle (c : @Client Conn) (lockName : string) (io : cycle_io) : Client * outcome (Duration * Duration) :=
  cycle c lockName (cy_acq io) (cy_rel io) (cy_start io) (cy_acquired io) (cy_stop io).

(** [n] cycles, whose times are not kept. *)
Fixpoint warmUp (n : nat) (c : @Client Conn) (lockName : string) (ios : list cycle_io) : Client * outcome unit :=
  match n, ios with
  | O, _ => (c, Some (Ok tt))
  | _, [] => (c, None)
  | S n, io :: ios =>
    match do_cycle c lockName io with
    | (c, Some (Ok _)) => warmUp n c lockName ios
    | (c, Some (Err err)) => (c, Some (Err err))
    | (c, None) => (c, None)
    end
  end.

(** Cycles until the deadline. *)
Fixpoint measure (deadline : Z) (c : @Client Conn) (lockName : string) (ios : list cycle_io)
    : Client * outcome (list (Duration * Duration)) :=
  match ios with
  | [] => (c, None)
  | io :: ios =>
    if negb (cy_now io <? deadline) then (c, Some (Ok [])) else
    match do_cycle c lockName io with
    | (c, Some (Ok times)) =>
      let '(c, r) := measure deadline c lockName ios in
      (c, let! rest := r in Some (Ok (times :: rest)))
    | (c, Some (Err err)) => (c, Some (Err err))
    | (c, None) => (c, None)
    end
  end.

Definition p50 (s : samples) : Duration := pct s (float64 50).
Definition p99 (s : samples) : Duration := pct s (float64 99).
Definition stats (s : samples) : list Duration := [p50 s; p99 s; samples_max s].

(** What a session start meets. *)
Record session_io := mkSessionIO {
  se_rounds : list (@round Conn pb_CreateLeaseResponse);
  se_env : @attempt_env Conn
}.
Definition openClient (seeds : list string) (owner : string) (ttl : Duration) (io : session_io) : outcome (@Client Conn) :=
  startClient seeds owner ttl (se_rounds io) (se_env io) close_err.

(** [startClients]: all the sessions, or the first error with those that started
    stopped. *)
Fixpoint results_of (ms : list (outcome (@Client Conn))) : option (list (result error (@Client Conn))) :=
  match ms with
  | [] => Some []
  | m :: ms => r ← m; rs ← results_of ms; Some (r :: rs)
  end.
Definition openClients (seeds : list string) (prefix : string) (from n : Z) (ttl : Duration) (io : nat -> session_io)
    : outcome (list (@Client Conn)) :=
  match results_of ((fun i => openClient seeds (prefix +:+ "-" +:+ pretty (from + Z.of_nat i)) ttl (io i)) <$> seq 0 (Z.to_nat n)) with
  | None => None
  | Some results => Some (startClients results close_err).1
  end.

Definition stopped_client (c : @Client Conn) : @Client Conn := (client_Stop c close_err).1.1.1.

(** ** The scenarios *)

(** A scenario's report, and the sessions it opened as they are at the end. *)
Abbreviation scenario_run A := (outcome A * list (@Client Conn))%type.

(** Acquire and release times of one client. *)
Definition runLatency (cfg : config) (t : outcome target) (s : session_io) (warm : list cycle_io)
    (started : Z) (ios : list cycle_io) : scenario_run (nat * list Duration * list Duration) :=
  match t with
  | None => (None, [])
  | Some (Err err) => (Some (Err err), [])
  | Some (Ok t) =>
    match openClient (tg_seeds t) "bench-latency" (bc_ttl cfg) s with
    | None => (None, [])
    | Some (Err err) => (Some (Err err), [])
    | Some (Ok c) =>
      match warmUp 20 c "bench/latency" warm with
      | (c, None) => (None, [c])
      | (c, Some (Err err)) => (Some (Err err), [stopped_client c])
      | (c, Some (Ok _)) =>
        match measure (started + bc_duration cfg) c "bench/latency" ios with
        | (c, None) => (None, [c])
        | (c, r) =>
          (let! times := r in Some (Ok (length times.*1, stats times.*1, stats times.*2)), [stopped_client c])
        end
      end
    end
  end.

(** *** Throughput

    One level: the sessions' starts, when the measurement began, and the workers in
    the order in which they finish. A worker that fails contributes its error, the
    others all of their cycles. *)
Record level_io := mkLevel {
  lv_sessions : nat -> session_io;
  lv_started : Z;
  lv_workers : list (nat * list cycle_io)
}.

Fixpoint throughputWorkers (deadline : Z) (clients : list (@Client Conn)) (ws : list (nat * list cycle_io))
    (cycles : samples) (errs : list error) : list (@Client Conn) * option (samples * list error) :=
  match ws with
  | [] => (clients, Some (cycles, errs))
  | (i, ios) :: ws =>
    match clients !! i with
    | None => (clients, None)
    | Some c =>
      match measure deadline c ("bench/throughput/" +:+ pretty (Z.of_nat i)) ios with
      | (c, None) => (<[i := c]> clients, None)
      | (c, Some (Err err)) => throughputWorkers deadline (<[i := c]> clients) ws cycles (errs ++ [err])
      | (c, Some (Ok times)) =>
        throughputWorkers deadline (<[i := c]> clients) ws (cycles ++ ((fun t => t.1 + t.2) <$> times)) errs
      end
    end
  end.

Fixpoint throughputLevels (cfg : config) (t : target) (counts : list Z) (ios : list level_io)
    : scenario_run (list (Z * spec_float * Duration * Duration)) :=
  match counts with
  | [] => (Some (Ok []), [])
  | n :: counts =>
    if n =? 0 then throughputLevels cfg t counts ios else
    match ios with
    | [] => (None, [])
    | lv :: ios =>
      match openClients (tg_seeds t) "bench-throughput" 0 n (bc_ttl cfg) (lv_sessions lv) with
      | None => (None, [])
      | Some (Err err) => (Some (Err err), [])
      | Some (Ok clients) =>
        match throughputWorkers (lv_started lv + bc_duration cfg) clients (lv_workers lv) [] [] with
        | (clients, None) => (None, clients)
        | (clients, Some (cycles, errs)) =>
          let clients := stopped_client <$> clients in
          match errs with
          | err :: _ => (Some (Err err), clients)
          | [] =>
            let rate := fdiv (float64 (Z.of_nat (length cycles))) (seconds (bc_duration cfg)) in
            let '(r, more) := throughputLevels cfg t counts ios in
            (let! rows := r in Some (Ok ((n, rate, p50 cycles, p99 cycles) :: rows)), clients ++ more)
          end
        end
      end
    end
  end.

Definition runThroughput (cfg : config) (t : outcome target) (ios : list level_io)
    : scenario_run (list (Z * spec_float * Duration * Duration)) :=
  match t with
  | None => (None, [])
  | Some (Err err) => (Some (Err err), [])
  | Some (Ok t) => throughputLevels cfg t (bc_clients cfg) ios
  end.

(** *** Handoff

    The shared record, and a turn of one contender: its context when the loop
    checks it and when [WaitAcquire] fails, the answers to its calls, and the
    clock's readings under the mutex. *)
Record handoff := mkHandoff { ho_lastRelease : option Z; ho_handoffs : samples; ho_wins : list Z }.
Record turn_io := mkTurn {
  tn_ctxDone : bool; tn_ctxAfter : bool;
  tn_waits : list (@wait_round Conn);
  tn_now : Z; tn_released : Z;
  tn_rel : pb_ReleaseLockRequest -> list (@round Conn pb_ReleaseLockResponse)
}.

Definition handoff_win (h : handoff) (i : nat) (now released : Z) : handoff :=
  mkHandoff (Some released)
    (match ho_lastRelease h with Some last => ho_handoffs h ++ [now - last] | None => ho_handoffs h end)
    (alter (fun w => w + 1) i (ho_wins h)).

(** One turn: the contender's client, the record, and how its loop goes on: with
    another turn, returned, or returned with an error. [None]: a call is under way. *)
Definition handoff_turn (c : @Client Conn) (h : handoff) (i : nat) (io : turn_io)
    : @Client Conn * handoff * option (option (option error)) :=
  if tn_ctxDone io then (c, h, Some (Some None)) else
  match WaitAcquire c "bench/handoff" (tn_waits io) with
  | (c, _, None) => (c, h, None)
  | (c, _, Some (Err err)) => (c, h, Some (Some (if tn_ctxAfter io then None else Some err)))
  | (c, _, Some (Ok lock)) =>
    let h := handoff_win h i (tn_now io) (tn_released io) in
    match Lock_Release c lock (tn_rel io) with
    | (c, None) => (c, h, None)
    | (c, Some (Some err)) => (c, h, Some (Some (Some err)))
    | (c, Some None) => (c, h, Some None)
    end
  end.

(** The turns of all contenders, in the order in which they get the mutex. A
    contender that has returned takes no more turns. *)
Fixpoint handoff_turns (clients : list (@Client Conn)) (h : handoff) (returned : list nat) (errs : list error)
    (turns : list (nat * turn_io)) : list (@Client Conn) * handoff * list nat * list error :=
  match turns with
  | [] => (clients, h, returned, errs)
  | (i, io) :: turns =>
    match clients !! i with
    | None => handoff_turns clients h returned errs turns
    | Some c =>
      if bool_decide (i ∈ returned) then handoff_turns clients h returned errs turns else
      match handoff_turn c h i io with
      | (c, h, Some None) => handoff_turns (<[i := c]> clients) h returned errs turns
      | (c, h, Some (Some err)) =>
        handoff_turns (<[i := c]> clients) h (i :: returned) (errs ++ option_list err) turns
      | (c, h, None) => handoff_turns (<[i := c]> clients) h returned errs turns
      end
    end
  end.

Definition contenders : nat := 4.

Definition runHandoff (cfg : config) (t : outcome target) (ses : nat -> session_io) (turns : list (nat * turn_io))
    : scenario_run (nat * list Duration * Z * Z) :=
  match t with
  | None => (None, [])
  | Some (Err err) => (Some (Err err), [])
  | Some (Ok t) =>
    match openClients (tg_seeds t) "bench-handoff" 0 (Z.of_nat contenders) (bc_ttl cfg) ses with
    | None => (None, [])
    | Some (Err err) => (Some (Err err), [])
    | Some (Ok clients) =>
      let '(clients, h, returned, errs) :=
        handoff_turns clients (mkHandoff None [] (replicate contenders 0)) [] [] turns in
      if negb (bool_decide (length returned = contenders)) then (None, clients) else
      (match errs with
       | err :: _ => Some (Err err)
       | [] => Some (Ok (length (ho_handoffs h), stats (ho_handoffs h), samples_min (ho_wins h), samples_max (ho_wins h)))
       end, stopped_client <$> clients)
    end
  end.

(** *** Sessions

    One level: the starts of the new sessions, when the measurement began, the
    probe's cycles, and the idle sessions as their heartbeats have left them. *)
Record idle_io := mkIdle {
  id_sessions : nat -> session_io;
  id_started : Z;
  id_ios : list cycle_io;
  id_state : list leaseSession
}.

Definition heartbeats_per_second (level : Z) (ttl : Duration) : spec_float :=
  fdiv (fmul (float64 level) (float64 3)) (seconds ttl).

Fixpoint sessionLevels (cfg : config) (t : target) (probe : @Client Conn) (idle : list (@Client Conn)) (levels : list Z)
    (ios : list idle_io) : scenario_run (list (Z * spec_float * Duration * Duration * nat)) :=
  match levels, ios with
  | [], _ => (Some (Ok []), stopped_client <$> probe :: idle)
  | _, [] => (None, probe :: idle)
  | level :: levels, io :: ios =>
    let more := level - Z.of_nat (length idle) in
    match (if 0 <? more
           then openClients (tg_seeds t) "bench-idle" (Z.of_nat (length idle)) more (bc_ttl cfg) (id_sessions io)
           else Some (Ok [])) with
    | None => (None, probe :: idle)
    | Some (Err err) => (Some (Err err), stopped_client <$> probe :: idle)
    | Some (Ok started) =>
      let idle := idle ++ started in
      match measure (id_started io + bc_duration cfg) probe "bench/sessions" (id_ios io) with
      | (probe, None) => (None, probe :: idle)
      | (probe, Some (Err err)) => (Some (Err err), stopped_client <$> probe :: idle)
      | (probe, Some (Ok times)) =>
        let cycles := (fun x => x.1 + x.2) <$> times in
        let idle := zip_with set_session idle (id_state io) in
        let row := (level, heartbeats_per_second level (bc_ttl cfg), p50 cycles, p99 cycles, countLost idle) in
        let '(r, cs) := sessionLevels cfg t probe idle levels ios in
        (let! rows := r in Some (Ok (row :: rows)), cs)
      end
    end
  end.

Definition runSessions (cfg : config) (t : outcome target) (s : session_io) (ios : list idle_io)
    : scenario_run (list (Z * spec_float * Duration * Duration * nat)) :=
  match t with
  | None => (None, [])
  | Some (Err err) => (Some (Err err), [])
  | Some (Ok t) =>
    match openClient (tg_seeds t) "bench-sessions-probe" (bc_ttl cfg) s with
    | None => (None, [])
    | Some (Err err) => (Some (Err err), [])
    | Some (Ok probe) => sessionLevels cfg t probe [] (merge_sort Z.le (bc_sessions cfg)) ios
    end
  end.

(** *** Failover *)

(** A worker: each turn tells whether its context has ended and when a cycle that
    succeeds is over. The instants at which cycles succeeded; [None]: not returned. *)
Fixpoint failover_worker (c : @Client Conn) (lockName : string) (turns : list (bool * cycle_io * Z))
    : @Client Conn * option (list Z) :=
  match turns with
  | [] => (c, None)
  | (ctxDone, io, now) :: turns =>
    if ctxDone then (c, Some []) else
    match do_cycle c lockName io with
    | (c, None) => (c, None)
    | (c, Some (Ok _)) => let '(c, r) := failover_worker c lockName turns in (c, (fun ts => now :: ts) <$> r)
    | (c, Some (Err err)) => if errors_Is err ErrLeaseUnavailable then (c, Some []) else failover_worker c lockName turns
    end
  end.

(** [slices.BinarySearchFunc]: the loop between the bounds, and the index found.
    The distance halves, so as many turns as there are elements are enough. *)
Fixpoint search_loop (n : nat) (times : list Z) (x : Z) (i j : nat) : nat :=
  match n with
  | O => i
  | S n =>
    if (i <? j)%nat then
      let h := ((i + j) / 2)%nat in
      if default 0 (times !! h) <? x then search_loop n times x (h + 1) j else search_loop n times x i h
    else i
  end.
Definition binary_search (times : list Z) (x : Z) : nat := search_loop (length times) times x 0 (length times).

(** How long after the crash each worker had its next success. *)
Definition recoveries (crashAt : Z) (successes : list (list Z)) : samples :=
  omap (fun times => match times !! binary_search times crashAt with Some at_ => Some (at_ - crashAt) | None => None end) successes.

Definition workers : Z := 8.

(** One round. *)
Record failover_io := mkFailoverIO {
  fo_target : outcome target;
  fo_sessions : nat -> session_io;
  fo_polls : list poll;                       (* waiting for the leader *)
  fo_turns : nat -> list (bool * cycle_io * Z);
  fo_crashAt : Z; fo_electedAt : Z;
  fo_raftErr : option error;
  fo_polls2 : list poll;                      (* waiting for the next one *)
  fo_state : list leaseSession                (* the sessions one TTL later *)
}.

Fixpoint runWorkers (i : nat) (clients : list (@Client Conn)) (turns : nat -> list (bool * cycle_io * Z))
    : list (@Client Conn) * option (list (list Z)) :=
  match clients with
  | [] => ([], Some [])
  | c :: clients =>
    let '(c, r) := failover_worker c ("bench/failover/" +:+ pretty (Z.of_nat i)) (turns i) in
    let '(cs, rs) := runWorkers (i + 1) clients turns in
    (c :: cs, ts ← r; tss ← rs; Some (ts :: tss))
  end.

(** The row (election, median and longest recovery, sessions lost), and the
    sessions. On an error the round's sessions are left running. *)
Definition failover_round (cfg : config) (io : failover_io) : scenario_run (Duration * Duration * Duration * nat) :=
  match fo_target io with
  | None => (None, [])
  | Some (Err err) => (Some (Err err), [])
  | Some (Ok t) =>
    match openClients (tg_seeds t) "bench-failover" 0 workers (bc_ttl cfg) (fo_sessions io) with
    | None => (None, [])
    | Some (Err err) => (Some (Err err), [])
    | Some (Ok clients) =>
      match tg_cluster t with
      | None => (None, clients)                (* a nil cluster: the process panics *)
      | Some cluster =>
        match LocalCluster_WaitForLeader cluster (fo_polls io) with
        | (_, None) => (None, clients)
        | (_, Some (Err err)) => (Some (Err err), clients)
        | (cluster, Some (Ok leader)) =>
          match StopNode cluster leader (fo_raftErr io) with
          | None => (None, clients)
          | Some (_, Some err) => (Some (Err err), clients)
          | Some (cluster, None) =>
            match LocalCluster_WaitForLeader cluster (fo_polls2 io) with
            | (_, None) => (None, clients)
            | (_, Some (Err err)) => (Some (Err err), clients)
            | (_, Some (Ok _)) =>
              match runWorkers 0 clients (fo_turns io) with
              | (clients, None) => (None, clients)
              | (clients, Some successes) =>
                let recs := recoveries (fo_crashAt io) successes in
                let clients := zip_with set_session clients (fo_state io) in
                (Some (Ok (fo_electedAt io - fo_crashAt io, p50 recs, samples_max recs, countLost clients)),
                 stopped_client <$> clients)
              end
            end
          end
        end
      end
    end
  end.

Fixpoint runFailover (cfg : config) (rounds : nat) (ios : list failover_io)
    : scenario_run (list (Duration * Duration * Duration * nat)) :=
  match rounds, ios with
  | O, _ => (Some (Ok []), [])
  | _, [] => (None, [])
  | S rounds, io :: ios =>
    let '(r, cs) := failover_round cfg io in
    match r with
    | None => (None, cs)
    | Some (Err err) => (Some (Err err), cs)
    | Some (Ok row) =>
      let '(rest, more) := runFailover cfg rounds ios in
      (let! rows := rest in Some (Ok (row :: rows)), cs ++ more)
    end
  end.

(** *** Handover *)

Definition handover_ttl : Duration := 3 * Second.

Record handover_io := mkHandoverIO {
  hv_holder : session_io; hv_waiter : session_io;
  hv_acq : pb_AcquireLockRequest -> list (@round Conn pb_AcquireLockResponse);
  hv_waits : list (@wait_round Conn);
  hv_crashAt : Z; hv_now : Z
}.

(** One round: how long the waiter took, and the sessions at its end. *)
Definition handover_round (t : target) (round : nat) (io : handover_io) : scenario_run Duration :=
  let suffix := pretty (Z.of_nat round) in
  let lockName := ("bench/handover/" +:+ suffix)%string in
  match openClient (tg_seeds t) ("bench-holder-" +:+ suffix) handover_ttl (hv_holder io) with
  | None => (None, [])
  | Some (Err err) => (Some (Err err), [])
  | Some (Ok holder) =>
    match Acquire holder lockName (hv_acq io) with
    | (holder, None) => (None, [holder])
    | (holder, Some (Err err)) => (Some (Err err), [holder])
    | (holder, Some (Ok _)) =>
      match openClient (tg_seeds t) ("bench-waiter-" +:+ suffix) handover_ttl (hv_waiter io) with
      | None => (None, [holder])
      | Some (Err err) => (Some (Err err), [holder])
      | Some (Ok waiter) =>
        let holder := stopped_client holder in
        match WaitAcquire waiter lockName (hv_waits io) with
        | (waiter, _, None) => (None, [holder; waiter])
        | (waiter, _, Some (Err err)) => (Some (Err (wrapf "waiter never acquired the lock" err)), [holder; waiter])
        | (waiter, _, Some (Ok _)) => (Some (Ok (hv_now io - hv_crashAt io)), [holder; stopped_client waiter])
        end
      end
    end
  end.

Fixpoint handoverRounds (t : target) (round : nat) (n : nat) (ios : list handover_io) : scenario_run samples :=
  match n, ios with
  | O, _ => (Some (Ok []), [])
  | _, [] => (None, [])
  | S n, io :: ios =>
    let '(r, cs) := handover_round t round io in
    match r with
    | None => (None, cs)
    | Some (Err err) => (Some (Err err), cs)
    | Some (Ok d) =>
      let '(rest, more) := handoverRounds t (round + 1) n ios in
      (let! ds := rest in Some (Ok (d :: ds)), cs ++ more)
    end
  end.

Definition runHandover (cfg : config) (t : outcome target) (ios : list handover_io)
    : scenario_run (Z * list Duration) :=
  match t with
  | None => (None, [])
  | Some (Err err) => (Some (Err err), [])
  | Some (Ok t) =>
    let '(r, cs) := handoverRounds t 0 (Z.to_nat (bc_rounds cfg)) ios in
    (let! ds := r in Some (Ok (bc_rounds cfg, [samples_min ds; p50 ds; samples_max ds])), cs)
  end.

(** ** Proofs *)

(** *** Sessions are stopped *)

Definition closed (cs : list (@Client Conn)) : Prop := Forall (fun c => Done c = true) cs.

Lemma stopped_done c : Done (stopped_client c) = true.
Proof. unfold stopped_client, client_Stop. by destruct (resolver_close _ _) as [[? ?] ?]. Qed.

Lemma stopped_closed cs : closed (stopped_client <$> cs).
Proof. apply list.Forall_forall. intros c (c'&->&_)%list_elem_of_fmap. apply stopped_done. Qed.

Lemma throughput_closed cfg t counts ios r cs : throughputLevels cfg t counts ios = (Some r, cs) -> closed cs.
Proof.
  revert ios r cs. induction counts as [|n counts IH]; intros ios r cs; cbn [throughputLevels]; [intros [= _ <-]; constructor|].
  destruct (n =? 0); [apply IH|]. destruct ios as [|lv ios]; [done|].
  destruct (openClients _ _ _ _ _ _) as [[clients|]|]; [|intros [= _ <-]; constructor|done].
  destruct (throughputWorkers _ _ _ _ _) as [clients' [[cycles errs]|]]; [|done].
  destruct errs as [|err errs]; [|intros [= _ <-]; apply stopped_closed].
  destruct (throughputLevels cfg t counts ios) as [r' more] eqn:E. destruct r' as [r'|]; [|done].
  intros [= _ <-]. apply Forall_app. split; [apply stopped_closed|by eapply IH].
Qed.

Lemma sessions_closed cfg t probe idle levels ios r cs : sessionLevels cfg t probe idle levels ios = (Some r, cs) -> closed cs.
Proof.
  revert probe idle ios r cs. induction levels as [|level levels IH]; intros probe idle ios r cs; cbn [sessionLevels];
    [intros [= _ <-]; apply (stopped_closed (probe :: idle))|].
  destruct ios as [|io ios]; [done|].
  match goal with |- context [if ?b then ?x else ?y] => destruct (if b then x else y) as [[started|]|] end;
    [|intros [= _ <-]; apply (stopped_closed (probe :: idle))|done].
  destruct (measure _ _ _ _) as [probe' [[times|]|]]; [|intros [= _ <-]; apply (stopped_closed (probe' :: _))|done].
  destruct (sessionLevels _ _ _ _ _ _) as [r' cs'] eqn:E. destruct r' as [r'|]; [|done].
  intros [= _ <-]. by eapply IH.
Qed.

(** A scenario that has ended, with its report or an error, has stopped every
    session it opened. *)
Theorem scenarios_stop_their_sessions cfg t cs :
  (forall s warm started ios r, runLatency cfg t s warm started ios = (Some r, cs) -> closed cs) /\
  (forall ios r, runThroughput cfg t ios = (Some r, cs) -> closed cs) /\
  (forall ses turns r, runHandoff cfg t ses turns = (Some r, cs) -> closed cs) /\
  (forall s ios r, runSessions cfg t s ios = (Some r, cs) -> closed cs).
Proof.
  destruct t as [[t|err]|]; [|split_and!; unfold runLatency, runThroughput, runHandoff, runSessions; intros; simplify_eq; constructor|split_and!; by intros].
  split_and!.
  - intros s warm started ios r. cbv beta iota delta [runLatency]. destruct (openClient _ _ _ _) as [[c|]|]; [|intros [= _ <-]; constructor|done].
    destruct (warmUp _ _ _ _) as [c' [[[]|]|]]; [|intros [= _ <-]; apply (stopped_closed [c'])|done].
    destruct (measure _ _ _ _) as [c2 [r2|]]; [|done]. intros [= _ <-]. apply (stopped_closed [c2]).
  - intros ios r. apply throughput_closed.
  - intros ses turns r. cbv beta iota delta [runHandoff]. destruct (openClients _ _ _ _ _ _) as [[clients|]|]; [|intros [= _ <-]; constructor|done].
    destruct (handoff_turns _ _ _ _ _) as [[[clients' h] returned] errs]. destruct (negb _); [done|].
    intros [= _ <-]. apply stopped_closed.
  - intros s ios r. cbv beta iota delta [runSessions]. destruct (openClient _ _ _ _) as [[probe|]|]; [|intros [= _ <-]; constructor|done].
    apply sessions_closed.
Qed.

(** *** Handoffs are the wins after the first *)

Definition total (ws : list Z) : Z := foldr Z.add 0 ws.
Lemma total_alter ws i : (i < length ws)%nat -> total (alter (fun w => w + 1) i ws) = total ws + 1.
Proof.
  unfold total. revert i. induction ws as [|w ws IH]; intros i Hi; cbn in Hi; [lia|]. destruct i as [|i]; cbn; [lia|].
  rewrite (IH i) by lia. lia.
Qed.

Definition handoff_ok (h : handoff) : Prop :=
  match ho_lastRelease h with
  | None => total (ho_wins h) = 0 /\ ho_handoffs h = []
  | Some _ => total (ho_wins h) = Z.of_nat (length (ho_handoffs h)) + 1
  end.

Lemma handoff_turn_ok c h i io c' h' next :
  (i < length (ho_wins h))%nat -> handoff_ok h -> handoff_turn c h i io = (c', h', next) ->
  handoff_ok h' /\ length (ho_wins h') = length (ho_wins h).
Proof.
  intros Hi Hh. assert (Hw : handoff_ok (handoff_win h i (tn_now io) (tn_released io))).
  { unfold handoff_ok, handoff_win in *. cbn. rewrite total_alter by done.
    destruct (ho_lastRelease h); [rewrite length_app; cbn; lia|]. destruct Hh as [-> ->]. done. }
  unfold handoff_turn. destruct (tn_ctxDone io); [intros; by simplify_eq|].
  destruct (WaitAcquire _ _ _) as [[c1 ?] [[lock|]|]]; [|intros; by simplify_eq..].
  destruct (Lock_Release _ _ _) as [c2 [[|]|]]; intros; simplify_eq; (split; [done|cbn; by rewrite length_alter]).
Qed.

Lemma handoff_turns_ok clients h returned errs turns :
  length clients = length (ho_wins h) -> handoff_ok h ->
  handoff_ok (handoff_turns clients h returned errs turns).1.1.2.
Proof.
  revert clients h returned errs. induction turns as [|[i io] turns IH]; intros clients h returned errs Hl Hh; [done|].
  cbn [handoff_turns]. destruct (clients !! i) as [c|] eqn:Hc; [|by apply IH].
  destruct (bool_decide _); [by apply IH|]. pose proof (lookup_lt_Some _ _ _ Hc) as Hlt.
  destruct (handoff_turn c h i io) as [[c' h'] next] eqn:E. apply handoff_turn_ok in E as [Hh' Hlen]; [|lia|done].
  destruct next as [[next|]|]; apply IH; rewrite ?length_insert; congruence || done.
Qed.
End scenarios.

(** *** The search for the first success after the crash *)

Lemma sorted_lookup {A} (R : A -> A -> Prop) l a b x y :
  StronglySorted R l -> (a < b)%nat -> l !! a = Some x -> l !! b = Some y -> R x y.
Proof.
  intros Hs. revert a b. induction Hs as [|z l Hs IH Hz]; intros a b Hab Ha Hb; [done|].
  destruct b as [|b]; [lia|]. destruct a as [|a]; cbn in *; [|by eapply (IH a b); [lia|..]].
  simplify_eq. rewrite list.Forall_forall in Hz. apply Hz. by eapply list_elem_of_lookup_2.
Qed.

Lemma search_loop_spec n times x i j :
  Sorted Z.le times -> (i <= j <= length times)%nat -> (j - i <= n)%nat ->
  (forall k t, (k < i)%nat -> times !! k = Some t -> t < x) -> (forall k t, (j <= k)%nat -> times !! k = Some t -> x <= t) ->
  let r := search_loop n times x i j in
  (r <= length times)%nat /\ (forall k t, (k < r)%nat -> times !! k = Some t -> t < x) /\
  (forall k t, (r <= k)%nat -> times !! k = Some t -> x <= t).
Proof.
  intros Hs. assert (Hord : forall a b ta tb, (a <= b)%nat -> times !! a = Some ta -> times !! b = Some tb -> ta <= tb).
  { intros a b ta tb Hab Ha Hb. apply Sorted_StronglySorted in Hs; [|intros ? ? ?; lia].
    destruct (decide (a = b)) as [->|]; [simplify_eq; lia|].
    apply (sorted_lookup Z.le times a b); [done|lia|done|done]. }
  revert i j. induction n as [|n IH]; intros i j Hij Hn Hlo Hhi; cbn [search_loop].
  { assert (i = j) as -> by lia. split_and!; [lia|done|done]. }
  destruct (Nat.ltb_spec i j) as [Hlt|]; [|assert (i = j) as -> by lia; split_and!; [lia|done|done]].
  set (h := ((i + j) / 2)%nat). assert (Hh : (i <= h < j)%nat).
  { unfold h. split; [apply Nat.div_le_lower_bound; lia|apply Nat.Div0.div_lt_upper_bound; lia]. }
  clearbody h. destruct (lookup_lt_is_Some_2 times h) as [th Hth]; [lia|]. rewrite Hth. change (default 0 (Some th)) with th.
  destruct (Z.ltb_spec th x) as [Hx|Hx]; (apply IH; [lia|lia| |]); try done.
  - intros k t Hk Ht. pose proof (Hord k h t th ltac:(lia) Ht Hth). lia.
  - intros k t Hk Ht. pose proof (Hord h k th t ltac:(lia) Hth Ht). lia.
Qed.

(** A worker's recovery is the first of its successes at or after the crash, and a
    worker has one exactly when it had such a success. *)
Lemma recovery_is_first (times : list Z) (crashAt : Z) :
  Sorted Z.le times ->
  match times !! binary_search times crashAt with
  | Some at_ => crashAt <= at_ /\ at_ ∈ times /\ forall t, t ∈ times -> crashAt <= t -> at_ <= t
  | None => forall t, t ∈ times -> t < crashAt
  end.
Proof.
  intros Hs. destruct (search_loop_spec (length times) times crashAt 0 (length times)) as (Hr&Hlo&Hhi);
    [done|lia|lia|intros; lia|intros k t Hk Ht; apply lookup_lt_Some in Ht; lia|].
  fold (binary_search times crashAt) in *. destruct (times !! binary_search times crashAt) as [at_|] eqn:E.
  - split_and!; [by apply (Hhi _ _ (le_n _))|by eapply list_elem_of_lookup_2|].
    intros t [k Hk]%list_elem_of_lookup Ht. destruct (decide (k < binary_search times crashAt)%nat) as [Hlt|Hge].
    { specialize (Hlo k t Hlt Hk). lia. }
    apply Sorted_StronglySorted in Hs; [|intros ? ? ?; lia].
    destruct (decide (k = binary_search times crashAt)) as [->|]; [simplify_eq; lia|].
    apply (sorted_lookup Z.le times (binary_search times crashAt) k); [done|lia|done|done].
  - apply lookup_ge_None in E. intros t [k Hk]%list_elem_of_lookup. apply (Hlo k); [|done]. apply lookup_lt_Some in Hk. lia.
Qed.
