(* ===== verification/Report.v ===== *)
(** * What the benchmark and the examples print (cmd/clavis-bench/stats.go, the
    [say] of examples/failover.go)

    The formatting verbs of package fmt that are used ([%.2f], [%4.1f], [%-9s]), and
    the tables of text/tabwriter: cells are ASCII, so a cell is as wide as it is
    long. *)

From Stdlib Require Import Ascii Floats.SpecFloat.
From S2P Require Import Prelude GoTime Errors Strings Transport Resolver Client Bench Scenarios.

(** ** package fmt *)

Definition digit_char (d : Z) : ascii := ascii_of_N (Z.to_N (48 + d)).

(** The last [k] decimal digits of [n]. *)
Fixpoint last_digits (k : nat) (n : Z) : string :=
  match k with
  | O => ""
  | S k => String (digit_char (n / 10 ^ Z.of_nat k mod 10)) (last_digits k n)
  end.

(** [m / d] to the nearest integer, to the even one in the middle. *)
Definition round_half_even (m d : Z) : Z :=
  let q := m / d in
  let r := m mod d in
  if 2 * r <? d then q else if d <? 2 * r then q + 1 else if Z.even q then q else q + 1.

(** The absolute value of a finite number in units of [10 ^ -k]. *)
Definition scaled (k : nat) (m : positive) (e : Z) : Z :=
  if 0 <=? e then Z.pos m * 10 ^ Z.of_nat k * 2 ^ e
  else round_half_even (Z.pos m * 10 ^ Z.of_nat k) (2 ^ (- e)).

Definition decimal (k : nat) (q : Z) : string := pretty (q / 10 ^ Z.of_nat k) +:+ "." +:+ last_digits k q.

(** [%.kf], for [k > 0]. *)
Definition fmt_fixed (k : nat) (v : spec_float) : string :=
  match v with
  | S754_zero s => (if s then "-" else "") +:+ decimal k 0
  | S754_finite s m e => (if s then "-" else "") +:+ decimal k (scaled k m e)
  | S754_infinity s => if s then "-Inf" else "+Inf"
  | S754_nan => "NaN"
  end.

Fixpoint spaces (n : nat) : string := match n with O => "" | S n => String " " (spaces n) end.
Definition pad_left (w : nat) (s : string) : string := spaces (w - String.length s) +:+ s.
Definition pad_right (w : nat) (s : string) : string := s +:+ spaces (w - String.length s).

(** ** stats.go *)

Definition ms (d : Duration) : string :=
  let v := fdiv (float64 d) (float64 Millisecond) in
  if SFltb v (float64 10) then fmt_fixed 2 v +:+ "ms"
  else if SFltb v (float64 1000) then fmt_fixed 1 v +:+ "ms"
  else fmt_fixed 2 (fdiv v (float64 1000)) +:+ "s".

(** A line of [say]: [elapsed] is the time since the program's start. *)
Definition say (elapsed : Duration) (who text : string) : string :=
  "[" +:+ pad_left 4 (fmt_fixed 1 (seconds elapsed)) +:+ "s] " +:+ pad_right 9 who +:+ " " +:+ text.

(** ** package text/tabwriter

    [NewWriter(os.Stdout, 0, 0, 3, ' ', 0)]. Every cell of a line but the last one
    ends in a tab; such cells in consecutive lines at the same place form a column,
    as wide as its widest cell and 3 more. *)

Definition in_column (j : nat) (row : list string) : bool := (j + 1 <? length row)%nat.
Fixpoint column_prefix (j : nat) (rows : list (list string)) : list string :=
  match rows with
  | [] => []
  | row :: rows => if in_column j row then default "" (row !! j) :: column_prefix j rows else []
  end.
(** The cells of the column through line [i] at place [j]. *)
Definition column (rows : list (list string)) (i j : nat) : list string :=
  column_prefix j (reverse (take i rows)) ++ column_prefix j (drop i rows).
Definition column_width (rows : list (list string)) (i j : nat) : nat :=
  foldr (fun c w => Nat.max (String.length c + 3) w) 0%nat (column rows i j).

Definition pad_cell (rows : list (list string)) (i : nat) (row : list string) (j : nat) (cell : string) : string :=
  if in_column j row then pad_right (column_width rows i j) cell else cell.
Definition table_line (rows : list (list string)) (i : nat) (row : list string) : list string :=
  imap (pad_cell rows i row) row.

(** The lines written, cell by cell. *)
Definition table (rows : list (list string)) : list (list string) := imap (table_line rows) rows.
Definition table_text (rows : list (list string)) : list string :=
  foldr String.append "" <$> table rows.

(** ** Facts *)

Lemma round_half_even_nearest m d : 0 < d -> 2 * Z.abs (round_half_even m d * d - m) <= d.
Proof.
  intros Hd. unfold round_half_even. pose proof (Z.div_mod m d ltac:(lia)). pose proof (Z.mod_pos_bound m d Hd).
  destruct (Z.ltb_spec (2 * (m mod d)) d); [nia|]. destruct (Z.ltb_spec d (2 * (m mod d))); [nia|].
  destruct (Z.even (m / d)); nia.
Qed.

(** The digits printed denote the value rounded to [k] decimals: it is at most half
    a unit of the last place away. *)
Lemma scaled_nearest k m e :
  2 * Z.abs (scaled k m e * 2 ^ Z.max 0 (- e) - Z.pos m * 10 ^ Z.of_nat k * 2 ^ Z.max 0 e) <= 2 ^ Z.max 0 (- e).
Proof.
  unfold scaled. destruct (Z.leb_spec 0 e).
  - replace (Z.max 0 (- e)) with 0 by lia. rewrite (Z.max_r 0 e) by lia. change (2 ^ 0) with 1. lia.
  - rewrite (Z.max_r 0 (- e)), (Z.max_l 0 e) by lia. change (2 ^ 0) with 1. rewrite Z.mul_1_r.
    apply round_half_even_nearest. lia.
Qed.

Lemma digit_digit_char d : 0 <= d < 10 -> digit (digit_char d) = Some d.
Proof.
  intros Hd. assert (Hc : d = 0 \/ d = 1 \/ d = 2 \/ d = 3 \/ d = 4 \/ d = 5 \/ d = 6 \/ d = 7 \/ d = 8 \/ d = 9) by lia.
  by destruct_or! Hc; subst d.
Qed.

(** The digits after the point read back. *)
Lemma last_digits_read k n acc : 0 <= n -> digits acc (last_digits k n) = Some (acc * 10 ^ Z.of_nat k + n mod 10 ^ Z.of_nat k).
Proof.
  intros Hn. revert acc. induction k as [|k IH]; intros acc; cbn [last_digits digits].
  { change (10 ^ Z.of_nat 0) with 1. rewrite Z.mod_1_r. f_equal. lia. }
  rewrite digit_digit_char by (apply Z.mod_pos_bound; lia). rewrite IH. f_equal.
  rewrite Nat2Z.inj_succ, Z.pow_succ_r by lia. set (p := 10 ^ Z.of_nat k). assert (0 < p) by (unfold p; lia).
  rewrite (Z.mul_comm 10 p), Z.rem_mul_r by lia. lia.
Qed.

Lemma spaces_length n : String.length (spaces n) = n.
Proof. induction n; cbn; auto. Qed.

Lemma length_append s t : String.length (s +:+ t) = (String.length s + String.length t)%nat.
Proof.
  induction s as [|c s IH]; [done|]. change (String c s +:+ t) with (String c (s +:+ t)). cbn. by rewrite IH.
Qed.

Lemma pad_right_length w s : (String.length s <= w)%nat -> String.length (pad_right w s) = w.
Proof. intros H. unfold pad_right. rewrite length_append, spaces_length. lia. Qed.

(** ** Alignment *)

Definition widest (cells : list string) : nat := foldr (fun c w => Nat.max (String.length c + 3) w) 0%nat cells.

Lemma widest_perm l l' : l ≡ₚ l' -> widest l = widest l'.
Proof. unfold widest. intros Hp. induction Hp; cbn; lia. Qed.

Lemma widest_ge c l : c ∈ l -> (String.length c + 3 <= widest l)%nat.
Proof. unfold widest. induction 1; cbn; lia. Qed.

Section rectangular.
Variables (rows : list (list string)) (k j : nat).
Hypothesis Hrows : Forall (fun row => length row = k) rows.
Hypothesis Hj : (j + 1 < k)%nat.

Definition cell_of (row : list string) : string := default ""%string (row !! j).

Lemma rect_prefix rs : Forall (fun row => length row = k) rs -> column_prefix j rs = cell_of <$> rs.
Proof.
  induction 1 as [|row rs Hrow _ IH]; [done|]. cbn [column_prefix]. unfold in_column. rewrite Hrow.
  destruct (Nat.ltb_spec (j + 1) k); [|lia]. by rewrite IH.
Qed.

(** In a rectangular table a column runs through all lines. *)
Lemma rect_width i : column_width rows i j = widest (cell_of <$> rows).
Proof.
  unfold column_width, column. fold (widest (column_prefix j (reverse (take i rows)) ++ column_prefix j (drop i rows))).
  rewrite rect_prefix by (by apply Forall_reverse, Forall_take). rewrite rect_prefix by (by apply Forall_drop).
  apply widest_perm. by rewrite reverse_Permutation, <- fmap_app, take_drop.
Qed.

Lemma table_cell i row : rows !! i = Some row ->
  exists line, table rows !! i = Some line /\ line !! j = Some (pad_right (widest (cell_of <$> rows)) (cell_of row)).
Proof.
  intros Hi. exists (table_line rows i row). unfold table, table_line. rewrite !list_lookup_imap, Hi. split; [done|].
  pose proof (Forall_lookup_1 _ _ _ _ Hrows Hi) as Hlen. cbn in Hlen.
  destruct (lookup_lt_is_Some_2 row j ltac:(lia)) as [c Hc]. rewrite Hc. cbn. unfold pad_cell, in_column, cell_of. rewrite Hlen, Hc.
  destruct (Nat.ltb_spec (j + 1) k); [|lia]. by rewrite rect_width.
Qed.
End rectangular.

(** The tables are aligned: in a table whose rows have the same number of cells,
    every cell but the last of a row is printed as itself followed by at least 3
    spaces, and the printed cells of a column are equally long. *)
Theorem table_aligned (rows : list (list string)) (k j i1 i2 : nat) (row1 row2 : list string)
    (Hrows : Forall (fun row => length row = k) rows) (Hj : (j + 1 < k)%nat)
    (H1 : rows !! i1 = Some row1) (H2 : rows !! i2 = Some row2) :
  exists line1 line2 c1 c2, table rows !! i1 = Some line1 /\ table rows !! i2 = Some line2 /\
    line1 !! j = Some c1 /\ line2 !! j = Some c2 /\ String.length c1 = String.length c2 /\
    exists n1 n2, c1 = default ""%string (row1 !! j) +:+ spaces n1 /\ c2 = default ""%string (row2 !! j) +:+ spaces n2 /\
      (3 <= n1)%nat /\ (3 <= n2)%nat.
Proof.
  destruct (table_cell rows k j Hrows Hj i1 row1 H1) as (l1&Hl1&Hc1). destruct (table_cell rows k j Hrows Hj i2 row2 H2) as (l2&Hl2&Hc2).
  assert (Hw : forall i row, rows !! i = Some row -> (String.length (cell_of j row) + 3 <= widest (cell_of j <$> rows))%nat).
  { intros i row Hi. apply widest_ge, list_elem_of_fmap_2. by eapply list_elem_of_lookup_2. }
  pose proof (Hw _ _ H1). pose proof (Hw _ _ H2). eexists l1, l2, _, _. split_and!; try done.
  - rewrite !pad_right_length by lia. done.
  - eexists _, _. split_and!; [reflexivity|reflexivity|fold (cell_of j row1); lia|fold (cell_of j row2); lia].
Qed.

Example ms_units : ms 250000 = "0.25ms"%string /\ ms 9999999 = "10.00ms"%string /\ ms 10000000 = "10.0ms"%string /\
  ms 123456789 = "123.5ms"%string /\ ms 1500000000 = "1.50s"%string /\ ms (-1) = "-0.00ms"%string.
Proof. by vm_compute. Qed.

Example say_line : say (12340 * Millisecond) "worker-1" "lost the lock" = "[12.3s] worker-1  lost the lock"%string.
Proof. by vm_compute. Qed.

Example table_lines :
  table_text [["op"; "p50"; "max"]; ["acquire"; "0.25ms"; "1.50s"]]%string =
  ["op        p50      max"; "acquire   0.25ms   1.50s"]%string.
Proof. by vm_compute. Qed.
