(* ===== verification/Harness.v ===== *)
(** * Programs that use the client (examples/failover.go, jepsen/holder/main.go)

    The controller replica of the failover example and the client process of the
    fault-injection tests. Heartbeats run in the background: where a program looks
    at its session, the session of that moment is an input. *)

From S2P Require Import Prelude GoTime Errors Strings Transport Resolver Client Domain Raftlog Fsm FsmInv FsmSpec Fencing.

Section harness.
Context {GS : GrpcStatus} {Conn : Type} {RO : RangeOrder}.

(** ** A controller replica (failover.go) *)

Definition failover_lockName : string := "controllers/billing".
Definition failover_leaseTTL : Duration := 8 * Second.

(** What one pass of [run] meets: the answers to each call, the events of [lead],
    and the replica's [crashed] flag after it. *)
Record replica_pass := mkPass {
  ps_start : list (@round Conn pb_CreateLeaseResponse);
  ps_env : @attempt_env Conn;
  ps_wait : list (@wait_round Conn);
  ps_events : list lead_event;
  ps_crashed : bool;
  ps_release : pb_ReleaseLockRequest -> list (@round Conn pb_ReleaseLockResponse)
}.

(** How a pass ends: the process exits, a call is still under way, no lock was
    obtained, or the replica has led with a token and did, or did not, release. *)
Inductive pass_end := PassExit (err : error) | PassPending | PassFailed | PassLed (token : Z) (released : bool).

Definition run_pass (seeds : list string) (name : string) (db : controllerTable) (ps : replica_pass)
    : controllerTable * pass_end :=
  match NewClientWithSeeds (Conn := Conn) seeds name with
  | Err err => (db, PassExit err)
  | Ok c =>
    match Start c failover_leaseTTL (ps_start ps) (ps_env ps) with
    | (_, _, None, _) => (db, PassPending)
    | (_, _, Some (Some _), _) => (db, PassFailed)
    | (c, _, Some None, _) =>
      match WaitAcquire c failover_lockName (ps_wait ps) with
      | (_, _, None) => (db, PassPending)
      | (_, _, Some (Err _)) => (db, PassFailed)
      | (c, _, Some (Ok lock)) =>
        match lead name (Client.Token lock) db (ps_events ps) with
        | (db, None) => (db, PassPending)
        | (db, Some _) =>
          if ps_crashed ps then (db, PassLed (Client.Token lock) false)
          else let '(_, _) := Lock_Release c lock (ps_release ps) in (db, PassLed (Client.Token lock) true)
        end
      end
    end
  end.

(** [run]: the context is checked before every pass. *)
Fixpoint replica_run (seeds : list string) (name : string) (db : controllerTable) (passes : list (bool * replica_pass))
    : controllerTable * list pass_end :=
  match passes with
  | [] => (db, [])
  | (ctxDone, ps) :: passes =>
    if ctxDone then (db, []) else
    match run_pass seeds name db ps with
    | (db, PassExit err) => (db, [PassExit err])
    | (db, PassPending) => (db, [PassPending])
    | (db, e) => let '(db, es) := replica_run seeds name db passes in (db, e :: es)
    end
  end.

(** Whatever happens to a replica, the table it leaves has its history in order. *)
Lemma lead_table_ok name token db events : table_ok db -> table_ok (lead name token db events).1.
Proof.
  revert db. induction events as [|[| |now] events IH]; intros db Hdb; simpl; [done..|].
  pose proof (table_write_ok db name token now Hdb). destruct (table_write _ _ _ _) as [db' [err|]]; [done|]. by apply IH.
Qed.

Lemma run_pass_table_ok seeds name db ps : table_ok db -> table_ok (run_pass seeds name db ps).1.
Proof.
  intros Hdb. unfold run_pass. destruct (NewClientWithSeeds _ _) as [c|]; [|done].
  destruct (Start _ _ _ _) as [[[c1 ?] [[|]|]] ?]; [done| |done].
  destruct (WaitAcquire _ _ _) as [[c2 ?] [[lock|]|]]; [|done..].
  pose proof (lead_table_ok name (Client.Token lock) db (ps_events ps) Hdb) as Hl.
  destruct (lead _ _ _ _) as [db' [e|]]; [|done]. destruct (ps_crashed ps); [done|]. by destruct (Lock_Release _ _ _).
Qed.

Lemma replica_run_table_ok seeds name db passes : table_ok db -> table_ok (replica_run seeds name db passes).1.
Proof.
  revert db. induction passes as [|[ctxDone ps] passes IH]; intros db Hdb; simpl; [done|].
  destruct ctxDone; [done|]. pose proof (run_pass_table_ok seeds name db ps Hdb) as Hp.
  destruct (run_pass _ _ _ _) as [db' e]. destruct e; try done;
    (specialize (IH db' Hp); by destruct (replica_run _ _ _ passes)).
Qed.

(** ** The client process of the fault-injection tests (holder/main.go) *)

Inductive hold_event :=
| HReady | HBusy | HAcquired (token : Z) | HValid | HLost | HReleased | HError (phase : string) (err : error).

(** A line of input, with the session when it is read. *)
Record stdin_line := mkLine {
  ln_text : string;
  ln_session : leaseSession;
  ln_release : pb_ReleaseLockRequest -> list (@round Conn pb_ReleaseLockResponse)
}.

Fixpoint holder_loop (c : @Client Conn) (l : Client.Lock) (lines : list stdin_line) : list hold_event :=
  match lines with
  | [] => []
  | ln :: lines =>
    let c := set_session c (ln_session ln) in
    if String.eqb (ln_text ln) "check" then (if Done c then HLost else HValid) :: holder_loop c l lines
    else if String.eqb (ln_text ln) "release" then
      match Lock_Release c l (ln_release ln) with
      | (_, None) => []
      | (_, Some (Some err)) => [HError "release" err]
      | (_, Some None) => [HReleased]
      end
    else holder_loop c l lines
  end.

Record holder_flags := mkHolderFlags {
  hf_seeds : string; hf_owner : string; hf_lock : string; hf_ttl : Duration; hf_wait : Duration; hf_probe : bool }.

(** The events written; nothing more while a call is under way. *)
Definition holder_main (f : holder_flags) (start : list (@round Conn pb_CreateLeaseResponse)) (e : @attempt_env Conn)
    (waits : list (@wait_round Conn)) (acq : pb_AcquireLockRequest -> list (@round Conn pb_AcquireLockResponse))
    (lines : list stdin_line) : list hold_event :=
  match NewClientWithSeeds (split_comma (hf_seeds f)) (hf_owner f) with
  | Err err => [HError "setup" err]
  | Ok c =>
    match Start c (hf_ttl f) start e with
    | (_, _, None, _) => []
    | (_, _, Some (Some err), _) => [HError "lease" err]
    | (c, _, Some None, _) =>
      if hf_probe f then [HReady] else
      let '(c, r) :=
        if 0 <? hf_wait f then let '(c, _, r) := WaitAcquire c (hf_lock f) waits in (c, r)
        else Acquire c (hf_lock f) acq in
      match r with
      | None => []
      | Some (Ok l) => HAcquired (Client.Token l) :: holder_loop c l lines
      | Some (Err err) =>
        if errors_Is err ErrLockHeld || ((0 <? hf_wait f) && errors_Is err DeadlineExceeded) then [HBusy]
        else [HError "acquire" err]
      end
    end
  end.

(** A session that has failed closed stays so. *)
Fixpoint closes (was : bool) (lines : list stdin_line) : Prop :=
  match lines with
  | [] => True
  | ln :: lines => (was = true -> runCancelled (ln_session ln) = true) /\ closes (runCancelled (ln_session ln)) lines
  end.

Lemma closed_never_valid c l lines : closes true lines -> HValid ∉ holder_loop c l lines.
Proof.
  revert c. induction lines as [|ln lines IH]; intros c; simpl; [set_solver|]. intros [Hs Hc]. specialize (Hs eq_refl).
  rewrite Hs in Hc. unfold Done. simpl. rewrite Hs. repeat case_match; try set_solver; try (apply not_elem_of_cons; split; [done|]); by apply IH.
Qed.

(** The harness is told the truth: once a check has been answered "lost", no later
    check is answered "valid", and a release that is reported went through. *)
Lemma lost_is_final was c l lines pre post :
  closes was lines -> holder_loop c l lines = pre ++ HLost :: post -> HValid ∉ post.
Proof.
  revert was c pre. induction lines as [|ln lines IH]; intros was c pre; simpl; [intros _ H; by destruct pre|].
  intros [_ Hc]. unfold Done. simpl. destruct (String.eqb (ln_text ln) "check").
  - destruct (runCancelled (ln_session ln)) eqn:Er.
    + destruct pre as [|x pre]; simpl; intros H; simplify_eq; [by apply closed_never_valid|]. by eapply IH.
    + destruct pre as [|x pre]; simpl; intros H; simplify_eq. by eapply IH.
  - destruct (String.eqb (ln_text ln) "release"); [|by eapply IH].
    destruct (Lock_Release _ _ _) as [c' [[err|]|]]; intros H; destruct pre as [|? [|]]; by simplify_eq.
Qed.
End harness.
