(* ===== verification/Demos.v ===== *)
(** * The two demonstrations (examples/fencing.go, examples/failover.go: main)

    The scripts of the examples' main functions. What the cluster answers and, in
    the failover example, what the replicas write between two steps of the script
    are inputs; the narration is not modelled. [check] ends the process with the
    error it is given. *)

From S2P Require Import Prelude GoTime Errors Strings Domain Raftlog Fsm FsmInv FsmSpec RaftFsm LeaseTracker LockQueue Node Service.
From S2P Require Import Transport Runtime LocalCluster Resolver Client Bench Scenarios Fencing Harness.

Section demos.
Context {GS : GrpcStatus} {RO : RangeOrder} {PC : ProtoCodec} {RL : RaftLib} {Conn : Type}.
Variable close_err : Conn -> option error.

(** A step that only returns an error. *)
Definition check (m : option (option error)) : outcome unit :=
  match m with None => None | Some (Some err) => Some (Err err) | Some None => Some (Ok tt) end.

(** The in-process cluster both examples start. *)
Definition demo_cluster (mkdirTemp : result error string) (start : Z -> string -> LocalCluster * option (option error))
    : outcome LocalCluster :=
  match mkdirTemp with
  | Err err => Some (Err err)
  | Ok dataDir => let '(c, r) := start 3 dataDir in let! _ := check r in Some (Ok c)
  end.

(** ** fencing.go *)

Definition fencing_lockName : string := "accounts/42".
Definition fencing_leaseTTL : Duration := 2 * Second.

Definition startWorker (seeds : list string) (name : string) (io : @session_io Conn) : outcome (@Client Conn) :=
  match NewClientWithSeeds seeds name with
  | Err err => Some (Err err)
  | Ok c => let '(c, _, r, _) := Start c fencing_leaseTTL (se_rounds io) (se_env io) in let! _ := check r in Some (Ok c)
  end.

(** The tokens of the two workers, and the row at the end of the demonstration. *)
Definition fencing_main (mkdirTemp : result error string) (start : Z -> string -> LocalCluster * option (option error))
    (a_io b_io : @session_io Conn)
    (a_acq : pb_AcquireLockRequest -> list (@round Conn pb_AcquireLockResponse)) (b_waits : list (@wait_round Conn))
    : outcome (Z * Z * accountRow) :=
  let! cluster := demo_cluster mkdirTemp start in
  let db := zero_row in
  let! a := startWorker (Addrs cluster) "worker-a" a_io in
  let '(a, r) := Acquire a fencing_lockName a_acq in
  let! lockA := r in
  let '(db, _) := accountRow_write db "worker-a" (Client.Token lockA) 100 in
  let '(_, _, _, stopErr) := client_Stop a close_err in
  let! _ := check (Some stopErr) in
  let! b := startWorker (Addrs cluster) "worker-b" b_io in
  let '(b, _, r) := WaitAcquire b fencing_lockName b_waits in
  let! lockB := r in
  let '(db, _) := accountRow_write db "worker-b" (Client.Token lockB) 250 in
  let '(db, _) := accountRow_write db "worker-a" (Client.Token lockA) 90 in
  Some (Ok (Client.Token lockA, Client.Token lockB, db)).

(** ** failover.go *)

Record replica := mkReplica { rp_name : string; rp_cancelled : bool; rp_done : bool; rp_crashed : bool }.

Definition failover_tick : Duration := 500 * Millisecond.

(** The replica's goroutine is [replica_run] of Harness, over the same table. *)
Definition startReplica (name : string) : replica := mkReplica name false false false.
(** Cancels the replica's context and waits for its goroutine to return. *)
Definition shutdown (r : replica) : replica := mkReplica (rp_name r) true true (rp_crashed r).
Definition crash (r : replica) : replica := shutdown (mkReplica (rp_name r) (rp_cancelled r) (rp_done r) true).
Definition isCrashed (r : replica) : bool := rp_crashed r.

(** The writes that reach the table between two steps of the script. *)
Definition writes_between (db : controllerTable) (ws : list (string * Z * Time)) : controllerTable :=
  foldl (fun db w => (table_write db w.1.1 w.1.2 w.2).1) db ws.

Definition crashActive (active : string) (rs : list replica) : list replica :=
  (fun r => if String.eqb (rp_name r) active then crash r else r) <$> rs.

(** Whether writes still arrive after the election, the replicas at the end, and
    the history printed. *)
Definition failover_main (mkdirTemp : result error string) (start : Z -> string -> LocalCluster * option (option error))
    (polls polls2 : list poll) (raftErr : option error) (ws1 ws2 ws3 : list (string * Z * Time)) (now : Time)
    : outcome (bool * list replica * list (Z * nat * string)) :=
  let! cluster := demo_cluster mkdirTemp start in
  let '(cluster, r) := LocalCluster_WaitForLeader cluster polls in
  let! leader := r in
  let replicas := (fun i => startReplica ("replica-" +:+ pretty (Z.of_nat i + 1))) <$> seq 0 3 in
  match StopNode cluster leader raftErr with
  | None => None
  | Some (cluster, err) =>
    let! _ := check (Some err) in
    let '(_, r) := LocalCluster_WaitForLeader cluster polls2 in
    let! newLeader := r in
    let db := writes_between zero_table ws1 in
    let still := Since now (lastWrite db).2 <? 2 * failover_tick in
    let db := writes_between db ws2 in
    let active := (lastWrite db).1.1 in
    let replicas := crashActive active replicas in
    let db := writes_between db ws3 in
    let replicas := shutdown <$> replicas in
    Some (Ok (still, replicas, summarize db))
  end.

(** ** Proofs *)

(** What the fencing example demonstrates: with the tokens in order, as they are
    when the second worker acquired later, the row at the end is the second
    worker's, and the first one's late write has changed nothing; were the tokens
    not in order, the stalled worker would have overwritten it. *)
Lemma fencing_main_row mkdirTemp start a_io b_io a_acq b_waits tokA tokB row :
  0 <= tokA -> fencing_main mkdirTemp start a_io b_io a_acq b_waits = Some (Ok (tokA, tokB, row)) ->
  row = if tokA <? tokB then mkRow 250 tokB "worker-b" else mkRow 90 tokA "worker-a".
Proof.
  intros HA. unfold fencing_main. destruct (demo_cluster _ _) as [[cluster|]|]; [|done..]. cbn [and_then].
  destruct (startWorker _ _ a_io) as [[a|]|]; [|done..]. cbn [and_then].
  destruct (Acquire a _ _) as [a' [[lockA|]|]]; [|done..]. cbn [and_then].
  destruct (client_Stop a' close_err) as [[[? ?] ?] [err|]]; [by destruct (accountRow_write _ _ _ _)|].
  destruct (startWorker _ _ b_io) as [[b|]|]; [|by destruct (accountRow_write _ _ _ _)..]. cbn [and_then check].
  destruct (WaitAcquire b _ _) as [[b' ?] [[lockB|]|]]; [|by destruct (accountRow_write _ _ _ _)..]. cbn [and_then].
  unfold accountRow_write, zero_row. cbn [row_token].
  destruct (Z.ltb_spec (Client.Token lockA) 0) as [Hneg|Hpos].
  { repeat case_match; intros; simplify_eq; lia. }
  cbn [row_token]. destruct (Z.ltb_spec (Client.Token lockB) (Client.Token lockA)); cbn [row_token].
  - rewrite Z.ltb_irrefl. intros [= <- <- <-]. destruct (Z.ltb_spec (Client.Token lockA) (Client.Token lockB)); [lia|done].
  - destruct (Client.Token lockA <? Client.Token lockB) eqn:E; intros [= <- <- <-]; by rewrite E.
Qed.

Lemma names_kept (f : replica -> replica) (rs : list replica) : (forall r, rp_name (f r) = rp_name r) -> rp_name <$> (f <$> rs) = rp_name <$> rs.
Proof. intros Hf. induction rs as [|r rs IH]; [done|]. cbn. by rewrite Hf, IH. Qed.

(** The failover example crashes only the replica that wrote last, and every
    replica has been told to stop at the end. *)
Lemma failover_main_replicas mkdirTemp start polls polls2 raftErr ws1 ws2 ws3 now still rs summary :
  failover_main mkdirTemp start polls polls2 raftErr ws1 ws2 ws3 now = Some (Ok (still, rs, summary)) ->
  rp_name <$> rs = ["replica-1"; "replica-2"; "replica-3"] /\ Forall (fun r => rp_cancelled r = true /\ rp_done r = true) rs /\
  (forall r, r ∈ rs -> isCrashed r = true <-> rp_name r = (lastWrite (writes_between (writes_between zero_table ws1) ws2)).1.1).
Proof.
  unfold failover_main. destruct (demo_cluster _ _) as [[cluster|]|]; [|done..]. cbn [and_then].
  destruct (LocalCluster_WaitForLeader cluster polls) as [c1 [[leader|]|]]; [|done..]. cbn [and_then].
  destruct (StopNode c1 leader raftErr) as [[c2 [err|]]|]; [done| |done]. cbn [and_then check].
  destruct (LocalCluster_WaitForLeader c2 polls2) as [c3 [[leader'|]|]]; [|done..]. cbn [and_then].
  set (active := (lastWrite _).1.1). set (initial := (_ <$> seq 0 3)). intros Heq.
  assert (Hrs : rs = shutdown <$> crashActive active initial) by congruence. clear Heq. clearbody active. subst rs. split_and!.
  - rewrite names_kept by done. unfold crashActive. rewrite names_kept by (intros; by case_match). by vm_compute.
  - apply list.Forall_forall. intros r (r'&->&_)%list_elem_of_fmap. done.
  - unfold crashActive, initial. intros r (r1&->&(r2&->&(i&->&_)%list_elem_of_fmap)%list_elem_of_fmap)%list_elem_of_fmap.
    set (nm := (_ +:+ _)%string). clearbody nm. cbn. by destruct (String.eqb_spec nm active); cbn.
Qed.
End demos.
